(* ===== verification/_CoqProject ===== *)
-Q . S2P
Prelude.v
RustStr.v
RustText.v
Float64.v
Json.v
Prog.v
BTreeMap.v
Conditions.v
Phases.v
TrafficShiftTypes.v
TrafficShift.v
TrafficShiftFacts.v
TrafficShiftProps.v
TrafficShiftWitness.v
JobRetention.v
JobOrphan.v
JobOrphanFacts.v
JobOrphanWitness.v
BlueGreen.v
BlueGreenReconcile.v
BlueGreenFacts.v
BlueGreenProgress.v
BlueGreenWitness.v
MaintenanceTypes.v
Maintenance.v
MaintenanceBackends.v
MaintenanceFacts.v
MaintenancePlans.v
MaintenanceProps.v
MaintenanceWitness.v
QuorumGraph.v
QuorumFacts.v
QuorumAnalyzer.v
QuorumProps.v
QuorumWitness.v
Contract.v
AmmPool.v
AmmFacts.v
AmmWitness.v
Escrow.v
EscrowFacts.v
EscrowYield.v
EscrowProps.v
EscrowWitness.v
HashTree.v
Merkle.v
MerkleFacts.v
MerkleProps.v
UpgradeProxy.v
ProxyFacts.v
ProxyProps.v
AuditChain.v
AuditFacts.v
AuditProps.v
AuditWitness.v
ConfigRollout.v
ConfigFacts.v
ConfigProps.v
PolicyPromotion.v
PolicyFacts.v
PolicyProps.v
DepGate.v
DepGateFacts.v
DepGateProps.v
Deploy.v
DeployFacts.v
DeployProps.v
DeployRollback.v
Threads.v
Drain.v
DrainFacts.v
DrainMachine.v
DrainProps.v
Leader.v
LeaderFacts.v
Prune.v
PruneFacts.v
PruneProps.v
Ownership.v
OwnershipFacts.v
