(* ===== verification/Prelude.v ===== *)
(** * Stellar-K8s: a verification library

    Stellar-K8s is a Kubernetes operator, in Rust, for Stellar nodes.  This
    library models the logic of twenty-one of its parts and proves what makes
    each of them correct.  It is a shallow embedding: a struct is a record, an
    enum an inductive type, a function a function, fallible code returns
    [result], and every definition can be evaluated.

    ** The program's parts and the files that model them

    - Shared vocabulary: this file (integers at their width, time, results, list
      idioms and their lemmas, the hint databases and tactics), [RustStr] (the
      [str] operations of the standard library), [RustText] (slices, numbers and blanks), [Float64] (IEEE-754
      doubles on the specification floats of the standard library), [Json],
      [BTreeMap] (ordered maps and sets, iterated in key order) and [Prog] (effectful
      code as programs over the requests it makes, their executions against any
      answers, and the program logics the theorems about them use).

    - Status conditions, [src/src/controller/conditions.rs] and the [Condition]
      type of [src/src/crd/types.rs]: [Conditions].

    - The reconcile phase machine, [src/src/controller/phases.rs], and the way
      [reconcile] and [apply_stellar_node] of
      [src/src/controller/reconciler.rs] drive it: [Phases].

    - Regional traffic shifting, [src/src/crd/traffic_shift_plan.rs]
      ([TrafficShiftTypes]) and [src/src/controller/traffic_shift.rs]
      ([TrafficShift]): evidence, gate, next action, the reducer [apply_action]
      and the cycle [reconcile_cycle_with_control], which is one step of the
      plan's state machine.  [TrafficShiftFacts] has the invariants and the lemmas
      of the components, [TrafficShiftProps] the theorems over runs,
      [TrafficShiftWitness] concrete runs.

    - Orphaned Jobs and Pods, [src/src/crd/job_retention.rs] ([JobRetention]) and
      [src/src/controller/job_orphan_reconciler.rs] ([JobOrphan]): observation of
      API objects, classification, the plan, and its application against an
      arbitrary API server.  [JobOrphanFacts] has the theorems,
      [JobOrphanWitness] concrete sweeps.

    - Validator blue/green rollout, [src/src/controller/blue_green_core.rs]:
      [BlueGreen] has the pure decisions (steps, planners, safety clamp, promotion
      gate, configuration texts), [BlueGreenReconcile] the reconciler as programs
      over the requests it makes, [BlueGreenFacts] the program logic over traces of
      requests and answers with the safety theorems, [BlueGreenProgress] loop
      bounds, completion and persistence, [BlueGreenWitness] concrete runs.

    - Planned maintenance of cluster nodes, [src/src/crd/maintenance_plan.rs]
      ([MaintenanceTypes]), [src/src/controller/maintenance/plan_engine.rs]
      ([Maintenance]: the engine as a program over the requests of the trait
      [ClusterOps]) and [plan_controller.rs] ([MaintenanceBackends]: the snapshot the
      controller runs it on, the deferred writes, and the simulated cluster of
      [plan_engine.rs]).  [MaintenanceFacts] has the theorems on evictions and
      cordons, [MaintenancePlans] the abstract life of a plan and the refinement,
      [MaintenanceProps] aborts and the controller, [MaintenanceWitness] concrete
      plans.

    - Quorum analysis of a validator, [src/src/controller/quorum]: [QuorumGraph]
      has the data ([types.rs]) and the trust graph ([graph.rs]), [QuorumAnalyzer] the
      latency and uptime windows, the analyzer, the optimizer and the pass of
      [reconciler.rs] that publishes the result.  [QuorumFacts] has the theorems on
      combinations and intersections, [QuorumProps] those on the windows, the
      recommendations and the published conditions, [QuorumWitness] concrete networks.
      The order a hash map is iterated in and the hash of the standard library are
      the classes [HashIter] and [Hasher].

    - Contract primitives: [Contract] has calls on a mutable state that keep what they
      wrote before an error, their program logic, and 128-bit integers.  [AmmPool] is the
      constant-product pool of [src/src/contracts/amm_pool], with [AmmFacts] and
      [AmmWitness]; [Escrow] is the collateral vault of
      [src/contracts/escrow-vault/src], with its invariant in [EscrowFacts], the split of
      the yield in [EscrowYield], the theorems in [EscrowProps] and concrete vaults in
      [EscrowWitness].  Signatures are the class [Ed25519].  [Merkle] is the proof primitive
      of [src/src/contracts/merkle_proof], its digests the class [Digests]: [MerkleFacts]
      has the trees, [MerkleProps] the registry of roots over its life, with
      concrete trees.  [UpgradeProxy] is the proxy of [src/src/contracts/upgrade_proxy], its
      serializer the class [Serde]: [ProxyFacts] has the record its store represents,
      [ProxyProps] the refinement and what follows, with a concrete proxy.

    - The audit chain, [src/src/audit_chain.rs]: [AuditChain] has the chain, its verification,
      queries and checkpoints, what it takes of other crates the class [AuditDeps] with the
      laws [AuditLaws]; [AuditFacts] the hashes and the records they link, [AuditProps]
      appended chains and checkpoints, [AuditWitness] concrete chains.  [HashTree] has the
      loops over the levels of a tree and the collisions that the audit chain and the Merkle
      primitive share.

    - The progressive rollout of configuration, [src/src/progressive_config.rs]:
      [ConfigRollout] has bundles, targets, gates, the engine and its recording applier; the
      applier and the clock the engine is handed are the class [World], the texts of other
      crates the class [Texts].  [ConfigFacts] has the choice of the canary and the bound of its
      size, [ConfigProps] the effect of every call and the theorems over histories of calls,
      with a concrete fleet.

    - The promotion of policy bundles, [src/src/policy_promotion.rs]: [PolicyPromotion] has
      bundles with their digests, the impact analysis and the pipeline from dev to production;
      SHA-256 is the class [Sha], the clocks the class [Clock].  [PolicyFacts] has what a digest
      binds, what the analysis lets pass and the effect of every call, [PolicyProps] the
      theorems over histories of calls, with concrete promotions.

    - The gate for dependency upgrades, [src/src/dependency_contract.rs]: [DepGate] has versions,
      contract tests, the compatibility matrix and the gate with its artifact; [DepGateFacts] the
      loops and the texts of versions, [DepGateProps] the theorems, with concrete
      upgrades.

    - Deployment strategies, [src/src/deployment_strategy.rs]: [Deploy] has the calls of the
      controller, over a clock (class [UtcClock]) and a map iterated in any order ([MapOrder]);
      [DeployFacts] the pure function a call is on one deployment, [DeployProps] the theorems
      over histories of calls, with concrete deployments.  The rollback engine,
      [src/src/rollback_engine.rs], with the class [RollbackAction] for its trait:
      [DeployRollback].

    - Connection draining, [src/src/connection_drain.rs]: [Drain] has every method as a program
      over its atomic operations, and [Threads] the interleavings of such tasks, the runs that
      switch at awaits only, and a credit logic for shared counters.  [DrainFacts] has what holds
      in every interleaving, [DrainMachine] the machine of whole calls that the tasks implement
      on one thread, [DrainProps] the theorems, with concrete schedules.

    - The ownership registry, [src/src/crd/service_ownership.rs] and
      [src/src/controller/ownership_registry.rs]: [Ownership] has the reading of CODEOWNERS files,
      the derived status, the routing of alerts and the reconciler as a program over its requests;
      [OwnershipFacts] the language of the patterns, the theorems and concrete cycles.

    - Leader election, [src/src/controller/leader.rs]: [Leader] has the attempts, the guard and
      the election loop, [LeaderFacts] what is asked of the API server (the class
      [LeaseServer] and its laws), exclusion, and the schedules without it.

    - Archive pruning, [src/src/controller/archive_prune.rs], [pruning_worker.rs],
      [pruning_reconciler.rs]: [Prune] has scan, choice and deletions of the command and of the
      reconciler, under the guard of [Leader]; [PruneFacts] the choice as a cut of the sorted
      list and what precedes a deletion, [PruneProps] the theorems, with concrete archives.

    The parts meet at the node and plan statuses: the phase machine and the
    conditions are what [reconcile] publishes for a node, the traffic controller
    publishes conditions with the constructors of [Conditions], the maintenance
    engine sets one with [set_condition] at every phase it enters, and the rollout
    keeps its own phase and steps in annotations.

    ** What the theorems show

    - Traffic: every change of the published share is the publication of an
      increment that was drained, under a gate seen open when the drain started,
      and moves towards the target; a plan completes in a bounded number of
      favourable cycles; every reachable status is coherent; an open failover gate
      is backed by probes; increments never overshoot; invalid plans are refused.
      Also what the code does where its comments say otherwise: increments grow, a
      drained increment is published whatever the gate, an abort forgets the error
      budget, Failed is absorbing, the RTO report never has its own dates.
    - Rollout: the cutover is serialized against any cluster (blue seen down before
      green publishes, green seen promotable before the Service moves), rollback
      waits for blue, failures are stable, deletions spare storage and are of a
      timed-out green, the bounded loops are never cut short, a cooperative cluster
      completes in one pass, progress is read back; and the step from which a
      cutover cannot end.
    - Orphans: every request of a sweep is justified by what was observed, running
      work is never deleted, the plan accounts for every artifact, a sweep settles,
      a dry run predicts the sweep, a repair makes the owner live; and that foreign
      controllers do not protect an artifact.
    - Maintenance: against every backend an eviction is justified by what the pass
      read and the evictions of a pass fit the disruption budgets, a cordon follows
      verification, an abort has a reason; recorded statuses are well formed and every
      pass refines the abstract life of a plan, so a pass never panics, what is
      recorded only grows and a completed plan has handled every target; the
      controller's evictions are justified by its listings.  Also that the controller
      never sees a breach of the service level, and that a node can be drained without
      having been cordoned.
    - Quorum: the intersection check decides exactly what a quantified statement over
      all pairs of quorums says; in a network whose validators share one threshold the
      guaranteed overlap is the classical one; a quorum set the optimizer applies
      still intersects; the measurement windows keep their bounds; the conditions
      follow the analysis.  Also that the search for critical nodes never finds one.
    - Pool, as long as payments fit the reserves: the square root is exact, shares stay backed
      and their value never falls over any sequence of calls, a round trip of liquidity never
      gains, quotes are honoured.  Also that a payment that does not fit empties the pool.
    - Vault: whatever is called, the balance covers the liabilities and every deposit is
      accounted for; exactly so when nobody acts for the vault itself; the yield is split
      without loss, locked collateral is paid back, winding down leaves nothing, a slash
      is justified by proofs or a dispute.  Also that a downtime proof never expires.
    - Merkle proofs: a root determines its leaves up to a collision among the strings that
      were hashed, an accepted leaf is in the list behind the root the authority published
      last for the epoch, and a published leaf stays provable until the root expires.  Also
      that a root does not determine the number of its leaves.
    - Proxy: the store implements a record with atomic calls and touches no other key, the
      documented one as long as no rollback is called with a proposal pending; the active code was proposed and executed by governors, a rollback undoes an upgrade.
    - Audit chain: the hash a verified chain ends with, or a checkpoint, binds the whole
      history up to a collision; an appended chain verifies exactly when the clock did not
      go back.  Also that prefixes verify, with any signatures.
    - Configuration: over any history of calls a bundle reaches a target outside the canary
      only after the gates passed on the canary and the rollout was completed; failed gates
      restore every canary target; the canary is small and does not depend on the order of
      the targets.  Also that a restored bundle carries no settings.
    - Policies: what is active in production was accepted for dev, staging and production in
      this order, with the same rules up to a collision; one rollback undoes a release.  Also
      that rules with a bar in them can take the place of others, and that a bundle promoted
      to an enforcing environment enforces at once.
    - Upgrades, of call sites that name what they reach: the verdict and the blame are exactly what a statement over the changes and the
      call sites says, the suite has one test for each pair of a consumer and an API, versions
      are read back.  Also that a release ranks below its candidates and that a signature does
      not bind what it signs.
    - Deployments do not interfere: each depends, times apart, on the calls that name it and the
      health checks alone; a canary that requires an approval passes its initial share only after
      it, and a healthy one completes; a
      rollback is of a deployment whose error budget burned in both windows.  Also that a
      canary which asks for no approval never starts, and that the other strategies need none.
    - Draining: however tasks without streams are interleaved, a drain never reports fewer forced
      terminations than connections at work; on one thread its counters are exact, with streams.
      Also that on several threads a stream can be released twice and that a connection can slip
      past a drain.
    - Pruning: a removed file was found by a walk, is too old and out of retention with a buffer
      of newer ones kept, and is removed under --force or an automatic policy after the lease was
      written; the report counts the removals.  Also that local archives know no ledgers.
    - Ownership: the owners of a path are those of the last rule of the file that covers it, as a
      statement on cuts of the path; after a cycle an alert reaches the team that owns its workload,
      and exactly the workloads without one are alerted on; over any cycles the history names the
      owner.  Also that two stars need not end at a segment, and that a workload can come back
      without a record.
    - Leadership: against any server that keeps the lease as documented, attempts that are not
      interleaved exclude each other for the time of the lease; interleaved ones do not.
    - Phases and conditions: histories are legal trails, the pipeline order, the
      contract of a transition, read-after-write of conditions; and that a pass over
      a live node never reaches Succeeded.

    ** Modelling choices and bounds

    Integers are [Z] with the wrap-around of the release profile written where an
    operation can leave its width ([as_u32], [as_i64]).  Times are nanoseconds;
    the panics of chrono at the ends of its range are not modelled.  Step indices
    are [u32]: theorems over runs assume fewer than 2^32 increments, or targets of a
    plan, where the code would wrap.  The cursor loop of a plan takes the number of
    targets as fuel, and a lemma shows it stops at an unhandled node.  The cutover and rollback loops take their bound, four, as fuel, and
    a theorem shows that more changes nothing; the fuel of [trim] is the length of
    its input, that of [split_whitespace] one more, and a step removes at least a byte.  The loop of [isqrt] takes 128, and a
    theorem shows that more changes nothing; the loops over the levels of a Merkle tree take
    the number of leaves, and a lemma shows that more changes nothing.  The size of a canary is a product
    of doubles, computed for every fleet of up to a thousand targets, and so is the share of
    resources a policy denies.  The waits of a drain take the number of wake-ups before their
    timeout as fuel, and the theorems hold for every such number.  The clock, the parsing and
    rendering of times and the API server are parameters: functions, classes of
    operations, or arbitrary answers, instantiated in the witness files.

    ** What is not modelled

    Asynchronous drivers and HTTP clients (their calls are requests with arbitrary
    answers), metrics and logging, the rendering of Kubernetes objects
    ([resources.rs]), the remaining custom resources, the admission webhook, the
    REST API, the scheduler, backup, the command line, and the separate crates
    (the other contracts, plugins, firewall).  Next in the plan: the generic blue/green
    controller for Deployments, the canary analysis,
    Byzantine monitoring, remediation, and the configuration texts of the rollout. *)

From stdpp Require Import prelude gmap strings pretty list.
From Stdlib Require Import Lia Sorted.

(** ** Machine integers

    Rust integers are carried as [Z].  Every field keeps its source width by
    the [in_u32] / [in_i64] predicates, and every arithmetic operation that can
    leave the width is written with the wrap-around of the release profile
    (the workspace sets no [overflow-checks]). *)

Declare Scope rust_scope.
Delimit Scope rust_scope with rust.

Definition as_u32 (z : Z) : Z := z mod 2 ^ 32.
Definition as_u64 (z : Z) : Z := z mod 2 ^ 64.
Definition as_i64 (z : Z) : Z := (z + 2 ^ 63) mod 2 ^ 64 - 2 ^ 63.
Definition u32_add (a b : Z) : Z := as_u32 (a + b).
Definition i64_add (a b : Z) : Z := as_i64 (a + b).
Definition i64_mul (a b : Z) : Z := as_i64 (a * b).
Definition in_u32 (z : Z) : Prop := (0 <= z < 2 ^ 32)%Z.
Definition in_u64 (z : Z) : Prop := (0 <= z < 2 ^ 64)%Z.
Definition in_i64 (z : Z) : Prop := (- 2 ^ 63 <= z < 2 ^ 63)%Z.

(** [x.clamp(lo, hi)]; Rust panics when [hi < lo], which no caller reaches. *)
Definition clamp (lo hi z : Z) : Z := Z.max lo (Z.min hi z).

Notation "a +u32 b" := (u32_add a b) (at level 50, left associativity) : rust_scope.
Open Scope rust_scope.

(** ** Time

    A [DateTime<Utc>] is its instant in nanoseconds since the epoch and a
    [chrono::Duration] is a signed number of nanoseconds. *)

Abbreviation DateTime := Z (only parsing).
Abbreviation Duration := Z (only parsing).

Definition NANOS : Z := 1000000000.
Definition seconds (s : Z) : Duration := (s * NANOS)%Z.
(** [Duration::num_seconds] / [num_minutes]: truncation towards zero. *)
Definition num_seconds (d : Duration) : Z := Z.quot d NANOS.
Definition num_minutes (d : Duration) : Z := Z.quot d (60 * NANOS).

(** ** Results *)

Inductive result (T E : Type) : Type :=
| Ok (v : T)
| Err (e : E).
Arguments Ok {T E} v.
Arguments Err {T E} e.

(** ** Iterator idioms

    [iter().find(p)] is stdpp's [list_find]-free [find_first]; mutation through
    [iter_mut().find(p)] rewrites the first match in place and
    [iter_mut().rev().find(p)] the last one. *)

Section iterators.
Context {A : Type}.
Implicit Types (p : A → bool) (f : A → A) (l : list A).

Fixpoint find_first p l : option A :=
  match l with
  | [] => None
  | x :: l' => if p x then Some x else find_first p l'
  end.

Definition find_last p l : option A := find_first p (reverse l).

Fixpoint update_first p f l : list A :=
  match l with
  | [] => []
  | x :: l' => if p x then f x :: l' else x :: update_first p f l'
  end.

Definition update_last p f l : list A := reverse (update_first p f (reverse l)).

Definition count (p : A → bool) (l : list A) : Z := Z.of_nat (length (List.filter p l)).
End iterators.

(** [iter().max()] over integers. *)
Fixpoint max_Z (l : list Z) : option Z :=
  match l with
  | [] => None
  | x :: l' => match max_Z l' with None => Some x | Some m => Some (Z.max x m) end
  end.

(** [sort_by] is a stable sort, so it is the insertion sort that places an
    element before the equal ones that follow it. *)
Section sorting.
Context {A : Type} (le : A → A → bool).

Fixpoint insert_by (x : A) (l : list A) : list A :=
  match l with
  | [] => [x]
  | y :: l' => if le x y then x :: l else y :: insert_by x l'
  end.

Definition sort_by (l : list A) : list A := foldr insert_by [] l.
End sorting.

(** ** Automation *)

Create HintDb rust.

(** Turn boolean tests in the context and the goal into propositions. *)
Ltac breflect :=
  repeat match goal with
  | H : _ && _ = true |- _ => apply andb_true_iff in H; destruct H
  | H : _ || _ = false |- _ => apply orb_false_iff in H; destruct H
  | H : negb _ = true |- _ => apply negb_true_iff in H
  | H : negb _ = false |- _ => apply negb_false_iff in H
  | H : (_ =? _)%Z = true |- _ => apply Z.eqb_eq in H
  | H : (_ =? _)%Z = false |- _ => apply Z.eqb_neq in H
  | H : (_ <? _)%Z = true |- _ => apply Z.ltb_lt in H
  | H : (_ <? _)%Z = false |- _ => apply Z.ltb_ge in H
  | H : (_ <=? _)%Z = true |- _ => apply Z.leb_le in H
  | H : (_ <=? _)%Z = false |- _ => apply Z.leb_gt in H
  | H : bool_decide _ = true |- _ => apply bool_decide_eq_true in H
  | H : bool_decide _ = false |- _ => apply bool_decide_eq_false in H
  end.

(** Case on the scrutinee of the innermost match or test of the goal or of a
    hypothesis, remembering the equation. *)
Ltac case_goal :=
  match goal with
  | |- context [match ?x with _ => _ end] =>
      lazymatch x with
      | context [match _ with _ => _ end] => fail
      | _ => destruct x eqn:?
      end
  end.

Ltac case_hyp H :=
  match type of H with
  | context [match ?x with _ => _ end] =>
      lazymatch x with
      | context [match _ with _ => _ end] => fail
      | _ => destruct x eqn:?
      end
  end.

(** ** Shared lemmas *)

Lemma as_u32_small z : in_u32 z → as_u32 z = z.
Proof. unfold in_u32, as_u32. intros. by apply Z.mod_small. Qed.

Lemma as_u32_range z : in_u32 (as_u32 z).
Proof. unfold in_u32, as_u32. by apply Z.mod_pos_bound. Qed.

Lemma u32_add_small a b : (0 <= a)%Z → (0 <= b)%Z → (a + b < 2 ^ 32)%Z → a +u32 b = (a + b)%Z.
Proof. intros. apply as_u32_small. unfold in_u32. lia. Qed.

Lemma u32_add_range a b : in_u32 (a +u32 b).
Proof. apply as_u32_range. Qed.
#[export] Hint Resolve as_u32_range u32_add_range : rust.

Lemma as_i64_small z : in_i64 z → as_i64 z = z.
Proof. unfold in_i64, as_i64. intros. rewrite Z.mod_small; lia. Qed.

Section iterator_lemmas.
Context {A : Type}.
Implicit Types (p : A → bool) (f : A → A) (l : list A).

Lemma find_first_Some p l x : find_first p l = Some x → x ∈ l ∧ p x = true.
Proof.
  induction l as [|y l IH]; simpl; [done|].
  rewrite elem_of_cons.
  destruct (p y) eqn:Hp; intros H; [simplify_eq; auto|destruct (IH H); auto].
Qed.

Lemma find_first_None p l : find_first p l = None ↔ ∀ x, x ∈ l → p x = false.
Proof.
  induction l as [|y l IH]; simpl.
  { split; [|done]. intros _ x Hx. by apply not_elem_of_nil in Hx. }
  setoid_rewrite elem_of_cons. destruct (p y) eqn:Hp.
  - split; [done|]. intros H. specialize (H y (or_introl eq_refl)). congruence.
  - rewrite IH. split; [|by auto]. intros H x [->|Hx]; auto.
Qed.

Lemma find_first_is_Some p l x : x ∈ l → p x = true → is_Some (find_first p l).
Proof.
  intros Hx Hp. destruct (find_first p l) eqn:H; [eauto|].
  rewrite find_first_None in H. rewrite H in Hp; done.
Qed.

Lemma find_first_app p l1 l2 :
  find_first p (l1 ++ l2) =
  match find_first p l1 with Some x => Some x | None => find_first p l2 end.
Proof. induction l1 as [|x l1 IH]; simpl; [done|]. by destruct (p x). Qed.

Lemma find_last_Some p l x : find_last p l = Some x → x ∈ l ∧ p x = true.
Proof. intros [H ?]%find_first_Some. rewrite elem_of_reverse in H. done. Qed.

Lemma find_last_None p l : find_last p l = None ↔ ∀ x, x ∈ l → p x = false.
Proof. unfold find_last. rewrite find_first_None. setoid_rewrite elem_of_reverse. done. Qed.

(** The first match of a predicate only one element satisfies is that element. *)
Lemma find_first_unique p l x :
  x ∈ l → p x = true → (∀ y, y ∈ l → p y = true → y = x) → find_first p l = Some x.
Proof.
  intros Hx Hp Hu. destruct (find_first_is_Some p l x Hx Hp) as [y Hy].
  rewrite Hy. apply find_first_Some in Hy as [??]. f_equal. auto.
Qed.

Lemma length_update_first p f l : length (update_first p f l) = length l.
Proof. induction l; simpl; [done|]. destruct (p a); simpl; lia. Qed.

(** Every element after the update is an old element, or the image of an old
    element that satisfied the predicate. *)
Lemma elem_of_update_first p f l y :
  y ∈ update_first p f l → y ∈ l ∨ ∃ x, x ∈ l ∧ p x = true ∧ y = f x.
Proof.
  induction l as [|x l IH]; simpl; [auto|]. setoid_rewrite elem_of_cons.
  destruct (p x) eqn:Hp; rewrite !elem_of_cons.
  { intros [->|H]; [right; exists x|]; auto. }
  intros [->|H]; [auto|].
  destruct (IH H) as [|(z&?&?&?)]; [auto|]. right. exists z. auto.
Qed.

Lemma update_first_none p f l : (∀ x, x ∈ l → p x = false) → update_first p f l = l.
Proof.
  induction l as [|x l IH]; simpl; intros H; [done|].
  setoid_rewrite elem_of_cons in H.
  rewrite (H x) by auto. f_equal. apply IH. auto.
Qed.

Lemma length_update_last p f l : length (update_last p f l) = length l.
Proof. unfold update_last. by rewrite length_reverse, length_update_first, length_reverse. Qed.

Lemma elem_of_update_last p f l y :
  y ∈ update_last p f l → y ∈ l ∨ ∃ x, x ∈ l ∧ p x = true ∧ y = f x.
Proof.
  unfold update_last. rewrite elem_of_reverse. intros [H|(x&H&?&?)]%elem_of_update_first;
    rewrite elem_of_reverse in H; eauto.
Qed.

(** An update that preserves a projection preserves the list of projections. *)
Lemma fmap_update_first {B} (g : A → B) p f l :
  (∀ x, p x = true → g (f x) = g x) → g <$> update_first p f l = g <$> l.
Proof.
  intros Hg. induction l as [|x l IH]; csimpl; [done|].
  destruct (p x) eqn:E; csimpl; [by rewrite Hg|by rewrite IH].
Qed.

Lemma fmap_update_last {B} (g : A → B) p f l :
  (∀ x, p x = true → g (f x) = g x) → g <$> update_last p f l = g <$> l.
Proof.
  intros Hg. unfold update_last. rewrite fmap_reverse, fmap_update_first by done.
  by rewrite fmap_reverse, reverse_involutive.
Qed.
(** When the predicate picks one key and the keys are distinct, the update
    replaces exactly the matching element. *)
Lemma elem_of_update_first_key {K} (g : A → K) k p f l y :
  (∀ x, p x = true ↔ g x = k) → NoDup (g <$> l) →
  y ∈ update_first p f l → (y ∈ l ∧ p y = false) ∨ ∃ x, x ∈ l ∧ p x = true ∧ y = f x.
Proof.
  intros Hp. induction l as [|x l IH]; csimpl; [by intros _ ?%not_elem_of_nil|].
  rewrite NoDup_cons. intros [Hx Hnd]. setoid_rewrite elem_of_cons.
  destruct (p x) eqn:E; rewrite elem_of_cons; intros [->|Hy].
  - right. exists x. auto.
  - left. split; [auto|]. apply not_true_is_false. rewrite Hp. intros Hk.
    apply Hx. apply Hp in E. rewrite E, <- Hk. by apply list_elem_of_fmap_2.
  - auto.
  - destruct (IH Hnd Hy) as [[??]|(z&?&?&?)]; [auto|]. right. exists z. auto.
Qed.

Lemma elem_of_update_first_r p f l x :
  x ∈ l → p x = true → (∀ z, z ∈ l → p z = true → z = x) → f x ∈ update_first p f l.
Proof.
  induction l as [|z l IH]; simpl; [by intros ?%not_elem_of_nil|].
  setoid_rewrite elem_of_cons. intros Hx Hp Hu.
  destruct (p z) eqn:E.
  - rewrite (Hu z) by auto. rewrite elem_of_cons. auto.
  - rewrite elem_of_cons. destruct Hx as [->|Hx]; [congruence|]. right. apply IH; auto.
Qed.
(** Where an update happens. *)
Lemma update_first_split p f l x :
  find_first p l = Some x →
  ∃ l1 l2, l = l1 ++ x :: l2 ∧ (∀ y, y ∈ l1 → p y = false) ∧ update_first p f l = l1 ++ f x :: l2.
Proof.
  induction l as [|y l IH]; simpl; [done|]. destruct (p y) eqn:E.
  - intros [= ->]. exists [], l. split_and!; [done| |done]. by intros ? ?%not_elem_of_nil.
  - intros (l1&l2&->&Hl1&->)%IH. exists (y :: l1), l2. split_and!; [done| |done].
    intros z [->|?]%elem_of_cons; auto.
Qed.

Lemma update_last_split p f l x :
  find_last p l = Some x →
  ∃ l1 l2, l = l1 ++ x :: l2 ∧ (∀ y, y ∈ l2 → p y = false) ∧ update_last p f l = l1 ++ f x :: l2.
Proof.
  unfold find_last, update_last. intros (l1&l2&Hl&Hl1&->)%(update_first_split p f).
  exists (reverse l2), (reverse l1). split_and!.
  - rewrite <- (reverse_involutive l), Hl, reverse_app, reverse_cons. by rewrite <- app_assoc.
  - intros y. rewrite elem_of_reverse. auto.
  - rewrite reverse_app, reverse_cons. by rewrite <- app_assoc.
Qed.
End iterator_lemmas.

Lemma max_Z_None l : max_Z l = None ↔ l = [].
Proof. destruct l; simpl; [done|]. destruct (max_Z l); split; done. Qed.

Lemma max_Z_Some l m : max_Z l = Some m → m ∈ l ∧ ∀ x, x ∈ l → (x <= m)%Z.
Proof.
  revert m. induction l as [|x l IH]; simpl; [done|]. intros m.
  destruct (max_Z l) as [m'|] eqn:E; intros [= <-].
  - destruct (IH m' eq_refl) as [Hin Hle]. split.
    + rewrite elem_of_cons. destruct (Z.max_spec x m') as [[_ ->]|[_ ->]]; auto.
    + intros y [->|Hy]%elem_of_cons; [lia|]. specialize (Hle y Hy). lia.
  - apply max_Z_None in E as ->. split; [by apply list_elem_of_here|].
    intros y [->|Hy]%elem_of_cons; [lia|]. by apply not_elem_of_nil in Hy.
Qed.

Section sorting_lemmas.
Context {A : Type} (le : A → A → bool).

Lemma insert_by_Permutation x l : insert_by le x l ≡ₚ x :: l.
Proof.
  induction l as [|y l IH]; simpl; [done|]. destruct (le x y); [done|].
  rewrite IH. apply Permutation_swap.
Qed.

Lemma sort_by_Permutation l : sort_by le l ≡ₚ l.
Proof. induction l as [|x l IH]; simpl; [done|]. by rewrite insert_by_Permutation, IH. Qed.

Lemma elem_of_sort_by x l : x ∈ sort_by le l ↔ x ∈ l.
Proof. by rewrite sort_by_Permutation. Qed.

Lemma length_sort_by l : length (sort_by le l) = length l.
Proof. by rewrite sort_by_Permutation. Qed.

Hypothesis le_total : ∀ x y, le x y = true ∨ le y x = true.
Hypothesis le_trans : ∀ x y z, le x y = true → le y z = true → le x z = true.

Lemma insert_by_sorted x l :
  StronglySorted (λ a b, le a b = true) l → StronglySorted (λ a b, le a b = true) (insert_by le x l).
Proof.
  induction 1 as [|y l Hl IH Hy]; simpl; [repeat constructor|].
  destruct (le x y) eqn:E.
  - constructor; [by constructor|]. constructor; [done|].
    eapply Forall_impl; [exact Hy|]. simpl. eauto.
  - constructor; [done|]. rewrite insert_by_Permutation. constructor; [|done].
    destruct (le_total x y); congruence.
Qed.

Lemma sort_by_sorted l : StronglySorted (λ a b, le a b = true) (sort_by le l).
Proof. induction l; simpl; [constructor|by apply insert_by_sorted]. Qed.
End sorting_lemmas.

(** ** Filters and counting *)

Lemma elem_of_lfilter {A} (p : A → bool) l x : x ∈ List.filter p l ↔ x ∈ l ∧ p x = true.
Proof. rewrite !list_elem_of_In. apply List.filter_In. Qed.

Lemma count_cons {A} (p : A → bool) x l : count p (x :: l) = (count p [x] + count p l)%Z.
Proof. unfold count. simpl. destruct (p x); simpl; lia. Qed.

Lemma count_app {A} (p : A → bool) l l' : count p (l ++ l') = (count p l + count p l')%Z.
Proof. unfold count. rewrite List.filter_app, length_app. lia. Qed.

Lemma count_Permutation {A} (p : A → bool) l l' : l ≡ₚ l' → count p l = count p l'.
Proof.
  unfold count. induction 1; simpl; repeat case_match; simpl; lia.
Qed.

Lemma count_sublist {A} (p : A → bool) l l' : sublist l l' → (count p l ≤ count p l')%Z.
Proof.
  unfold count. induction 1 as [|x l l' Hs IH|x l l' Hs IH]; simpl; [done|..]; destruct (p x); simpl; lia.
Qed.

Lemma count_le_length {A} (p : A → bool) l : (count p l ≤ Z.of_nat (length l))%Z.
Proof. unfold count. induction l as [|x l IH]; simpl; [done|]. destruct (p x); simpl; lia. Qed.
