(* ===== verification/RustStr.v ===== *)
(** * The [str] operations the sources use

    Rust strings are UTF-8 byte sequences, which is what [string] is here.  The
    definitions follow the standard library: [trim] strips the Unicode
    [White_Space] code points (as their UTF-8 encodings), [lines] drops the
    final empty line and a carriage return before a newline, [join] is
    [String.concat]. *)

From stdpp Require Import prelude strings pretty list.
From Stdlib Require Import Ascii.
From S2P Require Import Prelude.
Local Open Scope string_scope.

Definition NL : ascii := "010"%char.
Definition CR : ascii := "013"%char.
Definition COMMA : ascii := ","%char.
Definition newline : string := String NL "".

(** [{n}] of an integer. *)
Definition show_Z (z : Z) : string := pretty z.

(** [format!("{b}")] of a boolean. *)
Definition show_bool (b : bool) : string := if b then "true" else "false".

Definition is_empty (s : string) : bool :=
  match s with String.EmptyString => true | _ => false end.

Definition to_ascii_lowercase_char (c : ascii) : ascii :=
  let n := N_of_ascii c in
  if ((65 <=? n) && (n <=? 90))%N then ascii_of_N (n + 32) else c.

Fixpoint to_ascii_lowercase (s : string) : string :=
  match s with
  | String.EmptyString => String.EmptyString
  | String c s' => String (to_ascii_lowercase_char c) (to_ascii_lowercase s')
  end.

Definition eq_ignore_ascii_case (a b : string) : bool :=
  String.eqb (to_ascii_lowercase a) (to_ascii_lowercase b).

(** [s.split(c)]: always at least one piece. *)
Fixpoint split_char (c : ascii) (s : string) : list string :=
  match s with
  | String.EmptyString => [String.EmptyString]
  | String a s' =>
      if Ascii.eqb a c then String.EmptyString :: split_char c s'
      else match split_char c s' with
           | [] => [String a String.EmptyString]
           | w :: ws => String a w :: ws
           end
  end.

(** [s.starts_with(p)] and [s.contains(p)]. *)
Definition starts_with (p s : string) : bool := String.prefix p s.

Fixpoint contains (p s : string) : bool :=
  String.prefix p s ||
  match s with
  | String.EmptyString => false
  | String _ s' => contains p s'
  end.

Fixpoint last_char (s : string) : option ascii :=
  match s with
  | String.EmptyString => None
  | String c String.EmptyString => Some c
  | String _ s' => last_char s'
  end.

Definition ends_with_char (c : ascii) (s : string) : bool :=
  match last_char s with Some d => Ascii.eqb c d | None => false end.

Definition byte (n : nat) : ascii := ascii_of_nat n.

(** The UTF-8 encodings of the code points with the [White_Space] property. *)
Definition whitespace : list (list ascii) :=
  (((λ n, [byte n]) <$> [9; 10; 11; 12; 13; 32])
  ++ [[byte 194; byte 133]; [byte 194; byte 160]; [byte 225; byte 154; byte 128]]
  ++ ((λ n, [byte 226; byte 128; byte n]) <$> (seq 128 11 ++ [168; 169; 175]))
  ++ [[byte 226; byte 129; byte 159]; [byte 227; byte 128; byte 128]])%list.

Fixpoint strip_prefix_list (p l : list ascii) : option (list ascii) :=
  match p, l with
  | [], _ => Some l
  | a :: p', b :: l' => if Ascii.eqb a b then strip_prefix_list p' l' else None
  | _, [] => None
  end.

Fixpoint strip_any (ps : list (list ascii)) (l : list ascii) : option (list ascii) :=
  match ps with
  | [] => None
  | p :: ps' => match strip_prefix_list p l with
                | Some l' => Some l'
                | None => strip_any ps' l
                end
  end.

(** Strip leading members of [ps]; every strip removes a byte, so the length
    of the input is enough fuel. *)
Fixpoint strip_while (fuel : nat) (ps : list (list ascii)) (l : list ascii) : list ascii :=
  match fuel with
  | 0 => l
  | S n => match strip_any ps l with
           | Some l' => strip_while n ps l'
           | None => l
           end
  end.

Definition trim (s : string) : string :=
  let l := String.list_ascii_of_string s in
  let l := strip_while (length l) whitespace l in
  let r := strip_while (length l) (reverse <$> whitespace) (reverse l) in
  String.string_of_list_ascii (reverse r).

Fixpoint strip_cr (s : string) : string :=
  match s with
  | String.EmptyString => String.EmptyString
  | String c String.EmptyString => if Ascii.eqb c CR then String.EmptyString else s
  | String c s' => String c (strip_cr s')
  end.

Fixpoint lines_of_pieces (ps : list string) : list string :=
  match ps with
  | [] => []
  | [p] => if is_empty p then [] else [p]
  | p :: ps' => strip_cr p :: lines_of_pieces ps'
  end.

(** [s.lines()]. *)
Definition lines (s : string) : list string := lines_of_pieces (split_char NL s).

(** [xs.join(sep)]. *)
Definition join (sep : string) (xs : list string) : string := String.concat sep xs.

Example trim_ex : trim "  a b
" = "a b".
Proof. reflexivity. Qed.

Example lines_ex : lines (join newline ["a"; ""; "b"; ""]) = ["a"; ""; "b"].
Proof. reflexivity. Qed.

Example split_ex : split_char "," "failover, failback" = ["failover"; " failback"].
Proof. reflexivity. Qed.

(** ** Lemmas *)

Lemma is_empty_spec s : is_empty s = true ↔ s = "".
Proof. destruct s; split; done. Qed.

Lemma split_char_nonempty c s : split_char c s ≠ [].
Proof.
  destruct s; simpl; [done|]. destruct (Ascii.eqb _ _); [done|].
  destruct (split_char c s); done.
Qed.

(** Joining the pieces of a split with the separator gives the string back. *)
Lemma join_split c s : join (String c "") (split_char c s) = s.
Proof.
  unfold join. induction s as [|a s IH]; [done|]. simpl.
  destruct (Ascii.eqb_spec a c) as [->|Hne].
  - simpl. pose proof (split_char_nonempty c s) as Hn.
    destruct (split_char c s) eqn:E; [done|]. by rewrite IH.
  - destruct (split_char c s) as [|w ws] eqn:E; simpl in IH; [by rewrite <- IH|].
    destruct ws as [|w' ws]; simpl; rewrite <- IH; done.
Qed.

(** ** Appended strings *)

Lemma append_inj a b c d : String.length a = String.length b → a +:+ c = b +:+ d → a = b ∧ c = d.
Proof.
  revert b. induction a as [|x a IH]; intros [|y b] Hl H; simplify_eq/=; [done|].
  destruct (IH b) as [-> ->]; auto.
Qed.

Lemma append_assoc a b c : (a +:+ b) +:+ c = a +:+ b +:+ c.
Proof. induction a as [|x a IH]; [done|]. change (String x ((a +:+ b) +:+ c) = String x (a +:+ b +:+ c)). by rewrite IH. Qed.

(** A mark that neither string has ends both at the same place. *)
Lemma append_mark_inj c a b s t :
  ¬ In c (String.list_ascii_of_string a) → ¬ In c (String.list_ascii_of_string b) →
  a +:+ String c s = b +:+ String c t → a = b ∧ s = t.
Proof.
  revert b. induction a as [|x a IH]; intros [|y b] Ha Hb H; simplify_eq/=.
  - done.
  - destruct Hb. by left.
  - destruct Ha. by left.
  - destruct (IH b) as [-> ->]; auto.
Qed.
