(* ===== verification/RustText.v ===== *)
(** * More of [str]: slices, numbers, splitting

    Slicing at a byte index, which panics inside a character; parsing of [u64]; splitting at
    the first or last occurrence of a separator; and that visible text survives [trim]. *)

From stdpp Require Import prelude list strings pretty.
From Stdlib Require Import Ascii.
From S2P Require Import Prelude RustStr.

(** SHA-256 in hexadecimal, with what is documented of it. *)
Class Sha : Type := sha256_hex : string → string.

Definition is_hex (c : ascii) : bool :=
  let n := nat_of_ascii c in ((48 <=? n) && (n <=? 57))%nat || ((97 <=? n) && (n <=? 102))%nat.

Class ShaLaws (S : Sha) : Prop := {
  sha_length : ∀ s, String.length (sha256_hex s) = 64;
  sha_hex : ∀ s, Forall (λ c, is_hex c = true) (String.list_ascii_of_string (sha256_hex s));
}.

(** ** Slices *)

Definition is_continuation (c : ascii) : bool := (128 <=? nat_of_ascii c)%nat && (nat_of_ascii c <? 192)%nat.

(** [&s[..n]]. *)
Definition slice_to (n : nat) (s : string) : option string :=
  match String.get n s with
  | Some c => if is_continuation c then None else Some (String.substring 0 n s)
  | None => if (n =? String.length s)%nat then Some s else None
  end.

(** [&s[..n.min(s.len())]]. *)
Definition slice_head (n : nat) (s : string) : option string := slice_to (n `min` String.length s) s.

(** ** Characters of a string *)

Definition bytes (s : string) : list ascii := String.list_ascii_of_string s.
Definition all_bytes (f : ascii → bool) (s : string) : bool := forallb f (bytes s).

Definition is_digit (c : ascii) : bool := (48 <=? nat_of_ascii c)%nat && (nat_of_ascii c <=? 57)%nat.
Definition is_lower (c : ascii) : bool := (97 <=? nat_of_ascii c)%nat && (nat_of_ascii c <=? 122)%nat.
Definition is_upper (c : ascii) : bool := (65 <=? nat_of_ascii c)%nat && (nat_of_ascii c <=? 90)%nat.
Definition is_alphanumeric (c : ascii) : bool := is_digit c || is_lower c || is_upper c.
Definition visible (c : ascii) : bool := (33 <=? nat_of_ascii c)%nat && (nat_of_ascii c <=? 126)%nat.

(** ** Numbers *)

(** One digit more; [None] where the checked multiplication or addition fails. *)
Definition push_digit (acc : option Z) (c : ascii) : option Z :=
  v ← acc;
  if is_digit c then
    let w := (10 * v + (Z.of_nat (nat_of_ascii c) - 48))%Z in
    if (w <? 2 ^ 64)%Z then Some w else None
  else None.

(** [s.parse::<u64>().ok()]: one leading plus is allowed. *)
Definition parse_u64 (s : string) : option Z :=
  match s with
  | String.EmptyString => None
  | String c s' =>
      let digits := if Ascii.eqb c "+"%char then s' else s in
      if is_empty digits then None else foldl push_digit (Some 0%Z) (bytes digits)
  end.

(** ** Separators *)

(** [s.split_once(c)]. *)
Definition split_once (c : ascii) (s : string) : option (string * string) :=
  match split_char c s with
  | w :: ((_ :: _) as rest) => Some (w, join (String c "") rest)
  | _ => None
  end.

(** [s.strip_prefix(c).unwrap_or(s)]. *)
Definition without_prefix (c : ascii) (s : string) : string :=
  match s with String d s' => if Ascii.eqb d c then s' else s | _ => s end.

(** [s.rsplit("::").next()]: what follows the last separator, or everything. *)
Fixpoint after_last (best s : string) : string :=
  match s with
  | String.EmptyString => best
  | String _ s' => after_last (match s with String a (String b rest) => if Ascii.eqb a ":" && Ascii.eqb b ":" then rest else best | _ => best end) s'
  end.

(** [s.split_whitespace()]: an encoding of a blank character starts with a byte no other
    character continues with, so the bytes can be scanned.  Every step takes a byte. *)
Fixpoint blank_pieces (fuel : nat) (cur l : list ascii) : list (list ascii) :=
  match fuel with
  | O => [reverse cur]
  | S n =>
      match strip_any whitespace l with
      | Some l' => reverse cur :: blank_pieces n [] l'
      | None => match l with [] => [reverse cur] | c :: l' => blank_pieces n (c :: cur) l' end
      end
  end.
Definition split_whitespace (s : string) : list string :=
  List.filter (λ w, negb (is_empty w)) (String.string_of_list_ascii <$> blank_pieces (S (String.length s)) [] (bytes s)).

Example split_whitespace_ex :
  split_whitespace "*.sql   @db-team  @dba" = ["*.sql"; "@db-team"; "@dba"] ∧ split_whitespace "  " = [] ∧ split_whitespace " a" = ["a"].
Proof. by vm_compute. Qed.
Example after_last_ex : after_last "a:::b" "a:::b" = "b" ∧ after_last "x" "x" = "x" ∧ after_last "a::" "a::" = "".
Proof. done. Qed.
Example parse_u64_ex :
  parse_u64 "+007" = Some 7%Z ∧ parse_u64 "" = None ∧ parse_u64 "+" = None ∧ parse_u64 "1a" = None ∧ parse_u64 "-1" = None
  ∧ parse_u64 "18446744073709551615" = Some (2 ^ 64 - 1)%Z ∧ parse_u64 "18446744073709551616" = None.
Proof. vm_compute. done. Qed.
Example split_once_ex : split_once "-" "1.0-rc-1" = Some ("1.0", "rc-1") ∧ split_once "-" "1.0" = None ∧ split_once "-" "1.0-" = Some ("1.0", "").
Proof. done. Qed.
Example slices_ex : slice_to 2 "abc" = Some "ab" ∧ slice_to 3 "abc" = Some "abc" ∧ slice_to 4 "abc" = None ∧ slice_head 4 "abc" = Some "abc".
Proof. done. Qed.

(** ** Lemmas *)

Lemma bytes_append a b : bytes (a +:+ b) = bytes a ++ bytes b.
Proof. induction a as [|c a IH]; [done|]. change (c :: bytes (a +:+ b) = c :: bytes a ++ bytes b). by rewrite IH. Qed.

Lemma all_bytes_append f a b : all_bytes f (a +:+ b) = all_bytes f a && all_bytes f b.
Proof. unfold all_bytes. by rewrite bytes_append, forallb_app. Qed.

Lemma all_bytes_cons f c s : all_bytes f (String c s) = f c && all_bytes f s.
Proof. done. Qed.

Lemma append_empty s : s +:+ "" = s.
Proof. induction s as [|c s IH]; [done|]. change (String c (s +:+ "") = String c s). by rewrite IH. Qed.

Lemma all_bytes_impl f g s : (∀ c, f c = true → g c = true) → all_bytes f s = true → all_bytes g s = true.
Proof. unfold all_bytes. rewrite !forallb_forall. auto. Qed.

(** *** Decimal texts *)

Lemma pretty_N_char_digit x : (x < 10)%N → nat_of_ascii (pretty_N_char x) = 48 + N.to_nat x.
Proof.
  intros Hx. assert (x = 0 ∨ x = 1 ∨ x = 2 ∨ x = 3 ∨ x = 4 ∨ x = 5 ∨ x = 6 ∨ x = 7 ∨ x = 8 ∨ x = 9)%N as Hc by lia.
  by repeat destruct Hc as [->|Hc]; subst.
Qed.

Lemma push_digit_char v x :
  (x < 10)%N → (10 * v + Z.of_N x < 2 ^ 64)%Z → push_digit (Some v) (pretty_N_char x) = Some (10 * v + Z.of_N x)%Z.
Proof.
  intros Hx Hb. unfold push_digit, is_digit. cbn [mbind option_bind]. rewrite pretty_N_char_digit by done.
  rewrite (proj2 (Nat.leb_le _ _)), (proj2 (Nat.leb_le _ _)) by lia. cbn [andb].
  replace (Z.of_nat (48 + N.to_nat x) - 48)%Z with (Z.of_N x) by lia.
  by rewrite (proj2 (Z.ltb_lt _ _)).
Qed.

Lemma fold_pretty_N_go x s :
  (Z.of_N x < 2 ^ 64)%Z → foldl push_digit (Some 0%Z) (bytes (pretty_N_go x s)) = foldl push_digit (Some (Z.of_N x)) (bytes s).
Proof.
  revert s. induction (N.lt_wf_0 x) as [x _ IH]; intros s Hx. destruct (decide (x = 0)%N) as [->|Hne].
  { by rewrite pretty_N_go_0. }
  rewrite pretty_N_go_step by lia.
  assert (x `div` 10 < x)%N by (apply N.div_lt; lia).
  rewrite IH; [|lia..]. cbn [bytes String.list_ascii_of_string foldl].
  assert (Z.of_N x = 10 * Z.of_N (x `div` 10) + Z.of_N (x `mod` 10))%Z as Hd by (pose proof (N.div_mod x 10); lia).
  rewrite push_digit_char; [by rewrite <- Hd|apply N.mod_lt; lia|by rewrite <- Hd].
Qed.

Lemma pretty_N_go_digits x s : all_bytes is_digit s = true → all_bytes is_digit (pretty_N_go x s) = true.
Proof.
  revert s. induction (N.lt_wf_0 x) as [x _ IH]; intros s Hs. destruct (decide (x = 0)%N) as [->|Hne]; [by rewrite pretty_N_go_0|].
  rewrite pretty_N_go_step by lia. apply IH; [apply N.div_lt; lia|].
  cbn [all_bytes bytes String.list_ascii_of_string forallb]. apply andb_true_iff. split; [|exact Hs].
  unfold is_digit. rewrite pretty_N_char_digit by (apply N.mod_lt; lia). pose proof (N.mod_lt x 10 ltac:(lia)) as Hm.
  revert Hm. generalize (x `mod` 10)%N. intros y Hy. rewrite andb_true_iff, !Nat.leb_le. lia.
Qed.

Lemma show_Z_N z : (0 <= z)%Z → show_Z z = pretty (Z.to_N z).
Proof. intros Hz. unfold show_Z. destruct z; [done|done|lia]. Qed.

Lemma pretty_N_nonempty (x : N) : pretty x ≠ "".
Proof.
  unfold pretty, pretty_N. case_decide; [done|]. rewrite pretty_N_go_step by lia.
  assert (∀ y c s, pretty_N_go y (String c s) ≠ "") as Hne; [|apply Hne].
  clear. intros y. induction (N.lt_wf_0 y) as [y _ IH]; intros c s. destruct (decide (y = 0)%N) as [->|]; [by rewrite pretty_N_go_0|].
  rewrite pretty_N_go_step by lia. apply IH, N.div_lt; lia.
Qed.

Lemma show_Z_digits z : (0 <= z)%Z → all_bytes is_digit (show_Z z) = true.
Proof.
  intros Hz. rewrite show_Z_N by done. unfold pretty, pretty_N. case_decide; [done|]. by apply pretty_N_go_digits.
Qed.

(** The text of a number starts with a digit. *)
Lemma show_Z_starts z : (0 <= z)%Z → ∃ c s, show_Z z = String c s ∧ is_digit c = true.
Proof.
  intros Hz. pose proof (show_Z_digits z Hz) as Hd. destruct (show_Z z) as [|c s] eqn:E.
  - rewrite show_Z_N in E by done. by apply pretty_N_nonempty in E.
  - exists c, s. split; [done|]. cbn in Hd. by apply andb_true_iff in Hd as [? _].
Qed.

Lemma parse_show_u64 z : in_u64 z → parse_u64 (show_Z z) = Some z.
Proof.
  intros Hz. destruct (show_Z_starts z) as (c & s & E & Hc); [apply Hz|]. unfold parse_u64. rewrite E.
  destruct (Ascii.eqb_spec c "+"%char) as [->|_]; [done|]. cbn [is_empty]. rewrite <- E. clear c s E Hc.
  unfold in_u64 in Hz. rewrite show_Z_N by lia. unfold pretty, pretty_N. case_decide as H0.
  - assert (z = 0%Z) as -> by lia. reflexivity.
  - rewrite fold_pretty_N_go by lia. cbn. f_equal. lia.
Qed.

(** *** Splitting *)

Lemma split_char_lacks c s : all_bytes (λ d, negb (Ascii.eqb d c)) s = true → split_char c s = [s].
Proof.
  induction s as [|a s IH]; [done|]. cbn [all_bytes bytes String.list_ascii_of_string forallb]. intros [Ha Hs]%andb_true_iff.
  simpl. apply negb_true_iff in Ha. rewrite Ha. by rewrite IH.
Qed.

Lemma split_char_mark c a s :
  all_bytes (λ d, negb (Ascii.eqb d c)) a = true → split_char c (a +:+ String c s) = a :: split_char c s.
Proof.
  induction a as [|d a IH]; intros Ha.
  - change (split_char c (String c s) = "" :: split_char c s). simpl. by rewrite Ascii.eqb_refl.
  - cbn [all_bytes bytes String.list_ascii_of_string forallb] in Ha. apply andb_true_iff in Ha as [Hd Ha].
    change (split_char c (String d (a +:+ String c s)) = String d a :: split_char c s). simpl. apply negb_true_iff in Hd. rewrite Hd.
    by rewrite IH.
Qed.

Lemma split_once_mark c a s :
  all_bytes (λ d, negb (Ascii.eqb d c)) a = true → split_once c (a +:+ String c s) = Some (a, s).
Proof.
  intros Ha. unfold split_once. rewrite split_char_mark by done. pose proof (join_split c s) as Hj.
  pose proof (split_char_nonempty c s). destruct (split_char c s); [done|]. by rewrite Hj.
Qed.

Lemma split_once_lacks c s : all_bytes (λ d, negb (Ascii.eqb d c)) s = true → split_once c s = None.
Proof. intros Hs. unfold split_once. by rewrite split_char_lacks. Qed.

(** *** Visible text *)

Definition starts_hidden (p : list ascii) : bool := match p with c :: _ => negb (visible c) | [] => false end.

Lemma strip_any_visible ps c l : forallb starts_hidden ps = true → visible c = true → strip_any ps (c :: l) = None.
Proof.
  intros Hps Hc. induction ps as [|p ps IH]; [done|]. simpl in *. apply andb_true_iff in Hps as [Hp Hps].
  destruct p as [|a p]; [done|]. simpl in *. destruct (Ascii.eqb_spec a c) as [->|]; [by rewrite Hc in Hp|auto].
Qed.

Lemma strip_while_visible n ps l : forallb starts_hidden ps = true → forallb visible l = true → strip_while n ps l = l.
Proof.
  intros Hps Hl. destruct n as [|n]; [done|]. simpl. destruct l as [|c l].
  - assert (strip_any ps [] = None) as ->; [|done]. induction ps as [|[|a p] ps IH]; [done|done|]. simpl in *. apply andb_true_iff in Hps as [_ Hps]. auto.
  - simpl in Hl. apply andb_true_iff in Hl as [Hc _]. by rewrite strip_any_visible.
Qed.

Lemma whitespace_hidden : forallb starts_hidden whitespace = true ∧ forallb starts_hidden (reverse <$> whitespace) = true.
Proof. by vm_compute. Qed.

Lemma forallb_reverse {A} (f : A → bool) l : forallb f l = true → forallb f (reverse l) = true.
Proof. rewrite !forallb_forall. intros Hf x Hx. apply Hf, list_elem_of_In, elem_of_reverse, list_elem_of_In, Hx. Qed.

Lemma trim_visible s : all_bytes visible s = true → trim s = s.
Proof.
  intros Hs. unfold trim. destruct whitespace_hidden as [H1 H2]. unfold all_bytes, bytes in Hs.
  rewrite (strip_while_visible _ _ _ H1 Hs), (strip_while_visible _ _ _ H2 (forallb_reverse _ _ Hs)).
  rewrite reverse_involutive. apply String.string_of_list_ascii_of_string.
Qed.

(** *** Blanks around visible text *)

(** The whitespace of one byte. *)
Definition blank (c : ascii) : bool := existsb (Ascii.eqb c) (byte <$> [9; 10; 11; 12; 13; 32]).

Lemma blank_cases c : blank c = true → c ∈ byte <$> [9; 10; 11; 12; 13; 32].
Proof. unfold blank. rewrite existsb_exists. intros (d & Hd & ->%Ascii.eqb_eq). by apply list_elem_of_In. Qed.

Lemma strip_any_blank c l :
  blank c = true → strip_any whitespace (c :: l) = Some l ∧ strip_any (reverse <$> whitespace) (c :: l) = Some l.
Proof.
  intros Hc%blank_cases. repeat (apply elem_of_cons in Hc as [->|Hc]; [split; reflexivity|]). by apply not_elem_of_nil in Hc.
Qed.

Lemma strip_while_blanks ps n pre l :
  (∀ c l, blank c = true → strip_any ps (c :: l) = Some l) → forallb starts_hidden ps = true →
  forallb blank pre = true → length pre ≤ n → match l with c :: _ => visible c = true | [] => True end →
  strip_while n ps (pre ++ l) = l.
Proof.
  intros Hb Hh. revert n. induction pre as [|c pre IH]; intros n Hpre Hn Hl; simpl in *.
  - destruct n as [|n]; [done|]. simpl. destruct l as [|c l]; [|by rewrite strip_any_visible].
    assert (strip_any ps [] = None) as ->; [|done]. clear Hb. induction ps as [|[|a p] ps IH]; [done|done|]. simpl in *.
    apply andb_true_iff in Hh as [_ Hh]. auto.
  - destruct n as [|n]; [lia|]. simpl. apply andb_true_iff in Hpre as [Hc Hpre]. rewrite Hb by done. apply IH; [done|lia|done].
Qed.

Lemma strip_front n pre l :
  forallb blank pre = true → length pre ≤ n → match l with c :: _ => visible c = true | [] => True end →
  strip_while n whitespace (pre ++ l) = l.
Proof. apply strip_while_blanks; [|apply whitespace_hidden]. intros c k Hc. exact (proj1 (strip_any_blank c k Hc)). Qed.

Lemma strip_back n pre l :
  forallb blank pre = true → length pre ≤ n → match l with c :: _ => visible c = true | [] => True end →
  strip_while n (reverse <$> whitespace) (pre ++ l) = l.
Proof. apply strip_while_blanks; [|apply whitespace_hidden]. intros c k Hc. exact (proj2 (strip_any_blank c k Hc)). Qed.

Lemma trim_padded pre s post :
  forallb blank pre = true → forallb blank post = true → all_bytes visible s = true →
  trim (String.string_of_list_ascii pre +:+ s +:+ String.string_of_list_ascii post) = s.
Proof.
  intros Hpre Hpost Hs. unfold trim.
  assert (∀ l, bytes (String.string_of_list_ascii l) = l) as Hby by apply String.list_ascii_of_string_of_list_ascii.
  change (String.list_ascii_of_string (String.string_of_list_ascii pre +:+ s +:+ String.string_of_list_ascii post))
    with (bytes (String.string_of_list_ascii pre +:+ s +:+ String.string_of_list_ascii post)).
  rewrite !bytes_append, !Hby. destruct (bytes s) as [|c l] eqn:E.
  { assert (s = "") as -> by (apply (f_equal String.string_of_list_ascii) in E; unfold bytes in E;
      by rewrite String.string_of_list_ascii_of_string in E).
    rewrite app_nil_l. assert (strip_while (length (pre ++ post)) whitespace (pre ++ post) = []) as ->; [|done].
    rewrite <- (app_nil_r (pre ++ post)) at 2. apply strip_front; [|done|done]. by rewrite forallb_app, Hpre. }
  unfold all_bytes in Hs. rewrite E in Hs. pose proof (proj1 (proj1 (andb_true_iff _ _) Hs)) as Hc.
  rewrite strip_front; [|done|rewrite !length_app; lia|exact Hc].
  rewrite reverse_app, strip_back; [|by apply forallb_reverse| |].
  - rewrite reverse_involutive, <- E. apply String.string_of_list_ascii_of_string.
  - rewrite !length_app, length_reverse. lia.
  - pose proof (forallb_reverse _ _ Hs) as Hr. destruct (reverse (c :: l)); [done|]. by apply andb_true_iff in Hr as [? _].
Qed.
