(* ===== verification/Float64.v ===== *)
(** * IEEE-754 binary64 as the sources use it

    [f64] is the specification float of the standard library at precision 53
    and maximal exponent 1024: the operations round to nearest, ties to even,
    which is what Rust's [f64] does.  Comparisons are Rust's [PartialOrd]: every
    comparison with a NaN is false.  [fmt2] is the formatting directive [{:.2}],
    which rounds the exact value of the float half to even. *)

From stdpp Require Import prelude strings pretty.
From Stdlib Require Import SpecFloat ZArith.
From S2P Require Import Prelude RustStr.
Local Open Scope string_scope.

Abbreviation f64 := spec_float (only parsing).

Definition PREC : Z := 53.
Definition EMAX : Z := 1024.

(** [f64::from(n)] of a [u32] (exact) and of any integer literal. *)
Definition f64_of_Z (z : Z) : f64 := binary_normalize PREC EMAX z 0 false.
Definition f64_add : f64 → f64 → f64 := SFadd PREC EMAX.
Definition f64_mul : f64 → f64 → f64 := SFmul PREC EMAX.
Definition f64_div : f64 → f64 → f64 := SFdiv PREC EMAX.
Definition f64_zero : f64 := S754_zero false.

Definition f64_lt (a b : f64) : bool := SFltb a b.
Definition f64_le (a b : f64) : bool := SFleb a b.
Definition f64_gt (a b : f64) : bool := SFltb b a.
Definition f64_ge (a b : f64) : bool := SFleb b a.

Definition is_nan (a : f64) : bool :=
  match a with S754_nan => true | _ => false end.

(** [a.max(b)]: the other operand when one is a NaN. *)
Definition f64_max (a b : f64) : f64 :=
  if is_nan a then b else if is_nan b then a else if f64_lt a b then b else a.

Definition f64_sub : f64 → f64 → f64 := SFsub PREC EMAX.

(** [a.min(b)]. *)
Definition f64_min (a b : f64) : f64 :=
  if is_nan a then b else if is_nan b then a else if f64_lt b a then b else a.

(** [x.clamp(lo, hi)]: a NaN stays one. *)
Definition f64_clamp (lo hi x : f64) : f64 :=
  let x := if f64_lt x lo then lo else x in if f64_gt x hi then hi else x.

(** [iter().sum::<f64>()]. *)
Definition f64_sum (l : list spec_float) : f64 := fold_left f64_add l f64_zero.

(** The integer below and the integer above a finite float; the casts [as usize] and
    [as u32] of them saturate, and a NaN is 0. *)
Definition f64_to_Z (up : bool) (bound : Z) (x : f64) : Z :=
  let sat z := Z.max 0 (Z.min bound z) in
  match x with
  | S754_nan | S754_zero _ => 0
  | S754_infinity s => if s then 0 else bound
  | S754_finite s m e =>
      let v := if s then Z.neg m else Z.pos m in
      sat (if (0 <=? e)%Z then v * 2 ^ e
           else if up then - ((- v) / 2 ^ (- e)) else if s then - (Z.pos m / 2 ^ (- e)) else v / 2 ^ (- e))%Z
  end.
Definition f64_as_usize (x : f64) : Z := f64_to_Z false (2 ^ 64 - 1) x.
Definition f64_ceil_usize (x : f64) : Z := f64_to_Z true (2 ^ 64 - 1) x.
Definition f64_ceil_u32 (x : f64) : Z := f64_to_Z true (2 ^ 32 - 1) x.

(** The literal [n/d] in decimal notation. *)
Definition f64_lit (n d : Z) : f64 := f64_div (f64_of_Z n) (f64_of_Z d).

(** [n / d] rounded half to even, for [0 <= n], [0 < d]. *)
Definition div_half_even (n d : Z) : Z :=
  let q := (n / d)%Z in
  let r := (n mod d)%Z in
  match (2 * r ?= d)%Z with
  | Lt => q
  | Gt => (q + 1)%Z
  | Eq => if Z.even q then q else (q + 1)%Z
  end.

(** [format!("{:.n}", x)] for any number of decimals. *)
Fixpoint pad_zeros (n : nat) (s : string) : string :=
  match n with 0 => s | S n' => if (String.length s <=? n')%nat then "0" +:+ pad_zeros n' s else s end.
Definition show_scaled (n : nat) (h : Z) : string :=
  match n with
  | 0 => show_Z h
  | _ => show_Z (h / 10 ^ Z.of_nat n) +:+ "." +:+ pad_zeros n (show_Z (h mod 10 ^ Z.of_nat n))
  end.
Definition fmt_fixed (n : nat) (x : f64) : string :=
  let sign (s : bool) := if s then "-" else "" in
  let scale := (10 ^ Z.of_nat n)%Z in
  match x with
  | S754_nan => "NaN"
  | S754_infinity s => sign s +:+ "inf"
  | S754_zero s => sign s +:+ show_scaled n 0
  | S754_finite s m e =>
      sign s +:+ show_scaled n
        (if (0 <=? e)%Z then (scale * Z.pos m * 2 ^ e)%Z else div_half_even (scale * Z.pos m) (2 ^ (- e)))
  end.

Definition fmt1 : f64 → string := fmt_fixed 1.
Definition fmt2 : f64 → string := fmt_fixed 2.
Definition fmt3 : f64 → string := fmt_fixed 3.

(** The literals of the sources. *)
Definition f64_99 : f64 := f64_of_Z 99.
Definition f64_100 : f64 := f64_of_Z 100.

Example fmt2_ex : fmt2 (f64_div (f64_of_Z 200) (f64_of_Z 3)) = "66.67".
Proof. reflexivity. Qed.
Example fmt_fixed_ex :
  fmt_fixed 1 (f64_div (f64_of_Z 200) (f64_of_Z 3)) = "66.7" ∧ fmt_fixed 0 (f64_lit 25 10) = "2"
  ∧ fmt_fixed 3 (f64_lit 5 100) = "0.050" ∧ fmt_fixed 1 f64_zero = "0.0".
Proof. split_and!; reflexivity. Qed.
Example fmt2_ex2 : fmt2 (f64_of_Z 99) = "99.00".
Proof. reflexivity. Qed.
Example fmt2_tie : fmt2 (f64_div (f64_of_Z 1) (f64_of_Z 8)) = "0.12".
Proof. reflexivity. Qed.

Example fmt3_ex : fmt3 (f64_lit 1 2) = "0.500".
Proof. reflexivity. Qed.
Example ceil_ex : f64_ceil_u32 (f64_lit 7 2) = 4%Z ∧ f64_as_usize (f64_lit 7 2) = 3%Z ∧ f64_ceil_u32 (f64_of_Z 3) = 3%Z.
Proof. repeat split. Qed.

(** ** Lemmas *)

Lemma f64_max_nan_r a : f64_max a S754_nan = a.
Proof. unfold f64_max. by destruct a. Qed.

Lemma f64_lt_irrefl a : f64_lt a a = false.
Proof.
  unfold f64_lt, SFltb, SFcompare. destruct a as [[]|[]| |[] m e]; try done;
    by rewrite Z.compare_refl, Pos.compare_cont_refl.
Qed.

Lemma f64_to_Z_range up bound x : (0 ≤ bound)%Z → (0 ≤ f64_to_Z up bound x ≤ bound)%Z.
Proof. intros Hb. unfold f64_to_Z. repeat case_match; lia. Qed.

Lemma f64_le_not_gt a b : f64_le a b = true → f64_gt a b = false.
Proof.
  unfold f64_le, f64_gt, SFleb, SFltb, SFcompare.
  destruct a as [[]|[]| |[] m e], b as [[]|[]| |[] m' e']; try done.
  all: rewrite (Z.compare_antisym e e'), (ZC4 m' m); destruct (e ?= e')%Z; simpl; try done.
  all: by destruct (Pos.compare_cont Eq m m').
Qed.

Lemma f64_not_lt_ge a b : is_nan a = false → is_nan b = false → f64_lt a b = false → f64_le b a = true.
Proof.
  unfold f64_le, f64_lt, SFleb, SFltb, SFcompare.
  destruct a as [[]|[]| |[] m e], b as [[]|[]| |[] m' e']; try done; intros _ _.
  all: rewrite (Z.compare_antisym e e'), (ZC4 m' m); destruct (e ?= e')%Z; simpl; try done.
  all: by destruct (Pos.compare_cont Eq m m').
Qed.

(** A float within two bounds, or a NaN. *)
Definition f64_within (lo hi x : f64) : Prop := is_nan x = true ∨ (f64_le lo x = true ∧ f64_le x hi = true).

Lemma f64_clamp_within lo hi x :
  is_nan lo = false → is_nan hi = false → f64_le lo hi = true → f64_le lo lo = true → f64_le hi hi = true →
  f64_within lo hi (f64_clamp lo hi x).
Proof.
  intros Hlo Hhi Hle Hll Hhh. unfold f64_within, f64_clamp. destruct (is_nan x) eqn:Hx.
  { left. destruct x; try done. by destruct lo, hi. }
  right. destruct (f64_lt x lo) eqn:E.
  - by rewrite (f64_le_not_gt _ _ Hle).
  - destruct (f64_gt x hi) eqn:E'; [done|]. split; by apply f64_not_lt_ge.
Qed.
