(* ===== verification/Json.v ===== *)
(** * JSON documents

    The values the controllers build with [json!].  Objects keep the order of
    their literal; numbers are the integers the sources put in documents. *)

From stdpp Require Import prelude strings.
Local Open Scope string_scope.

Inductive json : Type :=
| JNull
| JBool (b : bool)
| JNum (z : Z)
| JStr (s : string)
| JArr (l : list json)
| JObj (fields : list (string * json)).

Definition jopt {A} (f : A → json) (o : option A) : json :=
  match o with Some x => f x | None => JNull end.

(** [v["key"]]. *)
Definition jget (k : string) (j : json) : option json :=
  match j with
  | JObj fs => (λ kv, snd kv) <$> find (λ kv, String.eqb (fst kv) k) fs
  | _ => None
  end.
