(* ===== verification/Prog.v ===== *)
(** * Programs over requests

    Effectful code as finite trees: a program returns, throws, or issues a request
    of the signature [Op] and continues with any answer.  Executions, runs against
    an environment, and three program logics: [wp] for properties of every event
    given the events before it, [all_ops] for programs that only make some kinds of
    request, [ends] for how a program ends when the answers are constrained. *)

From stdpp Require Import prelude list.
From S2P Require Import Prelude.

Section prog.
Context {Op : Set → Type} {E : Set}.

(** ** Programs *)

Inductive tree (A : Type) : Type :=
| Ret (a : A)
| Throw (e : E)
| Vis {X : Set} (op : Op X) (k : X → tree A).
Arguments Ret {A} a.
Arguments Throw {A} e.
Arguments Vis {A X} op k.

Fixpoint bind {A B} (p : tree A) (f : A → tree B) : tree B :=
  match p with
  | Ret a => f a
  | Throw e => Throw e
  | Vis op k => Vis op (λ x, bind (k x) f)
  end.

#[global] Instance tree_ret : MRet tree := @Ret.
#[global] Instance tree_bind : MBind tree := λ A B f p, bind p f.

(** A request whose error is propagated by [?], and one whose result is
    dropped. *)
Definition request {X : Set} (op : Op (result X E)) : tree X :=
  Vis op (λ r, match r with Ok x => Ret x | Err e => Throw e end).

Definition attempt {X : Set} (op : Op X) : tree unit := Vis op (λ _, Ret tt).

(** [let _ = p.await;]: the error is dropped, the requests are not. *)
Fixpoint ignore_errors {A} (p : tree A) : tree unit :=
  match p with
  | Ret _ => Ret tt
  | Throw _ => Ret tt
  | Vis op k => Vis op (λ x, ignore_errors (k x))
  end.

(** [match p.await { Ok(a) => .., Err(e) => .. }]: the result as a value. *)
Fixpoint catch {A} (p : tree A) : tree (result A E) :=
  match p with
  | Ret a => Ret (Ok a)
  | Throw e => Ret (Err e)
  | Vis op k => Vis op (λ x, catch (k x))
  end.

(** [for x in l { .. }] over a mutable state. *)
Fixpoint for_each {A S} (f : S → A → tree S) (l : list A) (s : S) : tree S :=
  match l with
  | [] => mret s
  | x :: l' => s' ← f s x; for_each f l' s'
  end.

(** ** Traces *)

Inductive event : Type :=
| Ev {X : Set} (op : Op X) (x : X).

Inductive exec {A} : tree A → list event → result A E → Prop :=
| exec_ret a : exec (Ret a) [] (Ok a)
| exec_throw e : exec (Throw e) [] (Err e)
| exec_vis {X : Set} (op : Op X) k x tr r : exec (k x) tr r → exec (Vis op k) (Ev op x :: tr) r.

(** The run of a program against a cluster that answers from the events so far. *)
Fixpoint run {A} (env : list event → ∀ X : Set, Op X → X) (p : tree A) (h : list event)
    : list event * result A E :=
  match p with
  | Ret a => (h, Ok a)
  | Throw e => (h, Err e)
  | Vis op k => let x := env h _ op in run env (k x) (h ++ [Ev op x])
  end.

Lemma run_exec_from {A} env (p : tree A) h : ∃ tr, fst (run env p h) = h ++ tr ∧ exec p tr (snd (run env p h)).
Proof.
  revert h. induction p as [a|e|X op k IH]; intros h; simpl.
  - exists []. rewrite app_nil_r. split; [done|constructor].
  - exists []. rewrite app_nil_r. split; [done|constructor].
  - destruct (IH (env h X op) (h ++ [Ev op (env h X op)])) as (tr & -> & Hex).
    exists (Ev op (env h X op) :: tr). rewrite <- app_assoc. split; [done|]. by constructor.
Qed.

Lemma run_exec {A} env (p : tree A) : exec p (fst (run env p [])) (snd (run env p [])).
Proof. by destruct (run_exec_from env p []) as (tr & -> & Hex). Qed.

(** ** A program logic

    [wp P p Q h]: run after the events [h], every event of [p] satisfies [P] of
    the events before it, and [p] ends in [Q]. *)

Section wp.
Context (P : list event → event → Prop).

Fixpoint wp {A} (p : tree A) (Q : list event → result A E → Prop) (h : list event) : Prop :=
  match p with
  | Ret a => Q h (Ok a)
  | Throw e => Q h (Err e)
  | Vis op k => ∀ x, P h (Ev op x) ∧ wp (k x) Q (h ++ [Ev op x])
  end.

Lemma wp_sound {A} (p : tree A) Q h tr r :
  wp p Q h → exec p tr r →
  (∀ tr1 e tr2, tr = tr1 ++ e :: tr2 → P (h ++ tr1) e) ∧ Q (h ++ tr) r.
Proof.
  intros Hwp Hex. revert h Hwp. induction Hex as [a|e|X op k x tr r Hex IH]; intros h Hwp; simpl in Hwp.
  - rewrite app_nil_r. split; [|done]. by intros [] ? ? ?.
  - rewrite app_nil_r. split; [|done]. by intros [] ? ? ?.
  - destruct (Hwp x) as [HP Hk]. destruct (IH _ Hk) as [Hev HQ]. split.
    + intros [|e1 tr1] e tr2 Heq; simplify_eq/=.
      * by rewrite app_nil_r.
      * rewrite (cons_middle _ h tr1), app_assoc. by eapply Hev.
    + by rewrite <- app_assoc in HQ.
Qed.

Lemma wp_mono {A} (p : tree A) (Q Q' : list event → result A E → Prop) h :
  wp p Q h → (∀ tr r, Q (h ++ tr) r → Q' (h ++ tr) r) → wp p Q' h.
Proof.
  revert h. induction p as [a|e|X op k IH]; intros h Hwp HQ; simpl in *.
  - specialize (HQ [] (Ok a)). rewrite app_nil_r in HQ. auto.
  - specialize (HQ [] (Err e)). rewrite app_nil_r in HQ. auto.
  - intros x. destruct (Hwp x) as [HP Hk]. split; [done|]. apply (IH x _ Hk).
    intros tr r. rewrite <- app_assoc. apply HQ.
Qed.

Definition then_ {A B} (f : A → tree B) (Q : list event → result B E → Prop)
    (h : list event) (r : result A E) : Prop :=
  match r with Ok a => wp (f a) Q h | Err e => Q h (Err e) end.

Lemma wp_bind {A B} (p : tree A) (f : A → tree B) Q h :
  wp p (then_ f Q) h → wp (p ≫= f) Q h.
Proof.
  unfold mbind, tree_bind. revert h. induction p as [a|e|X op k IH]; intros h Hwp; simpl in *; [done|done|].
  intros x. destruct (Hwp x). auto.
Qed.
Lemma wp_caught {A} (p : tree A) (Q : list event → result (result A E) E → Prop) h :
  wp p (λ h' r, Q h' (Ok r)) h → wp (catch p) Q h.
Proof.
  revert h. induction p as [a|e|X op k IH]; intros h Hwp; simpl in *; [done|done|]. intros x. destruct (Hwp x). auto.
Qed.
End wp.

Lemma wp_impl {A} (P P' : list event → event → Prop) (p : tree A) Q h :
  wp P p Q h → (∀ h e, P h e → P' h e) → wp P' p Q h.
Proof.
  intros Hp HP. revert h Hp. induction p as [a|e|X op k IH]; intros h Hp; simpl in *; [done|done|].
  intros x. destruct (Hp x). auto.
Qed.

(** A loop preserves [I] of the elements left, the state and the events so far. *)
Lemma wp_for_each {A S} (P : list event → event → Prop) (I : list A → S → list event → Prop)
    (f : S → A → tree S) l s (Q : list event → result S E → Prop) h :
  I l s h →
  (∀ x rest s h, I (x :: rest) s h →
     wp P (f s x) (λ h' r, match r with Ok s' => I rest s' h' | Err e => Q h' (Err e) end) h) →
  (∀ s h, I [] s h → Q h (Ok s)) →
  wp P (for_each f l s) Q h.
Proof.
  intros HI Hf HQ. revert s h HI. induction l as [|x l IH]; intros s h HI; cbn [for_each]; [by apply HQ|].
  apply wp_bind. eapply wp_mono; [by apply Hf|]. intros tr [s'|e] Hr; [by apply IH|done].
Qed.

(** ** Postconditions *)

Fixpoint post {A} (p : tree A) (Q : result A E → Prop) : Prop :=
  match p with
  | Ret a => Q (Ok a)
  | Throw e => Q (Err e)
  | Vis op k => ∀ x, post (k x) Q
  end.

Lemma post_exec {A} (p : tree A) Q tr r : post p Q → exec p tr r → Q r.
Proof. intros Hp Hex. induction Hex; auto. Qed.

Lemma post_mono {A} (p : tree A) (Q Q' : result A E → Prop) : post p Q → (∀ r, Q r → Q' r) → post p Q'.
Proof. intros Hp HQ. induction p; simpl in *; auto. Qed.

Lemma post_true {A} (p : tree A) : post p (λ _, True).
Proof. by induction p. Qed.

Lemma post_bind {A B} (p : tree A) (f : A → tree B) Q :
  post p (λ r, match r with Ok a => post (f a) Q | Err e => Q (Err e) end) → post (p ≫= f) Q.
Proof. unfold mbind, tree_bind. induction p as [a|e|X op k IH]; simpl; auto. Qed.

Lemma post_for_each {A S} (I : list A → S → Prop) (f : S → A → tree S) l s (Q : result S E → Prop) :
  I l s →
  (∀ x rest s, I (x :: rest) s → post (f s x) (λ r, match r with Ok s' => I rest s' | Err e => Q (Err e) end)) →
  (∀ s, I [] s → Q (Ok s)) →
  post (for_each f l s) Q.
Proof.
  intros HI Hf HQ. revert s HI. induction l as [|x l IH]; intros s HI; cbn [for_each]; [by apply HQ|].
  apply post_bind. eapply post_mono; [by apply Hf|]. intros [s'|e] Hr; [by apply IH|done].
Qed.

(** ** Programs that only make some kinds of request *)

Definition op_pred : Type := ∀ X : Set, Op X → bool.
Definition ev_pred (f : op_pred) (e : event) : bool := match e with Ev op _ => f _ op end.

Section ops.
Context (f : op_pred).

Fixpoint all_ops {A} (p : tree A) : Prop :=
  match p with
  | Ret _ | Throw _ => True
  | Vis op k => f _ op = true ∧ ∀ x, all_ops (k x)
  end.

Lemma all_ops_bind {A B} (p : tree A) (g : A → tree B) :
  all_ops p → (∀ a, all_ops (g a)) → all_ops (p ≫= g).
Proof.
  unfold mbind, tree_bind. intros Hp Hg. induction p as [a|e|X op k IH]; simpl in *; [done|done|].
  destruct Hp as [Hop Hk]. auto.
Qed.

Lemma all_ops_for_each {A S} (g : S → A → tree S) l s :
  (∀ s x, all_ops (g s x)) → all_ops (for_each g l s).
Proof.
  intros Hg. revert s. induction l as [|x l IH]; intros s; cbn [for_each]; [done|]. by apply all_ops_bind.
Qed.

Lemma all_ops_ignore {A} (p : tree A) : all_ops p → all_ops (ignore_errors p).
Proof. induction p as [a|e|X op k IH]; simpl; [done|done|]. intros [Hop Hk]. auto. Qed.

Lemma all_ops_exec {A} (p : tree A) tr r : all_ops p → exec p tr r → ∀ e, e ∈ tr → ev_pred f e = true.
Proof.
  intros Hp Hex. induction Hex as [a|e|X op k x tr r Hex IH]; intros e' He'.
  - by apply not_elem_of_nil in He'.
  - by apply not_elem_of_nil in He'.
  - destruct Hp as [Hop Hk]. apply elem_of_cons in He' as [->|He']; [done|]. by apply (IH (Hk x)).
Qed.

(** Such a program satisfies any property of events that holds of those
    requests, and ends as its executions do. *)
Lemma wp_all_ops {A} (P : list event → event → Prop) (p : tree A) (Q : list event → result A E → Prop) h :
  all_ops p → (∀ tr e, ev_pred f e = true → P (h ++ tr) e) →
  (∀ tr r, exec p tr r → Q (h ++ tr) r) → wp P p Q h.
Proof.
  intros Hp. revert h Q. induction p as [a|e|X op k IH]; intros h Q HP HQ; simpl.
  - specialize (HQ [] (Ok a)). rewrite app_nil_r in HQ. apply HQ. constructor.
  - specialize (HQ [] (Err e)). rewrite app_nil_r in HQ. apply HQ. constructor.
  - destruct Hp as [Hop Hk]. intros x. split.
    { specialize (HP [] (Ev op x)). rewrite app_nil_r in HP. auto. }
    apply IH; [done| |].
    + intros tr e. rewrite <- app_assoc. apply HP.
    + intros tr r Htr. rewrite <- app_assoc. apply HQ. by constructor.
Qed.
End ops.

Lemma all_ops_impl {A} (f g : op_pred) (p : tree A) :
  (∀ (X : Set) (op : Op X), f X op = true → g X op = true) → all_ops f p → all_ops g p.
Proof.
  intros Hfg. induction p as [a|e|X op k IH]; simpl; [done|done|]. intros [Hop Hk]. auto.
Qed.

(** ** Executions *)

Lemma exec_inv {A} (p : tree A) tr r :
  exec p tr r →
  match p with
  | Ret a => tr = [] ∧ r = Ok a
  | Throw e => tr = [] ∧ r = Err e
  | Vis op k => ∃ x tr', tr = Ev op x :: tr' ∧ exec (k x) tr' r
  end.
Proof. destruct 1; eauto. Qed.

Lemma exec_bind {A B} (p : tree A) (f : A → tree B) tr r :
  exec (p ≫= f) tr r →
  (∃ a t1 t2, tr = t1 ++ t2 ∧ exec p t1 (Ok a) ∧ exec (f a) t2 r)
  ∨ (∃ e, exec p tr (Err e) ∧ r = Err e).
Proof.
  unfold mbind, tree_bind. revert tr. induction p as [a|e|X op k IH]; intros tr Hex; simpl in Hex.
  - left. exists a, [], tr. repeat split; [constructor|done].
  - apply exec_inv in Hex as [-> ->]. right. exists e. split; [constructor|done].
  - apply exec_inv in Hex as (x & tr' & -> & Hex).
    destruct (IH x tr' Hex) as [(a & t1 & t2 & -> & H1 & H2)|(e & H1 & ->)].
    + left. exists a, (Ev op x :: t1), t2. repeat split; [by constructor|done].
    + right. exists e. split; [by constructor|done].
Qed.

Lemma exec_bind_ok {A B} (p : tree A) (f : A → tree B) tr b :
  exec (p ≫= f) tr (Ok b) → ∃ a t1 t2, tr = t1 ++ t2 ∧ exec p t1 (Ok a) ∧ exec (f a) t2 (Ok b).
Proof. intros [?|(e & ? & ?)]%exec_bind; [done|done]. Qed.

Lemma exec_request_ok {X : Set} (op : Op (result X E)) tr x :
  exec (request op) tr (Ok x) → tr = [Ev op (Ok x)].
Proof.
  intros (r & tr' & -> & Hex)%exec_inv. destruct r as [y|e]; apply exec_inv in Hex as [-> ?]; by simplify_eq.
Qed.

Lemma exec_ret_ok {A} (a b : A) tr : exec (Ret a) tr (Ok b) → tr = [] ∧ b = a.
Proof. intros [-> ?]%exec_inv. by simplify_eq. Qed.

(** ** Programs with the same executions *)

Definition same {A} (p q : tree A) : Prop := ∀ tr r, exec p tr r ↔ exec q tr r.

#[global] Instance same_equiv {A} : Equivalence (@same A).
Proof.
  split.
  - by intros p tr r.
  - intros p q Hpq tr r. by rewrite (Hpq tr r).
  - intros p q s Hpq Hqs tr r. by rewrite (Hpq tr r), (Hqs tr r).
Qed.

Lemma exec_bind_intro {A B} (p : tree A) (f : A → tree B) t1 t2 a r :
  exec p t1 (Ok a) → exec (f a) t2 r → exec (p ≫= f) (t1 ++ t2) r.
Proof.
  intros Hp Hf. remember (Ok a) as ra eqn:Hra. unfold mbind, tree_bind.
  induction Hp; simplify_eq/=; [done|]. constructor. auto.
Qed.

Lemma exec_bind_throw {A B} (p : tree A) (f : A → tree B) tr e :
  exec p tr (Err e) → exec (p ≫= f) tr (Err e).
Proof.
  intros Hp. remember (Err e) as re eqn:Hre. unfold mbind, tree_bind.
  induction Hp; simplify_eq/=; [constructor|]. constructor. auto.
Qed.

Lemma same_bind {A B} (p : tree A) (f g : A → tree B) : (∀ a, same (f a) (g a)) → same (p ≫= f) (p ≫= g).
Proof.
  intros Hfg tr r.
  split; intros [(a & t1 & t2 & -> & Hp & Hf)|(e & Hp & ->)]%exec_bind;
    first [eapply exec_bind_intro; [done|by apply Hfg]|by apply exec_bind_throw].
Qed.

(** ** Endings *)

(** [ends C p Q h]: run after [h] with answers allowed by [C], [p] ends in [Q]. *)
Fixpoint ends {A} (C : list event → event → Prop) (p : tree A) (Q : list event → result A E → Prop)
    (h : list event) : Prop :=
  match p with
  | Ret a => Q h (Ok a)
  | Throw e => Q h (Err e)
  | Vis op k => ∀ x, C h (Ev op x) → ends C (k x) Q (h ++ [Ev op x])
  end.

Lemma ends_sound {A} C (p : tree A) Q h tr r :
  ends C p Q h → exec p tr r → (∀ tr1 e tr2, tr = tr1 ++ e :: tr2 → C (h ++ tr1) e) → Q (h ++ tr) r.
Proof.
  intros Hends Hex. revert h Hends. induction Hex as [a|e|X op k x tr r Hex IH]; intros h Hends HC; simpl in Hends.
  - by rewrite app_nil_r.
  - by rewrite app_nil_r.
  - rewrite (cons_middle _ h tr), app_assoc. apply IH.
    + apply Hends. specialize (HC [] (Ev op x) tr eq_refl). by rewrite app_nil_r in HC.
    + intros tr1 e tr2 ->. rewrite <- app_assoc. by apply (HC (Ev op x :: tr1) e tr2).
Qed.

Lemma ends_bind {A B} C (p : tree A) (f : A → tree B) (Q : list event → result B E → Prop) h :
  ends C p (λ h' r, match r with Ok a => ends C (f a) Q h' | Err e => Q h' (Err e) end) h →
  ends C (p ≫= f) Q h.
Proof.
  unfold mbind, tree_bind. revert h. induction p as [a|e|X op k IH]; intros h Hp; simpl in *; [done|done|].
  intros x Hx. apply IH. auto.
Qed.

Lemma ends_mono {A} C (p : tree A) (Q Q' : list event → result A E → Prop) h :
  ends C p Q h → (∀ tr r, Q (h ++ tr) r → Q' (h ++ tr) r) → ends C p Q' h.
Proof.
  revert h. induction p as [a|e|X op k IH]; intros h Hp HQ; simpl in *.
  - specialize (HQ [] (Ok a)). rewrite app_nil_r in HQ. auto.
  - specialize (HQ [] (Err e)). rewrite app_nil_r in HQ. auto.
  - intros x Hx. apply (IH x _ (Hp x Hx)). intros tr r. rewrite <- app_assoc. apply HQ.
Qed.

(** ** Handlers

    A handler answers each request from a state of its own. *)

Definition handler (C : Type) : Type := ∀ X : Set, Op X → C → X * C.

Fixpoint interp {A C} (hd : handler C) (p : tree A) (c : C) : result A E * C :=
  match p with
  | Ret a => (Ok a, c)
  | Throw e => (Err e, c)
  | Vis op k => let '(x, c') := hd _ op c in interp hd (k x) c'
  end.

(** The events of a trace are those the handler produces from a state. *)
Inductive follows {C} (hd : handler C) : C → list event → C → Prop :=
| follows_nil c : follows hd c [] c
| follows_cons c {X : Set} (op : Op X) x c' tr c'' :
    hd X op c = (x, c') → follows hd c' tr c'' → follows hd c (Ev op x :: tr) c''.

Lemma interp_exec {A C} (hd : handler C) (p : tree A) c :
  ∃ tr, exec p tr (fst (interp hd p c)) ∧ follows hd c tr (snd (interp hd p c)).
Proof.
  revert c. induction p as [a|e|X op k IH]; intros c; simpl.
  - exists []. split; constructor.
  - exists []. split; constructor.
  - destruct (hd X op c) as [x c'] eqn:Hh. destruct (IH x c') as (tr & Hex & Hf).
    exists (Ev op x :: tr). split; [by constructor|]. by econstructor.
Qed.

Lemma interp_bind {A B C} (hd : handler C) (p : tree A) (f : A → tree B) c :
  interp hd (p ≫= f) c
  = match interp hd p c with (Ok a, c') => interp hd (f a) c' | (Err e, c') => (Err e, c') end.
Proof.
  unfold mbind, tree_bind. revert c. induction p as [a|e|X op k IH]; intros c; simpl; [done|done|].
  by destruct (hd X op c) as [x c'].
Qed.
Lemma interp_catch {A C} (hd : handler C) (p : tree A) c :
  interp hd (catch p) c = (Ok (interp hd p c).1, (interp hd p c).2).
Proof. revert c. induction p as [a|e|X op k IH]; intros c; simpl; [done..|]. by destruct (hd X op c). Qed.
End prog.
Arguments tree : clear implicits.
Arguments Ret {Op E A} a.
Arguments Throw {Op E A} e.
Arguments Vis {Op E A X} op k.
Arguments event : clear implicits.
Arguments op_pred : clear implicits.
Arguments handler : clear implicits.

(** Walk through a program whose requests are all concrete. *)
Ltac ops :=
  repeat match goal with
  | |- all_ops _ (mbind _ _) => apply all_ops_bind; [|intros]
  | |- all_ops _ (ignore_errors _) => apply all_ops_ignore
  | |- all_ops _ (for_each _ _ _) => apply all_ops_for_each; intros
  | |- all_ops _ (mret _) => exact I
  | |- all_ops _ (Ret _) => exact I
  | |- all_ops _ (Throw _) => exact I
  | |- all_ops _ (request _) => split; [reflexivity|intros []; exact I]
  | |- all_ops _ (attempt _) => split; [reflexivity|intros; exact I]
  | |- all_ops _ (Vis _ _) => split; [reflexivity|intros]
  | |- all_ops _ (if ?b then _ else _) => destruct b eqn:?
  | |- all_ops _ (match ?x with _ => _ end) => destruct x eqn:?
  | |- all_ops _ (let '(_, _) := ?x in _) => destruct x eqn:?
  end.
