(* ===== verification/BTreeMap.v ===== *)
(** * Ordered maps and byte-wise string order

    [BTreeMap<String, V>] as the association list its iterator yields: strictly
    increasing keys in the byte-wise order of strings.  Shared by the components
    that iterate over such maps. *)

From stdpp Require Import prelude strings list.
From Stdlib Require Import Ascii Sorted.
From S2P Require Import Prelude.

(** ** Byte-wise order of strings *)

Definition str_le (a b : string) : bool := String.leb a b.

Lemma ascii_compare_eq a b : Ascii.compare a b = Eq ↔ a = b.
Proof. split; [apply Ascii.compare_eq_iff|intros ->]. unfold Ascii.compare. apply N.compare_refl. Qed.

Lemma str_compare_refl s : String.compare s s = Eq.
Proof. induction s as [|c s IH]; simpl; [done|]. by rewrite (proj2 (ascii_compare_eq c c)). Qed.

Lemma ascii_compare_trans a b c o :
  Ascii.compare a b = o → Ascii.compare b c = o → Ascii.compare a c = o.
Proof.
  unfold Ascii.compare. destruct o.
  - rewrite !N.compare_eq_iff. congruence.
  - rewrite !N.compare_lt_iff. lia.
  - rewrite !N.compare_gt_iff. lia.
Qed.

Lemma str_compare_trans a b c o :
  String.compare a b = o → String.compare b c = o → String.compare a c = o.
Proof.
  revert b c. induction a as [|x a IH]; intros [|y b] [|z c]; simpl; try congruence.
  destruct (Ascii.compare x y) eqn:Exy, (Ascii.compare y z) eqn:Eyz; intros H1 H2; subst; try done;
    repeat match goal with H : Ascii.compare _ _ = Eq |- _ => apply ascii_compare_eq in H; subst end;
    rewrite ?(proj2 (ascii_compare_eq _ _) eq_refl), ?Exy, ?Eyz; try done; eauto.
  - by rewrite (ascii_compare_trans x y z Lt).
  - by rewrite (ascii_compare_trans x y z Gt).
Qed.

Lemma str_compare_antisym a b : String.compare a b = CompOpp (String.compare b a).
Proof. apply String.compare_antisym. Qed.

(** ** Lexicographic order of pairs, as the derived [Ord] of a struct *)

Definition then_cmp (c d : comparison) : comparison := match c with Eq => d | _ => c end.

Class CmpLaws {A} (cmp : A → A → comparison) : Prop := {
  cmp_antisym : ∀ a b, cmp a b = CompOpp (cmp b a);
  cmp_trans : ∀ a b c o, cmp a b = o → cmp b c = o → cmp a c = o;
  cmp_eq_congr : ∀ a b c, cmp a b = Eq → cmp a c = cmp b c;
}.

#[global] Instance string_cmp_laws : CmpLaws String.compare.
Proof.
  split.
  - apply str_compare_antisym.
  - apply str_compare_trans.
  - intros a b c H%String.compare_eq_iff. by subst.
Qed.

Lemma lex_cmp_laws {A B C} (f : A → B) (g : A → C) cb cc :
  CmpLaws cb → CmpLaws cc →
  CmpLaws (λ x y, then_cmp (cb (f x) (f y)) (cc (g x) (g y))).
Proof.
  intros Hb Hc. split.
  - intros a b. rewrite (cmp_antisym (f a) (f b)), (cmp_antisym (g a) (g b)).
    by destruct (cb (f b) (f a)).
  - intros a b c o. unfold then_cmp.
    destruct (cb (f a) (f b)) eqn:Eab, (cb (f b) (f c)) eqn:Ebc; intros H1 H2; subst; try done.
    + rewrite (cmp_eq_congr _ _ _ Eab), Ebc. by eapply cmp_trans.
    + by rewrite (cmp_eq_congr _ _ _ Eab), Ebc.
    + by rewrite (cmp_eq_congr _ _ _ Eab), Ebc.
    + assert (cb (f c) (f b) = Eq) as E by (rewrite (cmp_antisym (f c)), Ebc; done).
      by rewrite (cmp_antisym (f a)), (cmp_eq_congr _ _ _ E), <- (cmp_antisym (f a)), Eab.
    + by rewrite (cmp_trans _ _ _ Lt Eab Ebc).
    + assert (cb (f c) (f b) = Eq) as E by (rewrite (cmp_antisym (f c)), Ebc; done).
      by rewrite (cmp_antisym (f a)), (cmp_eq_congr _ _ _ E), <- (cmp_antisym (f a)), Eab.
    + by rewrite (cmp_trans _ _ _ Gt Eab Ebc).
  - intros a b c. unfold then_cmp.
    destruct (cb (f a) (f b)) eqn:Eab; try done. intros Eg.
    by rewrite (cmp_eq_congr _ _ _ Eab), (cmp_eq_congr _ _ _ Eg).
Qed.

(** The boolean order of a comparison is total and transitive. *)
Definition le_of {A} (cmp : A → A → comparison) (a b : A) : bool :=
  match cmp a b with Gt => false | _ => true end.

Section le_of.
Context {A} (cmp : A → A → comparison) `{!CmpLaws cmp}.

Lemma le_of_total a b : le_of cmp a b = true ∨ le_of cmp b a = true.
Proof. unfold le_of. rewrite (cmp_antisym b a). destruct (cmp a b); auto. Qed.

Lemma le_of_trans a b c : le_of cmp a b = true → le_of cmp b c = true → le_of cmp a c = true.
Proof.
  unfold le_of. destruct (cmp a b) eqn:Eab; intros; try done.
  - by rewrite (cmp_eq_congr _ _ _ Eab).
  - destruct (cmp b c) eqn:Ebc; try done.
    + assert (cmp c b = Eq) as E by (rewrite (cmp_antisym c), Ebc; done).
      by rewrite (cmp_antisym a), (cmp_eq_congr _ _ _ E), <- (cmp_antisym a), Eab.
    + by rewrite (cmp_trans _ _ _ Lt Eab Ebc).
Qed.
End le_of.

(** ** The map *)

Module BTreeMap.

Section map.
Context {V : Type}.

Definition t : Type := list (string * V).

(** [insert]: replaces the value of a present key. *)
Fixpoint insert (k : string) (v : V) (m : t) : t :=
  match m with
  | [] => [(k, v)]
  | (k', v') :: m' =>
      match String.compare k k' with
      | Lt => (k, v) :: m
      | Eq => (k, v) :: m'
      | Gt => (k', v') :: insert k v m'
      end
  end.

Definition get (k : string) (m : t) : option V :=
  snd <$> find_first (λ p, String.eqb (fst p) k) m.

Definition values (m : t) : list V := snd <$> m.
Definition len (m : t) : nat := length m.
End map.
Arguments t : clear implicits.

(** The iteration order is by strictly increasing key. *)
Definition sorted {V} (m : t V) : Prop :=
  StronglySorted (λ a b, String.compare (fst a) (fst b) = Lt) m.

Section lemmas.
Context {V : Type}.
Implicit Types m : t V.

Lemma insert_keys k v m : ∀ p, p ∈ insert k v m → p = (k, v) ∨ p ∈ m.
Proof.
  induction m as [|[k' v'] m IH]; simpl; intros p.
  - rewrite list_elem_of_singleton. auto.
  - destruct (String.compare k k'); rewrite !elem_of_cons; naive_solver.
Qed.

Lemma insert_sorted k v m : sorted m → sorted (insert k v m).
Proof.
  induction 1 as [|[k' v'] m Hm IH Hall]; simpl; [repeat constructor|].
  destruct (String.compare k k') eqn:E.
  - apply String.compare_eq_iff in E as ->. by constructor.
  - constructor; [by constructor|]. constructor; [done|].
    eapply Forall_impl; [exact Hall|]. simpl. intros p Hp. by eapply str_compare_trans.
  - constructor; [done|]. apply Forall_forall. intros p [->|Hp]%insert_keys.
    + simpl. rewrite str_compare_antisym, E. done.
    + rewrite Forall_forall in Hall. by apply Hall.
Qed.

Lemma get_insert k v m : get k (insert k v m) = Some v.
Proof.
  unfold get. induction m as [|[k' v'] m IH]; simpl.
  - by rewrite String.eqb_refl.
  - destruct (String.compare k k') eqn:E; simpl; rewrite ?String.eqb_refl; try done.
    destruct (String.eqb_spec k' k) as [->|]; [by rewrite str_compare_refl in E|done].
Qed.

Lemma get_insert_ne k k' v m : k ≠ k' → get k (insert k' v m) = get k m.
Proof.
  intros Hne. unfold get. induction m as [|[k2 v2] m IH]; simpl.
  - destruct (String.eqb_spec k' k); [congruence|done].
  - destruct (String.compare k' k2) eqn:E; simpl.
    + apply String.compare_eq_iff in E as <-. destruct (String.eqb_spec k' k); [congruence|done].
    + destruct (String.eqb_spec k' k); [congruence|done].
    + destruct (String.eqb_spec k2 k); [done|apply IH].
Qed.

Lemma get_Some k v m : get k m = Some v → (k, v) ∈ m.
Proof.
  unfold get. destruct (find_first _ m) as [[k' v']|] eqn:E; simpl; [|done].
  intros [= ->]. apply find_first_Some in E as [Hin Heq]. simpl in Heq.
  apply String.eqb_eq in Heq. by subst.
Qed.

Lemma sorted_NoDup m : sorted m → NoDup (fst <$> m).
Proof.
  induction 1 as [|[k v] m Hm IH Hall]; csimpl; constructor; [|done].
  intros ([k' v']&Hk&Hin)%list_elem_of_fmap. simpl in Hk. subst.
  rewrite Forall_forall in Hall. specialize (Hall _ Hin). simpl in Hall.
  by rewrite str_compare_refl in Hall.
Qed.

Lemma get_elem k v m : sorted m → (k, v) ∈ m → get k m = Some v.
Proof.
  intros Hs Hin. unfold get.
  rewrite (find_first_unique _ _ (k, v)); [done|done|apply String.eqb_refl|].
  intros [k' v'] Hin' Heq. simpl in Heq. apply String.eqb_eq in Heq. subst.
  apply sorted_NoDup in Hs. clear -Hs Hin Hin'.
  induction m as [|[k2 v2] m IH]; [by apply not_elem_of_nil in Hin|].
  rewrite fmap_cons, NoDup_cons in Hs. destruct Hs as [Hni Hnd]. simpl in Hni.
  apply elem_of_cons in Hin, Hin'. destruct Hin as [Heq|Hin], Hin' as [Heq'|Hin'].
  - congruence.
  - injection Heq as -> ->. destruct Hni. by apply (list_elem_of_fmap_2 fst m (k2, v')).
  - injection Heq' as -> ->. destruct Hni. by apply (list_elem_of_fmap_2 fst m (k2, v)).
  - auto.
Qed.
End lemmas.

End BTreeMap.

(** [BTreeSet<String>], iterated in increasing order. *)
Module BTreeSet.

Definition t : Type := BTreeMap.t unit.

Definition insert (x : string) (s : t) : t := BTreeMap.insert x tt s.
Definition of_list (l : list string) : t := fold_left (λ s x, insert x s) l [].
Definition to_list (s : t) : list string := fst <$> s.

Lemma elem_of_insert x y s : x ∈ to_list (insert y s) ↔ x = y ∨ x ∈ to_list s.
Proof.
  unfold to_list, insert. induction s as [|[k []] s IH]; simpl; [by rewrite list_elem_of_singleton, elem_of_nil; naive_solver|].
  destruct (String.compare y k) eqn:E; simpl; rewrite ?elem_of_cons.
  - apply String.compare_eq_iff in E as ->. naive_solver.
  - naive_solver.
  - rewrite IH. naive_solver.
Qed.

Lemma elem_of_fold {A} (f : A → string) (l : list A) s x :
  x ∈ to_list (fold_left (λ s a, insert (f a) s) l s) ↔ x ∈ to_list s ∨ ∃ a, a ∈ l ∧ x = f a.
Proof.
  revert s. induction l as [|a l IH]; intros s; simpl; [set_solver|].
  rewrite IH, elem_of_insert. set_solver.
Qed.

Lemma elem_of_of_list x l : x ∈ to_list (of_list l) ↔ x ∈ l.
Proof. unfold of_list. rewrite (elem_of_fold (λ x, x)). set_solver. Qed.

Lemma set_insert_sorted x s : BTreeMap.sorted s → BTreeMap.sorted (insert x s).
Proof. apply BTreeMap.insert_sorted. Qed.

Lemma fold_sorted {A} (f : A → string) (l : list A) s :
  BTreeMap.sorted s → BTreeMap.sorted (fold_left (λ s a, insert (f a) s) l s).
Proof. revert s. induction l as [|a l IH]; intros s Hs; simpl; [done|]. by apply IH, set_insert_sorted. Qed.

Lemma NoDup_to_list s : BTreeMap.sorted s → NoDup (to_list s).
Proof. apply BTreeMap.sorted_NoDup. Qed.

End BTreeSet.
