(* ===== verification/Conditions.v ===== *)
(** * Status conditions

    Models [src/src/controller/conditions.rs] and the [Condition] type with its
    constructors of [src/src/crd/types.rs].  The clock reading the sources take
    inside each function ([Utc::now().to_rfc3339()]) is the argument [now]. *)

From stdpp Require Import prelude strings list.
From S2P Require Import Prelude.
Local Open Scope string_scope.

Module Condition.

Record t := mk {
  type_ : string;
  status : string;
  last_transition_time : string;
  reason : string;
  message : string;
  observed_generation : option Z;
}.

(** [Condition::ready(status, reason, message)] and its siblings. *)
Definition ready (now : string) (st : bool) (rsn msg : string) : t :=
  mk "Ready" (if st then "True" else "False") now rsn msg None.

Definition progressing (now : string) (rsn msg : string) : t :=
  mk "Progressing" "True" now rsn msg None.

Definition degraded (now : string) (rsn msg : string) : t :=
  mk "Degraded" "True" now rsn msg None.

Definition with_observed_generation (g : Z) (c : t) : t :=
  mk (type_ c) (status c) (last_transition_time c) (reason c) (message c) (Some g).

End Condition.

Definition CONDITION_TYPE_READY : string := "Ready".
Definition CONDITION_TYPE_PROGRESSING : string := "Progressing".
Definition CONDITION_TYPE_DEGRADED : string := "Degraded".
Definition CONDITION_STATUS_TRUE : string := "True".
Definition CONDITION_STATUS_FALSE : string := "False".

Definition ready_condition (now rsn msg : string) : Condition.t :=
  Condition.mk CONDITION_TYPE_READY CONDITION_STATUS_TRUE now rsn msg None.
Definition not_ready_condition (now rsn msg : string) : Condition.t :=
  Condition.mk CONDITION_TYPE_READY CONDITION_STATUS_FALSE now rsn msg None.
Definition progressing_condition (now rsn msg : string) : Condition.t :=
  Condition.mk CONDITION_TYPE_PROGRESSING CONDITION_STATUS_TRUE now rsn msg None.
Definition degraded_condition (now rsn msg : string) : Condition.t :=
  Condition.mk CONDITION_TYPE_DEGRADED CONDITION_STATUS_TRUE now rsn msg None.

Definition has_type (t : string) (c : Condition.t) : bool := String.eqb (Condition.type_ c) t.

(** The in-place update of an existing condition. *)
Definition update_condition (now st rsn msg : string) (c : Condition.t) : Condition.t :=
  let should_update_time := negb (String.eqb (Condition.status c) st) in
  Condition.mk (Condition.type_ c) st
    (if should_update_time then now else Condition.last_transition_time c)
    rsn msg (Condition.observed_generation c).

Definition set_condition (now : string) (conditions : list Condition.t)
    (t st rsn msg : string) : list Condition.t :=
  match find_first (has_type t) conditions with
  | Some _ => update_first (has_type t) (update_condition now st rsn msg) conditions
  | None => (conditions ++ [Condition.mk t st now rsn msg None])%list
  end.

Definition find_condition (conditions : list Condition.t) (t : string) : option Condition.t :=
  find_first (has_type t) conditions.

Definition is_condition_true (conditions : list Condition.t) (t : string) : bool :=
  match find_condition conditions t with
  | Some c => String.eqb (Condition.status c) CONDITION_STATUS_TRUE
  | None => false
  end.

Definition remove_condition (conditions : list Condition.t) (t : string) : list Condition.t :=
  List.filter (λ c, negb (has_type t c)) conditions.

(** Every condition type occurs at most once: what Kubernetes requires of a
    conditions list. *)
Definition unique_types (conditions : list Condition.t) : Prop :=
  NoDup (Condition.type_ <$> conditions).

(** ** Lemmas *)

Lemma has_type_true t c : has_type t c = true ↔ Condition.type_ c = t.
Proof. apply String.eqb_eq. Qed.

Lemma has_type_other t t' c : t ≠ t' → has_type t c = true → has_type t' c = false.
Proof. rewrite has_type_true. intros Hne <-. by apply String.eqb_neq. Qed.

Lemma has_type_update t now st rsn msg c :
  has_type t (update_condition now st rsn msg c) = has_type t c.
Proof. done. Qed.

Lemma find_update_same t now st rsn msg conds c :
  find_condition conds t = Some c →
  find_condition (update_first (has_type t) (update_condition now st rsn msg) conds) t
  = Some (update_condition now st rsn msg c).
Proof.
  unfold find_condition. induction conds as [|x l IH]; simpl; [done|].
  destruct (has_type t x) eqn:Hx; simpl; rewrite ?has_type_update, ?Hx; naive_solver.
Qed.

Lemma find_update_other t t' now st rsn msg conds :
  t ≠ t' →
  find_condition (update_first (has_type t) (update_condition now st rsn msg) conds) t'
  = find_condition conds t'.
Proof.
  unfold find_condition. intros Hne. induction conds as [|x l IH]; simpl; [done|].
  destruct (has_type t x) eqn:Hx; simpl; [|by rewrite IH].
  by rewrite has_type_update, (has_type_other t t' x).
Qed.

Lemma set_condition_present now conds t st rsn msg c :
  find_condition conds t = Some c →
  set_condition now conds t st rsn msg
  = update_first (has_type t) (update_condition now st rsn msg) conds.
Proof. unfold set_condition, find_condition. by intros ->. Qed.

Lemma set_condition_absent now conds t st rsn msg :
  find_condition conds t = None →
  set_condition now conds t st rsn msg = (conds ++ [Condition.mk t st now rsn msg None])%list.
Proof. unfold set_condition, find_condition. by intros ->. Qed.

Lemma find_condition_set now conds t st rsn msg :
  find_condition (set_condition now conds t st rsn msg) t =
  Some match find_condition conds t with
       | Some c => update_condition now st rsn msg c
       | None => Condition.mk t st now rsn msg None
       end.
Proof.
  destruct (find_condition conds t) as [c|] eqn:E.
  - erewrite set_condition_present by done. by apply find_update_same.
  - rewrite set_condition_absent by done. unfold find_condition in *.
    rewrite find_first_app, E. simpl. unfold has_type. simpl. by rewrite String.eqb_refl.
Qed.

Lemma find_condition_set_other now conds t t' st rsn msg :
  t ≠ t' →
  find_condition (set_condition now conds t st rsn msg) t' = find_condition conds t'.
Proof.
  intros Hne. destruct (find_condition conds t) as [c|] eqn:E.
  - erewrite set_condition_present by done. by apply find_update_other.
  - rewrite set_condition_absent by done. unfold find_condition in *.
    rewrite find_first_app. simpl.
    rewrite (has_type_other t t') by (done || by apply has_type_true).
    by destruct (find_first (has_type t') conds).
Qed.

Lemma set_condition_types now conds t st rsn msg :
  Condition.type_ <$> set_condition now conds t st rsn msg =
  ((Condition.type_ <$> conds)
   ++ match find_condition conds t with Some _ => [] | None => [t] end)%list.
Proof.
  destruct (find_condition conds t) as [c|] eqn:E.
  - erewrite set_condition_present by done. rewrite fmap_update_first by done.
    by rewrite app_nil_r.
  - rewrite set_condition_absent by done. by rewrite fmap_app.
Qed.

Lemma find_condition_None conds t :
  find_condition conds t = None ↔ t ∉ (Condition.type_ <$> conds).
Proof.
  unfold find_condition. rewrite find_first_None, list_elem_of_fmap. split.
  - intros H (c&->&Hc). specialize (H c Hc). unfold has_type in H.
    by rewrite String.eqb_refl in H.
  - intros H c Hc. apply String.eqb_neq. intros <-. apply H. eauto.
Qed.

(** ** Properties *)

(** The read-after-write contract of [set_condition]: the condition of the
    written type carries the new status, reason and message; its transition
    time is the clock exactly when the condition is new or its status changed,
    and the old time otherwise; every other type reads as before; no type is
    duplicated and the order of the existing ones is kept. *)
Theorem set_condition_contract now conds t st rsn msg :
  let conds' := set_condition now conds t st rsn msg in
  (∃ c, find_condition conds' t = Some c ∧
        Condition.status c = st ∧ Condition.reason c = rsn ∧ Condition.message c = msg ∧
        Condition.last_transition_time c =
          match find_condition conds t with
          | Some old => if String.eqb (Condition.status old) st
                        then Condition.last_transition_time old else now
          | None => now
          end) ∧
  (∀ t', t ≠ t' → find_condition conds' t' = find_condition conds t') ∧
  (unique_types conds → unique_types conds') ∧
  (Condition.type_ <$> conds) `prefix_of` (Condition.type_ <$> conds').
Proof.
  cbv zeta. split_and!.
  - rewrite find_condition_set. eexists; split; [done|].
    destruct (find_condition conds t) as [c|]; simpl; split_and!; try done.
    by destruct (String.eqb (Condition.status c) st).
  - intros t' Hne. by apply find_condition_set_other.
  - unfold unique_types. rewrite set_condition_types.
    destruct (find_condition conds t) eqn:E; [by rewrite app_nil_r|].
    rewrite find_condition_None in E. intros Hnd. apply NoDup_app; split_and!; [done| |].
    + intros x Hx ->%list_elem_of_singleton. done.
    + apply NoDup_singleton.
  - rewrite set_condition_types. by eexists.
Qed.

(** Removal is complete and touches nothing else, and a removed condition
    is never true. *)
Theorem remove_condition_contract conds t :
  find_condition (remove_condition conds t) t = None ∧
  is_condition_true (remove_condition conds t) t = false ∧
  (∀ t', t ≠ t' → find_condition (remove_condition conds t) t' = find_condition conds t') ∧
  (unique_types conds → unique_types (remove_condition conds t)).
Proof.
  assert (find_condition (remove_condition conds t) t = None) as HN.
  { apply find_first_None. intros c [_ Hc]%list_elem_of_In%filter_In.
    by destruct (has_type t c). }
  split_and!; [done|unfold is_condition_true; by rewrite HN| |].
  - clear HN. intros t' Hne. unfold find_condition, remove_condition.
    induction conds as [|c l IH]; simpl; [done|].
    destruct (has_type t c) eqn:E; simpl; [rewrite (has_type_other t t' c) by done|];
      rewrite IH; done.
  - clear HN. unfold unique_types, remove_condition.
    induction conds as [|c l IH]; csimpl; [done|]. rewrite NoDup_cons. intros [Hc Hl].
    destruct (has_type t c); simpl; [by apply IH|]. constructor; [|by apply IH].
    intros (x&Hx&[Hin _]%list_elem_of_In%filter_In)%list_elem_of_fmap.
    apply Hc. rewrite Hx. apply list_elem_of_fmap_2. by apply list_elem_of_In.
Qed.
