(* ===== verification/Phases.v ===== *)
(** * The reconcile phase machine

    Models [src/src/controller/phases.rs] (the transition table and the
    [PhaseMachine]) and its use by the reconciler in
    [src/src/controller/reconciler.rs] ([advance_phase], [fail_phase] and the
    phase bookkeeping of [reconcile] and [apply_stellar_node]). *)

From stdpp Require Import prelude strings list pretty relations.
From S2P Require Import Prelude RustStr.
Local Open Scope string_scope.

Module ReconcilePhase.

Inductive t :=
| Initializing
| Validating
| Finalizing
| Provisioning
| Deploying
| Scaling
| Observing
| Remediating
| Publishing
| Succeeded
| Failed.

#[global] Instance eq_dec : EqDecision t.
Proof. solve_decision. Defined.

Definition ALL : list t :=
  [Initializing; Validating; Finalizing; Provisioning; Deploying; Scaling;
   Observing; Remediating; Publishing; Succeeded; Failed].

Definition as_str (p : t) : string :=
  match p with
  | Initializing => "initializing"
  | Validating => "validating"
  | Finalizing => "finalizing"
  | Provisioning => "provisioning"
  | Deploying => "deploying"
  | Scaling => "scaling"
  | Observing => "observing"
  | Remediating => "remediating"
  | Publishing => "publishing"
  | Succeeded => "succeeded"
  | Failed => "failed"
  end.

Definition is_terminal (p : t) : bool :=
  match p with Succeeded | Failed => true | _ => false end.

Definition lifecycle_phase (p : t) : string :=
  match p with
  | Initializing | Validating => "Pending"
  | Finalizing => "Terminating"
  | Provisioning | Deploying | Scaling => "Creating"
  | Observing => "Syncing"
  | Remediating => "Remediating"
  | Publishing | Succeeded => "Running"
  | Failed => "Failed"
  end.

Definition can_transition_to (self next : t) : bool :=
  if is_terminal self then false
  else if bool_decide (next = Failed) then true
  else match self with
       | Initializing =>
           match next with Validating | Finalizing | Succeeded => true | _ => false end
       | Validating => match next with Provisioning | Publishing => true | _ => false end
       | Finalizing => match next with Succeeded => true | _ => false end
       | Provisioning => match next with Deploying => true | _ => false end
       | Deploying => match next with Scaling | Observing => true | _ => false end
       | Scaling => match next with Observing => true | _ => false end
       | Observing => match next with Remediating | Publishing => true | _ => false end
       | Remediating => match next with Observing | Publishing => true | _ => false end
       | Publishing => match next with Succeeded => true | _ => false end
       | Succeeded | Failed => false
       end.

Definition allowed_transitions (self : t) : list t :=
  List.filter (can_transition_to self) ALL.

End ReconcilePhase.
Import ReconcilePhase.

(** ** The machine *)

Module PhaseTransition.

Record t := mk {
  from : ReconcilePhase.t;
  to : ReconcilePhase.t;
  at_ : DateTime;
  reason : string;
  elapsed_ms : Z;
}.

(** The [Display] text. *)
Definition display (x : t) : string :=
  as_str (from x) +:+ " → " +:+ as_str (to x) +:+ " after "
  +:+ show_Z (elapsed_ms x) +:+ "ms (" +:+ reason x +:+ ")".

End PhaseTransition.

(** The variants of the crate's error type the pipeline can produce here: the
    machine's own, and any error of a phase body by its display text. *)
Inductive Error :=
| PhaseTransitionError (msg : string)
| BodyError (display : string).

Definition show_error (e : Error) : string :=
  match e with
  | PhaseTransitionError m => "[SK8S-023] Invalid reconcile phase transition: " +:+ m
  | BodyError d => d
  end.

(** The clock readings one [transition_to] takes: [Utc::now()] for the record,
    the instant [elapsed()] reads, and the instant the new phase is entered. *)
Record Clock := mkClock { utc_now : DateTime; elapsed_at : Z; entered_at : Z }.

Module PhaseMachine.

Record t := mk {
  current : ReconcilePhase.t;
  history : list PhaseTransition.t;
  phase_entered_at : Z;
  started_at : Z;
}.

Definition new (now : Z) : t := mk Initializing [] now now.

(** [since.elapsed().as_millis() as u64]; [elapsed] saturates at zero. *)
Definition elapsed_ms_since (since now : Z) : Z := as_u64 (Z.max 0 (now - since) / 1000000).
Definition elapsed_in_phase_ms (now : Z) (m : t) : Z := elapsed_ms_since (phase_entered_at m) now.
Definition total_elapsed_ms (now : Z) (m : t) : Z := elapsed_ms_since (started_at m) now.

Definition rejection (m : t) (next : ReconcilePhase.t) (rsn : string) : string :=
  "cannot move from '" +:+ as_str (current m) +:+ "' to '" +:+ as_str next
  +:+ "' (allowed: " +:+ join ", " (as_str <$> allowed_transitions (current m))
  +:+ "); reason was '" +:+ rsn +:+ "'".

Definition transition_to (c : Clock) (next : ReconcilePhase.t) (rsn : string) (m : t)
    : t * result PhaseTransition.t Error :=
  if negb (can_transition_to (current m) next)
  then (m, Err (PhaseTransitionError (rejection m next rsn)))
  else
    let transition := PhaseTransition.mk (current m) next (utc_now c) rsn
                        (elapsed_in_phase_ms (elapsed_at c) m) in
    (mk next (history m ++ [transition]) (entered_at c) (started_at m), Ok transition).

Definition fail (c : Clock) (rsn : string) (m : t) : t :=
  if is_terminal (current m) then m else fst (transition_to c Failed rsn m).

Definition succeed (c : Clock) (rsn : string) (m : t) : t :=
  if can_transition_to (current m) Succeeded
  then fst (transition_to c Succeeded rsn m) else m.

(** [run(phase, reason, body)]: [body] is the outcome of the phase body, which
    is awaited only when the phase could be entered; [c] and [c'] are the clock
    readings on entry and on the failure path. *)
Definition run {T} (c c' : Clock) (phase : ReconcilePhase.t) (rsn : string)
    (body : unit → result T Error) (m : t) : t * result T Error :=
  match transition_to c phase rsn m with
  | (m', Err e) => (m', Err e)
  | (m', Ok _) =>
      match body tt with
      | Ok v => (m', Ok v)
      | Err err => (fail c' (as_str phase +:+ " failed: " +:+ show_error err) m', Err err)
      end
  end.

Definition summary (now : Z) (m : t) : string :=
  let parts :=
    (match history m with
     | first :: _ => as_str (PhaseTransition.from first)
     | [] => as_str (current m)
     end) :: ((λ x, as_str (PhaseTransition.to x)) <$> history m) in
  join " → " parts +:+ " (total " +:+ show_Z (total_elapsed_ms now m) +:+ "ms)".

Definition phase_durations (m : t) : list (ReconcilePhase.t * Z) :=
  (λ x, (PhaseTransition.from x, PhaseTransition.elapsed_ms x)) <$> history m.

End PhaseMachine.
Import PhaseMachine.

(** ** The reconciler's bookkeeping *)

(** [Arc<Mutex<PhaseMachine>>]: the machine and whether the lock is poisoned. *)
Record Phases := mkPhases { machine : PhaseMachine.t; poisoned : bool }.

Definition with_lock (f : PhaseMachine.t → PhaseMachine.t) (ph : Phases) : Phases :=
  if poisoned ph then ph else mkPhases (f (machine ph)) false.

Definition advance_phase (c : Clock) (to : ReconcilePhase.t) (rsn : string) (ph : Phases) : Phases :=
  with_lock (λ m, fst (transition_to c to rsn m)) ph.

Definition fail_phase (c : Clock) (rsn : string) (ph : Phases) : Phases :=
  with_lock (fail c rsn) ph.

(** The [advance_phase] calls of [apply_stellar_node], in their order. *)
Definition advance_provisioning : ReconcilePhase.t * string :=
  (Provisioning, "spec validated; ensuring durable prerequisites").
Definition advance_scaling : ReconcilePhase.t * string := (Scaling, "workload applied; reconciling elasticity").
Definition advance_observing : ReconcilePhase.t * string := (Observing, "checking node health and sync state").
Definition advance_remediating : ReconcilePhase.t * string := (Remediating, "evaluating automatic remediation").
Definition advance_publishing : ReconcilePhase.t * string := (Publishing, "publishing status and events").

Definition apply_advances : list (ReconcilePhase.t * string) :=
  [advance_provisioning; advance_scaling; advance_observing; advance_remediating; advance_publishing].

(** [apply_stellar_node] as the machine sees it: it returns after [k] of its
    [advance_phase] calls, each at its own clock reading. *)
Definition apply_phases (clk : nat → Clock) (k : nat) (ph : Phases) : Phases :=
  fst (fold_left (λ '(ph, i) '(p, r), (advance_phase (clk i) p r ph, S i))
         (take k apply_advances) (ph, 0)).

(** What one pass of [reconcile] meets on its way. *)
Record Pass := mkPass {
  is_leader : bool;
  write_allowed : bool;                 (* [DegradationGate::check(Write)] *)
  deletion_timestamp : bool;
  has_finalizer : bool;
  cleanup : result unit Error;          (* [cleanup_stellar_node] *)
  finalizer_patch : result unit Error;  (* the finalizer [api.patch] *)
  apply_calls : nat;                    (* how far [apply_stellar_node] got *)
  apply_result : result unit Error;
}.

Definition reconcile_phases (clk : nat → Clock) (p : Pass) : Phases * result unit Error :=
  let ph := mkPhases (PhaseMachine.new (entered_at (clk 0))) false in
  let close res ph :=
    match res with
    | Ok _ => with_lock (succeed (clk 9) "reconciliation completed") ph
    | Err e => with_lock (fail (clk 9) ("reconciliation failed: " +:+ show_error e)) ph
    end in
  if negb (is_leader p) then (with_lock (succeed (clk 1) "not the leader; pass skipped") ph, Ok tt)
  else if negb (write_allowed p)
  then (with_lock (succeed (clk 1) "control plane frozen; pass deferred") ph, Ok tt)
  else if deletion_timestamp p then
    let ph := advance_phase (clk 1) Finalizing "deletion timestamp is set" ph in
    let finish ph := (close (Ok tt) (with_lock (succeed (clk 3) "finalizer removed") ph), Ok tt) in
    if has_finalizer p then
      match cleanup p with
      | Err e => (fail_phase (clk 2) ("cleanup failed: " +:+ show_error e) ph, Err e)
      | Ok _ =>
          match finalizer_patch p with
          | Err e => (ph, Err e)
          | Ok _ => finish ph
          end
      end
    else finish ph
  else
    let ph := advance_phase (clk 1) Validating "reconciling a live StellarNode" ph in
    let apply ph :=
      let ph := apply_phases (λ i, clk (3 + i)) (apply_calls p) ph in
      (close (apply_result p) ph, apply_result p) in
    if has_finalizer p then apply ph
    else match finalizer_patch p with
         | Err e => (ph, Err e)
         | Ok _ => apply ph
         end.

(** ** Reachable machines *)

Local Close Scope string_scope.

(** One call on the machine. *)
Inductive step : PhaseMachine.t → PhaseMachine.t → Prop :=
| step_transition c next rsn m : step m (fst (transition_to c next rsn m))
| step_fail c rsn m : step m (fail c rsn m)
| step_succeed c rsn m : step m (succeed c rsn m)
| step_run T c c' p rsn (body : unit → result T Error) m : step m (fst (run c c' p rsn body m)).

Definition reachable (m : PhaseMachine.t) : Prop := ∃ now, rtc step (PhaseMachine.new now) m.

(** The move every call amounts to: nothing, or one legal transition recorded
    at the end of the history. *)
Inductive move : PhaseMachine.t → PhaseMachine.t → Prop :=
| move_stay m : move m m
| move_go m next x e :
    can_transition_to (current m) next = true →
    PhaseTransition.from x = current m → PhaseTransition.to x = next →
    move m (PhaseMachine.mk next (history m ++ [x]) e (started_at m)).

Lemma transition_to_move c next rsn m : move m (fst (transition_to c next rsn m)).
Proof.
  unfold transition_to. destruct (can_transition_to (current m) next) eqn:E; simpl.
  - by apply move_go.
  - apply move_stay.
Qed.

Lemma fail_move c rsn m : move m (fail c rsn m).
Proof. unfold fail. destruct (is_terminal _); [apply move_stay|apply transition_to_move]. Qed.

Lemma succeed_move c rsn m : move m (succeed c rsn m).
Proof. unfold succeed. destruct (can_transition_to _ _); [apply transition_to_move|apply move_stay]. Qed.

Lemma step_moves m m' : step m m' → rtc move m m'.
Proof.
  destruct 1 as [c next rsn m|c rsn m|c rsn m|T c c' p rsn body m].
  - apply rtc_once, transition_to_move.
  - apply rtc_once, fail_move.
  - apply rtc_once, succeed_move.
  - unfold run. destruct (transition_to c p rsn m) as [m1 [x|e]] eqn:E;
      apply (f_equal fst) in E; simpl in E; subst m1.
    + destruct (body tt); simpl; [apply rtc_once, transition_to_move|].
      eapply rtc_l; [apply transition_to_move|]. apply rtc_once, fail_move.
    + apply rtc_once, transition_to_move.
Qed.

Lemma reachable_ind (P : PhaseMachine.t → Prop) :
  (∀ now, P (PhaseMachine.new now)) →
  (∀ m m', P m → move m m' → P m') →
  ∀ m, reachable m → P m.
Proof.
  intros H0 Hs m [now Hm].
  assert (∀ a b, rtc move a b → P a → P b) as Hmoves by (induction 1; eauto).
  assert (∀ a b, rtc step a b → P a → P b) as Hsteps
    by (induction 1; eauto using step_moves).
  eauto.
Qed.

(** [trail p h q]: [h] records a chain of legal transitions from [p] to [q]. *)
Fixpoint trail (p : ReconcilePhase.t) (h : list PhaseTransition.t) (q : ReconcilePhase.t) : Prop :=
  match h with
  | [] => p = q
  | x :: h' => PhaseTransition.from x = p ∧
               can_transition_to p (PhaseTransition.to x) = true ∧
               trail (PhaseTransition.to x) h' q
  end.

Lemma trail_snoc p h q x :
  trail p h q → PhaseTransition.from x = q →
  can_transition_to q (PhaseTransition.to x) = true →
  trail p (h ++ [x]) (PhaseTransition.to x).
Proof. revert p. induction h as [|y h IH]; simpl; intros p; [by intros ->|naive_solver]. Qed.

(** The phases a machine has entered, oldest first. *)
Definition visited (m : PhaseMachine.t) : list ReconcilePhase.t :=
  PhaseTransition.to <$> history m.

(** The only ways to have got to a non-terminal phase. *)
Definition prefix_of_phase (vs : list ReconcilePhase.t) (p : ReconcilePhase.t) : Prop :=
  match p with
  | Initializing => vs = []
  | Validating => vs = [Validating]
  | Finalizing => vs = [Finalizing]
  | Provisioning => vs = [Validating; Provisioning]
  | Deploying => vs = [Validating; Provisioning; Deploying]
  | Scaling => vs = [Validating; Provisioning; Deploying; Scaling]
  | Observing => ∃ r, vs = [Validating; Provisioning; Deploying] ++ r ++ [Observing] ∧ Deploying ∉ r
  | Remediating =>
      ∃ r, vs = [Validating; Provisioning; Deploying] ++ r ++ [Remediating]
           ∧ Deploying ∉ r ∧ Observing ∈ r
  | Publishing =>
      vs = [Validating; Publishing] ∨
      ∃ r, vs = [Validating; Provisioning; Deploying] ++ r ++ [Publishing]
           ∧ Deploying ∉ r ∧ Observing ∈ r
  | Succeeded | Failed => False
  end%list.

Definition path_shape (vs : list ReconcilePhase.t) (p : ReconcilePhase.t) : Prop :=
  match p with
  | Succeeded =>
      ∃ vs', vs = (vs' ++ [Succeeded])%list ∧
             (vs' = [] ∨ vs' = [Finalizing] ∨ prefix_of_phase vs' Publishing)
  | Failed => ∃ vs' q, vs = (vs' ++ [Failed])%list ∧ prefix_of_phase vs' q
  | _ => prefix_of_phase vs p
  end.

Ltac extend_shape :=
  split_and?; [by simpl; rewrite <- ?app_assoc|..];
  rewrite elem_of_app, list_elem_of_singleton; naive_solver.

(** Entering the next phase extends the shape: the loop between observing and
    remediating stays after the deployment. *)
Lemma prefix_extend vs p q :
  prefix_of_phase vs p → can_transition_to p q = true → path_shape (vs ++ [q]) q.
Proof.
  intros Hp Hq. destruct (decide (q = Failed)) as [->|HF]; [by exists vs, p|].
  destruct p, q; simpl in *; try done; subst.
  all: try reflexivity.
  all: try (eexists; split; [reflexivity|]; by auto).
  - (* Validating -> Publishing *) by left.
  - (* Deploying -> Observing *) exists []. split; [done|apply not_elem_of_nil].
  - (* Scaling -> Observing *) exists [Scaling]. split; [done|].
    rewrite list_elem_of_singleton. done.
  - (* Observing -> Remediating *) destruct Hp as (r&->&Hr). exists (r ++ [Observing]). extend_shape.
  - (* Observing -> Publishing *) destruct Hp as (r&->&Hr). right. exists (r ++ [Observing]). extend_shape.
  - (* Remediating -> Observing *) destruct Hp as (r&->&Hr&Ho). exists (r ++ [Remediating]). extend_shape.
  - (* Remediating -> Publishing *) destruct Hp as (r&->&Hr&Ho). right. exists (r ++ [Remediating]). extend_shape.
Qed.

Lemma can_transition_nonterminal p q : can_transition_to p q = true → is_terminal p = false.
Proof. unfold can_transition_to. by destruct (is_terminal p). Qed.

Lemma path_shape_prefix vs p : is_terminal p = false → path_shape vs p → prefix_of_phase vs p.
Proof. by destruct p. Qed.

Lemma move_path_shape m m' :
  path_shape (visited m) (current m) → move m m' → path_shape (visited m') (current m').
Proof.
  intros IH Hmv. revert IH. destruct Hmv as [m0|m0 next x e Hc Hf Ht]; [done|]. intros IH.
  unfold visited. simpl. rewrite fmap_app. simpl. rewrite Ht.
  eapply prefix_extend; [|done].
  eapply path_shape_prefix; [by eapply can_transition_nonterminal|done].
Qed.

Lemma reachable_path_shape m : reachable m → path_shape (visited m) (current m).
Proof.
  apply (reachable_ind (λ m, path_shape (visited m) (current m))); [done|]. apply move_path_shape.
Qed.

(** [Deploying] is entered from [Provisioning] only, which fixes what precedes it. *)
Definition deploy_prefix (m : PhaseMachine.t) : Prop :=
  ∀ h1 x h2, history m = h1 ++ x :: h2 → PhaseTransition.to x = Deploying →
    PhaseTransition.to <$> h1 = [Validating; Provisioning].

Lemma move_deploy_prefix m m' :
  path_shape (visited m) (current m) → deploy_prefix m → move m m' → deploy_prefix m'.
Proof.
  intros Hs IH Hmv. revert Hs IH. destruct Hmv as [m0|m0 next x e Hc Hf Ht]; [done|].
  intros Hs IH.
  intros h1 y h2 Hh Hy; simpl in Hh. destruct (decide (h2 = [])) as [->|Hne].
  - apply app_inj_tail in Hh as [<- <-]. rewrite Hy in Ht. subst next.
    destruct (current m0) eqn:Hcur; done.
  - destruct (exists_last Hne) as (h2'&z&->).
    rewrite app_comm_cons, app_assoc in Hh. apply app_inj_tail in Hh as [Hh _]. eauto.
Qed.

Lemma reachable_deploy_prefix m : reachable m → deploy_prefix m.
Proof.
  intros Hm. cut (path_shape (visited m) (current m) ∧ deploy_prefix m); [tauto|].
  revert m Hm. apply (reachable_ind (λ m, path_shape (visited m) (current m) ∧ deploy_prefix m)).
  - intros now. split; [done|]. by intros [|??].
  - intros m m' [Hs Hd] Hmv. eauto using move_path_shape, move_deploy_prefix.
Qed.

(** ** Properties *)

(** C31: the recorded history of every reachable machine is a chain of moves the
    transition table allows, starting in [Initializing] and ending in the
    current phase: no call of the interface can produce an illegal or a broken
    audit trail. *)
Theorem history_is_legal_trail m :
  reachable m → trail Initializing (history m) (current m).
Proof.
  intros Hm. induction Hm as [now|m m' IH Hmv] using reachable_ind; [done|].
  destruct Hmv as [m|m next x e Hc Hf <-]; [done|]. by eapply trail_snoc.
Qed.

(** The pipeline order the table encodes: whenever a pass enters [Deploying],
    it has entered exactly [Validating] and then [Provisioning] before; and a
    pass that succeeds after deploying has observed the node and published its
    status since. *)
Theorem pipeline_order m :
  reachable m →
  (∀ h1 x h2, history m = h1 ++ x :: h2 → PhaseTransition.to x = Deploying →
     PhaseTransition.to <$> h1 = [Validating; Provisioning]) ∧
  (current m = Succeeded → Deploying ∈ visited m →
     ∃ r, visited m = [Validating; Provisioning; Deploying] ++ r ++ [Publishing; Succeeded]
          ∧ Observing ∈ r).
Proof.
  intros Hm. split.
  - by apply reachable_deploy_prefix.
  - intros Hc HD. pose proof (reachable_path_shape m Hm) as Hs. rewrite Hc in Hs.
    destruct Hs as (vs&Hvs&[->|[->|[->|(r&->&Hr&Ho)]]]); rewrite Hvs in HD |- *;
      [by exfalso; simpl in HD; rewrite ?elem_of_cons, elem_of_nil in HD; naive_solver..|].
    exists r. split; [by simpl; rewrite <- !app_assoc|done].
Qed.

(** Every call is total and typed: a transition is taken exactly when the
    table allows it, is then appended to the history with its source, target
    and reason, and otherwise leaves the machine untouched and reports the
    phase-transition error; terminal phases absorb every call. *)
Theorem transition_to_spec c next rsn m :
  (if can_transition_to (current m) next
   then ∃ x, transition_to c next rsn m =
               (PhaseMachine.mk next (history m ++ [x]) (entered_at c) (started_at m), Ok x)
             ∧ PhaseTransition.from x = current m ∧ PhaseTransition.to x = next
             ∧ PhaseTransition.reason x = rsn
   else transition_to c next rsn m =
          (m, Err (PhaseTransitionError (PhaseMachine.rejection m next rsn)))) ∧
  (is_terminal (current m) = true →
     fst (transition_to c next rsn m) = m ∧ fail c rsn m = m ∧ succeed c rsn m = m) ∧
  (is_terminal (current m) = false → current (fail c rsn m) = Failed).
Proof.
  split_and!.
  - unfold transition_to. destruct (can_transition_to _ _); simpl; eauto.
  - intros Ht. unfold transition_to, fail, succeed, can_transition_to. by rewrite Ht.
  - intros Ht. unfold fail, transition_to, can_transition_to. by rewrite Ht.
Qed.

(** ** The reconciler's own pass *)

Lemma fold_advance_provisioning clk l ph i :
  current (machine ph) = Provisioning →
  Forall (λ pr, can_transition_to Provisioning (fst pr) = false) l →
  fst (fold_left (λ '(ph, i) '(p, r), (advance_phase (clk i) p r ph, S i)) l (ph, i)) = ph.
Proof.
  intros Hc Hl. revert i. induction Hl as [|[p r] l Hp Hl IH]; intros i; simpl; [done|].
  simpl in Hp. unfold advance_phase, with_lock, transition_to. rewrite Hc, Hp. simpl.
  destruct (poisoned ph) eqn:E; [apply IH|]. destruct ph; simpl in *; subst. apply IH.
Qed.

(** After its first advance the pipeline is in [Provisioning] and every later
    advance of [apply_stellar_node] is rejected. *)
Lemma apply_phases_current clk k ph :
  poisoned ph = false → current (machine ph) = Validating →
  current (machine (apply_phases clk k ph)) = match k with 0 => Validating | _ => Provisioning end ∧
  poisoned (apply_phases clk k ph) = false.
Proof.
  intros Hp Hc. unfold apply_phases. destruct k as [|k]; [done|].
  change (take (S k) apply_advances)
    with (advance_provisioning :: take k (drop 1 apply_advances)).
  simpl fold_left. rewrite fold_advance_provisioning.
  - unfold advance_phase, with_lock, transition_to. by rewrite Hp, Hc.
  - unfold advance_phase, with_lock, transition_to. by rewrite Hp, Hc.
  - apply Forall_take. repeat constructor.
Qed.

(** A pass over a live node (leader, writes allowed, not being deleted) never
    ends in [Succeeded], however far it gets and whatever it returns: the
    pipeline advances from [Provisioning] to [Scaling] without entering
    [Deploying], which the table rejects, so a pass that returns [Ok] ends with
    its machine still in [Validating] or [Provisioning]. *)
Theorem live_pass_never_succeeds clk p :
  is_leader p = true → write_allowed p = true → deletion_timestamp p = false →
  let '(ph, res) := reconcile_phases clk p in
  current (machine ph) ≠ Succeeded ∧
  (∀ v, res = Ok v →
     current (machine ph) = match apply_calls p with 0 => Validating | _ => Provisioning end).
Proof.
  intros Hl Hw Hd. unfold reconcile_phases. rewrite Hl, Hw, Hd. simpl negb. cbv iota.
  set (ph := advance_phase _ Validating _ _).
  assert (poisoned ph = false ∧ current (machine ph) = Validating) as [Hp Hc] by done.
  destruct (apply_phases_current (λ i, clk (3 + i)) (apply_calls p) ph Hp Hc) as [Ha Hpa].
  set (ph' := apply_phases _ _ _) in *. clearbody ph' ph.
  destruct (apply_calls p) as [|k], (has_finalizer p), (finalizer_patch p), (apply_result p);
    simpl fst in *; unfold with_lock, succeed, fail, transition_to;
    rewrite ?Hpa, ?Ha, ?Hc; simpl; rewrite ?Ha, ?Hc; split; congruence.
Qed.

(** ** Witnesses *)

(** The machine after asking for the given phases in turn. *)
Definition walk (ps : list ReconcilePhase.t) : PhaseMachine.t :=
  fold_left (λ m p, fst (transition_to (mkClock 0 0 0) p ""%string m)) ps (PhaseMachine.new 0).

Lemma walk_reachable ps : reachable (walk ps).
Proof.
  exists 0%Z. unfold walk. generalize (PhaseMachine.new 0).
  induction ps as [|p ps IH]; intros m; simpl; [apply rtc_refl|].
  eapply rtc_l; [apply step_transition|apply IH].
Qed.

Definition full_pass : list ReconcilePhase.t :=
  [Validating; Provisioning; Deploying; Scaling; Observing; Remediating; Observing;
   Publishing; Succeeded].

Lemma history_is_legal_trail_witness :
  length (history (walk full_pass)) = 9 ∧
  trail Initializing (history (walk full_pass)) Succeeded.
Proof.
  split; [reflexivity|].
  apply (history_is_legal_trail (walk full_pass)). apply walk_reachable.
Defined.

Lemma pipeline_order_witness :
  ∃ r, visited (walk full_pass)
       = [Validating; Provisioning; Deploying] ++ r ++ [Publishing; Succeeded] ∧ Observing ∈ r.
Proof.
  destruct (pipeline_order (walk full_pass)) as [_ H]; [apply walk_reachable|].
  apply H; [reflexivity|]. vm_compute. do 2 apply list_elem_of_further. apply list_elem_of_here.
Defined.

Definition live_pass : Pass := mkPass true true false true (Ok tt) (Ok tt) 5 (Ok tt).

Lemma live_pass_never_succeeds_witness :
  current (machine (fst (reconcile_phases (λ _, mkClock 0 0 0) live_pass))) = Provisioning.
Proof.
  destruct (live_pass_never_succeeds (λ _, mkClock 0 0 0) live_pass) as [_ H];
    [reflexivity..|]. exact (H tt eq_refl).
Defined.
