(* ===== verification/TrafficShiftTypes.v ===== *)
(** * The TrafficShiftPlan custom resource

    Models [src/src/crd/traffic_shift_plan.rs]: one module per struct or enum,
    with the source's field names; [set_f] is the assignment to field [f]. *)

From stdpp Require Import prelude strings gmap list.
From S2P Require Import Prelude RustStr Float64 Json Conditions.
Local Open Scope string_scope.


Module RegionTarget.

Record t := mk {
  name : string;
  region : string;
  endpoint : string;
}.

End RegionTarget.

Module FailoverTrigger.

Inductive t := Manual | Automatic.

#[global] Instance eq_dec : EqDecision t.
Proof. solve_decision. Defined.

End FailoverTrigger.

Definition default_hostname : string := "stellar-horizon.stellar.example.com".
Definition default_ttl : Z := 60.
Definition default_initial_primary_weight : Z := 100.

Module RoutingRecordSpec.

Record t := mk {
  hostname : string;
  ttl_seconds : Z;
  initial_primary_weight : Z;
}.

Definition default : t := mk default_hostname default_ttl default_initial_primary_weight.

End RoutingRecordSpec.

Definition default_failure_threshold : Z := 3.
Definition default_recovery_threshold : Z := 5.
Definition default_min_success_rate : f64 := f64_of_Z 99.
Definition default_min_samples : Z := 5.
Definition default_evidence_window : Z := 300.
Definition default_probe_timeout : Z := 5.

Module HealthGateSpec.

Record t := mk {
  failure_threshold : Z;
  recovery_threshold : Z;
  min_success_rate_percent : f64;
  min_samples : Z;
  evidence_window_seconds : Z;
  timeout_seconds : Z;
}.

Definition default : t :=
  mk default_failure_threshold default_recovery_threshold default_min_success_rate
    default_min_samples default_evidence_window default_probe_timeout.

End HealthGateSpec.

Definition default_step_percent : Z := 25.
Definition default_soak : Z := 120.
Definition default_drain : Z := 60.
Definition default_max_soak_error_rate : f64 := f64_of_Z 1.

Module ShiftPolicy.

Record t := mk {
  step_percent : Z;
  soak_seconds : Z;
  drain_seconds : Z;
  max_soak_error_rate_percent : f64;
}.

Definition default : t :=
  mk default_step_percent default_soak default_drain default_max_soak_error_rate.

End ShiftPolicy.

Module FailbackPolicy.

Record t := mk {
  automatic : bool;
  min_stable_seconds : Z;
  verify_final_step : bool;
}.

End FailbackPolicy.

Definition default_rto : Z := 900.
Definition default_rpo : Z := 30.

Module FailoverTargets.

Record t := mk {
  rto_seconds : Z;
  rpo_seconds : Z;
  drill : bool;
}.

Definition default : t := mk default_rto default_rpo false.

End FailoverTargets.

Module TrafficShiftPlanSpec.

Record t := mk {
  primary : RegionTarget.t;
  secondary : RegionTarget.t;
  trigger : FailoverTrigger.t;
  routing : RoutingRecordSpec.t;
  health_gate : HealthGateSpec.t;
  shift : ShiftPolicy.t;
  failback : FailbackPolicy.t;
  targets : FailoverTargets.t;
  drill_id : option string;
}.

End TrafficShiftPlanSpec.

Module TrafficShiftPhase.

Inductive t :=
| Idle
| Gated
| Draining
| Shifting
| Soaking
| Completed
| Aborted
| Failed.

#[global] Instance eq_dec : EqDecision t.
Proof. solve_decision. Defined.

Definition is_failover_complete (p : t) : bool :=
  match p with Completed => true | _ => false end.

Definition is_in_progress (p : t) : bool :=
  match p with Draining | Shifting | Soaking => true | _ => false end.

Definition is_terminal (p : t) : bool :=
  match p with Completed | Aborted | Failed => true | _ => false end.

(** The [Debug] name and the camel-case name of serde. *)
Definition debug (p : t) : string :=
  match p with
  | Idle => "Idle" | Gated => "Gated" | Draining => "Draining" | Shifting => "Shifting"
  | Soaking => "Soaking" | Completed => "Completed" | Aborted => "Aborted" | Failed => "Failed"
  end.

Definition serde (p : t) : string :=
  match p with
  | Idle => "idle" | Gated => "gated" | Draining => "draining" | Shifting => "shifting"
  | Soaking => "soaking" | Completed => "completed" | Aborted => "aborted" | Failed => "failed"
  end.

End TrafficShiftPhase.

Module ShiftDirection.

Inductive t := Failover | Failback.

#[global] Instance eq_dec : EqDecision t.
Proof. solve_decision. Defined.

Definition swapped (d : t) : t :=
  match d with Failover => Failback | Failback => Failover end.

Definition as_str (d : t) : string :=
  match d with Failover => "failover" | Failback => "failback" end.

Definition debug (d : t) : string :=
  match d with Failover => "Failover" | Failback => "Failback" end.

End ShiftDirection.

Module RegionHealthEvidence.

Record t := mk {
  region : string;
  successes : Z;
  failures : Z;
  consecutive_successes : Z;
  consecutive_failures : Z;
  success_rate_percent : f64;
  error_rate_percent : f64;
  replication_lag_seconds : option Z;
  last_probe_at : DateTime;
  first_probe_at : DateTime;
  last_error : option string;
}.

Definition samples (e : t) : Z := successes e +u32 failures e.

Definition is_stale (e : t) (now : DateTime) (window_seconds : Z) : bool :=
  (window_seconds <? num_seconds (now - last_probe_at e))%Z.

Definition is_healthy (e : t) (gate : HealthGateSpec.t) (now : DateTime) : bool :=
  ((HealthGateSpec.recovery_threshold gate <=? consecutive_successes e)
   && (HealthGateSpec.min_samples gate <=? samples e)
   && f64_ge (success_rate_percent e) (HealthGateSpec.min_success_rate_percent gate)
   && negb (is_stale e now (HealthGateSpec.evidence_window_seconds gate)))%Z.

Definition is_unhealthy (e : t) (gate : HealthGateSpec.t) : bool :=
  (HealthGateSpec.failure_threshold gate <=? consecutive_failures e)%Z.

End RegionHealthEvidence.

Module AppliedGate.

Record t := mk {
  failure_threshold : Z;
  recovery_threshold : Z;
  min_success_rate_percent : f64;
  min_samples : Z;
  evidence_window_seconds : Z;
}.

End AppliedGate.

Module GateDecision.

Record t := mk {
  open : bool;
  direction : ShiftDirection.t;
  reason : string;
  applied : AppliedGate.t;
  source : RegionHealthEvidence.t;
  target : RegionHealthEvidence.t;
  evaluated_at : DateTime;
}.

End GateDecision.

Module StepOutcome.

Inductive t := Pending | Draining | Applied | Succeeded | Aborted | Failed.

#[global] Instance eq_dec : EqDecision t.
Proof. solve_decision. Defined.

Definition is_done (o : t) : bool := match o with Succeeded => true | _ => false end.

Definition serde (o : t) : string :=
  match o with
  | Pending => "pending" | Draining => "draining" | Applied => "applied"
  | Succeeded => "succeeded" | Aborted => "aborted" | Failed => "failed"
  end.

End StepOutcome.

Module ShiftStepStatus.

Record t := mk {
  index : Z;
  direction : ShiftDirection.t;
  from_primary_weight : Z;
  to_primary_weight : Z;
  record : option json;
  record_ttl_seconds : Z;
  gate : option GateDecision.t;
  drain_started_at : option DateTime;
  started_at : option DateTime;
  soak_ends_at : option DateTime;
  completed_at : option DateTime;
  outcome : StepOutcome.t;
  soak_error_rate_percent : f64;
  message : string;
}.

Definition set_drain_started_at (v : option DateTime) (s : t) : t :=
  mk (index s) (direction s) (from_primary_weight s) (to_primary_weight s) (record s)
    (record_ttl_seconds s) (gate s) v (started_at s) (soak_ends_at s) (completed_at s)
    (outcome s) (soak_error_rate_percent s) (message s).

Definition set_soak_ends_at (v : option DateTime) (s : t) : t :=
  mk (index s) (direction s) (from_primary_weight s) (to_primary_weight s) (record s)
    (record_ttl_seconds s) (gate s) (drain_started_at s) (started_at s) v (completed_at s)
    (outcome s) (soak_error_rate_percent s) (message s).

Definition set_completed_at (v : option DateTime) (s : t) : t :=
  mk (index s) (direction s) (from_primary_weight s) (to_primary_weight s) (record s)
    (record_ttl_seconds s) (gate s) (drain_started_at s) (started_at s) (soak_ends_at s) v
    (outcome s) (soak_error_rate_percent s) (message s).

Definition set_outcome (v : StepOutcome.t) (s : t) : t :=
  mk (index s) (direction s) (from_primary_weight s) (to_primary_weight s) (record s)
    (record_ttl_seconds s) (gate s) (drain_started_at s) (started_at s) (soak_ends_at s)
    (completed_at s) v (soak_error_rate_percent s) (message s).

Definition set_soak_error_rate_percent (v : f64) (s : t) : t :=
  mk (index s) (direction s) (from_primary_weight s) (to_primary_weight s) (record s)
    (record_ttl_seconds s) (gate s) (drain_started_at s) (started_at s) (soak_ends_at s)
    (completed_at s) (outcome s) v (message s).

Definition set_message (v : string) (s : t) : t :=
  mk (index s) (direction s) (from_primary_weight s) (to_primary_weight s) (record s)
    (record_ttl_seconds s) (gate s) (drain_started_at s) (started_at s) (soak_ends_at s)
    (completed_at s) (outcome s) (soak_error_rate_percent s) v.

End ShiftStepStatus.

Module TrafficWeights.

Record t := mk {
  primary_percent : Z;
  secondary_percent : Z;
}.

Definition from_primary_percent (p : Z) : t :=
  let primary_percent := Z.min p 100 in
  mk primary_percent (100 - primary_percent).

Definition is_fully_failed_over (w : t) : bool := (primary_percent w =? 0)%Z.
Definition is_fully_failed_back (w : t) : bool := (secondary_percent w =? 0)%Z.

End TrafficWeights.

Module RtoMeasurement.

Record t := mk {
  direction : ShiftDirection.t;
  started_at : option DateTime;
  completed_at : option DateTime;
  measured_seconds : option Z;
  target_seconds : Z;
  met : option bool;
  over_by_seconds : Z;
}.

Definition default : t := mk ShiftDirection.Failover None None None 0 None 0.

End RtoMeasurement.

Module RpoEvidence.

Record t := mk {
  measured_lag_seconds : Z;
  target_seconds : Z;
  met : bool;
  measured_at : DateTime;
}.

End RpoEvidence.

Module TrafficShiftPlanStatus.

Record t := mk {
  observed_generation : option Z;
  phase : TrafficShiftPhase.t;
  direction : ShiftDirection.t;
  current_weights : TrafficWeights.t;
  steps_completed : Z;
  steps : list ShiftStepStatus.t;
  last_gate : option GateDecision.t;
  health : gmap string RegionHealthEvidence.t;
  rto : RtoMeasurement.t;
  rpo : option RpoEvidence.t;
  applied_record : option json;
  started_at : option DateTime;
  completed_at : option DateTime;
  serving_since : option DateTime;
  last_transition_time : option DateTime;
  last_evaluated_at : option DateTime;
  summary : string;
  conditions : list Condition.t;
}.

Definition set_observed_generation (v : option Z) (s : t) : t :=
  mk v (phase s) (direction s) (current_weights s) (steps_completed s) (steps s) (last_gate s)
    (health s) (rto s) (rpo s) (applied_record s) (started_at s) (completed_at s)
    (serving_since s) (last_transition_time s) (last_evaluated_at s) (summary s) (conditions s).

Definition set_phase (v : TrafficShiftPhase.t) (s : t) : t :=
  mk (observed_generation s) v (direction s) (current_weights s) (steps_completed s) (steps s)
    (last_gate s) (health s) (rto s) (rpo s) (applied_record s) (started_at s) (completed_at s)
    (serving_since s) (last_transition_time s) (last_evaluated_at s) (summary s) (conditions s).

Definition set_direction (v : ShiftDirection.t) (s : t) : t :=
  mk (observed_generation s) (phase s) v (current_weights s) (steps_completed s) (steps s)
    (last_gate s) (health s) (rto s) (rpo s) (applied_record s) (started_at s) (completed_at s)
    (serving_since s) (last_transition_time s) (last_evaluated_at s) (summary s) (conditions s).

Definition set_current_weights (v : TrafficWeights.t) (s : t) : t :=
  mk (observed_generation s) (phase s) (direction s) v (steps_completed s) (steps s)
    (last_gate s) (health s) (rto s) (rpo s) (applied_record s) (started_at s) (completed_at s)
    (serving_since s) (last_transition_time s) (last_evaluated_at s) (summary s) (conditions s).

Definition set_steps_completed (v : Z) (s : t) : t :=
  mk (observed_generation s) (phase s) (direction s) (current_weights s) v (steps s)
    (last_gate s) (health s) (rto s) (rpo s) (applied_record s) (started_at s) (completed_at s)
    (serving_since s) (last_transition_time s) (last_evaluated_at s) (summary s) (conditions s).

Definition set_steps (v : list ShiftStepStatus.t) (s : t) : t :=
  mk (observed_generation s) (phase s) (direction s) (current_weights s) (steps_completed s) v
    (last_gate s) (health s) (rto s) (rpo s) (applied_record s) (started_at s) (completed_at s)
    (serving_since s) (last_transition_time s) (last_evaluated_at s) (summary s) (conditions s).

Definition set_last_gate (v : option GateDecision.t) (s : t) : t :=
  mk (observed_generation s) (phase s) (direction s) (current_weights s) (steps_completed s)
    (steps s) v (health s) (rto s) (rpo s) (applied_record s) (started_at s) (completed_at s)
    (serving_since s) (last_transition_time s) (last_evaluated_at s) (summary s) (conditions s).

Definition set_health (v : gmap string RegionHealthEvidence.t) (s : t) : t :=
  mk (observed_generation s) (phase s) (direction s) (current_weights s) (steps_completed s)
    (steps s) (last_gate s) v (rto s) (rpo s) (applied_record s) (started_at s) (completed_at s)
    (serving_since s) (last_transition_time s) (last_evaluated_at s) (summary s) (conditions s).

Definition set_rto (v : RtoMeasurement.t) (s : t) : t :=
  mk (observed_generation s) (phase s) (direction s) (current_weights s) (steps_completed s)
    (steps s) (last_gate s) (health s) v (rpo s) (applied_record s) (started_at s)
    (completed_at s) (serving_since s) (last_transition_time s) (last_evaluated_at s)
    (summary s) (conditions s).

Definition set_rpo (v : option RpoEvidence.t) (s : t) : t :=
  mk (observed_generation s) (phase s) (direction s) (current_weights s) (steps_completed s)
    (steps s) (last_gate s) (health s) (rto s) v (applied_record s) (started_at s)
    (completed_at s) (serving_since s) (last_transition_time s) (last_evaluated_at s)
    (summary s) (conditions s).

Definition set_applied_record (v : option json) (s : t) : t :=
  mk (observed_generation s) (phase s) (direction s) (current_weights s) (steps_completed s)
    (steps s) (last_gate s) (health s) (rto s) (rpo s) v (started_at s) (completed_at s)
    (serving_since s) (last_transition_time s) (last_evaluated_at s) (summary s) (conditions s).

Definition set_started_at (v : option DateTime) (s : t) : t :=
  mk (observed_generation s) (phase s) (direction s) (current_weights s) (steps_completed s)
    (steps s) (last_gate s) (health s) (rto s) (rpo s) (applied_record s) v (completed_at s)
    (serving_since s) (last_transition_time s) (last_evaluated_at s) (summary s) (conditions s).

Definition set_completed_at (v : option DateTime) (s : t) : t :=
  mk (observed_generation s) (phase s) (direction s) (current_weights s) (steps_completed s)
    (steps s) (last_gate s) (health s) (rto s) (rpo s) (applied_record s) (started_at s) v
    (serving_since s) (last_transition_time s) (last_evaluated_at s) (summary s) (conditions s).

Definition set_serving_since (v : option DateTime) (s : t) : t :=
  mk (observed_generation s) (phase s) (direction s) (current_weights s) (steps_completed s)
    (steps s) (last_gate s) (health s) (rto s) (rpo s) (applied_record s) (started_at s)
    (completed_at s) v (last_transition_time s) (last_evaluated_at s) (summary s) (conditions s).

Definition set_last_transition_time (v : option DateTime) (s : t) : t :=
  mk (observed_generation s) (phase s) (direction s) (current_weights s) (steps_completed s)
    (steps s) (last_gate s) (health s) (rto s) (rpo s) (applied_record s) (started_at s)
    (completed_at s) (serving_since s) v (last_evaluated_at s) (summary s) (conditions s).

Definition set_last_evaluated_at (v : option DateTime) (s : t) : t :=
  mk (observed_generation s) (phase s) (direction s) (current_weights s) (steps_completed s)
    (steps s) (last_gate s) (health s) (rto s) (rpo s) (applied_record s) (started_at s)
    (completed_at s) (serving_since s) (last_transition_time s) v (summary s) (conditions s).

Definition set_summary (v : string) (s : t) : t :=
  mk (observed_generation s) (phase s) (direction s) (current_weights s) (steps_completed s)
    (steps s) (last_gate s) (health s) (rto s) (rpo s) (applied_record s) (started_at s)
    (completed_at s) (serving_since s) (last_transition_time s) (last_evaluated_at s) v
    (conditions s).

Definition set_conditions (v : list Condition.t) (s : t) : t :=
  mk (observed_generation s) (phase s) (direction s) (current_weights s) (steps_completed s)
    (steps s) (last_gate s) (health s) (rto s) (rpo s) (applied_record s) (started_at s)
    (completed_at s) (serving_since s) (last_transition_time s) (last_evaluated_at s)
    (summary s) v.

Definition default : t :=
  mk None TrafficShiftPhase.Idle ShiftDirection.Failover (TrafficWeights.mk 0 0) 0 [] None ∅
    RtoMeasurement.default None None None None None None None "" [].

End TrafficShiftPlanStatus.

(** The resource: metadata the controller reads, spec and status. *)
Module TrafficShiftPlan.

Record t := mk {
  name : string;
  namespace : option string;
  annotations : option (gmap string string);
  spec : TrafficShiftPlanSpec.t;
  status : option TrafficShiftPlanStatus.t;
}.

End TrafficShiftPlan.

(** ** Lemmas *)

Lemma from_primary_percent_sum p :
  (TrafficWeights.primary_percent (TrafficWeights.from_primary_percent p)
   + TrafficWeights.secondary_percent (TrafficWeights.from_primary_percent p) = 100)%Z.
Proof. unfold TrafficWeights.from_primary_percent. simpl. lia. Qed.

Lemma from_primary_percent_id p :
  (p <= 100)%Z → TrafficWeights.primary_percent (TrafficWeights.from_primary_percent p) = p.
Proof. unfold TrafficWeights.from_primary_percent. simpl. lia. Qed.
