(* ===== verification/TrafficShift.v ===== *)
(** * The traffic-shift controller: operations

    Models [src/src/controller/traffic_shift.rs]: evidence collection, the health
    gate, the incremental state machine [next_action_with_control], the status
    reducer [apply_action] and one deterministic cycle
    [reconcile_cycle_with_control].  The controller's clock [now] is an argument
    as in the source. *)

From stdpp Require Import prelude strings gmap list.
From S2P Require Import Prelude RustStr Float64 Json Conditions TrafficShiftTypes.
Local Open Scope string_scope.

Module Spec := TrafficShiftPlanSpec.
Module St := TrafficShiftPlanStatus.
Module Step := ShiftStepStatus.
Module Ev := RegionHealthEvidence.
Module Phase := TrafficShiftPhase.
Module Dir := ShiftDirection.

(** What the controller uses of chrono beyond arithmetic: the [Display] and the
    serde text of an instant. *)
Class Chrono := {
  show_datetime : DateTime → string;
  serde_datetime : DateTime → string;
}.

Definition TRIGGER_FAILOVER_ANNOTATION : string := "stellar.org/trigger-failover".
Definition SUPPRESS_ANNOTATION : string := "stellar.org/suppress-shift".

(** ** Evidence *)

Module ProbeResult.

Record t := mk {
  at_ : DateTime;
  success : bool;
  latency_ms : option Z;
  replication_lag_seconds : option Z;
  error_rate_percent : f64;
  error : option string;
}.

End ProbeResult.

(** The loop of [trailing_runs] over the probes newest first. *)
Fixpoint trailing_loop (l : list ProbeResult.t) (successes failures : Z) : Z * Z :=
  match l with
  | [] => (successes, failures)
  | probe :: l' =>
      if ProbeResult.success probe then
        if (0 <? failures)%Z then (successes, failures)
        else trailing_loop l' (successes +u32 1) failures
      else
        if (0 <? successes)%Z then (successes, failures)
        else trailing_loop l' successes (failures +u32 1)
  end.

Definition trailing_runs (ordered : list ProbeResult.t) : Z * Z :=
  trailing_loop (reverse ordered) 0 0.

Fixpoint find_map {A B} (f : A → option B) (l : list A) : option B :=
  match l with
  | [] => None
  | x :: l' => match f x with Some y => Some y | None => find_map f l' end
  end.

Definition collect_evidence (target : RegionTarget.t) (probes : list ProbeResult.t)
    (gate : HealthGateSpec.t) (now : DateTime) : Ev.t :=
  let window := seconds (Z.max (HealthGateSpec.evidence_window_seconds gate) 0) in
  let in_window := List.filter (λ p, let age := (now - ProbeResult.at_ p)%Z in
                                     ((0 <=? age) && (age <=? window))%Z) probes in
  let successes := as_u32 (count ProbeResult.success in_window) in
  let failures := as_u32 (count (λ p, negb (ProbeResult.success p)) in_window) in
  let total := successes +u32 failures in
  let success_rate_percent :=
    if (total =? 0)%Z then f64_zero
    else f64_div (f64_mul (f64_of_Z successes) f64_100) (f64_of_Z total) in
  let ordered := sort_by (λ a b, (ProbeResult.at_ a <=? ProbeResult.at_ b)%Z) probes in
  let '(consecutive_successes, consecutive_failures) := trailing_runs ordered in
  let '(first_probe_at, last_probe_at) :=
    match head ordered, last ordered with
    | Some f, Some l => (ProbeResult.at_ f, ProbeResult.at_ l)
    | _, _ => (now, now)
    end in
  let last_error :=
    match find_last (λ p, negb (ProbeResult.success p)) ordered with
    | Some p => ProbeResult.error p
    | None => None
    end in
  let '(rate_sum, rate_count) :=
    fold_left (λ '(sum, n) p, (f64_add sum (ProbeResult.error_rate_percent p), n +u32 1))
      in_window (f64_zero, 0%Z) in
  let error_rate_percent :=
    if (rate_count =? 0)%Z then f64_zero else f64_div rate_sum (f64_of_Z rate_count) in
  let replication_lag_seconds :=
    find_map ProbeResult.replication_lag_seconds (reverse ordered) in
  Ev.mk (if is_empty (RegionTarget.region target) then RegionTarget.name target
         else RegionTarget.region target)
    successes failures consecutive_successes consecutive_failures
    success_rate_percent error_rate_percent replication_lag_seconds
    last_probe_at first_probe_at last_error.

Definition soak_error_rate (direction : Dir.t) (primary secondary : Ev.t) : f64 :=
  match direction with
  | Dir.Failover => Ev.error_rate_percent secondary
  | Dir.Failback => Ev.error_rate_percent primary
  end.

(** ** The health gate *)

Definition evaluate_gate (spec : Spec.t) (direction : Dir.t) (primary secondary : Ev.t)
    (now : DateTime) : GateDecision.t :=
  let gate := Spec.health_gate spec in
  let window := HealthGateSpec.evidence_window_seconds gate in
  let '(source, target) :=
    match direction with
    | Dir.Failover => (primary, secondary)
    | Dir.Failback => (secondary, primary)
    end in
  let target_ok := Ev.is_healthy target gate now in
  let source_ok :=
    match direction with
    | Dir.Failover => Ev.is_unhealthy source gate
    | Dir.Failback => true
    end in
  let target_stale := Ev.is_stale target now window in
  let reason :=
    if negb target_ok && target_stale then
      Ev.region target +:+ " health evidence is older than " +:+ show_Z window +:+ "s"
    else if (Ev.consecutive_successes target <? HealthGateSpec.recovery_threshold gate)%Z then
      Ev.region target +:+ " has " +:+ show_Z (Ev.consecutive_successes target)
      +:+ " consecutive successes (need " +:+ show_Z (HealthGateSpec.recovery_threshold gate) +:+ ")"
    else if (Ev.samples target <? HealthGateSpec.min_samples gate)%Z then
      Ev.region target +:+ " has " +:+ show_Z (Ev.samples target)
      +:+ " samples in the evidence window (need " +:+ show_Z (HealthGateSpec.min_samples gate) +:+ ")"
    else if f64_lt (Ev.success_rate_percent target) (HealthGateSpec.min_success_rate_percent gate) then
      Ev.region target +:+ " success rate " +:+ fmt2 (Ev.success_rate_percent target)
      +:+ "% below " +:+ fmt2 (HealthGateSpec.min_success_rate_percent gate) +:+ "%"
    else if negb source_ok then
      Ev.region source +:+ " has only " +:+ show_Z (Ev.consecutive_failures source)
      +:+ " consecutive failures (need " +:+ show_Z (HealthGateSpec.failure_threshold gate) +:+ ")"
    else
      Ev.region source +:+ " down, " +:+ Ev.region target +:+ " healthy on "
      +:+ show_Z (Ev.consecutive_successes target) +:+ "/" +:+ show_Z (Ev.samples target) +:+ " evidence" in
  GateDecision.mk (source_ok && target_ok) direction reason
    (AppliedGate.mk (HealthGateSpec.failure_threshold gate) (HealthGateSpec.recovery_threshold gate)
       (HealthGateSpec.min_success_rate_percent gate) (HealthGateSpec.min_samples gate) window)
    source target now.

(** ** Actions *)

Inductive ShiftAction :=
| Idle (phase : Phase.t)
| Hold (direction : Dir.t) (reason : string)
| Wait (until : DateTime) (reason : string)
| Drain (direction : Dir.t) (step_index from_primary_weight to_primary_weight : Z) (until : DateTime)
| Publish (direction : Dir.t) (step_index from_primary_weight to_primary_weight : Z)
    (record : json) (ttl_seconds : Z)
| Soak (direction : Dir.t) (step_index : Z) (until : DateTime)
| Complete (direction : Dir.t)
| Abort (direction : Dir.t) (step_index : Z) (reason : string)
| Fail (reason : string).

Definition mutates_traffic (a : ShiftAction) : bool :=
  match a with Publish _ _ _ _ _ _ => true | _ => false end.

Definition action_direction (a : ShiftAction) : option Dir.t :=
  match a with
  | Hold d _ | Drain d _ _ _ _ | Publish d _ _ _ _ _ | Soak d _ _ | Complete d | Abort d _ _ => Some d
  | _ => None
  end.

(** ** Increments and deadlines *)

Definition step_count (from target step_percent : Z) : Z :=
  let step := clamp 1 100 step_percent in
  let distance := Z.abs (from - target) in
  if (distance =? 0)%Z then 0%Z else as_u32 ((distance + step - 1) / step).

Definition weight_after_step (from target step_percent index : Z) : Z :=
  let step := clamp 1 100 step_percent in
  let increments := (index + 1)%Z in
  let moved := (Z.sgn (target - from) * step * increments)%Z in
  as_u32 (clamp (Z.min from target) (Z.max from target) (from + moved)).

Definition drain_deadline (spec : Spec.t) (from : DateTime) : DateTime :=
  (from + seconds (Z.max (ShiftPolicy.drain_seconds (Spec.shift spec)) 0))%Z.

Definition propagation_wait (spec : Spec.t) : Z :=
  Z.max (Z.max (RoutingRecordSpec.ttl_seconds (Spec.routing spec))
               (ShiftPolicy.soak_seconds (Spec.shift spec))) 0.

Definition propagation_deadline (spec : Spec.t) (published_at : DateTime) : DateTime :=
  (published_at + seconds (propagation_wait spec))%Z.

Definition projected_duration_secs (spec : Spec.t) (from target : Z) : Z :=
  let steps := step_count from target (ShiftPolicy.step_percent (Spec.shift spec)) in
  let per_step := i64_add (Z.max (ShiftPolicy.drain_seconds (Spec.shift spec)) 0) (propagation_wait spec) in
  i64_mul steps per_step.

Definition weighted_record (spec : Spec.t) (primary_percent step_index : Z) : json :=
  let weights := TrafficWeights.from_primary_percent primary_percent in
  let routing := Spec.routing spec in
  JObj [
    ("apiVersion", JStr "externaldns.k8s.io/v1alpha1");
    ("kind", JStr "DNSEndpoint");
    ("metadata", JObj [
      ("name", JStr (RoutingRecordSpec.hostname routing));
      ("annotations", JObj [
        ("stellar.org/managed-by", JStr "traffic-shift-plan");
        ("stellar.org/plan-step", JStr (show_Z step_index))])]);
    ("spec", JObj [
      ("endpoints", JArr [JObj [
        ("dnsName", JStr (RoutingRecordSpec.hostname routing));
        ("recordType", JStr "A");
        ("recordTTL", JNum (RoutingRecordSpec.ttl_seconds routing));
        ("targets", JArr [
          JObj [("target", JStr (RegionTarget.endpoint (Spec.primary spec)));
                ("weight", JNum (TrafficWeights.primary_percent weights))];
          JObj [("target", JStr (RegionTarget.endpoint (Spec.secondary spec)));
                ("weight", JNum (TrafficWeights.secondary_percent weights))]])]])])].

(** ** Validation *)

Definition push_if (b : bool) (msg : string) : list string := if b then [msg] else [].

Definition validate_plan (spec : Spec.t) : list string :=
  let primary := Spec.primary spec in
  let secondary := Spec.secondary spec in
  let routing := Spec.routing spec in
  let shift := Spec.shift spec in
  let gate := Spec.health_gate spec in
  let rto := FailoverTargets.rto_seconds (Spec.targets spec) in
  let projected := projected_duration_secs spec 100 0 in
  concat [
    push_if (is_empty (RegionTarget.name primary) || is_empty (RegionTarget.endpoint primary))
      "spec.primary needs a name and an endpoint";
    push_if (is_empty (RegionTarget.name secondary) || is_empty (RegionTarget.endpoint secondary))
      "spec.secondary needs a name and an endpoint";
    push_if (negb (is_empty (RegionTarget.name primary))
             && String.eqb (RegionTarget.name primary) (RegionTarget.name secondary))
      "spec.primary and spec.secondary must be different regions";
    push_if (is_empty (RoutingRecordSpec.hostname routing)) "spec.routing.hostname is required";
    push_if (RoutingRecordSpec.ttl_seconds routing =? 0)%Z
      "spec.routing.ttlSeconds must be greater than zero";
    push_if (100 <? RoutingRecordSpec.initial_primary_weight routing)%Z
      "spec.routing.initialPrimaryWeight must be 0-100";
    push_if ((ShiftPolicy.step_percent shift =? 0) || (100 <? ShiftPolicy.step_percent shift))%Z
      "spec.shift.stepPercent must be 1-100";
    push_if ((ShiftPolicy.drain_seconds shift <? 0) || (ShiftPolicy.soak_seconds shift <? 0))%Z
      "spec.shift drain/soak seconds must not be negative";
    push_if (HealthGateSpec.failure_threshold gate =? 0)%Z
      "spec.healthGate.failureThreshold must be greater than zero";
    push_if (HealthGateSpec.recovery_threshold gate =? 0)%Z
      "spec.healthGate.recoveryThreshold must be greater than zero";
    push_if (negb (f64_le f64_zero (HealthGateSpec.min_success_rate_percent gate)
                   && f64_le (HealthGateSpec.min_success_rate_percent gate) f64_100))
      "spec.healthGate.minSuccessRatePercent must be 0-100";
    push_if (HealthGateSpec.evidence_window_seconds gate <=? 0)%Z
      "spec.healthGate.evidenceWindowSeconds must be greater than zero";
    push_if (rto <=? 0)%Z "spec.targets.rtoSeconds must be greater than zero";
    push_if (rto <? projected)%Z
      ("shift needs " +:+ show_Z projected +:+ "s ("
       +:+ show_Z (step_count 100 0 (ShiftPolicy.step_percent shift)) +:+ " steps x "
       +:+ show_Z (i64_add (Z.max (ShiftPolicy.drain_seconds shift) 0) (propagation_wait spec))
       +:+ "s) but spec.targets.rtoSeconds is " +:+ show_Z rto)].

(** ** Operator overrides *)

Module PlanControl.

Record t := mk {
  failover_requested : bool;
  suppress_failover : bool;
  suppress_failback : bool;
}.

Definition default : t := mk false false false.

Definition is_suppressed (c : t) (direction : Dir.t) : bool :=
  match direction with
  | Dir.Failover => suppress_failover c
  | Dir.Failback => suppress_failback c
  end.

End PlanControl.

Definition annotation_of (plan : TrafficShiftPlan.t) (key : string) : option string :=
  TrafficShiftPlan.annotations plan ≫= λ a : gmap string string, a !! key.

Definition is_suppressed (plan : TrafficShiftPlan.t) (direction : Dir.t) : bool :=
  match annotation_of plan SUPPRESS_ANNOTATION with
  | Some v =>
      existsb (λ d, eq_ignore_ascii_case (trim d) (Dir.as_str direction)) (split_char COMMA v)
  | None => false
  end.

Definition failover_requested (plan : TrafficShiftPlan.t) : bool :=
  match annotation_of plan TRIGGER_FAILOVER_ANNOTATION with
  | Some v =>
      let w := to_ascii_lowercase (trim v) in
      String.eqb w "true" || String.eqb w "1" || String.eqb w "yes"
  | None => false
  end.

Definition plan_control (plan : TrafficShiftPlan.t) : PlanControl.t :=
  PlanControl.mk (failover_requested plan)
    (is_suppressed plan Dir.Failover) (is_suppressed plan Dir.Failback).

(** ** The state machine *)

Definition target_weight (spec : Spec.t) (direction : Dir.t) : Z :=
  match direction with
  | Dir.Failover => 0
  | Dir.Failback => RoutingRecordSpec.initial_primary_weight (Spec.routing spec)
  end.

(** [status.serving_since.or(status.completed_at)]. *)
Definition served_from (st : St.t) : option DateTime :=
  match St.serving_since st with Some s => Some s | None => St.completed_at st end.

Definition failback_ready_at (spec : Spec.t) (st : St.t) : option DateTime :=
  (λ since, (since + seconds (Z.max (FailbackPolicy.min_stable_seconds (Spec.failback spec)) 0))%Z)
    <$> served_from st.

Definition of_direction (direction : Dir.t) (s : Step.t) : bool :=
  bool_decide (Step.direction s = direction).

Definition next_step_index (st : St.t) (direction : Dir.t) : Z :=
  default 0%Z (max_Z ((λ s, Step.index s +u32 1)
                        <$> List.filter (of_direction direction) (St.steps st))).

(** The increment in flight. *)
Definition pending_step (st : St.t) (direction : Dir.t) (step_index : Z) : option Step.t :=
  find_last (λ s, of_direction direction s && (Step.index s +u32 1 =? step_index)%Z) (St.steps st).

(** What follows the increment in flight: the target, the overrides, the gate,
    the cooldown, and then a fresh increment. *)
Definition fresh_action (spec : Spec.t) (st : St.t) (primary secondary : Ev.t) (now : DateTime)
    (control : PlanControl.t) : ShiftAction :=
  let direction := St.direction st in
  let target_primary_weight := target_weight spec direction in
  let current := TrafficWeights.primary_percent (St.current_weights st) in
  let step_index := next_step_index st direction in
  let to_primary_weight :=
    weight_after_step current target_primary_weight (ShiftPolicy.step_percent (Spec.shift spec)) step_index in
  if (current =? target_primary_weight)%Z then Complete direction
  else if PlanControl.is_suppressed control direction then
    Hold direction (Dir.debug direction +:+ " suppressed by annotation")
  else if bool_decide (Spec.trigger spec = FailoverTrigger.Manual)
          && bool_decide (direction = Dir.Failover)
          && negb (PlanControl.failover_requested control) then
    Hold direction ("spec.trigger is Manual; set the " +:+ TRIGGER_FAILOVER_ANNOTATION
                    +:+ " annotation to start")
  else
    let gate := evaluate_gate spec direction primary secondary now in
    if negb (GateDecision.open gate) then Hold direction (GateDecision.reason gate)
    else
      let drain := Drain direction step_index current to_primary_weight (drain_deadline spec now) in
      match direction, failback_ready_at spec st with
      | Dir.Failback, Some ready =>
          if (now <? ready)%Z then
            let served := default 0%Z ((λ s, Z.max (num_seconds (now - s)) 0) <$> served_from st) in
            Wait ready ("secondary has served traffic for " +:+ show_Z served +:+ "s of "
                        +:+ show_Z (FailbackPolicy.min_stable_seconds (Spec.failback spec)) +:+ "s")
          else drain
      | _, _ => drain
      end.

(** How the increment in flight goes on. *)
Definition pending_action (spec : Spec.t) (st : St.t) (primary secondary : Ev.t) (now : DateTime)
    (control : PlanControl.t) (pending : Step.t) : ShiftAction :=
  let direction := St.direction st in
  match Step.outcome pending with
  | StepOutcome.Applied =>
      let until := default (propagation_deadline spec now) (Step.soak_ends_at pending) in
      if (now <? until)%Z then Soak direction (Step.index pending) until
      else
        let rate := soak_error_rate direction primary secondary in
        let bound := ShiftPolicy.max_soak_error_rate_percent (Spec.shift spec) in
        if f64_gt rate bound then
          Abort direction (Step.index pending)
            ("soak error rate " +:+ fmt2 rate +:+ "% exceeds " +:+ fmt2 bound +:+ "%")
        else fresh_action spec st primary secondary now control
  | StepOutcome.Draining =>
      let until := default now (drain_deadline spec <$> Step.drain_started_at pending) in
      if (now <? until)%Z then
        Drain direction (Step.index pending) (Step.from_primary_weight pending)
          (Step.to_primary_weight pending) until
      else
        Publish direction (Step.index pending) (Step.from_primary_weight pending)
          (Step.to_primary_weight pending)
          (weighted_record spec (Step.to_primary_weight pending) (Step.index pending))
          (RoutingRecordSpec.ttl_seconds (Spec.routing spec))
  | _ => fresh_action spec st primary secondary now control
  end.

Definition next_action_with_control (spec : Spec.t) (st : St.t) (primary secondary : Ev.t)
    (now : DateTime) (control : PlanControl.t) : ShiftAction :=
  match validate_plan spec with
  | (_ :: _) as problems => Fail (join "; " problems)
  | [] =>
      match St.phase st with
      | Phase.Failed | Phase.Completed => Idle (St.phase st)
      | _ =>
          match pending_step st (St.direction st) (next_step_index st (St.direction st)) with
          | None => fresh_action spec st primary secondary now control
          | Some pending => pending_action spec st primary secondary now control pending
          end
      end
  end.

Definition next_action (spec : Spec.t) (st : St.t) (primary secondary : Ev.t) (now : DateTime)
    : ShiftAction :=
  next_action_with_control spec st primary secondary now PlanControl.default.

Definition desired_direction (spec : Spec.t) (st : St.t) (primary secondary : Ev.t) (now : DateTime)
    : Dir.t :=
  let weights := St.current_weights st in
  if negb (TrafficWeights.primary_percent weights =? target_weight spec (St.direction st))%Z
  then St.direction st
  else
    let settled := bool_decide (St.phase st = Phase.Completed) in
    match St.direction st with
    | Dir.Failover =>
        if settled then
          if TrafficWeights.is_fully_failed_over weights
             && FailbackPolicy.automatic (Spec.failback spec)
             && GateDecision.open (evaluate_gate spec Dir.Failback primary secondary now)
          then Dir.Failback else Dir.Failover
        else Dir.Failover
    | Dir.Failback =>
        if settled then
          if TrafficWeights.is_fully_failed_back weights
             && GateDecision.open (evaluate_gate spec Dir.Failover primary secondary now)
          then Dir.Failover else Dir.Failback
        else Dir.Failback
    end.

(** ** Measurements and reports *)

Definition measure_rto (spec : Spec.t) (st : St.t) : RtoMeasurement.t :=
  let rto := St.rto st in
  let target := FailoverTargets.rto_seconds (Spec.targets spec) in
  let base := RtoMeasurement.mk (St.direction st) (RtoMeasurement.started_at rto)
                (RtoMeasurement.completed_at rto) in
  match St.started_at st, St.completed_at st with
  | Some start, Some end_ =>
      let measured := num_seconds (end_ - start) in
      base (Some measured) target (Some (measured <=? target)%Z) (Z.max (measured - target) 0)
  | _, _ => base None target None 0%Z
  end.

Definition rpo_evidence (spec : Spec.t) (secondary : Ev.t) : option RpoEvidence.t :=
  (λ lag, RpoEvidence.mk lag (FailoverTargets.rpo_seconds (Spec.targets spec))
            (lag <=? FailoverTargets.rpo_seconds (Spec.targets spec))%Z (Ev.last_probe_at secondary))
    <$> Ev.replication_lag_seconds secondary.

Definition render_summary (spec : Spec.t) (st : St.t) : string :=
  let weights := St.current_weights st in
  let pp := show_Z (TrafficWeights.primary_percent weights) in
  let sp := show_Z (TrafficWeights.secondary_percent weights) in
  "phase=" +:+ Phase.debug (St.phase st) +:+ " direction=" +:+ Dir.debug (St.direction st)
  +:+ " weights=" +:+ pp +:+ "/" +:+ sp
  +:+ " (" +:+ RegionTarget.name (Spec.primary spec) +:+ "=" +:+ pp +:+ "%, "
  +:+ RegionTarget.name (Spec.secondary spec) +:+ "=" +:+ sp +:+ "%)"
  +:+ match St.last_gate st with
      | Some g => if GateDecision.open g then " gate=open (" +:+ GateDecision.reason g +:+ ")"
                  else " gate=closed (" +:+ GateDecision.reason g +:+ ")"
      | None => " gate=unevaluated"
      end
  +:+ match RtoMeasurement.measured_seconds (St.rto st) with
      | Some rto =>
          " rto=" +:+ show_Z rto +:+ "s/" +:+ show_Z (RtoMeasurement.target_seconds (St.rto st)) +:+ "s "
          +:+ match RtoMeasurement.met (St.rto st) with
              | Some true => "MET" | Some false => "MISSED" | None => "UNKNOWN"
              end
      | None => ""
      end
  +:+ " steps=" +:+ show_Z (Z.of_nat (length (St.steps st))).

Definition drill_compliance_record `{Chrono} (plan : TrafficShiftPlan.t) : json :=
  let st := default St.default (TrafficShiftPlan.status plan) in
  let spec := TrafficShiftPlan.spec plan in
  let rto := measure_rto spec st in
  JObj [
    ("plan", JStr (TrafficShiftPlan.name plan));
    ("namespace", JStr (default "default" (TrafficShiftPlan.namespace plan)));
    ("drillId", jopt JStr (Spec.drill_id spec));
    ("mode", JStr (if FailoverTargets.drill (Spec.targets spec) then "drill" else "live"));
    ("primary", JStr (RegionTarget.name (Spec.primary spec)));
    ("secondary", JStr (RegionTarget.name (Spec.secondary spec)));
    ("direction", JStr (Dir.as_str (St.direction st)));
    ("phase", JStr (Phase.serde (St.phase st)));
    ("rto", JObj [
      ("targetSeconds", JNum (RtoMeasurement.target_seconds rto));
      ("measuredSeconds", jopt JNum (RtoMeasurement.measured_seconds rto));
      ("met", jopt JBool (RtoMeasurement.met rto));
      ("overBySeconds", JNum (RtoMeasurement.over_by_seconds rto))]);
    ("rpo", jopt (λ r, JObj [
      ("targetSeconds", JNum (RpoEvidence.target_seconds r));
      ("measuredSeconds", JNum (RpoEvidence.measured_lag_seconds r));
      ("met", JBool (RpoEvidence.met r))]) (St.rpo st));
    ("steps", JArr ((λ s, JObj [
      ("index", JNum (Step.index s));
      ("direction", JStr (Dir.as_str (Step.direction s)));
      ("fromPrimaryWeight", JNum (Step.from_primary_weight s));
      ("toPrimaryWeight", JNum (Step.to_primary_weight s));
      ("outcome", JStr (StepOutcome.serde (Step.outcome s)));
      ("startedAt", jopt (λ d, JStr (serde_datetime d)) (Step.started_at s));
      ("soakEndsAt", jopt (λ d, JStr (serde_datetime d)) (Step.soak_ends_at s));
      ("message", JStr (Step.message s))]) <$> St.steps st));
    ("rtoMet", JBool (default false (RtoMeasurement.met rto)))].

(** ** Applying an action *)

Definition close_out_soaked_steps (direction : Dir.t) (before_index : Z) (now : DateTime) (st : St.t)
    : St.t :=
  St.set_steps
    ((λ s, if of_direction direction s && (Step.index s <? before_index)%Z
              && bool_decide (Step.outcome s = StepOutcome.Applied)
           then Step.set_completed_at (Some now) (Step.set_outcome StepOutcome.Succeeded s)
           else s) <$> St.steps st) st.

(** Same increment: same direction and index. *)
Definition same_step (direction : Dir.t) (index : Z) (s : Step.t) : bool :=
  of_direction direction s && (Step.index s =? index)%Z.

(** The record of an increment over an earlier record of the same one. *)
Definition merge_step (step existing : Step.t) : Step.t :=
  let drained := match Step.drain_started_at existing with
                 | Some d => Some d
                 | None => Step.drain_started_at step
                 end in
  let soaked := f64_max (Step.soak_error_rate_percent existing) (Step.soak_error_rate_percent step) in
  Step.set_soak_error_rate_percent soaked (Step.set_drain_started_at drained step).

Definition upsert_step (step : Step.t) (st : St.t) : St.t :=
  let p := same_step (Step.direction step) (Step.index step) in
  match find_first p (St.steps st) with
  | Some _ => St.set_steps (update_first p (merge_step step) (St.steps st)) st
  | None => St.set_steps (St.steps st ++ [step])%list st
  end.

Definition start_if_new (now : DateTime) (st : St.t) : St.t :=
  match St.started_at st with
  | None => St.set_started_at (Some now) st
  | Some _ => st
  end.

Definition draining_step (spec : Spec.t) (direction : Dir.t) (step_index from_w to_w : Z)
    (now : DateTime) : Step.t :=
  Step.mk step_index direction from_w to_w None
    (RoutingRecordSpec.ttl_seconds (Spec.routing spec)) None (Some now) None None None
    StepOutcome.Draining f64_zero
    ("draining " +:+ show_Z (ShiftPolicy.drain_seconds (Spec.shift spec)) +:+ "s before publish").

Definition applied_step (spec : Spec.t) (direction : Dir.t) (step_index from_w to_w : Z)
    (record : json) (ttl : Z) (now : DateTime) : Step.t :=
  Step.mk step_index direction from_w to_w (Some record) ttl None None (Some now)
    (Some (propagation_deadline spec now)) None StepOutcome.Applied f64_zero
    ("published " +:+ show_Z from_w +:+ "% -> " +:+ show_Z to_w +:+ "% on the primary").

Definition act `{Chrono} (spec : Spec.t) (action : ShiftAction) (primary secondary : Ev.t)
    (now : DateTime) (st : St.t) : St.t :=
  match action with
  | Fail reason => St.set_summary reason (St.set_phase Phase.Failed st)
  | Idle phase => St.set_phase phase st
  | Hold _ reason =>
      St.set_summary reason
        (if negb (Phase.is_in_progress (St.phase st)) then St.set_phase Phase.Gated st else st)
  | Wait until reason =>
      St.set_summary (reason +:+ " (until " +:+ show_datetime until +:+ ")")
        (St.set_phase Phase.Gated st)
  | Drain direction step_index from_w to_w _ =>
      let st := St.set_phase Phase.Draining (St.set_direction direction st) in
      let st := start_if_new now st in
      let st := close_out_soaked_steps direction step_index now st in
      upsert_step (draining_step spec direction step_index from_w to_w now) st
  | Publish direction step_index from_w to_w record ttl =>
      let st := St.set_phase Phase.Shifting (St.set_direction direction st) in
      let st := start_if_new now st in
      let st := close_out_soaked_steps direction step_index now st in
      let st := St.set_applied_record (Some record) st in
      let st := upsert_step (applied_step spec direction step_index from_w to_w record ttl now) st in
      St.set_current_weights (TrafficWeights.from_primary_percent to_w) st
  | Soak direction step_index until =>
      let st := St.set_phase Phase.Soaking (St.set_direction direction st) in
      let rate := soak_error_rate direction primary secondary in
      St.set_steps
        (update_first (same_step direction step_index)
           (λ s, Step.set_soak_error_rate_percent (f64_max (Step.soak_error_rate_percent s) rate)
                   (Step.set_soak_ends_at (Some until) s)) (St.steps st)) st
  | Abort direction step_index reason =>
      let st := St.set_phase Phase.Aborted (St.set_direction direction st) in
      let st := St.set_steps
        (update_first (same_step direction step_index)
           (λ s, Step.set_message reason (Step.set_completed_at (Some now)
                   (Step.set_outcome StepOutcome.Aborted s))) (St.steps st)) st in
      St.set_summary reason st
  | Complete direction =>
      let st := St.set_phase Phase.Completed (St.set_direction direction st) in
      let st := St.set_completed_at (Some now) st in
      let st := if bool_decide (direction = Dir.Failover)
                then St.set_serving_since (Some now) st else st in
      let st := St.set_current_weights
                  (TrafficWeights.from_primary_percent (target_weight spec direction)) st in
      St.set_steps
        (update_last (of_direction direction)
           (λ s, if bool_decide (Step.outcome s = StepOutcome.Applied)
                 then Step.set_completed_at (Some now) (Step.set_outcome StepOutcome.Succeeded s)
                 else s) (St.steps st)) st
  end.

Definition apply_action `{Chrono} (spec : Spec.t) (st : St.t) (action : ShiftAction)
    (primary secondary : Ev.t) (now : DateTime) : St.t :=
  let st := if bool_decide (St.phase st = Phase.Idle) then st
            else St.set_last_transition_time (Some now) st in
  let gate := evaluate_gate spec (default (St.direction st) (action_direction action))
                primary secondary now in
  let st := St.set_last_gate (Some gate) st in
  let st := act spec action primary secondary now st in
  St.set_steps_completed
    (as_u32 (count (λ s, StepOutcome.is_done (Step.outcome s)) (St.steps st))) st.

(** [clk i] is the reading of the [i]-th [Utc::now().to_rfc3339()]. *)
Definition conditions_for (clk : nat → string) (st : St.t) : list Condition.t :=
  let generation := default 0%Z (St.observed_generation st) in
  let met := default false (RtoMeasurement.met (St.rto st)) in
  let ready_reason :=
    match St.phase st with
    | Phase.Failed => "InvalidPlan"
    | Phase.Aborted => "GateClosedMidShift"
    | _ => if met then "TargetWeightsReached" else "AwaitingRtoEvidence"
    end in
  ([Condition.with_observed_generation generation
     (Condition.ready (clk 0)
        (match St.phase st with Phase.Idle | Phase.Completed => true | _ => false end && met)
        ready_reason (St.summary st))]
  ++ (if bool_decide (St.phase st = Phase.Failed)
      then [Condition.with_observed_generation generation
              (Condition.degraded (clk 1) "InvalidPlan" (St.summary st))] else [])
  ++ match St.rpo st with
     | Some rpo =>
         if negb (RpoEvidence.met rpo) then
           [Condition.with_observed_generation generation
              (Condition.degraded (clk 2) "RpoTargetMissed"
                 ("replication lag " +:+ show_Z (RpoEvidence.measured_lag_seconds rpo)
                  +:+ "s exceeds declared RPO " +:+ show_Z (RpoEvidence.target_seconds rpo) +:+ "s"))]
         else []
     | None => []
     end)%list.

(** ** One reconcile cycle *)

(** The state machine's view of the previous status: unset weights become the
    configured ones, and a settled plan may turn around. *)
Definition prepare (spec : Spec.t) (previous : St.t) (primary secondary : Ev.t)
    (generation : Z) (now : DateTime) : St.t :=
  let st := previous in
  let w := St.current_weights st in
  let st := if ((TrafficWeights.primary_percent w =? 0) && (TrafficWeights.secondary_percent w =? 0))%Z
            then St.set_current_weights
                   (TrafficWeights.from_primary_percent
                      (RoutingRecordSpec.initial_primary_weight (Spec.routing spec))) st
            else st in
  let st := St.set_observed_generation (Some generation) st in
  let st := St.set_last_evaluated_at (Some now) st in
  let st := St.set_health
              (<[RegionTarget.name (Spec.secondary spec) := secondary]>
                 (<[RegionTarget.name (Spec.primary spec) := primary]> ∅)) st in
  if Phase.is_terminal (St.phase st) then
    let desired := desired_direction spec st primary secondary now in
    if bool_decide (desired = St.direction st) then st
    else St.set_completed_at None (St.set_started_at None
           (St.set_phase Phase.Gated (St.set_direction desired st)))
  else st.

(** The derived fields refreshed after the action. *)
Definition refresh (clk : nat → string) (spec : Spec.t) (secondary : Ev.t) (st : St.t) : St.t :=
  let st := if bool_decide (St.phase st = Phase.Failed) then st
            else match St.last_gate st with
                 | Some gate => if GateDecision.open gate
                                then St.set_rpo (rpo_evidence spec secondary) st else st
                 | None => st
                 end in
  let st := St.set_rto (measure_rto spec st) st in
  let st := St.set_summary (render_summary spec st) st in
  St.set_conditions (conditions_for clk st) st.

Definition reconcile_cycle_with_control `{Chrono} (clk : nat → string) (spec : Spec.t)
    (previous : St.t) (primary secondary : Ev.t) (generation : Z) (now : DateTime)
    (control : PlanControl.t) : result St.t (St.t * string) :=
  let st := prepare spec previous primary secondary generation now in
  let action := next_action_with_control spec st primary secondary now control in
  let st := apply_action spec st action primary secondary now in
  let st := refresh clk spec secondary st in
  match action with
  | Fail reason => Err (st, reason)
  | _ => Ok st
  end.

Definition reconcile_cycle `{Chrono} (clk : nat → string) (spec : Spec.t) (previous : St.t)
    (primary secondary : Ev.t) (generation : Z) (now : DateTime) : result St.t (St.t * string) :=
  reconcile_cycle_with_control clk spec previous primary secondary generation now PlanControl.default.
