(* ===== verification/TrafficShiftFacts.v ===== *)
(** * The traffic-shift controller: invariant and lemmas

    Arithmetic of the increments, the gate, and the status invariant [Inv] that
    every reconcile cycle preserves. *)

From stdpp Require Import prelude strings gmap list.
From S2P Require Import Prelude RustStr Float64 Json Conditions TrafficShiftTypes TrafficShift.

(** ** Arithmetic of the increments *)

(** The share after [index + 1] increments, without the machine casts. *)
Definition moved_towards (from target amount : Z) : Z :=
  if (target <=? from)%Z then Z.max target (from - amount) else Z.min target (from + amount).

Lemma weight_after_step_eq from target step index :
  (0 <= from < 2 ^ 32)%Z → (0 <= target < 2 ^ 32)%Z → (1 <= step <= 100)%Z → (0 <= index)%Z →
  weight_after_step from target step index = moved_towards from target (step * (index + 1)).
Proof.
  intros Hf Ht Hs Hi. unfold weight_after_step, moved_towards, clamp.
  assert (0 < step * (index + 1))%Z by nia.
  replace (Z.max 1 (Z.min 100 step)) with step by lia.
  rewrite as_u32_small; [|unfold in_u32; lia].
  rewrite <- Z.mul_assoc. set (a := (step * (index + 1))%Z) in *. clearbody a.
  destruct (Z.leb_spec target from).
  - destruct (decide (target = from)) as [->|].
    + rewrite Z.sub_diag. simpl. lia.
    + rewrite Z.sgn_neg by lia. lia.
  - rewrite Z.sgn_pos by lia. lia.
Qed.

Lemma step_count_eq from target step :
  (0 <= from < 2 ^ 32)%Z → (0 <= target < 2 ^ 32)%Z → (1 <= step <= 100)%Z →
  step_count from target step = ((Z.abs (from - target) + step - 1) / step)%Z.
Proof.
  intros Hf Ht Hs. unfold step_count, clamp.
  replace (Z.max 1 (Z.min 100 step)) with step by lia.
  destruct (Z.eqb_spec (Z.abs (from - target)) 0) as [->|].
  - rewrite Z.div_small; lia.
  - rewrite as_u32_small; [done|]. unfold in_u32. split.
    + apply Z.div_pos; lia.
    + apply Z.div_lt_upper_bound; nia.
Qed.

(** [step_count] is the least number of equal increments that covers the
    distance. *)
Lemma step_count_le_iff from target step k :
  (0 <= from < 2 ^ 32)%Z → (0 <= target < 2 ^ 32)%Z → (1 <= step <= 100)%Z →
  (step_count from target step <= k ↔ Z.abs (from - target) <= step * k)%Z.
Proof.
  intros Hf Ht Hs. rewrite step_count_eq by done.
  pose proof (Z.div_mod (Z.abs (from - target) + step - 1) step ltac:(lia)) as Hdm.
  pose proof (Z.mod_pos_bound (Z.abs (from - target) + step - 1) step ltac:(lia)).
  set (q := ((Z.abs (from - target) + step - 1) / step)%Z) in *. clearbody q. split; nia.
Qed.

(** ** The validated plan *)

Definition valid (spec : Spec.t) : Prop := validate_plan spec = [].

(** The unsigned fields of the spec are not negative. *)
Definition typed (spec : Spec.t) : Prop :=
  in_u32 (RoutingRecordSpec.initial_primary_weight (Spec.routing spec)) ∧
  in_u32 (ShiftPolicy.step_percent (Spec.shift spec)).

Lemma push_if_nil b msg l : (push_if b msg ++ l)%list = [] ↔ b = false ∧ l = [].
Proof. destruct b; simpl; naive_solver. Qed.

Lemma valid_step spec :
  valid spec → typed spec → (1 <= ShiftPolicy.step_percent (Spec.shift spec) <= 100)%Z.
Proof.
  unfold valid, validate_plan, typed, in_u32. cbn [concat]. rewrite !push_if_nil.
  intros Hv [_ Ht]. destruct_and!. breflect. lia.
Qed.

Lemma valid_initial spec :
  valid spec → (RoutingRecordSpec.initial_primary_weight (Spec.routing spec) <= 100)%Z.
Proof.
  unfold valid, validate_plan. cbn [concat]. rewrite !push_if_nil.
  intros. destruct_and!. breflect. lia.
Qed.

Lemma valid_target spec d : valid spec → typed spec → (0 <= target_weight spec d <= 100)%Z.
Proof.
  intros Hv Ht. pose proof (valid_initial spec Hv). destruct Ht as [Hi _]. unfold in_u32 in Hi.
  destruct d; simpl; lia.
Qed.

(** ** The gate *)

Definition gaining (d : Dir.t) (primary secondary : Ev.t) : Ev.t :=
  match d with Dir.Failover => secondary | Dir.Failback => primary end.

Lemma gate_open_iff spec d primary secondary now :
  GateDecision.open (evaluate_gate spec d primary secondary now) = true ↔
  Ev.is_healthy (gaining d primary secondary) (Spec.health_gate spec) now = true ∧
  (d = Dir.Failover → Ev.is_unhealthy primary (Spec.health_gate spec) = true).
Proof.
  unfold evaluate_gate. destruct d; simpl; rewrite ?andb_true_iff; naive_solver.
Qed.

(** ** Step keys *)

Definition key (s : Step.t) : Dir.t * Z := (Step.direction s, Step.index s).
Definition keys (l : list Step.t) : list (Dir.t * Z) := key <$> l.

Definition in_dir (d : Dir.t) (k : Dir.t * Z) : bool := bool_decide (fst k = d).
Definition indices (d : Dir.t) (ks : list (Dir.t * Z)) : list Z := snd <$> List.filter (in_dir d) ks.
Definition n_steps (d : Dir.t) (ks : list (Dir.t * Z)) : Z := Z.of_nat (length (indices d ks)).

(** The increments of each direction are numbered 0, 1, 2, ... in order. *)
Definition keys_ok (ks : list (Dir.t * Z)) : Prop :=
  ∀ d, indices d ks = seqZ 0 (n_steps d ks).

Lemma indices_app d ks1 ks2 : indices d (ks1 ++ ks2) = indices d ks1 ++ indices d ks2.
Proof. unfold indices. by rewrite List.filter_app, fmap_app. Qed.

Lemma elem_of_indices d i ks : i ∈ indices d ks ↔ (d, i) ∈ ks.
Proof.
  unfold indices. rewrite list_elem_of_fmap. split.
  - intros ([d' i']&->&[Hin Hd]%list_elem_of_In%filter_In).
    apply bool_decide_eq_true in Hd. simpl in *. subst. by apply list_elem_of_In.
  - intros Hin. exists (d, i). split; [done|]. apply list_elem_of_In, filter_In.
    split; [by apply list_elem_of_In|]. by apply bool_decide_eq_true.
Qed.

Lemma keys_ok_range ks d i : keys_ok ks → (d, i) ∈ ks ↔ (0 <= i < n_steps d ks)%Z.
Proof. intros Hk. rewrite <- elem_of_indices, Hk, elem_of_seqZ. lia. Qed.

Lemma n_steps_nonneg d ks : (0 <= n_steps d ks)%Z.
Proof. unfold n_steps. lia. Qed.

Lemma n_steps_app d ks1 ks2 : n_steps d (ks1 ++ ks2) = (n_steps d ks1 + n_steps d ks2)%Z.
Proof. unfold n_steps. rewrite indices_app, length_app. lia. Qed.

Lemma n_steps_single d k : n_steps d [k] = if in_dir d k then 1%Z else 0%Z.
Proof. unfold n_steps, indices. simpl. by destruct (in_dir d k). Qed.

Lemma n_steps_le d ks : (n_steps d ks <= Z.of_nat (length ks))%Z.
Proof.
  unfold n_steps, indices. rewrite length_fmap.
  pose proof (List.filter_length_le (in_dir d) ks). lia.
Qed.

Lemma keys_ok_snoc ks d : keys_ok ks → keys_ok (ks ++ [(d, n_steps d ks)]).
Proof.
  intros Hk d'. rewrite n_steps_app, indices_app, n_steps_single.
  unfold indices at 2. simpl. unfold in_dir. simpl. case_bool_decide as Hd; simpl.
  - subst. rewrite seqZ_app by (try lia; apply n_steps_nonneg). by rewrite <- Hk.
  - by rewrite Z.add_0_r, app_nil_r, <- Hk.
Qed.

Lemma keys_ok_NoDup ks : keys_ok ks → NoDup ks.
Proof.
  intros Hk. assert (∀ d, NoDup (indices d ks)) as Hnd.
  { intros d. rewrite Hk. apply NoDup_seqZ. }
  clear Hk. induction ks as [|[d i] ks IH]; [constructor|]. constructor.
  - specialize (Hnd d). unfold indices in Hnd. simpl in Hnd. unfold in_dir at 1 in Hnd. simpl in Hnd.
    rewrite bool_decide_true in Hnd by done. simpl in Hnd. apply NoDup_cons in Hnd as [Hni _].
    by rewrite <- elem_of_indices.
  - apply IH. intros d'. specialize (Hnd d'). unfold indices in *. simpl in Hnd.
    destruct (in_dir d' (d, i)); simpl in Hnd; [by apply NoDup_cons in Hnd as [_ ?]|done].
Qed.

(** ** The increment in flight *)

Lemma steps_in_dir d l :
  Step.index <$> List.filter (of_direction d) l = indices d (keys l).
Proof.
  unfold indices, keys. induction l as [|s l IH]; [done|]. csimpl.
  change (in_dir d (key s)) with (of_direction d s).
  destruct (of_direction d s); csimpl; by rewrite IH.
Qed.

Lemma max_Z_seqZ n : (0 < n)%Z → max_Z (seqZ 0 n) = Some (n - 1)%Z.
Proof.
  intros Hn. destruct (max_Z (seqZ 0 n)) as [m|] eqn:E.
  - apply max_Z_Some in E as [Hin Hle]. rewrite elem_of_seqZ in Hin.
    specialize (Hle (n - 1)%Z). rewrite elem_of_seqZ in Hle. f_equal. lia.
  - apply max_Z_None in E. apply (f_equal length) in E. rewrite length_seqZ in E. simpl in E. lia.
Qed.

Lemma max_Z_succ l : (∀ x, x ∈ l → (0 <= x < 2 ^ 32 - 1)%Z) →
  max_Z ((λ x, x +u32 1) <$> l) = (λ m, (m + 1)%Z) <$> max_Z l.
Proof.
  induction l as [|x l IH]; csimpl; [done|]. setoid_rewrite elem_of_cons. intros H.
  rewrite IH by auto. rewrite u32_add_small by (pose proof (H x (or_introl eq_refl)); lia).
  destruct (max_Z l); simpl; f_equal; lia.
Qed.

Lemma next_step_index_eq st d :
  keys_ok (keys (St.steps st)) → (n_steps d (keys (St.steps st)) < 2 ^ 32)%Z →
  next_step_index st d = n_steps d (keys (St.steps st)).
Proof.
  intros Hk Hn. unfold next_step_index.
  rewrite (list_fmap_compose Step.index (λ x, x +u32 1)).
  rewrite steps_in_dir, Hk. rewrite max_Z_succ.
  - destruct (decide (n_steps d (keys (St.steps st)) = 0)%Z) as [->|]; [done|].
    rewrite max_Z_seqZ by (pose proof (n_steps_nonneg d (keys (St.steps st))); lia).
    simpl. lia.
  - intros x. rewrite elem_of_seqZ. lia.
Qed.

Lemma key_inj l s s' :
  NoDup (keys l) → s ∈ l → s' ∈ l → key s = key s' → s = s'.
Proof.
  unfold keys. intros Hnd [i Hi]%list_elem_of_lookup [j Hj]%list_elem_of_lookup Hk.
  assert (i = j) as ->; [|congruence].
  eapply NoDup_lookup; [exact Hnd|..]; rewrite list_lookup_fmap, ?Hi, ?Hj; simpl; by rewrite ?Hk.
Qed.

Lemma of_direction_true d s : of_direction d s = true ↔ Step.direction s = d.
Proof. apply bool_decide_eq_true. Qed.

Lemma same_step_true d i s : same_step d i s = true ↔ key s = (d, i).
Proof.
  unfold same_step, key. rewrite andb_true_iff, of_direction_true, Z.eqb_eq. naive_solver.
Qed.

Lemma elem_of_keys s l : s ∈ l → key s ∈ keys l.
Proof. apply list_elem_of_fmap_2. Qed.

(** The pending step is the newest one of its direction. *)
Lemma pending_step_Some st d s :
  keys_ok (keys (St.steps st)) → (n_steps d (keys (St.steps st)) < 2 ^ 32)%Z →
  pending_step st d (next_step_index st d) = Some s →
  s ∈ St.steps st ∧ Step.direction s = d ∧
  (Step.index s + 1 = n_steps d (keys (St.steps st)))%Z.
Proof.
  intros Hk Hn. rewrite next_step_index_eq by done.
  intros [Hin [Hd Hi]%andb_true_iff]%find_last_Some.
  apply of_direction_true in Hd. apply Z.eqb_eq in Hi. split_and!; [done..|].
  pose proof (elem_of_keys _ _ Hin) as Hkey. unfold key in Hkey. rewrite Hd in Hkey.
  apply keys_ok_range in Hkey; [|done]. rewrite u32_add_small in Hi by lia. done.
Qed.

Lemma pending_step_None st d :
  keys_ok (keys (St.steps st)) → (n_steps d (keys (St.steps st)) < 2 ^ 32)%Z →
  pending_step st d (next_step_index st d) = None → n_steps d (keys (St.steps st)) = 0%Z.
Proof.
  intros Hk Hn. rewrite next_step_index_eq by done. unfold pending_step. rewrite find_last_None.
  intros H. destruct (decide (n_steps d (keys (St.steps st)) = 0%Z)) as [|Hne]; [done|exfalso].
  pose proof (n_steps_nonneg d (keys (St.steps st))).
  assert ((d, n_steps d (keys (St.steps st)) - 1)%Z ∈ keys (St.steps st)) as Hin.
  { apply keys_ok_range; [done|]. lia. }
  apply list_elem_of_fmap in Hin as (s&Hs&Hin). injection Hs as Hd Hi.
  specialize (H s Hin). rewrite andb_false_iff in H. destruct H as [H|H].
  - apply bool_decide_eq_false in H. congruence.
  - apply Z.eqb_neq in H. apply H. rewrite u32_add_small; lia.
Qed.

(** ** The status invariant *)

Definition closed (s : Step.t) : Prop :=
  Step.outcome s = StepOutcome.Succeeded ∨ Step.outcome s = StepOutcome.Aborted.

(** What the record of an increment of the direction in flight says about the
    published share [p]: a draining increment starts from [p] and leads towards
    the target, a published one led to [p]. *)
Definition live_ok (spec : Spec.t) (p : Z) (s : Step.t) : Prop :=
  let target := target_weight spec (Step.direction s) in
  match Step.outcome s with
  | StepOutcome.Draining =>
      Step.from_primary_weight s = p ∧ p ≠ target ∧
      Step.to_primary_weight s
        = weight_after_step p target (ShiftPolicy.step_percent (Spec.shift spec)) (Step.index s) ∧
      is_Some (Step.drain_started_at s)
  | StepOutcome.Applied => Step.to_primary_weight s = p ∧ is_Some (Step.soak_ends_at s)
  | StepOutcome.Succeeded | StepOutcome.Aborted => True
  | StepOutcome.Pending | StepOutcome.Failed => False
  end.

(** The shares are a partition of the traffic. *)
Definition weights_ok (w : TrafficWeights.t) : Prop :=
  (0 <= TrafficWeights.primary_percent w <= 100)%Z ∧
  TrafficWeights.secondary_percent w = (100 - TrafficWeights.primary_percent w)%Z.

Record inv (spec : Spec.t) (ph : Phase.t) (d : Dir.t) (w : TrafficWeights.t) (l : list Step.t) : Prop := {
  inv_weights : weights_ok w;
  inv_keys : keys_ok (keys l);
  (** increments of the other direction, and all of them once the direction is
      completed, are closed *)
  inv_closed : ∀ s, s ∈ l → Step.direction s ≠ d ∨ ph = Phase.Completed → closed s;
  (** only the newest increment of the direction can be open *)
  inv_newest : ∀ s, s ∈ l → Step.direction s = d → ¬ closed s →
                 (Step.index s + 1 = n_steps d (keys l))%Z;
  inv_live : ∀ s, s ∈ l → Step.direction s = d → live_ok spec (TrafficWeights.primary_percent w) s;
}.

Definition Inv (spec : Spec.t) (st : St.t) : Prop :=
  inv spec (St.phase st) (St.direction st) (St.current_weights st) (St.steps st).

(** The index of the next increment is still a 32-bit number. *)
Definition room (st : St.t) : Prop := (Z.of_nat (length (St.steps st)) < 2 ^ 32)%Z.

Lemma room_n_steps st d : room st → (n_steps d (keys (St.steps st)) < 2 ^ 32)%Z.
Proof.
  unfold room. pose proof (n_steps_le d (keys (St.steps st))) as H.
  unfold keys in H at 2. rewrite length_fmap in H. lia.
Qed.

(** ** What each action does to the invariant *)

Lemma keys_update_step d i f l :
  (∀ s, key s = (d, i) → key (f s) = key s) → keys (update_first (same_step d i) f l) = keys l.
Proof. intros Hf. apply fmap_update_first. intros s ?%same_step_true. auto. Qed.

Lemma inv_set_phase spec ph ph' d w l :
  ph' ≠ Phase.Completed → inv spec ph d w l → inv spec ph' d w l.
Proof. intros Hne [????]. constructor; naive_solver. Qed.

Lemma closed_live_ok spec p s : closed s → live_ok spec p s.
Proof. unfold live_ok. by intros [-> | ->]. Qed.

(** The elements after an in-place update of the increment [(d, i)]. *)
Lemma elem_of_update_step d i f l y :
  keys_ok (keys l) → y ∈ update_first (same_step d i) f l →
  (y ∈ l ∧ key y ≠ (d, i)) ∨ ∃ x, x ∈ l ∧ key x = (d, i) ∧ y = f x.
Proof.
  intros Hk Hy.
  destruct (elem_of_update_first_key key (d, i) (same_step d i) f l y) as [[? Hp]|(x&?&Hp&->)].
  - intros x. apply same_step_true.
  - by apply keys_ok_NoDup.
  - done.
  - left. split; [done|]. intros Heq. apply same_step_true in Heq. congruence.
  - right. exists x. split_and!; [done|by apply same_step_true|done].
Qed.

(** An update of one increment of the direction in flight keeps the invariant
    when the new record is coherent with the new share and every other open
    increment was already impossible. *)
Lemma inv_update_step spec ph ph' d w w' l i f :
  inv spec ph d w l → ph ≠ Phase.Completed → ph' ≠ Phase.Completed → weights_ok w' →
  (∀ s, key s = (d, i) → key (f s) = key s) →
  (∀ s, s ∈ l → key s = (d, i) →
     live_ok spec (TrafficWeights.primary_percent w') (f s) ∧
     (¬ closed (f s) → Step.index s + 1 = n_steps d (keys l))%Z) →
  (w' = w ∨ ∀ s, s ∈ l → Step.direction s = d → key s ≠ (d, i) → closed s) →
  inv spec ph' d w' (update_first (same_step d i) f l).
Proof.
  intros [Hw Hk Hc Hn Hl] Hph Hph' Hw' Hf Hs Hrest.
  assert (∀ s, key s = (d, i) → Step.direction (f s) = d ∧ Step.index (f s) = Step.index s) as Hfd.
  { intros s Hks. specialize (Hf s Hks). unfold key in *. naive_solver. }
  constructor; rewrite ?keys_update_step by done; try done.
  - intros y Hy [Hd|]; [|done].
    destruct (elem_of_update_step _ _ _ _ _ Hk Hy) as [[Hy' _]|(x&Hx&Hkx&->)]; [by auto|].
    exfalso. apply Hd. by apply Hfd.
  - intros y Hy Hd Hncl.
    destruct (elem_of_update_step _ _ _ _ _ Hk Hy) as [[Hy' _]|(x&Hx&Hkx&->)]; [by auto|].
    rewrite (proj2 (Hfd x Hkx)). by apply (Hs x Hx Hkx).
  - intros y Hy Hd.
    destruct (elem_of_update_step _ _ _ _ _ Hk Hy) as [[Hy' Hky]|(x&Hx&Hkx&->)]; [|by apply Hs].
    destruct Hrest as [->|Hrest]; [by apply Hl|].
    by apply closed_live_ok, Hrest.
Qed.

(** [close_out_soaked_steps] finds nothing to close below the newest increment. *)
Lemma close_out_id d i now st :
  (∀ s, s ∈ St.steps st → Step.direction s = d → Step.outcome s = StepOutcome.Applied →
        (i <= Step.index s)%Z) →
  St.steps (close_out_soaked_steps d i now st) = St.steps st.
Proof.
  unfold close_out_soaked_steps. simpl. intros H.
  rewrite <- (list_fmap_id (St.steps st)) at 2. apply list_fmap_ext.
  intros j s Hs%list_elem_of_lookup_2. simpl.
  destruct (of_direction d s) eqn:Hd; [|done]. apply of_direction_true in Hd.
  destruct (Z.ltb_spec (Step.index s) i); [|done]. simpl.
  case_bool_decide as Ho; [|done]. specialize (H s Hs Hd Ho). lia.
Qed.

(** With every published increment below [i], it closes all of them. *)
Lemma close_out_keys d i now st :
  keys (St.steps (close_out_soaked_steps d i now st)) = keys (St.steps st).
Proof.
  unfold close_out_soaked_steps, keys. simpl. rewrite <- list_fmap_compose.
  apply list_fmap_ext. intros j s _. simpl. by case_match.
Qed.

Lemma close_out_elem d i now st y :
  y ∈ St.steps (close_out_soaked_steps d i now st) →
  ∃ s, s ∈ St.steps st ∧ key y = key s ∧
       (y = s ∧ ¬ (Step.direction s = d ∧ (Step.index s < i)%Z ∧ Step.outcome s = StepOutcome.Applied)
        ∨ Step.outcome y = StepOutcome.Succeeded).
Proof.
  unfold close_out_soaked_steps. simpl. intros (s&->&Hs)%list_elem_of_fmap.
  exists s. split; [done|]. destruct (of_direction d s) eqn:Hd; simpl.
  - apply of_direction_true in Hd. destruct (Z.ltb_spec (Step.index s) i); simpl.
    + case_bool_decide; simpl; split; try done; [by right|left; naive_solver].
    + split; [done|]. left. naive_solver lia.
  - split; [done|]. left. apply bool_decide_eq_false in Hd. naive_solver.
Qed.

Section actions.
Context `{Chrono}.
Implicit Types (spec : Spec.t) (st : St.t) (primary secondary : Ev.t) (now : DateTime).

(** The newest increment of the direction in flight and its place. *)
Definition newest st (s : Step.t) : Prop :=
  s ∈ St.steps st ∧ Step.direction s = St.direction st ∧
  (Step.index s + 1 = n_steps (St.direction st) (keys (St.steps st)))%Z.

Lemma newest_key st s s' :
  keys_ok (keys (St.steps st)) → newest st s → s' ∈ St.steps st → key s' = key s → s' = s.
Proof. intros Hk (Hs&_) Hs' Heq. eapply key_inj; eauto using keys_ok_NoDup. Qed.

Lemma others_closed spec st s s' :
  Inv spec st → newest st s → s' ∈ St.steps st → Step.direction s' = St.direction st →
  key s' ≠ key s → closed s'.
Proof.
  intros [_ Hk _ Hn _] (Hs&Hd&Hi) Hs' Hd' Hne.
  unfold closed. destruct (Step.outcome s') eqn:E; auto; exfalso; apply Hne; unfold key;
    (rewrite Hd, Hd'; f_equal; cut (Step.index s' + 1 = n_steps (St.direction st) (keys (St.steps st)))%Z;
     [lia|]; apply Hn; [done..|]; unfold closed; rewrite E; naive_solver).
Qed.

Lemma act_soak_inv spec st primary secondary now s until :
  Inv spec st → St.phase st ≠ Phase.Completed → newest st s →
  Step.outcome s = StepOutcome.Applied →
  Inv spec (act spec (Soak (St.direction st) (Step.index s) until) primary secondary now st).
Proof.
  intros HI Hph Hnew Ho. unfold Inv. simpl.
  eapply inv_update_step; [exact HI|done|done|apply HI|done| |by left].
  intros x Hx Hkx. assert (x = s) as ->.
  { eapply newest_key; [apply HI|done|done|]. rewrite Hkx. unfold key. by rewrite (proj1 (proj2 Hnew)). }
  split.
  - pose proof (inv_live _ _ _ _ _ HI s Hx (proj1 (proj2 Hnew))) as Hl.
    unfold live_ok in *. simpl. rewrite Ho in *. naive_solver.
  - intros _. apply Hnew.
Qed.

Lemma act_abort_inv spec st primary secondary now s reason :
  Inv spec st → St.phase st ≠ Phase.Completed → newest st s →
  Inv spec (act spec (Abort (St.direction st) (Step.index s) reason) primary secondary now st).
Proof.
  intros HI Hph Hnew. unfold Inv. simpl.
  eapply inv_update_step; [exact HI|done|done|apply HI|done| |by left].
  intros x Hx Hkx. split; [done|]. intros Hncl. destruct Hncl. by right.
Qed.

Lemma find_first_newest st s :
  keys_ok (keys (St.steps st)) → newest st s →
  find_first (same_step (St.direction st) (Step.index s)) (St.steps st) = Some s.
Proof.
  intros Hk Hnew. apply find_first_unique; [apply Hnew| |].
  - apply same_step_true. unfold key. by rewrite (proj1 (proj2 Hnew)).
  - intros y Hy Hp%same_step_true. eapply newest_key; [done..|].
    rewrite Hp. unfold key. by rewrite (proj1 (proj2 Hnew)).
Qed.

(** Nothing below the newest increment is still published-but-open. *)
Lemma newest_close_out spec st st' s now :
  Inv spec st → newest st s → St.steps st' = St.steps st →
  St.steps (close_out_soaked_steps (St.direction st) (Step.index s) now st') = St.steps st.
Proof.
  intros HI Hnew Heq. rewrite close_out_id; [done|]. rewrite Heq. intros x Hx Hd Ho.
  destruct (decide (key x = key s)) as [Hk|Hk]; [unfold key in Hk; naive_solver lia|].
  destruct (others_closed spec st s x) as [E|E]; [done..|congruence|congruence].
Qed.

Lemma start_if_new_fields now st :
  St.steps (start_if_new now st) = St.steps st ∧ St.phase (start_if_new now st) = St.phase st ∧
  St.direction (start_if_new now st) = St.direction st ∧
  St.current_weights (start_if_new now st) = St.current_weights st.
Proof. unfold start_if_new. by destruct (St.started_at st). Qed.

(** The status an increment of the newest key is written into. *)
Lemma upsert_newest_steps spec st st' s now step :
  Inv spec st → newest st s → St.steps st' = St.steps st →
  Step.direction step = St.direction st → Step.index step = Step.index s →
  St.steps (upsert_step step (close_out_soaked_steps (St.direction st) (Step.index s) now st'))
  = update_first (same_step (St.direction st) (Step.index s)) (merge_step step) (St.steps st).
Proof.
  intros HI Hnew Heq Hd Hi. unfold upsert_step. rewrite Hd, Hi.
  rewrite (newest_close_out spec st st' s now) by done.
  by rewrite (find_first_newest st s (inv_keys _ _ _ _ _ HI) Hnew).
Qed.

Lemma upsert_step_fields step st :
  St.phase (upsert_step step st) = St.phase st ∧
  St.direction (upsert_step step st) = St.direction st ∧
  St.current_weights (upsert_step step st) = St.current_weights st.
Proof. unfold upsert_step. by case_match. Qed.

(** The steps, phase, direction and weights after an increment of the newest
    key has been recorded. *)
Lemma record_newest spec st s now ph step :
  Inv spec st → newest st s →
  Step.direction step = St.direction st → Step.index step = Step.index s →
  let st' := upsert_step step (close_out_soaked_steps (St.direction st) (Step.index s) now
               (start_if_new now (St.set_phase ph (St.set_direction (St.direction st) st)))) in
  St.phase st' = ph ∧ St.direction st' = St.direction st ∧
  St.current_weights st' = St.current_weights st ∧
  St.steps st' = update_first (same_step (St.direction st) (Step.index s)) (merge_step step) (St.steps st).
Proof.
  intros HI Hnew Hd Hi. cbv zeta.
  destruct (start_if_new_fields now (St.set_phase ph (St.set_direction (St.direction st) st)))
    as (Hs1&Hp1&Hd1&Hw1).
  set (st1 := start_if_new _ _) in *. clearbody st1. simpl in *.
  destruct (upsert_step_fields step (close_out_soaked_steps (St.direction st) (Step.index s) now st1))
    as (->&->&->).
  rewrite (upsert_newest_steps spec st st1 s) by done. done.
Qed.

Lemma act_redrain_inv spec st primary secondary now s until :
  Inv spec st → St.phase st ≠ Phase.Completed → newest st s →
  Step.outcome s = StepOutcome.Draining →
  Inv spec (act spec (Drain (St.direction st) (Step.index s) (Step.from_primary_weight s)
                        (Step.to_primary_weight s) until) primary secondary now st).
Proof.
  intros HI Hph Hnew Ho. unfold Inv. cbn [act].
  destruct (record_newest spec st s now Phase.Draining
    (draining_step spec (St.direction st) (Step.index s) (Step.from_primary_weight s)
       (Step.to_primary_weight s) now) HI Hnew eq_refl eq_refl) as (->&->&->&->).
  eapply inv_update_step; [exact HI|done|done|apply HI| | |by left].
  - intros x Hx. unfold key in *. simpl. naive_solver.
  - intros x Hx Hkx. assert (x = s) as ->.
    { eapply newest_key; [apply HI|done|done|]. rewrite Hkx. unfold key. by rewrite (proj1 (proj2 Hnew)). }
    split; [|by intros _; apply Hnew].
    pose proof (inv_live _ _ _ _ _ HI s Hx (proj1 (proj2 Hnew))) as Hl.
    unfold live_ok in *. simpl in *. rewrite Ho in Hl. rewrite (proj1 (proj2 Hnew)) in Hl.
    destruct Hl as (Hf&Hne&Ht&[dr Hdr]). rewrite Hdr. eauto.
Qed.

Lemma index_nonneg spec st s : Inv spec st → s ∈ St.steps st → (0 <= Step.index s)%Z.
Proof.
  intros HI Hk%elem_of_keys. unfold key in Hk. apply keys_ok_range in Hk; [lia|apply HI].
Qed.

(** The share a draining increment leads to is a percentage. *)
Lemma draining_to_range spec st s :
  valid spec → typed spec → Inv spec st → newest st s → Step.outcome s = StepOutcome.Draining →
  (0 <= Step.to_primary_weight s <= 100)%Z.
Proof.
  intros Hv Hty HI (Hs&Hd&Hi) Ho.
  pose proof (inv_live _ _ _ _ _ HI s Hs Hd) as Hl. unfold live_ok in Hl. rewrite Ho in Hl.
  destruct Hl as (_&_&->&_). destruct (inv_weights _ _ _ _ _ HI) as [Hw _].
  pose proof (valid_target spec (Step.direction s) Hv Hty). pose proof (valid_step spec Hv Hty).
  pose proof (index_nonneg spec st s HI Hs).
  rewrite weight_after_step_eq by lia. unfold moved_towards.
  assert (0 <= ShiftPolicy.step_percent (Spec.shift spec) * (Step.index s + 1))%Z by nia.
  case_match; lia.
Qed.

Lemma from_primary_percent_ok p :
  (0 <= p <= 100)%Z → weights_ok (TrafficWeights.from_primary_percent p).
Proof. intros. unfold weights_ok. simpl. lia. Qed.

(** Recording the published record and recording the increment commute. *)
Lemma publish_commutes record step d i now st :
  upsert_step step (St.set_applied_record record (close_out_soaked_steps d i now st))
  = St.set_applied_record record (upsert_step step (close_out_soaked_steps d i now st)).
Proof. unfold upsert_step. simpl. by case_match. Qed.

Lemma newest_unique st s x :
  keys_ok (keys (St.steps st)) → newest st s → x ∈ St.steps st →
  key x = (St.direction st, Step.index s) → x = s.
Proof.
  intros Hk Hnew Hx Hkx. eapply newest_key; [done..|]. rewrite Hkx. unfold key.
  by rewrite (proj1 (proj2 Hnew)).
Qed.

Lemma act_publish_inv spec st primary secondary now s record ttl :
  valid spec → typed spec →
  Inv spec st → St.phase st ≠ Phase.Completed → newest st s →
  Step.outcome s = StepOutcome.Draining →
  Inv spec (act spec (Publish (St.direction st) (Step.index s) (Step.from_primary_weight s)
                        (Step.to_primary_weight s) record ttl) primary secondary now st).
Proof.
  intros Hv Hty HI Hph Hnew Ho. unfold Inv. cbn [act].
  pose proof (draining_to_range spec st s Hv Hty HI Hnew Ho) as Hto.
  destruct (record_newest spec st s now Phase.Shifting
    (applied_step spec (St.direction st) (Step.index s) (Step.from_primary_weight s)
       (Step.to_primary_weight s) record ttl now) HI Hnew eq_refl eq_refl) as (Hp&Hd&_&Hs).
  rewrite publish_commutes. cbn [St.phase St.direction St.current_weights St.steps
    St.set_current_weights St.set_applied_record].
  rewrite Hp, Hd, Hs.
  eapply inv_update_step; [exact HI|done|done| | | |right].
  - by apply from_primary_percent_ok.
  - intros x Hx. unfold key in *. simpl. naive_solver.
  - intros x Hx Hkx. rewrite (newest_unique st s x) by (done || apply HI).
    split; [|by intros _; apply Hnew]. unfold live_ok. simpl. split; [lia|by eexists].
  - intros x Hx Hdx Hkx. eapply others_closed; [done..|]. intros Heq. apply Hkx. rewrite Heq.
    unfold key. by rewrite (proj1 (proj2 Hnew)).
Qed.

(** Every increment that is not closed is the newest one, has been published
    and has soaked within its error budget. *)
Definition soaked_ok spec primary secondary now (s : Step.t) : Prop :=
  Step.outcome s = StepOutcome.Applied ∧
  (∃ until, Step.soak_ends_at s = Some until ∧ (until <= now)%Z) ∧
  f64_gt (soak_error_rate (Step.direction s) primary secondary)
    (ShiftPolicy.max_soak_error_rate_percent (Spec.shift spec)) = false.

Definition settled spec st primary secondary now : Prop :=
  ∀ s, s ∈ St.steps st → closed s ∨ (newest st s ∧ soaked_ok spec primary secondary now s).

Lemma filter_none {A} (p : A → bool) l : (∀ x, x ∈ l → p x = false) → List.filter p l = [].
Proof.
  induction l as [|x l IH]; simpl; [done|]. setoid_rewrite elem_of_cons. intros Hp.
  rewrite (Hp x) by auto. auto.
Qed.

(** The last record of the direction in the list is the newest increment. *)
Lemma last_is_newest st l1 s l2 :
  keys_ok (keys (St.steps st)) → St.steps st = l1 ++ s :: l2 → Step.direction s = St.direction st →
  (∀ y, y ∈ l2 → of_direction (St.direction st) y = false) → newest st s.
Proof.
  intros Hk Hl Hd Hl2. split_and!; [rewrite Hl; apply elem_of_app; right; by left|done|].
  specialize (Hk (St.direction st)).
  assert (indices (St.direction st) (keys (St.steps st))
          = indices (St.direction st) (keys l1) ++ [Step.index s]) as Hix.
  { rewrite Hl. unfold keys. rewrite fmap_app, fmap_cons, indices_app. f_equal.
    unfold indices. simpl. unfold in_dir at 1. simpl. rewrite bool_decide_true by done. csimpl. f_equal.
    rewrite filter_none; [done|]. intros k (y&->&Hy)%list_elem_of_fmap. by apply Hl2. }
  assert (n_steps (St.direction st) (keys (St.steps st))
          = Z.of_nat (length (indices (St.direction st) (keys l1))) + 1)%Z as Hn.
  { unfold n_steps. rewrite Hix, length_app. simpl. lia. }
  rewrite Hix in Hk.
  assert ((indices (St.direction st) (keys l1) ++ [Step.index s])
            !! length (indices (St.direction st) (keys l1)) = Some (Step.index s)) as Hlk.
  { by rewrite list_lookup_middle. }
  rewrite Hk in Hlk. apply lookup_seqZ in Hlk as [? _]. lia.
Qed.

(** What completion does to the last increment of the direction. *)
Definition complete_step now (s : Step.t) : Step.t :=
  if bool_decide (Step.outcome s = StepOutcome.Applied)
  then Step.set_completed_at (Some now) (Step.set_outcome StepOutcome.Succeeded s) else s.

Lemma complete_closes spec st primary secondary now y :
  Inv spec st → settled spec st primary secondary now →
  y ∈ update_last (of_direction (St.direction st)) (complete_step now) (St.steps st) → closed y.
Proof.
  intros HI Hset Hy.
  assert (keys_ok (keys (St.steps st))) as Hk by apply HI.
  assert (NoDup (keys (St.steps st))) as Hnd by by apply keys_ok_NoDup.
  assert (∀ z, z ∈ St.steps st → ¬ newest st z → closed z) as Hold.
  { intros z Hz Hnn. by destruct (Hset z Hz) as [|[? _]]. }
  destruct (find_last (of_direction (St.direction st)) (St.steps st)) as [x|] eqn:Hf.
  - destruct (find_last_Some _ _ _ Hf) as [_ Hdx%of_direction_true].
    destruct (update_last_split _ (complete_step now) _ _ Hf) as (l1&l2&Hl&Hl2&Hu).
    assert (newest st x) as Hnew by by eapply last_is_newest.
    rewrite Hu in Hy. apply elem_of_app in Hy. rewrite elem_of_cons in Hy.
    assert (y = complete_step now x ∨ (y ∈ l1 ∨ y ∈ l2)) as [->|Hy'] by tauto.
    + unfold complete_step. case_bool_decide; [by left|].
      destruct (Hset x) as [?|[_ [? _]]]; [apply Hnew|done|done].
    + apply Hold; [rewrite Hl, elem_of_app, elem_of_cons; tauto|]. intros Hny.
      assert (y = x) as ->.
      { apply (newest_unique st x y); [done..|apply Hny|]. unfold key.
        destruct Hny as (_&->&?), Hnew as (_&_&?). f_equal. lia. }
      unfold keys in Hnd. rewrite Hl, fmap_app, fmap_cons in Hnd.
      apply NoDup_app in Hnd as (_&Hdis&[Hni _]%NoDup_cons). destruct Hy' as [Hy'|Hy'].
      * apply (Hdis (key x)); [by apply list_elem_of_fmap_2|by left].
      * apply Hni. by apply list_elem_of_fmap_2.
  - rewrite find_last_None in Hf. apply Hold.
    + apply elem_of_update_last in Hy as [?|(x&Hx&Hd&_)]; [done|]. by rewrite Hf in Hd.
    + intros (Hin&Hd&_). apply of_direction_true in Hd. by rewrite Hf in Hd.
Qed.

Lemma act_complete_inv spec st primary secondary now :
  valid spec → typed spec → Inv spec st → settled spec st primary secondary now →
  TrafficWeights.primary_percent (St.current_weights st) = target_weight spec (St.direction st) →
  Inv spec (act spec (Complete (St.direction st)) primary secondary now st).
Proof.
  intros Hv Hty HI Hset Hcur. unfold Inv.
  assert (St.phase (act spec (Complete (St.direction st)) primary secondary now st) = Phase.Completed ∧
    St.direction (act spec (Complete (St.direction st)) primary secondary now st) = St.direction st ∧
    St.current_weights (act spec (Complete (St.direction st)) primary secondary now st)
    = TrafficWeights.from_primary_percent (target_weight spec (St.direction st)) ∧
    St.steps (act spec (Complete (St.direction st)) primary secondary now st)
    = update_last (of_direction (St.direction st)) (complete_step now) (St.steps st)) as (->&->&->&->).
  { cbn [act]. by case_bool_decide. }
  assert (∀ y, y ∈ update_last (of_direction (St.direction st)) (complete_step now) (St.steps st) →
    closed y) as Hcl by (intros; by eapply complete_closes).
  assert (keys (update_last (of_direction (St.direction st)) (complete_step now) (St.steps st))
          = keys (St.steps st)) as Hks.
  { apply fmap_update_last. intros s _. unfold complete_step. by case_bool_decide. }
  constructor; rewrite ?Hks; eauto using closed_live_ok.
  - apply from_primary_percent_ok, valid_target; done.
  - apply HI.
  - intros y Hy _ Hncl. by destruct Hncl; apply Hcl.
Qed.
(** A fresh increment: the soaked one is closed and a new record is appended. *)
Lemma act_drain_fresh_fields spec st primary secondary now to until :
  Inv spec st → room st →
  let st' := act spec (Drain (St.direction st) (next_step_index st (St.direction st))
                         (TrafficWeights.primary_percent (St.current_weights st)) to until)
                      primary secondary now st in
  let n := n_steps (St.direction st) (keys (St.steps st)) in
  St.phase st' = Phase.Draining ∧ St.direction st' = St.direction st ∧
  St.current_weights st' = St.current_weights st ∧
  St.steps st' = St.steps (close_out_soaked_steps (St.direction st) n now st)
                 ++ [draining_step spec (St.direction st) n
                       (TrafficWeights.primary_percent (St.current_weights st)) to now].
Proof.
  intros HI Hr. cbv zeta. cbn [act].
  pose proof (room_n_steps st (St.direction st) Hr) as Hn.
  rewrite next_step_index_eq by (done || apply HI).
  set (n := n_steps (St.direction st) (keys (St.steps st))) in *.
  set (w := TrafficWeights.primary_percent (St.current_weights st)).
  set (d := St.direction st) in *.
  destruct (start_if_new_fields now (St.set_phase Phase.Draining (St.set_direction d st)))
    as (Hs1&Hp1&Hd1&Hw1).
  set (st1 := start_if_new _ _) in *. clearbody st1. cbn in Hs1, Hp1, Hd1, Hw1.
  destruct (upsert_step_fields (draining_step spec d n w to now) (close_out_soaked_steps d n now st1))
    as (->&->&->). split_and!; [done..|].
  assert (St.steps (close_out_soaked_steps d n now st1) = St.steps (close_out_soaked_steps d n now st)) as Hco.
  { unfold close_out_soaked_steps. cbn. by rewrite Hs1. }
  unfold upsert_step. cbn [Step.direction Step.index draining_step].
  destruct (find_first _ _) as [x|] eqn:Hf; cbn [St.steps St.set_steps]; rewrite Hco in *; [|done].
  apply find_first_Some in Hf as [Hx Hkx%same_step_true].
  apply elem_of_keys in Hx. rewrite close_out_keys, Hkx in Hx.
  apply keys_ok_range in Hx; [|apply HI]. lia.
Qed.

Lemma act_drain_fresh_inv spec st primary secondary now until :
  valid spec → typed spec → Inv spec st → room st → St.phase st ≠ Phase.Completed →
  settled spec st primary secondary now →
  TrafficWeights.primary_percent (St.current_weights st) ≠ target_weight spec (St.direction st) →
  Inv spec (act spec (Drain (St.direction st) (next_step_index st (St.direction st))
     (TrafficWeights.primary_percent (St.current_weights st))
     (weight_after_step (TrafficWeights.primary_percent (St.current_weights st))
        (target_weight spec (St.direction st)) (ShiftPolicy.step_percent (Spec.shift spec))
        (next_step_index st (St.direction st))) until) primary secondary now st).
Proof.
  intros Hv Hty HI Hr Hph Hset Hne. unfold Inv.
  destruct (act_drain_fresh_fields spec st primary secondary now
    (weight_after_step (TrafficWeights.primary_percent (St.current_weights st))
        (target_weight spec (St.direction st)) (ShiftPolicy.step_percent (Spec.shift spec))
        (next_step_index st (St.direction st))) until HI Hr) as (->&->&->&->).
  rewrite next_step_index_eq by (apply HI || by apply room_n_steps).
  set (n := n_steps (St.direction st) (keys (St.steps st))).
  set (new := draining_step _ _ _ _ _ _).
  assert (∀ y, y ∈ St.steps (close_out_soaked_steps (St.direction st) n now st) → closed y) as Hcl.
  { intros y (s&Hs&_&[[-> Hn]|Ho])%close_out_elem; [|by left].
    destruct (Hset s Hs) as [?|[(_&Hd&Hi) [Ho _]]]; [done|]. destruct Hn. split_and!; [done| |done].
    unfold n. lia. }
  assert (keys (St.steps (close_out_soaked_steps (St.direction st) n now st) ++ [new])
          = keys (St.steps st) ++ [(St.direction st, n)]) as Hks.
  { unfold keys at 1. rewrite fmap_app. fold (keys (St.steps (close_out_soaked_steps (St.direction st) n now st))).
    by rewrite close_out_keys. }
  constructor.
  - apply HI.
  - rewrite Hks. apply keys_ok_snoc, HI.
  - intros y [?| ->%list_elem_of_singleton]%elem_of_app [Hd|Hd]; try done; auto.
  - intros y [?| ->%list_elem_of_singleton]%elem_of_app Hd Hncl; [by destruct Hncl; apply Hcl|].
    rewrite Hks, n_steps_app, n_steps_single. simpl. unfold in_dir. simpl.
    by rewrite bool_decide_true.
  - intros y [?| ->%list_elem_of_singleton]%elem_of_app Hd; [by apply closed_live_ok, Hcl|].
    unfold live_ok. simpl. eauto.
Qed.
(** ** The decision table

    What the controller may decide, and on what evidence. *)

Definition cooled_down spec st now : Prop :=
  St.direction st = Dir.Failback → ∀ ready, failback_ready_at spec st = Some ready → (ready <= now)%Z.

Definition may_start spec st primary secondary now (control : PlanControl.t) : Prop :=
  PlanControl.is_suppressed control (St.direction st) = false ∧
  (Spec.trigger spec = FailoverTrigger.Manual → St.direction st = Dir.Failover →
   PlanControl.failover_requested control = true) ∧
  GateDecision.open (evaluate_gate spec (St.direction st) primary secondary now) = true ∧
  cooled_down spec st now.

Definition resting (ph : Phase.t) : bool :=
  match ph with Phase.Failed | Phase.Completed => true | _ => false end.

Inductive decision spec st primary secondary now control : ShiftAction → Prop :=
| decide_idle :
    resting (St.phase st) = true →
    decision spec st primary secondary now control (Idle (St.phase st))
| decide_soak s until :
    resting (St.phase st) = false → newest st s → Step.outcome s = StepOutcome.Applied →
    Step.soak_ends_at s = Some until → (now < until)%Z →
    decision spec st primary secondary now control (Soak (St.direction st) (Step.index s) until)
| decide_abort s until reason :
    resting (St.phase st) = false → newest st s → Step.outcome s = StepOutcome.Applied →
    Step.soak_ends_at s = Some until → (until <= now)%Z →
    f64_gt (soak_error_rate (St.direction st) primary secondary)
      (ShiftPolicy.max_soak_error_rate_percent (Spec.shift spec)) = true →
    decision spec st primary secondary now control (Abort (St.direction st) (Step.index s) reason)
| decide_redrain s started :
    resting (St.phase st) = false → newest st s → Step.outcome s = StepOutcome.Draining →
    Step.drain_started_at s = Some started → (now < drain_deadline spec started)%Z →
    decision spec st primary secondary now control
      (Drain (St.direction st) (Step.index s) (Step.from_primary_weight s)
         (Step.to_primary_weight s) (drain_deadline spec started))
| decide_publish s started :
    resting (St.phase st) = false → newest st s → Step.outcome s = StepOutcome.Draining →
    Step.drain_started_at s = Some started → (drain_deadline spec started <= now)%Z →
    decision spec st primary secondary now control
      (Publish (St.direction st) (Step.index s) (Step.from_primary_weight s) (Step.to_primary_weight s)
         (weighted_record spec (Step.to_primary_weight s) (Step.index s))
         (RoutingRecordSpec.ttl_seconds (Spec.routing spec)))
| decide_complete :
    resting (St.phase st) = false → settled spec st primary secondary now →
    TrafficWeights.primary_percent (St.current_weights st) = target_weight spec (St.direction st) →
    decision spec st primary secondary now control (Complete (St.direction st))
| decide_hold reason :
    resting (St.phase st) = false → settled spec st primary secondary now →
    TrafficWeights.primary_percent (St.current_weights st) ≠ target_weight spec (St.direction st) →
    ¬ may_start spec st primary secondary now control →
    decision spec st primary secondary now control (Hold (St.direction st) reason)
| decide_wait ready reason :
    resting (St.phase st) = false → settled spec st primary secondary now →
    TrafficWeights.primary_percent (St.current_weights st) ≠ target_weight spec (St.direction st) →
    ¬ may_start spec st primary secondary now control →
    St.direction st = Dir.Failback → failback_ready_at spec st = Some ready → (now < ready)%Z →
    decision spec st primary secondary now control (Wait ready reason)
| decide_drain :
    resting (St.phase st) = false → settled spec st primary secondary now →
    TrafficWeights.primary_percent (St.current_weights st) ≠ target_weight spec (St.direction st) →
    may_start spec st primary secondary now control →
    decision spec st primary secondary now control
      (Drain (St.direction st) (next_step_index st (St.direction st))
         (TrafficWeights.primary_percent (St.current_weights st))
         (weight_after_step (TrafficWeights.primary_percent (St.current_weights st))
            (target_weight spec (St.direction st)) (ShiftPolicy.step_percent (Spec.shift spec))
            (next_step_index st (St.direction st))) (drain_deadline spec now)).

Lemma fresh_action_decision spec st primary secondary now control :
  resting (St.phase st) = false → settled spec st primary secondary now →
  decision spec st primary secondary now control (fresh_action spec st primary secondary now control).
Proof.
  intros Hr Hset. unfold fresh_action.
  destruct (Z.eqb_spec (TrafficWeights.primary_percent (St.current_weights st))
              (target_weight spec (St.direction st))) as [Heq|Hne]; [by constructor|].
  destruct (PlanControl.is_suppressed control (St.direction st)) eqn:Hsup.
  { constructor; [done..|]. intros (?&_). congruence. }
  destruct (bool_decide (Spec.trigger spec = FailoverTrigger.Manual)
            && bool_decide (St.direction st = Dir.Failover)
            && negb (PlanControl.failover_requested control)) eqn:Hman.
  { breflect. constructor; [done..|]. intros (_&Hm&_). rewrite Hm in *; done. }
  assert (Spec.trigger spec = FailoverTrigger.Manual → St.direction st = Dir.Failover →
          PlanControl.failover_requested control = true) as Hman'.
  { intros Ht Hd. rewrite !bool_decide_true in Hman by done. by destruct (PlanControl.failover_requested _). }
  destruct (GateDecision.open _) eqn:Hg; cbn [negb].
  2:{ constructor; [done..|]. intros (_&_&?&_). congruence. }
  destruct (St.direction st) eqn:Hd.
  { rewrite <- Hd. apply decide_drain; unfold may_start, cooled_down; rewrite ?Hd; by try split_and!. }
  destruct (failback_ready_at spec st) as [ready|] eqn:Hrd; [destruct (Z.ltb_spec now ready)|].
  - apply decide_wait; unfold may_start, cooled_down; rewrite ?Hd; try done.
    intros (_&_&_&Hc). specialize (Hc eq_refl ready Hrd). lia.
  - rewrite <- Hd. apply decide_drain; unfold may_start, cooled_down; rewrite ?Hd; try done.
    split_and!; try done. intros _ r. rewrite Hrd. by intros [= <-].
  - rewrite <- Hd. apply decide_drain; unfold may_start, cooled_down; rewrite ?Hd; try done.
    split_and!; try done. intros _ r. by rewrite Hrd.
Qed.

Lemma newest_or_closed spec st s :
  Inv spec st → s ∈ St.steps st → closed s ∨ newest st s.
Proof.
  intros HI Hs. destruct (decide (Step.direction s = St.direction st)) as [Hd|Hd].
  - destruct (Step.outcome s) eqn:E;
      try (left; unfold closed; rewrite E; by auto);
      right; split_and!; try done; apply (inv_newest _ _ _ _ _ HI); try done;
      unfold closed; rewrite E; naive_solver.
  - left. apply (inv_closed _ _ _ _ _ HI); auto.
Qed.

(** The status is settled as soon as its newest increment is. *)
Lemma settled_intro spec st primary secondary now :
  Inv spec st → (∀ s, newest st s → closed s ∨ soaked_ok spec primary secondary now s) →
  settled spec st primary secondary now.
Proof.
  intros HI Hn s Hs. destruct (newest_or_closed spec st s HI Hs) as [?|Hnew]; [by left|].
  destruct (Hn s Hnew); auto.
Qed.

Lemma next_action_decision spec st primary secondary now control :
  valid spec → Inv spec st → room st →
  decision spec st primary secondary now control
    (next_action_with_control spec st primary secondary now control).
Proof.
  intros Hv HI Hr. pose proof (inv_keys _ _ _ _ _ HI) as Hk.
  pose proof (room_n_steps st (St.direction st) Hr) as Hn.
  unfold next_action_with_control. rewrite Hv.
  destruct (resting (St.phase st)) eqn:Hrest.
  { destruct (St.phase st) eqn:Hp; try done; rewrite <- Hp; apply decide_idle; by rewrite Hp. }
  assert (settled spec st primary secondary now →
    decision spec st primary secondary now control (fresh_action spec st primary secondary now control))
    as Hfresh by by apply fresh_action_decision.
  enough (decision spec st primary secondary now control
    match pending_step st (St.direction st) (next_step_index st (St.direction st)) with
    | None => fresh_action spec st primary secondary now control
    | Some pending => pending_action spec st primary secondary now control pending
    end) as Hgoal.
  { by destruct (St.phase st). }
  destruct (pending_step _ _ _) as [s|] eqn:Hpend.
  - apply pending_step_Some in Hpend as (Hs&Hd&Hi); [|done..].
    assert (newest st s) as Hnew by done.
    assert (∀ s', newest st s' → s' = s) as Huniq.
    { intros s' (Hs'&Hd'&Hi'). apply (newest_unique st s s'); [done..|]. unfold key.
      rewrite Hd'. f_equal. lia. }
    pose proof (inv_live _ _ _ _ _ HI s Hs Hd) as Hl. unfold live_ok in Hl.
    unfold pending_action.
    destruct (Step.outcome s) eqn:Ho; try done.
    + destruct Hl as (_&_&_&[started Hst]). rewrite Hst. simpl.
      destruct (Z.ltb_spec now (drain_deadline spec started)).
      * by apply decide_redrain.
      * by eapply decide_publish.
    + destruct Hl as (_&[until Hun]). rewrite Hun. simpl.
      destruct (Z.ltb_spec now until); [by eapply decide_soak|].
      destruct (f64_gt _ _) eqn:Hrate; [by eapply decide_abort|].
      apply Hfresh, settled_intro; [done|]. intros s' ->%Huniq. right.
      split_and!; [done|by eauto|by rewrite Hd].
    + apply Hfresh, settled_intro; [done|]. intros s' ->%Huniq. left. by left.
    + apply Hfresh, settled_intro; [done|]. intros s' ->%Huniq. left. by right.
  - apply pending_step_None in Hpend; [|done..].
    apply Hfresh, settled_intro; [done|]. intros s (Hs&Hd&Hi).
    apply elem_of_keys in Hs. unfold key in Hs. rewrite Hd in Hs.
    apply keys_ok_range in Hs; [lia|done].
Qed.

(** With a newest increment on record, the decision is about that one. *)
Lemma next_action_pending spec st primary secondary now control s :
  valid spec → Inv spec st → room st → resting (St.phase st) = false → newest st s →
  next_action_with_control spec st primary secondary now control
  = pending_action spec st primary secondary now control s.
Proof.
  intros Hv HI Hr Hrest Hnew. unfold next_action_with_control. rewrite Hv.
  pose proof (inv_keys _ _ _ _ _ HI) as Hk. pose proof (room_n_steps st (St.direction st) Hr) as Hn.
  assert (pending_step st (St.direction st) (next_step_index st (St.direction st)) = Some s) as ->.
  - destruct (pending_step _ _ _) as [s'|] eqn:Hp.
    + apply pending_step_Some in Hp as (Hs'&Hd'&Hi'); [|done..]. f_equal.
      apply (newest_unique st s s'); try done. unfold key. rewrite Hd'. destruct Hnew as (_&_&?). f_equal. lia.
    + apply pending_step_None in Hp; [|done..]. destruct Hnew as (Hs&_&Hi).
      pose proof (index_nonneg spec st s HI Hs). lia.
  - by destruct (St.phase st).
Qed.

(** When nothing stands in the way, a fresh increment starts. *)
Lemma fresh_action_starts spec st primary secondary now control :
  may_start spec st primary secondary now control →
  TrafficWeights.primary_percent (St.current_weights st) ≠ target_weight spec (St.direction st) →
  fresh_action spec st primary secondary now control
  = Drain (St.direction st) (next_step_index st (St.direction st))
      (TrafficWeights.primary_percent (St.current_weights st))
      (weight_after_step (TrafficWeights.primary_percent (St.current_weights st))
         (target_weight spec (St.direction st)) (ShiftPolicy.step_percent (Spec.shift spec))
         (next_step_index st (St.direction st))) (drain_deadline spec now).
Proof.
  intros (Hsup&Hman&Hgate&Hcool) Hne. unfold fresh_action.
  rewrite (proj2 (Z.eqb_neq _ _) Hne), Hsup.
  destruct (bool_decide (Spec.trigger spec = FailoverTrigger.Manual)
            && bool_decide (St.direction st = Dir.Failover)
            && negb (PlanControl.failover_requested control)) eqn:Hm.
  { breflect. rewrite Hman in *; done. }
  rewrite Hgate. cbn [negb]. unfold cooled_down in Hcool. destruct (St.direction st); [done|].
  destruct (failback_ready_at spec st) as [r|]; [|done].
  specialize (Hcool eq_refl r eq_refl). by rewrite (proj2 (Z.ltb_ge _ _) Hcool).
Qed.

(** ** One cycle *)

(** The fields the invariant is about. *)
Definition core st : Phase.t * Dir.t * TrafficWeights.t * list Step.t :=
  (St.phase st, St.direction st, St.current_weights st, St.steps st).

Lemma core_fields st st' :
  core st = core st' →
  St.phase st = St.phase st' ∧ St.direction st = St.direction st' ∧
  St.current_weights st = St.current_weights st' ∧ St.steps st = St.steps st'.
Proof. unfold core. by intros [= -> -> -> ->]. Qed.

Lemma Inv_core spec st st' : core st = core st' → Inv spec st ↔ Inv spec st'.
Proof. unfold core, Inv. by intros [= -> -> -> ->]. Qed.

Lemma room_core st st' : core st = core st' → room st ↔ room st'.
Proof. unfold core, room. by intros [= _ _ _ ->]. Qed.

Lemma upsert_step_core step st st' :
  core st = core st' → core (upsert_step step st) = core (upsert_step step st').
Proof.
  unfold core, upsert_step. intros [= Hp Hd Hw Hs]. rewrite Hs. case_match; simpl; congruence.
Qed.

Lemma close_out_core d i now st st' :
  core st = core st' → core (close_out_soaked_steps d i now st) = core (close_out_soaked_steps d i now st').
Proof. unfold core, close_out_soaked_steps. simpl. by intros [= -> -> -> ->]. Qed.

Lemma start_if_new_core now st : core (start_if_new now st) = core st.
Proof. unfold start_if_new. by case_match. Qed.

(** An action's effect on the core depends on the core only. *)
Lemma act_core spec action primary secondary now st st' :
  core st = core st' →
  core (act spec action primary secondary now st) = core (act spec action primary secondary now st').
Proof.
  intros Hc. pose proof Hc as [= Hp Hd Hw Hs].
  destruct action; cbn [act].
  - unfold core. simpl. congruence.
  - unfold core. simpl. rewrite Hp. case_match; simpl; congruence.
  - unfold core. simpl. congruence.
  - apply upsert_step_core, close_out_core. rewrite !start_if_new_core.
    unfold core. simpl. congruence.
  - rewrite !publish_commutes. unfold core. cbn.
    match goal with |- context [upsert_step ?x (close_out_soaked_steps ?d ?i now (start_if_new now ?a))] =>
      assert (core (upsert_step x (close_out_soaked_steps d i now (start_if_new now a)))
              = core (upsert_step x (close_out_soaked_steps d i now
                  (start_if_new now (St.set_phase Phase.Shifting (St.set_direction d st')))))) as Hcc
    end.
    { apply upsert_step_core, close_out_core. rewrite !start_if_new_core. unfold core. simpl. congruence. }
    injection Hcc as -> -> _ ->. done.
  - unfold core. simpl. congruence.
  - unfold core. case_bool_decide; simpl; congruence.
  - unfold core. simpl. congruence.
  - unfold core. simpl. congruence.
Qed.

Lemma apply_action_core spec st action primary secondary now :
  core (apply_action spec st action primary secondary now)
  = core (act spec action primary secondary now st).
Proof.
  unfold apply_action.
  match goal with |- core (St.set_steps_completed _ ?x) = _ => transitivity (core x); [done|] end.
  apply act_core. by case_bool_decide.
Qed.

Lemma refresh_core clk spec secondary st : core (refresh clk spec secondary st) = core st.
Proof. unfold refresh, core. simpl. repeat case_match; done. Qed.

Lemma act_inv spec st primary secondary now control action :
  valid spec → typed spec → Inv spec st → room st →
  decision spec st primary secondary now control action →
  Inv spec (act spec action primary secondary now st).
Proof.
  intros Hv Hty HI Hr Hdec.
  assert (resting (St.phase st) = false → St.phase st ≠ Phase.Completed) as Hph by (by intros Hr' E; rewrite E in Hr').
  destruct Hdec.
  - unfold Inv in *. done.
  - apply act_soak_inv; auto.
  - apply act_abort_inv; auto.
  - apply act_redrain_inv; auto.
  - apply act_publish_inv; auto.
  - apply act_complete_inv; auto.
  - unfold Inv. cbn. case_match; simpl; [|done]. eapply inv_set_phase; [done|exact HI].
  - unfold Inv. cbn. eapply inv_set_phase; [done|exact HI].
  - apply act_drain_fresh_inv; auto.
Qed.
End actions.
