(* ===== verification/TrafficShiftProps.v ===== *)
(** * The traffic-shift controller: theorems

    Runs of the controller over arbitrary sequences of inputs, and the theorems
    about them: safety of every weight change, coherence of the status, progress,
    and the behaviour of the gate on probe evidence. *)

From stdpp Require Import prelude strings gmap list.
From S2P Require Import Prelude RustStr Float64 Json Conditions TrafficShiftTypes TrafficShift TrafficShiftFacts.

(** ** Runs *)

Module Input.

(** What one cycle reads from outside. *)
Record t := mk {
  clk : nat → string;
  primary : Ev.t;
  secondary : Ev.t;
  generation : Z;
  now : DateTime;
  control : PlanControl.t;
}.

End Input.

Section runs.
Context `{Chrono}.
Implicit Types (spec : Spec.t) (st : St.t) (i : Input.t).

(** The status a cycle leaves behind, on success and on failure. *)
Definition status_of (r : result St.t (St.t * string)) : St.t :=
  match r with Ok st => st | Err (st, _) => st end.

Definition cycle spec st i : St.t :=
  status_of (reconcile_cycle_with_control (Input.clk i) spec st (Input.primary i) (Input.secondary i)
               (Input.generation i) (Input.now i) (Input.control i)).

Definition prepared spec st i : St.t :=
  prepare spec st (Input.primary i) (Input.secondary i) (Input.generation i) (Input.now i).

Definition chosen spec st i : ShiftAction :=
  next_action_with_control spec (prepared spec st i) (Input.primary i) (Input.secondary i)
    (Input.now i) (Input.control i).

(** The status after the action, before the derived fields are refreshed. *)
Definition acted spec st i : St.t :=
  apply_action spec (prepared spec st i) (chosen spec st i) (Input.primary i) (Input.secondary i) (Input.now i).

Lemma reconcile_eq spec st i :
  reconcile_cycle_with_control (Input.clk i) spec st (Input.primary i) (Input.secondary i)
    (Input.generation i) (Input.now i) (Input.control i)
  = match chosen spec st i with
    | Fail reason => Err (refresh (Input.clk i) spec (Input.secondary i) (acted spec st i), reason)
    | _ => Ok (refresh (Input.clk i) spec (Input.secondary i) (acted spec st i))
    end.
Proof. unfold reconcile_cycle_with_control, acted, chosen, prepared. cbv zeta. reflexivity. Qed.

Lemma cycle_eq spec st i :
  cycle spec st i = refresh (Input.clk i) spec (Input.secondary i) (acted spec st i).
Proof. unfold cycle. rewrite reconcile_eq. by destruct (chosen spec st i). Qed.

Lemma cycle_core spec st i :
  core (cycle spec st i)
  = core (act spec (chosen spec st i) (Input.primary i) (Input.secondary i) (Input.now i)
            (prepared spec st i)).
Proof. rewrite cycle_eq, refresh_core. apply apply_action_core. Qed.

(** A status no cycle has written yet. *)
Definition unset (w : TrafficWeights.t) : bool :=
  ((TrafficWeights.primary_percent w =? 0) && (TrafficWeights.secondary_percent w =? 0))%Z.

Definition good spec st : Prop :=
  Inv spec st ∨ core st = (Phase.Idle, Dir.Failover, TrafficWeights.mk 0 0, []).

Lemma weights_ok_set w : weights_ok w → unset w = false.
Proof. unfold weights_ok, unset. intros [Hp Hs]. apply andb_false_iff. rewrite !Z.eqb_neq. lia. Qed.

(** [prepare] keeps the core of a status, except that it gives a new one its
    initial shares and turns a completed one around. *)
Definition turned_around spec st i : Prop :=
  let p := prepared spec st i in
  St.phase st = Phase.Completed ∧
  TrafficWeights.primary_percent (St.current_weights st) = target_weight spec (St.direction st) ∧
  St.direction p ≠ St.direction st ∧
  core p = (Phase.Gated, St.direction p, St.current_weights st, St.steps st) ∧
  GateDecision.open (evaluate_gate spec (St.direction p) (Input.primary i) (Input.secondary i)
    (Input.now i)) = true.

Lemma desired_direction_change spec st primary secondary now :
  desired_direction spec st primary secondary now ≠ St.direction st →
  St.phase st = Phase.Completed ∧
  TrafficWeights.primary_percent (St.current_weights st) = target_weight spec (St.direction st) ∧
  GateDecision.open (evaluate_gate spec (desired_direction spec st primary secondary now)
                       primary secondary now) = true.
Proof.
  unfold desired_direction.
  destruct (Z.eqb_spec (TrafficWeights.primary_percent (St.current_weights st))
              (target_weight spec (St.direction st))); simpl; [|done].
  case_bool_decide; destruct (St.direction st); try done;
    destruct (_ && _) eqn:Hb; try done;
    apply andb_true_iff in Hb as [_ Hg]; auto.
Qed.

Lemma prepared_unset spec st i :
  unset (St.current_weights st) = true → St.phase st = Phase.Idle →
  core (prepared spec st i)
  = (Phase.Idle, St.direction st, TrafficWeights.from_primary_percent
       (RoutingRecordSpec.initial_primary_weight (Spec.routing spec)), St.steps st).
Proof.
  intros Hu Hp. unfold prepared, prepare. cbv zeta. unfold unset in Hu. rewrite Hu.
  cbn [St.phase St.set_health St.set_last_evaluated_at St.set_observed_generation St.set_current_weights].
  rewrite Hp. unfold core. cbn. by rewrite Hp.
Qed.

Lemma prepared_set spec st i :
  unset (St.current_weights st) = false →
  core (prepared spec st i) = core st ∨ turned_around spec st i.
Proof.
  intros Hu. unfold turned_around. cbv zeta. unfold prepared, prepare. cbv zeta. unfold unset in Hu. rewrite Hu.
  set (st1 := St.set_health _ _).
  assert (core st1 = core st) as Hc1 by done.
  destruct (Phase.is_terminal (St.phase st1)); [|by left].
  case_bool_decide as Hd; [by left|]. right.
  destruct (desired_direction_change _ _ _ _ _ Hd) as (Hp&Hw&Hg).
  by split_and!.
Qed.

Lemma prepared_Inv spec st i :
  valid spec → typed spec → good spec st → Inv spec (prepared spec st i).
Proof.
  intros Hv Hty [HI|Hc].
  - destruct (prepared_set spec st i) as [Hc|(Hp&Hw&Hd&Hc&_)].
    + apply weights_ok_set, HI.
    + by apply (Inv_core _ _ _ Hc).
    + unfold Inv. destruct (core_fields (prepared spec st i) (St.set_phase Phase.Gated (St.set_direction (St.direction (prepared spec st i)) st)) Hc) as (->&_&->&->). destruct HI as [Hwok Hk Hcl Hn Hl].
      assert (∀ s, s ∈ St.steps st → closed s) as Hall by (intros; apply Hcl; auto).
      constructor; try done; eauto using closed_live_ok.
      intros s Hs _ Hncl. destruct Hncl. auto.
  - injection Hc as Hp Hd Hw Hs. unfold Inv.
    assert (core (prepared spec st i)
      = (Phase.Idle, Dir.Failover, TrafficWeights.from_primary_percent
           (RoutingRecordSpec.initial_primary_weight (Spec.routing spec)), [])) as Hc.
    { rewrite prepared_unset by (done || by rewrite Hw). by rewrite Hd, Hs. }
    injection Hc as -> -> -> ->.
    constructor; try by (intros ? ?%not_elem_of_nil).
    + apply from_primary_percent_ok. by apply (valid_target spec Dir.Failback).
    + by intros d.
Qed.

Lemma prepared_steps spec st i : St.steps (prepared spec st i) = St.steps st.
Proof. unfold prepared, prepare. cbv zeta. repeat case_match; done. Qed.

Lemma chosen_decision spec st i :
  valid spec → typed spec → good spec st → room st →
  decision spec (prepared spec st i) (Input.primary i) (Input.secondary i) (Input.now i)
    (Input.control i) (chosen spec st i).
Proof.
  intros Hv Hty Hg Hr. apply next_action_decision; [done|by apply prepared_Inv|].
  unfold room in *. by rewrite prepared_steps.
Qed.

Lemma cycle_Inv spec st i :
  valid spec → typed spec → good spec st → room st → Inv spec (cycle spec st i).
Proof.
  intros Hv Hty Hg Hr. apply (Inv_core _ _ _ (cycle_core spec st i)).
  eapply act_inv; eauto using prepared_Inv, chosen_decision.
  unfold room in *. by rewrite prepared_steps.
Qed.

Lemma length_upsert_step step st :
  length (St.steps (upsert_step step st)) <= S (length (St.steps st)).
Proof.
  unfold upsert_step. case_match; simpl; rewrite ?length_update_first, ?length_app; simpl; lia.
Qed.

Lemma length_close_out d n now st :
  length (St.steps (close_out_soaked_steps d n now st)) = length (St.steps st).
Proof. unfold close_out_soaked_steps. simpl. by rewrite length_fmap. Qed.

(** A cycle records at most one new increment. *)
Lemma length_act spec action primary secondary now st :
  length (St.steps (act spec action primary secondary now st)) <= S (length (St.steps st)).
Proof.
  destruct action; cbn [act]; try (simpl; rewrite ?length_update_first; lia).
  - case_match; simpl; lia.
  - etrans; [apply length_upsert_step|]. rewrite length_close_out.
    by rewrite (proj1 (start_if_new_fields _ _)).
  - rewrite publish_commutes. cbn. etrans; [apply length_upsert_step|]. rewrite length_close_out.
    by rewrite (proj1 (start_if_new_fields _ _)).
  - case_bool_decide; simpl; rewrite length_update_last; lia.
Qed.

Lemma length_cycle spec st i : length (St.steps (cycle spec st i)) <= S (length (St.steps st)).
Proof.
  pose proof (cycle_core spec st i) as [= _ _ _ ->]. etrans; [apply length_act|].
  by rewrite prepared_steps.
Qed.

(** The history of a controller: the statuses it read, with the inputs. *)
Inductive run spec : list (St.t * Input.t) → St.t → Prop :=
| run_start : run spec [] St.default
| run_cycle h st i : run spec h st → run spec (h ++ [(st, i)]) (cycle spec st i).

(** Increments are numbered with 32 bits, so histories are bounded. *)
Definition bounded {A} (h : list A) : Prop := (Z.of_nat (length h) < 2 ^ 32)%Z.

Lemma run_length spec h st : run spec h st → length (St.steps st) <= length h.
Proof.
  induction 1 as [|h st i Hr IH]; [done|]. rewrite length_app. simpl.
  etrans; [apply length_cycle|]. lia.
Qed.

Lemma run_room spec h st : run spec h st → bounded h → room st.
Proof. intros Hl%run_length Hb. unfold room, bounded in *. lia. Qed.

Lemma bounded_app {A} (h1 h2 : list A) : bounded (h1 ++ h2) → bounded h1.
Proof. unfold bounded. rewrite length_app. lia. Qed.

Lemma run_good spec h st : valid spec → typed spec → bounded h → run spec h st → good spec st.
Proof.
  intros Hv Hty Hb Hrun. induction Hrun as [|h st i Hr IH]; [by right|].
  apply bounded_app in Hb. left. apply cycle_Inv; eauto using run_room.
Qed.

(** ** Safety of weight changes *)

(** The share of the primary that the routing record carries. *)
Definition share st : Z := TrafficWeights.primary_percent (St.current_weights st).

Lemma act_share spec st primary secondary now control action :
  valid spec → typed spec → Inv spec st → room st →
  decision spec st primary secondary now control action →
  share (act spec action primary secondary now st) ≠ share st →
  ∃ s started, newest st s ∧ Step.outcome s = StepOutcome.Draining ∧
    Step.drain_started_at s = Some started ∧ (drain_deadline spec started <= now)%Z ∧
    action = Publish (St.direction st) (Step.index s) (share st) (Step.to_primary_weight s)
               (weighted_record spec (Step.to_primary_weight s) (Step.index s))
               (RoutingRecordSpec.ttl_seconds (Spec.routing spec)) ∧
    share (act spec action primary secondary now st) = Step.to_primary_weight s ∧
    Step.to_primary_weight s
    = weight_after_step (share st) (target_weight spec (St.direction st))
        (ShiftPolicy.step_percent (Spec.shift spec)) (Step.index s).
Proof.
  intros Hv Hty HI Hr Hdec Hne.
  destruct Hdec as [?|s until ? Hnew|s until reason ? Hnew|s started ? Hnew Hos Hst|s started ? Hnew Hos Hst
    |? Hset Hcur|reason|ready reason|? Hset Hcur Hms]; try (by destruct Hne).
  - destruct Hne. unfold share. cbn [act].
    destruct (record_newest spec st s now Phase.Draining
      (draining_step spec (St.direction st) (Step.index s) (Step.from_primary_weight s)
         (Step.to_primary_weight s) now) HI Hnew eq_refl eq_refl) as (_&_&->&_). done.
  - pose proof (draining_to_range spec st s Hv Hty HI Hnew Hos) as Hto.
    assert (live_ok spec (share st) s) as Hl by (apply (inv_live _ _ _ _ _ HI); apply Hnew).
    unfold live_ok in Hl. rewrite Hos in Hl. destruct Hl as (Hf&_&Ht&_).
    exists s, started. rewrite Hf. split_and!; try done.
    + unfold share. cbn. lia.
    + by rewrite Ht, (proj1 (proj2 Hnew)).
  - destruct Hne. pose proof (valid_target spec (St.direction st) Hv Hty). unfold share. cbn [act].
    rewrite Hcur. case_bool_decide; cbn; lia.
  - destruct Hne. unfold share. cbn. by case_match.
  - destruct Hne. unfold share.
    destruct (act_drain_fresh_fields spec st primary secondary now
      (weight_after_step (TrafficWeights.primary_percent (St.current_weights st))
        (target_weight spec (St.direction st)) (ShiftPolicy.step_percent (Spec.shift spec))
        (next_step_index st (St.direction st))) (drain_deadline spec now) HI Hr) as (_&_&->&_).
    done.
Qed.

(** Where a draining increment comes from. *)
Lemma act_draining spec st primary secondary now control action y :
  Inv spec st → room st → decision spec st primary secondary now control action →
  y ∈ St.steps (act spec action primary secondary now st) → Step.outcome y = StepOutcome.Draining →
  (∃ s, s ∈ St.steps st ∧ Step.outcome s = StepOutcome.Draining ∧ key y = key s ∧
        Step.drain_started_at y = Step.drain_started_at s) ∨
  (settled spec st primary secondary now ∧ may_start spec st primary secondary now control ∧
   Step.direction y = St.direction st ∧ Step.drain_started_at y = Some now).
Proof.
  intros HI Hr Hdec Hy Ho.
  assert (keys_ok (keys (St.steps st))) as Hk by apply HI.
  destruct Hdec as [?|s until ? Hnew|s until reason ? Hnew|s started ? Hnew Hos Hst|s started ? Hnew Hos Hst
    |? Hset ?|reason|ready reason|? Hset Hcur Hms].
  - left. eauto.
  - cbn in Hy. destruct (elem_of_update_step _ _ _ _ _ Hk Hy) as [[? _]|(x&Hx&_&->)]; left; eauto.
  - cbn in Hy. destruct (elem_of_update_step _ _ _ _ _ Hk Hy) as [[? _]|(x&Hx&_&->)]; [left; eauto|done].
  - left. revert Hy. cbn [act].
    destruct (record_newest spec st s now Phase.Draining
      (draining_step spec (St.direction st) (Step.index s) (Step.from_primary_weight s)
         (Step.to_primary_weight s) now) HI Hnew eq_refl eq_refl) as (_&_&_&->).
    intros Hy. destruct (elem_of_update_step _ _ _ _ _ Hk Hy) as [[? _]|(x&Hx&Hkx&->)]; [eauto|].
    assert (x = s) as -> by by apply (newest_unique st). exists s. unfold key in *. simpl.
    rewrite Hst. destruct Hnew as (?&Hd&_). by rewrite Hd.
  - left. revert Hy. cbn [act]. rewrite publish_commutes. cbn.
    destruct (record_newest spec st s now Phase.Shifting
      (applied_step spec (St.direction st) (Step.index s) (Step.from_primary_weight s)
         (Step.to_primary_weight s) (weighted_record spec (Step.to_primary_weight s) (Step.index s))
         (RoutingRecordSpec.ttl_seconds (Spec.routing spec)) now) HI Hnew eq_refl eq_refl) as (_&_&_&->).
    intros Hy. destruct (elem_of_update_step _ _ _ _ _ Hk Hy) as [[? _]|(x&Hx&Hkx&->)]; [eauto|done].
  - left. revert Hy. cbn [act]. intros Hy.
    assert (y ∈ update_last (of_direction (St.direction st)) (complete_step now) (St.steps st)) as Hy'
      by (revert Hy; by case_bool_decide).
    apply elem_of_update_last in Hy' as [?|(x&Hx&_&->)]; [eauto|]. revert Ho. unfold complete_step.
    clear Hy. case_bool_decide; [done|eauto].
  - left. revert Hy. cbn. case_match; eauto.
  - left. eauto.
  - revert Hy.
    destruct (act_drain_fresh_fields spec st primary secondary now
      (weight_after_step (TrafficWeights.primary_percent (St.current_weights st))
        (target_weight spec (St.direction st)) (ShiftPolicy.step_percent (Spec.shift spec))
        (next_step_index st (St.direction st))) (drain_deadline spec now) HI Hr) as (_&_&_&->).
    intros [(s&Hs&Hks&[[-> _]|?])%close_out_elem| ->%list_elem_of_singleton]%elem_of_app;
      [left; eauto|congruence|by right].
Qed.

(** The cycle that started a drain: the decision was taken on that cycle's
    evidence and overrides, with nothing else in flight. *)
Definition authorised spec st0 (i0 : Input.t) (d : Dir.t) : Prop :=
  let p0 := prepared spec st0 i0 in
  St.direction p0 = d ∧
  settled spec p0 (Input.primary i0) (Input.secondary i0) (Input.now i0) ∧
  may_start spec p0 (Input.primary i0) (Input.secondary i0) (Input.now i0) (Input.control i0).

Lemma run_draining spec h st s :
  valid spec → typed spec → bounded h → run spec h st →
  s ∈ St.steps st → Step.outcome s = StepOutcome.Draining →
  ∃ st0 i0, (st0, i0) ∈ h ∧ authorised spec st0 i0 (Step.direction s) ∧
            Step.drain_started_at s = Some (Input.now i0).
Proof.
  intros Hv Hty Hb Hrun. revert s. induction Hrun as [|h st i Hr IH]; [by intros s ?%not_elem_of_nil|].
  pose proof (bounded_app _ _ Hb) as Hb'. specialize (IH Hb').
  pose proof (run_good _ _ _ Hv Hty Hb' Hr) as Hg. pose proof (run_room _ _ _ Hr Hb') as Hroom.
  intros y Hy Ho. pose proof (cycle_core spec st i) as [= _ _ _ Hs]. rewrite Hs in Hy.
  destruct (act_draining spec (prepared spec st i) (Input.primary i) (Input.secondary i) (Input.now i)
    (Input.control i) (chosen spec st i) y) as [(s&Hin&Hos&Hks&Hdr)|(Hset&Hms&Hd&Hdr)].
  - by apply prepared_Inv.
  - unfold room. by rewrite prepared_steps.
  - by apply chosen_decision.
  - done.
  - done.
  - rewrite prepared_steps in Hin. destruct (IH s Hin Hos) as (st0&i0&Hin0&Hau&Hdr0).
    exists st0, i0. rewrite elem_of_app. injection Hks as Hd _. rewrite Hd, Hdr. auto.
  - exists st, i. rewrite elem_of_app, list_elem_of_singleton. unfold authorised. rewrite Hd. auto 6.
Qed.

Lemma moved_closer from target amount :
  from ≠ target → (0 < amount)%Z →
  (Z.abs (moved_towards from target amount - target) < Z.abs (from - target))%Z.
Proof. unfold moved_towards. intros. case_match; breflect; lia. Qed.

(** C1: Every change of the published share, in any run of the controller, is the
    publication of one increment whose drain was started in an earlier cycle:
    that cycle saw the gate of the direction open on its own evidence, the
    direction not suppressed, the failover requested when the plan is manual,
    the failback cooldown elapsed, and every earlier increment soaked within
    its error budget.  The drain period has elapsed since then, the record
    published carries the new share, and the share moved strictly towards the
    target of the direction. *)
Theorem weight_change_is_authorised spec h st i :
  valid spec → typed spec → bounded h → run spec h st →
  let p := prepared spec st i in
  share (cycle spec st i) ≠ share p →
  ∃ st0 i0 idx,
    (st0, i0) ∈ h ∧ authorised spec st0 i0 (St.direction p) ∧
    (drain_deadline spec (Input.now i0) <= Input.now i)%Z ∧
    chosen spec st i
    = Publish (St.direction p) idx (share p) (share (cycle spec st i))
        (weighted_record spec (share (cycle spec st i)) idx)
        (RoutingRecordSpec.ttl_seconds (Spec.routing spec)) ∧
    (Z.abs (share (cycle spec st i) - target_weight spec (St.direction p))
     < Z.abs (share p - target_weight spec (St.direction p)))%Z.
Proof.
  intros Hv Hty Hb Hrun p Hne.
  pose proof (run_good _ _ _ Hv Hty Hb Hrun) as Hg. pose proof (run_room _ _ _ Hrun Hb) as Hroom.
  assert (Inv spec p) as HI by by apply prepared_Inv.
  assert (room p) as Hrp by (unfold room, p; by rewrite prepared_steps).
  pose proof (cycle_core spec st i) as Hcc. injection Hcc as _ _ Hw _.
  assert (share (cycle spec st i)
    = share (act spec (chosen spec st i) (Input.primary i) (Input.secondary i) (Input.now i) p)) as Hsh.
  { unfold share. by rewrite Hw. }
  rewrite Hsh in Hne.
  destruct (act_share spec p _ _ _ _ _ Hv Hty HI Hrp (chosen_decision spec st i Hv Hty Hg Hroom) Hne)
    as (s&started&Hnew&Ho&Hst&Hdl&Hpub&Hto&Hws).
  destruct Hnew as (Hin&Hd&Hi). pose proof (index_nonneg spec p s HI Hin).
  unfold p in Hin. rewrite prepared_steps in Hin.
  destruct (run_draining spec h st s Hv Hty Hb Hrun Hin Ho) as (st0&i0&Hin0&Hau&Hdr).
  exists st0, i0, (Step.index s). rewrite Hdr in Hst. injection Hst as <-.
  rewrite Hsh, Hto. rewrite <- Hd. split_and!; try done; [by rewrite Hd|].
  assert (live_ok spec (share p) s) as Hl.
  { apply (inv_live _ _ _ _ _ HI); [unfold p; by rewrite prepared_steps|done]. }
  unfold live_ok in Hl. rewrite Ho in Hl. destruct Hl as (_&Hnt&_). fold p in Hws. rewrite Hws, <- Hd.
  destruct (inv_weights _ _ _ _ _ HI) as [Hwr _]. fold (share p) in Hwr.
  pose proof (valid_target spec (Step.direction s) Hv Hty). pose proof (valid_step spec Hv Hty).
  rewrite weight_after_step_eq by lia. apply moved_closer; [done|nia].
Qed.

(** ** Coherence of the status *)

(** What an action does to the published record. *)
Lemma upsert_step_record step st :
  St.applied_record (upsert_step step st) = St.applied_record st.
Proof. unfold upsert_step. by case_match. Qed.

Lemma act_record spec action primary secondary now st :
  St.applied_record (act spec action primary secondary now st)
  = match action with Publish _ _ _ _ record _ => Some record | _ => St.applied_record st end.
Proof.
  destruct action; cbn [act]; try done.
  - by case_match.
  - rewrite upsert_step_record. unfold start_if_new. cbn. by case_match.
  - cbn. by rewrite upsert_step_record.
  - by case_bool_decide.
Qed.

Lemma cycle_record spec st i :
  St.applied_record (cycle spec st i)
  = match chosen spec st i with Publish _ _ _ _ record _ => Some record | _ => St.applied_record st end.
Proof.
  assert (St.applied_record (prepared spec st i) = St.applied_record st) as <-.
  { unfold prepared, prepare. cbv zeta. repeat case_match; done. }
  rewrite cycle_eq. transitivity (St.applied_record (acted spec st i)).
  - generalize (acted spec st i). intros x. unfold refresh. cbn. by repeat case_match.
  - unfold acted, apply_action.
    match goal with |- St.applied_record (St.set_steps_completed _ ?x) = _ =>
      transitivity (St.applied_record x); [done|] end.
    rewrite act_record. destruct (chosen spec st i); try done; by case_bool_decide.
Qed.

Definition record_current spec st : Prop :=
  ∀ r, St.applied_record st = Some r → ∃ idx, r = weighted_record spec (share st) idx.

Lemma prepared_share spec st i :
  unset (St.current_weights st) = false → share (prepared spec st i) = share st.
Proof.
  intros Hu. unfold share.
  by destruct (prepared_set spec st i Hu) as [[= _ _ -> _]|(_&_&_&[= _ -> _]&_)].
Qed.

Lemma cycle_share spec st i :
  share (cycle spec st i)
  = share (act spec (chosen spec st i) (Input.primary i) (Input.secondary i) (Input.now i)
             (prepared spec st i)).
Proof. unfold share. by pose proof (cycle_core spec st i) as [= _ _ -> _]. Qed.

(** A published record carries the new share. *)
Lemma publish_share spec st i d idx from to record ttl :
  valid spec → typed spec → good spec st → room st →
  chosen spec st i = Publish d idx from to record ttl →
  share (cycle spec st i) = to ∧ record = weighted_record spec to idx.
Proof.
  intros Hv Hty Hg Hr Hch. rewrite cycle_share.
  pose proof (chosen_decision spec st i Hv Hty Hg Hr) as Hdec. rewrite Hch in *.
  inversion Hdec as [| | | |s started Hrest Hnew Ho Hst Hdl| | | |]; subst.
  split; [|done]. unfold share. cbn.
  pose proof (draining_to_range spec _ s Hv Hty (prepared_Inv spec st i Hv Hty Hg) Hnew Ho). lia.
Qed.

(** Without a publication the share stays. *)
Lemma no_publish_share spec st i :
  valid spec → typed spec → good spec st → room st →
  mutates_traffic (chosen spec st i) = false → share (cycle spec st i) = share (prepared spec st i).
Proof.
  intros Hv Hty Hg Hr Hm. rewrite cycle_share.
  destruct (decide (share (act spec (chosen spec st i) (Input.primary i) (Input.secondary i)
    (Input.now i) (prepared spec st i)) = share (prepared spec st i))) as [|Hne]; [done|].
  destruct (act_share spec (prepared spec st i) (Input.primary i) (Input.secondary i) (Input.now i)
    (Input.control i) (chosen spec st i)) as (s&started&_&_&_&_&Hp&_); try done.
  - by apply prepared_Inv.
  - unfold room. by rewrite prepared_steps.
  - by apply chosen_decision.
  - by rewrite Hp in Hm.
Qed.

Lemma cycle_set spec st i :
  valid spec → typed spec → good spec st → room st → unset (St.current_weights (cycle spec st i)) = false.
Proof. intros. by apply weights_ok_set, (cycle_Inv spec st i). Qed.

Lemma run_record spec h st :
  valid spec → typed spec → (Z.of_nat (length h) <= 2 ^ 32)%Z → run spec h st →
  St.applied_record st = None ∨ (unset (St.current_weights st) = false ∧ record_current spec st).
Proof.
  intros Hv Hty Hb Hrun. induction Hrun as [|h st i Hr IH]; [by left|].
  rewrite length_app in Hb. simpl in Hb. specialize (IH ltac:(lia)).
  assert (bounded h) as Hb' by (unfold bounded; lia).
  pose proof (run_good _ _ _ Hv Hty Hb' Hr) as Hg. pose proof (run_room _ _ _ Hr Hb') as Hroom.
  destruct (mutates_traffic (chosen spec st i)) eqn:Hm.
  - destruct (chosen spec st i) as [| | | |d idx from to record ttl| | | |] eqn:Hch; try done.
    destruct (publish_share _ _ _ _ _ _ _ _ _ Hv Hty Hg Hroom Hch) as [Hsh ->].
    right. split; [by apply cycle_set|]. intros r. rewrite cycle_record, Hch, Hsh. intros [= <-]. eauto.
  - pose proof (no_publish_share spec st i Hv Hty Hg Hroom Hm) as Hsh.
    assert (St.applied_record (cycle spec st i) = St.applied_record st) as Hrec.
    { rewrite cycle_record. by destruct (chosen spec st i). }
    destruct IH as [IH|[Hu IH]]; [left; congruence|right]. split; [by apply cycle_set|].
    intros r. rewrite Hrec, Hsh, prepared_share by done. apply IH.
Qed.

(** What an increment of the direction in flight says of the published share [p]: a draining one
    starts from [p] and leads strictly closer to the target, a published one led to [p]. *)
Definition agrees (spec : Spec.t) (p : Z) (s : Step.t) : Prop :=
  let target := target_weight spec (Step.direction s) in
  match Step.outcome s with
  | StepOutcome.Draining =>
      Step.from_primary_weight s = p ∧ (0 <= Step.to_primary_weight s <= 100)%Z
      ∧ (Z.abs (Step.to_primary_weight s - target) < Z.abs (p - target))%Z ∧ is_Some (Step.drain_started_at s)
  | StepOutcome.Applied => Step.to_primary_weight s = p ∧ is_Some (Step.soak_ends_at s)
  | StepOutcome.Succeeded | StepOutcome.Aborted => True
  | StepOutcome.Pending | StepOutcome.Failed => False
  end.

Record coherent (spec : Spec.t) (st : St.t) : Prop := {
  co_shares : weights_ok (St.current_weights st);
  co_numbered : keys_ok (keys (St.steps st));
  co_closed : ∀ s, s ∈ St.steps st → Step.direction s ≠ St.direction st ∨ St.phase st = Phase.Completed → closed s;
  co_newest : ∀ s, s ∈ St.steps st → ¬ closed s → (Step.index s + 1 = n_steps (St.direction st) (keys (St.steps st)))%Z;
  co_agrees : ∀ s, s ∈ St.steps st → Step.direction s = St.direction st → agrees spec (share st) s;
}.

Lemma Inv_coherent spec st : valid spec → typed spec → Inv spec st → coherent spec st.
Proof.
  intros Hv Hty HI. pose proof (inv_weights _ _ _ _ _ HI) as [Hw _]. split; try apply HI.
  - intros s Hs Hc. destruct (decide (Step.direction s = St.direction st)) as [Hd|Hd]; [by apply (inv_newest _ _ _ _ _ HI)|].
    destruct Hc. apply (inv_closed _ _ _ _ _ HI s Hs). by left.
  - intros s Hs Hd. pose proof (inv_live _ _ _ _ _ HI s Hs Hd) as Hl. fold (share st) in Hl, Hw. unfold live_ok, agrees in *.
    destruct (Step.outcome s) eqn:Ho; try done. destruct Hl as (Hf & Hne & Hto & Hdr).
    assert (newest st s) as Hnew.
    { split_and!; [done|done|]. apply (inv_newest _ _ _ _ _ HI s Hs Hd). unfold closed. rewrite Ho. by intros [?|?]. }
    split_and!; [done|apply (draining_to_range spec st s)..| |done]; try done.
    pose proof (valid_target spec (Step.direction s) Hv Hty). pose proof (valid_step spec Hv Hty). pose proof (index_nonneg spec st s HI Hs).
    rewrite Hto, weight_after_step_eq by lia. apply moved_closer; [done|nia].
Qed.

(** C28: After any number of cycles the status is coherent: the two shares partition
    100%, the increments of each direction are numbered without gaps in order, only
    the newest increment of the current direction can be open, and none once the
    direction is completed; a draining one starts from the published share and leads
    strictly closer to the target, a published one led to the share; and the routing
    record last published carries exactly the shares of the status. *)
Theorem every_status_is_coherent spec h st i :
  valid spec → typed spec → bounded h → run spec h st →
  coherent spec (cycle spec st i) ∧ record_current spec (cycle spec st i).
Proof.
  intros Hv Hty Hb Hrun. split.
  { apply Inv_coherent; [done..|]. apply cycle_Inv; eauto using run_good, run_room. }
  destruct (run_record spec (h ++ [(st, i)]) (cycle spec st i)) as [Hn|[_ ?]]; try done.
  - unfold bounded in Hb. rewrite length_app. simpl. lia.
  - by constructor.
  - intros r. by rewrite Hn.
Qed.

(** ** Progress *)

(** An input under which direction [d] may go on. *)
Definition favourable spec (d : Dir.t) i : Prop :=
  PlanControl.is_suppressed (Input.control i) d = false ∧
  (Spec.trigger spec = FailoverTrigger.Manual → d = Dir.Failover →
   PlanControl.failover_requested (Input.control i) = true) ∧
  GateDecision.open (evaluate_gate spec d (Input.primary i) (Input.secondary i) (Input.now i)) = true ∧
  f64_gt (soak_error_rate d (Input.primary i) (Input.secondary i))
    (ShiftPolicy.max_soak_error_rate_percent (Spec.shift spec)) = false.

(** Every deadline the status carries has passed at [t]. *)
Definition due_step spec t (s : Step.t) : Prop :=
  (Step.outcome s = StepOutcome.Draining →
   ∀ x, Step.drain_started_at s = Some x → (drain_deadline spec x <= t)%Z) ∧
  (Step.outcome s = StepOutcome.Applied → ∀ x, Step.soak_ends_at s = Some x → (x <= t)%Z).

Definition due spec st t : Prop :=
  (∀ s, s ∈ St.steps st → due_step spec t s) ∧ cooled_down spec st t.

(** Long enough for a drain and for a soak. *)
Definition pace spec : Duration :=
  seconds (Z.max (Z.max (ShiftPolicy.drain_seconds (Spec.shift spec)) 0) (propagation_wait spec)).

(** Favourable inputs, [pace] apart. *)
Fixpoint paced spec (d : Dir.t) (t : DateTime) (l : list Input.t) : Prop :=
  match l with
  | [] => True
  | i :: l' => (t <= Input.now i)%Z ∧ favourable spec d i ∧ paced spec d (Input.now i + pace spec) l'
  end.

Definition increments_left spec st : Z :=
  step_count (share st) (target_weight spec (St.direction st)) (ShiftPolicy.step_percent (Spec.shift spec)).

Definition draining st : bool :=
  existsb (λ s, bool_decide (Step.outcome s = StepOutcome.Draining)) (St.steps st).

(** The number of cycles still needed, at most. *)
Definition cycles_left spec st : Z :=
  (2 * increments_left spec st + if draining st then 0 else 1)%Z.

Lemma draining_true st : draining st = true ↔ ∃ s, s ∈ St.steps st ∧ Step.outcome s = StepOutcome.Draining.
Proof.
  unfold draining. rewrite existsb_exists. setoid_rewrite list_elem_of_In.
  split; intros (s&?&?); exists s; by rewrite bool_decide_eq_true in *.
Qed.

Lemma increments_left_publish from target step amount :
  (0 <= from <= 100)%Z → (0 <= target <= 100)%Z → (1 <= step <= 100)%Z → from ≠ target → (step <= amount)%Z →
  (step_count (moved_towards from target amount) target step < step_count from target step)%Z.
Proof.
  intros Hf Ht Hs Hne Ha. rewrite Z.lt_le_pred.
  assert (0 <= moved_towards from target amount <= 100)%Z as Hm.
  { unfold moved_towards. case_match; breflect; lia. }
  rewrite step_count_le_iff by lia.
  pose proof (proj1 (step_count_le_iff from target step (step_count from target step) ltac:(lia)
    ltac:(lia) Hs) ltac:(lia)) as Hc.
  set (c := step_count from target step) in *. clearbody c.
  assert (1 <= c)%Z by nia. assert (0 <= step * c - step)%Z by nia.
  rewrite Z.mul_pred_r. clear Hm. unfold moved_towards. case_match; breflect; lia.
Qed.

Lemma due_closed spec t s : closed s → due_step spec t s.
Proof. unfold due_step. by intros [-> | ->]. Qed.

Lemma act_served spec action primary secondary now st :
  (∀ d, action ≠ Complete d) → served_from (act spec action primary secondary now st) = served_from st.
Proof.
  intros Hne. assert (∀ x y, served_from (upsert_step x y) = served_from y) as Hup.
  { intros x y. unfold upsert_step. by case_match. }
  destruct action; cbn [act]; try done.
  - by case_match.
  - rewrite Hup. unfold start_if_new. cbn. by case_match.
  - unfold served_from. cbn.
    match goal with |- context [upsert_step ?x ?y] => change (served_from (upsert_step x y) = served_from st) end.
    rewrite Hup. unfold start_if_new. cbn. by case_match.
  - by destruct (Hne direction).
Qed.

(** Outside [Completed], preparing a status changes nothing the decision reads. *)
Lemma prepared_same spec st i :
  Inv spec st → resting (St.phase st) = false →
  core (prepared spec st i) = core st ∧ served_from (prepared spec st i) = served_from st.
Proof.
  intros HI Hr. assert (St.phase st ≠ Phase.Completed) as Hnc by (intros E; by rewrite E in Hr).
  assert (unset (St.current_weights st) = false) as Hu by apply weights_ok_set, HI.
  assert (core (prepared spec st i) = core st) as Hc.
  { destruct (prepared_set spec st i Hu) as [?|(?&_)]; done. }
  split; [done|]. revert Hc. unfold prepared, prepare. cbv zeta. unfold unset in Hu. rewrite Hu.
  case_match; [|done]. case_bool_decide as Hd; [done|]. intros [= Hp Hdd]. by destruct Hd.
Qed.

(** Progress of one action: the shift is completed, or strictly fewer cycles
    are left and the next deadline is at most [pace] away. *)
Definition completed spec st : Prop :=
  St.phase st = Phase.Completed ∧ share st = target_weight spec (St.direction st).

Lemma pace_drain spec now : (drain_deadline spec now <= now + pace spec)%Z.
Proof. unfold drain_deadline, pace, seconds, NANOS. lia. Qed.

Lemma pace_soak spec now : (propagation_deadline spec now <= now + pace spec)%Z.
Proof. unfold propagation_deadline, pace, seconds, NANOS. lia. Qed.

Lemma publish_progress spec st s primary secondary now :
  valid spec → typed spec → Inv spec st → newest st s → Step.outcome s = StepOutcome.Draining →
  let st' := act spec (Publish (St.direction st) (Step.index s) (Step.from_primary_weight s)
    (Step.to_primary_weight s) (weighted_record spec (Step.to_primary_weight s) (Step.index s))
    (RoutingRecordSpec.ttl_seconds (Spec.routing spec))) primary secondary now st in
  St.direction st' = St.direction st ∧ St.phase st' = Phase.Shifting ∧
  (cycles_left spec st' < cycles_left spec st)%Z ∧
  ∀ y, y ∈ St.steps st' → due_step spec (now + pace spec) y.
Proof.
  intros Hv Hty HI Hnew Ho.
  assert (0 <= share st <= 100)%Z as Hsh by apply HI.
  pose proof (valid_target spec (St.direction st) Hv Hty) as Htg. pose proof (valid_step spec Hv Hty) as Hstep.
  assert (live_ok spec (share st) s) as Hl by (apply (inv_live _ _ _ _ _ HI); apply Hnew).
  unfold live_ok in Hl. rewrite Ho in Hl. destruct Hl as (Hf&Hnt&Hto&_).
  rewrite (proj1 (proj2 Hnew)) in Hnt, Hto.
  pose proof (index_nonneg spec st s HI (proj1 Hnew)) as Hi. rewrite weight_after_step_eq in Hto by lia.
  pose proof (draining_to_range spec st s Hv Hty HI Hnew Ho) as Htr.
  cbn [act]. rewrite publish_commutes. cbn [St.set_current_weights St.set_applied_record St.phase
    St.direction St.steps].
  destruct (record_newest spec st s now Phase.Shifting
    (applied_step spec (St.direction st) (Step.index s) (Step.from_primary_weight s)
       (Step.to_primary_weight s) (weighted_record spec (Step.to_primary_weight s) (Step.index s))
       (RoutingRecordSpec.ttl_seconds (Spec.routing spec)) now) HI Hnew eq_refl eq_refl) as (->&Hd&_&Hs).
  rewrite Hd, Hs. split_and!; try done.
  - assert (draining st = true) as Hdr by (apply draining_true; exists s; split; [apply Hnew|done]).
    unfold cycles_left, increments_left. rewrite Hdr.
    cbn [St.set_current_weights St.set_applied_record St.direction]. rewrite Hd. unfold share at 1.
    cbn [St.set_current_weights St.current_weights TrafficWeights.from_primary_percent
      TrafficWeights.primary_percent].
    rewrite Z.min_l by lia. rewrite Hto.
    pose proof (increments_left_publish (share st) (target_weight spec (St.direction st))
      (ShiftPolicy.step_percent (Spec.shift spec))
      (ShiftPolicy.step_percent (Spec.shift spec) * (Step.index s + 1)) Hsh Htg Hstep Hnt ltac:(nia)).
    case_match; lia.
  - intros y Hy. destruct (elem_of_update_step _ _ _ _ _ (inv_keys _ _ _ _ _ HI) Hy) as [[Hy' Hky]|(x&_&_&->)].
    + apply due_closed. destruct (newest_or_closed spec st y HI Hy') as [?|Hny]; [done|].
      destruct Hky. unfold key. destruct Hny as (_&->&?), Hnew as (_&_&?). f_equal. lia.
    + unfold due_step. simpl. split; [done|]. intros _ x' [= <-]. apply pace_soak.
Qed.

Lemma drain_progress spec st primary secondary now to until :
  Inv spec st → room st → settled spec st primary secondary now →
  let st' := act spec (Drain (St.direction st) (next_step_index st (St.direction st)) (share st) to until)
               primary secondary now st in
  St.direction st' = St.direction st ∧ St.phase st' = Phase.Draining ∧
  (cycles_left spec st' < cycles_left spec st)%Z ∧
  ∀ y, y ∈ St.steps st' → due_step spec (now + pace spec) y.
Proof.
  intros HI Hr Hset. cbv zeta.
  destruct (act_drain_fresh_fields spec st primary secondary now to until HI Hr) as (Hp&Hd&Hw&Hs).
  fold (share st) in Hp, Hd, Hw, Hs.
  set (st' := act _ _ _ _ _ _) in *. clearbody st'. split_and!; try done.
  - assert (draining st' = true) as Hdr'.
    { apply draining_true. rewrite Hs. eexists. rewrite elem_of_app, list_elem_of_singleton. eauto. }
    assert (draining st = false) as Hdr.
    { apply not_true_is_false. rewrite draining_true. intros (s&Hin&Ho).
      destruct (Hset s Hin) as [[?|?]|[_ [? _]]]; congruence. }
    unfold cycles_left, increments_left, share. rewrite Hdr', Hdr, Hw, Hd. lia.
  - rewrite Hs.
    intros y [(s&Hin&_&[[-> Hn]|Ho])%close_out_elem| ->%list_elem_of_singleton]%elem_of_app.
    + destruct (Hset s Hin) as [?|[(_&Hds&Hi) [Ho _]]]; [by apply due_closed|].
      destruct Hn. split_and!; [done|lia|done].
    + apply due_closed. by left.
    + unfold due_step. simpl. split; [|done]. intros _ x [= <-]. apply pace_drain.
Qed.

Lemma act_progress spec st i action :
  valid spec → typed spec → Inv spec st → room st → due spec st (Input.now i) →
  resting (St.phase st) = false → favourable spec (St.direction st) i →
  decision spec st (Input.primary i) (Input.secondary i) (Input.now i) (Input.control i) action →
  let st' := act spec action (Input.primary i) (Input.secondary i) (Input.now i) st in
  St.direction st' = St.direction st ∧
  (completed spec st' ∨
   (∀ d, action ≠ Complete d) ∧ resting (St.phase st') = false ∧
   (cycles_left spec st' < cycles_left spec st)%Z ∧
   ∀ s, s ∈ St.steps st' → due_step spec (Input.now i + pace spec) s).
Proof.
  intros Hv Hty HI Hr [Hdue Hcool] Hrest (Hsup&Hman&Hgate&Hrate) Hdec. cbv zeta.
  assert (may_start spec st (Input.primary i) (Input.secondary i) (Input.now i) (Input.control i)) as Hms
    by done.
  assert (0 <= share st <= 100)%Z as Hsh by apply HI.
  pose proof (valid_target spec (St.direction st) Hv Hty) as Htg. pose proof (valid_step spec Hv Hty) as Hstep.
  destruct Hdec as [?|s until ? Hnew Ho Hun Hlt|s until reason ? Hnew Ho Hun Hle Hgt
    |s started ? Hnew Ho Hst Hlt|s started ? Hnew Ho Hst Hle
    |? Hset Hcur|reason|ready reason|? Hset Hcur _]; try done; try congruence.
  - destruct (Hdue s (proj1 Hnew)) as [_ Hs]. specialize (Hs Ho _ Hun). lia.
  - destruct (Hdue s (proj1 Hnew)) as [Hs _]. specialize (Hs Ho _ Hst). lia.
  - destruct (publish_progress spec st s (Input.primary i) (Input.secondary i) (Input.now i)
      Hv Hty HI Hnew Ho) as (Hd&Hp&Hc&Hs). split; [done|]. right. by rewrite Hp.
  - assert (St.direction (act spec (Complete (St.direction st)) (Input.primary i) (Input.secondary i)
      (Input.now i) st) = St.direction st) as Hd by (cbn [act]; by case_bool_decide).
    split; [done|]. left. unfold completed. rewrite Hd. unfold share. cbn [act].
    case_bool_decide; cbn; split; try done; lia.
  - destruct (drain_progress spec st (Input.primary i) (Input.secondary i) (Input.now i)
      (weight_after_step (TrafficWeights.primary_percent (St.current_weights st))
        (target_weight spec (St.direction st)) (ShiftPolicy.step_percent (Spec.shift spec))
        (next_step_index st (St.direction st))) (drain_deadline spec (Input.now i))
      HI Hr Hset) as (Hd&Hp&Hc&Hs). unfold share in *. split; [done|]. right. by rewrite Hp.
Qed.

Lemma cycles_left_core spec st st' : core st = core st' → cycles_left spec st = cycles_left spec st'.
Proof. unfold core, cycles_left, increments_left, share, draining. by intros [= _ -> -> ->]. Qed.

Lemma cycle_served spec st i :
  (∀ d, chosen spec st i ≠ Complete d) →
  served_from (cycle spec st i) = served_from (prepared spec st i).
Proof.
  intros Hne. rewrite cycle_eq. transitivity (served_from (acted spec st i)).
  - generalize (acted spec st i). intros x. unfold served_from.
    assert (St.serving_since (refresh (Input.clk i) spec (Input.secondary i) x) = St.serving_since x ∧
            St.completed_at (refresh (Input.clk i) spec (Input.secondary i) x) = St.completed_at x)
      as [-> ->] by (unfold refresh; cbn; repeat case_match; done).
    done.
  - unfold acted, apply_action.
    match goal with |- served_from (St.set_steps_completed _ ?x) = _ => transitivity (served_from x); [done|] end.
    rewrite act_served by done. by case_bool_decide.
Qed.

(** One favourable cycle of a plan in flight. *)
Lemma cycle_progress spec st i :
  valid spec → typed spec → Inv spec st → room st → due spec st (Input.now i) →
  resting (St.phase st) = false → favourable spec (St.direction st) i →
  St.direction (cycle spec st i) = St.direction st ∧
  (completed spec (cycle spec st i) ∨
   resting (St.phase (cycle spec st i)) = false ∧
   (cycles_left spec (cycle spec st i) < cycles_left spec st)%Z ∧
   due spec (cycle spec st i) (Input.now i + pace spec)).
Proof.
  intros Hv Hty HI Hr [Hdue Hcool] Hrest Hfav.
  destruct (prepared_same spec st i HI Hrest) as [Hc Hsf].
  pose proof Hc as [= Hp Hd Hw Hs].
  pose proof (cycle_core spec st i) as Hcc. pose proof Hcc as [= Hcp Hcd Hcw Hcs].
  destruct (act_progress spec (prepared spec st i) i (chosen spec st i)) as [Hdir Hprog]; try done.
  - by apply (Inv_core _ _ _ Hc).
  - by apply (room_core _ _ Hc).
  - split; [by rewrite Hs|]. unfold cooled_down, failback_ready_at in *. by rewrite Hd, Hsf.
  - by rewrite Hp.
  - by rewrite Hd.
  - apply chosen_decision; try done. by left.
  - rewrite Hcd, Hdir, Hd. split; [done|]. destruct Hprog as [[Hph Hsh]|(Hnc&Hph&Hlt&Hds)].
    + left. unfold completed, share in *. rewrite Hcp, Hcd, Hcw. done.
    + right. rewrite Hcp. split; [done|]. split.
      * rewrite (cycles_left_core _ _ _ Hcc). by rewrite <- (cycles_left_core _ _ _ Hc).
      * split; [by rewrite Hcs|]. unfold cooled_down, failback_ready_at in *.
        rewrite Hcd, Hdir, Hd, (cycle_served spec st i Hnc), Hsf. intros Hfb r Hr'.
        specialize (Hcool Hfb r Hr'). unfold pace, seconds, NANOS. lia.
Qed.

(** A plan in flight needs at least one more cycle. *)
Lemma cycles_left_pos spec st : valid spec → typed spec → Inv spec st → (1 <= cycles_left spec st)%Z.
Proof.
  intros Hv Hty HI. unfold cycles_left, increments_left.
  assert (0 <= share st <= 100)%Z as Hsh by apply HI.
  pose proof (valid_target spec (St.direction st) Hv Hty). pose proof (valid_step spec Hv Hty).
  assert (0 <= step_count (share st) (target_weight spec (St.direction st))
                 (ShiftPolicy.step_percent (Spec.shift spec)))%Z.
  { rewrite step_count_eq by lia. apply Z.div_pos; lia. }
  destruct (draining st) eqn:Hdr; [|lia]. apply draining_true in Hdr as (s&Hs&Ho).
  destruct (newest_or_closed spec st s HI Hs) as [[?|?]|(_&Hd&_)]; [congruence..|].
  pose proof (inv_live _ _ _ _ _ HI s Hs Hd) as Hl. unfold live_ok in Hl. rewrite Ho, Hd in Hl.
  destruct Hl as (_&Hnt&_). fold (share st) in Hnt.
  destruct (Z.le_gt_cases (step_count (share st) (target_weight spec (St.direction st))
                 (ShiftPolicy.step_percent (Spec.shift spec))) 0) as [Hle|]; [|lia].
  apply step_count_le_iff in Hle; lia.
Qed.

Lemma due_later spec st t t' : due spec st t → (t <= t')%Z → due spec st t'.
Proof.
  intros [Hs Hc] Hle. split.
  - intros s [Hd Ha]%Hs. split; intros Ho x Hx; [specialize (Hd Ho x Hx)|specialize (Ha Ho x Hx)]; lia.
  - intros Hd r Hr. specialize (Hc Hd r Hr). lia.
Qed.

Lemma completes_within spec l st t :
  valid spec → typed spec → Inv spec st → resting (St.phase st) = false →
  (Z.of_nat (length (St.steps st) + length l) < 2 ^ 32)%Z →
  due spec st t → paced spec (St.direction st) t l → (cycles_left spec st <= Z.of_nat (length l))%Z →
  ∃ k, k <= length l ∧ (Z.of_nat k <= cycles_left spec st)%Z ∧
    let st' := foldl (cycle spec) st (take k l) in
    St.phase st' = Phase.Completed ∧ St.direction st' = St.direction st ∧
    share st' = target_weight spec (St.direction st).
Proof.
  intros Hv Hty. revert st t.
  induction l as [|i l IH]; intros st t HI Hrest Hroom Hdue Hpaced Hlen.
  { simpl in Hlen. pose proof (cycles_left_pos spec st Hv Hty HI). lia. }
  simpl in Hlen, Hroom. destruct Hpaced as (Hti&Hfav&Hpaced).
  assert (room st) as Hr by (unfold room; lia).
  destruct (cycle_progress spec st i Hv Hty HI Hr (due_later _ _ _ _ Hdue Hti) Hrest Hfav)
    as [Hd [[Hph Hsh]|(Hph&Hlt&Hdue')]].
  - exists 1. pose proof (cycles_left_pos spec st Hv Hty HI). rewrite Hd in Hsh. simpl.
    split_and!; try done; lia.
  - destruct (IH (cycle spec st i) (Input.now i + pace spec)%Z) as (k&Hk&Hkc&Hres); try done.
    + apply cycle_Inv; try done. by left.
    + pose proof (length_cycle spec st i). lia.
    + by rewrite Hd.
    + lia.
    + exists (S k). rewrite Hd in Hres. split_and!; [simpl; lia|lia|done..].
Qed.

(** C27: A plan in flight completes: given inputs that allow its direction to go on
    and that are a drain and a soak apart, after at most twice the number of
    increments left plus one cycle the plan is [Completed] with the published
    share exactly at the target of its direction. *)
Theorem shift_completes spec st l :
  valid spec → typed spec → Inv spec st → resting (St.phase st) = false →
  (Z.of_nat (length (St.steps st) + length l) < 2 ^ 32)%Z →
  (∀ i, head l = Some i → due spec st (Input.now i)) →
  paced spec (St.direction st) (from_option Input.now 0%Z (head l)) l →
  (2 * step_count (share st) (target_weight spec (St.direction st))
         (ShiftPolicy.step_percent (Spec.shift spec)) + 1 <= Z.of_nat (length l))%Z →
  ∃ k, k <= length l ∧
    (Z.of_nat k <= 2 * step_count (share st) (target_weight spec (St.direction st))
                         (ShiftPolicy.step_percent (Spec.shift spec)) + 1)%Z ∧
    let st' := foldl (cycle spec) st (take k l) in
    St.phase st' = Phase.Completed ∧ St.direction st' = St.direction st ∧
    share st' = target_weight spec (St.direction st).
Proof.
  intros Hv Hty HI Hrest Hroom Hdue Hpaced Hlen.
  assert (cycles_left spec st <= Z.of_nat (length l))%Z as Hle.
  { unfold cycles_left, increments_left. case_match; lia. }
  destruct (completes_within spec l st (from_option Input.now 0%Z (head l))) as (k&Hk&Hkc&Hph&Hd&Hsh); try done.
  - destruct l as [|i l]; [|by apply Hdue].
    simpl in Hle. pose proof (cycles_left_pos spec st Hv Hty HI). lia.
  - exists k. split_and!; try done. unfold cycles_left, increments_left in Hkc. case_match; lia.
Qed.

(** ** The increments *)

(** Increment arithmetic: from any share towards any target, the share after
    increment [k] stays between the two, has moved by exactly
    [min(distance, stepPercent * (k + 1))], and is at the target exactly when
    [k + 1] has reached [step_count]: no overshoot and no extra increment. *)
Theorem weight_after_step_spec from target step k :
  (0 <= from < 2 ^ 32)%Z → (0 <= target < 2 ^ 32)%Z → (1 <= step <= 100)%Z → (0 <= k)%Z →
  let w := weight_after_step from target step k in
  (Z.min from target <= w <= Z.max from target)%Z ∧
  Z.abs (w - from) = Z.min (Z.abs (target - from)) (step * (k + 1)) ∧
  (w = target ↔ step_count from target step <= k + 1)%Z.
Proof.
  intros Hf Ht Hs Hk. cbv zeta. rewrite weight_after_step_eq, step_count_le_iff by done.
  assert (0 < step * (k + 1))%Z by nia. set (a := (step * (k + 1))%Z) in *. clearbody a.
  unfold moved_towards. case_match; breflect; lia.
Qed.

(** The increment a plan is about to publish moves [stepPercent] times its
    one-based index, counted over every increment ever recorded for the
    direction: the increments grow, and the second one already moves twice
    [stepPercent]. *)
Theorem increments_grow spec h st s :
  valid spec → typed spec → bounded h → run spec h st →
  s ∈ St.steps st → Step.outcome s = StepOutcome.Draining →
  Z.abs (Step.to_primary_weight s - Step.from_primary_weight s)
  = Z.min (Z.abs (target_weight spec (Step.direction s) - Step.from_primary_weight s))
      (ShiftPolicy.step_percent (Spec.shift spec) * (Step.index s + 1)).
Proof.
  intros Hv Hty Hb Hrun Hs Ho.
  destruct (run_good _ _ _ Hv Hty Hb Hrun) as [HI|[= _ _ _ Hn]].
  2:{ rewrite Hn in Hs. by apply not_elem_of_nil in Hs. }
  destruct (newest_or_closed spec st s HI Hs) as [[?|?]|(_&Hd&_)]; [congruence..|].
  pose proof (inv_live _ _ _ _ _ HI s Hs Hd) as Hl. unfold live_ok in Hl. rewrite Ho in Hl.
  destruct Hl as (Hf&_&Hto&_). rewrite Hto, Hf.
  assert (0 <= share st <= 100)%Z as Hsh by apply HI. unfold share in Hsh.
  pose proof (valid_target spec (Step.direction s) Hv Hty). pose proof (valid_step spec Hv Hty).
  pose proof (index_nonneg spec st s HI Hs).
  rewrite weight_after_step_eq by lia.
  assert (0 < ShiftPolicy.step_percent (Spec.shift spec) * (Step.index s + 1))%Z by nia.
  set (a := (_ * (_ + 1))%Z) in *. clearbody a.
  unfold moved_towards. case_match; breflect; lia.
Qed.

(** ** Behaviour on every branch *)

(** A plan with validation problems is refused: the cycle returns the problems
    joined as the error, marks the plan [Failed] and touches neither the shares
    nor the increments nor the published record. *)
Theorem invalid_plan_is_refused spec st i :
  validate_plan spec ≠ [] →
  ∃ st', reconcile_cycle_with_control (Input.clk i) spec st (Input.primary i) (Input.secondary i)
           (Input.generation i) (Input.now i) (Input.control i)
         = Err (st', join "; " (validate_plan spec)) ∧
    St.phase st' = Phase.Failed ∧
    St.current_weights st' = St.current_weights (prepared spec st i) ∧
    St.steps st' = St.steps st ∧ St.applied_record st' = St.applied_record st.
Proof.
  intros Hinv.
  assert (chosen spec st i = Fail (join "; " (validate_plan spec))) as Hch.
  { unfold chosen, next_action_with_control. by destruct (validate_plan spec). }
  rewrite reconcile_eq, Hch. eexists. split; [done|].
  pose proof (cycle_core spec st i) as Hcc. pose proof (cycle_record spec st i) as Hrec.
  rewrite cycle_eq in Hcc, Hrec. rewrite Hch in Hcc, Hrec.
  destruct (core_fields _ _ Hcc) as (->&_&->&->). rewrite Hrec, <- (prepared_steps spec st i). done.
Qed.

(** Once [Failed], a plan stays [Failed]: no later cycle, whatever the spec, the
    evidence and the overrides, leaves the phase or moves a share. *)
Theorem failed_is_absorbing spec st i :
  St.phase st = Phase.Failed → unset (St.current_weights st) = false →
  St.phase (cycle spec st i) = Phase.Failed ∧
  St.current_weights (cycle spec st i) = St.current_weights st ∧
  St.steps (cycle spec st i) = St.steps st.
Proof.
  intros Hp Hu. destruct (prepared_set spec st i Hu) as [Hc|(Hp'&_)]; [|congruence].
  injection Hc as Hpp Hpd Hpw Hps. pose proof (cycle_core spec st i) as [= -> _ -> ->].
  assert (chosen spec st i = Fail (join "; " (validate_plan spec)) ∨ chosen spec st i = Idle Phase.Failed)
    as [-> | ->].
  { unfold chosen, next_action_with_control. rewrite Hpp, Hp. destruct (validate_plan spec); auto. }
  - by rewrite <- Hpw, <- Hps.
  - by rewrite <- Hpw, <- Hps.
Qed.

(** An increment whose drain period has elapsed is published in the next cycle
    whatever that cycle's evidence says and whatever the operator has
    suppressed since: the gate and the overrides are only consulted before a
    drain starts. *)
Theorem drained_increment_publishes_unconditionally spec st primary secondary now control s started :
  valid spec → Inv spec st → room st → resting (St.phase st) = false →
  newest st s → Step.outcome s = StepOutcome.Draining →
  Step.drain_started_at s = Some started → (drain_deadline spec started <= now)%Z →
  next_action_with_control spec st primary secondary now control
  = Publish (St.direction st) (Step.index s) (Step.from_primary_weight s) (Step.to_primary_weight s)
      (weighted_record spec (Step.to_primary_weight s) (Step.index s))
      (RoutingRecordSpec.ttl_seconds (Spec.routing spec)).
Proof.
  intros Hv HI Hr Hrest Hnew Ho Hst Hle. rewrite (next_action_pending spec st) with (s := s) by done.
  unfold pending_action. rewrite Ho, Hst. simpl. by rewrite (proj2 (Z.ltb_ge _ _) Hle).
Qed.

(** After an abort the next increment starts as soon as the gate and the
    overrides allow it; the soak error rate that caused the abort is not
    consulted again. *)
Theorem aborted_plan_ignores_the_error_budget spec st primary secondary now control s :
  valid spec → Inv spec st → room st → resting (St.phase st) = false →
  newest st s → Step.outcome s = StepOutcome.Aborted →
  share st ≠ target_weight spec (St.direction st) →
  may_start spec st primary secondary now control →
  ∃ to, next_action_with_control spec st primary secondary now control
        = Drain (St.direction st) (next_step_index st (St.direction st)) (share st) to
            (drain_deadline spec now).
Proof.
  intros Hv HI Hr Hrest Hnew Ho Hne Hms.
  rewrite (next_action_pending spec st) with (s := s) by done. unfold pending_action. rewrite Ho.
  eexists. by apply fresh_action_starts.
Qed.

(** ** Measurement *)

Lemma act_rto spec action primary secondary now st :
  St.rto (act spec action primary secondary now st) = St.rto st.
Proof.
  assert (∀ x y, St.rto (upsert_step x y) = St.rto y) as Hup.
  { intros x y. unfold upsert_step. by case_match. }
  destruct action; cbn [act]; try done.
  - by case_match.
  - rewrite Hup. unfold start_if_new. cbn. by case_match.
  - cbn. rewrite Hup. unfold start_if_new. cbn. by case_match.
  - by case_bool_decide.
Qed.

(** The report is measured on the status the cycle leaves. *)
Lemma cycle_rto spec st i :
  ∃ x, St.rto x = St.rto st ∧ St.started_at x = St.started_at (cycle spec st i) ∧
       St.completed_at x = St.completed_at (cycle spec st i) ∧
       St.rto (cycle spec st i) = measure_rto spec x.
Proof.
  rewrite cycle_eq.
  assert (St.rto (acted spec st i) = St.rto st) as Hy.
  { unfold acted, apply_action.
    match goal with |- St.rto (St.set_steps_completed _ ?x) = _ => transitivity (St.rto x); [done|] end.
    rewrite act_rto. transitivity (St.rto (prepared spec st i)); [by case_bool_decide|].
    unfold prepared, prepare. cbv zeta. repeat case_match; done. }
  revert Hy. generalize (acted spec st i). intros y Hy. unfold refresh. cbn.
  set (x := if bool_decide _ then _ else _). exists x.
  assert (St.rto x = St.rto y) as -> by (unfold x; repeat case_match; done).
  done.
Qed.

(** The RTO report of every status: the measured seconds are those between the
    start and the completion of the shift, present exactly when both are, and
    met exactly when within the declared target.  Its own [startedAt] and
    [completedAt] are never filled in. *)
Theorem rto_report spec h st i :
  run spec h st →
  let st' := cycle spec st i in
  let rto := St.rto st' in
  RtoMeasurement.target_seconds rto = FailoverTargets.rto_seconds (Spec.targets spec) ∧
  match St.started_at st', St.completed_at st' with
  | Some start, Some end_ =>
      RtoMeasurement.measured_seconds rto = Some (num_seconds (end_ - start)) ∧
      (RtoMeasurement.met rto = Some true ↔
       num_seconds (end_ - start) <= FailoverTargets.rto_seconds (Spec.targets spec))%Z ∧
      (RtoMeasurement.over_by_seconds rto = 0 ↔ RtoMeasurement.met rto = Some true)%Z
  | _, _ => RtoMeasurement.measured_seconds rto = None ∧ RtoMeasurement.met rto = None
  end ∧
  RtoMeasurement.started_at rto = None ∧ RtoMeasurement.completed_at rto = None.
Proof.
  intros Hrun. cbv zeta.
  assert (RtoMeasurement.started_at (St.rto st) = None ∧ RtoMeasurement.completed_at (St.rto st) = None)
    as [Hs Hc].
  { induction Hrun as [|h st j Hr [IHs IHc]]; [done|].
    destruct (cycle_rto spec st j) as (x&Hx&_&_&->). unfold measure_rto. repeat case_match; cbn; by rewrite Hx. }
  destruct (cycle_rto spec st i) as (x&Hx&Hxs&Hxc&->). rewrite <- Hxs, <- Hxc.
  unfold measure_rto. repeat case_match; cbn; rewrite ?Hx; split_and!; try done.
  - split; [intros [= ?%Z.leb_le]; lia|]. intros. f_equal. apply Z.leb_le. lia.
  - split; [intros; f_equal; apply Z.leb_le; lia|intros [= ?%Z.leb_le]; lia].
Qed.
End runs.

(** ** From probes to the gate *)

(** [trailing_loop] on probes newest first counts the leading run of equal
    outcomes. *)
Fixpoint leading (b : bool) (l : list ProbeResult.t) : nat :=
  match l with
  | [] => 0
  | p :: l' => if Bool.eqb (ProbeResult.success p) b then S (leading b l') else 0
  end.

Lemma leading_le b l : leading b l <= length l.
Proof. induction l; simpl; [done|]. case_match; lia. Qed.

Lemma trailing_loop_successes l n :
  (0 < n)%Z → (n + Z.of_nat (length l) < 2 ^ 32)%Z →
  trailing_loop l n 0 = ((n + Z.of_nat (leading true l))%Z, 0%Z).
Proof.
  revert n. induction l as [|p l IH]; intros n Hn Hb; cbn [trailing_loop leading].
  { f_equal. simpl. lia. }
  simpl in Hb. destruct (ProbeResult.success p); simpl.
  - rewrite u32_add_small by lia. rewrite IH by lia. f_equal. lia.
  - rewrite (proj2 (Z.ltb_lt 0 n)) by lia. f_equal. lia.
Qed.

Lemma trailing_loop_failures l n :
  (0 < n)%Z → (n + Z.of_nat (length l) < 2 ^ 32)%Z →
  trailing_loop l 0 n = (0%Z, (n + Z.of_nat (leading false l))%Z).
Proof.
  revert n. induction l as [|p l IH]; intros n Hn Hb; cbn [trailing_loop leading].
  { f_equal. simpl. lia. }
  simpl in Hb. destruct (ProbeResult.success p); simpl.
  - rewrite (proj2 (Z.ltb_lt 0 n)) by lia. f_equal. lia.
  - rewrite u32_add_small by lia. rewrite IH by lia. f_equal. lia.
Qed.

Lemma trailing_runs_eq ordered :
  (Z.of_nat (length ordered) < 2 ^ 32)%Z →
  trailing_runs ordered
  = (Z.of_nat (leading true (reverse ordered)), Z.of_nat (leading false (reverse ordered))).
Proof.
  unfold trailing_runs. rewrite <- (length_reverse ordered). destruct (reverse ordered) as [|p l]; [done|].
  cbn [trailing_loop leading length]. intros Hb. destruct (ProbeResult.success p); simpl.
  - change (0 +u32 1) with 1%Z. rewrite trailing_loop_successes by lia. f_equal. lia.
  - change (0 +u32 1) with 1%Z. rewrite trailing_loop_failures by lia. f_equal. lia.
Qed.

Lemma leading_take b l n : n <= leading b l → ∀ p, p ∈ take n l → ProbeResult.success p = b.
Proof.
  revert n. induction l as [|q l IH]; intros [|n] Hn p Hp; simpl in *;
    try by apply not_elem_of_nil in Hp.
  destruct (ProbeResult.success q) eqn:Hq, b; simpl in Hn; try lia;
    apply elem_of_cons in Hp as [->|Hp]; try done; apply (IH n); try done; lia.
Qed.

(** The [n] newest probes. *)
Definition newest_probes (n : Z) (probes : list ProbeResult.t) : list ProbeResult.t :=
  take (Z.to_nat n) (reverse (sort_by (λ a b, (ProbeResult.at_ a <=? ProbeResult.at_ b)%Z) probes)).

Definition in_window (gate : HealthGateSpec.t) (now : DateTime) (p : ProbeResult.t) : bool :=
  ((0 <=? now - ProbeResult.at_ p)
   && (now - ProbeResult.at_ p <=? seconds (Z.max (HealthGateSpec.evidence_window_seconds gate) 0)))%Z.

Lemma collect_evidence_runs target probes gate now :
  (Z.of_nat (length probes) < 2 ^ 32)%Z →
  let l := reverse (sort_by (λ a b, (ProbeResult.at_ a <=? ProbeResult.at_ b)%Z) probes) in
  Ev.consecutive_successes (collect_evidence target probes gate now) = Z.of_nat (leading true l) ∧
  Ev.consecutive_failures (collect_evidence target probes gate now) = Z.of_nat (leading false l).
Proof.
  intros Hb. unfold collect_evidence. cbv zeta. rewrite trailing_runs_eq by by rewrite length_sort_by.
  destruct (fold_left _ _ _). by repeat case_match.
Qed.

Lemma count_split {A} (p : A → bool) l : (count p l + count (λ x, negb (p x)) l = Z.of_nat (length l))%Z.
Proof. unfold count. induction l as [|x l IH]; simpl; [done|]. destruct (p x); simpl; lia. Qed.

Lemma length_filter_le {A} (p : A → bool) (l : list A) : length (List.filter p l) <= length l.
Proof. induction l as [|x l IH]; simpl; [done|]. destruct (p x); simpl; lia. Qed.

Lemma collect_evidence_samples target probes gate now :
  (Z.of_nat (length probes) < 2 ^ 32)%Z →
  Ev.samples (collect_evidence target probes gate now) = count (in_window gate now) probes.
Proof.
  intros Hb. unfold collect_evidence. cbv zeta. destruct (trailing_runs _), (fold_left _ _ _).
  set (w := List.filter _ probes).
  transitivity (as_u32 (count ProbeResult.success w)
    +u32 as_u32 (count (λ p, negb (ProbeResult.success p)) w)).
  { by repeat case_match. }
  pose proof (count_split ProbeResult.success w) as Hc.
  assert (length w <= length probes) by apply length_filter_le.
  assert (0 <= count ProbeResult.success w)%Z by (unfold count; lia).
  assert (0 <= count (λ p, negb (ProbeResult.success p)) w)%Z by (unfold count; lia).
  rewrite !as_u32_small by (unfold in_u32; lia). rewrite u32_add_small by lia.
  rewrite Hc. done.
Qed.

Lemma last_reverse_head {A} (l : list A) : last l = head (reverse l).
Proof. by rewrite <- (reverse_involutive l) at 1; rewrite last_reverse. Qed.

Lemma collect_evidence_last target probes gate now p l :
  reverse (sort_by (λ a b, (ProbeResult.at_ a <=? ProbeResult.at_ b)%Z) probes) = p :: l →
  Ev.last_probe_at (collect_evidence target probes gate now) = ProbeResult.at_ p.
Proof.
  intros Hrev. unfold collect_evidence. cbv zeta. destruct (trailing_runs _), (fold_left _ _ _).
  rewrite last_reverse_head, Hrev. cbn.
  destruct (sort_by _ probes) as [|q l'] eqn:E; [done|]. done.
Qed.

(** The failover gate rests on the probes themselves.  When it is open on
    evidence collected from two probe histories, the newest
    [failureThreshold] probes of the primary all failed, the newest
    [recoveryThreshold] probes of the secondary all succeeded, the secondary
    has at least [minSamples] probes inside the evidence window, and its newest
    probe is not older than that window. *)
Theorem failover_gate_needs_probes spec pp sp now :
  let gate := Spec.health_gate spec in
  let primary := collect_evidence (Spec.primary spec) pp gate now in
  let secondary := collect_evidence (Spec.secondary spec) sp gate now in
  (Z.of_nat (length pp) < 2 ^ 32)%Z → (Z.of_nat (length sp) < 2 ^ 32)%Z →
  GateDecision.open (evaluate_gate spec Dir.Failover primary secondary now) = true →
  (HealthGateSpec.failure_threshold gate <= Z.of_nat (length pp))%Z ∧
  (∀ p, p ∈ newest_probes (HealthGateSpec.failure_threshold gate) pp → ProbeResult.success p = false) ∧
  (HealthGateSpec.recovery_threshold gate <= Z.of_nat (length sp))%Z ∧
  (∀ p, p ∈ newest_probes (HealthGateSpec.recovery_threshold gate) sp → ProbeResult.success p = true) ∧
  (HealthGateSpec.min_samples gate <= count (in_window gate now) sp)%Z ∧
  (∀ p, p ∈ newest_probes 1 sp →
     num_seconds (now - ProbeResult.at_ p) <= HealthGateSpec.evidence_window_seconds gate)%Z.
Proof.
  cbv zeta. intros Hpp Hsp [Hh Hu]%gate_open_iff. specialize (Hu eq_refl).
  unfold Ev.is_unhealthy in Hu. unfold gaining, Ev.is_healthy, Ev.is_stale in Hh.
  rewrite !andb_true_iff, negb_true_iff in Hh. destruct Hh as [[[Hrec Hmin] _] Hstale].
  rewrite collect_evidence_samples in Hmin by done.
  rewrite (proj1 (collect_evidence_runs (Spec.secondary spec) sp (Spec.health_gate spec) now Hsp)) in Hrec.
  rewrite (proj2 (collect_evidence_runs (Spec.primary spec) pp (Spec.health_gate spec) now Hpp)) in Hu.
  apply Z.leb_le in Hrec, Hmin, Hu. apply Z.ltb_ge in Hstale.
  set (rp := reverse (sort_by _ pp)) in *. set (rs := reverse (sort_by _ sp)) in *.
  assert (length rp = length pp) as Hlp by (unfold rp; by rewrite length_reverse, length_sort_by).
  assert (length rs = length sp) as Hls by (unfold rs; by rewrite length_reverse, length_sort_by).
  pose proof (leading_le false rp). pose proof (leading_le true rs). split_and!; try lia.
  - apply leading_take. fold rp. lia.
  - apply leading_take. fold rs. lia.
  - unfold newest_probes. fold rs. destruct rs as [|q l] eqn:E; [by intros ? ?%not_elem_of_nil|].
    cbn. intros p ->%list_elem_of_singleton. by rewrite (collect_evidence_last _ _ _ _ q l E) in Hstale.
Qed.
