(* ===== verification/TrafficShiftWitness.v ===== *)
(** * The traffic-shift controller: concrete runs

    A plan with the default policy is run on concrete evidence; each theorem of
    [TrafficShiftProps] that has hypotheses is applied to such a run. *)

From stdpp Require Import prelude strings gmap list.
From S2P Require Import Prelude RustStr Float64 Json Conditions TrafficShiftTypes TrafficShift TrafficShiftFacts TrafficShiftProps.
Local Open Scope string_scope.

(** Instants are printed as their nanosecond count. *)
#[local] Instance demo_chrono : Chrono := {| show_datetime := show_Z; serde_datetime := show_Z |}.

Definition demo_spec : Spec.t :=
  Spec.mk (RegionTarget.mk "eu-west" "eu" "10.0.0.1") (RegionTarget.mk "us-east" "us" "10.1.0.1")
    FailoverTrigger.Automatic RoutingRecordSpec.default HealthGateSpec.default
    (ShiftPolicy.mk 25 120 30 (f64_of_Z 1)) (FailbackPolicy.mk true 600 true) FailoverTargets.default None.

Definition evidence (name : string) (ok bad : Z) (rate : f64) (now : DateTime) : Ev.t :=
  Ev.mk name ok bad ok bad (f64_of_Z (if (0 <? ok)%Z then 100 else 0)) rate (Some 5%Z) now now None.

(** The primary down, the secondary healthy, at [t] seconds. *)
Definition at_ (t : Z) : Input.t :=
  Input.mk (λ _, "") (evidence "eu" 0 9 f64_zero (seconds t)) (evidence "us" 9 0 f64_zero (seconds t)) 1
    (seconds t) PlanControl.default.

(** The primary back and the failover suppressed. *)
Definition closed_at (t : Z) : Input.t :=
  Input.mk (λ _, "") (evidence "eu" 9 0 f64_zero (seconds t)) (evidence "us" 0 9 f64_zero (seconds t)) 1
    (seconds t) (PlanControl.mk false true true).

(** The secondary erroring while it takes the weight. *)
Definition erroring_at (t : Z) : Input.t :=
  Input.mk (λ _, "") (evidence "eu" 0 9 f64_zero (seconds t)) (evidence "us" 9 0 (f64_of_Z 5) (seconds t)) 1
    (seconds t) PlanControl.default.

Definition demo1 : St.t := cycle demo_spec St.default (at_ 0).
Definition demo2 : St.t := cycle demo_spec demo1 (at_ 60).
Definition demo_aborted : St.t := cycle demo_spec demo2 (erroring_at 400).

Lemma demo_valid : valid demo_spec.
Proof. vm_compute. reflexivity. Qed.

Lemma demo_typed : typed demo_spec.
Proof. split; split; vm_compute; congruence. Qed.

Lemma demo_run1 : run demo_spec [(St.default, at_ 0)] demo1.
Proof. exact (run_cycle demo_spec [] St.default (at_ 0) (run_start demo_spec)). Qed.

Lemma demo_run2 : run demo_spec [(St.default, at_ 0); (demo1, at_ 60)] demo2.
Proof. exact (run_cycle demo_spec [(St.default, at_ 0)] demo1 (at_ 60) demo_run1). Qed.

(** The shares published by the default policy on a steady failover: three
    increments of growing size. *)
Example demo_shares :
  share <$> [foldl (cycle demo_spec) St.default (at_ <$> [0; 60])%Z;
             foldl (cycle demo_spec) St.default (at_ <$> [0; 60; 400; 460])%Z;
             foldl (cycle demo_spec) St.default (at_ <$> [0; 60; 400; 460; 800; 860])%Z]
  = [75; 25; 0]%Z.
Proof. vm_compute. reflexivity. Qed.

Lemma weight_change_is_authorised_witness :
  ∃ st0 i0 idx, (st0, i0) ∈ [(St.default, at_ 0)] ∧ authorised demo_spec st0 i0 Dir.Failover ∧
    chosen demo_spec demo1 (at_ 60)
    = Publish Dir.Failover idx 100 75 (weighted_record demo_spec 75 idx) 60.
Proof.
  destruct (weight_change_is_authorised demo_spec [(St.default, at_ 0)] demo1 (at_ 60))
    as (st0&i0&idx&Hin&Hau&_&Hch&_).
  - apply demo_valid.
  - apply demo_typed.
  - reflexivity.
  - apply demo_run1.
  - vm_compute. congruence.
  - exists st0, i0, idx. split; [exact Hin|]. split; [exact Hau|exact Hch].
Defined.

Lemma every_status_is_coherent_witness :
  coherent demo_spec (cycle demo_spec demo1 (at_ 60)) ∧ record_current demo_spec (cycle demo_spec demo1 (at_ 60)).
Proof.
  exact (every_status_is_coherent demo_spec [(St.default, at_ 0)] demo1 (at_ 60)
           demo_valid demo_typed eq_refl demo_run1).
Defined.

Lemma demo1_good : good demo_spec demo1.
Proof. exact (run_good demo_spec [(St.default, at_ 0)] demo1 demo_valid demo_typed eq_refl demo_run1). Qed.

Lemma demo2_good : good demo_spec demo2.
Proof. exact (run_good demo_spec [(St.default, at_ 0); (demo1, at_ 60)] demo2 demo_valid demo_typed eq_refl demo_run2). Qed.

Lemma demo1_inv : Inv demo_spec demo1.
Proof.
  exact (cycle_Inv demo_spec St.default (at_ 0) demo_valid demo_typed (or_intror eq_refl) eq_refl).
Qed.

Lemma demo_aborted_inv : Inv demo_spec demo_aborted.
Proof.
  exact (cycle_Inv demo_spec demo2 (erroring_at 400) demo_valid demo_typed demo2_good eq_refl).
Qed.

(** The increments on record after the first cycle and after the abort. *)
Definition demo_step : Step.t := default (draining_step demo_spec Dir.Failback 0 0 0 0) (head (St.steps demo1)).
Definition aborted_step : Step.t :=
  default (draining_step demo_spec Dir.Failback 0 0 0 0) (head (St.steps demo_aborted)).

Lemma demo_steps : St.steps demo1 = [demo_step].
Proof. vm_compute. reflexivity. Qed.

Lemma aborted_steps : St.steps demo_aborted = [aborted_step].
Proof. vm_compute. reflexivity. Qed.

Lemma demo_newest : newest demo1 demo_step.
Proof.
  split_and!; [rewrite demo_steps; by left|vm_compute; reflexivity|].
  rewrite demo_steps. vm_compute. reflexivity.
Qed.

Lemma aborted_newest : newest demo_aborted aborted_step.
Proof.
  split_and!; [rewrite aborted_steps; by left|vm_compute; reflexivity|].
  rewrite aborted_steps. vm_compute. reflexivity.
Qed.

Definition demo_inputs : list Input.t := at_ <$> [60; 180; 300; 420; 540; 660; 780; 900; 1020]%Z.

Lemma demo_paced : paced demo_spec Dir.Failover (seconds 60) demo_inputs.
Proof.
  repeat (split; [vm_compute; congruence|]; split;
    [split; [reflexivity|split; [intros Ht; discriminate Ht|split; vm_compute; reflexivity]]|]).
  exact I.
Qed.

Lemma demo1_due : due demo_spec demo1 (seconds 60).
Proof.
  split.
  - intros s Hs. rewrite demo_steps, list_elem_of_singleton in Hs. subst s. split.
    + intros _ x Hx. vm_compute in Hx. injection Hx as <-. vm_compute. congruence.
    + intros Ho. vm_compute in Ho. discriminate Ho.
  - intros Hd. vm_compute in Hd. discriminate Hd.
Qed.

Lemma shift_completes_witness :
  ∃ k, k <= 9 ∧ St.phase (foldl (cycle demo_spec) demo1 (take k demo_inputs)) = Phase.Completed.
Proof.
  destruct (shift_completes demo_spec demo1 demo_inputs demo_valid demo_typed demo1_inv)
    as (k&Hk&_&Hp&_).
  - vm_compute. reflexivity.
  - vm_compute. reflexivity.
  - intros i Hi. injection Hi as <-. exact demo1_due.
  - exact demo_paced.
  - vm_compute. congruence.
  - exists k. split; [exact Hk|exact Hp].
Defined.

Lemma weight_after_step_spec_witness :
  weight_after_step 100 0 25 3 = 0%Z ∧ step_count 100 0 25 = 4%Z.
Proof.
  destruct (weight_after_step_spec 100 0 25 3) as (_&_&H); try lia.
  split; [apply H; vm_compute; congruence|reflexivity].
Defined.

Lemma increments_grow_witness :
  Z.abs (Step.to_primary_weight demo_step - Step.from_primary_weight demo_step) = 25%Z.
Proof.
  rewrite (increments_grow demo_spec [(St.default, at_ 0)] demo1 demo_step demo_valid demo_typed eq_refl demo_run1).
  - vm_compute. reflexivity.
  - rewrite demo_steps. by left.
  - vm_compute. reflexivity.
Defined.

(** A plan without regions. *)
Definition bad_spec : Spec.t :=
  Spec.mk (RegionTarget.mk "" "" "") (RegionTarget.mk "" "" "") FailoverTrigger.Automatic
    RoutingRecordSpec.default HealthGateSpec.default ShiftPolicy.default
    (FailbackPolicy.mk true 600 true) FailoverTargets.default None.

Lemma invalid_plan_is_refused_witness :
  ∃ st', reconcile_cycle_with_control (λ _, "") bad_spec demo1 (Input.primary (at_ 9))
           (Input.secondary (at_ 9)) 1 (seconds 9) PlanControl.default
         = Err (st', "spec.primary needs a name and an endpoint; spec.secondary needs a name and an endpoint")
         ∧ St.phase st' = Phase.Failed.
Proof.
  destruct (invalid_plan_is_refused bad_spec demo1 (at_ 9)) as (st'&Heq&Hp&_).
  - vm_compute. congruence.
  - exists st'. split; [|exact Hp]. etransitivity; [exact Heq|]. f_equal.
Defined.

Definition demo_failed : St.t := cycle bad_spec demo2 (at_ 90).

Lemma failed_is_absorbing_witness :
  St.phase (cycle demo_spec demo_failed (at_ 400)) = Phase.Failed ∧ validate_plan demo_spec = [].
Proof.
  split; [|exact demo_valid].
  apply (failed_is_absorbing demo_spec demo_failed (at_ 400)); vm_compute; reflexivity.
Defined.

Lemma drained_increment_publishes_unconditionally_witness :
  GateDecision.open (evaluate_gate demo_spec Dir.Failover (Input.primary (closed_at 60))
    (Input.secondary (closed_at 60)) (seconds 60)) = false ∧
  PlanControl.is_suppressed (Input.control (closed_at 60)) Dir.Failover = true ∧
  mutates_traffic (next_action_with_control demo_spec demo1 (Input.primary (closed_at 60))
    (Input.secondary (closed_at 60)) (seconds 60) (Input.control (closed_at 60))) = true.
Proof.
  split; [vm_compute; reflexivity|]. split; [reflexivity|].
  rewrite (drained_increment_publishes_unconditionally demo_spec demo1 (Input.primary (closed_at 60))
    (Input.secondary (closed_at 60)) (seconds 60) (Input.control (closed_at 60)) demo_step (seconds 0)
    demo_valid demo1_inv eq_refl); [reflexivity|vm_compute; reflexivity|apply demo_newest|
    vm_compute; reflexivity|vm_compute; reflexivity|vm_compute; congruence].
Defined.

Lemma aborted_plan_ignores_the_error_budget_witness :
  f64_gt (soak_error_rate Dir.Failover (Input.primary (erroring_at 500)) (Input.secondary (erroring_at 500)))
    (ShiftPolicy.max_soak_error_rate_percent (Spec.shift demo_spec)) = true ∧
  ∃ to, next_action_with_control demo_spec demo_aborted (Input.primary (erroring_at 500))
          (Input.secondary (erroring_at 500)) (seconds 500) PlanControl.default
        = Drain (St.direction demo_aborted) (next_step_index demo_aborted (St.direction demo_aborted))
            (share demo_aborted) to (drain_deadline demo_spec (seconds 500)).
Proof.
  split; [vm_compute; reflexivity|].
  apply (aborted_plan_ignores_the_error_budget demo_spec demo_aborted (Input.primary (erroring_at 500))
    (Input.secondary (erroring_at 500)) (seconds 500) PlanControl.default aborted_step
    demo_valid demo_aborted_inv eq_refl).
  - vm_compute. reflexivity.
  - apply aborted_newest.
  - vm_compute. reflexivity.
  - vm_compute. congruence.
  - split; [vm_compute; reflexivity|]. split; [intros Ht; discriminate Ht|].
    split; [vm_compute; reflexivity|]. intros Hd. vm_compute in Hd. discriminate Hd.
Defined.

Lemma rto_report_witness :
  RtoMeasurement.started_at (St.rto (cycle demo_spec demo1 (at_ 60))) = None.
Proof. apply (rto_report demo_spec [(St.default, at_ 0)] demo1 (at_ 60) demo_run1). Defined.

Definition probe (ok : bool) (t : Z) : ProbeResult.t :=
  ProbeResult.mk (seconds t) ok (Some 12%Z) None f64_zero None.

Lemma failover_gate_needs_probes_witness :
  let pp := probe false <$> [10; 20; 30; 40]%Z in
  let sp := probe true <$> [10; 20; 30; 40; 50]%Z in
  (∀ p, p ∈ newest_probes 3 pp → ProbeResult.success p = false) ∧
  (∀ p, p ∈ newest_probes 5 sp → ProbeResult.success p = true).
Proof.
  cbv zeta.
  destruct (failover_gate_needs_probes demo_spec (probe false <$> [10; 20; 30; 40]%Z)
    (probe true <$> [10; 20; 30; 40; 50]%Z) (seconds 60)) as (_&Hp&_&Hs&_).
  - vm_compute. reflexivity.
  - vm_compute. reflexivity.
  - vm_compute. reflexivity.
  - split; [exact Hp|exact Hs].
Defined.
