(* ===== verification/JobRetention.v ===== *)
(** * The JobRetentionPolicy custom resource

    Models [src/src/crd/job_retention.rs]: the retention policy, its defaults and
    the per-class tally of a sweep. *)

From stdpp Require Import prelude strings gmap list.
From S2P Require Import Prelude RustStr Conditions.
Local Open Scope string_scope.

Definition DEFAULT_POD_RETENTION_SECONDS : Z := 1800.
Definition DEFAULT_FAILED_JOB_RETENTION_SECONDS : Z := 900.
Definition DEFAULT_COMPLETED_JOB_RETENTION_SECONDS : Z := 3600.
Definition DEFAULT_STUCK_JOB_GRACE_SECONDS : Z := 3600.
Definition DEFAULT_RECONCILE_INTERVAL_SECONDS : Z := 300.
Definition DEFAULT_GRACE_PERIOD_SECONDS : Z := 30.
Definition DEFAULT_WORKLOAD_LABEL : string := "app.kubernetes.io/managed-by".
Definition DEFAULT_WORKLOAD_LABEL_VALUE : string := "stellar-operator".
Definition PREVIOUS_NAMESPACE_ANNOTATION : string := "stellar.org/previous-namespace".

Module JobRetentionPolicySpec.

Record t := mk {
  completed_job_retention_seconds : Z;
  failed_job_retention_seconds : Z;
  stuck_job_grace_seconds : Z;
  pod_retention_seconds : Z;
  delete_orphaned_jobs : bool;
  delete_orphaned_pods : bool;
  reconcile_owner_references : bool;
  reclaim_after_namespace_move : bool;
  workload_label : string;
  workload_label_value : string;
  previous_namespace_annotation : string;
  grace_period_seconds : Z;
  reconcile_interval_seconds : Z;
  dry_run : bool;
}.

Definition default : t :=
  mk DEFAULT_COMPLETED_JOB_RETENTION_SECONDS DEFAULT_FAILED_JOB_RETENTION_SECONDS
    DEFAULT_STUCK_JOB_GRACE_SECONDS DEFAULT_POD_RETENTION_SECONDS true true true true
    DEFAULT_WORKLOAD_LABEL DEFAULT_WORKLOAD_LABEL_VALUE PREVIOUS_NAMESPACE_ANNOTATION
    DEFAULT_GRACE_PERIOD_SECONDS DEFAULT_RECONCILE_INTERVAL_SECONDS false.

Definition effective_failed_job_retention_seconds (s : t) : Z :=
  Z.max (failed_job_retention_seconds s) (stuck_job_grace_seconds s).

(** The requeue delay, as a duration. *)
Definition interval (s : t) : Duration := seconds (reconcile_interval_seconds s).

Definition in_scope (s : t) (labels : gmap string string) : bool :=
  bool_decide (labels !! workload_label s = Some (workload_label_value s)).

End JobRetentionPolicySpec.

Module ReclaimedByClass.

Record t := mk {
  deleted_cron_job : Z;
  broken_owner_reference : Z;
  stuck_failed_job : Z;
  completed_pod : Z;
  namespace_move : Z;
  deleted_owner_remnant : Z;
}.

Definition default : t := mk 0 0 0 0 0 0.

End ReclaimedByClass.

Module JobRetentionPolicyStatus.

Record t := mk {
  reclaimed_jobs : Z;
  reclaimed_pods : Z;
  repaired_owner_references : Z;
  reclaimed_by_class : ReclaimedByClass.t;
  retained : Z;
  dry_run : bool;
  last_reconciled : option DateTime;
  conditions : list Condition.t;
}.

End JobRetentionPolicyStatus.
