(* ===== verification/JobOrphan.v ===== *)
(** * The Job/CronJob orphan reconciler: operations

    Models [src/src/controller/job_orphan_reconciler.rs]: the observations the
    reconciler makes of Jobs and Pods, the classification of each artifact, the
    sweep plan, its application against the API server and the status report.

    The Kubernetes objects are the fields of the API types that the adapters
    read; the API server itself is a parameter of [apply_plan]. *)

From stdpp Require Import prelude strings gmap list.
From Stdlib Require Import Ascii.
From S2P Require Import Prelude RustStr Json Conditions BTreeMap JobRetention.
Local Open Scope string_scope.

Module RetSpec := JobRetentionPolicySpec.

(** ** Model *)

Module ArtifactKind.

Inductive t := Job | Pod.

#[global] Instance eq_dec : EqDecision t.
Proof. solve_decision. Defined.

Definition as_str (k : t) : string := match k with Job => "Job" | Pod => "Pod" end.
Definition kube_kind (k : t) : string := match k with Job => "Job" | Pod => "Pod" end.

(** The derived order: declaration order. *)
Definition rank (k : t) : Z := match k with Job => 0 | Pod => 1 end.
Definition cmp (a b : t) : comparison := Z.compare (rank a) (rank b).

End ArtifactKind.

Module OrphanClass.

Inductive t :=
| DeletedCronJob
| BrokenOwnerReference
| StuckFailedJob
| CompletedPod
| NamespaceMove
| DeletedOwnerRemnant.

#[global] Instance eq_dec : EqDecision t.
Proof. solve_decision. Defined.

Definition as_str (c : t) : string :=
  match c with
  | DeletedCronJob => "deleted_cron_job"
  | BrokenOwnerReference => "broken_owner_reference"
  | StuckFailedJob => "stuck_failed_job"
  | CompletedPod => "completed_pod"
  | NamespaceMove => "namespace_move"
  | DeletedOwnerRemnant => "deleted_owner_remnant"
  end.

Definition all : list t :=
  [DeletedCronJob; BrokenOwnerReference; StuckFailedJob; CompletedPod; NamespaceMove; DeletedOwnerRemnant].

Definition tally (c : t) (b : ReclaimedByClass.t) : ReclaimedByClass.t :=
  let '(ReclaimedByClass.mk a1 a2 a3 a4 a5 a6) := b in
  match c with
  | DeletedCronJob => ReclaimedByClass.mk (a1 +u32 1) a2 a3 a4 a5 a6
  | BrokenOwnerReference => ReclaimedByClass.mk a1 (a2 +u32 1) a3 a4 a5 a6
  | StuckFailedJob => ReclaimedByClass.mk a1 a2 (a3 +u32 1) a4 a5 a6
  | CompletedPod => ReclaimedByClass.mk a1 a2 a3 (a4 +u32 1) a5 a6
  | NamespaceMove => ReclaimedByClass.mk a1 a2 a3 a4 (a5 +u32 1) a6
  | DeletedOwnerRemnant => ReclaimedByClass.mk a1 a2 a3 a4 a5 (a6 +u32 1)
  end.

End OrphanClass.

Module ReclaimAction.

Inductive t := Delete | RepairOwnerRef | Retain.

#[global] Instance eq_dec : EqDecision t.
Proof. solve_decision. Defined.

End ReclaimAction.

Module ArtifactId.

Record t := mk {
  namespace : string;
  name : string;
}.

#[global] Instance eq_dec : EqDecision t.
Proof. solve_decision. Defined.

(** The derived order: namespace first. *)
Definition cmp (a b : t) : comparison :=
  then_cmp (String.compare (namespace a) (namespace b)) (String.compare (name a) (name b)).

End ArtifactId.

Module OwnerRefSnapshot.

Record t := mk {
  api_version : string;
  kind : string;
  name : string;
  uid : string;
  controller : option bool;
  block_owner_deletion : option bool;
}.

Definition cron_job (name uid : string) : t :=
  mk "batch/v1" "CronJob" name uid (Some true) (Some true).

Definition job (name uid : string) : t :=
  mk "batch/v1" "Job" name uid (Some true) (Some true).

Definition to_json (r : t) : json :=
  JObj [
    ("apiVersion", JStr (api_version r));
    ("kind", JStr (kind r));
    ("name", JStr (name r));
    ("uid", JStr (uid r));
    ("controller", jopt JBool (controller r));
    ("blockOwnerDeletion", jopt JBool (block_owner_deletion r))].

Definition set_uid (v : string) (r : t) : t :=
  mk (api_version r) (kind r) (name r) v (controller r) (block_owner_deletion r).

End OwnerRefSnapshot.

Module JobPhase.

Inductive t := Pending | Active | Succeeded | Failed | Suspended.

#[global] Instance eq_dec : EqDecision t.
Proof. solve_decision. Defined.

Definition is_terminal (p : t) : bool :=
  match p with Succeeded | Failed => true | _ => false end.

(** [{:?}] *)
Definition debug (p : t) : string :=
  match p with
  | Pending => "Pending" | Active => "Active" | Succeeded => "Succeeded"
  | Failed => "Failed" | Suspended => "Suspended"
  end.

End JobPhase.

Module PodPhase.

Inductive t := Pending | Running | Succeeded | Failed | Unknown.

#[global] Instance eq_dec : EqDecision t.
Proof. solve_decision. Defined.

Definition is_terminal (p : t) : bool :=
  match p with Succeeded | Failed => true | _ => false end.

Definition debug (p : t) : string :=
  match p with
  | Pending => "Pending" | Running => "Running" | Succeeded => "Succeeded"
  | Failed => "Failed" | Unknown => "Unknown"
  end.

End PodPhase.

Module JobObservation.

Record t := mk {
  id : ArtifactId.t;
  uid : string;
  owner_refs : list OwnerRefSnapshot.t;
  phase : JobPhase.t;
  created_at : DateTime;
  finished_at : option DateTime;
  labels : gmap string string;
  previous_namespace : option string;
}.

Definition age_basis (j : t) : DateTime := default (created_at j) (finished_at j).

End JobObservation.

Module PodObservation.

Record t := mk {
  id : ArtifactId.t;
  uid : string;
  owner_refs : list OwnerRefSnapshot.t;
  phase : PodPhase.t;
  created_at : DateTime;
  finished_at : option DateTime;
  labels : gmap string string;
  previous_namespace : option string;
}.

Definition age_basis (p : t) : DateTime := default (created_at p) (finished_at p).

End PodObservation.

Module ClusterView.

Record t := mk {
  cronjobs : gmap (string * string) string;
  jobs : BTreeMap.t JobObservation.t;
  pods : list PodObservation.t;
}.

Definition new : t := mk ∅ [] [].

Definition with_cronjob (v : t) (namespace name uid : string) : t :=
  mk (<[(namespace, name) := uid]> (cronjobs v)) (jobs v) (pods v).

Definition with_job (v : t) (job : JobObservation.t) : t :=
  mk (cronjobs v) (BTreeMap.insert (JobObservation.uid job) job (jobs v)) (pods v).

Definition with_pod (v : t) (pod : PodObservation.t) : t :=
  mk (cronjobs v) (jobs v) (pods v ++ [pod])%list.

Definition sorted_jobs (v : t) : list JobObservation.t :=
  sort_by (λ a b, le_of ArtifactId.cmp (JobObservation.id a) (JobObservation.id b))
    (BTreeMap.values (jobs v)).

Definition sorted_pods (v : t) : list PodObservation.t :=
  sort_by (λ a b, le_of ArtifactId.cmp (PodObservation.id a) (PodObservation.id b)) (pods v).

End ClusterView.

Module JobObs := JobObservation.
Module PodObs := PodObservation.
Module View := ClusterView.
Module Ref := OwnerRefSnapshot.

(** ** Classification *)

Module Classification.

Record t := mk {
  id : ArtifactId.t;
  kind : ArtifactKind.t;
  class : OrphanClass.t;
  action : ReclaimAction.t;
  age_seconds : Z;
  reason : string;
  repair_uid : option string;
}.

Definition retain (id : ArtifactId.t) (kind : ArtifactKind.t) (class : OrphanClass.t)
    (age_seconds : Z) (reason : string) : t :=
  mk id kind class ReclaimAction.Retain age_seconds reason None.

Definition delete (id : ArtifactId.t) (kind : ArtifactKind.t) (class : OrphanClass.t)
    (age_seconds : Z) (reason : string) : t :=
  mk id kind class ReclaimAction.Delete age_seconds reason None.

Definition repair (id : ArtifactId.t) (kind : ArtifactKind.t) (class : OrphanClass.t)
    (age_seconds : Z) (reason repair_uid : string) : t :=
  mk id kind class ReclaimAction.RepairOwnerRef age_seconds reason (Some repair_uid).

End Classification.

Inductive OwnerState :=
| Live
| Recreated (live_uid : string)
| Missing
| Unowned.

Definition is_kind (k : string) (r : Ref.t) : bool := String.eqb (Ref.kind r) k.

Definition resolve_job_owner (view : View.t) (job : JobObs.t) : OwnerState :=
  match find_first (is_kind "CronJob") (JobObs.owner_refs job) with
  | None => Unowned
  | Some owner =>
      match View.cronjobs view !! (ArtifactId.namespace (JobObs.id job), Ref.name owner) with
      | None => Missing
      | Some live_uid => if String.eqb live_uid (Ref.uid owner) then Live else Recreated live_uid
      end
  end.

Definition age_seconds (basis now : DateTime) : Z := Z.max (num_seconds (now - basis)) 0.

Definition was_moved (spec : RetSpec.t) (previous : option string) (current : string) : bool :=
  RetSpec.reclaim_after_namespace_move spec
  && match previous with Some p => negb (String.eqb p current) | None => false end.

Definition job_retention_for (spec : RetSpec.t) (phase : JobPhase.t) : option Z :=
  match phase with
  | JobPhase.Succeeded => Some (RetSpec.completed_job_retention_seconds spec)
  | JobPhase.Failed => Some (RetSpec.effective_failed_job_retention_seconds spec)
  | JobPhase.Pending | JobPhase.Active | JobPhase.Suspended => None
  end.

(** [{retention:?}] of an [Option<u32>]. *)
Definition show_option (o : option Z) : string :=
  match o with Some z => "Some(" +:+ show_Z z +:+ ")" | None => "None" end.

(** The name of the CronJob reference, the empty string without one. *)
Definition cron_owner_name (job : JobObs.t) : string :=
  default "" (Ref.name <$> find_first (is_kind "CronJob") (JobObs.owner_refs job)).

Definition classify_job (view : View.t) (spec : RetSpec.t) (job : JobObs.t) (now : DateTime)
    : Classification.t :=
  let age := age_seconds (JobObs.age_basis job) now in
  let retention := job_retention_for spec (JobObs.phase job) in
  let past_retention := match retention with Some r => (r <=? age)%Z | None => false end in
  let stuck := bool_decide (JobObs.phase job = JobPhase.Failed) && past_retention
               && RetSpec.delete_orphaned_jobs spec in
  let owner := cron_owner_name job in
  let delete := Classification.delete (JobObs.id job) ArtifactKind.Job in
  let retain := Classification.retain (JobObs.id job) ArtifactKind.Job in
  match resolve_job_owner view job with
  | Live =>
      if stuck then
        delete OrphanClass.StuckFailedJob age
          ("Job has been Failed for " +:+ show_Z age +:+ "s, past the " +:+ show_option retention
           +:+ "s stuck-job window")
      else retain OrphanClass.StuckFailedJob age ("owned by live CronJob '" +:+ owner +:+ "'")
  | Recreated live_uid =>
      if RetSpec.reconcile_owner_references spec then
        Classification.repair (JobObs.id job) ArtifactKind.Job OrphanClass.BrokenOwnerReference age
          ("ownerReference to CronJob '" +:+ owner
           +:+ "' points at a stale UID; re-pointing at the live UID") live_uid
      else if stuck then
        delete OrphanClass.StuckFailedJob age
          ("Job has been Failed for " +:+ show_Z age +:+ "s and owner repair is disabled")
      else
        retain OrphanClass.BrokenOwnerReference age
          "ownerReference UID is stale but owner repair is disabled"
  | Missing =>
      let moved := was_moved spec (JobObs.previous_namespace job) (ArtifactId.namespace (JobObs.id job)) in
      let class := if moved then OrphanClass.NamespaceMove else OrphanClass.DeletedCronJob in
      if negb (RetSpec.delete_orphaned_jobs spec) then
        retain class age ("owning CronJob '" +:+ owner +:+ "' is gone but job deletion is disabled")
      else if past_retention then
        let why :=
          if moved then
            "moved out of namespace '" +:+ default "" (JobObs.previous_namespace job) +:+ "'"
          else "owning CronJob '" +:+ owner +:+ "' no longer exists" in
        delete class age
          (why +:+ "; terminal for " +:+ show_Z age +:+ "s, past the " +:+ show_option retention
           +:+ "s window")
      else
        retain class age
          ("owning CronJob '" +:+ owner +:+ "' is gone; waiting out the " +:+ show_option retention
           +:+ "s window")
  | Unowned =>
      if negb (RetSpec.in_scope spec (JobObs.labels job)) then
        retain OrphanClass.DeletedOwnerRemnant age "no controller owner and outside the sweep scope"
      else if past_retention then
        delete OrphanClass.DeletedOwnerRemnant age
          ("controller owner was removed; terminal for " +:+ show_Z age +:+ "s")
      else
        retain OrphanClass.DeletedOwnerRemnant age
          ("controller owner was removed; waiting out the " +:+ show_option retention +:+ "s window")
  end.

Definition classify_pod (view : View.t) (spec : RetSpec.t) (pod : PodObs.t) (now : DateTime)
    : Classification.t :=
  let age := age_seconds (PodObs.age_basis pod) now in
  let retention := RetSpec.pod_retention_seconds spec in
  let moved := was_moved spec (PodObs.previous_namespace pod) (ArtifactId.namespace (PodObs.id pod)) in
  let delete class reason := Classification.delete (PodObs.id pod) ArtifactKind.Pod class age reason in
  let retain class reason := Classification.retain (PodObs.id pod) ArtifactKind.Pod class age reason in
  let reclaimable := PodPhase.is_terminal (PodObs.phase pod) && (retention <=? age)%Z
                     && RetSpec.delete_orphaned_pods spec in
  match find_first (is_kind "Job") (PodObs.owner_refs pod) with
  | None =>
      if negb (RetSpec.in_scope spec (PodObs.labels pod)) then
        retain OrphanClass.DeletedOwnerRemnant "no controller owner and outside the sweep scope"
      else
        let class := if moved then OrphanClass.NamespaceMove else OrphanClass.DeletedOwnerRemnant in
        if reclaimable then
          delete class ("controller owner was removed; Pod terminal for " +:+ show_Z age +:+ "s")
        else
          retain class ("controller owner was removed; waiting out the " +:+ show_Z retention
                        +:+ "s pod window")
  | Some owner =>
      match BTreeMap.get (Ref.uid owner) (View.jobs view) with
      | None =>
          let recreated :=
            existsb (λ j, String.eqb (ArtifactId.namespace (JobObs.id j)) (ArtifactId.namespace (PodObs.id pod))
                          && String.eqb (ArtifactId.name (JobObs.id j)) (Ref.name owner))
              (BTreeMap.values (View.jobs view)) in
          let class := if recreated then OrphanClass.BrokenOwnerReference
                       else if moved then OrphanClass.NamespaceMove
                       else OrphanClass.DeletedOwnerRemnant in
          if reclaimable then
            delete class ("owning Job '" +:+ Ref.name owner +:+ "' is gone; Pod terminal for "
                          +:+ show_Z age +:+ "s")
          else
            retain class ("owning Job '" +:+ Ref.name owner +:+ "' is gone; waiting out the "
                          +:+ show_Z retention +:+ "s pod window")
      | Some job =>
          if negb (PodPhase.is_terminal (PodObs.phase pod)) then
            retain OrphanClass.CompletedPod ("Pod is " +:+ PodPhase.debug (PodObs.phase pod))
          else if negb (JobPhase.is_terminal (JobObs.phase job)) then
            retain OrphanClass.CompletedPod
              ("owning Job '" +:+ ArtifactId.name (JobObs.id job) +:+ "' is still "
               +:+ JobPhase.debug (JobObs.phase job))
          else if (retention <=? age)%Z then
            if RetSpec.delete_orphaned_pods spec then
              delete OrphanClass.CompletedPod
                ("Pod " +:+ PodPhase.debug (PodObs.phase pod) +:+ " for terminal Job '"
                 +:+ ArtifactId.name (JobObs.id job) +:+ "' is " +:+ show_Z age +:+ "s old, past the "
                 +:+ show_Z retention +:+ "s window")
            else
              retain OrphanClass.CompletedPod
                ("Pod is " +:+ show_Z age +:+ "s old but pod deletion is disabled")
          else
            retain OrphanClass.CompletedPod
              ("terminal Pod is " +:+ show_Z age +:+ "s old, inside the " +:+ show_Z retention
               +:+ "s window")
      end
  end.

(** ** Planning *)

(** [ReclaimTarget] has the fields of [Classification], and the conversion
    copies them. *)
Module ReclaimTarget.

Record t := mk {
  id : ArtifactId.t;
  kind : ArtifactKind.t;
  class : OrphanClass.t;
  action : ReclaimAction.t;
  age_seconds : Z;
  reason : string;
  repair_uid : option string;
}.

Definition from (c : Classification.t) : t :=
  mk (Classification.id c) (Classification.kind c) (Classification.class c) (Classification.action c)
    (Classification.age_seconds c) (Classification.reason c) (Classification.repair_uid c).

(** [(a.kind, &a.id).cmp(&(b.kind, &b.id))] *)
Definition cmp (a b : t) : comparison :=
  then_cmp (ArtifactKind.cmp (kind a) (kind b)) (ArtifactId.cmp (id a) (id b)).

Definition is_action (a : ReclaimAction.t) (x : t) : bool := bool_decide (action x = a).
Definition is_kind (k : ArtifactKind.t) (x : t) : bool := bool_decide (kind x = k).

End ReclaimTarget.

Module Target := ReclaimTarget.

Module PlanSummary.

Record t := mk {
  jobs_scanned : Z;
  pods_scanned : Z;
  jobs_deleted : Z;
  pods_deleted : Z;
  owner_refs_repaired : Z;
  retained : Z;
  by_class : ReclaimedByClass.t;
}.

End PlanSummary.

Module ReclaimPlan.

Record t := mk {
  targets : list Target.t;
  retained : list Target.t;
  summary : PlanSummary.t;
}.

Definition deletes (p : t) : list Target.t :=
  List.filter (Target.is_action ReclaimAction.Delete) (targets p).
Definition repairs (p : t) : list Target.t :=
  List.filter (Target.is_action ReclaimAction.RepairOwnerRef) (targets p).
Definition is_empty (p : t) : bool := match targets p with [] => true | _ => false end.
Definition outstanding_orphan_pods (p : t) : list Target.t :=
  List.filter (Target.is_kind ArtifactKind.Pod) (deletes p).

(** The counters are [usize]. *)
Definition push (c : Classification.t) (p : t) : t :=
  let target := Target.from c in
  let '(PlanSummary.mk js ps jd pd rep ret by_class) := summary p in
  match Target.action target with
  | ReclaimAction.Retain =>
      mk (targets p) (retained p ++ [target])%list (PlanSummary.mk js ps jd pd rep (ret + 1) by_class)
  | ReclaimAction.Delete =>
      let by_class := OrphanClass.tally (Target.class target) by_class in
      mk (targets p ++ [target])%list (retained p)
        (match Target.kind target with
         | ArtifactKind.Job => PlanSummary.mk js ps (jd + 1) pd rep ret by_class
         | ArtifactKind.Pod => PlanSummary.mk js ps jd (pd + 1) rep ret by_class
         end)
  | ReclaimAction.RepairOwnerRef =>
      let by_class := OrphanClass.tally (Target.class target) by_class in
      mk (targets p ++ [target])%list (retained p) (PlanSummary.mk js ps jd pd (rep + 1) ret by_class)
  end.

End ReclaimPlan.

Module Plan := ReclaimPlan.

Definition plan_reclaim (view : View.t) (spec : RetSpec.t) (now : DateTime) : Plan.t :=
  let plan := Plan.mk [] []
    (PlanSummary.mk (Z.of_nat (BTreeMap.len (View.jobs view))) (Z.of_nat (length (View.pods view)))
       0 0 0 0 ReclaimedByClass.default) in
  let plan := fold_left (λ p job, Plan.push (classify_job view spec job now) p) (View.sorted_jobs view) plan in
  let plan := fold_left (λ p pod, Plan.push (classify_pod view spec pod now) p) (View.sorted_pods view) plan in
  Plan.mk (sort_by (le_of Target.cmp) (Plan.targets plan))
    (sort_by (le_of Target.cmp) (Plan.retained plan)) (Plan.summary plan).

(** ** Kubernetes adapters

    The records hold the fields of the k8s-openapi types that the adapters read;
    [name_any] is the result of [ResourceExt::name_any]. *)

Module ObjectMeta.

Record t := mk {
  namespace : option string;
  name_any : string;
  uid : option string;
  owner_references : option (list Ref.t);
  annotations : option (gmap string string);
  labels : option (gmap string string);
  creation_timestamp : option DateTime;
}.

End ObjectMeta.

Module KJob.

Record status_t := mk_status {
  active : option Z;
  succeeded : option Z;
  failed : option Z;
  completion_time : option DateTime;
}.

Record t := mk {
  metadata : ObjectMeta.t;
  spec_suspend : option (option bool);
  status : option status_t;
}.

End KJob.

Module KPod.

(** [state.terminated.finished_at] of a container status, level by level. *)
Definition container_status : Type := option (option (option DateTime)).

Record status_t := mk_status {
  phase : option string;
  container_statuses : option (list container_status);
}.

Record t := mk {
  metadata : ObjectMeta.t;
  status : option status_t;
}.

End KPod.

(** The reference is copied field by field, so the snapshot of a reference is
    the reference. *)
Definition owner_refs_of (refs : option (list Ref.t)) : list Ref.t :=
  (λ r, Ref.mk (Ref.api_version r) (Ref.kind r) (Ref.name r) (Ref.uid r) (Ref.controller r)
          (Ref.block_owner_deletion r)) <$> default [] refs.

Definition previous_namespace_of (annotations : option (gmap string string)) (key : string)
    : option string :=
  match annotations ≫= λ a : gmap string string, a !! key with
  | Some v => if is_empty v then None else Some v
  | None => None
  end.

Definition job_phase (job : KJob.t) : JobPhase.t :=
  if bool_decide (mjoin (KJob.spec_suspend job) = Some true) then JobPhase.Suspended
  else
    match KJob.status job with
    | None => JobPhase.Pending
    | Some status =>
        if (0 <? default 0 (KJob.active status))%Z then JobPhase.Active
        else if (0 <? default 0 (KJob.succeeded status))%Z then JobPhase.Succeeded
        else if (0 <? default 0 (KJob.failed status))%Z then JobPhase.Failed
        else JobPhase.Pending
    end.

Definition job_observation (job : KJob.t) (spec : RetSpec.t) (now : DateTime) : JobObs.t :=
  let m := KJob.metadata job in
  JobObs.mk (ArtifactId.mk (default "" (ObjectMeta.namespace m)) (ObjectMeta.name_any m))
    (default "" (ObjectMeta.uid m))
    (owner_refs_of (ObjectMeta.owner_references m))
    (job_phase job)
    (default now (ObjectMeta.creation_timestamp m))
    (KJob.status job ≫= KJob.completion_time)
    (default ∅ (ObjectMeta.labels m))
    (previous_namespace_of (ObjectMeta.annotations m) (RetSpec.previous_namespace_annotation spec)).

Definition pod_phase (pod : KPod.t) : PodPhase.t :=
  match KPod.status pod ≫= KPod.phase with
  | Some p =>
      if String.eqb p "Pending" then PodPhase.Pending
      else if String.eqb p "Running" then PodPhase.Running
      else if String.eqb p "Succeeded" then PodPhase.Succeeded
      else if String.eqb p "Failed" then PodPhase.Failed
      else PodPhase.Unknown
  | None => PodPhase.Unknown
  end.

Definition pod_finished_at (pod : KPod.t) : option DateTime :=
  KPod.status pod ≫= λ s, KPod.container_statuses s ≫= λ cs,
    max_Z (omap (λ c : KPod.container_status, mjoin (mjoin c)) cs).

Definition pod_observation (pod : KPod.t) (spec : RetSpec.t) (now : DateTime) : PodObs.t :=
  let m := KPod.metadata pod in
  PodObs.mk (ArtifactId.mk (default "" (ObjectMeta.namespace m)) (ObjectMeta.name_any m))
    (default "" (ObjectMeta.uid m))
    (owner_refs_of (ObjectMeta.owner_references m))
    (pod_phase pod)
    (default now (ObjectMeta.creation_timestamp m))
    (pod_finished_at pod)
    (default ∅ (ObjectMeta.labels m))
    (previous_namespace_of (ObjectMeta.annotations m) (RetSpec.previous_namespace_annotation spec)).

(** [collect_view] on the three listings. *)
Definition collect_view (namespace : string) (spec : RetSpec.t) (now : DateTime)
    (cronjob_list : list ObjectMeta.t) (job_list : list KJob.t) (pod_list : list KPod.t) : View.t :=
  let view := fold_left (λ v cj, View.with_cronjob v namespace (ObjectMeta.name_any cj)
                                   (default "" (ObjectMeta.uid cj))) cronjob_list View.new in
  let view := fold_left (λ v job, View.with_job v (job_observation job spec now)) job_list view in
  fold_left (λ v pod, View.with_pod v (pod_observation pod spec now)) pod_list view.

(** ** Reconciliation *)

Module ReclaimOutcome.

Record t := mk {
  jobs_deleted : Z;
  pods_deleted : Z;
  owner_refs_repaired : Z;
  errors : list string;
}.

Definition default : t := mk 0 0 0 [].

Definition total (o : t) : Z := jobs_deleted o +u32 pods_deleted o.

End ReclaimOutcome.

Module Outcome := ReclaimOutcome.

Definition repaired_ref (name live_uid : string) (r : Ref.t) : Ref.t :=
  if String.eqb (Ref.name r) name && negb (String.eqb (Ref.uid r) live_uid)
  then Ref.set_uid live_uid r else r.

Definition repaired_owner_references (refs : list Ref.t) (name live_uid : string) : list json :=
  (λ r, Ref.to_json (repaired_ref name live_uid r)) <$> refs.

(** A request to the API server. *)
Inductive KubeCall :=
| DeleteJob (namespace name : string) (grace : Z)
| DeletePod (namespace name : string) (grace : Z)
| PatchJob (namespace name : string) (patch : json).

(** An error of the operator: the status code of an API answer, if it is one,
    and its [Display] text. *)
Record KubeError := kube_error {
  api_code : option Z;
  display : string;
}.

Definition is_not_found (e : KubeError) : bool := bool_decide (api_code e = Some 404%Z).

Definition config_error (msg : string) : KubeError :=
  kube_error None ("[SK8S-004] Configuration error: " +:+ msg).

Definition grace_of (spec : RetSpec.t) : Z := as_u32 (Z.max (RetSpec.grace_period_seconds spec) 0).

Section apply.
(** The API server: any state and any answers. *)
Context {W : Type} (send : KubeCall → W → W * result unit KubeError).

(** The request that repairs a Job's owner reference, or the configuration
    error raised before any request. *)
Definition repair_request (view : View.t) (target : Target.t) : result KubeCall KubeError :=
  match Target.repair_uid target with
  | None => Err (config_error "repair target without a live UID")
  | Some live_uid =>
      match find_first (λ j, bool_decide (JobObs.id j = Target.id target))
              (BTreeMap.values (View.jobs view)) with
      | None => Err (config_error "repair target is not in the cluster view")
      | Some job =>
          let owner_name := cron_owner_name job in
          let patch := JObj [("metadata", JObj [("ownerReferences",
             JArr (repaired_owner_references (JobObs.owner_refs job) owner_name live_uid))])] in
          Ok (PatchJob (ArtifactId.namespace (Target.id target)) (ArtifactId.name (Target.id target)) patch)
      end
  end.

(** The request for a target: [Ok None] when there is nothing to send. *)
Definition request (view : View.t) (spec : RetSpec.t) (target : Target.t)
    : result (option KubeCall) KubeError :=
  let ns := ArtifactId.namespace (Target.id target) in
  let name := ArtifactId.name (Target.id target) in
  match Target.action target, Target.kind target with
  | ReclaimAction.Delete, ArtifactKind.Job => Ok (Some (DeleteJob ns name (grace_of spec)))
  | ReclaimAction.Delete, ArtifactKind.Pod => Ok (Some (DeletePod ns name (grace_of spec)))
  | ReclaimAction.RepairOwnerRef, _ =>
      match repair_request view target with Ok c => Ok (Some c) | Err e => Err e end
  | ReclaimAction.Retain, _ => Ok None
  end.

(** Count the result of one target. *)
Definition record_result (target : Target.t) (r : result unit KubeError) (o : Outcome.t) : Outcome.t :=
  let '(Outcome.mk jd pd rep errs) := o in
  match r with
  | Ok _ =>
      match Target.action target with
      | ReclaimAction.Delete =>
          match Target.kind target with
          | ArtifactKind.Job => Outcome.mk (jd +u32 1) pd rep errs
          | ArtifactKind.Pod => Outcome.mk jd (pd +u32 1) rep errs
          end
      | ReclaimAction.RepairOwnerRef => Outcome.mk jd pd (rep +u32 1) errs
      | ReclaimAction.Retain => o
      end
  | Err e =>
      if is_not_found e then o
      else Outcome.mk jd pd rep
             (errs ++ [ArtifactKind.kube_kind (Target.kind target) +:+ " "
                       +:+ ArtifactId.name (Target.id target) +:+ ": " +:+ display e])%list
  end.

Fixpoint apply_targets (view : View.t) (spec : RetSpec.t) (targets : list Target.t) (w : W)
    (o : Outcome.t) : W * list KubeCall * Outcome.t :=
  match targets with
  | [] => (w, [], o)
  | target :: targets' =>
      match request view spec target with
      | Ok (Some call) =>
          let '(w', r) := send call w in
          let '(w'', calls, o') := apply_targets view spec targets' w' (record_result target r o) in
          (w'', call :: calls, o')
      | Ok None => apply_targets view spec targets' w (record_result target (Ok tt) o)
      | Err e => apply_targets view spec targets' w (record_result target (Err e) o)
      end
  end.

(** The world after the sweep, the requests sent in order, and the outcome. *)
Definition apply_plan (view : View.t) (spec : RetSpec.t) (plan : Plan.t) (w : W)
    : W * list KubeCall * Outcome.t :=
  if RetSpec.dry_run spec then
    let s := Plan.summary plan in
    (w, [], Outcome.mk (as_u32 (PlanSummary.jobs_deleted s)) (as_u32 (PlanSummary.pods_deleted s))
              (as_u32 (PlanSummary.owner_refs_repaired s)) [])
  else apply_targets view spec (Plan.targets plan) w Outcome.default.
End apply.

(** ** Reports *)

(** The number of code points of a UTF-8 string. *)
Fixpoint char_count (s : string) : nat :=
  match s with
  | String.EmptyString => 0
  | String c s' =>
      let n := Ascii.nat_of_ascii c in
      if ((128 <=? n) && (n <? 192))%nat then char_count s' else S (char_count s')
  end.

Fixpoint repeat_char (n : nat) (c : Ascii.ascii) : string :=
  match n with 0 => "" | S n => String c (repeat_char n c) end.

Definition SPACE : Ascii.ascii := " "%char.

(** [{:<w}] and [{:>w}] *)
Definition pad_right (w : nat) (s : string) : string := s +:+ repeat_char (w - char_count s) SPACE.
Definition pad_left (w : nat) (s : string) : string := repeat_char (w - char_count s) SPACE +:+ s.

Definition action_label (a : ReclaimAction.t) : string :=
  match a with
  | ReclaimAction.Delete => "delete"
  | ReclaimAction.RepairOwnerRef => "repair"
  | ReclaimAction.Retain => "retain"
  end.

Definition plan_row (t : Target.t) : string :=
  pad_right 6 (ArtifactKind.as_str (Target.kind t)) +:+ " "
  +:+ pad_right 40 (ArtifactId.name (Target.id t)) +:+ " "
  +:+ pad_right 20 (ArtifactId.namespace (Target.id t)) +:+ " "
  +:+ pad_right 26 (OrphanClass.as_str (Target.class t)) +:+ " "
  +:+ pad_left 8 (show_Z (Target.age_seconds t)) +:+ "  [" +:+ action_label (Target.action t) +:+ "] "
  +:+ Target.reason t +:+ newline.

Definition format_plan_table (plan : Plan.t) : string :=
  let s := Plan.summary plan in
  let out :=
    "Job orphan sweep — jobs: " +:+ show_Z (PlanSummary.jobs_scanned s) +:+ " scanned / "
    +:+ show_Z (PlanSummary.jobs_deleted s) +:+ " deleted, pods: "
    +:+ show_Z (PlanSummary.pods_scanned s) +:+ " scanned / " +:+ show_Z (PlanSummary.pods_deleted s)
    +:+ " deleted, owner refs repaired: " +:+ show_Z (PlanSummary.owner_refs_repaired s)
    +:+ ", retained: " +:+ show_Z (PlanSummary.retained s) +:+ newline in
  match Plan.targets plan, Plan.retained plan with
  | [], [] => out +:+ "No Job/CronJob artifacts found." +:+ newline
  | targets, retained =>
      out +:+ newline
      +:+ pad_right 6 "KIND" +:+ " " +:+ pad_right 40 "NAME" +:+ " " +:+ pad_right 20 "NAMESPACE" +:+ " "
      +:+ pad_right 26 "CLASS" +:+ " " +:+ pad_left 8 "AGE(s)" +:+ "  " +:+ "REASON" +:+ newline
      +:+ repeat_char 140 "-"%char +:+ newline
      +:+ String.concat "" (plan_row <$> (targets ++ retained)%list)
  end.

(** [clk] is the clock reading of the condition's transition time. *)
Definition sweep_status (clk : string) (spec : RetSpec.t) (plan : Plan.t) (outcome : Outcome.t)
    (now : DateTime) : JobRetentionPolicyStatus.t :=
  let s := Plan.summary plan in
  let pick planned done := if RetSpec.dry_run spec then as_u32 planned else done in
  let reclaimed_jobs := pick (PlanSummary.jobs_deleted s) (Outcome.jobs_deleted outcome) in
  let reclaimed_pods := pick (PlanSummary.pods_deleted s) (Outcome.pods_deleted outcome) in
  let repaired := pick (PlanSummary.owner_refs_repaired s) (Outcome.owner_refs_repaired outcome) in
  let by_class := fold_left (λ b t, OrphanClass.tally (Target.class t) b) (Plan.targets plan)
                    ReclaimedByClass.default in
  let healthy := match Outcome.errors outcome with [] => true | _ => false end in
  JobRetentionPolicyStatus.mk reclaimed_jobs reclaimed_pods repaired by_class
    (as_u32 (PlanSummary.retained s)) (RetSpec.dry_run spec) (Some now)
    [Condition.ready clk healthy (if healthy then "Swept" else "PartiallySwept")
       ("reclaimed " +:+ show_Z reclaimed_jobs +:+ " job(s) and " +:+ show_Z reclaimed_pods
        +:+ " pod(s), repaired " +:+ show_Z repaired +:+ " owner reference(s), "
        +:+ show_Z (Z.of_nat (length (Outcome.errors outcome))) +:+ " error(s)")].
