(* ===== verification/JobOrphanFacts.v ===== *)
(** * The Job/CronJob orphan reconciler: theorems

    Which artifacts a sweep deletes and repairs, the accounting of the plan, the
    requests a sweep sends, and that a sweep settles. *)

From stdpp Require Import prelude strings gmap list.
From S2P Require Import Prelude RustStr Json Conditions BTreeMap JobRetention JobOrphan.

(** ** Orders *)

#[global] Instance artifact_id_cmp_laws : CmpLaws ArtifactId.cmp.
Proof. apply lex_cmp_laws; apply _. Qed.

#[global] Instance artifact_kind_cmp_laws : CmpLaws ArtifactKind.cmp.
Proof.
  split.
  - by intros [] [].
  - by intros [] [] [] o <-.
  - by intros [] [] [].
Qed.

#[global] Instance target_cmp_laws : CmpLaws Target.cmp.
Proof. apply lex_cmp_laws; apply _. Qed.

(** ** What is deleted *)

Section decisions.
Implicit Types (view : View.t) (spec : RetSpec.t) (now : DateTime) (job : JobObs.t) (pod : PodObs.t).

Definition past_retention spec job now : Prop :=
  ∃ r, job_retention_for spec (JobObs.phase job) = Some r ∧
       (r <= age_seconds (JobObs.age_basis job) now)%Z.

(** A Job may be deleted: it is terminal, past the window of its state, and its
    owner situation allows it. *)
Definition job_deletable view spec job now : Prop :=
  JobPhase.is_terminal (JobObs.phase job) = true ∧ past_retention spec job now ∧
  match resolve_job_owner view job with
  | Live => JobObs.phase job = JobPhase.Failed ∧ RetSpec.delete_orphaned_jobs spec = true
  | Recreated _ => RetSpec.reconcile_owner_references spec = false ∧
                   JobObs.phase job = JobPhase.Failed ∧ RetSpec.delete_orphaned_jobs spec = true
  | Missing => RetSpec.delete_orphaned_jobs spec = true
  | Unowned => RetSpec.in_scope spec (JobObs.labels job) = true
  end.

Definition pod_owner_done view pod spec : Prop :=
  match find_first (is_kind "Job") (PodObs.owner_refs pod) with
  | None => RetSpec.in_scope spec (PodObs.labels pod) = true
  | Some owner => ∀ job, BTreeMap.get (Ref.uid owner) (View.jobs view) = Some job →
                         JobPhase.is_terminal (JobObs.phase job) = true
  end.

Definition pod_deletable view spec pod now : Prop :=
  PodPhase.is_terminal (PodObs.phase pod) = true ∧
  (RetSpec.pod_retention_seconds spec <= age_seconds (PodObs.age_basis pod) now)%Z ∧
  RetSpec.delete_orphaned_pods spec = true ∧ pod_owner_done view pod spec.

Definition job_repairable view spec job : Prop :=
  RetSpec.reconcile_owner_references spec = true ∧
  ∃ live_uid, resolve_job_owner view job = Recreated live_uid.

Lemma past_retention_bool spec job now :
  past_retention spec job now ↔
  match job_retention_for spec (JobObs.phase job) with
  | Some r => (r <=? age_seconds (JobObs.age_basis job) now)%Z
  | None => false
  end = true.
Proof.
  unfold past_retention. destruct (job_retention_for _ _) as [r|]; [rewrite Z.leb_le|]; naive_solver.
Qed.

Lemma past_retention_terminal spec job now :
  past_retention spec job now → JobPhase.is_terminal (JobObs.phase job) = true.
Proof. intros (r&Hr&_). by destruct (JobObs.phase job). Qed.

(** The action a classification takes, for every combination. *)
Lemma classify_job_action view spec job now :
  match Classification.action (classify_job view spec job now) with
  | ReclaimAction.Delete => job_deletable view spec job now
  | ReclaimAction.RepairOwnerRef => job_repairable view spec job ∧
      ∃ u, resolve_job_owner view job = Recreated u ∧
           Classification.repair_uid (classify_job view spec job now) = Some u
  | ReclaimAction.Retain => ¬ job_deletable view spec job now ∧ ¬ job_repairable view spec job
  end.
Proof.
  unfold classify_job, job_deletable, job_repairable. cbv zeta.
  pose proof (past_retention_terminal spec job now) as Ht.
  pose proof (past_retention_bool spec job now) as Hp. revert Ht Hp.
  generalize (past_retention spec job now) as P. intros P Ht Hp.
  destruct (match job_retention_for _ _ with Some _ => _ | None => false end);
    [specialize (Ht (proj2 Hp eq_refl))|clear Ht];
  destruct (resolve_job_owner view job) as [|u| |];
    rewrite ?andb_false_r, ?andb_true_r; simpl;
    repeat match goal with
    | |- context [if RetSpec.reconcile_owner_references spec then _ else _] =>
        destruct (RetSpec.reconcile_owner_references spec) eqn:?
    | |- context [bool_decide ?P] => destruct (decide P) as [?|?];
        [rewrite (bool_decide_true P) by done|rewrite (bool_decide_false P) by done]
    | |- context [RetSpec.delete_orphaned_jobs spec] => destruct (RetSpec.delete_orphaned_jobs spec) eqn:?
    | |- context [RetSpec.in_scope spec ?l] => destruct (RetSpec.in_scope spec l) eqn:?
    end; simpl; naive_solver.
Qed.

Lemma classify_pod_action view spec pod now :
  match Classification.action (classify_pod view spec pod now) with
  | ReclaimAction.Delete => pod_deletable view spec pod now
  | ReclaimAction.RepairOwnerRef => False
  | ReclaimAction.Retain => ¬ pod_deletable view spec pod now
  end.
Proof.
  unfold classify_pod, pod_deletable, pod_owner_done. cbv zeta.
  destruct (PodPhase.is_terminal (PodObs.phase pod)); simpl;
  destruct (Z.leb_spec (RetSpec.pod_retention_seconds spec) (age_seconds (PodObs.age_basis pod) now)); simpl;
  destruct (RetSpec.delete_orphaned_pods spec); simpl;
  destruct (find_first (is_kind "Job") (PodObs.owner_refs pod)) as [owner|]; simpl;
  try (destruct (BTreeMap.get (Ref.uid owner) (View.jobs view)) as [job|] eqn:Hj; simpl;
       [destruct (JobPhase.is_terminal (JobObs.phase job)) eqn:Ht; simpl|]);
  try (destruct (RetSpec.in_scope spec (PodObs.labels pod)); simpl);
  try (by split_and!; [..|naive_solver]); try (by split_and!); try (by intros (?&?&?&?); naive_solver lia);
  intros (_&?&_&Hown); specialize (Hown job eq_refl); by rewrite Hown in Ht || lia.
Qed.
End decisions.

(** ** The plan *)

(** Every classification of a sweep, in the order they are pushed. *)
Definition classifications (view : View.t) (spec : RetSpec.t) (now : DateTime) : list Classification.t :=
  ((λ job, classify_job view spec job now) <$> View.sorted_jobs view)
  ++ ((λ pod, classify_pod view spec pod now) <$> View.sorted_pods view).

Definition push_all (cs : list Classification.t) (p : Plan.t) : Plan.t :=
  fold_left (λ p c, Plan.push c p) cs p.

Definition is_retained (c : Classification.t) : bool :=
  bool_decide (Classification.action c = ReclaimAction.Retain).

Definition start_plan (view : View.t) : Plan.t :=
  Plan.mk [] [] (PlanSummary.mk (Z.of_nat (BTreeMap.len (View.jobs view)))
                   (Z.of_nat (length (View.pods view))) 0 0 0 0 ReclaimedByClass.default).

Lemma fold_left_fmap {A B C} (f : A → B → A) (g : C → B) l a :
  fold_left f (g <$> l) a = fold_left (λ x c, f x (g c)) l a.
Proof. revert a. induction l as [|c l IH]; intros a; csimpl; [done|apply IH]. Qed.

Lemma plan_reclaim_eq view spec now :
  plan_reclaim view spec now
  = let plan := push_all (classifications view spec now) (start_plan view) in
    Plan.mk (sort_by (le_of Target.cmp) (Plan.targets plan))
      (sort_by (le_of Target.cmp) (Plan.retained plan)) (Plan.summary plan).
Proof.
  unfold plan_reclaim, push_all, classifications, start_plan.
  by rewrite fold_left_app, !fold_left_fmap.
Qed.

Lemma push_targets c p :
  Plan.targets (Plan.push c p)
  = Plan.targets p ++ (if is_retained c then [] else [Target.from c]).
Proof.
  unfold Plan.push, is_retained. destruct (Plan.summary p). simpl.
  destruct (Classification.action c); simpl; by rewrite ?app_nil_r.
Qed.

Lemma push_retained c p :
  Plan.retained (Plan.push c p)
  = Plan.retained p ++ (if is_retained c then [Target.from c] else []).
Proof.
  unfold Plan.push, is_retained. destruct (Plan.summary p). simpl.
  destruct (Classification.action c); simpl; by rewrite ?app_nil_r.
Qed.

Lemma push_all_targets cs p :
  Plan.targets (push_all cs p)
  = Plan.targets p ++ (Target.from <$> List.filter (λ c, negb (is_retained c)) cs).
Proof.
  revert p. unfold push_all. induction cs as [|c cs IH]; intros p; simpl; [by rewrite app_nil_r|].
  rewrite IH, push_targets. destruct (is_retained c); csimpl; by rewrite ?app_nil_r, <- ?app_assoc.
Qed.

Lemma push_all_retained cs p :
  Plan.retained (push_all cs p) = Plan.retained p ++ (Target.from <$> List.filter is_retained cs).
Proof.
  revert p. unfold push_all. induction cs as [|c cs IH]; intros p; simpl; [by rewrite app_nil_r|].
  rewrite IH, push_retained. destruct (is_retained c); csimpl; by rewrite ?app_nil_r, <- ?app_assoc.
Qed.

Lemma elem_of_targets view spec now t :
  t ∈ Plan.targets (plan_reclaim view spec now) ↔
  ∃ c, c ∈ classifications view spec now ∧ is_retained c = false ∧ t = Target.from c.
Proof.
  rewrite plan_reclaim_eq. cbv zeta. cbn [Plan.targets]. rewrite elem_of_sort_by, push_all_targets. simpl.
  rewrite list_elem_of_fmap. setoid_rewrite list_elem_of_In. setoid_rewrite filter_In.
  setoid_rewrite negb_true_iff. naive_solver.
Qed.

Lemma elem_of_sorted_jobs view job : job ∈ View.sorted_jobs view ↔ job ∈ BTreeMap.values (View.jobs view).
Proof. apply elem_of_sort_by. Qed.

Lemma elem_of_sorted_pods view pod : pod ∈ View.sorted_pods view ↔ pod ∈ View.pods view.
Proof. apply elem_of_sort_by. Qed.

Lemma elem_of_classifications view spec now c :
  c ∈ classifications view spec now ↔
  (∃ job, job ∈ BTreeMap.values (View.jobs view) ∧ c = classify_job view spec job now) ∨
  (∃ pod, pod ∈ View.pods view ∧ c = classify_pod view spec pod now).
Proof.
  unfold classifications. rewrite elem_of_app, !list_elem_of_fmap.
  setoid_rewrite elem_of_sorted_jobs. setoid_rewrite elem_of_sorted_pods. naive_solver.
Qed.

Lemma classify_job_id view spec job now :
  Classification.id (classify_job view spec job now) = JobObs.id job ∧
  Classification.kind (classify_job view spec job now) = ArtifactKind.Job.
Proof. unfold classify_job. cbv zeta. repeat case_match; done. Qed.

Lemma classify_pod_id view spec pod now :
  Classification.id (classify_pod view spec pod now) = PodObs.id pod ∧
  Classification.kind (classify_pod view spec pod now) = ArtifactKind.Pod.
Proof. unfold classify_pod. cbv zeta. repeat case_match; done. Qed.

(** The three kinds of target. *)
Lemma target_cases view spec now t :
  t ∈ Plan.targets (plan_reclaim view spec now) ↔
  (∃ job, job ∈ BTreeMap.values (View.jobs view) ∧ job_deletable view spec job now ∧
          t = Target.from (classify_job view spec job now) ∧ Target.action t = ReclaimAction.Delete) ∨
  (∃ job, job ∈ BTreeMap.values (View.jobs view) ∧ job_repairable view spec job ∧
          t = Target.from (classify_job view spec job now) ∧ Target.action t = ReclaimAction.RepairOwnerRef) ∨
  (∃ pod, pod ∈ View.pods view ∧ pod_deletable view spec pod now ∧
          t = Target.from (classify_pod view spec pod now) ∧ Target.action t = ReclaimAction.Delete).
Proof.
  rewrite elem_of_targets. setoid_rewrite elem_of_classifications. unfold is_retained. split.
  - intros (c&[(job&Hj&->)|(pod&Hp&->)]&Hr&->); apply bool_decide_eq_false in Hr; simpl.
    + pose proof (classify_job_action view spec job now) as Ha.
      destruct (Classification.action (classify_job view spec job now)) eqn:E; [left|right; left|done];
        exists job; naive_solver.
    + pose proof (classify_pod_action view spec pod now) as Ha.
      destruct (Classification.action (classify_pod view spec pod now)) eqn:E; [|done|done].
      right; right. exists pod. naive_solver.
  - intros [(job&Hj&_&->&Ha)|[(job&Hj&_&->&Ha)|(pod&Hp&_&->&Ha)]]; simpl in Ha;
      (eexists; split; [eauto|]; split; [|done]; rewrite Ha; done).
Qed.

(** ** The requests of a sweep *)

Section sweeps.
Context {W : Type} (send : KubeCall → W → W * result unit KubeError).
Implicit Types (view : View.t) (spec : RetSpec.t) (now : DateTime) (w : W).

Definition calls_of (r : W * list KubeCall * Outcome.t) : list KubeCall := r.1.2.

Lemma apply_targets_calls view spec targets w o call :
  call ∈ calls_of (apply_targets send view spec targets w o) →
  ∃ t, t ∈ targets ∧ request view spec t = Ok (Some call).
Proof.
  revert w o. induction targets as [|t targets IH]; intros w o; simpl.
  { by intros ?%not_elem_of_nil. }
  destruct (request view spec t) as [[c|]|e] eqn:Hr.
  - destruct (send c w) as [w' r].
    destruct (apply_targets send view spec targets w' (record_result t r o)) as [[w'' calls] o'] eqn:Ha.
    unfold calls_of. simpl. intros [->|Hin]%elem_of_cons.
    + exists t. split; [by left|done].
    + destruct (IH w' (record_result t r o)) as (t'&?&?); [by rewrite Ha|]. exists t'. split; [by right|done].
  - intros (t'&?&?)%IH. exists t'. split; [by right|done].
  - intros (t'&?&?)%IH. exists t'. split; [by right|done].
Qed.

(** Names are unique per namespace. *)
Definition unique_names view : Prop := NoDup (JobObs.id <$> BTreeMap.values (View.jobs view)).

Lemma unique_job view j j' :
  unique_names view → j ∈ BTreeMap.values (View.jobs view) → j' ∈ BTreeMap.values (View.jobs view) →
  JobObs.id j = JobObs.id j' → j = j'.
Proof.
  unfold unique_names. intros Hnd [i Hi]%list_elem_of_lookup [k Hk]%list_elem_of_lookup Hid.
  assert (i = k) as ->; [|congruence].
  eapply NoDup_lookup; [exact Hnd|..]; rewrite list_lookup_fmap, ?Hi, ?Hk; simpl; by rewrite ?Hid.
Qed.

(** The patch that re-points a Job's references. *)
Definition repair_patch (job : JobObs.t) (live_uid : string) : json :=
  JObj [("metadata", JObj [("ownerReferences",
    JArr (repaired_owner_references (JobObs.owner_refs job) (cron_owner_name job) live_uid))])].

(** Why a request may be sent. *)
Definition justified view spec now (call : KubeCall) : Prop :=
  match call with
  | DeleteJob ns name grace =>
      ∃ job, job ∈ BTreeMap.values (View.jobs view) ∧ JobObs.id job = ArtifactId.mk ns name ∧
             job_deletable view spec job now ∧ grace = grace_of spec
  | DeletePod ns name grace =>
      ∃ pod, pod ∈ View.pods view ∧ PodObs.id pod = ArtifactId.mk ns name ∧
             pod_deletable view spec pod now ∧ grace = grace_of spec
  | PatchJob ns name patch =>
      ∃ job live_uid, job ∈ BTreeMap.values (View.jobs view) ∧ JobObs.id job = ArtifactId.mk ns name ∧
        RetSpec.reconcile_owner_references spec = true ∧
        resolve_job_owner view job = Recreated live_uid ∧ patch = repair_patch job live_uid
  end.

Lemma id_eta (i : ArtifactId.t) : i = ArtifactId.mk (ArtifactId.namespace i) (ArtifactId.name i).
Proof. by destruct i. Qed.

(** A repair target names its job, and the repair finds it. *)
Lemma repair_request_ok view spec job now live_uid :
  unique_names view → job ∈ BTreeMap.values (View.jobs view) →
  resolve_job_owner view job = Recreated live_uid → RetSpec.reconcile_owner_references spec = true →
  repair_request view (Target.from (classify_job view spec job now))
  = Ok (PatchJob (ArtifactId.namespace (JobObs.id job)) (ArtifactId.name (JobObs.id job))
          (repair_patch job live_uid)).
Proof.
  intros Hu Hin Hres Hrec. unfold repair_request.
  assert (Target.id (Target.from (classify_job view spec job now)) = JobObs.id job) as Hid
    by apply classify_job_id.
  assert (Target.repair_uid (Target.from (classify_job view spec job now)) = Some live_uid) as ->
    by (simpl; unfold classify_job; cbv zeta; by rewrite Hres, Hrec).
  rewrite Hid. rewrite (find_first_unique _ _ job); [done|done|by apply bool_decide_eq_true|].
  intros j Hj Heq%bool_decide_eq_true. by eapply unique_job.
Qed.

Lemma request_justified view spec now t call :
  unique_names view → t ∈ Plan.targets (plan_reclaim view spec now) →
  request view spec t = Ok (Some call) → justified view spec now call.
Proof.
  intros Hu Ht. apply target_cases in Ht as
    [(job&Hj&Hd&->&Ha)|[(job&Hj&(Hrec&u&Hres)&->&Ha)|(pod&Hp&Hd&->&Ha)]];
    unfold request; rewrite Ha.
  - destruct (classify_job_id view spec job now) as [Hid Hk]. simpl in *. rewrite Hk, Hid.
    intros [= <-]. exists job. split_and!; try done. apply id_eta.
  - rewrite (repair_request_ok view spec job now u) by done. intros [= <-].
    exists job, u. split_and!; try done. apply id_eta.
  - destruct (classify_pod_id view spec pod now) as [Hid Hk]. simpl in *. rewrite Hk, Hid.
    intros [= <-]. exists pod. split_and!; try done. apply id_eta.
Qed.

Lemma apply_plan_justified view spec now w call :
  unique_names view →
  call ∈ calls_of (apply_plan send view spec (plan_reclaim view spec now) w) → justified view spec now call.
Proof.
  intros Hu. unfold apply_plan. destruct (RetSpec.dry_run spec); [by intros ?%not_elem_of_nil|].
  intros (t&Ht&Hr)%apply_targets_calls. by eapply request_justified.
Qed.

End sweeps.

(** ** Accounting *)

Definition target_is (a : ReclaimAction.t) (k : ArtifactKind.t) (t : Target.t) : bool :=
  Target.is_action a t && Target.is_kind k t.

Definition tally_all (ts : list Target.t) (b : ReclaimedByClass.t) : ReclaimedByClass.t :=
  fold_left (λ b t, OrphanClass.tally (Target.class t) b) ts b.

Lemma push_summary c p :
  let s := Plan.summary p in
  let t := Target.from c in
  Plan.summary (Plan.push c p)
  = PlanSummary.mk (PlanSummary.jobs_scanned s) (PlanSummary.pods_scanned s)
      (PlanSummary.jobs_deleted s + count (target_is ReclaimAction.Delete ArtifactKind.Job) [t])
      (PlanSummary.pods_deleted s + count (target_is ReclaimAction.Delete ArtifactKind.Pod) [t])
      (PlanSummary.owner_refs_repaired s + count (Target.is_action ReclaimAction.RepairOwnerRef) [t])
      (PlanSummary.retained s + count (Target.is_action ReclaimAction.Retain) [t])
      (tally_all (if is_retained c then [] else [t]) (PlanSummary.by_class s)).
Proof.
  cbv zeta. unfold Plan.push, is_retained, count, target_is, Target.is_action, Target.is_kind.
  destruct (Plan.summary p) as [js ps jd pd rep ret by_]. cbn.
  destruct (Classification.action c); cbn; [destruct (Classification.kind c); cbn|..];
    rewrite ?Z.add_0_r; done.
Qed.

Lemma push_all_summary cs p :
  let s := Plan.summary p in
  let ts := Target.from <$> cs in
  Plan.summary (push_all cs p)
  = PlanSummary.mk (PlanSummary.jobs_scanned s) (PlanSummary.pods_scanned s)
      (PlanSummary.jobs_deleted s + count (target_is ReclaimAction.Delete ArtifactKind.Job) ts)
      (PlanSummary.pods_deleted s + count (target_is ReclaimAction.Delete ArtifactKind.Pod) ts)
      (PlanSummary.owner_refs_repaired s + count (Target.is_action ReclaimAction.RepairOwnerRef) ts)
      (PlanSummary.retained s + count (Target.is_action ReclaimAction.Retain) ts)
      (tally_all (Target.from <$> List.filter (λ c, negb (is_retained c)) cs) (PlanSummary.by_class s)).
Proof.
  cbv zeta. unfold push_all. revert p. induction cs as [|c cs IH]; intros p.
  - simpl. unfold count. simpl. rewrite !Z.add_0_r. by destruct (Plan.summary p).
  - cbn [fold_left]. rewrite IH, push_summary. rewrite fmap_cons. cbn [PlanSummary.jobs_scanned
      PlanSummary.pods_scanned PlanSummary.jobs_deleted PlanSummary.pods_deleted
      PlanSummary.owner_refs_repaired PlanSummary.retained PlanSummary.by_class].
    rewrite !(count_cons _ (Target.from c) (Target.from <$> cs)), !Z.add_assoc. f_equal.
    cbn [List.filter]. by destruct (is_retained c).
Qed.

(** [tally] of two classes commutes, so the order of the targets does not
    matter. *)
Lemma tally_comm c d b : OrphanClass.tally c (OrphanClass.tally d b) = OrphanClass.tally d (OrphanClass.tally c b).
Proof. by destruct b, c, d. Qed.

Lemma tally_all_Permutation ts ts' b : ts ≡ₚ ts' → tally_all ts b = tally_all ts' b.
Proof.
  unfold tally_all. intros Hp. revert b. induction Hp; intros b; simpl; auto.
  - by rewrite tally_comm.
  - by rewrite IHHp1.
Qed.

Definition by_key : Target.t → Target.t → Prop := λ a b, le_of Target.cmp a b = true.

Lemma split_Permutation cs :
  (Target.from <$> List.filter (λ c, negb (is_retained c)) cs) ++ (Target.from <$> List.filter is_retained cs)
  ≡ₚ Target.from <$> cs.
Proof.
  induction cs as [|c cs IH]; csimpl; [done|]. destruct (is_retained c); csimpl.
  - by rewrite <- Permutation_middle, IH.
  - by rewrite IH.
Qed.

Lemma filter_filter_and {A} (f g : A → bool) l :
  List.filter g (List.filter f l) = List.filter (λ x, f x && g x) l.
Proof.
  induction l as [|x l IH]; simpl; [done|]. destruct (f x); simpl; [destruct (g x)|]; by rewrite IH.
Qed.

(** The counters over all classifications are counters over the targets. *)
Lemma planned_counts cs :
  let ts := Target.from <$> cs in
  let tg := Target.from <$> List.filter (λ c, negb (is_retained c)) cs in
  count (target_is ReclaimAction.Delete ArtifactKind.Job) ts
  = count (target_is ReclaimAction.Delete ArtifactKind.Job) tg ∧
  count (target_is ReclaimAction.Delete ArtifactKind.Pod) ts
  = count (target_is ReclaimAction.Delete ArtifactKind.Pod) tg ∧
  count (Target.is_action ReclaimAction.RepairOwnerRef) ts
  = count (Target.is_action ReclaimAction.RepairOwnerRef) tg ∧
  count (Target.is_action ReclaimAction.Retain) ts
  = Z.of_nat (length (Target.from <$> List.filter is_retained cs)).
Proof.
  cbv zeta. unfold count, target_is, Target.is_action, is_retained.
  induction cs as [|c cs (IH1&IH2&IH3&IH4)]; csimpl; [done|].
  destruct (Classification.action c) eqn:E; csimpl; rewrite ?E; csimpl;
    rewrite ?bool_decide_true by done; rewrite ?(bool_decide_false (_ = _)) by done; csimpl;
    split_and!; repeat case_match; simpl; lia.
Qed.

(** The plan accounts for every artifact: each Job and Pod of the view is in
    exactly one of the two lists, both are in the order of kind, namespace and
    name, the counters of the summary are the numbers of Job deletions, Pod
    deletions, repairs and retained artifacts, and the per-class breakdown of
    the status is the one of the plan. *)
Theorem plan_accounts_for_everything view spec now clk outcome :
  let plan := plan_reclaim view spec now in
  let s := Plan.summary plan in
  Plan.targets plan ++ Plan.retained plan ≡ₚ Target.from <$> classifications view spec now ∧
  Sorted.StronglySorted by_key (Plan.targets plan) ∧ Sorted.StronglySorted by_key (Plan.retained plan) ∧
  PlanSummary.jobs_deleted s = count (Target.is_kind ArtifactKind.Job) (Plan.deletes plan) ∧
  PlanSummary.pods_deleted s = Z.of_nat (length (Plan.outstanding_orphan_pods plan)) ∧
  PlanSummary.owner_refs_repaired s = Z.of_nat (length (Plan.repairs plan)) ∧
  PlanSummary.retained s = Z.of_nat (length (Plan.retained plan)) ∧
  (PlanSummary.jobs_scanned s + PlanSummary.pods_scanned s
   = Z.of_nat (length (Plan.targets plan) + length (Plan.retained plan)))%Z ∧
  JobRetentionPolicyStatus.reclaimed_by_class (sweep_status clk spec plan outcome now)
  = PlanSummary.by_class s.
Proof.
  cbv zeta. rewrite plan_reclaim_eq. cbv zeta.
  set (cs := classifications view spec now). set (p := push_all cs (start_plan view)).
  assert (Plan.targets p = Target.from <$> List.filter (λ c, negb (is_retained c)) cs) as Htg
    by (unfold p; by rewrite push_all_targets).
  assert (Plan.retained p = Target.from <$> List.filter is_retained cs) as Hrt
    by (unfold p; by rewrite push_all_retained).
  assert (Plan.targets p ++ Plan.retained p ≡ₚ Target.from <$> cs) as Hperm
    by (rewrite Htg, Hrt; apply split_Permutation).
  pose proof (push_all_summary cs (start_plan view)) as Hs. cbv zeta in Hs. fold p in Hs.
  pose proof (planned_counts cs) as (Hj&Hp&Hr&Hk). rewrite <- Htg, <- Hrt in *.
  cbn [Plan.targets Plan.retained Plan.summary]. unfold Plan.deletes, Plan.outstanding_orphan_pods,
    Plan.repairs, Plan.deletes. cbn [Plan.targets].
  pose proof (sort_by_Permutation (le_of Target.cmp) (Plan.targets p)) as Hpt.
  pose proof (sort_by_Permutation (le_of Target.cmp) (Plan.retained p)) as Hpr.
  rewrite Hs. cbn. split_and!.
  - by rewrite Hpt, Hpr.
  - apply sort_by_sorted; [apply le_of_total|intros ???; apply le_of_trans]; apply _.
  - apply sort_by_sorted; [apply le_of_total|intros ???; apply le_of_trans]; apply _.
  - rewrite Hj. unfold count. rewrite filter_filter_and.
    apply (count_Permutation _ _ _ (symmetry Hpt)).
  - rewrite Hp. rewrite filter_filter_and. apply (count_Permutation _ _ _ (symmetry Hpt)).
  - rewrite Hr. apply (count_Permutation _ _ _ (symmetry Hpt)).
  - rewrite Hk. by rewrite length_sort_by.
  - rewrite !length_sort_by, <- length_app, Hperm. unfold cs, classifications.
    rewrite length_fmap, length_app, !length_fmap. unfold View.sorted_jobs, View.sorted_pods.
    rewrite !length_sort_by. unfold BTreeMap.values, BTreeMap.len. rewrite length_fmap. lia.
  - rewrite Htg in Hpt |- *. apply tally_all_Permutation. by rewrite Hpt.
Qed.

(** ** Dry runs *)

Lemma as_u32_succ n : as_u32 n +u32 1 = as_u32 (n + 1).
Proof. unfold u32_add, as_u32. by rewrite Zplus_mod_idemp_l. Qed.

(** The outcome of targets that all succeed. *)
Lemma apply_targets_accepted {W} (accept : KubeCall → W → W * result unit KubeError) view spec targets w jd pd rep :
  (∀ call w', (accept call w').2 = Ok tt) →
  (∀ t, t ∈ targets → ∃ c, request view spec t = Ok (Some c)) →
  (apply_targets accept view spec targets w (Outcome.mk (as_u32 jd) (as_u32 pd) (as_u32 rep) [])).2
  = Outcome.mk (as_u32 (jd + count (target_is ReclaimAction.Delete ArtifactKind.Job) targets))
      (as_u32 (pd + count (target_is ReclaimAction.Delete ArtifactKind.Pod) targets))
      (as_u32 (rep + count (Target.is_action ReclaimAction.RepairOwnerRef) targets)) [].
Proof.
  intros Hacc. revert w jd pd rep. induction targets as [|t targets IH]; intros w jd pd rep Hreq.
  { simpl. unfold count. simpl. by rewrite !Z.add_0_r. }
  destruct (Hreq t ltac:(by left)) as [c Hc].
  assert (∀ t', t' ∈ targets → ∃ c, request view spec t' = Ok (Some c)) as Hreq'
    by (intros; apply Hreq; by right).
  cbn [apply_targets]. rewrite Hc. destruct (accept c w) as [w' r] eqn:Hsend.
  assert (r = Ok tt) as -> by (specialize (Hacc c w); by rewrite Hsend in Hacc).
  rewrite !(count_cons _ t targets), !Z.add_assoc.
  assert (∀ o, (let '(w'', calls, o') := apply_targets accept view spec targets w' o in
                (w'', c :: calls, o')).2 = (apply_targets accept view spec targets w' o).2) as ->.
  { intros o. by destruct (apply_targets accept view spec targets w' o) as [[??]?]. }
  cbn [record_result]. unfold count at 1 3 5, target_is, Target.is_action, Target.is_kind. cbn [List.filter].
  unfold request in Hc. destruct (Target.action t); [destruct (Target.kind t)|..]; cbn; try done;
    rewrite as_u32_succ, IH by done; by rewrite ?Z.add_0_r.
Qed.

Lemma targets_have_requests view spec now t :
  unique_names view → t ∈ Plan.targets (plan_reclaim view spec now) →
  ∃ c, request view spec t = Ok (Some c).
Proof.
  intros Hu Ht. apply target_cases in Ht as
    [(job&Hj&Hd&->&Ha)|[(job&Hj&(Hrec&u&Hres)&->&Ha)|(pod&Hp&Hd&->&Ha)]]; unfold request; rewrite Ha.
  - destruct (classify_job_id view spec job now) as [Hid Hk]. simpl in *. rewrite Hk. eauto.
  - rewrite (repair_request_ok view spec job now u) by done. eauto.
  - destruct (classify_pod_id view spec pod now) as [Hid Hk]. simpl in *. rewrite Hk. eauto.
Qed.

(** A dry run reports what a sweep would do: it sends nothing, and its outcome
    is exactly the outcome of really applying the plan on an API server that
    accepts every request. *)
Theorem dry_run_predicts_the_sweep {W} (send accept : KubeCall → W → W * result unit KubeError)
    view spec now w w0 :
  unique_names view → RetSpec.dry_run spec = true → (∀ call w', (accept call w').2 = Ok tt) →
  apply_plan send view spec (plan_reclaim view spec now) w
  = (w, [], (apply_targets accept view spec (Plan.targets (plan_reclaim view spec now)) w0
               Outcome.default).2).
Proof.
  intros Hu Hdry Hacc. unfold apply_plan. rewrite Hdry. f_equal.
  change Outcome.default with (Outcome.mk (as_u32 0) (as_u32 0) (as_u32 0) []).
  rewrite apply_targets_accepted; [|done|intros; by eapply targets_have_requests].
  rewrite !Z.add_0_l. rewrite plan_reclaim_eq. cbv zeta. cbn [Plan.summary Plan.targets].
  rewrite push_all_summary. cbn.
  pose proof (planned_counts (classifications view spec now)) as (Hj&Hp&Hr&_). cbv zeta in *.
  rewrite Hj, Hp, Hr, push_all_targets. cbn [start_plan Plan.targets app].
  f_equal; f_equal; apply count_Permutation; by rewrite sort_by_Permutation.
Qed.

(** ** Repairs *)

Definition repaired_job (job : JobObs.t) (live_uid : string) : JobObs.t :=
  JobObs.mk (JobObs.id job) (JobObs.uid job)
    (repaired_ref (cron_owner_name job) live_uid <$> JobObs.owner_refs job)
    (JobObs.phase job) (JobObs.created_at job) (JobObs.finished_at job) (JobObs.labels job)
    (JobObs.previous_namespace job).

Lemma find_first_fmap {A} (p : A → bool) (f : A → A) l :
  (∀ x, p (f x) = p x) → find_first p (f <$> l) = f <$> find_first p l.
Proof. intros Hp. induction l as [|x l IH]; csimpl; [done|]. rewrite Hp. by destruct (p x). Qed.

Lemma repaired_ref_fields name uid r :
  Ref.kind (repaired_ref name uid r) = Ref.kind r ∧ Ref.name (repaired_ref name uid r) = Ref.name r.
Proof. unfold repaired_ref. by case_match. Qed.

(** The patch of a repair does what it is for: the Job with the patched
    references is owned by the live CronJob, so it is not repaired again, and
    every reference under another name is untouched. *)
Theorem repair_makes_the_owner_live view spec job now live_uid :
  resolve_job_owner view job = Recreated live_uid →
  resolve_job_owner view (repaired_job job live_uid) = Live ∧
  Classification.action (classify_job view spec (repaired_job job live_uid) now)
    ≠ ReclaimAction.RepairOwnerRef ∧
  (∀ i r, JobObs.owner_refs job !! i = Some r → Ref.name r ≠ cron_owner_name job →
          JobObs.owner_refs (repaired_job job live_uid) !! i = Some r) ∧
  (∀ i r, JobObs.owner_refs (repaired_job job live_uid) !! i = Some r →
          Ref.name r = cron_owner_name job → Ref.uid r = live_uid).
Proof.
  intros Hres.
  assert (resolve_job_owner view (repaired_job job live_uid) = Live) as Hlive.
  { revert Hres. unfold resolve_job_owner. simpl.
    rewrite find_first_fmap by (intros r; unfold is_kind; by rewrite (proj1 (repaired_ref_fields _ _ r))).
    destruct (find_first (is_kind "CronJob") (JobObs.owner_refs job)) as [owner|] eqn:Ho; [|done]. simpl.
    rewrite (proj2 (repaired_ref_fields _ _ owner)).
    destruct (View.cronjobs view !! _) as [u|]; [|done].
    destruct (String.eqb_spec u (Ref.uid owner)) as [|Hne]; [done|]. intros [= ->].
    assert (cron_owner_name job = Ref.name owner) as -> by (unfold cron_owner_name; by rewrite Ho).
    unfold repaired_ref. rewrite String.eqb_refl. destruct (String.eqb_spec (Ref.uid owner) live_uid); [congruence|].
    simpl. by rewrite String.eqb_refl. }
  split_and!.
  - done.
  - intros Ha. pose proof (classify_job_action view spec (repaired_job job live_uid) now) as Hact.
    rewrite Ha in Hact. destruct Hact as [[_ [u Hu]] _]. congruence.
  - intros i r Hi Hn. simpl. rewrite list_lookup_fmap, Hi. simpl. unfold repaired_ref.
    destruct (String.eqb_spec (Ref.name r) (cron_owner_name job)); done.
  - simpl. intros i r. rewrite list_lookup_fmap. destruct (JobObs.owner_refs job !! i) as [r0|]; [|done].
    simpl. intros [= <-]. unfold repaired_ref.
    destruct (String.eqb_spec (Ref.name r0) (cron_owner_name job)); simpl; [|done].
    by destruct (String.eqb_spec (Ref.uid r0) live_uid).
Qed.

(** ** A sweep settles *)

Definition deleted (c : Classification.t) : bool :=
  bool_decide (Classification.action c = ReclaimAction.Delete).

(** The view once every planned deletion has taken effect. *)
Definition swept (view : View.t) (spec : RetSpec.t) (now : DateTime) : View.t :=
  View.mk (View.cronjobs view)
    (List.filter (λ p, negb (deleted (classify_job view spec p.2 now))) (View.jobs view))
    (List.filter (λ pod, negb (deleted (classify_pod view spec pod now))) (View.pods view)).

Lemma deleted_job view spec job now :
  deleted (classify_job view spec job now) = true ↔ job_deletable view spec job now.
Proof.
  unfold deleted. rewrite bool_decide_eq_true.
  pose proof (classify_job_action view spec job now) as Ha.
  destruct (Classification.action (classify_job view spec job now)) eqn:E; try naive_solver.
  split; [done|]. intros (_&_&Hd). destruct Ha as [[Hrec [u Hu]] _]. rewrite Hu in Hd.
  destruct Hd. congruence.
Qed.

Lemma deleted_pod view spec pod now :
  deleted (classify_pod view spec pod now) = true ↔ pod_deletable view spec pod now.
Proof.
  unfold deleted. rewrite bool_decide_eq_true.
  pose proof (classify_pod_action view spec pod now) as Ha.
  destruct (Classification.action (classify_pod view spec pod now)); naive_solver.
Qed.

Lemma filter_sorted {V} (p : string * V → bool) (m : BTreeMap.t V) :
  BTreeMap.sorted m → BTreeMap.sorted (List.filter p m).
Proof.
  induction 1 as [|x m Hm IH Hall]; simpl; [constructor|]. destruct (p x); [|done].
  constructor; [done|]. rewrite Forall_forall in *. intros y Hy. apply Hall.
  apply list_elem_of_In in Hy. apply filter_In in Hy as [Hy _]. by apply list_elem_of_In.
Qed.

Lemma swept_job_not_deletable view spec now job :
  job ∈ BTreeMap.values (View.jobs (swept view spec now)) →
  ¬ job_deletable (swept view spec now) spec job now.
Proof.
  unfold BTreeMap.values. simpl. intros ([uid j]&->&[Hin Hnd]%elem_of_lfilter)%list_elem_of_fmap. simpl in *.
  intros Hd. apply negb_true_iff in Hnd. rewrite (proj2 (deleted_job view spec j now)) in Hnd; [done|].
  exact Hd.
Qed.

Lemma swept_owner_done view spec now pod :
  BTreeMap.sorted (View.jobs view) →
  pod_owner_done (swept view spec now) pod spec → pod_owner_done view pod spec.
Proof.
  intros Hs. unfold pod_owner_done. destruct (find_first _ _) as [owner|]; [|done].
  intros Hdone job Hget. destruct (deleted (classify_job view spec job now)) eqn:Hdel.
  - apply deleted_job in Hdel. apply Hdel.
  - apply Hdone, BTreeMap.get_elem; [by apply filter_sorted|]. apply elem_of_lfilter.
    simpl. rewrite Hdel. split; [by apply BTreeMap.get_Some|done].
Qed.

(** A sweep settles in one pass: once its deletions have taken effect, a second
    sweep at the same time plans no deletion, so no orphaned Pod past its window
    is outstanding. *)
Theorem sweep_settles view spec now :
  BTreeMap.sorted (View.jobs view) →
  Plan.deletes (plan_reclaim (swept view spec now) spec now) = [] ∧
  Plan.outstanding_orphan_pods (plan_reclaim (swept view spec now) spec now) = [].
Proof.
  intros Hs.
  assert (Plan.deletes (plan_reclaim (swept view spec now) spec now) = []) as Hnil.
  { apply elem_of_nil_inv. intros t. unfold Plan.deletes.
    rewrite elem_of_lfilter. unfold Target.is_action. rewrite bool_decide_eq_true.
    intros [Ht Ha]. apply target_cases in Ht as [(job&Hj&Hd&_)|[(job&Hj&_&_&Hr)|(pod&Hp&Hd&_)]].
    - by apply (swept_job_not_deletable view spec now job).
    - congruence.
    - apply elem_of_lfilter in Hp as [_ Hnd]. apply negb_true_iff in Hnd.
      rewrite (proj2 (deleted_pod view spec pod now)) in Hnd; [done|].
      destruct Hd as (?&?&?&?%swept_owner_done); done. }
  split; [done|]. unfold Plan.outstanding_orphan_pods. by rewrite Hnil.
Qed.

(** ** Controllers of another kind *)

(** A Job or Pod controlled by something other than a CronJob or a Job counts as
    unowned: in scope and past its window it is planned for deletion although its
    controller may be alive, and for Jobs even when [deleteOrphanedJobs] is
    off. *)
Theorem foreign_controllers_do_not_protect view spec now job pod :
  (∀ r, r ∈ JobObs.owner_refs job → Ref.kind r ≠ "CronJob"%string) →
  RetSpec.in_scope spec (JobObs.labels job) = true → past_retention spec job now →
  (∀ r, r ∈ PodObs.owner_refs pod → Ref.kind r ≠ "Job"%string) →
  RetSpec.in_scope spec (PodObs.labels pod) = true →
  PodPhase.is_terminal (PodObs.phase pod) = true → RetSpec.delete_orphaned_pods spec = true →
  (RetSpec.pod_retention_seconds spec <= age_seconds (PodObs.age_basis pod) now)%Z →
  deleted (classify_job view spec job now) = true ∧
  Classification.class (classify_job view spec job now) = OrphanClass.DeletedOwnerRemnant ∧
  deleted (classify_pod view spec pod now) = true.
Proof.
  intros Hj Hsj Hpj Hp Hsp Htp Hfp Hap.
  assert (find_first (is_kind "CronJob") (JobObs.owner_refs job) = None) as Hnj.
  { apply find_first_None. intros r Hr. unfold is_kind.
    destruct (String.eqb_spec (Ref.kind r) "CronJob"); [|done]. by destruct (Hj r Hr). }
  assert (resolve_job_owner view job = Unowned) as Hun by (unfold resolve_job_owner; by rewrite Hnj).
  split_and!.
  - apply deleted_job. split_and!; [by eapply past_retention_terminal|done|by rewrite Hun].
  - unfold classify_job. cbv zeta. rewrite Hun, Hsj. simpl. by case_match.
  - apply deleted_pod. split_and!; try done. unfold pod_owner_done.
    rewrite (proj2 (find_first_None _ _)); [done|]. intros r Hr. unfold is_kind.
    destruct (String.eqb_spec (Ref.kind r) "Job"); [|done]. by destruct (Hp r Hr).
Qed.

(** ** From the listing *)

Section listing.
Implicit Types (spec : RetSpec.t) (now : DateTime).

Definition kjob_uid (kj : KJob.t) : string := default ""%string (ObjectMeta.uid (KJob.metadata kj)).

(** Not suspended, no active pod, and some pod finished. *)
Definition kjob_idle (kj : KJob.t) : Prop :=
  mjoin (KJob.spec_suspend kj) ≠ Some true ∧
  ∃ st, KJob.status kj = Some st ∧ (default 0 (KJob.active st) <= 0)%Z ∧
        (0 < default 0 (KJob.succeeded st) ∨ 0 < default 0 (KJob.failed st))%Z.

Lemma job_phase_terminal kj : JobPhase.is_terminal (job_phase kj) = true ↔ kjob_idle kj.
Proof.
  unfold job_phase, kjob_idle. case_bool_decide as Hs; simpl.
  { split; [done|]. by intros [? _]. }
  destruct (KJob.status kj) as [st|]; simpl; [|naive_solver].
  destruct (Z.ltb_spec 0 (default 0 (KJob.active st)))%Z; simpl; [naive_solver lia|].
  destruct (Z.ltb_spec 0 (default 0 (KJob.succeeded st)))%Z; simpl; [naive_solver lia|].
  destruct (Z.ltb_spec 0 (default 0 (KJob.failed st)))%Z; simpl; naive_solver lia.
Qed.

Lemma pod_phase_terminal kp :
  PodPhase.is_terminal (pod_phase kp) = true ↔
  (KPod.status kp ≫= KPod.phase) = Some "Succeeded"%string ∨
  (KPod.status kp ≫= KPod.phase) = Some "Failed"%string.
Proof.
  unfold pod_phase. destruct (KPod.status kp ≫= KPod.phase) as [p|].
  2:{ split; [done|]. by intros [?|?]. }
  destruct (String.eqb_spec p "Pending") as [->|]; [split; [done|by intros [[=]|[=]]]|].
  destruct (String.eqb_spec p "Running") as [->|]; [split; [done|by intros [[=]|[=]]]|].
  destruct (String.eqb_spec p "Succeeded") as [->|]; [split; auto|].
  destruct (String.eqb_spec p "Failed") as [->|]; [split; auto|].
  split; [done|]. by intros [[=]|[=]].
Qed.

Definition jobs_from (jl : list KJob.t) spec now (m : BTreeMap.t JobObs.t) : BTreeMap.t JobObs.t :=
  fold_left (λ m kj, BTreeMap.insert (kjob_uid kj) (job_observation kj spec now) m) jl m.

Lemma collect_view_jobs ns spec now cl jl pl :
  View.jobs (collect_view ns spec now cl jl pl) = jobs_from jl spec now [] ∧
  View.pods (collect_view ns spec now cl jl pl) = (λ kp, pod_observation kp spec now) <$> pl.
Proof.
  unfold collect_view.
  assert (∀ v, View.jobs (fold_left (λ v pod, View.with_pod v (pod_observation pod spec now)) pl v)
               = View.jobs v ∧
               View.pods (fold_left (λ v pod, View.with_pod v (pod_observation pod spec now)) pl v)
               = View.pods v ++ ((λ kp, pod_observation kp spec now) <$> pl)) as Hp.
  { induction pl as [|kp pl IH]; intros v; csimpl; [by rewrite app_nil_r|].
    destruct (IH (View.with_pod v (pod_observation kp spec now))) as [-> ->]. simpl.
    by rewrite <- app_assoc. }
  assert (∀ v, View.jobs (fold_left (λ v job, View.with_job v (job_observation job spec now)) jl v)
               = jobs_from jl spec now (View.jobs v) ∧
               View.pods (fold_left (λ v job, View.with_job v (job_observation job spec now)) jl v)
               = View.pods v) as Hj.
  { induction jl as [|kj jl IH]; intros v; csimpl; [done|].
    by destruct (IH (View.with_job v (job_observation kj spec now))) as [-> ->]. }
  assert (∀ v, View.jobs (fold_left (λ v cj, View.with_cronjob v ns (ObjectMeta.name_any cj)
                 (default ""%string (ObjectMeta.uid cj))) cl v) = View.jobs v ∧
               View.pods (fold_left (λ v cj, View.with_cronjob v ns (ObjectMeta.name_any cj)
                 (default ""%string (ObjectMeta.uid cj))) cl v) = View.pods v) as Hc.
  { induction cl as [|cj cl IH]; intros v; csimpl; [done|]. by rewrite (proj1 (IH _)), (proj2 (IH _)). }
  rewrite (proj1 (Hp _)), (proj2 (Hp _)), (proj1 (Hj _)), (proj2 (Hj _)), (proj1 (Hc _)), (proj2 (Hc _)).
  done.
Qed.

Lemma jobs_from_elem jl spec now m uid obs :
  (uid, obs) ∈ jobs_from jl spec now m →
  (uid, obs) ∈ m ∨ ∃ kj, kj ∈ jl ∧ uid = kjob_uid kj ∧ obs = job_observation kj spec now.
Proof.
  unfold jobs_from. revert m. induction jl as [|kj jl IH]; intros m; simpl; [auto|].
  intros [[Heq|?]%BTreeMap.insert_keys|(kj'&?&?&?)]%IH.
  - right. exists kj. injection Heq as -> ->. rewrite elem_of_cons. auto.
  - auto.
  - right. exists kj'. rewrite elem_of_cons. auto.
Qed.

Lemma jobs_from_sorted jl spec now m : BTreeMap.sorted m → BTreeMap.sorted (jobs_from jl spec now m).
Proof.
  unfold jobs_from. revert m. induction jl as [|kj jl IH]; intros m Hm; simpl; [done|].
  by apply IH, BTreeMap.insert_sorted.
Qed.

Lemma jobs_from_get_other jl spec now m uid :
  (∀ kj, kj ∈ jl → kjob_uid kj ≠ uid) →
  BTreeMap.get uid (jobs_from jl spec now m) = BTreeMap.get uid m.
Proof.
  unfold jobs_from. revert m. induction jl as [|kj jl IH]; intros m Hne; simpl; [done|].
  setoid_rewrite elem_of_cons in Hne. rewrite IH by auto. apply BTreeMap.get_insert_ne.
  intros Heq. apply (Hne kj); auto.
Qed.

Lemma jobs_from_get jl spec now m kj :
  NoDup (kjob_uid <$> jl) → kj ∈ jl →
  BTreeMap.get (kjob_uid kj) (jobs_from jl spec now m) = Some (job_observation kj spec now).
Proof.
  revert m. induction jl as [|kj' jl IH]; intros m Hnd Hin; [by apply not_elem_of_nil in Hin|].
  rewrite fmap_cons, NoDup_cons in Hnd. destruct Hnd as [Hni Hnd].
  apply elem_of_cons in Hin as [->|Hin]; [|by apply IH].
  change (jobs_from (kj' :: jl) spec now m)
    with (jobs_from jl spec now (BTreeMap.insert (kjob_uid kj') (job_observation kj' spec now) m)).
  rewrite jobs_from_get_other; [apply BTreeMap.get_insert|].
  intros k Hk Heq. apply Hni. rewrite <- Heq. by apply list_elem_of_fmap_2.
Qed.
End listing.

(** From the listing to the requests: a sweep never deletes a Job that is
    suspended, has an active pod or has finished none, and never deletes a Pod
    that is not [Succeeded] or [Failed] or whose owning Job, if listed, is not
    idle in that sense. *)
Theorem running_work_is_never_deleted {W} (send : KubeCall → W → W * result unit KubeError)
    ns spec t now cl jl pl w :
  let view := collect_view ns spec t cl jl pl in
  NoDup (kjob_uid <$> jl) → unique_names view →
  ∀ call, call ∈ calls_of (apply_plan send view spec (plan_reclaim view spec now) w) →
  match call with
  | DeleteJob jns name _ =>
      ∃ kj, kj ∈ jl ∧ default ""%string (ObjectMeta.namespace (KJob.metadata kj)) = jns ∧
            ObjectMeta.name_any (KJob.metadata kj) = name ∧ kjob_idle kj
  | DeletePod pns name _ =>
      ∃ kp, kp ∈ pl ∧ default ""%string (ObjectMeta.namespace (KPod.metadata kp)) = pns ∧
            ObjectMeta.name_any (KPod.metadata kp) = name ∧
            ((KPod.status kp ≫= KPod.phase) = Some "Succeeded"%string ∨
             (KPod.status kp ≫= KPod.phase) = Some "Failed"%string) ∧
            ∀ kj owner, kj ∈ jl →
              find_first (is_kind "Job") (owner_refs_of (ObjectMeta.owner_references (KPod.metadata kp)))
              = Some owner → Ref.uid owner = kjob_uid kj → kjob_idle kj
  | PatchJob _ _ _ => RetSpec.reconcile_owner_references spec = true
  end.
Proof.
  cbv zeta. intros Hnd Hu call Hin.
  pose proof (collect_view_jobs ns spec t cl jl pl) as [Hj Hp].
  apply (apply_plan_justified send) in Hin; [|done].
  destruct call as [jns name g|pns name g|jns name patch]; simpl in Hin.
  - destruct Hin as (job&Hin&Hid&(Ht&_)&_). unfold BTreeMap.values in Hin. rewrite Hj in Hin.
    apply list_elem_of_fmap in Hin as ([uid obs]&->&Hin). simpl in *.
    apply jobs_from_elem in Hin as [Hin|(kj&Hkj&_&->)]; [by apply not_elem_of_nil in Hin|].
    exists kj. injection Hid as Hns Hnm. split_and!; try done. by apply job_phase_terminal.
  - destruct Hin as (pod&Hin&Hid&(Ht&_&_&Hown)&_). rewrite Hp in Hin.
    apply list_elem_of_fmap in Hin as (kp&->&Hkp). exists kp. injection Hid as Hns Hnm.
    split_and!; try done; [by apply pod_phase_terminal|].
    intros kj owner Hkj Hown' Huid. unfold pod_owner_done in Hown. simpl in Hown. rewrite Hown' in Hown.
    apply job_phase_terminal. apply (Hown (job_observation kj spec t)).
    rewrite Hj, Huid. by apply jobs_from_get.
  - by destruct Hin as (job&u&_&_&Hrec&_).
Qed.
