(* ===== verification/JobOrphanWitness.v ===== *)
(** * The Job/CronJob orphan reconciler: a concrete namespace

    One namespace with a stuck Job and its Pod, a Job whose CronJob was recreated
    and a running Job with a finished Pod; the theorems of [JobOrphanFacts] that
    have hypotheses are applied to it. *)

From stdpp Require Import prelude strings gmap list.
From S2P Require Import Prelude RustStr Json Conditions BTreeMap JobRetention JobOrphan JobOrphanFacts.
Local Open Scope string_scope.

Definition meta (name uid : string) (refs : list Ref.t) : ObjectMeta.t :=
  ObjectMeta.mk (Some "stellar") name (Some uid) (Some refs) None
    (Some {[ DEFAULT_WORKLOAD_LABEL := DEFAULT_WORKLOAD_LABEL_VALUE ]}) (Some 0%Z).

(** [backup] was deleted, [report] was recreated under a new UID, [sync] runs. *)
Definition ns_cronjobs : list ObjectMeta.t := [meta "report" "c2" []; meta "sync" "c3" []].
Definition ns_jobs : list KJob.t :=
  [KJob.mk (meta "backup-1" "j1" [Ref.cron_job "backup" "c1"]) None
     (Some (KJob.mk_status None None (Some 1%Z) None));
   KJob.mk (meta "report-1" "j2" [Ref.cron_job "report" "c0"]) None
     (Some (KJob.mk_status None (Some 1%Z) None (Some (seconds 10))));
   KJob.mk (meta "sync-1" "j3" [Ref.cron_job "sync" "c3"]) None
     (Some (KJob.mk_status (Some 1%Z) (Some 1%Z) None None))].
Definition ns_pods : list KPod.t :=
  [KPod.mk (meta "backup-1-x" "p1" [Ref.job "backup-1" "j1"])
     (Some (KPod.mk_status (Some "Failed") (Some [Some (Some (Some (seconds 5)))])));
   KPod.mk (meta "sync-1-y" "p2" [Ref.job "sync-1" "j3"])
     (Some (KPod.mk_status (Some "Succeeded") None))].

Definition ns_now : DateTime := seconds 100000.
Definition ns_view : View.t :=
  collect_view "stellar" RetSpec.default ns_now ns_cronjobs ns_jobs ns_pods.
Definition dry_spec : RetSpec.t :=
  RetSpec.mk 3600 900 3600 1800 true true true true DEFAULT_WORKLOAD_LABEL DEFAULT_WORKLOAD_LABEL_VALUE
    PREVIOUS_NAMESPACE_ANNOTATION 30 300 true.

(** A server that accepts everything and counts the requests. *)
Definition accepting (call : KubeCall) (w : nat) : nat * result unit KubeError := (S w, Ok tt).

(** The sweep deletes the stuck Job and its Pod and repairs the recreated one;
    the Pod of the running Job stays. *)
Example ns_requests :
  calls_of (apply_plan accepting ns_view RetSpec.default (plan_reclaim ns_view RetSpec.default ns_now) 0)
  = [DeleteJob "stellar" "backup-1" 30;
     PatchJob "stellar" "report-1"
       (JObj [("metadata", JObj [("ownerReferences", JArr [Ref.to_json (Ref.cron_job "report" "c2")])])]);
     DeletePod "stellar" "backup-1-x" 30].
Proof. vm_compute. reflexivity. Qed.

Lemma ns_unique : unique_names ns_view.
Proof. unfold unique_names. refine (bool_decide_unpack _ _). vm_compute. exact I. Qed.

Lemma ns_uids : NoDup (kjob_uid <$> ns_jobs).
Proof. refine (bool_decide_unpack _ _). vm_compute. exact I. Qed.

Lemma ns_sorted : BTreeMap.sorted (View.jobs ns_view).
Proof.
  unfold ns_view. rewrite (proj1 (collect_view_jobs _ _ _ _ _ _)). apply jobs_from_sorted. constructor.
Qed.


Lemma dry_run_predicts_the_sweep_witness :
  apply_plan accepting ns_view dry_spec (plan_reclaim ns_view dry_spec ns_now) 7
  = (7, [], Outcome.mk 1 1 1 []).
Proof.
  rewrite (dry_run_predicts_the_sweep accepting accepting ns_view dry_spec ns_now 7 0 ns_unique eq_refl).
  - vm_compute. reflexivity.
  - intros call w. reflexivity.
Defined.

Definition report_job : JobObs.t :=
  job_observation (KJob.mk (meta "report-1" "j2" [Ref.cron_job "report" "c0"]) None
     (Some (KJob.mk_status None (Some 1%Z) None (Some (seconds 10))))) RetSpec.default ns_now.

Lemma repair_makes_the_owner_live_witness :
  resolve_job_owner ns_view (repaired_job report_job "c2") = Live.
Proof.
  apply (repair_makes_the_owner_live ns_view RetSpec.default report_job ns_now "c2").
  vm_compute. reflexivity.
Defined.

Lemma sweep_settles_witness :
  Plan.deletes (plan_reclaim ns_view RetSpec.default ns_now) ≠ [] ∧
  Plan.deletes (plan_reclaim (swept ns_view RetSpec.default ns_now) RetSpec.default ns_now) = [].
Proof.
  split; [vm_compute; discriminate|].
  exact (proj1 (sweep_settles ns_view RetSpec.default ns_now ns_sorted)).
Defined.

(** A Job and a Pod controlled by a live StellarNode, with Job deletion off. *)
Definition node_ref : Ref.t := Ref.mk "stellar.org/v1alpha1" "StellarNode" "validator" "n1" (Some true) None.
Definition node_job : JobObs.t :=
  job_observation (KJob.mk (meta "migrate" "j9" [node_ref]) None
     (Some (KJob.mk_status None (Some 1%Z) None None))) RetSpec.default ns_now.
Definition node_pod : PodObs.t :=
  pod_observation (KPod.mk (meta "validator-0" "p9" [node_ref])
     (Some (KPod.mk_status (Some "Failed") None))) RetSpec.default ns_now.
Definition no_job_deletion : RetSpec.t :=
  RetSpec.mk 3600 900 3600 1800 false true true true DEFAULT_WORKLOAD_LABEL DEFAULT_WORKLOAD_LABEL_VALUE
    PREVIOUS_NAMESPACE_ANNOTATION 30 300 false.

Lemma foreign_controllers_do_not_protect_witness :
  RetSpec.delete_orphaned_jobs no_job_deletion = false ∧
  deleted (classify_job ns_view no_job_deletion node_job ns_now) = true ∧
  deleted (classify_pod ns_view no_job_deletion node_pod ns_now) = true.
Proof.
  split; [reflexivity|].
  destruct (foreign_controllers_do_not_protect ns_view no_job_deletion ns_now node_job node_pod)
    as (Hj&_&Hp).
  - intros r Hr. apply list_elem_of_singleton in Hr. subst r. discriminate.
  - vm_compute. reflexivity.
  - exists 3600%Z. split; [reflexivity|]. vm_compute. discriminate.
  - intros r Hr. apply list_elem_of_singleton in Hr. subst r. discriminate.
  - vm_compute. reflexivity.
  - reflexivity.
  - reflexivity.
  - vm_compute. discriminate.
  - split; [exact Hj|exact Hp].
Defined.

Lemma running_work_is_never_deleted_witness :
  ∃ kp, kp ∈ ns_pods ∧ ObjectMeta.name_any (KPod.metadata kp) = "backup-1-x" ∧
    ∀ kj owner, kj ∈ ns_jobs →
      find_first (is_kind "Job") (owner_refs_of (ObjectMeta.owner_references (KPod.metadata kp)))
      = Some owner → Ref.uid owner = kjob_uid kj → kjob_idle kj.
Proof.
  destruct (running_work_is_never_deleted accepting "stellar" RetSpec.default ns_now ns_now ns_cronjobs
    ns_jobs ns_pods 0 ns_uids ns_unique (DeletePod "stellar" "backup-1-x" 30))
    as (kp&Hin&_&Hn&_&Hown).
  - fold ns_view. rewrite ns_requests. right. right. left.
  - exists kp. split; [exact Hin|]. split; [exact Hn|exact Hown].
Defined.
