(* ===== verification/BlueGreen.v ===== *)
(** * Validator blue/green rollout: the pure decisions

    Models the decision functions of [src/src/controller/blue_green_core.rs]
    (phases, cutover and rollback steps, the planners, the safety clamp, the
    promotion gate, the core configuration texts) with the types they use from
    [src/src/crd/types.rs] and [src/src/controller/sync_state_monitor.rs]. *)

From stdpp Require Import prelude strings gmap list.
From Stdlib Require Import Ascii.
From S2P Require Import Prelude RustStr.
Local Open Scope string_scope.

Definition COLOR_BLUE : string := "blue".
Definition COLOR_GREEN : string := "green".
Definition ROLE_ACTIVE : string := "active".
Definition ROLE_STANDBY : string := "standby".
Definition ANN_PHASE : string := "stellar.org/bg-phase".
Definition ANN_ACTIVE_COLOR : string := "stellar.org/bg-active-color".
Definition ANN_TARGET_VERSION : string := "stellar.org/bg-target-version".
Definition ANN_SNAPSHOT : string := "stellar.org/bg-snapshot".
Definition ANN_CUTOVER_AT : string := "stellar.org/bg-cutover-at".
Definition ANN_STARTED_AT : string := "stellar.org/bg-started-at".
Definition ANN_BLUE_VERSION : string := "stellar.org/bg-blue-version".
Definition ANN_RETRY : string := "stellar.org/bg-retry".
Definition ANN_CUTOVER_STEP : string := "stellar.org/bg-cutover-step".
Definition ANN_ROLLBACK_STEP : string := "stellar.org/bg-rollback-step".
Definition ANN_PUBLISH_ROLLOUT : string := "stellar.org/bg-publish-rollout".

(** ** Phases and steps *)

Module CoreBlueGreenPhase.

Inductive t :=
| BlueActive
| PreparingGreen
| WaitingForGreen
| CuttingOver
| GreenActive
| RollingBack
| Failed
| UpgradeDeferred.

#[global] Instance eq_dec : EqDecision t.
Proof. solve_decision. Defined.

Definition as_str (p : t) : string :=
  match p with
  | BlueActive => "BlueActive"
  | PreparingGreen => "PreparingGreen"
  | WaitingForGreen => "WaitingForGreen"
  | CuttingOver => "CuttingOver"
  | GreenActive => "GreenActive"
  | RollingBack => "RollingBack"
  | Failed => "Failed"
  | UpgradeDeferred => "UpgradeDeferred"
  end.

Definition parse (s : string) : t :=
  if String.eqb s "PreparingGreen" then PreparingGreen
  else if String.eqb s "WaitingForGreen" then WaitingForGreen
  else if String.eqb s "CuttingOver" || String.eqb s "Cutover" || String.eqb s "GreenReady" then CuttingOver
  else if String.eqb s "GreenActive" then GreenActive
  else if String.eqb s "RollingBack" then RollingBack
  else if String.eqb s "Failed" then Failed
  else if String.eqb s "UpgradeDeferred" then UpgradeDeferred
  else BlueActive.

End CoreBlueGreenPhase.

Module CutoverStep.

Inductive t :=
| ScaleBlueDown
| WaitBlueDown
| EnableGreenPublish
| WaitGreenHealthy
| SwitchService
| Complete.

#[global] Instance eq_dec : EqDecision t.
Proof. solve_decision. Defined.

Definition as_str (s : t) : string :=
  match s with
  | ScaleBlueDown => "ScaleBlueDown"
  | WaitBlueDown => "WaitBlueDown"
  | EnableGreenPublish => "EnableGreenPublish"
  | WaitGreenHealthy => "WaitGreenHealthy"
  | SwitchService => "SwitchService"
  | Complete => "Complete"
  end.

Definition parse (s : string) : t :=
  if String.eqb s "WaitBlueDown" then WaitBlueDown
  else if String.eqb s "EnableGreenPublish" then EnableGreenPublish
  else if String.eqb s "WaitGreenHealthy" then WaitGreenHealthy
  else if String.eqb s "SwitchService" then SwitchService
  else if String.eqb s "Complete" then Complete
  else ScaleBlueDown.

End CutoverStep.

Module CutoverCommand.

Inductive t := ScaleBlueToZero | Wait | EnableGreenPublishingAndRestart | SwitchServiceToGreenAndFinish.

End CutoverCommand.

Definition plan_cutover_advance (step : CutoverStep.t) (blue_fully_down green_eligible : bool)
    : CutoverStep.t * CutoverCommand.t :=
  match step with
  | CutoverStep.ScaleBlueDown => (CutoverStep.WaitBlueDown, CutoverCommand.ScaleBlueToZero)
  | CutoverStep.WaitBlueDown =>
      if blue_fully_down then
        (CutoverStep.EnableGreenPublish, CutoverCommand.EnableGreenPublishingAndRestart)
      else (CutoverStep.WaitBlueDown, CutoverCommand.Wait)
  | CutoverStep.EnableGreenPublish => (CutoverStep.WaitGreenHealthy, CutoverCommand.Wait)
  | CutoverStep.WaitGreenHealthy =>
      if green_eligible then
        (CutoverStep.SwitchService, CutoverCommand.SwitchServiceToGreenAndFinish)
      else (CutoverStep.WaitGreenHealthy, CutoverCommand.Wait)
  | CutoverStep.SwitchService | CutoverStep.Complete => (CutoverStep.Complete, CutoverCommand.Wait)
  end.

Definition may_switch_service_to_green (blue_fully_down green_eligible : bool) : bool :=
  blue_fully_down && green_eligible.

Definition green_must_stay_standby (blue_fully_down : bool) : bool := negb blue_fully_down.

Definition green_publish_rollout_observed (expected_token observed_pod_token : option string) : bool :=
  match expected_token with
  | Some expected =>
      if is_empty expected then false else bool_decide (observed_pod_token = Some expected)
  | None => false
  end.

Definition green_ready_for_service_switch (blue_fully_down health_eligible : bool)
    (expected_rollout observed_pod_rollout : option string) : bool :=
  may_switch_service_to_green blue_fully_down
    (health_eligible && green_publish_rollout_observed expected_rollout observed_pod_rollout).

Definition enforce_cutover_safety (step : CutoverStep.t) (blue_fully_down health_eligible : bool)
    (expected_rollout observed_pod_rollout : option string) : CutoverStep.t * bool :=
  let step :=
    if green_must_stay_standby blue_fully_down
       && match step with
          | CutoverStep.EnableGreenPublish | CutoverStep.WaitGreenHealthy | CutoverStep.SwitchService => true
          | _ => false
          end
    then CutoverStep.WaitBlueDown else step in
  (step, health_eligible && green_publish_rollout_observed expected_rollout observed_pod_rollout).

Module RollbackStep.

Inductive t := StopGreen | ScaleBlueUp | WaitBlueHealthy | SwitchService | Complete.

#[global] Instance eq_dec : EqDecision t.
Proof. solve_decision. Defined.

Definition as_str (s : t) : string :=
  match s with
  | StopGreen => "StopGreen"
  | ScaleBlueUp => "ScaleBlueUp"
  | WaitBlueHealthy => "WaitBlueHealthy"
  | SwitchService => "SwitchService"
  | Complete => "Complete"
  end.

Definition parse (s : string) : t :=
  if String.eqb s "ScaleBlueUp" then ScaleBlueUp
  else if String.eqb s "WaitBlueHealthy" then WaitBlueHealthy
  else if String.eqb s "SwitchService" then SwitchService
  else if String.eqb s "Complete" then Complete
  else StopGreen.

End RollbackStep.

Module RollbackCommand.

Inductive t := ScaleGreenToZero | ScaleBlueToOne | Wait | SwitchServiceToBlueAndFinish.

End RollbackCommand.

Definition plan_rollback_advance (step : RollbackStep.t) (blue_eligible : bool)
    : RollbackStep.t * RollbackCommand.t :=
  match step with
  | RollbackStep.StopGreen => (RollbackStep.ScaleBlueUp, RollbackCommand.ScaleGreenToZero)
  | RollbackStep.ScaleBlueUp => (RollbackStep.WaitBlueHealthy, RollbackCommand.ScaleBlueToOne)
  | RollbackStep.WaitBlueHealthy =>
      if blue_eligible then
        (RollbackStep.SwitchService, RollbackCommand.SwitchServiceToBlueAndFinish)
      else (RollbackStep.WaitBlueHealthy, RollbackCommand.Wait)
  | RollbackStep.SwitchService | RollbackStep.Complete => (RollbackStep.Complete, RollbackCommand.Wait)
  end.

(** ** The promotion gate *)

Module CoreSyncState.

Inductive t := CatchingUp | Synced | Unknown.

#[global] Instance eq_dec : EqDecision t.
Proof. solve_decision. Defined.

Definition display (s : t) : string :=
  match s with CatchingUp => "CatchingUp" | Synced => "Synced" | Unknown => "Unknown" end.

End CoreSyncState.

(** The two words searched for are ASCII, so lower-casing the ASCII letters
    decides the same as the full Unicode lower-casing. *)
Definition parse_sync_state (raw : string) : CoreSyncState.t :=
  let lower := to_ascii_lowercase raw in
  if contains "synced" lower then CoreSyncState.Synced
  else if contains "catching" lower then CoreSyncState.CatchingUp
  else CoreSyncState.Unknown.

Module CoreInfoSnapshot.

Record t := mk {
  sync_state : CoreSyncState.t;
  ledger : option Z;
  pod_ready : bool;
  reachable : bool;
  raw_state : option string;
}.

End CoreInfoSnapshot.

Module Snap := CoreInfoSnapshot.

Module CutoverGateResult.

Inductive t :=
| NotReady (reason : string)
| CatchingUp (sync_state : CoreSyncState.t) (green_ledger blue_ledger : option Z)
| Unhealthy (reason : string)
| Eligible (green_ledger blue_ledger lag : Z).

Definition is_eligible (g : t) : bool := match g with Eligible _ _ _ => true | _ => false end.

Definition reason (g : t) : string :=
  match g with
  | NotReady r => r
  | CatchingUp s _ _ => "catching up (" +:+ CoreSyncState.display s +:+ ")"
  | Unhealthy r => r
  | Eligible g b lag =>
      "eligible (ledger " +:+ show_Z g +:+ " vs ref " +:+ show_Z b +:+ ", lag " +:+ show_Z lag +:+ ")"
  end.

End CutoverGateResult.

(** [saturating_sub] on [u64]. *)
Definition saturating_sub (a b : Z) : Z := Z.max 0 (a - b).

Definition U64_MAX : Z := 2 ^ 64 - 1.

Definition evaluate_cutover_gate (candidate reference : Snap.t) (max_ledger_lag : Z)
    : CutoverGateResult.t :=
  if negb (Snap.reachable candidate) then
    CutoverGateResult.NotReady "candidate Core /info unreachable"
  else
    match Snap.sync_state candidate with
    | CoreSyncState.CatchingUp =>
        CutoverGateResult.CatchingUp CoreSyncState.CatchingUp (Snap.ledger candidate) (Snap.ledger reference)
    | CoreSyncState.Unknown =>
        CutoverGateResult.NotReady
          ("candidate sync state unknown (raw=" +:+ default "<none>" (Snap.raw_state candidate) +:+ ")")
    | CoreSyncState.Synced =>
        if negb (Snap.pod_ready candidate) then
          CutoverGateResult.Unhealthy "candidate is Synced but Kubernetes Ready is false"
        else
          match Snap.ledger candidate with
          | None => CutoverGateResult.Unhealthy "candidate Synced but ledger sequence missing from /info"
          | Some cand_ledger =>
              match Snap.ledger reference with
              | Some ref_ledger =>
                  let lag := saturating_sub ref_ledger cand_ledger in
                  if (max_ledger_lag <? lag)%Z then
                    CutoverGateResult.CatchingUp CoreSyncState.Synced (Some cand_ledger) (Some ref_ledger)
                  else CutoverGateResult.Eligible cand_ledger ref_ledger lag
              | None => CutoverGateResult.Eligible cand_ledger cand_ledger 0
              end
          end
    end.

Definition evaluate_rollback_gate (blue : Snap.t) : CutoverGateResult.t :=
  evaluate_cutover_gate blue blue U64_MAX.

Definition sts_status_fully_down (replicas ready current : option Z) : bool :=
  ((default 0 replicas =? 0) && (default 0 ready =? 0) && (default 0 current =? 0))%Z.

(** ** Core configuration texts *)

Definition apply_standby_core_config (cfg : string) : string :=
  let out := if negb (ends_with_char NL cfg) && negb (is_empty cfg) then cfg +:+ newline else cfg in
  out +:+ newline
  +:+ "# Stellar-K8s Validator blue/green standby (do not publish while blue is active)" +:+ newline
  +:+ "NODE_IS_VALIDATOR=false" +:+ newline.

(** The lines the publishing configuration drops. *)
Definition standby_line (l : string) : bool :=
  let t := trim l in
  starts_with "NODE_IS_VALIDATOR=" t || contains "blue/green standby" t
  || contains "do not publish while blue" t.

Definition apply_publishing_core_config (cfg : string) : string :=
  let kept := (List.filter (λ l, negb (standby_line l)) (lines cfg) ++ ["NODE_IS_VALIDATOR=true"])%list in
  let out := join newline kept in
  if negb (ends_with_char NL out) then out +:+ newline else out.

(** [now] is the reading of the clock that a new token would use. *)
Definition publish_rollout_annotation_value (publishing : bool) (previous : option string) (now : string)
    : option string :=
  if publishing then
    Some (match previous with Some s => if is_empty s then now else s | None => now end)
  else None.

(** [image.split('@').nth(1)], else the last piece of [image.rsplit(':')]. *)
Definition AT : ascii := "@"%char.
Definition COLON : ascii := ":"%char.

Definition image_version_tag (image : string) : string :=
  match split_char AT image !! 1 with
  | Some digest => digest
  | None => default image (last (split_char COLON image))
  end.

(** ** The node *)

Module NodeType.

Inductive t := Validator | Horizon | SorobanRpc.

#[global] Instance eq_dec : EqDecision t.
Proof. solve_decision. Defined.

End NodeType.

Module RolloutStrategyType.

Inductive t := RollingUpdate | Canary | BlueGreen.

#[global] Instance eq_dec : EqDecision t.
Proof. solve_decision. Defined.

End RolloutStrategyType.

Module BlueGreenStrategyConfig.

Record t := mk {
  max_ledger_lag : Z;
  ready_timeout_seconds : Z;
  require_volume_snapshot : bool;
  volume_snapshot_class_name : option string;
}.

Definition default : t := mk 5 600 false None.

End BlueGreenStrategyConfig.

Module BgConfig := BlueGreenStrategyConfig.

(** The fields of a [StellarNode] the rollout reads; the two status fields are
    [None] without a status. *)
Module StellarNode.

Record t := mk {
  name_any : string;
  namespace : option string;
  node_type : NodeType.t;
  strategy_type : RolloutStrategyType.t;
  blue_green : option BgConfig.t;
  version : string;
  suspended : bool;
  annotations : option (gmap string string);
  blue_green_phase : option string;
  blue_green_active_color : option string;
}.

Definition set_version (v : string) (n : t) : t :=
  mk (name_any n) (namespace n) (node_type n) (strategy_type n) (blue_green n) v (suspended n)
    (annotations n) (blue_green_phase n) (blue_green_active_color n).

Definition blue_green_or_default (n : t) : BgConfig.t := default BgConfig.default (blue_green n).

End StellarNode.

Module Node := StellarNode.

Definition resource_name (node : Node.t) (suffix : string) : string :=
  Node.name_any node +:+ "-" +:+ suffix.

Definition blue_sts_name (node : Node.t) : string := Node.name_any node.
Definition green_sts_name (node : Node.t) : string := Node.name_any node +:+ "-green".
Definition blue_pvc_name (node : Node.t) : string := resource_name node "data".
Definition green_pvc_name (node : Node.t) : string := resource_name node "green-data".
Definition green_config_name (node : Node.t) : string := resource_name node "green-config".
Definition green_headless_name (node : Node.t) : string := Node.name_any node +:+ "-green-headless".
Definition blue_headless_name (node : Node.t) : string := Node.name_any node +:+ "-headless".

Definition annotation (node : Node.t) (key : string) : option string :=
  Node.annotations node ≫= λ a : gmap string string, a !! key.

Definition read_phase (node : Node.t) : CoreBlueGreenPhase.t :=
  match Node.blue_green_phase node with
  | Some s => CoreBlueGreenPhase.parse s
  | None => match annotation node ANN_PHASE with
            | Some s => CoreBlueGreenPhase.parse s
            | None => CoreBlueGreenPhase.BlueActive
            end
  end.

Definition read_active_color (node : Node.t) : string :=
  match Node.blue_green_active_color node with
  | Some c => c
  | None => default COLOR_BLUE (annotation node ANN_ACTIVE_COLOR)
  end.

Definition read_cutover_step (node : Node.t) : CutoverStep.t :=
  default CutoverStep.ScaleBlueDown (CutoverStep.parse <$> annotation node ANN_CUTOVER_STEP).

Definition read_rollback_step (node : Node.t) : RollbackStep.t :=
  default RollbackStep.StopGreen (RollbackStep.parse <$> annotation node ANN_ROLLBACK_STEP).

Definition retry_requested (node : Node.t) : bool :=
  match annotation node ANN_RETRY with
  | Some v => String.eqb v "true" || String.eqb v "1"
  | None => false
  end.

Definition should_take_over_validator_workload (node : Node.t) : bool :=
  bool_decide (Node.node_type node = NodeType.Validator)
  && bool_decide (Node.strategy_type node = RolloutStrategyType.BlueGreen).

Definition storage_identities (node : Node.t) : string * string := (blue_pvc_name node, green_pvc_name node).
Definition protected_pvc_names (node : Node.t) : list string := [blue_pvc_name node; green_pvc_name node].
