(* ===== verification/BlueGreenReconcile.v ===== *)
(** * Validator blue/green rollout: the reconciler

    Models the effectful part of [src/src/controller/blue_green_core.rs] as
    programs (see [Prog]) over the requests it makes.  A request to apply an object
    carries what the call site decides (name, color, role, replicas, claim,
    configuration, rollout token, dry run); the rendering of the object by the
    builders of [resources.rs], with the mTLS and seed-injection settings passed
    through to them, is not modelled. *)

From stdpp Require Import prelude strings gmap list.
From S2P Require Import Prelude RustStr Prog BlueGreen.
Local Open Scope string_scope.

Module BgPhase := CoreBlueGreenPhase.

(** What the rollout uses of chrono. *)
Class BgChrono := {
  to_rfc3339 : DateTime → string;
  parse_rfc3339 : string → option DateTime;
  compact_timestamp : DateTime → string;
}.

(** ** Requests *)

(** An error of the API server. *)
Inductive KErr := NotFound | OtherError (text : string).

(** The fields of a StatefulSet and of a Pod that are read. *)
Module StsView.

Record t : Set := mk {
  spec_replicas : option Z;
  status : option (option Z * Z);   (** ready replicas and replicas *)
  image : option string;            (** of the first container *)
}.

End StsView.

Module PodView.

Record t : Set := mk {
  conditions : option (list (string * string));   (** type and status *)
  pod_ip : option string;
  annotations : option (gmap string string);
}.

End PodView.

Record StsArgs : Set := sts_args {
  sts_version : string;
  sts_color : string;
  sts_role : string;
  sts_name : string;
  sts_pvc : string;
  sts_config : string;
  sts_headless : string;
  sts_replicas : Z;
  sts_dry_run : bool;
  sts_publish_rollout : option string;
}.

Record BgStatus : Set := bg_status {
  st_phase : string;
  st_active_color : string;
  st_message : string;
  st_target_version : option string;
  st_snapshot : option string;
}.

Inductive Op : Set → Type :=
| GetSts (name : string) : Op (result StsView.t KErr)
| ListPods (selector : string) : Op (result (list PodView.t) KErr)
| QueryInfo (ip : string) : Op (result (string * option Z) string)
| GetVolumeSnapshot (name : string) : Op (result (option bool) KErr)
| CreateVolumeSnapshot (name pvc : string) (class : option string) : Op (result unit KErr)
| GetPvc (name : string) : Op (result unit KErr)
| CreatePvc (name : string) (data_source : option string) : Op (result unit KErr)
| ApplySts (args : StsArgs) : Op (result unit KErr)
| ApplyService (color : string) (dry_run : bool) : Op (result unit KErr)
| ApplyHeadless (name color role : string) (dry_run : bool) : Op (result unit KErr)
| ApplyGreenConfig (publishing dry_run : bool) : Op (result unit KErr)
| PatchNode (annotations : list (string * option string)) (status : option BgStatus) : Op (result unit KErr)
| PatchStatus (status : BgStatus) : Op (result unit KErr)
| Delete (kind name : string) : Op (result unit KErr)
| UtcNow : Op Z.

Abbreviation prog := (tree Op KErr).

Definition utc_now : prog Z := Vis UtcNow Ret.

(** ** Observations *)

Definition pod_ready (pod : PodView.t) : bool :=
  match PodView.conditions pod with
  | Some cs => existsb (λ c, String.eqb (fst c) "Ready" && String.eqb (snd c) "True") cs
  | None => false
  end.

Definition pod_publish_rollout_token (pod : PodView.t) : option string :=
  match PodView.annotations pod ≫= λ a : gmap string string, a !! ANN_PUBLISH_ROLLOUT with
  | Some s => if is_empty s then None else Some s
  | None => None
  end.

Definition color_selector (node : Node.t) (color : string) : string :=
  "app.kubernetes.io/instance=" +:+ Node.name_any node +:+ ",stellar.org/deployment-color=" +:+ color.

Definition list_pods_for_color (node : Node.t) (color : string) : prog (list PodView.t) :=
  request (ListPods (color_selector node color)).

Definition sts_image_version (name : string) : prog (option string) :=
  Vis (GetSts name) (λ r, match r with
    | Ok sts => Ret (image_version_tag <$> StsView.image sts)
    | Err NotFound => Ret None
    | Err e => Throw e
    end).

Definition sts_view_down (sts : StsView.t) : bool :=
  sts_status_fully_down (StsView.spec_replicas sts) (StsView.status sts ≫= fst)
    (snd <$> StsView.status sts).

Definition sts_fully_down (name : string) : prog bool :=
  Vis (GetSts name) (λ r, match r with
    | Ok sts => Ret (sts_view_down sts)
    | Err NotFound => Ret true
    | Err e => Throw e
    end).

Definition no_ready_pods_for_color (node : Node.t) (color : string) : prog bool :=
  pods ← request (ListPods (color_selector node color));
  mret (negb (existsb pod_ready pods)).

Definition blue_fully_down (node : Node.t) : prog bool :=
  sts_down ← sts_fully_down (blue_sts_name node);
  pods_down ← no_ready_pods_for_color node COLOR_BLUE;
  mret (sts_down && pods_down).

Definition green_observed_publish_rollout (node : Node.t) : prog (option string) :=
  pods ← list_pods_for_color node COLOR_GREEN;
  let pod := match find_first pod_ready pods with Some p => Some p | None => head pods end in
  mret (pod ≫= pod_publish_rollout_token).

Definition snapshot_for_color (node : Node.t) (color : string) : prog Snap.t :=
  pods ← list_pods_for_color node color;
  match head pods with
  | None => mret (Snap.mk CoreSyncState.Unknown None false false None)
  | Some pod =>
      let ready := pod_ready pod in
      match PodView.pod_ip pod with
      | None => mret (Snap.mk CoreSyncState.Unknown None ready false None)
      | Some ip =>
          Vis (QueryInfo ip) (λ r, match r with
            | Ok (raw, ledger) => Ret (Snap.mk (parse_sync_state raw) ledger ready true (Some raw))
            | Err _ => Ret (Snap.mk CoreSyncState.Unknown None ready false None)
            end)
      end
  end.

Definition snapshot_ready (name : string) : prog bool :=
  Vis (GetVolumeSnapshot name) (λ r, match r with
    | Ok ready => Ret (default false ready)
    | Err NotFound => Ret false
    | Err e => Throw e
    end).

(** ** Mutations *)

Definition opt_ann (key : string) (v : option string) : list (string * option string) :=
  match v with Some s => [(key, Some s)] | None => [] end.

Definition patch_node_progress (phase : BgPhase.t) (active_color message : string)
    (target_version snapshot cutover_step rollback_step : option string) : prog unit :=
  let ann := ([(ANN_PHASE, Some (BgPhase.as_str phase)); (ANN_ACTIVE_COLOR, Some active_color)]
              ++ opt_ann ANN_TARGET_VERSION target_version ++ opt_ann ANN_SNAPSHOT snapshot
              ++ opt_ann ANN_CUTOVER_STEP cutover_step ++ opt_ann ANN_ROLLBACK_STEP rollback_step)%list in
  let status := bg_status (BgPhase.as_str phase) active_color message target_version snapshot in
  _ ← request (PatchNode ann (Some status));
  attempt (PatchStatus status).

Definition clear_retry_annotation : prog unit := request (PatchNode [(ANN_RETRY, None)] None).

Definition ensure_active_service_selector (active_color : string) (dry_run : bool) : prog unit :=
  request (ApplyService active_color dry_run).

Definition ensure_headless_service (name color role : string) (dry_run : bool) : prog unit :=
  request (ApplyHeadless name color role dry_run).

Definition ensure_green_config (publishing dry_run : bool) : prog unit :=
  request (ApplyGreenConfig publishing dry_run).

(** [ensure_colored_statefulset] for the two colors; every call site passes the
    names of its color. *)
Definition ensure_green_sts (node : Node.t) (role : string) (replicas : Z) (dry_run : bool)
    (publish_rollout : option string) : prog unit :=
  request (ApplySts (sts_args (Node.version node) COLOR_GREEN role (green_sts_name node)
    (green_pvc_name node) (green_config_name node) (green_headless_name node) replicas dry_run
    publish_rollout)).

Definition ensure_blue_sts (node : Node.t) (version : string) (role : string) (replicas : Z)
    (dry_run : bool) : prog unit :=
  request (ApplySts (sts_args version COLOR_BLUE role (blue_sts_name node) (blue_pvc_name node)
    (resource_name node "config") (blue_headless_name node) replicas dry_run None)).

(** [blue_node.spec.version]: the recorded blue version when it is not empty. *)
Definition recorded_or (recorded : option string) (node : Node.t) : string :=
  match recorded with
  | Some v => if is_empty v then Node.version node else v
  | None => Node.version node
  end.

Definition ensure_green_pvc (node : Node.t) (snapshot_name : option string) (dry_run : bool) : prog unit :=
  Vis (GetPvc (green_pvc_name node)) (λ r, match r with
    | Ok _ => Ret tt
    | Err NotFound => if dry_run then Ret tt else request (CreatePvc (green_pvc_name node) snapshot_name)
    | Err e => Throw e
    end).

Definition create_cutover_snapshot_from_pvc `{BgChrono} (node : Node.t) (config : BgConfig.t)
    (pvc_name source_label : string) : prog string :=
  now ← utc_now;
  let snapshot_name := Node.name_any node +:+ "-bg-" +:+ source_label +:+ "-" +:+ compact_timestamp now in
  Vis (GetVolumeSnapshot snapshot_name) (λ r, match r with
    | Ok _ => Ret snapshot_name
    | Err NotFound =>
        _ ← request (CreateVolumeSnapshot snapshot_name pvc_name (BgConfig.volume_snapshot_class_name config));
        mret snapshot_name
    | Err e => Throw e
    end).

Definition delete_optional (kind name : string) : prog unit :=
  if String.eqb kind "sts" || String.eqb kind "cm" || String.eqb kind "svc" then
    Vis (Delete kind name) (λ r, match r with
      | Ok _ => Ret tt
      | Err NotFound => Ret tt
      | Err e => Throw e
      end)
  else mret tt.

Definition cleanup_green_resources (node : Node.t) : prog unit :=
  _ ← delete_optional "sts" (green_sts_name node);
  _ ← delete_optional "cm" (green_config_name node);
  _ ← delete_optional "svc" (green_headless_name node);
  mret tt.

Definition rollout_timed_out `{BgChrono} (node : Node.t) (config : BgConfig.t) : prog bool :=
  match annotation node ANN_STARTED_AT ≫= parse_rfc3339 with
  | None => mret false
  | Some started =>
      now ← utc_now;
      mret (as_i64 (BgConfig.ready_timeout_seconds config) <? num_seconds (now - started))%Z
  end.

(** ** Serialized cutover *)

Section rollout.
Context `{BgChrono}.
Context (node : Node.t) (config : BgConfig.t) (dry_run : bool).

(** The message of a waiting cutover. *)
Definition cutover_wait_message (step : CutoverStep.t) (blue_down health_eligible green_eligible : bool)
    (expected observed : option string) : string :=
  "cutover step " +:+ CutoverStep.as_str step +:+ " (blue_down=" +:+ show_bool blue_down
  +:+ ", health_eligible=" +:+ show_bool health_eligible +:+ ", rollout_observed="
  +:+ show_bool (green_publish_rollout_observed expected observed) +:+ ", green_eligible="
  +:+ show_bool green_eligible +:+ ")".

(** The observations of one iteration. *)
Definition observe_cutover : prog (bool * bool * option string) :=
  blue_down ← blue_fully_down node;
  green ← snapshot_for_color node COLOR_GREEN;
  blue_ref ← snapshot_for_color node COLOR_BLUE;
  observed_rollout ← green_observed_publish_rollout node;
  mret (blue_down,
        CutoverGateResult.is_eligible (evaluate_cutover_gate green blue_ref (BgConfig.max_ledger_lag config)),
        observed_rollout).

Definition scale_blue_to_zero (desired_version : string) (next : CutoverStep.t) : prog unit :=
  _ ← ensure_blue_sts node (recorded_or (annotation node ANN_BLUE_VERSION) node) ROLE_STANDBY 0 dry_run;
  _ ← ensure_active_service_selector COLOR_BLUE dry_run;
  _ ← ensure_green_config false dry_run;
  patch_node_progress BgPhase.CuttingOver COLOR_BLUE
    "scaled blue to 0; waiting for blue pods to terminate before green publishes"
    (Some desired_version) (annotation node ANN_SNAPSHOT) (Some (CutoverStep.as_str next)) None.

(** Returns the new rollout token. *)
Definition enable_green_publishing (desired_version : string) : prog string :=
  now ← utc_now;
  let rollout_token := to_rfc3339 now in
  _ ← ensure_green_config true dry_run;
  _ ← ensure_green_sts node ROLE_ACTIVE 1 dry_run (Some rollout_token);
  _ ← attempt (PatchNode [(ANN_PUBLISH_ROLLOUT, Some rollout_token)] None);
  _ ← patch_node_progress BgPhase.CuttingOver COLOR_BLUE
    "green publishing enabled with forced STS rollout; waiting for Ready+Synced and observed publish-rollout before Service switch"
    (Some desired_version) (annotation node ANN_SNAPSHOT)
    (Some (CutoverStep.as_str CutoverStep.WaitGreenHealthy)) None;
  mret rollout_token.

Definition switch_service_to_green (desired_version : string) : prog unit :=
  _ ← ensure_active_service_selector COLOR_GREEN dry_run;
  now ← utc_now;
  _ ← attempt (PatchNode [(ANN_CUTOVER_AT, Some (to_rfc3339 now));
                          (ANN_CUTOVER_STEP, Some (CutoverStep.as_str CutoverStep.Complete))] None);
  patch_node_progress BgPhase.GreenActive COLOR_GREEN
    "cutover complete; Service on green. Blue retained at replicas=0 for rollback (PVC preserved)."
    (Some desired_version) (annotation node ANN_SNAPSHOT)
    (Some (CutoverStep.as_str CutoverStep.Complete)) None.

Fixpoint cutover_loop (fuel : nat) (desired_version : string) (step : CutoverStep.t)
    (expected_rollout : option string) : prog unit :=
  match fuel with
  | 0 => mret tt
  | S fuel =>
      obs ← observe_cutover;
      let '(blue_down, health_eligible, observed_rollout) := obs in
      let '(step, green_eligible) :=
        enforce_cutover_safety step blue_down health_eligible expected_rollout observed_rollout in
      let '(next, cmd) := plan_cutover_advance step blue_down green_eligible in
      match cmd with
      | CutoverCommand.ScaleBlueToZero =>
          _ ← scale_blue_to_zero desired_version next;
          if bool_decide (next = CutoverStep.Complete) then mret tt
          else cutover_loop fuel desired_version next expected_rollout
      | CutoverCommand.EnableGreenPublishingAndRestart =>
          if negb blue_down then
            cutover_loop fuel desired_version CutoverStep.WaitBlueDown expected_rollout
          else
            token ← enable_green_publishing desired_version;
            cutover_loop fuel desired_version CutoverStep.WaitGreenHealthy (Some token)
      | CutoverCommand.SwitchServiceToGreenAndFinish =>
          if negb (green_ready_for_service_switch blue_down health_eligible expected_rollout observed_rollout)
          then cutover_loop fuel desired_version CutoverStep.WaitGreenHealthy expected_rollout
          else switch_service_to_green desired_version
      | CutoverCommand.Wait =>
          patch_node_progress BgPhase.CuttingOver COLOR_BLUE
            (cutover_wait_message step blue_down health_eligible green_eligible expected_rollout observed_rollout)
            (Some desired_version) (annotation node ANN_SNAPSHOT) (Some (CutoverStep.as_str step)) None
      end
  end.

Definition run_cutover_steps (desired_version : string) : prog unit :=
  cutover_loop 4 desired_version (read_cutover_step node) (annotation node ANN_PUBLISH_ROLLOUT).

(** ** Serialized rollback *)

Definition rollback_progress (phase : BgPhase.t) (color message : string) (step : RollbackStep.t) : prog unit :=
  patch_node_progress phase color message (annotation node ANN_TARGET_VERSION)
    (annotation node ANN_SNAPSHOT) None (Some (RollbackStep.as_str step)).

Fixpoint rollback_loop (fuel : nat) (step : RollbackStep.t) : prog unit :=
  match fuel with
  | 0 => mret tt
  | S fuel =>
      blue ← snapshot_for_color node COLOR_BLUE;
      let blue_eligible :=
        CutoverGateResult.is_eligible (evaluate_cutover_gate blue blue (BgConfig.max_ledger_lag config)) in
      let '(next, cmd) := plan_rollback_advance step blue_eligible in
      match cmd with
      | RollbackCommand.ScaleGreenToZero =>
          _ ← ensure_green_config false dry_run;
          _ ← ensure_green_sts node ROLE_STANDBY 0 dry_run None;
          _ ← rollback_progress BgPhase.RollingBack COLOR_GREEN
            "rollback: green scaled to 0 / non-publishing; scaling blue up (Service still on green)" next;
          rollback_loop fuel next
      | RollbackCommand.ScaleBlueToOne =>
          _ ← ensure_blue_sts node (recorded_or (annotation node ANN_BLUE_VERSION) node) ROLE_ACTIVE 1 dry_run;
          _ ← rollback_progress BgPhase.RollingBack COLOR_GREEN
            "rollback: blue scaled to 1; waiting for Ready+Synced before Service switch" next;
          rollback_loop fuel next
      | RollbackCommand.SwitchServiceToBlueAndFinish =>
          if negb blue_eligible then rollback_loop fuel RollbackStep.WaitBlueHealthy
          else
            _ ← ensure_active_service_selector COLOR_BLUE dry_run;
            rollback_progress BgPhase.BlueActive COLOR_BLUE
              "rollback complete; Service on blue after Ready+Synced. Green retained scaled to 0 (PVC preserved)."
              RollbackStep.Complete
      | RollbackCommand.Wait =>
          rollback_progress BgPhase.RollingBack COLOR_GREEN
            ("rollback step " +:+ RollbackStep.as_str step +:+ " waiting for blue Ready+Synced (eligible="
             +:+ show_bool blue_eligible +:+ ")") step
      end
  end.

Definition run_rollback_steps : prog unit := rollback_loop 4 (read_rollback_step node).

Definition replicas_unless_suspended : Z := if Node.suspended node then 0 else 1.

(** Green kept publishing and blue kept at zero. *)
Definition hold_green : prog unit :=
  _ ← ensure_green_config true dry_run;
  _ ← ensure_green_sts node ROLE_ACTIVE replicas_unless_suspended dry_run (annotation node ANN_PUBLISH_ROLLOUT);
  _ ← ensure_active_service_selector COLOR_GREEN dry_run;
  ensure_blue_sts node (recorded_or (annotation node ANN_BLUE_VERSION) node) ROLE_STANDBY 0 dry_run.

Definition maintain_green_active : prog unit :=
  _ ← hold_green;
  green ← snapshot_for_color node COLOR_GREEN;
  if negb (CutoverGateResult.is_eligible (evaluate_rollback_gate green)) then
    _ ← patch_node_progress BgPhase.RollingBack COLOR_GREEN
      "post-cutover green health failed; rolling back (Service still on green until blue Ready+Synced)"
      (Some (Node.version node)) (annotation node ANN_SNAPSHOT) None
      (Some (RollbackStep.as_str RollbackStep.StopGreen));
    run_rollback_steps
  else
    patch_node_progress BgPhase.GreenActive COLOR_GREEN
      "green active and healthy; blue retained at 0 for rollback"
      (Some (Node.version node)) (annotation node ANN_SNAPSHOT)
      (Some (CutoverStep.as_str CutoverStep.Complete)) None.

(** ** The phases of the reconciler *)

Definition defer_upgrade : prog unit :=
  _ ← patch_node_progress BgPhase.UpgradeDeferred COLOR_GREEN
    "green is active; further blue/green upgrades are deferred until a safe storage lifecycle exists. Do not delete PVCs. Consolidate manually or use rollingUpdate after returning to a single active STS."
    (Some (Node.version node)) (annotation node ANN_SNAPSHOT) None None;
  hold_green.

Definition hold_failed : prog unit :=
  _ ← ensure_blue_sts node (Node.version node) ROLE_ACTIVE 1 dry_run;
  ensure_active_service_selector COLOR_BLUE dry_run.

Definition hold_blue : prog unit :=
  _ ← ensure_blue_sts node (Node.version node) ROLE_ACTIVE replicas_unless_suspended dry_run;
  _ ← ensure_active_service_selector COLOR_BLUE dry_run;
  patch_node_progress BgPhase.BlueActive COLOR_BLUE "blue active; no blue/green upgrade in progress"
    None None None None.

Definition start_upgrade (blue_version : option string) : prog unit :=
  now ← utc_now;
  attempt (PatchNode [(ANN_STARTED_AT, Some (to_rfc3339 now));
                      (ANN_BLUE_VERSION, Some (default "" blue_version));
                      (ANN_TARGET_VERSION, Some (Node.version node));
                      (ANN_PHASE, Some (BgPhase.as_str BgPhase.PreparingGreen));
                      (ANN_CUTOVER_STEP, None); (ANN_ROLLBACK_STEP, None)] None).

Definition keep_blue_publishing (blue_version : option string) : prog unit :=
  let recorded := match annotation node ANN_BLUE_VERSION with Some v => Some v | None => blue_version end in
  _ ← ensure_blue_sts node (recorded_or recorded node) ROLE_ACTIVE 1 dry_run;
  ensure_active_service_selector COLOR_BLUE dry_run.

(** The standby color, once its volume source (if any) is settled. *)
Definition create_green_standby (snapshot_name : option string) : prog unit :=
  _ ← ensure_green_pvc node snapshot_name dry_run;
  _ ← ensure_green_config false dry_run;
  _ ← ensure_headless_service (green_headless_name node) COLOR_GREEN ROLE_STANDBY dry_run;
  _ ← ensure_green_sts node ROLE_STANDBY 1 dry_run None;
  patch_node_progress BgPhase.WaitingForGreen COLOR_BLUE
    "green standby created (NODE_IS_VALIDATOR=false); waiting for sync/ledger gate"
    (Some (Node.version node)) snapshot_name None None.

Definition prepare_green : prog unit :=
  if BgConfig.require_volume_snapshot config then
    snap ← match annotation node ANN_SNAPSHOT with
           | Some s => if is_empty s then create_cutover_snapshot_from_pvc node config (blue_pvc_name node) "blue"
                       else mret s
           | None => create_cutover_snapshot_from_pvc node config (blue_pvc_name node) "blue"
           end;
    ready ← snapshot_ready snap;
    if negb ready then
      patch_node_progress BgPhase.PreparingGreen COLOR_BLUE
        ("waiting for VolumeSnapshot " +:+ snap +:+ " to become ready")
        (Some (Node.version node)) (Some snap) None None
    else create_green_standby (Some snap)
  else create_green_standby None.

(** The gate of a waiting standby, and the cutover it opens. *)
Definition promote_when_eligible : prog unit :=
  green ← snapshot_for_color node COLOR_GREEN;
  blue ← snapshot_for_color node COLOR_BLUE;
  let gate := evaluate_cutover_gate green blue (BgConfig.max_ledger_lag config) in
  if negb (CutoverGateResult.is_eligible gate) then
    patch_node_progress BgPhase.WaitingForGreen COLOR_BLUE
      ("green standby not eligible: " +:+ CutoverGateResult.reason gate)
      (Some (Node.version node)) (annotation node ANN_SNAPSHOT) None None
  else
    _ ← patch_node_progress BgPhase.CuttingOver COLOR_BLUE
      "green eligible; starting serialized cutover (Service still on blue)"
      (Some (Node.version node)) (annotation node ANN_SNAPSHOT)
      (Some (CutoverStep.as_str CutoverStep.ScaleBlueDown)) None;
    run_cutover_steps (Node.version node).

Definition wait_for_green : prog unit :=
  timed_out ← rollout_timed_out node config;
  if timed_out : bool then
    _ ← ignore_errors (cleanup_green_resources node);
    patch_node_progress BgPhase.Failed COLOR_BLUE
      "green failed readyTimeoutSeconds; blue remains active. Set annotation stellar.org/bg-retry=true to retry."
      (Some (Node.version node)) (annotation node ANN_SNAPSHOT) None None
  else promote_when_eligible.
End rollout.

(** Green is, or is becoming, the active color. *)
Definition green_mode (phase : BgPhase.t) (active_color : string) : bool :=
  match phase with
  | BgPhase.GreenActive | BgPhase.UpgradeDeferred | BgPhase.RollingBack => true
  | _ => false
  end || String.eqb active_color COLOR_GREEN.

(** What follows once the phase of this pass is known. *)
Definition advance_phase_of `{BgChrono} (node : Node.t) (config : BgConfig.t) (dry_run : bool)
    (phase : BgPhase.t) : prog unit :=
  match phase with
  | BgPhase.PreparingGreen => prepare_green node config dry_run
  | BgPhase.WaitingForGreen => wait_for_green node config dry_run
  | BgPhase.CuttingOver => run_cutover_steps node config dry_run (Node.version node)
  | BgPhase.GreenActive => maintain_green_active node config dry_run
  | BgPhase.RollingBack => run_rollback_steps node config dry_run
  | _ => mret tt
  end.

(** The pass from [needs_upgrade] on. *)
Definition continue_rollout `{BgChrono} (node : Node.t) (config : BgConfig.t) (dry_run : bool)
    (phase : BgPhase.t) (active_color : string) (blue_version : option string) : prog unit :=
  let needs_upgrade :=
    match blue_version with
    | Some v => negb (String.eqb v (Node.version node)) && String.eqb active_color COLOR_BLUE
    | None => false
    end in
  match phase with
  | BgPhase.Failed => hold_failed node dry_run
  | BgPhase.UpgradeDeferred => mret tt
  | BgPhase.BlueActive =>
      if negb needs_upgrade then hold_blue node dry_run
      else
        _ ← start_upgrade node blue_version;
        _ ← keep_blue_publishing node dry_run blue_version;
        advance_phase_of node config dry_run BgPhase.PreparingGreen
  | BgPhase.PreparingGreen | BgPhase.WaitingForGreen =>
      _ ← keep_blue_publishing node dry_run blue_version;
      advance_phase_of node config dry_run phase
  | _ => advance_phase_of node config dry_run phase
  end.

Definition reconcile_validator_blue_green `{BgChrono} (node : Node.t) (dry_run : bool) : prog unit :=
  if negb (bool_decide (Node.node_type node = NodeType.Validator)) then mret tt
  else if negb (bool_decide (Node.strategy_type node = RolloutStrategyType.BlueGreen)) then mret tt
  else
    let config := Node.blue_green_or_default node in
    let active_color := read_active_color node in
    phase ← (if bool_decide (read_phase node = BgPhase.Failed) && retry_requested node then
               _ ← clear_retry_annotation;
               _ ← patch_node_progress BgPhase.BlueActive COLOR_BLUE
                     "retry requested; re-entering blue/green from BlueActive" None None None None;
               mret BgPhase.BlueActive
             else mret (read_phase node));
    _ ← ensure_headless_service (blue_headless_name node) COLOR_BLUE
          (if String.eqb active_color COLOR_BLUE then ROLE_ACTIVE else ROLE_STANDBY) dry_run;
    image ← sts_image_version (blue_sts_name node);
    let blue_version := match image with Some v => Some v | None => annotation node ANN_BLUE_VERSION end in
    if green_mode phase active_color && negb (bool_decide (phase = BgPhase.RollingBack)) then
      green_ver ← sts_image_version (green_sts_name node);
      if match green_ver with Some v => negb (String.eqb v (Node.version node)) | None => false end then
        defer_upgrade node dry_run
      else if bool_decide (phase = BgPhase.UpgradeDeferred) then mret tt
      else continue_rollout node config dry_run BgPhase.GreenActive active_color blue_version
    else continue_rollout node config dry_run phase active_color blue_version.
