(* ===== verification/BlueGreenFacts.v ===== *)
(** * Validator blue/green rollout: theorems

    The safety of every trace of the reconciler against arbitrary answers: serialized cutover, rollback, deletions, failure, and the
    pure decisions. *)

From stdpp Require Import prelude strings gmap list.
From S2P Require Import Prelude RustStr Prog BlueGreen BlueGreenReconcile.

Abbreviation event := (Prog.event Op).
Abbreviation op_pred := (Prog.op_pred Op).


(** ** The promotion gate *)

Definition gate_holds (cand ref : Snap.t) (max_ledger_lag : Z) : Prop :=
  Snap.reachable cand = true ∧ Snap.sync_state cand = CoreSyncState.Synced ∧ Snap.pod_ready cand = true
  ∧ ∃ l, Snap.ledger cand = Some l ∧ ∀ l', Snap.ledger ref = Some l' → (saturating_sub l' l ≤ max_ledger_lag)%Z.

Lemma gate_eligible cand ref max_lag :
  CutoverGateResult.is_eligible (evaluate_cutover_gate cand ref max_lag) = true ↔ gate_holds cand ref max_lag.
Proof.
  unfold evaluate_cutover_gate, gate_holds, saturating_sub.
  destruct cand as [s l rdy rch raw], ref as [s' l' rdy' rch' raw']; simpl.
  destruct rch; simpl; [|split; [done|intros [? _]; done]].
  destruct s; simpl; try (split; [done|intros (? & ? & _); done]).
  destruct rdy; simpl; [|split; [done|intros (? & ? & ? & _); done]].
  destruct l as [l|]; simpl; [|split; [done|intros (? & ? & ? & ? & ? & _); done]].
  destruct l' as [l'|]; simpl.
  - destruct (Z.ltb_spec max_lag (Z.max 0 (l' - l))); simpl; split; try done.
    + intros (_ & _ & _ & m & [= <-] & Hm). specialize (Hm l' eq_refl). lia.
    + intros _. repeat split. exists l. split; [done|]. intros ? [= <-]. lia.
  - split; [|done]. intros _. repeat split. exists l. by split.
Qed.

(** ** What a cutover observes *)

(** An answer to a read of a StatefulSet that shows it down. *)
Definition sts_answer_down (r : result StsView.t KErr) : bool :=
  match r with Ok sts => sts_view_down sts | Err NotFound => true | Err _ => false end.

Definition blue_seen_down (node : Node.t) (blk : list event) : Prop :=
  ∃ r pods,
    blk = [Ev (GetSts (blue_sts_name node)) r; Ev (ListPods (color_selector node COLOR_BLUE)) (Ok pods)]
    ∧ sts_answer_down r = true ∧ existsb pod_ready pods = false.

(** The reads from which [snapshot_for_color] makes the snapshot [s]. *)
Inductive seen_snapshot (node : Node.t) (color : string) : list event → Snap.t → Prop :=
| seen_no_pod :
    seen_snapshot node color [Ev (ListPods (color_selector node color)) (Ok [])]
      (Snap.mk CoreSyncState.Unknown None false false None)
| seen_no_ip pod pods :
    PodView.pod_ip pod = None →
    seen_snapshot node color [Ev (ListPods (color_selector node color)) (Ok (pod :: pods))]
      (Snap.mk CoreSyncState.Unknown None (pod_ready pod) false None)
| seen_unreachable pod pods ip e :
    PodView.pod_ip pod = Some ip →
    seen_snapshot node color
      [Ev (ListPods (color_selector node color)) (Ok (pod :: pods)); Ev (QueryInfo ip) (Err e)]
      (Snap.mk CoreSyncState.Unknown None (pod_ready pod) false None)
| seen_info pod pods ip raw ledger :
    PodView.pod_ip pod = Some ip →
    seen_snapshot node color
      [Ev (ListPods (color_selector node color)) (Ok (pod :: pods)); Ev (QueryInfo ip) (Ok (raw, ledger))]
      (Snap.mk (parse_sync_state raw) ledger (pod_ready pod) true (Some raw)).

(** The pod whose rollout token counts: the first ready one, else the first. *)
Definition token_pod (pods : list PodView.t) : option PodView.t :=
  match find_first pod_ready pods with Some p => Some p | None => head pods end.

(** Blue down, then green promotable against blue, then green carrying [token]. *)
Definition seen_promotable (node : Node.t) (max_lag : Z) (token : option string) (blk : list event) : Prop :=
  ∃ down greens green blues blue pods tok,
    blk = down ++ greens ++ blues ++ [Ev (ListPods (color_selector node COLOR_GREEN)) (Ok pods)]
    ∧ blue_seen_down node down
    ∧ seen_snapshot node COLOR_GREEN greens green
    ∧ seen_snapshot node COLOR_BLUE blues blue
    ∧ gate_holds green blue max_lag
    ∧ token = Some tok ∧ tok ≠ EmptyString
    ∧ token_pod pods ≫= pod_publish_rollout_token = Some tok.

Lemma exec_blue_fully_down node tr b :
  exec (blue_fully_down node) tr (Ok b) →
  ∃ r pods, tr = [Ev (GetSts (blue_sts_name node)) r; Ev (ListPods (color_selector node COLOR_BLUE)) (Ok pods)]
    ∧ (b = true → sts_answer_down r = true ∧ existsb pod_ready pods = false).
Proof.
  unfold blue_fully_down. intros (sd & t1 & t2 & -> & H1 & H2)%exec_bind_ok.
  unfold sts_fully_down in H1. apply exec_inv in H1 as (r & t1' & -> & H1).
  apply exec_bind_ok in H2 as (pd & t3 & t4 & -> & H3 & H4).
  unfold no_ready_pods_for_color in H3. apply exec_bind_ok in H3 as (pods & t5 & t6 & -> & H5 & H6).
  apply exec_request_ok in H5 as ->. apply exec_ret_ok in H6 as [-> ->]. apply exec_ret_ok in H4 as [-> ->].
  exists r, pods.
  destruct r as [sts|[|t]]; [apply exec_ret_ok in H1 as [-> ->]|apply exec_ret_ok in H1 as [-> ->]|];
    [split; [done|]..|by apply exec_inv in H1 as [_ ?]];
    intros [? ?%negb_true_iff]%andb_prop; by split.
Qed.

Lemma exec_snapshot_for_color node color tr s :
  exec (snapshot_for_color node color) tr (Ok s) → seen_snapshot node color tr s.
Proof.
  unfold snapshot_for_color. intros (pods & t1 & t2 & -> & H1 & H2)%exec_bind_ok.
  unfold list_pods_for_color in H1. apply exec_request_ok in H1 as ->.
  destruct pods as [|pod pods]; simpl in H2.
  - apply exec_ret_ok in H2 as [-> ->]. constructor.
  - destruct (PodView.pod_ip pod) as [ip|] eqn:Hip.
    + apply exec_inv in H2 as (r & t3 & -> & H2).
      destruct r as [[raw ledger]|e]; apply exec_ret_ok in H2 as [-> ->]; by econstructor.
    + apply exec_ret_ok in H2 as [-> ->]. by constructor.
Qed.

(** The observations of one iteration, in terms of what was read. *)
Definition cutover_reads (node : Node.t) (max_lag : Z) (tr : list event)
    (blue_down eligible : bool) (observed : option string) : Prop :=
  ∃ down greens green blues blue pods,
    tr = down ++ greens ++ blues ++ [Ev (ListPods (color_selector node COLOR_GREEN)) (Ok pods)]
    ∧ (blue_down = true → blue_seen_down node down)
    ∧ seen_snapshot node COLOR_GREEN greens green ∧ seen_snapshot node COLOR_BLUE blues blue
    ∧ (eligible = true → gate_holds green blue max_lag)
    ∧ observed = token_pod pods ≫= pod_publish_rollout_token.

Lemma exec_observe_cutover node config tr bd he obs :
  exec (observe_cutover node config) tr (Ok (bd, he, obs)) →
  cutover_reads node (BgConfig.max_ledger_lag config) tr bd he obs.
Proof.
  unfold observe_cutover.
  intros (b & t1 & t2 & -> & H1 & (g & t3 & t4 & -> & H3 & H4)%exec_bind_ok)%exec_bind_ok.
  apply exec_bind_ok in H4 as (bl & t5 & t6 & -> & H5 & (o & t7 & t8 & -> & H7 & H8)%exec_bind_ok).
  apply exec_ret_ok in H8 as [-> [= -> -> ->]].
  unfold green_observed_publish_rollout in H7. apply exec_bind_ok in H7 as (pods & t9 & t10 & -> & H9 & H10).
  unfold list_pods_for_color in H9. apply exec_request_ok in H9 as ->. apply exec_ret_ok in H10 as [-> ->].
  apply exec_blue_fully_down in H1 as (r & bpods & -> & Hdown).
  eexists _, t3, g, t5, bl, pods. split; [reflexivity|]. split.
  { intros Hb. exists r, bpods. split; [done|]. auto. }
  split; [by apply exec_snapshot_for_color|]. split; [by apply exec_snapshot_for_color|].
  split; [by intros ?%gate_eligible|done].
Qed.

(** ** The safety of the cutover *)

Definition publishes_green : op_pred := λ X op,
  match op with
  | ApplyGreenConfig publishing _ => publishing
  | ApplySts a => String.eqb (sts_color a) COLOR_GREEN && String.eqb (sts_role a) ROLE_ACTIVE
  | _ => false
  end.

Definition switches_to_green : op_pred := λ X op,
  match op with ApplyService color _ => String.eqb color COLOR_GREEN | _ => false end.

Definition scales_blue_up : op_pred := λ X op,
  match op with
  | ApplySts a => String.eqb (sts_color a) COLOR_BLUE && (0 <? sts_replicas a)%Z
  | _ => false
  end.

(** A read of the cluster or of the clock. *)
Definition is_read : op_pred := λ X op,
  match op with
  | GetSts _ | ListPods _ | QueryInfo _ | GetVolumeSnapshot _ | GetPvc _ | UtcNow => true
  | _ => false
  end.

(** The rollout token in force: the last one put on the green StatefulSet in this
    pass, else the one recorded on the node. *)
Definition token_after (token : option string) (e : event) : option string :=
  match e with
  | Ev (ApplySts a) _ =>
      if String.eqb (sts_color a) COLOR_GREEN then
        match sts_publish_rollout a with Some t => Some t | None => token end
      else token
  | _ => token
  end.

Definition current_token (node : Node.t) (h : list event) : option string :=
  fold_left token_after h (annotation node ANN_PUBLISH_ROLLOUT).

Definition cutover_safe (node : Node.t) (max_lag : Z) (h : list event) (e : event) : Prop :=
  (ev_pred publishes_green e = true →
     ∃ h1 blk h2, h = h1 ++ blk ++ h2 ∧ blue_seen_down node blk
       ∧ ∀ e', e' ∈ h2 → ev_pred scales_blue_up e' = false)
  ∧ (ev_pred switches_to_green e = true →
     ∃ h1 blk, h = h1 ++ blk ∧ seen_promotable node max_lag (current_token node h) blk).

Definition harmless : op_pred := λ X op, negb (publishes_green X op) && negb (switches_to_green X op).

Lemma harmless_safe node max_lag h e : ev_pred harmless e = true → cutover_safe node max_lag h e.
Proof.
  destruct e as [X op x]; simpl. unfold harmless. intros [H1%negb_true_iff H2%negb_true_iff]%andb_prop.
  split; simpl; intros ?; congruence.
Qed.

Lemma is_read_harmless (X : Set) (op : Op X) : is_read X op = true → harmless X op = true.
Proof. by destruct op. Qed.

(** A harmless request that leaves the green StatefulSet alone. *)
Definition settled : op_pred := λ X op,
  harmless X op && match op with ApplySts a => negb (String.eqb (sts_color a) COLOR_GREEN) | _ => true end.

Lemma is_read_settled (X : Set) (op : Op X) : is_read X op = true → settled X op = true.
Proof. by destruct op. Qed.

Lemma current_token_snoc node h e : current_token node (h ++ [e]) = token_after (current_token node h) e.
Proof. unfold current_token. by rewrite fold_left_app. Qed.

Lemma settled_keeps_token node h tr :
  (∀ e, e ∈ tr → ev_pred settled e = true) → current_token node (h ++ tr) = current_token node h.
Proof.
  revert h. induction tr as [|e tr IH]; intros h Htr; [by rewrite app_nil_r|].
  rewrite (cons_middle e h tr), app_assoc, IH by (intros; apply Htr; by right).
  rewrite current_token_snoc. specialize (Htr e ltac:(left)). destruct e as [X op x]. simpl in *.
  unfold settled in Htr. apply andb_prop in Htr as [_ Htr].
  destruct op; try done. simpl in *. by destruct (String.eqb _ COLOR_GREEN).
Qed.

Lemma reads_scale_nothing (tr : list event) e :
  (∀ e, e ∈ tr → ev_pred is_read e = true) → e ∈ tr → ev_pred scales_blue_up e = false.
Proof. intros Htr He. specialize (Htr e He). destruct e as [X op x]. by destruct op. Qed.

(** Unfolding the mutations of the rollout. *)
Ltac unfold_bg :=
  unfold observe_cutover, defer_upgrade, hold_failed, hold_blue, hold_green, start_upgrade,
    keep_blue_publishing, create_green_standby, cleanup_green_resources,
    scale_blue_to_zero, enable_green_publishing, switch_service_to_green, rollback_progress,
    patch_node_progress, ensure_green_config, ensure_active_service_selector, ensure_green_sts,
    ensure_blue_sts, ensure_headless_service, ensure_green_pvc, create_cutover_snapshot_from_pvc,
    delete_optional, clear_retry_annotation, rollout_timed_out, snapshot_ready,
    sts_image_version, green_observed_publish_rollout, blue_fully_down, sts_fully_down,
    no_ready_pods_for_color, snapshot_for_color, list_pods_for_color, utc_now.

Lemma observe_reads node config : all_ops is_read (observe_cutover node config).
Proof. unfold_bg. ops. Qed.

Lemma wp_settled {A} node max_lag (p : prog A) (Q : list event → result A KErr → Prop) h :
  all_ops settled p →
  (∀ tr r, exec p tr r → current_token node (h ++ tr) = current_token node h → Q (h ++ tr) r) →
  wp (cutover_safe node max_lag) p Q h.
Proof.
  intros Hp HQ. eapply (wp_all_ops settled); [done| |].
  - intros h' [X op x] He. apply harmless_safe. simpl in *. unfold settled in He. by apply andb_prop in He as [? _].
  - intros tr r Hex. apply HQ; [done|]. apply settled_keeps_token. by apply (all_ops_exec _ _ _ _ Hp Hex).
Qed.

(** Only harmless requests: safe whatever came before. *)
Lemma wp_harmless {A} node max_lag (p : prog A) Q h :
  all_ops harmless p → (∀ tr r, exec p tr r → Q (h ++ tr) r) → wp (cutover_safe node max_lag) p Q h.
Proof. intros Hp HQ. eapply (wp_all_ops harmless); [done| |done]. intros h' e. apply harmless_safe. Qed.

Lemma wp_harmless_end {A} node max_lag (p : prog A) h :
  all_ops harmless p → wp (cutover_safe node max_lag) p (λ _ _, True) h.
Proof. intros Hp. by apply wp_harmless. Qed.

(** What a plan asks for, given the clamp. *)
Lemma plan_enables_green step bd he exp obs step' ge next :
  enforce_cutover_safety step bd he exp obs = (step', ge) →
  plan_cutover_advance step' bd ge = (next, CutoverCommand.EnableGreenPublishingAndRestart) →
  bd = true.
Proof. destruct step, bd, he; simpl; intros [= <- <-]; simpl; repeat case_match; by intros [=]. Qed.

Lemma plan_switches step bd he exp obs step' ge next :
  enforce_cutover_safety step bd he exp obs = (step', ge) →
  plan_cutover_advance step' bd ge = (next, CutoverCommand.SwitchServiceToGreenAndFinish) →
  green_ready_for_service_switch bd he exp obs = true.
Proof.
  unfold green_ready_for_service_switch, may_switch_service_to_green, enforce_cutover_safety, green_must_stay_standby.
  generalize (green_publish_rollout_observed exp obs). intros ro.
  destruct step, bd, he, ro; simpl; intros [= <- <-]; simpl; by intros [=].
Qed.

Lemma ready_for_switch bd he exp obs :
  green_ready_for_service_switch bd he exp obs = true →
  bd = true ∧ he = true ∧ ∃ tok, exp = Some tok ∧ tok ≠ EmptyString ∧ obs = Some tok.
Proof.
  unfold green_ready_for_service_switch, may_switch_service_to_green, green_publish_rollout_observed.
  intros [-> [-> Ho]%andb_prop]%andb_prop. split; [done|]. split; [done|].
  destruct exp as [tok|]; [|done]. exists tok. destruct tok; [done|]. simpl in Ho.
  apply bool_decide_eq_true in Ho. by repeat split.
Qed.

(** Blue was seen down and nothing has scaled it up since. *)
Definition down_before (node : Node.t) (h : list event) : Prop :=
  ∃ h1 blk h2, h = h1 ++ blk ++ h2 ∧ blue_seen_down node blk
    ∧ ∀ e, e ∈ h2 → ev_pred scales_blue_up e = false.

Lemma down_before_snoc node h e :
  down_before node h → ev_pred scales_blue_up e = false → down_before node (h ++ [e]).
Proof.
  intros (h1 & blk & h2 & -> & Hblk & Hup) He. exists h1, blk, (h2 ++ [e]).
  split; [by rewrite <- !app_assoc|]. split; [done|]. intros e' [?|He']%elem_of_app; [by apply Hup|].
  apply list_elem_of_singleton in He' as ->. done.
Qed.

Section cutover.
Context `{BgChrono}.
Context (node : Node.t) (config : BgConfig.t) (dry_run : bool).
Abbreviation safe := (cutover_safe node (BgConfig.max_ledger_lag config)).

Lemma observed_down tr bd he obs h :
  cutover_reads node (BgConfig.max_ledger_lag config) tr bd he obs →
  (∀ e, e ∈ tr → ev_pred is_read e = true) → bd = true → down_before node (h ++ tr).
Proof.
  intros (down & gs & g & bs & b & pods & -> & Hdown & _) Hreads Hbd.
  exists h, down, (gs ++ bs ++ [Ev (ListPods (color_selector node COLOR_GREEN)) (Ok pods)]).
  split; [done|]. split; [by apply Hdown|]. intros e He.
  eapply reads_scale_nothing; [exact Hreads|]. apply elem_of_app. by right.
Qed.

Lemma observed_promotable tr bd he exp obs h :
  cutover_reads node (BgConfig.max_ledger_lag config) tr bd he obs →
  green_ready_for_service_switch bd he exp obs = true → exp = current_token node (h ++ tr) →
  ∃ h1 blk, h ++ tr = h1 ++ blk
    ∧ seen_promotable node (BgConfig.max_ledger_lag config) (current_token node (h ++ tr)) blk.
Proof.
  intros (down & gs & g & bs & b & pods & Htr & Hdown & Hg & Hb & Hgate & Hobs) Hready <-.
  apply ready_for_switch in Hready as (-> & -> & tok & -> & Htok & ->).
  exists h, tr. split; [done|]. exists down, gs, g, bs, b, pods, tok. repeat split; try done; auto.
  all: by apply Hgate.
Qed.

Lemma wp_enable_green_publishing dv h :
  down_before node h →
  wp safe (enable_green_publishing node dry_run dv)
    (λ h' r, ∀ tok, r = Ok tok → current_token node h' = Some tok) h.
Proof.
  intros Hdown. unfold enable_green_publishing. simpl. intros now.
  split; [by apply harmless_safe|]. pose proof (down_before_snoc _ _ (Ev UtcNow now) Hdown eq_refl) as Hd.
  generalize dependent (h ++ [Ev UtcNow now]). clear h Hdown. intros h Hd r1.
  split; [by split|]. destruct r1 as [[]|e1]; simpl; [|done].
  pose proof (down_before_snoc _ _ (Ev (ApplyGreenConfig true dry_run) (Ok ())) Hd eq_refl) as Hd1.
  generalize dependent (h ++ [Ev (ApplyGreenConfig true dry_run) (Ok ())]). clear h Hd. intros h Hd r2.
  split; [by split|]. destruct r2 as [[]|e2]; simpl; [|done].
  intros r3. split; [by apply harmless_safe|]. intros r4. split; [by apply harmless_safe|].
  destruct r4 as [[]|e4]; simpl; [|done]. intros r5. split; [by apply harmless_safe|].
  intros tok [= <-]. by rewrite !current_token_snoc.
Qed.

Lemma wp_switch_service_to_green dv h :
  (∃ h1 blk, h = h1 ++ blk ∧ seen_promotable node (BgConfig.max_ledger_lag config) (current_token node h) blk) →
  wp safe (switch_service_to_green node dry_run dv) (λ _ _, True) h.
Proof.
  intros Hseen. unfold switch_service_to_green, ensure_active_service_selector, request. apply wp_bind.
  cbn [wp]. intros r. split; [by split|]. destruct r as [[]|e]; cbn [wp then_]; [|done].
  apply wp_harmless_end. unfold_bg. ops.
Qed.

Lemma wp_cutover_loop fuel dv step exp h :
  exp = current_token node h →
  wp safe (cutover_loop node config dry_run fuel dv step exp) (λ _ _, True) h.
Proof.
  revert step exp h. induction fuel as [|fuel IH]; intros step exp h Hexp; [done|].
  cbn [cutover_loop]. apply wp_bind. pose proof (observe_reads node config) as Hreads.
  apply wp_settled; [by eapply all_ops_impl; [apply is_read_settled|]|].
  intros tr [[[bd he] obs]|e] Hex Htok; [|done]. cbn [then_].
  pose proof (all_ops_exec _ _ _ _ Hreads Hex) as Htr. apply exec_observe_cutover in Hex.
  destruct (enforce_cutover_safety step bd he exp obs) as [step' ge] eqn:Henf.
  destruct (plan_cutover_advance step' bd ge) as [next cmd] eqn:Hplan.
  destruct cmd.
  - apply wp_bind. apply wp_settled; [unfold_bg; ops|]. intros tr' [[]|e'] _ Htok'; [|done]. cbn [then_].
    case_bool_decide; [done|]. apply IH. congruence.
  - apply wp_harmless_end. unfold_bg. ops.
  - apply plan_enables_green with (1 := Henf) in Hplan as ->. cbn [negb].
    apply wp_bind. eapply wp_mono; [apply wp_enable_green_publishing; by eapply observed_down|].
    intros tr' [tok|e'] Htok'; [|done]. cbn [then_]. apply IH. symmetry. by apply Htok'.
  - eapply plan_switches in Hplan; [|exact Henf]. rewrite Hplan. cbn [negb].
    apply wp_switch_service_to_green. eapply observed_promotable; [done|done|congruence].
Qed.

Lemma wp_run_cutover_steps dv h :
  current_token node h = annotation node ANN_PUBLISH_ROLLOUT →
  wp safe (run_cutover_steps node config dry_run dv) (λ _ _, True) h.
Proof. intros Hh. by apply wp_cutover_loop. Qed.

Lemma wp_wait_for_green h :
  current_token node h = annotation node ANN_PUBLISH_ROLLOUT →
  wp safe (wait_for_green node config dry_run) (λ _ _, True) h.
Proof.
  intros Hh. unfold wait_for_green. apply wp_bind. apply wp_settled; [unfold_bg; ops|].
  intros tr [[]|e] _ Htok; [| |done]; cbn [then_].
  - apply wp_harmless_end. unfold_bg. ops.
  - unfold promote_when_eligible. apply wp_bind. apply wp_settled; [unfold_bg; ops|]. intros tr1 [green|e] _ Htok1; [|done]. cbn [then_].
    apply wp_bind. apply wp_settled; [unfold_bg; ops|]. intros tr2 [blue|e] _ Htok2; [|done]. cbn [then_].
    destruct (negb _); [apply wp_harmless_end; unfold_bg; ops|].
    apply wp_bind. apply wp_settled; [unfold_bg; ops|]. intros tr3 [[]|e] _ Htok3; [|done]. cbn [then_].
    apply wp_run_cutover_steps. congruence.
Qed.
End cutover.

Section reconcile.
Context `{BgChrono}.
Context (node : Node.t) (dry_run : bool).
Abbreviation config := (Node.blue_green_or_default node).
Abbreviation safe := (cutover_safe node (BgConfig.max_ledger_lag config)).

Lemma green_mode_false phase color :
  green_mode phase color = false →
  String.eqb color COLOR_GREEN = false
  ∧ match phase with BgPhase.GreenActive | BgPhase.UpgradeDeferred | BgPhase.RollingBack => False | _ => True end.
Proof. unfold green_mode. intros [H1 H2]%orb_false_elim. by destruct phase. Qed.

Lemma wp_advance_blue phase color h :
  green_mode phase color = false → current_token node h = annotation node ANN_PUBLISH_ROLLOUT →
  wp safe (advance_phase_of node config dry_run phase) (λ _ _, True) h.
Proof.
  intros [_ Hph]%green_mode_false Hh. destruct phase; try done; cbn [advance_phase_of].
  - apply wp_harmless_end. unfold prepare_green. unfold_bg. ops.
  - by apply wp_wait_for_green.
  - by apply wp_run_cutover_steps.
Qed.

Lemma wp_continue_blue phase color bv h :
  green_mode phase color = false → current_token node h = annotation node ANN_PUBLISH_ROLLOUT →
  wp safe (continue_rollout node config dry_run phase color bv) (λ _ _, True) h.
Proof.
  intros Hmode Hh. pose proof (green_mode_false _ _ Hmode) as [Hcol Hph].
  unfold continue_rollout. destruct phase; try done.
  - destruct (negb _); [apply wp_harmless_end; unfold_bg; ops|].
    apply wp_bind, wp_settled; [unfold_bg; ops|]. intros tr [[]|e] _ Htok; [|done]. cbn [then_].
    apply wp_bind, wp_settled; [unfold_bg; ops|]. intros tr1 [[]|e] _ Htok1; [|done]. cbn [then_].
    apply (wp_advance_blue _ color); [|congruence]. unfold green_mode. by rewrite Hcol.
  - apply wp_bind, wp_settled; [unfold_bg; ops|]. intros tr [[]|e] _ Htok; [|done]. cbn [then_].
    apply (wp_advance_blue _ color); [done|congruence].
  - apply wp_bind, wp_settled; [unfold_bg; ops|]. intros tr [[]|e] _ Htok; [|done]. cbn [then_].
    apply (wp_advance_blue _ color); [done|congruence].
  - by apply (wp_advance_blue _ color).
  - apply wp_harmless_end. unfold_bg. ops.
Qed.

Lemma wp_reconcile_blue :
  green_mode (read_phase node) (read_active_color node) = false →
  wp safe (reconcile_validator_blue_green node dry_run) (λ _ _, True) [].
Proof.
  intros Hmode. pose proof (green_mode_false _ _ Hmode) as [Hcol _].
  unfold reconcile_validator_blue_green.
  destruct (negb _); [done|]. destruct (negb _); [done|]. cbv zeta. apply wp_bind, wp_settled.
  { unfold_bg. ops. }
  intros tr [phase|e] Hex Htok; [|done]. cbn [then_].
  assert (green_mode phase (read_active_color node) = false) as Hm.
  { destruct (bool_decide _ && _).
    - apply exec_bind_ok in Hex as (? & ? & ? & _ & _ & (? & ? & ? & _ & _ & Hex)%exec_bind_ok).
      apply exec_ret_ok in Hex as [_ ->]. unfold green_mode. by rewrite Hcol.
    - by apply exec_ret_ok in Hex as [_ ->]. }
  apply wp_bind, wp_settled; [unfold_bg; ops|]. intros tr1 [[]|e] _ Htok1; [|done]. cbn [then_].
  apply wp_bind, wp_settled; [unfold_bg; ops|]. intros tr2 [image|e] _ Htok2; [|done]. cbn [then_].
  rewrite Hm. cbn [andb]. apply wp_continue_blue; [done|]. by rewrite Htok2, Htok1, Htok.
Qed.
End reconcile.

(** C2: Serialized cutover.  In every pass over a node whose green color is not
    yet active, whatever the cluster answers and wherever the pass stops: the
    green color is made to publish (its configuration or its StatefulSet) only
    after blue was read as down, StatefulSet and pods, with nothing scaling blue
    up in between; and the Service selector is moved to green only directly after
    reads that show blue down, green ready, synced and within the ledger lag of
    blue, and the rollout token in force on the green pod. *)
Theorem cutover_is_serialized `{BgChrono} node dry_run tr r h e t :
  green_mode (read_phase node) (read_active_color node) = false →
  exec (reconcile_validator_blue_green node dry_run) tr r →
  tr = h ++ e :: t →
  (ev_pred publishes_green e = true → down_before node h)
  ∧ (ev_pred switches_to_green e = true →
     ∃ h1 blk, h = h1 ++ blk
       ∧ seen_promotable node (BgConfig.max_ledger_lag (Node.blue_green_or_default node))
           (current_token node h) blk).
Proof.
  intros Hmode Hex Htr. pose proof (wp_reconcile_blue node dry_run Hmode) as Hwp.
  apply wp_sound with (2 := Hex) in Hwp as [Hev _]. by apply (Hev h e t).
Qed.

(** ** Rollback *)

Definition stops_green : op_pred := λ X op,
  match op with
  | ApplySts a => String.eqb (sts_color a) COLOR_GREEN && String.eqb (sts_role a) ROLE_STANDBY
                  && (sts_replicas a =? 0)%Z
  | _ => false
  end.

Definition green_stopped (node : Node.t) (h : list event) : Prop :=
  read_rollback_step node ≠ RollbackStep.StopGreen ∨ ∃ e, e ∈ h ∧ ev_pred stops_green e = true.

(** What a request of a rollback pass may be. *)
Definition rollback_safe (node : Node.t) (max_lag : Z) (h : list event) (e : event) : Prop :=
  match e with
  | Ev (ApplyService color _) _ =>
      color = COLOR_BLUE
      ∧ ∃ h1 blk blue, h = h1 ++ blk ∧ seen_snapshot node COLOR_BLUE blk blue ∧ gate_holds blue blue max_lag
  | Ev (ApplySts a) _ =>
      (sts_color a = COLOR_GREEN ∧ sts_role a = ROLE_STANDBY ∧ sts_replicas a = 0%Z)
      ∨ (sts_color a = COLOR_BLUE ∧ sts_version a = recorded_or (annotation node ANN_BLUE_VERSION) node
         ∧ green_stopped node h)
  | Ev (ApplyGreenConfig publishing _) _ => publishing = false
  | Ev (GetSts name) _ => name = blue_sts_name node
  | Ev (ListPods selector) _ => selector = color_selector node COLOR_BLUE
  | Ev (CreatePvc _ _) _ | Ev (CreateVolumeSnapshot _ _ _) _ | Ev (Delete _ _) _ => False
  | _ => True
  end.

(** Requests that need no justification. *)
Definition rollback_free (node : Node.t) : op_pred := λ X op,
  match op with
  | QueryInfo _ | PatchNode _ _ | PatchStatus _ | UtcNow | ApplyHeadless _ _ _ _ => true
  | ApplyGreenConfig publishing _ => negb publishing
  | GetSts name => bool_decide (name = blue_sts_name node)
  | ListPods sel => bool_decide (sel = color_selector node COLOR_BLUE)
  | _ => false
  end.

Lemma rollback_free_safe node max_lag h e : ev_pred (rollback_free node) e = true → rollback_safe node max_lag h e.
Proof. destruct e as [X op x]; destruct op; simpl; try done; try (by intros ?%bool_decide_eq_true); by destruct publishing. Qed.

Lemma snapshot_ops (f : op_pred) node color :
  f _ (ListPods (color_selector node color)) = true → (∀ ip, f _ (QueryInfo ip) = true) →
  all_ops f (snapshot_for_color node color).
Proof.
  intros H1 H2. unfold_bg. apply all_ops_bind.
  - split; [done|]. by intros [].
  - intros [|pod pods]; simpl; [done|]. destruct (PodView.pod_ip pod); simpl; [|done].
    split; [done|]. by intros [[]|].
Qed.

Lemma progress_ops (f : op_pred) phase c m tv sn cs rs :
  (∀ a s, f _ (PatchNode a s) = true) → (∀ s, f _ (PatchStatus s) = true) →
  all_ops f (patch_node_progress phase c m tv sn cs rs).
Proof. intros H1 H2. unfold patch_node_progress. split; [done|]. intros [[]|]; by repeat split. Qed.

Lemma green_stopped_app node h h' : green_stopped node h → green_stopped node (h ++ h').
Proof. intros [?|(e & He & ?)]; [by left|]. right. exists e. split; [|done]. apply elem_of_app. by left. Qed.

Section rollback.
Context (node : Node.t) (config : BgConfig.t) (dry_run : bool).
Abbreviation max_lag := (BgConfig.max_ledger_lag config).
Abbreviation safe := (rollback_safe node max_lag).

Lemma wp_free {A} (p : prog A) Q h :
  all_ops (rollback_free node) p → (∀ tr r, exec p tr r → Q (h ++ tr) r) → wp safe p Q h.
Proof. intros Hp HQ. apply (wp_all_ops (rollback_free node)); [done| |done].
  intros tr e. apply rollback_free_safe. Qed.

(** A request between free ones: its justification, then the rest. *)
Lemma wp_request_then {A} (op : Op (result () KErr)) (p : () → prog A) Q h :
  (∀ x, safe h (Ev op x)) → wp safe (p ()) Q (h ++ [Ev op (Ok ())]) →
  (∀ e, Q (h ++ [Ev op (Err e)]) (Err e)) → wp safe (request op ≫= p) Q h.
Proof.
  intros Hs Hp He. apply wp_bind. unfold request. cbn [wp].
  intros [[]|e]; (split; [apply Hs|]); cbn [wp then_]; auto.
Qed.

Lemma free_progress phase c m step : all_ops (rollback_free node) (rollback_progress node phase c m step).
Proof. by apply progress_ops. Qed.

Lemma wp_rollback_loop fuel step h :
  step = RollbackStep.StopGreen ∨ green_stopped node h →
  wp safe (rollback_loop node config dry_run fuel step) (λ _ _, True) h.
Proof.
  revert step h. induction fuel as [|fuel IH]; intros step h Hstep; [done|].
  cbn [rollback_loop]. apply wp_bind, wp_free.
  { apply snapshot_ops; [by apply bool_decide_eq_true|done]. }
  intros tr [blue|e] Hex; [|done]. cbn [then_]. apply exec_snapshot_for_color in Hex.
  destruct step; cbn [plan_rollback_advance]; try (apply wp_free; [apply free_progress|done]).
  - apply wp_request_then; [done| |done]. apply wp_request_then; [by left| |done].
    apply wp_bind, wp_free; [apply free_progress|]. intros tr' [[]|e] _; [|done]. cbn [then_].
    apply IH. right. apply green_stopped_app. right. eexists. split; [apply elem_of_app; right; by left|done].
  - destruct Hstep as [?|Hstep]; [done|].
    apply wp_request_then; [intros; right; repeat split; by apply green_stopped_app| |done].
    apply wp_bind, wp_free; [apply free_progress|]. intros tr' [[]|e] _; [|done]. cbn [then_].
    apply IH. right. by do 3 apply green_stopped_app.
  - destruct (CutoverGateResult.is_eligible _) eqn:Hel; [|apply wp_free; [apply free_progress|done]].
    cbn [negb]. apply wp_request_then; [|apply wp_free; [apply free_progress|done]|done].
    intros x. split; [done|]. exists h, tr, blue. split; [done|]. split; [done|]. by apply gate_eligible.
Qed.

Lemma wp_run_rollback_steps h : wp safe (run_rollback_steps node config dry_run) (λ _ _, True) h.
Proof.
  apply wp_rollback_loop. destruct (read_rollback_step node) eqn:Hs; [by left|right; left; congruence..].
Qed.
End rollback.

(** A pass whose phase needs no retry: the headless service and the blue image,
    then the rest. *)
Lemma wp_reconcile_from `{BgChrono} P (f : op_pred) node dry_run Q :
  (∀ h e, ev_pred f e = true → P h e) →
  Node.node_type node = NodeType.Validator → Node.strategy_type node = RolloutStrategyType.BlueGreen →
  bool_decide (read_phase node = BgPhase.Failed) && retry_requested node = false →
  green_mode (read_phase node) (read_active_color node) = false ∨ read_phase node = BgPhase.RollingBack →
  (∀ role, f _ (ApplyHeadless (blue_headless_name node) COLOR_BLUE role dry_run) = true) →
  f _ (GetSts (blue_sts_name node)) = true →
  (∀ h bv, wp P (continue_rollout node (Node.blue_green_or_default node) dry_run (read_phase node)
                   (read_active_color node) bv) Q h) →
  (∀ h e, Q h (Err e)) →
  wp P (reconcile_validator_blue_green node dry_run) Q [].
Proof.
  intros HP Ht Hs Hretry Hmode Hhead Hget Hrest Herr. unfold reconcile_validator_blue_green.
  rewrite (bool_decide_eq_true_2 _ Ht), (bool_decide_eq_true_2 _ Hs). cbn [negb]. cbv zeta. rewrite Hretry.
  apply wp_bind. cbn [wp then_]. apply wp_bind, (wp_all_ops f); [|intros tr e; apply HP|].
  { split; [done|]. by intros [[]|]. }
  intros tr1 [[]|e] _; [|by apply Herr]. cbn [then_].
  apply wp_bind, (wp_all_ops f); [|intros tr e; apply HP|].
  { split; [done|]. by intros [|[]]. }
  intros tr2 [image|e] _; [|by apply Herr]. cbn [then_].
  destruct (green_mode _ _ && _) eqn:Hm; [|apply Hrest].
  destruct Hmode as [Hmode|Hmode]; [by rewrite Hmode in Hm|].
  apply andb_prop in Hm as [_ Hm]. by rewrite Hmode in Hm.
Qed.

(** The requests of such a pass, from those of its continuation. *)
Lemma reconcile_ops_from `{BgChrono} (f : op_pred) node dry_run tr r :
  bool_decide (read_phase node = BgPhase.Failed) && retry_requested node = false →
  green_mode (read_phase node) (read_active_color node) = false →
  (∀ role, f _ (ApplyHeadless (blue_headless_name node) COLOR_BLUE role dry_run) = true) →
  f _ (GetSts (blue_sts_name node)) = true →
  (∀ bv, all_ops f (continue_rollout node (Node.blue_green_or_default node) dry_run (read_phase node)
                      (read_active_color node) bv)) →
  exec (reconcile_validator_blue_green node dry_run) tr r →
  ∀ e, e ∈ tr → ev_pred f e = true.
Proof.
  intros Hretry Hmode Hhead Hget Hrest Hex e He.
  assert (wp (λ _ e, ev_pred f e = true) (reconcile_validator_blue_green node dry_run) (λ _ _, True) []) as Hwp.
  { destruct (decide (Node.node_type node = NodeType.Validator)) as [Ht|Ht].
    2: { unfold reconcile_validator_blue_green. by rewrite (bool_decide_eq_false_2 _ Ht). }
    destruct (decide (Node.strategy_type node = RolloutStrategyType.BlueGreen)) as [Hs|Hs].
    2: { unfold reconcile_validator_blue_green.
         by rewrite (bool_decide_eq_true_2 _ Ht), (bool_decide_eq_false_2 _ Hs). }
    apply (wp_reconcile_from _ f); auto. intros h bv. by apply (wp_all_ops f). }
  apply wp_sound with (2 := Hex) in Hwp as [Hev _].
  apply list_elem_of_split in He as (t1 & t2 & ->). by apply (Hev t1 e t2).
Qed.

(** C29: Rollback.  In every pass over a validator that is rolling back, whatever
    the cluster answers: the Service is only ever moved to blue, and only
    directly after reads that show blue ready and synced; green is only scaled to
    zero and made non-publishing; blue is only scaled up, at its recorded version,
    after green was told to stop in this pass or an earlier one; nothing is
    deleted, and no claim or snapshot is created.  The pass never reads the state
    of green: that it stopped is not observed before blue publishes again. *)
Theorem rollback_waits_for_blue `{BgChrono} node dry_run tr r h e t :
  Node.node_type node = NodeType.Validator → Node.strategy_type node = RolloutStrategyType.BlueGreen →
  read_phase node = BgPhase.RollingBack →
  exec (reconcile_validator_blue_green node dry_run) tr r →
  tr = h ++ e :: t →
  rollback_safe node (BgConfig.max_ledger_lag (Node.blue_green_or_default node)) h e.
Proof.
  intros Ht Hs Hph Hex Htr.
  assert (wp (rollback_safe node (BgConfig.max_ledger_lag (Node.blue_green_or_default node)))
    (reconcile_validator_blue_green node dry_run) (λ _ _, True) []) as Hwp.
  { apply (wp_reconcile_from _ (rollback_free node)); auto.
    - apply rollback_free_safe.
    - by rewrite Hph.
    - by apply bool_decide_eq_true.
    - intros h' bv. rewrite Hph. apply wp_run_rollback_steps. }
  apply wp_sound with (2 := Hex) in Hwp as [Hev _]. by apply (Hev h e t).
Qed.

(** ** Failed rollouts *)

(** The requests of a pass over a failed rollout. *)
Definition failed_op (node : Node.t) (dry_run : bool) : op_pred := λ X op,
  match op with
  | ApplyHeadless name color _ d => String.eqb name (blue_headless_name node) && String.eqb color COLOR_BLUE
  | GetSts name => String.eqb name (blue_sts_name node)
  | ApplySts a => bool_decide (sts_color a = COLOR_BLUE ∧ sts_role a = ROLE_ACTIVE ∧ sts_replicas a = 1%Z
                               ∧ sts_version a = Node.version node ∧ sts_dry_run a = dry_run)
  | ApplyService color d => String.eqb color COLOR_BLUE
  | _ => false
  end.

(** Failed rollouts stay failed.  Without a retry request, every pass over a
    validator whose rollout failed only re-applies blue as the single active
    replica and the Service on blue: it patches nothing on the node (the phase
    stays Failed), creates no snapshot or claim, touches no green object and
    deletes nothing.  The StatefulSet is applied at the node's own version, the
    target of the failed rollout, not at the recorded blue version. *)
Theorem failed_stays_failed `{BgChrono} node dry_run tr r :
  read_phase node = BgPhase.Failed → retry_requested node = false → read_active_color node ≠ COLOR_GREEN →
  exec (reconcile_validator_blue_green node dry_run) tr r →
  ∀ e, e ∈ tr → ev_pred (failed_op node dry_run) e = true.
Proof.
  intros Hph Hretry Hcol Hex. apply (reconcile_ops_from (failed_op node dry_run)) with (6 := Hex).
  - by rewrite Hretry, andb_false_r.
  - rewrite Hph. unfold green_mode. simpl. by apply String.eqb_neq.
  - intros role. simpl. by rewrite String.eqb_refl.
  - simpl. by rewrite String.eqb_refl.
  - intros bv. rewrite Hph. cbn [continue_rollout].
    unfold hold_failed, ensure_blue_sts, ensure_active_service_selector.
    apply all_ops_bind; [split; [|by intros [[]|]]|split; [done|by intros [[]|]]].
    by apply bool_decide_eq_true.
Qed.

(** ** Deletions *)

Definition no_delete : op_pred := λ X op, match op with Delete _ _ => false | _ => true end.

(** A deletion is of a green object other than its claim, after the deadline of
    the rollout was read to have passed. *)
Definition delete_safe `{BgChrono} (node : Node.t) (h : list event) (e : event) : Prop :=
  match e with
  | Ev (Delete kind name) _ =>
      (kind, name) ∈ [("sts", green_sts_name node); ("cm", green_config_name node);
                      ("svc", green_headless_name node)]%string
      ∧ ∃ started now, annotation node ANN_STARTED_AT ≫= parse_rfc3339 = Some started ∧ Ev UtcNow now ∈ h
        ∧ (as_i64 (BgConfig.ready_timeout_seconds (Node.blue_green_or_default node))
           < num_seconds (now - started))%Z
  | _ => True
  end.

Lemma no_delete_safe `{BgChrono} node h e : ev_pred no_delete e = true → delete_safe node h e.
Proof. destruct e as [X op x]. by destruct op. Qed.

Section deletions.
Context `{BgChrono}.
Context (node : Node.t) (dry_run : bool).
Abbreviation config := (Node.blue_green_or_default node).

Lemma cutover_deletes_nothing fuel dv step exp :
  all_ops no_delete (cutover_loop node config dry_run fuel dv step exp).
Proof.
  revert step exp. induction fuel as [|fuel IH]; intros step exp; [done|]. cbn [cutover_loop].
  apply all_ops_bind; [eapply all_ops_impl, observe_reads; by intros X []|].
  intros [[bd he] obs]. destruct (enforce_cutover_safety _ _ _ _ _) as [step' ge].
  destruct (plan_cutover_advance step' bd ge) as [next []]; unfold_bg; ops; apply IH.
Qed.

Lemma rollback_deletes_nothing fuel step : all_ops no_delete (rollback_loop node config dry_run fuel step).
Proof.
  revert step. induction fuel as [|fuel IH]; intros step; [done|]. cbn [rollback_loop].
  apply all_ops_bind; [by apply snapshot_ops|].
  intros blue. destruct (plan_rollback_advance _ _) as [next []]; unfold_bg; ops; apply IH.
Qed.

Lemma wp_no_delete {A} (p : prog A) h :
  all_ops no_delete p → wp (delete_safe node) p (λ _ _, True) h.
Proof. intros Hp. apply (wp_all_ops no_delete); [done| |done]. intros tr e. apply no_delete_safe. Qed.

(** The requests of the cleanup after a deadline. *)
Definition cleanup_op : op_pred := λ X op,
  match op with
  | Delete kind name => bool_decide ((kind, name) ∈ [("sts", green_sts_name node); ("cm", green_config_name node);
                                                     ("svc", green_headless_name node)]%string)
  | PatchNode _ _ | PatchStatus _ => true
  | _ => false
  end.

Lemma cleanup_ops : all_ops cleanup_op (ignore_errors (cleanup_green_resources node)).
Proof.
  apply all_ops_ignore. unfold cleanup_green_resources, delete_optional. cbn [String.eqb Ascii.eqb Bool.eqb orb].
  repeat (apply all_ops_bind; [split; [apply bool_decide_eq_true; set_solver|by intros [|[]]]|intros _]). done.
Qed.

Lemma promotion_deletes_nothing : all_ops no_delete (promote_when_eligible node config dry_run).
Proof.
  unfold promote_when_eligible. repeat (apply all_ops_bind; [by apply snapshot_ops|intros ?]). cbv zeta.
  destruct (negb _); [by apply progress_ops|].
  apply all_ops_bind; [by apply progress_ops|]. intros _. apply cutover_deletes_nothing.
Qed.

Lemma wp_wait_deletes h : wp (delete_safe node) (wait_for_green node config dry_run) (λ _ _, True) h.
Proof.
  unfold wait_for_green, rollout_timed_out. apply wp_bind.
  destruct (annotation node ANN_STARTED_AT ≫= parse_rfc3339) as [started|] eqn:Hst.
  - apply wp_bind. unfold utc_now. cbn [wp]. intros now. split; [done|]. unfold mret, tree_ret. cbn [wp then_].
    destruct (Z.ltb_spec (as_i64 (BgConfig.ready_timeout_seconds config)) (num_seconds (now - started))).
    + apply (wp_all_ops cleanup_op); [|intros tr [X op x] He|done].
      { apply all_ops_bind; [apply cleanup_ops|]. intros _. by apply progress_ops. }
      destruct op; try done. simpl in He. apply bool_decide_eq_true in He. split; [done|].
      exists started, now. split; [done|]. split; [|done]. rewrite !elem_of_app. left. right. by left.
    + apply wp_no_delete, promotion_deletes_nothing.
  - unfold mret, tree_ret. cbn [wp then_]. apply wp_no_delete, promotion_deletes_nothing.
Qed.
End deletions.

Section deletions_everywhere.
Context `{BgChrono}.
Context (node : Node.t) (dry_run : bool).
Abbreviation config := (Node.blue_green_or_default node).

Lemma maintain_deletes_nothing : all_ops no_delete (maintain_green_active node config dry_run).
Proof.
  unfold maintain_green_active. apply all_ops_bind; [unfold_bg; ops|]. intros _.
  apply all_ops_bind; [by apply snapshot_ops|]. intros green. destruct (negb _); [|by apply progress_ops].
  apply all_ops_bind; [by apply progress_ops|]. intros _. apply rollback_deletes_nothing.
Qed.

Lemma wp_continue_deletes phase color bv h :
  wp (delete_safe node) (continue_rollout node config dry_run phase color bv) (λ _ _, True) h.
Proof.
  unfold continue_rollout. destruct phase; cbn [advance_phase_of].
  - destruct (negb _); apply wp_no_delete; unfold prepare_green; unfold_bg; ops.
  - apply wp_no_delete; unfold prepare_green; unfold_bg; ops.
  - apply wp_bind, (wp_all_ops no_delete); [unfold_bg; ops|intros tr e; apply no_delete_safe|].
    intros tr [[]|e] _; [|done]. cbn [then_]. apply (wp_wait_deletes node dry_run).
  - apply wp_no_delete, cutover_deletes_nothing.
  - apply wp_no_delete, maintain_deletes_nothing.
  - apply wp_no_delete, rollback_deletes_nothing.
  - apply wp_no_delete. unfold_bg. ops.
  - done.
Qed.

Lemma wp_reconcile_deletes :
  wp (delete_safe node) (reconcile_validator_blue_green node dry_run) (λ _ _, True) [].
Proof.
  unfold reconcile_validator_blue_green. destruct (negb _); [done|]. destruct (negb _); [done|]. cbv zeta.
  apply wp_bind, (wp_all_ops no_delete); [unfold_bg; ops|intros tr e; apply no_delete_safe|].
  intros tr [phase|e] _; [|done]. cbn [then_].
  apply wp_bind, (wp_all_ops no_delete); [unfold_bg; ops|intros tr1 e; apply no_delete_safe|].
  intros tr1 [[]|e] _; [|done]. cbn [then_].
  apply wp_bind, (wp_all_ops no_delete); [unfold_bg; ops|intros tr2 e; apply no_delete_safe|].
  intros tr2 [image|e] _; [|done]. cbn [then_].
  destruct (_ && _); [|apply wp_continue_deletes].
  apply wp_bind, (wp_all_ops no_delete); [unfold_bg; ops|intros tr3 e; apply no_delete_safe|].
  intros tr3 [gv|e] _; [|done]. cbn [then_].
  destruct (match gv with Some _ => _ | None => _ end); [apply wp_no_delete; unfold_bg; ops|].
  destruct (bool_decide _); [done|]. apply wp_continue_deletes.
Qed.
End deletions_everywhere.

(** Storage is retained.  Every deletion a pass makes, in any phase and
    whatever the cluster answers, is of the green StatefulSet, ConfigMap or
    headless Service, never of a claim or of a blue object, and only after the
    clock was read past the deadline of a rollout whose start is recorded. *)
Theorem deletions_spare_storage `{BgChrono} node dry_run tr r h kind name x t :
  exec (reconcile_validator_blue_green node dry_run) tr r →
  tr = h ++ Ev (Delete kind name) x :: t →
  (kind, name) ∈ [("sts", green_sts_name node); ("cm", green_config_name node);
                  ("svc", green_headless_name node)]%string
  ∧ ∃ started now, annotation node ANN_STARTED_AT ≫= parse_rfc3339 = Some started ∧ Ev UtcNow now ∈ h
    ∧ (as_i64 (BgConfig.ready_timeout_seconds (Node.blue_green_or_default node)) < num_seconds (now - started))%Z.
Proof.
  intros Hex Htr. pose proof (wp_reconcile_deletes node dry_run) as Hwp.
  apply wp_sound with (2 := Hex) in Hwp as [Hev _]. by apply (Hev h (Ev (Delete kind name) x) t).
Qed.
