(* ===== verification/BlueGreenProgress.v ===== *)
(** * Validator blue/green rollout: progress

    The bound of the step loops, completion of a cutover under a cooperative
    cluster, the step from which it cannot complete, and the configuration text
    green publishes with. *)

From stdpp Require Import prelude strings gmap list.
From S2P Require Import Prelude RustStr Prog BlueGreen BlueGreenReconcile BlueGreenFacts.

(** ** The loop bounds *)

(** Iterations a step can still need. *)
Definition cutover_rank (s : CutoverStep.t) : nat :=
  match s with CutoverStep.ScaleBlueDown => 3 | CutoverStep.WaitBlueDown => 2 | _ => 1 end.

Definition rollback_rank (s : RollbackStep.t) : nat :=
  match s with RollbackStep.StopGreen => 3 | RollbackStep.ScaleBlueUp => 2 | _ => 1 end.

Section bounds.
Context `{BgChrono}.
Context (node : Node.t) (config : BgConfig.t) (dry_run : bool).

Lemma scale_command step bd he exp obs step' ge next :
  enforce_cutover_safety step bd he exp obs = (step', ge) →
  plan_cutover_advance step' bd ge = (next, CutoverCommand.ScaleBlueToZero) →
  step = CutoverStep.ScaleBlueDown ∧ next = CutoverStep.WaitBlueDown.
Proof. destruct step, bd; simpl; intros [= <- <-]; simpl; repeat case_match; by intros [=]. Qed.

Lemma enable_command step bd he exp obs step' ge next :
  enforce_cutover_safety step bd he exp obs = (step', ge) →
  plan_cutover_advance step' bd ge = (next, CutoverCommand.EnableGreenPublishingAndRestart) →
  step = CutoverStep.WaitBlueDown.
Proof. destruct step, bd; simpl; intros [= <- <-]; simpl; repeat case_match; by intros [=]. Qed.

Lemma cutover_loop_enough n m dv step exp :
  cutover_rank step ≤ n → cutover_rank step ≤ m →
  same (cutover_loop node config dry_run n dv step exp) (cutover_loop node config dry_run m dv step exp).
Proof.
  revert m step exp. induction n as [|n IH]; intros m step exp Hn Hm; [by destruct step; simpl in Hn; lia|].
  destruct m as [|m]; [by destruct step; simpl in Hm; lia|]. cbn [cutover_loop]. apply same_bind.
  intros [[bd he] obs]. destruct (enforce_cutover_safety _ _ _ _ _) as [step' ge] eqn:Henf.
  destruct (plan_cutover_advance step' bd ge) as [next cmd] eqn:Hplan. destruct cmd.
  - apply same_bind. intros _. destruct (scale_command _ _ _ _ _ _ _ _ Henf Hplan) as [-> ->].
    case_bool_decide; [done|]. simpl in *. apply IH; simpl; lia.
  - done.
  - rewrite (enable_command _ _ _ _ _ _ _ _ Henf Hplan) in *. simpl in Hn, Hm.
    apply plan_enables_green with (1 := Henf) in Hplan as ->. cbn [negb]. apply same_bind. intros tok.
    apply IH; simpl; lia.
  - rewrite (plan_switches _ _ _ _ _ _ _ _ Henf Hplan). done.
Qed.

Lemma rollback_loop_enough n m step :
  rollback_rank step ≤ n → rollback_rank step ≤ m →
  same (rollback_loop node config dry_run n step) (rollback_loop node config dry_run m step).
Proof.
  revert m step. induction n as [|n IH]; intros m step Hn Hm; [by destruct step; simpl in Hn; lia|].
  destruct m as [|m]; [by destruct step; simpl in Hm; lia|]. cbn [rollback_loop]. apply same_bind.
  intros blue. destruct (CutoverGateResult.is_eligible _), step;
    cbn [plan_rollback_advance rollback_rank negb] in *; try done;
    repeat (apply same_bind; intros []); apply IH; simpl; lia.
Qed.
End bounds.

(** C32: The bounded loops are not cut short.  The four iterations allowed to a
    cutover and to a rollback in one pass have the same executions, request by
    request and result by result, as any larger number of iterations: every pass
    ends because it waits, finishes or fails, never because the bound ran out. *)
Theorem step_bounds_are_enough `{BgChrono} node config dry_run dv k :
  same (run_cutover_steps node config dry_run dv)
       (cutover_loop node config dry_run (4 + k) dv (read_cutover_step node) (annotation node ANN_PUBLISH_ROLLOUT))
  ∧ same (run_rollback_steps node config dry_run)
         (rollback_loop node config dry_run (4 + k) (read_rollback_step node)).
Proof.
  split.
  - apply cutover_loop_enough; destruct (read_cutover_step node); simpl; lia.
  - apply rollback_loop_enough; destruct (read_rollback_step node); simpl; lia.
Qed.

(** ** A cutover that completes *)

(** The answers of a cluster in which blue is gone and green follows what it is
    told: green runs one ready pod, synced, that carries the token in force, and
    every write succeeds. *)
Definition cooperative (node : Node.t) (h : list event) (e : event) : Prop :=
  match e with
  | Ev (GetSts _) r => sts_answer_down r = true
  | Ev (ListPods sel) r =>
      (sel = color_selector node COLOR_BLUE → r = Ok [])
      ∧ (sel = color_selector node COLOR_GREEN →
         ∃ pod ip, r = Ok [pod] ∧ pod_ready pod = true ∧ PodView.pod_ip pod = Some ip
           ∧ pod_publish_rollout_token pod = current_token node h)
  | Ev (QueryInfo _) r => ∃ raw l, r = Ok (raw, Some l) ∧ parse_sync_state raw = CoreSyncState.Synced
  | Ev (ApplySts _) r | Ev (ApplyService _ _) r | Ev (ApplyGreenConfig _ _) r | Ev (PatchNode _ _) r =>
      r = Ok ()
  | _ => True
  end.

Section completes.
Context `{BgChrono}.
Context (node : Node.t) (config : BgConfig.t) (dry_run : bool).
Abbreviation coop := (cooperative node).

Lemma ends_snapshot_green h :
  ends coop (snapshot_for_color node COLOR_GREEN)
    (λ h' r, current_token node h' = current_token node h
       ∧ ∃ raw l, r = Ok (Snap.mk CoreSyncState.Synced (Some l) true true (Some raw))) h.
Proof.
  unfold snapshot_for_color, list_pods_for_color. cbn. intros r [_ Hg].
  destruct (Hg eq_refl) as (pod & ip & -> & Hready & Hip & _). cbn. rewrite Hip. cbn.
  intros r (raw & l & -> & Hraw). cbn. rewrite !current_token_snoc. split; [done|].
  exists raw, l. by rewrite Hraw, Hready.
Qed.

Lemma ends_snapshot_blue h :
  ends coop (snapshot_for_color node COLOR_BLUE)
    (λ h' r, current_token node h' = current_token node h
       ∧ r = Ok (Snap.mk CoreSyncState.Unknown None false false None)) h.
Proof.
  unfold snapshot_for_color, list_pods_for_color. cbn. intros r [Hb _]. rewrite (Hb eq_refl). cbn.
  by rewrite !current_token_snoc.
Qed.

Lemma ends_blue_fully_down h :
  ends coop (blue_fully_down node) (λ h' r, current_token node h' = current_token node h ∧ r = Ok true) h.
Proof.
  unfold blue_fully_down, sts_fully_down, no_ready_pods_for_color. cbn. intros r Hr.
  destruct r as [sts|[|t]]; cbn in *; [rewrite Hr| |done];
    intros r [Hb _]; rewrite (Hb eq_refl); cbn; by rewrite !current_token_snoc.
Qed.

Lemma ends_observed_token h :
  ends coop (green_observed_publish_rollout node)
    (λ h' r, current_token node h' = current_token node h ∧ r = Ok (current_token node h)) h.
Proof.
  unfold green_observed_publish_rollout, list_pods_for_color. cbn. intros r [_ Hg].
  destruct (Hg eq_refl) as (pod & ip & -> & Hready & _ & Htok). cbn.
  rewrite Hready. cbn. by rewrite !current_token_snoc, Htok.
Qed.

Lemma ends_observe_cutover h :
  ends coop (observe_cutover node config)
    (λ h' r, current_token node h' = current_token node h ∧ r = Ok (true, true, current_token node h)) h.
Proof.
  unfold observe_cutover. apply ends_bind. eapply ends_mono; [apply ends_blue_fully_down|].
  intros tr1 r [Ht1 ->]. apply ends_bind. eapply ends_mono; [apply ends_snapshot_green|].
  intros tr2 r (Ht2 & raw & l & ->). apply ends_bind. eapply ends_mono; [apply ends_snapshot_blue|].
  intros tr3 r [Ht3 ->]. apply ends_bind. eapply ends_mono; [apply ends_observed_token|].
  intros tr4 r [Ht4 ->]. cbn [ends mret tree_ret]. rewrite Ht4, Ht3, Ht2, Ht1. split; [done|]. by cbn.
Qed.

(** The last requests of a finished cutover. *)
Definition cutover_finished (h : list event) (r : result () KErr) : Prop :=
  r = Ok () ∧ ∃ h' now ann status x,
    h = h' ++ [Ev (ApplyService COLOR_GREEN dry_run) (Ok ()); Ev UtcNow now;
               Ev (PatchNode [(ANN_CUTOVER_AT, Some (to_rfc3339 now));
                              (ANN_CUTOVER_STEP, Some (CutoverStep.as_str CutoverStep.Complete))] None) (Ok ());
               Ev (PatchNode ann (Some status)) (Ok ()); Ev (PatchStatus status) x]
    ∧ st_phase status = BgPhase.as_str BgPhase.GreenActive ∧ st_active_color status = COLOR_GREEN.

Lemma ends_patch_node_progress phase c m tv sn cs rs (Q : list event → result () KErr → Prop) h :
  (∀ x ann, let st := bg_status (BgPhase.as_str phase) c m tv sn in
     Q (h ++ [Ev (PatchNode ann (Some st)) (Ok ()); Ev (PatchStatus st) x]) (Ok ())) →
  ends coop (patch_node_progress phase c m tv sn cs rs) Q h.
Proof.
  intros HQ. unfold patch_node_progress. cbn. intros r ->. cbn. intros x _. rewrite <- app_assoc. apply HQ.
Qed.

(** A write, after which the pass goes on. *)
Lemma ends_write {A} (op : Op (result () KErr)) (p : () → prog A) Q h :
  (∀ r, coop h (Ev op r) → r = Ok ()) → ends coop (p ()) Q (h ++ [Ev op (Ok ())]) →
  ends coop (request op ≫= p) Q h.
Proof. intros Hop Hp. apply ends_bind. unfold request. cbn [ends]. intros r Hr. by rewrite (Hop r Hr). Qed.

Lemma ends_attempt {A} (op : Op (result () KErr)) (p : () → prog A) Q h :
  (∀ r, coop h (Ev op r) → r = Ok ()) → ends coop (p ()) Q (h ++ [Ev op (Ok ())]) →
  ends coop (attempt op ≫= p) Q h.
Proof. intros Hop Hp. apply ends_bind. unfold attempt. cbn [ends]. intros r Hr. by rewrite (Hop r Hr). Qed.

Lemma ends_clock {A} (p : Z → prog A) Q h :
  (∀ now, ends coop (p now) Q (h ++ [Ev UtcNow now])) → ends coop (utc_now ≫= p) Q h.
Proof. intros Hp. apply ends_bind. unfold utc_now. cbn [ends]. intros now _. apply Hp. Qed.

Lemma ends_switch_service_to_green dv h :
  ends coop (switch_service_to_green node dry_run dv) cutover_finished h.
Proof.
  unfold switch_service_to_green. apply ends_write; [done|]. apply ends_clock. intros now.
  apply ends_attempt; [done|]. apply ends_patch_node_progress. intros x ann st. split; [done|].
  exists h, now, ann, st, x. split; [by rewrite <- !app_assoc|done].
Qed.

Lemma ends_switch n dv tok h :
  current_token node h = Some tok → tok ≠ EmptyString →
  ends coop (cutover_loop node config dry_run (S n) dv CutoverStep.WaitGreenHealthy (Some tok)) cutover_finished h.
Proof.
  intros Htok Hne. cbn [cutover_loop]. apply ends_bind. eapply ends_mono; [apply ends_observe_cutover|].
  intros tr r [Ht ->]. rewrite Htok.
  assert (green_publish_rollout_observed (Some tok) (Some tok) = true) as Hobs.
  { destruct tok; [done|]. simpl. by apply bool_decide_eq_true. }
  unfold enforce_cutover_safety, green_ready_for_service_switch. rewrite Hobs.
  apply ends_switch_service_to_green.
Qed.

Lemma ends_enable (rfc3339_nonempty : ∀ t, to_rfc3339 t ≠ EmptyString) n dv exp h :
  ends coop (cutover_loop node config dry_run (S (S n)) dv CutoverStep.WaitBlueDown exp) cutover_finished h.
Proof.
  cbn [cutover_loop]. apply ends_bind. eapply ends_mono; [apply ends_observe_cutover|].
  intros tr r [Ht ->]. unfold enforce_cutover_safety. cbn [green_must_stay_standby negb andb plan_cutover_advance].
  apply ends_bind. unfold enable_green_publishing. apply ends_clock. intros now. apply ends_write; [done|].
  apply ends_write; [done|]. apply ends_attempt; [done|]. apply ends_bind, ends_patch_node_progress.
  intros x ann st. unfold mret, tree_ret. cbn [ends]. apply ends_switch; [|done].
  rewrite (cons_middle (Ev (PatchNode _ (Some st)) _)), app_assoc. by rewrite !current_token_snoc.
Qed.

Lemma ends_scale (rfc3339_nonempty : ∀ t, to_rfc3339 t ≠ EmptyString) n dv exp h :
  ends coop (cutover_loop node config dry_run (S (S (S n))) dv CutoverStep.ScaleBlueDown exp) cutover_finished h.
Proof.
  cbn [cutover_loop]. apply ends_bind. eapply ends_mono; [apply ends_observe_cutover|].
  intros tr r [Ht ->]. unfold enforce_cutover_safety. cbn [green_must_stay_standby negb andb plan_cutover_advance].
  apply ends_bind. unfold scale_blue_to_zero. apply ends_write; [done|]. apply ends_write; [done|].
  apply ends_write; [done|]. apply ends_patch_node_progress. intros x ann st. cbn [bool_decide].
  rewrite bool_decide_eq_false_2 by done. by apply ends_enable.
Qed.
End completes.


(** ** The step that never ends *)

(** The requests of a cutover whose persisted step is already Complete. *)
Definition stuck_op : op_pred := λ X op,
  match op with
  | ApplyHeadless _ color _ _ => String.eqb color COLOR_BLUE
  | PatchNode ann (Some st) =>
      String.eqb (st_phase st) (BgPhase.as_str BgPhase.CuttingOver) && String.eqb (st_active_color st) COLOR_BLUE
      && bool_decide ((ANN_PHASE, Some (BgPhase.as_str BgPhase.CuttingOver)) ∈ ann
                      ∧ (ANN_CUTOVER_STEP, Some (CutoverStep.as_str CutoverStep.Complete)) ∈ ann)
  | PatchStatus st =>
      String.eqb (st_phase st) (BgPhase.as_str BgPhase.CuttingOver) && String.eqb (st_active_color st) COLOR_BLUE
  | _ => is_read X op
  end.

Lemma stuck_loop `{BgChrono} node config dry_run fuel dv exp :
  all_ops stuck_op (cutover_loop node config dry_run fuel dv CutoverStep.Complete exp).
Proof.
  destruct fuel as [|fuel]; [done|]. cbn [cutover_loop].
  apply all_ops_bind; [eapply all_ops_impl, observe_reads; by intros X []|].
  intros [[bd he] obs]. unfold enforce_cutover_safety. rewrite andb_false_r. cbn [plan_cutover_advance].
  unfold patch_node_progress, request, attempt. split; [|intros [[]|]; by repeat split].
  simpl. apply bool_decide_eq_true. split; [set_solver|]. rewrite !elem_of_cons, elem_of_app. set_solver.
Qed.

(** A cutover whose step is persisted as Complete cannot end.  The switch
    persists that step before it persists the phase GreenActive; once the phase
    still reads CuttingOver (on blue) with that step, no pass, whatever the
    cluster answers, applies a StatefulSet, a Service or a configuration: every
    patch writes CuttingOver, blue and Complete again. *)
Theorem completed_step_is_stuck `{BgChrono} node dry_run tr r :
  read_phase node = BgPhase.CuttingOver → read_active_color node ≠ COLOR_GREEN →
  read_cutover_step node = CutoverStep.Complete →
  exec (reconcile_validator_blue_green node dry_run) tr r →
  ∀ e, e ∈ tr → ev_pred stuck_op e = true.
Proof.
  intros Hph Hcol Hstep Hex. apply (reconcile_ops_from stuck_op) with (6 := Hex); [by rewrite Hph| |done|done|].
  - rewrite Hph. by apply String.eqb_neq.
  - intros bv. rewrite Hph. cbn [continue_rollout advance_phase_of]. unfold run_cutover_steps. rewrite Hstep.
    apply stuck_loop.
Qed.

(** ** Persistence *)

(** A JSON merge patch of the annotations, and the node it leaves when the patches
    of annotations and status take effect. *)
Definition merge_annotation (m : gmap string string) (kv : string * option string) : gmap string string :=
  match snd kv with Some v => <[fst kv := v]> m | None => delete (fst kv) m end.

Definition persisted (node : Node.t) (ann : list (string * option string)) (st : BgStatus) : Node.t :=
  Node.mk (Node.name_any node) (Node.namespace node) (Node.node_type node) (Node.strategy_type node)
    (Node.blue_green node) (Node.version node) (Node.suspended node)
    (Some (fold_left merge_annotation ann (default ∅ (Node.annotations node))))
    (Some (st_phase st)) (Some (st_active_color st)).

Lemma annotation_default node key : annotation node key = default ∅ (Node.annotations node) !! key.
Proof. unfold annotation. by destruct (Node.annotations node). Qed.

Lemma parse_phase p : BgPhase.parse (BgPhase.as_str p) = p.
Proof. by destruct p. Qed.

Lemma parse_cutover_step s : CutoverStep.parse (CutoverStep.as_str s) = s.
Proof. by destruct s. Qed.

Lemma parse_rollback_step s : RollbackStep.parse (RollbackStep.as_str s) = s.
Proof. by destruct s. Qed.

Ltac look := repeat first [rewrite lookup_insert_eq | rewrite lookup_insert_ne by done].

