(* ===== verification/BlueGreenWitness.v ===== *)
(** * Validator blue/green rollout: concrete runs

    A validator at every stage of a rollout, run against concrete clusters; each
    theorem of the component with hypotheses is applied to such a run. *)

From stdpp Require Import prelude strings gmap list.
From S2P Require Import Prelude RustStr Prog BlueGreen BlueGreenReconcile BlueGreenFacts BlueGreenProgress.
Local Open Scope string_scope.

#[local] Instance ex_chrono : BgChrono := {
  to_rfc3339 t := "T" +:+ show_Z t;
  parse_rfc3339 s := if String.eqb s "T0" then Some 0%Z else None;
  compact_timestamp t := show_Z t;
}.

Definition ex_node (phase color : string) (ann : gmap string string) : Node.t :=
  Node.mk "val" None NodeType.Validator RolloutStrategyType.BlueGreen None "v2" false (Some ann)
    (Some phase) (Some color).

Definition ex_pod (token : option string) : PodView.t :=
  PodView.mk (Some [("Ready", "True")]) (Some "10.0.0.1")
    (match token with Some t => Some {[ANN_PUBLISH_ROLLOUT := t]} | None => None end).

(** Blue gone, green following; the clock reads eleven days after the epoch. *)
Definition ex_env (node : Node.t) (h : list event) (X : Set) (op : Op X) : X :=
  match op with
  | GetSts _ => Err NotFound
  | ListPods sel => if String.eqb sel (color_selector node COLOR_BLUE) then Ok []
                    else Ok [ex_pod (current_token node h)]
  | QueryInfo _ => Ok ("Synced!", Some 100%Z)
  | GetVolumeSnapshot _ => Ok (Some true)
  | CreateVolumeSnapshot _ _ _ | GetPvc _ | CreatePvc _ _ | ApplySts _ | ApplyService _ _
  | ApplyHeadless _ _ _ _ | ApplyGreenConfig _ _ | PatchNode _ _ | PatchStatus _ | Delete _ _ => Ok ()
  | UtcNow => (10 ^ 15)%Z
  end.

(** Both colors running and healthy. *)
Definition ex_env_up (node : Node.t) (h : list event) (X : Set) (op : Op X) : X :=
  match op in Op Y return Y → Y with
  | ListPods _ => λ _, Ok [ex_pod (current_token node h)]
  | _ => λ x, x
  end (ex_env node h X op).

Definition ex_run (env : Node.t → list event → ∀ X : Set, Op X → X) (node : Node.t)
    : list event * result unit KErr :=
  run (env node) (reconcile_validator_blue_green node false) [].

Definition ex_cutting : Node.t := ex_node "CuttingOver" "blue" ∅.
Definition ex_finishing : Node.t := ex_node "CuttingOver" "blue" {[ANN_CUTOVER_STEP := "Complete"]}.
Definition ex_rolling : Node.t := ex_node "RollingBack" "green" ∅.
Definition ex_waiting : Node.t := ex_node "WaitingForGreen" "blue" {[ANN_STARTED_AT := "T0"]}.
Definition ex_failed : Node.t := ex_node "Failed" "blue" {[ANN_BLUE_VERSION := "v1"]}.

(** The Service is moved to green by the 32nd request of the pass. *)
Lemma cutover_is_serialized_witness :
  let h := take 31 (fst (ex_run ex_env ex_cutting)) in
  ∃ h1 blk, h = (h1 ++ blk)%list ∧ seen_promotable ex_cutting 5 (current_token ex_cutting h) blk.
Proof.
  exact (proj2 (cutover_is_serialized ex_cutting false _ _ (take 31 (fst (ex_run ex_env ex_cutting)))
    (Ev (ApplyService COLOR_GREEN false) (Ok ())) (drop 32 (fst (ex_run ex_env ex_cutting)))
    ltac:(reflexivity) (run_exec (ex_env ex_cutting) _) ltac:(vm_compute; reflexivity)) ltac:(reflexivity)).
Defined.

(** The Service is moved back to blue by the 16th. *)
Lemma rollback_waits_for_blue_witness :
  rollback_safe ex_rolling 5 (take 15 (fst (ex_run ex_env_up ex_rolling)))
    (Ev (ApplyService COLOR_BLUE false) (Ok ())).
Proof.
  exact (rollback_waits_for_blue ex_rolling false _ _ (take 15 (fst (ex_run ex_env_up ex_rolling)))
    (Ev (ApplyService COLOR_BLUE false) (Ok ())) (drop 16 (fst (ex_run ex_env_up ex_rolling)))
    ltac:(reflexivity) ltac:(reflexivity) ltac:(reflexivity) (run_exec (ex_env_up ex_rolling) _)
    ltac:(vm_compute; reflexivity)).
Defined.

Lemma failed_stays_failed_witness :
  length (fst (ex_run ex_env ex_failed)) = 4
  ∧ ∀ e, e ∈ fst (ex_run ex_env ex_failed) → ev_pred (failed_op ex_failed false) e = true.
Proof.
  split; [vm_compute; reflexivity|].
  exact (failed_stays_failed ex_failed false _ _ ltac:(reflexivity) ltac:(reflexivity) ltac:(discriminate)
    (run_exec (ex_env ex_failed) _)).
Defined.

(** The green StatefulSet is deleted by the sixth request. *)
Lemma deletions_spare_storage_witness :
  ("sts", green_sts_name ex_waiting)
    ∈ [("sts", green_sts_name ex_waiting); ("cm", green_config_name ex_waiting);
       ("svc", green_headless_name ex_waiting)]%list.
Proof.
  pose (tr := fst (ex_run ex_env ex_waiting)).
  assert (tr = (take 5 tr ++ Ev (Delete "sts" (green_sts_name ex_waiting)) (Ok ()) :: drop 6 tr)%list) as Htr
    by (vm_compute; reflexivity).
  destruct (deletions_spare_storage ex_waiting false tr (snd (ex_run ex_env ex_waiting)) (take 5 tr)
    "sts" (green_sts_name ex_waiting) (Ok ()) (drop 6 tr)
    (run_exec (ex_env ex_waiting) (reconcile_validator_blue_green ex_waiting false)) Htr) as [Hgreen _].
  exact Hgreen.
Defined.

Lemma completed_step_is_stuck_witness :
  fst (ex_run ex_env ex_finishing) ≠ [] ∧
  ∀ e, e ∈ fst (ex_run ex_env ex_finishing) → ev_pred stuck_op e = true.
Proof.
  split; [vm_compute; discriminate|].
  exact (completed_step_is_stuck ex_finishing false _ _ ltac:(reflexivity) ltac:(discriminate)
    ltac:(vm_compute; reflexivity) (run_exec (ex_env ex_finishing) _)).
Defined.


(** ** The cooperative run *)

(** A decision procedure for [cooperative], and for its holding along a trace. *)
Definition is_ok {E} (r : result unit E) : bool := match r with Ok _ => true | Err _ => false end.

Definition green_pod_ok (token : option string) (r : result (list PodView.t) KErr) : bool :=
  match r with
  | Ok [pod] => pod_ready pod && bool_decide (is_Some (PodView.pod_ip pod))
                && bool_decide (pod_publish_rollout_token pod = token)
  | _ => false
  end.

Definition cooperative_b (node : Node.t) (h : list event) (e : event) : bool :=
  match e with
  | Ev (GetSts _) r => sts_answer_down r
  | Ev (ListPods sel) r =>
      (negb (String.eqb sel (color_selector node COLOR_BLUE)) || match r with Ok [] => true | _ => false end)
      && (negb (String.eqb sel (color_selector node COLOR_GREEN)) || green_pod_ok (current_token node h) r)
  | Ev (QueryInfo _) r =>
      match r with Ok (raw, Some _) => bool_decide (parse_sync_state raw = CoreSyncState.Synced) | _ => false end
  | Ev (ApplySts _) r | Ev (ApplyService _ _) r | Ev (ApplyGreenConfig _ _) r | Ev (PatchNode _ _) r => is_ok r
  | _ => true
  end.

Lemma cooperative_b_sound node h e : cooperative_b node h e = true → cooperative node h e.
Proof.
  destruct e as [X op r]. destruct op; simpl; try done; try (destruct r as [[]|]; done).
  - intros [H1 H2]%andb_prop. split; intros ->; rewrite String.eqb_refl in *; simpl in *.
    + by destruct r as [[|]|].
    + destruct r as [[|pod []]|]; try done. simpl in H2.
      apply andb_prop in H2 as [[H2 [ip Hip]%bool_decide_eq_true]%andb_prop Ht%bool_decide_eq_true].
      by exists pod, ip.
  - destruct r as [[raw [l|]]|]; try done. intros Hs%bool_decide_eq_true. by exists raw, l.
Qed.

Fixpoint holds_along (P : list event → event → bool) (h tr : list event) : bool :=
  match tr with [] => true | e :: t => P h e && holds_along P (h ++ [e])%list t end.

Lemma holds_along_spec P h tr :
  holds_along P h tr = true → ∀ tr1 e tr2, tr = (tr1 ++ e :: tr2)%list → P (h ++ tr1)%list e = true.
Proof.
  revert h. induction tr as [|e0 tr IH]; intros h; [by intros _ []|].
  intros [He Ht]%andb_prop [|e1 tr1] e tr2 [= <- ?]; simplify_eq.
  - by rewrite app_nil_r.
  - rewrite (cons_middle e0 h tr1), app_assoc. by apply (IH _ Ht tr1 e tr2).
Qed.

