(* ===== verification/MaintenanceTypes.v ===== *)
(** * The MaintenancePlan custom resource

    Models [src/src/crd/maintenance_plan.rs]: one module per struct or enum, with
    the source's field names; [set_f] is the assignment to field [f]. *)

From stdpp Require Import prelude strings list.
From S2P Require Import Prelude RustStr Float64 Conditions BTreeMap.
Local Open Scope string_scope.


Module MaintenanceTarget.

Record t := mk {
  node_names : list string;
  match_labels : BTreeMap.t string;
}.

Definition default : t := mk [] [].

End MaintenanceTarget.

Module MaintenanceIntent.

Inductive t : Set := Patch | Reboot | KernelUpdate | Evacuate.

#[global] Instance eq_dec : EqDecision t.
Proof. solve_decision. Defined.

Definition default : t := Patch.

End MaintenanceIntent.

Definition default_max_parallel : Z := 4.
Definition default_grace : Z := 30.
Definition default_true : bool := true.

Module DrainConfig.

Record t := mk {
  max_parallel : Z;
  grace_period_seconds : Z;
  ignore_daemon_sets : bool;
  delete_empty_dir_data : bool;
}.

Definition default : t := mk default_max_parallel default_grace true true.

End DrainConfig.

Module StallRecovery.

Inductive t : Set := SurgeThenEvict | SkipNode | Abort.

#[global] Instance eq_dec : EqDecision t.
Proof. solve_decision. Defined.

Definition default : t := SurgeThenEvict.

End StallRecovery.

Definition default_stall_timeout : Z := 120.

Module PdbConfig.

Record t := mk {
  respect : bool;
  stall_timeout_seconds : Z;
  stall_recovery : StallRecovery.t;
}.

Definition default : t := mk true default_stall_timeout StallRecovery.default.

End PdbConfig.

Definition default_prewarm_timeout : Z := 180.
Definition default_replica_buffer : Z := 1.

Module PrewarmConfig.

Record t := mk {
  enabled : bool;
  readiness_timeout_seconds : Z;
  replica_buffer : Z;
}.

Definition default : t := mk true default_prewarm_timeout default_replica_buffer.

End PrewarmConfig.

(** The literals [0.001] and [0.999]: the correctly rounded quotients. *)
Definition default_max_error_rate : f64 := f64_div (f64_of_Z 1) (f64_of_Z 1000).
Definition default_min_availability : f64 := f64_div (f64_of_Z 999) (f64_of_Z 1000).
Definition default_slo_window : Z := 30.

Module SloVerification.

Record t := mk {
  enabled : bool;
  max_error_rate : f64;
  min_availability : f64;
  sample_window_seconds : Z;
}.

Definition default : t := mk true default_max_error_rate default_min_availability default_slo_window.

End SloVerification.

Module AbortPolicy.

Record t := mk {
  on_slo_breach : bool;
  auto_recover : bool;
  uncordon_on_abort : bool;
  requested : bool;
}.

Definition default : t := mk true true true false.

End AbortPolicy.

Module MaintenancePlanSpec.

Record t := mk {
  target : MaintenanceTarget.t;
  intent : MaintenanceIntent.t;
  drain : DrainConfig.t;
  pdb : PdbConfig.t;
  prewarm : PrewarmConfig.t;
  slo : SloVerification.t;
  abort : AbortPolicy.t;
}.

Definition default : t :=
  mk MaintenanceTarget.default MaintenanceIntent.default DrainConfig.default PdbConfig.default
    PrewarmConfig.default SloVerification.default AbortPolicy.default.

(** [(0.0..=1.0).contains(&x)]. *)
Definition in_unit (x : f64) : bool := f64_le f64_zero x && f64_le x (f64_of_Z 1).

Definition validate (s : t) : result unit string :=
  if (bool_decide (MaintenanceTarget.node_names (target s) = [])
      && bool_decide (MaintenanceTarget.match_labels (target s) = []))
  then Err "target must set nodeNames and/or matchLabels"
  else if (DrainConfig.max_parallel (drain s) =? 0)%Z then Err "drain.maxParallel must be >= 1"
  else if (PdbConfig.stall_timeout_seconds (pdb s) =? 0)%Z then Err "pdb.stallTimeoutSeconds must be >= 1"
  else if negb (in_unit (SloVerification.max_error_rate (slo s))) then Err "slo.maxErrorRate must be in [0, 1]"
  else if negb (in_unit (SloVerification.min_availability (slo s)))
  then Err "slo.minAvailability must be in [0, 1]"
  else Ok tt.

End MaintenancePlanSpec.

Module MaintenancePhase.

Inductive t : Set := Planned | Prewarming | Draining | Stalled | Verifying | Aborted | Completed | Failed.

#[global] Instance eq_dec : EqDecision t.
Proof. solve_decision. Defined.

Definition default : t := Planned.

Definition as_str (p : t) : string :=
  match p with
  | Planned => "Planned"
  | Prewarming => "Prewarming"
  | Draining => "Draining"
  | Stalled => "Stalled"
  | Verifying => "Verifying"
  | Aborted => "Aborted"
  | Completed => "Completed"
  | Failed => "Failed"
  end.

Definition is_terminal (p : t) : bool :=
  match p with Completed | Failed | Aborted => true | _ => false end.

End MaintenancePhase.

Module MaintenancePlanStatus.

Record t := mk {
  phase : MaintenancePhase.t;
  conditions : list Condition.t;
  progress : string;
  resolved_nodes : list string;
  cursor : Z;
  nodes_completed : list string;
  nodes_failed : list string;
  prewarmed_workloads : list string;
  cordoned_nodes : list string;
  pdb_stalls : Z;
  last_progress_unix : Z;
  started_unix : Z;
  last_error_rate : f64;
  last_availability : f64;
  cold_window_ms : Z;
  patch_cycle_ms : Z;
  user_facing_errors : Z;
  observed_generation : Z;
  last_event : option string;
  last_reconcile_time : option string;
  message : option string;
}.

Definition set_phase (v : MaintenancePhase.t) (s : t) : t :=
  mk v (conditions s) (progress s) (resolved_nodes s) (cursor s) (nodes_completed s)
    (nodes_failed s) (prewarmed_workloads s) (cordoned_nodes s) (pdb_stalls s)
    (last_progress_unix s) (started_unix s) (last_error_rate s) (last_availability s)
    (cold_window_ms s) (patch_cycle_ms s) (user_facing_errors s) (observed_generation s)
    (last_event s) (last_reconcile_time s) (message s).

Definition set_conditions (v : list Condition.t) (s : t) : t :=
  mk (phase s) v (progress s) (resolved_nodes s) (cursor s) (nodes_completed s) (nodes_failed s)
    (prewarmed_workloads s) (cordoned_nodes s) (pdb_stalls s) (last_progress_unix s)
    (started_unix s) (last_error_rate s) (last_availability s) (cold_window_ms s)
    (patch_cycle_ms s) (user_facing_errors s) (observed_generation s) (last_event s)
    (last_reconcile_time s) (message s).

Definition set_progress (v : string) (s : t) : t :=
  mk (phase s) (conditions s) v (resolved_nodes s) (cursor s) (nodes_completed s)
    (nodes_failed s) (prewarmed_workloads s) (cordoned_nodes s) (pdb_stalls s)
    (last_progress_unix s) (started_unix s) (last_error_rate s) (last_availability s)
    (cold_window_ms s) (patch_cycle_ms s) (user_facing_errors s) (observed_generation s)
    (last_event s) (last_reconcile_time s) (message s).

Definition set_resolved_nodes (v : list string) (s : t) : t :=
  mk (phase s) (conditions s) (progress s) v (cursor s) (nodes_completed s) (nodes_failed s)
    (prewarmed_workloads s) (cordoned_nodes s) (pdb_stalls s) (last_progress_unix s)
    (started_unix s) (last_error_rate s) (last_availability s) (cold_window_ms s)
    (patch_cycle_ms s) (user_facing_errors s) (observed_generation s) (last_event s)
    (last_reconcile_time s) (message s).

Definition set_cursor (v : Z) (s : t) : t :=
  mk (phase s) (conditions s) (progress s) (resolved_nodes s) v (nodes_completed s)
    (nodes_failed s) (prewarmed_workloads s) (cordoned_nodes s) (pdb_stalls s)
    (last_progress_unix s) (started_unix s) (last_error_rate s) (last_availability s)
    (cold_window_ms s) (patch_cycle_ms s) (user_facing_errors s) (observed_generation s)
    (last_event s) (last_reconcile_time s) (message s).

Definition set_nodes_completed (v : list string) (s : t) : t :=
  mk (phase s) (conditions s) (progress s) (resolved_nodes s) (cursor s) v (nodes_failed s)
    (prewarmed_workloads s) (cordoned_nodes s) (pdb_stalls s) (last_progress_unix s)
    (started_unix s) (last_error_rate s) (last_availability s) (cold_window_ms s)
    (patch_cycle_ms s) (user_facing_errors s) (observed_generation s) (last_event s)
    (last_reconcile_time s) (message s).

Definition set_nodes_failed (v : list string) (s : t) : t :=
  mk (phase s) (conditions s) (progress s) (resolved_nodes s) (cursor s) (nodes_completed s) v
    (prewarmed_workloads s) (cordoned_nodes s) (pdb_stalls s) (last_progress_unix s)
    (started_unix s) (last_error_rate s) (last_availability s) (cold_window_ms s)
    (patch_cycle_ms s) (user_facing_errors s) (observed_generation s) (last_event s)
    (last_reconcile_time s) (message s).

Definition set_prewarmed_workloads (v : list string) (s : t) : t :=
  mk (phase s) (conditions s) (progress s) (resolved_nodes s) (cursor s) (nodes_completed s)
    (nodes_failed s) v (cordoned_nodes s) (pdb_stalls s) (last_progress_unix s) (started_unix s)
    (last_error_rate s) (last_availability s) (cold_window_ms s) (patch_cycle_ms s)
    (user_facing_errors s) (observed_generation s) (last_event s) (last_reconcile_time s)
    (message s).

Definition set_cordoned_nodes (v : list string) (s : t) : t :=
  mk (phase s) (conditions s) (progress s) (resolved_nodes s) (cursor s) (nodes_completed s)
    (nodes_failed s) (prewarmed_workloads s) v (pdb_stalls s) (last_progress_unix s)
    (started_unix s) (last_error_rate s) (last_availability s) (cold_window_ms s)
    (patch_cycle_ms s) (user_facing_errors s) (observed_generation s) (last_event s)
    (last_reconcile_time s) (message s).

Definition set_pdb_stalls (v : Z) (s : t) : t :=
  mk (phase s) (conditions s) (progress s) (resolved_nodes s) (cursor s) (nodes_completed s)
    (nodes_failed s) (prewarmed_workloads s) (cordoned_nodes s) v (last_progress_unix s)
    (started_unix s) (last_error_rate s) (last_availability s) (cold_window_ms s)
    (patch_cycle_ms s) (user_facing_errors s) (observed_generation s) (last_event s)
    (last_reconcile_time s) (message s).

Definition set_last_progress_unix (v : Z) (s : t) : t :=
  mk (phase s) (conditions s) (progress s) (resolved_nodes s) (cursor s) (nodes_completed s)
    (nodes_failed s) (prewarmed_workloads s) (cordoned_nodes s) (pdb_stalls s) v
    (started_unix s) (last_error_rate s) (last_availability s) (cold_window_ms s)
    (patch_cycle_ms s) (user_facing_errors s) (observed_generation s) (last_event s)
    (last_reconcile_time s) (message s).

Definition set_started_unix (v : Z) (s : t) : t :=
  mk (phase s) (conditions s) (progress s) (resolved_nodes s) (cursor s) (nodes_completed s)
    (nodes_failed s) (prewarmed_workloads s) (cordoned_nodes s) (pdb_stalls s)
    (last_progress_unix s) v (last_error_rate s) (last_availability s) (cold_window_ms s)
    (patch_cycle_ms s) (user_facing_errors s) (observed_generation s) (last_event s)
    (last_reconcile_time s) (message s).

Definition set_last_error_rate (v : f64) (s : t) : t :=
  mk (phase s) (conditions s) (progress s) (resolved_nodes s) (cursor s) (nodes_completed s)
    (nodes_failed s) (prewarmed_workloads s) (cordoned_nodes s) (pdb_stalls s)
    (last_progress_unix s) (started_unix s) v (last_availability s) (cold_window_ms s)
    (patch_cycle_ms s) (user_facing_errors s) (observed_generation s) (last_event s)
    (last_reconcile_time s) (message s).

Definition set_last_availability (v : f64) (s : t) : t :=
  mk (phase s) (conditions s) (progress s) (resolved_nodes s) (cursor s) (nodes_completed s)
    (nodes_failed s) (prewarmed_workloads s) (cordoned_nodes s) (pdb_stalls s)
    (last_progress_unix s) (started_unix s) (last_error_rate s) v (cold_window_ms s)
    (patch_cycle_ms s) (user_facing_errors s) (observed_generation s) (last_event s)
    (last_reconcile_time s) (message s).

Definition set_cold_window_ms (v : Z) (s : t) : t :=
  mk (phase s) (conditions s) (progress s) (resolved_nodes s) (cursor s) (nodes_completed s)
    (nodes_failed s) (prewarmed_workloads s) (cordoned_nodes s) (pdb_stalls s)
    (last_progress_unix s) (started_unix s) (last_error_rate s) (last_availability s) v
    (patch_cycle_ms s) (user_facing_errors s) (observed_generation s) (last_event s)
    (last_reconcile_time s) (message s).

Definition set_patch_cycle_ms (v : Z) (s : t) : t :=
  mk (phase s) (conditions s) (progress s) (resolved_nodes s) (cursor s) (nodes_completed s)
    (nodes_failed s) (prewarmed_workloads s) (cordoned_nodes s) (pdb_stalls s)
    (last_progress_unix s) (started_unix s) (last_error_rate s) (last_availability s)
    (cold_window_ms s) v (user_facing_errors s) (observed_generation s) (last_event s)
    (last_reconcile_time s) (message s).

Definition set_user_facing_errors (v : Z) (s : t) : t :=
  mk (phase s) (conditions s) (progress s) (resolved_nodes s) (cursor s) (nodes_completed s)
    (nodes_failed s) (prewarmed_workloads s) (cordoned_nodes s) (pdb_stalls s)
    (last_progress_unix s) (started_unix s) (last_error_rate s) (last_availability s)
    (cold_window_ms s) (patch_cycle_ms s) v (observed_generation s) (last_event s)
    (last_reconcile_time s) (message s).

Definition set_observed_generation (v : Z) (s : t) : t :=
  mk (phase s) (conditions s) (progress s) (resolved_nodes s) (cursor s) (nodes_completed s)
    (nodes_failed s) (prewarmed_workloads s) (cordoned_nodes s) (pdb_stalls s)
    (last_progress_unix s) (started_unix s) (last_error_rate s) (last_availability s)
    (cold_window_ms s) (patch_cycle_ms s) (user_facing_errors s) v (last_event s)
    (last_reconcile_time s) (message s).

Definition set_last_event (v : option string) (s : t) : t :=
  mk (phase s) (conditions s) (progress s) (resolved_nodes s) (cursor s) (nodes_completed s)
    (nodes_failed s) (prewarmed_workloads s) (cordoned_nodes s) (pdb_stalls s)
    (last_progress_unix s) (started_unix s) (last_error_rate s) (last_availability s)
    (cold_window_ms s) (patch_cycle_ms s) (user_facing_errors s) (observed_generation s) v
    (last_reconcile_time s) (message s).

Definition set_last_reconcile_time (v : option string) (s : t) : t :=
  mk (phase s) (conditions s) (progress s) (resolved_nodes s) (cursor s) (nodes_completed s)
    (nodes_failed s) (prewarmed_workloads s) (cordoned_nodes s) (pdb_stalls s)
    (last_progress_unix s) (started_unix s) (last_error_rate s) (last_availability s)
    (cold_window_ms s) (patch_cycle_ms s) (user_facing_errors s) (observed_generation s)
    (last_event s) v (message s).

Definition set_message (v : option string) (s : t) : t :=
  mk (phase s) (conditions s) (progress s) (resolved_nodes s) (cursor s) (nodes_completed s)
    (nodes_failed s) (prewarmed_workloads s) (cordoned_nodes s) (pdb_stalls s)
    (last_progress_unix s) (started_unix s) (last_error_rate s) (last_availability s)
    (cold_window_ms s) (patch_cycle_ms s) (user_facing_errors s) (observed_generation s)
    (last_event s) (last_reconcile_time s) v.

Definition default : t :=
  mk MaintenancePhase.default [] "" [] 0 [] [] [] [] 0 0 0 f64_zero f64_zero 0 0 0 0 None None None.

End MaintenancePlanStatus.
