(* ===== verification/Maintenance.v ===== *)
(** * Planned maintenance: the plan engine

    Models [src/src/controller/maintenance/plan_engine.rs] up to the simulated
    cluster: the idempotent state machine that sequences cordons, prewarming and
    evictions over a cluster backend.  The trait [ClusterOps] is the signature
    [Op] of the requests the engine makes, and the engine is a program over it, so
    its theorems hold against every backend; [MaintenanceBackends] has the two
    implementations.  [&mut st] is threaded as a value: an error of [?] leaves the
    pass without a status. *)

From stdpp Require Import prelude strings gmap list.
From S2P Require Import Prelude RustStr Float64 Conditions BTreeMap Prog MaintenanceTypes.
Local Open Scope string_scope.

Module MPhase := MaintenancePhase.
Module MSpec := MaintenancePlanSpec.
Module MSt := MaintenancePlanStatus.

(** ** What the engine observes *)

Module WorkloadPod.

Record t : Set := mk {
  name : string;
  namespace : string;
  node : string;
  workload : string;
  ready : bool;
  daemon_set : bool;
}.

#[global] Instance eq_dec : EqDecision t.
Proof. solve_decision. Defined.

End WorkloadPod.

Module PdbSnapshot.

Record t : Set := mk {
  name : string;
  workload : string;
  min_available : Z;
  current_healthy : Z;
}.

(** [saturating_sub] on [u32]. *)
Definition allowed_disruptions (p : t) : Z := Z.max 0 (current_healthy p - min_available p).

End PdbSnapshot.

Module SloSample.

Record t : Set := mk { error_rate : f64; availability : f64 }.

End SloSample.

Module ClusterNode.

Record t : Set := mk {
  name : string;
  labels : list (string * string);   (** a [BTreeMap.t string] *)
  cordoned : bool;
  ready : bool;
}.

End ClusterNode.

(** The crate's errors that matter here: those of the engine and of the backends. *)
Inductive Error : Set :=
| ValidationError (m : string)
| KubeError (m : string).

(** How a pass ends without a status: an error, or the panic of a slice out of
    range. *)
Inductive Failure : Set :=
| Failed (e : Error)
| Panicked.

(** ** The requests of [ClusterOps] *)

Inductive Op : Set → Type :=
| ListNodes : Op (list ClusterNode.t)
| ListPods : Op (list WorkloadPod.t)
| ListPdbs : Op (list PdbSnapshot.t)
| Slo : Op SloSample.t
| NowUnix : Op Z
| NowMs : Op Z
| Prewarm (workload : string) (buffer : Z) : Op (result bool Error)
| WorkloadReadyOffNode (workload node : string) : Op bool
| Cordon (node : string) : Op (result unit Error)
| Uncordon (node : string) : Op (result unit Error)
| Evict (pod : WorkloadPod.t) : Op (result unit Error)
| RecoverWorkload (workload : string) : Op (result unit Error)
| RecordEvent (reason message : string) : Op unit
| UserFacingErrors : Op Z
| LastColdWindowMs : Op Z
| UtcNow : Op string.   (** not of the trait: [Utc::now().to_rfc3339()] *)

Abbreviation prog := (tree Op Failure).

(** A request that cannot fail. *)
Definition ask {X : Set} (op : Op X) : prog X := Vis op Ret.

(** A request whose error is propagated by [?]. *)
Definition call {X : Set} (op : Op (result X Error)) : prog X :=
  Vis op (λ r, match r with Ok x => Ret x | Err e => Throw (Failed e) end).

Definition contains_str (x : string) (l : list string) : bool := bool_decide (x ∈ l).

(** [i64::saturating_sub]. *)
Definition i64_saturating_sub (a b : Z) : Z := Z.max (- 2 ^ 63) (Z.min (2 ^ 63 - 1) (a - b)).

Definition u64_saturating_sub (a b : Z) : Z := Z.max 0 (a - b).

(** ** Pure parts *)

Definition labels_match (want : BTreeMap.t string) (node : ClusterNode.t) : bool :=
  forallb (λ kv, bool_decide (BTreeMap.get (fst kv) (ClusterNode.labels node) = Some (snd kv))) want.

(** A node the label selector adds to the targets. *)
Definition selected (spec : MSpec.t) (node : ClusterNode.t) : bool :=
  let want := MaintenanceTarget.match_labels (MSpec.target spec) in
  ClusterNode.ready node && negb (bool_decide (want = [])) && labels_match want node.

Definition resolve_targets (spec : MSpec.t) (nodes : list ClusterNode.t) : list string :=
  BTreeSet.to_list
    (fold_left (λ s n, BTreeSet.insert (ClusterNode.name n) s) (List.filter (selected spec) nodes)
       (BTreeSet.of_list (MaintenanceTarget.node_names (MSpec.target spec)))).

(** The node has been handled. *)
Definition is_handled (st : MSt.t) (name : string) : bool :=
  contains_str name (MSt.nodes_completed st) || contains_str name (MSt.nodes_failed st).

(** Each iteration moves the cursor by one towards the end of the list, whose
    length is enough fuel. *)
Fixpoint advance_loop (fuel : nat) (st : MSt.t) : MSt.t :=
  match fuel with
  | 0 => st
  | S n =>
      match MSt.resolved_nodes st !! Z.to_nat (MSt.cursor st) with
      | Some name => if is_handled st name then advance_loop n (MSt.set_cursor (MSt.cursor st +u32 1) st) else st
      | None => st
      end
  end.

Definition advance_cursor (st : MSt.t) : MSt.t := advance_loop (length (MSt.resolved_nodes st)) st.

Definition remaining_nodes (st : MSt.t) : list string :=
  drop (Z.to_nat (MSt.cursor st)) (MSt.resolved_nodes st).

Definition wave_nodes (spec : MSpec.t) (st : MSt.t) : list string :=
  take (Z.to_nat (Z.max (DrainConfig.max_parallel (MSpec.drain spec)) 1)) (remaining_nodes st).

Definition slo_breached (spec : MSpec.t) (sample : SloSample.t) : bool :=
  f64_gt (SloSample.error_rate sample) (SloVerification.max_error_rate (MSpec.slo spec))
  || f64_lt (SloSample.availability sample) (SloVerification.min_availability (MSpec.slo spec)).

(** The workloads of the pods that satisfy [p], daemon sets aside, in order. *)
Definition workloads_of (p : WorkloadPod.t → bool) (pods : list WorkloadPod.t) : list string :=
  BTreeSet.to_list
    (fold_left (λ s pod, BTreeSet.insert (WorkloadPod.workload pod) s)
       (List.filter (λ pod, p pod && negb (WorkloadPod.daemon_set pod)) pods) []).

Definition workloads_on_remaining (st : MSt.t) : prog (list string) :=
  if (Z.of_nat (length (MSt.resolved_nodes st)) <? MSt.cursor st)%Z then Throw Panicked
  else
    pods ← ask ListPods;
    mret (workloads_of (λ pod, contains_str (WorkloadPod.node pod) (remaining_nodes st)) pods).

Definition workloads_on_node (node : string) : prog (list string) :=
  pods ← ask ListPods;
  mret (workloads_of (λ pod, String.eqb (WorkloadPod.node pod) node) pods).

Definition pods_on_node (node : string) (spec : MSpec.t) : prog (list WorkloadPod.t) :=
  pods ← ask ListPods;
  mret (List.filter (λ p, String.eqb (WorkloadPod.node p) node
    && negb (WorkloadPod.daemon_set p && DrainConfig.ignore_daemon_sets (MSpec.drain spec))) pods).

(** ** Batches *)

(** The least allowance of the budgets of each workload. *)
Definition merge_allowance (m : gmap string Z) (pdb : PdbSnapshot.t) : gmap string Z :=
  let w := PdbSnapshot.workload pdb in
  match m !! w with
  | Some n => <[w := Z.min n (PdbSnapshot.allowed_disruptions pdb)]> m
  | None => <[w := PdbSnapshot.allowed_disruptions pdb]> m
  end.

Definition allowed_by_wl (pdbs : list PdbSnapshot.t) : gmap string Z := fold_left merge_allowance pdbs ∅.

Fixpoint batch_loop (spec : MSpec.t) (allowed : gmap string Z) (candidates : list WorkloadPod.t)
    (taken : gmap string Z) (batch : list WorkloadPod.t) : list WorkloadPod.t :=
  match candidates with
  | [] => batch
  | pod :: rest =>
      let w := WorkloadPod.workload pod in
      if (DrainConfig.max_parallel (MSpec.drain spec) <=? as_u32 (Z.of_nat (length batch)))%Z then batch
      else if PdbConfig.respect (MSpec.pdb spec) then
        match allowed !! w with
        | Some n =>
            let used := default 0%Z (taken !! w) in
            if (n <=? used)%Z then batch_loop spec allowed rest taken batch
            else batch_loop spec allowed rest (<[w := used +u32 1]> taken) (batch ++ [pod])%list
        | None => batch_loop spec allowed rest taken (batch ++ [pod])%list
        end
      else batch_loop spec allowed rest taken (batch ++ [pod])%list
  end.

Definition select_pdb_aware_batch (candidates : list WorkloadPod.t) (spec : MSpec.t)
    : prog (list WorkloadPod.t) :=
  pdbs ← ask ListPdbs;
  mret (batch_loop spec (allowed_by_wl pdbs) candidates ∅ []).

(** Every budget of the workload allows a disruption. *)
Definition budgets_allow (workload : string) (pdbs : list PdbSnapshot.t) : bool :=
  forallb (λ p, (0 <? PdbSnapshot.allowed_disruptions p)%Z)
    (List.filter (λ p, String.eqb (PdbSnapshot.workload p) workload) pdbs).

Definition eviction_respects_pdb (pod : WorkloadPod.t) : prog bool :=
  pdbs ← ask ListPdbs;
  mret (budgets_allow (WorkloadPod.workload pod) pdbs).

(** ** Transitions *)

Definition enter_phase (phase : MPhase.t) (reason : string) (st : MSt.t) : prog MSt.t :=
  let st := MSt.set_last_event (Some reason) (MSt.set_phase phase st) in
  now ← ask UtcNow;
  let conditions := set_condition now (MSt.conditions st) (MPhase.as_str phase)
    (if MPhase.is_terminal phase && negb (bool_decide (phase = MPhase.Completed))
     then CONDITION_STATUS_FALSE else CONDITION_STATUS_TRUE) reason (MPhase.as_str phase) in
  now ← ask UtcNow;
  let conditions := set_condition now conditions "Ready"
    (if bool_decide (phase = MPhase.Completed) then CONDITION_STATUS_TRUE else CONDITION_STATUS_FALSE)
    reason (MPhase.as_str phase) in
  _ ← ask (RecordEvent (MPhase.as_str phase) reason);
  mret (MSt.set_conditions conditions st).

Definition uncordon_all (st : MSt.t) : prog unit :=
  for_each (λ _ node,
    if contains_str node (MSt.nodes_completed st) then mret tt else attempt (Uncordon node))
    (MSt.cordoned_nodes st) tt.

Definition recover_all : prog unit :=
  pods ← ask ListPods;
  _ ← for_each (λ _ wl, attempt (RecoverWorkload wl))
        (BTreeSet.to_list (fold_left (λ s p, BTreeSet.insert (WorkloadPod.workload p) s) pods [])) tt;
  ask (RecordEvent "Recovered" "automatic recovery after abort").

Definition abort_plan (spec : MSpec.t) (reason : string) (st : MSt.t) : prog MSt.t :=
  st ← enter_phase MPhase.Aborted reason st;
  let st := MSt.set_message (Some reason) st in
  _ ← (if AbortPolicy.uncordon_on_abort (MSpec.abort spec) then uncordon_all st else mret tt);
  _ ← (if AbortPolicy.auto_recover (MSpec.abort spec) then recover_all else mret tt);
  errors ← ask UserFacingErrors;
  mret (MSt.set_user_facing_errors errors st).

Definition fail_plan (message : string) (st : MSt.t) : prog MSt.t :=
  st ← enter_phase MPhase.Failed "Failed" st;
  mret (MSt.set_message (Some message) st).

(** ** Steps *)

Definition prewarm_workload (spec : MSpec.t) (acc : MSt.t * bool) (wl : string) : prog (MSt.t * bool) :=
  let '(st, all_ready) := acc in
  ready ← call (Prewarm wl (PrewarmConfig.replica_buffer (MSpec.prewarm spec)));
  st ← (if ready && negb (contains_str wl (MSt.prewarmed_workloads st)) then
          _ ← ask (RecordEvent "Prewarmed" ("workload " +:+ wl +:+ " replacements ready"));
          mret (MSt.set_prewarmed_workloads (MSt.prewarmed_workloads st ++ [wl])%list st)
        else mret st);
  mret (st, all_ready && ready).

Definition step_prewarm (spec : MSpec.t) (st : MSt.t) : prog MSt.t :=
  workloads ← workloads_on_remaining st;
  acc ← for_each (prewarm_workload spec) workloads (st, true);
  let '(st, all_ready) := acc in
  if all_ready : bool then enter_phase MPhase.Verifying "PrewarmReady" st else mret st.

(** Some workload of the wave is not ready off its node; the check stops at the
    first one. *)
Fixpoint any_unready_on (node : string) (wls : list string) : prog bool :=
  match wls with
  | [] => mret false
  | wl :: wls' => ready ← ask (WorkloadReadyOffNode wl node);
                  if ready : bool then any_unready_on node wls' else mret true
  end.

Fixpoint any_unready (wave : list string) : prog bool :=
  match wave with
  | [] => mret false
  | node :: wave' =>
      wls ← workloads_on_node node;
      unready ← any_unready_on node wls;
      if unready : bool then mret true else any_unready wave'
  end.

Definition cordon_node (st : MSt.t) (node : string) : prog MSt.t :=
  if contains_str node (MSt.cordoned_nodes st) then mret st
  else
    _ ← call (Cordon node);
    let st := MSt.set_cordoned_nodes (MSt.cordoned_nodes st ++ [node])%list st in
    _ ← ask (RecordEvent "Cordoned" ("cordoned " +:+ node +:+ " after verification"));
    mret st.

Definition show_len {A} (l : list A) : string := show_Z (Z.of_nat (length l)).

Definition step_verify (spec : MSpec.t) (st : MSt.t) : prog MSt.t :=
  sample ← ask Slo;
  let st := MSt.set_last_availability (SloSample.availability sample)
              (MSt.set_last_error_rate (SloSample.error_rate sample) st) in
  if SloVerification.enabled (MSpec.slo spec) && slo_breached spec sample then abort_plan spec "SloBreach" st
  else
    let wave := wave_nodes spec st in
    if bool_decide (wave = []) then
      st ← enter_phase MPhase.Completed "AllNodesDrained" st;
      mret (MSt.set_progress (show_len (MSt.resolved_nodes st) +:+ "/" +:+ show_len (MSt.resolved_nodes st)) st)
    else
      unready ← (if PrewarmConfig.enabled (MSpec.prewarm spec) then any_unready wave else mret false);
      if unready : bool then enter_phase MPhase.Prewarming "PrewarmNotReady" st
      else
        st ← for_each cordon_node wave st;
        st ← enter_phase MPhase.Draining "DrainStarted" st;
        now ← ask NowUnix;
        mret (MSt.set_last_progress_unix now st).

(** The pods of one node of the wave, or the node marked as completed. *)
Definition drain_node (spec : MSpec.t) (acc : MSt.t * list WorkloadPod.t) (node : string)
    : prog (MSt.t * list WorkloadPod.t) :=
  let '(st, evictable) := acc in
  pods ← pods_on_node node spec;
  if bool_decide (pods = []) then
    mret (if contains_str node (MSt.nodes_completed st) then st
          else MSt.set_nodes_completed (MSt.nodes_completed st ++ [node])%list st, evictable)
  else mret (st, (evictable ++ pods)%list).

Definition evict_pod (spec : MSpec.t) (st : MSt.t) (pod : WorkloadPod.t) : prog MSt.t :=
  ok ← (if PdbConfig.respect (MSpec.pdb spec) then eviction_respects_pdb pod else mret true);
  if negb ok then mret st
  else
    _ ← call (Evict pod);
    now ← ask NowUnix;
    _ ← ask (RecordEvent "Evicted" ("evicted " +:+ WorkloadPod.namespace pod +:+ "/" +:+ WorkloadPod.name pod
                                    +:+ " from " +:+ WorkloadPod.node pod));
    mret (MSt.set_last_progress_unix now st).

(** Nothing to evict: the wave is drained. *)
Definition finish_wave (st : MSt.t) : prog MSt.t :=
  now ← ask NowUnix;
  let st := MSt.set_last_progress_unix now st in
  if (Z.of_nat (length (MSt.resolved_nodes st)) <=? MSt.cursor st)%Z
  then enter_phase MPhase.Completed "AllNodesDrained" st
  else enter_phase MPhase.Verifying "NextWave" st.

(** No pod may be evicted now. *)
Definition note_stall (spec : MSpec.t) (st : MSt.t) : prog MSt.t :=
  now ← ask NowUnix;
  if (PdbConfig.stall_timeout_seconds (MSpec.pdb spec) <=? i64_saturating_sub now (MSt.last_progress_unix st))%Z
  then enter_phase MPhase.Stalled "PdbStall" (MSt.set_pdb_stalls (MSt.pdb_stalls st +u32 1) st)
  else mret st.

Definition drain_wave (spec : MSpec.t) (wave : list string) (st : MSt.t) : prog MSt.t :=
  acc ← for_each (drain_node spec) wave (st, []);
  let '(st, evictable) := acc in
  let st := advance_cursor st in
  let st := MSt.set_progress (show_len (MSt.nodes_completed st) +:+ "/" +:+ show_len (MSt.resolved_nodes st)) st in
  if bool_decide (evictable = []) then finish_wave st
  else
    batch ← select_pdb_aware_batch evictable spec;
    if bool_decide (batch = []) then note_stall spec st
    else for_each (evict_pod spec) batch st.

Definition step_drain (spec : MSpec.t) (st : MSt.t) : prog MSt.t :=
  let wave := wave_nodes spec st in
  if bool_decide (wave = []) then enter_phase MPhase.Completed "AllNodesDrained" st
  else
    breached ← (if SloVerification.enabled (MSpec.slo spec)
                then sample ← ask Slo; mret (slo_breached spec sample) else mret false);
    if breached : bool then abort_plan spec "SloBreach" st
    else drain_wave spec wave st.

Definition surge_workload (spec : MSpec.t) (u : unit) (wl : string) : prog unit :=
  _ ← call (Prewarm wl (Z.max (PrewarmConfig.replica_buffer (MSpec.prewarm spec)) 1));
  call (RecoverWorkload wl).

Definition surge_node (spec : MSpec.t) (u : unit) (node : string) : prog unit :=
  wls ← workloads_on_node node;
  for_each (surge_workload spec) wls tt.

(** [wave.first()]. *)
Definition skip_node (spec : MSpec.t) (wave : list string) (st : MSt.t) : prog MSt.t :=
  match head wave with
  | Some node =>
      _ ← (if AbortPolicy.uncordon_on_abort (MSpec.abort spec) then attempt (Uncordon node) else mret tt);
      mret (MSt.set_cursor (MSt.cursor st +u32 1) (MSt.set_nodes_failed (MSt.nodes_failed st ++ [node])%list st))
  | None => mret st
  end.

Definition step_stalled (spec : MSpec.t) (st : MSt.t) : prog MSt.t :=
  let wave := wave_nodes spec st in
  if bool_decide (wave = []) then enter_phase MPhase.Completed "AllNodesDrained" st
  else
    match PdbConfig.stall_recovery (MSpec.pdb spec) with
    | StallRecovery.SurgeThenEvict =>
        _ ← for_each (surge_node spec) wave tt;
        now ← ask NowUnix;
        enter_phase MPhase.Draining "StallRecovered" (MSt.set_last_progress_unix now st)
    | StallRecovery.SkipNode =>
        st ← skip_node spec wave st;
        now ← ask NowUnix;
        enter_phase MPhase.Verifying "StallSkippedNode" (MSt.set_last_progress_unix now st)
    | StallRecovery.Abort => abort_plan spec "PdbStallAbort" st
    end.

(** ** The pass *)

Record ReconcileOutcome : Type := outcome { out_status : MSt.t; requeue_seconds : Z }.

(** The targets of a plan that has none yet; [inr] is the early return of a plan
    without a target. *)
Definition resolve (spec : MSpec.t) (st : MSt.t) : prog (MSt.t + MSt.t) :=
  st ← enter_phase MPhase.Planned "TargetsResolved" st;
  nodes ← ask ListNodes;
  let st := MSt.set_resolved_nodes (resolve_targets spec nodes) st in
  if bool_decide (MSt.resolved_nodes st = []) then
    st ← fail_plan "No matching target nodes" st;
    mret (inr st)
  else
    let st := MSt.set_progress ("0/" +:+ show_len (MSt.resolved_nodes st)) st in
    now ← ask NowUnix;
    let st := MSt.set_last_progress_unix now st in
    if (MSt.started_unix st =? 0)%Z then
      now ← ask NowUnix;
      mret (inl (MSt.set_started_unix now st))
    else mret (inl st).

Definition step (spec : MSpec.t) (st : MSt.t) : prog MSt.t :=
  match MSt.phase st with
  | MPhase.Planned =>
      if PrewarmConfig.enabled (MSpec.prewarm spec) then enter_phase MPhase.Prewarming "PrewarmStarted" st
      else enter_phase MPhase.Verifying "PreconditionsCheck" st
  | MPhase.Prewarming => step_prewarm spec st
  | MPhase.Verifying => step_verify spec st
  | MPhase.Draining => step_drain spec st
  | MPhase.Stalled => step_stalled spec st
  | MPhase.Aborted | MPhase.Completed | MPhase.Failed => mret st
  end.

(** The measurements at the end of a pass. *)
Definition measure_pass (st : MSt.t) : prog MSt.t :=
  errors ← ask UserFacingErrors;
  cold ← ask LastColdWindowMs;
  let st := MSt.set_cold_window_ms cold (MSt.set_user_facing_errors errors st) in
  st ← (if (MSt.started_unix st =? 0)%Z then now ← ask NowUnix; mret (MSt.set_started_unix now st)
        else mret st);
  now ← ask NowUnix;
  let unix_ms := as_u64 (as_u64 (i64_saturating_sub now (MSt.started_unix st)) * 1000) in
  now_ms ← ask NowMs;
  mret (MSt.set_patch_cycle_ms (Z.max unix_ms (u64_saturating_sub now_ms 1000)) st).

Definition reconcile_plan (spec : MSpec.t) (status : MSt.t) (observed_generation : Z) : prog ReconcileOutcome :=
  match MSpec.validate spec with
  | Err m => Throw (Failed (ValidationError m))
  | Ok _ =>
      now ← ask UtcNow;
      let st := MSt.set_last_reconcile_time (Some now) (MSt.set_observed_generation observed_generation status) in
      if AbortPolicy.requested (MSpec.abort spec) && negb (MPhase.is_terminal (MSt.phase st)) then
        st ← abort_plan spec "AbortRequested" st;
        mret (outcome st 300)
      else if MPhase.is_terminal (MSt.phase st) then mret (outcome st 300)
      else
        resolved ← (if bool_decide (MSt.resolved_nodes st = []) then resolve spec st else mret (inl st));
        match resolved with
        | inr st => mret (outcome st 300)
        | inl st =>
            st ← step spec st;
            st ← measure_pass st;
            mret (outcome st (if MPhase.is_terminal (MSt.phase st) then 300 else 2))
        end
  end.
