(* ===== verification/MaintenanceBackends.v ===== *)
(** * Planned maintenance: the backends

    The two implementations of [ClusterOps]: [SnapshotOps] of
    [src/src/controller/maintenance/plan_controller.rs], which runs the engine on
    one listing of the cluster, records its writes and applies them afterwards, and
    [SimulatedCluster] of [plan_engine.rs], a deterministic cluster in memory.  The
    controller is a program over the Kubernetes requests it makes. *)

From stdpp Require Import prelude strings gmap list pretty.
From S2P Require Import Prelude RustStr Float64 Conditions BTreeMap Prog MaintenanceTypes Maintenance.
Local Open Scope string_scope.

(** ** The fields read of API objects *)

Module NodeObject.

Record t : Set := mk {
  name_any : string;
  labels : list (string * string);
  conditions : option (list (string * string));   (** type and status *)
  unschedulable : option bool;
}.

End NodeObject.

Module PodObject.

Record t : Set := mk {
  name_any : string;
  namespace : option string;
  node_name : option string;
  owner_kinds : option (list string);
  labels : list (string * string);
  container_ready : option (list bool);
}.

End PodObject.

Module PdbObject.

Record t : Set := mk {
  name_any : string;
  match_labels : option (list (string * string));
  status : option (Z * Z);   (** [currentHealthy] and [disruptionsAllowed], [i32] *)
}.

End PdbObject.

Module DeploymentObject.

Record t : Set := mk {
  name_any : string;
  namespace : option string;
  labels : list (string * string);
  annotations : list (string * string);
  replicas : option Z;   (** [i32] *)
}.

End DeploymentObject.

Definition load_node (n : NodeObject.t) : ClusterNode.t :=
  ClusterNode.mk (NodeObject.name_any n) (NodeObject.labels n) (default false (NodeObject.unschedulable n))
    (match NodeObject.conditions n with
     | Some cs => existsb (λ c, String.eqb (fst c) "Ready" && String.eqb (snd c) "True") cs
     | None => false
     end).

(** [get(a).or_else(|| get(b))]. *)
Definition get_either (a b : string) (m : list (string * string)) : option string :=
  match BTreeMap.get a m with Some v => Some v | None => BTreeMap.get b m end.

Definition load_pod (p : PodObject.t) : option WorkloadPod.t :=
  match PodObject.node_name p with
  | None => None
  | Some node =>
      Some (WorkloadPod.mk (PodObject.name_any p) (default "default" (PodObject.namespace p)) node
        (default (PodObject.name_any p) (get_either "app.kubernetes.io/instance" "app" (PodObject.labels p)))
        (match PodObject.container_ready p with Some cs => forallb id cs | None => false end)
        (match PodObject.owner_kinds p with
         | Some ks => existsb (λ k, String.eqb k "DaemonSet") ks
         | None => false
         end))
  end.

Definition load_pdb (p : PdbObject.t) : PdbSnapshot.t :=
  let workload :=
    default (PdbObject.name_any p)
      (PdbObject.match_labels p ≫= get_either "app.kubernetes.io/instance" "app") in
  let current_healthy := match PdbObject.status p with Some (h, _) => as_u32 h | None => 0%Z end in
  let allowed := match PdbObject.status p with Some (_, a) => as_u32 a | None => 0%Z end in
  PdbSnapshot.mk (PdbObject.name_any p) workload (Z.max 0 (current_healthy - allowed)) current_healthy.

(** ** The snapshot backend *)

Inductive PendingOp : Set :=
| PPrewarm (workload : string) (buffer : Z)
| PCordon (node : string)
| PUncordon (node : string)
| PEvict (namespace name : string)
| PRecover (workload : string)
| PEvent (reason message : string).

Module SnapshotOps.

(** The [start] instant is a clock reading and belongs to the environment. *)
Record t : Type := mk {
  nodes : list ClusterNode.t;
  pods : list WorkloadPod.t;
  pdbs : list PdbSnapshot.t;
  last_cold_window_ms : Z;
  user_facing_errors : Z;
  pending : list PendingOp;
}.

Definition push (op : PendingOp) (s : t) : t :=
  mk (nodes s) (pods s) (pdbs s) (last_cold_window_ms s) (user_facing_errors s) (pending s ++ [op])%list.

Definition set_nodes (v : list ClusterNode.t) (s : t) : t :=
  mk v (pods s) (pdbs s) (last_cold_window_ms s) (user_facing_errors s) (pending s).

Definition set_pods (v : list WorkloadPod.t) (s : t) : t :=
  mk (nodes s) v (pdbs s) (last_cold_window_ms s) (user_facing_errors s) (pending s).

End SnapshotOps.

(** [nodes.iter_mut().find(|n| n.name == node)], then an assignment. *)
Definition set_cordoned (b : bool) (node : string) (nodes : list ClusterNode.t) : list ClusterNode.t :=
  update_first (λ n, String.eqb (ClusterNode.name n) node)
    (λ n, ClusterNode.mk (ClusterNode.name n) (ClusterNode.labels n) b (ClusterNode.ready n)) nodes.

(** [pods.retain(|p| p.name != pod.name)]. *)
Definition remove_pod (pod : WorkloadPod.t) (pods : list WorkloadPod.t) : list WorkloadPod.t :=
  List.filter (λ p, negb (String.eqb (WorkloadPod.name p) (WorkloadPod.name pod))) pods.

Definition ready_off_node (workload node : string) (pods : list WorkloadPod.t) : bool :=
  existsb (λ p, String.eqb (WorkloadPod.workload p) workload && negb (String.eqb (WorkloadPod.node p) node)
                && WorkloadPod.ready p) pods.

(** ** The Kubernetes requests of the controller *)

Inductive ApiOp : Set → Type :=
| ListNodeObjects : ApiOp (result (list NodeObject.t) Error)
| ListPodObjects : ApiOp (result (list PodObject.t) Error)
| ListPdbObjects : ApiOp (result (list PdbObject.t) Error)
| ListDeployments : ApiOp (result (list DeploymentObject.t) Error)
| SystemTimeSecs : ApiOp Z          (** [SystemTime::now()], 0 before the epoch *)
| ElapsedMs : ApiOp Z               (** [self.start.elapsed()] *)
| UtcText : ApiOp string            (** [Utc::now().to_rfc3339()] *)
| PatchUnschedulable (node : string) (v : bool) : ApiOp (result unit Error)
| EvictRequest (namespace name : string) : ApiOp (result unit Error)
| PatchReplicas (namespace name base : string) (replicas : Z) : ApiOp (result unit Error)
| PublishEvent (reason note : string) : ApiOp (result unit Error)
| PatchPlanStatus (status : MSt.t) : ApiOp (result unit Error).

Abbreviation api_prog := (tree ApiOp Failure).

(** A request whose error is propagated by [?]. *)
Definition api_call {X : Set} (op : ApiOp (result X Error)) : api_prog X :=
  Vis op (λ r, match r with Ok x => Ret x | Err e => Throw (Failed e) end).

(** How [SnapshotOps] answers a request of the engine: from the snapshot, or with a
    clock reading. *)
Definition snapshot_handle (X : Set) (op : Op X) (s : SnapshotOps.t) : api_prog (X * SnapshotOps.t) :=
  match op in Op Y return api_prog (Y * SnapshotOps.t) with
  | ListNodes => Ret (SnapshotOps.nodes s, s)
  | ListPods => Ret (SnapshotOps.pods s, s)
  | ListPdbs => Ret (SnapshotOps.pdbs s, s)
  | Slo => Ret (SloSample.mk f64_zero (f64_of_Z 1), s)
  | NowUnix => Vis SystemTimeSecs (λ t, Ret (t, s))
  | NowMs => Vis ElapsedMs (λ t, Ret (t, s))
  | UtcNow => Vis UtcText (λ t, Ret (t, s))
  | Prewarm wl buffer => Ret (Ok true, SnapshotOps.push (PPrewarm wl buffer) s)
  | WorkloadReadyOffNode wl node => Ret (ready_off_node wl node (SnapshotOps.pods s), s)
  | Cordon node =>
      Ret (Ok tt, SnapshotOps.push (PCordon node)
                    (SnapshotOps.set_nodes (set_cordoned true node (SnapshotOps.nodes s)) s))
  | Uncordon node =>
      Ret (Ok tt, SnapshotOps.push (PUncordon node)
                    (SnapshotOps.set_nodes (set_cordoned false node (SnapshotOps.nodes s)) s))
  | Evict pod =>
      Ret (Ok tt, SnapshotOps.push (PEvict (WorkloadPod.namespace pod) (WorkloadPod.name pod))
                    (SnapshotOps.set_pods (remove_pod pod (SnapshotOps.pods s)) s))
  | RecoverWorkload wl => Ret (Ok tt, SnapshotOps.push (PRecover wl) s)
  | RecordEvent reason message => Ret (tt, SnapshotOps.push (PEvent reason message) s)
  | UserFacingErrors => Ret (SnapshotOps.user_facing_errors s, s)
  | LastColdWindowMs => Ret (SnapshotOps.last_cold_window_ms s, s)
  end.

(** The engine run on the snapshot. *)
Fixpoint lower {A} (p : prog A) (s : SnapshotOps.t) : api_prog (A * SnapshotOps.t) :=
  match p with
  | Ret a => Ret (a, s)
  | Throw e => Throw e
  | Vis op k => xs ← snapshot_handle _ op s; lower (k (fst xs)) (snd xs)
  end.

Definition load : api_prog SnapshotOps.t :=
  nodes ← api_call ListNodeObjects;
  pods ← api_call ListPodObjects;
  Vis ListPdbObjects (λ r,
    let pdbs := match r with Ok l => l | Err _ => [] end in
    Ret (SnapshotOps.mk (load_node <$> (nodes : list _)) (omap load_pod (pods : list _)) (load_pdb <$> pdbs) 0 0 [])).

Definition PREWARM_BASE : string := "stellar.org/maintenance-prewarm-base".

(** The deployment runs the workload. *)
Definition deployment_hit (workload : string) (d : DeploymentObject.t) : bool :=
  bool_decide (BTreeMap.get "app.kubernetes.io/instance" (DeploymentObject.labels d) = Some workload)
  || bool_decide (BTreeMap.get "app" (DeploymentObject.labels d) = Some workload)
  || String.eqb (DeploymentObject.name_any d) workload.

Definition as_i32 (z : Z) : Z := (z + 2 ^ 31) mod 2 ^ 32 - 2 ^ 31.

Definition scale_deployment (workload : string) (buffer : Z) (u : unit) (d : DeploymentObject.t)
    : api_prog unit :=
  if negb (deployment_hit workload d) then mret tt
  else if bool_decide (is_Some (BTreeMap.get PREWARM_BASE (DeploymentObject.annotations d))) then mret tt
  else
    let current := default 1%Z (DeploymentObject.replicas d) in
    attempt (PatchReplicas (default "default" (DeploymentObject.namespace d)) (DeploymentObject.name_any d)
      (show_Z current) (as_i32 (current + as_i32 buffer))).

Definition scale_deployments (workload : string) (buffer : Z) : api_prog unit :=
  l ← api_call ListDeployments;
  for_each (scale_deployment workload buffer) l tt.

Definition apply_op (u : unit) (op : PendingOp) : api_prog unit :=
  match op with
  | PCordon node => attempt (PatchUnschedulable node true)
  | PUncordon node => attempt (PatchUnschedulable node false)
  | PEvict namespace name => attempt (EvictRequest namespace name)
  | PPrewarm workload buffer => ignore_errors (scale_deployments workload buffer)
  | PRecover workload => ignore_errors (scale_deployments workload 1)
  | PEvent reason message => attempt (PublishEvent reason message)
  end.

Definition apply_ops (pending : list PendingOp) : api_prog unit := for_each apply_op pending tt.

(** One pass of the controller; the result is the requeue delay. *)
Definition reconcile (spec : MSpec.t) (status : option MSt.t) (generation : option Z) : api_prog Z :=
  ops ← load;
  r ← lower (reconcile_plan spec (default MSt.default status) (default 0%Z generation)) ops;
  let '(out, ops) := r in
  _ ← apply_ops (SnapshotOps.pending ops);
  _ ← api_call (PatchPlanStatus (out_status out));
  mret (requeue_seconds out).

(** ** The simulated cluster *)

Module SimulatedCluster.

Record t : Type := mk {
  nodes : list ClusterNode.t;
  pods : list WorkloadPod.t;
  pdbs : list PdbSnapshot.t;
  now : Z;
  now_ms : Z;
  error_rate : f64;
  availability : f64;
  user_facing_errors : Z;
  last_cold_window_ms : Z;
  prewarmed : gmap string Z;
  events : list (string * string);
  baseline_start_ms : Z;
  evictions : Z;
  cordon_before_verify : bool;
  force_pdb_zero : bool;
  recovered : BTreeSet.t;
}.

Definition set_nodes (v : list ClusterNode.t) (s : t) : t :=
  mk v (pods s) (pdbs s) (now s) (now_ms s) (error_rate s) (availability s)
    (user_facing_errors s) (last_cold_window_ms s) (prewarmed s) (events s)
    (baseline_start_ms s) (evictions s) (cordon_before_verify s) (force_pdb_zero s)
    (recovered s).

Definition set_pods (v : list WorkloadPod.t) (s : t) : t :=
  mk (nodes s) v (pdbs s) (now s) (now_ms s) (error_rate s) (availability s)
    (user_facing_errors s) (last_cold_window_ms s) (prewarmed s) (events s)
    (baseline_start_ms s) (evictions s) (cordon_before_verify s) (force_pdb_zero s)
    (recovered s).

Definition set_pdbs (v : list PdbSnapshot.t) (s : t) : t :=
  mk (nodes s) (pods s) v (now s) (now_ms s) (error_rate s) (availability s)
    (user_facing_errors s) (last_cold_window_ms s) (prewarmed s) (events s)
    (baseline_start_ms s) (evictions s) (cordon_before_verify s) (force_pdb_zero s)
    (recovered s).

Definition set_now (v : Z) (s : t) : t :=
  mk (nodes s) (pods s) (pdbs s) v (now_ms s) (error_rate s) (availability s)
    (user_facing_errors s) (last_cold_window_ms s) (prewarmed s) (events s)
    (baseline_start_ms s) (evictions s) (cordon_before_verify s) (force_pdb_zero s)
    (recovered s).

Definition set_now_ms (v : Z) (s : t) : t :=
  mk (nodes s) (pods s) (pdbs s) (now s) v (error_rate s) (availability s)
    (user_facing_errors s) (last_cold_window_ms s) (prewarmed s) (events s)
    (baseline_start_ms s) (evictions s) (cordon_before_verify s) (force_pdb_zero s)
    (recovered s).

Definition set_error_rate (v : f64) (s : t) : t :=
  mk (nodes s) (pods s) (pdbs s) (now s) (now_ms s) v (availability s) (user_facing_errors s)
    (last_cold_window_ms s) (prewarmed s) (events s) (baseline_start_ms s) (evictions s)
    (cordon_before_verify s) (force_pdb_zero s) (recovered s).

Definition set_availability (v : f64) (s : t) : t :=
  mk (nodes s) (pods s) (pdbs s) (now s) (now_ms s) (error_rate s) v (user_facing_errors s)
    (last_cold_window_ms s) (prewarmed s) (events s) (baseline_start_ms s) (evictions s)
    (cordon_before_verify s) (force_pdb_zero s) (recovered s).

Definition set_last_cold_window_ms (v : Z) (s : t) : t :=
  mk (nodes s) (pods s) (pdbs s) (now s) (now_ms s) (error_rate s) (availability s)
    (user_facing_errors s) v (prewarmed s) (events s) (baseline_start_ms s) (evictions s)
    (cordon_before_verify s) (force_pdb_zero s) (recovered s).

Definition set_prewarmed (v : gmap string Z) (s : t) : t :=
  mk (nodes s) (pods s) (pdbs s) (now s) (now_ms s) (error_rate s) (availability s)
    (user_facing_errors s) (last_cold_window_ms s) v (events s) (baseline_start_ms s)
    (evictions s) (cordon_before_verify s) (force_pdb_zero s) (recovered s).

Definition set_events (v : list (string * string)) (s : t) : t :=
  mk (nodes s) (pods s) (pdbs s) (now s) (now_ms s) (error_rate s) (availability s)
    (user_facing_errors s) (last_cold_window_ms s) (prewarmed s) v (baseline_start_ms s)
    (evictions s) (cordon_before_verify s) (force_pdb_zero s) (recovered s).

Definition set_evictions (v : Z) (s : t) : t :=
  mk (nodes s) (pods s) (pdbs s) (now s) (now_ms s) (error_rate s) (availability s)
    (user_facing_errors s) (last_cold_window_ms s) (prewarmed s) (events s)
    (baseline_start_ms s) v (cordon_before_verify s) (force_pdb_zero s) (recovered s).

Definition set_recovered (v : BTreeSet.t) (s : t) : t :=
  mk (nodes s) (pods s) (pdbs s) (now s) (now_ms s) (error_rate s) (availability s)
    (user_facing_errors s) (last_cold_window_ms s) (prewarmed s) (events s)
    (baseline_start_ms s) (evictions s) (cordon_before_verify s) (force_pdb_zero s) v.

(** The healthy replicas a budget counts: ready pods and prewarmed replacements. *)
Definition healthy_of (c : t) (workload : string) : Z :=
  as_u32 (count (λ p, String.eqb (WorkloadPod.workload p) workload && WorkloadPod.ready p) (pods c))
  +u32 default 0%Z (prewarmed c !! workload).

Definition refresh_pdb_health (c : t) : t :=
  set_pdbs ((λ pdb, PdbSnapshot.mk (PdbSnapshot.name pdb) (PdbSnapshot.workload pdb)
                      (PdbSnapshot.min_available pdb)
                      (if force_pdb_zero c then PdbSnapshot.min_available pdb
                       else healthy_of c (PdbSnapshot.workload pdb))) <$> pdbs c) c.

(** [entry(k).and_modify(max with v).or_insert(v)]. *)
Definition raise_to (k : string) (v : Z) (m : gmap string Z) : gmap string Z :=
  match m !! k with Some n => <[k := Z.max n v]> m | None => <[k := v]> m end.

Definition prewarm (workload : string) (buffer : Z) (c : t) : t :=
  refresh_pdb_health (set_prewarmed (raise_to workload buffer (prewarmed c)) c).

Definition workload_ready_off_node (workload node : string) (c : t) : bool :=
  ready_off_node workload node (pods c) || (0 <? default 0%Z (prewarmed c !! workload))%Z.

Definition evict (pod : WorkloadPod.t) (c : t) : result unit Error * t :=
  let refused :=
    match find_first (λ p, String.eqb (PdbSnapshot.workload p) (WorkloadPod.workload pod)) (pdbs c) with
    | Some pdb => if (PdbSnapshot.allowed_disruptions pdb =? 0)%Z then Some pdb else None
    | None => None
    end in
  match refused with
  | Some pdb =>
      (Err (ValidationError ("refusing eviction of " +:+ WorkloadPod.name pod +:+ " — PDB "
              +:+ PdbSnapshot.name pdb +:+ " would be violated")), c)
  | None =>
      let warm := default 0%Z (prewarmed c !! WorkloadPod.workload pod) in
      let c := set_last_cold_window_ms
                 (if (warm =? 0)%Z then baseline_start_ms c else (baseline_start_ms c / 10)%Z) c in
      let c := set_pods (remove_pod pod (pods c)) c in
      let c := set_evictions (as_u64 (evictions c + 1)) c in
      let c := set_now (i64_add (now c) 1) c in
      let c := set_now_ms (as_u64 (now_ms c + 50)) c in
      (Ok tt, refresh_pdb_health c)
  end.

Definition recover_workload (workload : string) (c : t) : t :=
  let c := set_recovered (BTreeSet.insert workload (recovered c)) c in
  let c := set_prewarmed (raise_to workload 1 (prewarmed c)) c in
  let c := set_error_rate f64_zero (set_availability (f64_of_Z 1) c) in
  refresh_pdb_health c.

(** [node-{i:03}]. *)
Definition node_label (i : nat) : string :=
  let s := show_Z (Z.of_nat i) in
  "node-" +:+ (if Nat.ltb i 10 then "00" else if Nat.ltb i 100 then "0" else "") +:+ s.

Definition ring_workload (node_count replicas_per_wl w : nat) : list WorkloadPod.t :=
  (λ r, WorkloadPod.mk ("wl-" +:+ show_Z (Z.of_nat w) +:+ "-" +:+ show_Z (Z.of_nat r)) "stellar"
          (node_label ((w * replicas_per_wl + r) mod node_count)) ("wl-" +:+ show_Z (Z.of_nat w)) true false)
  <$> seq 0 replicas_per_wl.

Definition ring_pdb (replicas_per_wl w : nat) : PdbSnapshot.t :=
  let wl := "wl-" +:+ show_Z (Z.of_nat w) in
  PdbSnapshot.mk (wl +:+ "-pdb") wl (Z.max (Z.max 0 (Z.of_nat replicas_per_wl - 1)) 1) (Z.of_nat replicas_per_wl).

(** Panics on a ring without nodes but with pods (a remainder by zero). *)
Definition patch_ring (node_count workloads replicas_per_wl : nat) : t :=
  mk ((λ i, ClusterNode.mk (node_label i) [("role", "worker")] false true) <$> seq 0 node_count)
    (seq 0 workloads ≫= ring_workload node_count replicas_per_wl)
    (ring_pdb replicas_per_wl <$> seq 0 workloads)
    1000 1000 f64_zero (f64_of_Z 1) 0 0 ∅ [] 5000 0 false false [].

End SimulatedCluster.
Module Sim := SimulatedCluster.

(** The text clock of the conditions is not of the cluster: its n-th reading. *)
Section simulated.
Context (clock : nat → string).

Definition simulated_handle : handler Op (Sim.t * nat) := λ X op s,
  let '(c, n) := s in
  match op in Op Y return Y * (Sim.t * nat) with
  | ListNodes => (Sim.nodes c, (c, n))
  | ListPods => (Sim.pods c, (c, n))
  | ListPdbs => (Sim.pdbs c, (c, n))
  | Slo => (SloSample.mk (Sim.error_rate c) (Sim.availability c), (c, n))
  | NowUnix => (Sim.now c, (c, n))
  | NowMs => (Sim.now_ms c, (c, n))
  | UtcNow => (clock n, (c, S n))
  | Prewarm wl buffer => (Ok true, (Sim.prewarm wl buffer c, n))
  | WorkloadReadyOffNode wl node => (Sim.workload_ready_off_node wl node c, (c, n))
  | Cordon node => (Ok tt, (Sim.set_nodes (set_cordoned true node (Sim.nodes c)) c, n))
  | Uncordon node => (Ok tt, (Sim.set_nodes (set_cordoned false node (Sim.nodes c)) c, n))
  | Evict pod => let '(r, c') := Sim.evict pod c in (r, (c', n))
  | RecoverWorkload wl => (Ok tt, (Sim.recover_workload wl c, n))
  | RecordEvent reason message => (tt, (Sim.set_events (Sim.events c ++ [(reason, message)])%list c, n))
  | UserFacingErrors => (Sim.user_facing_errors c, (c, n))
  | LastColdWindowMs => (Sim.last_cold_window_ms c, (c, n))
  end.

(** The clock of a tick: one second, 200 ms of wall time. *)
Definition tick (c : Sim.t) : Sim.t :=
  Sim.refresh_pdb_health (Sim.set_now_ms (as_u64 (Sim.now_ms c + 200)) (Sim.set_now (i64_add (Sim.now c) 1) c)).

Fixpoint run_ticks (spec : MSpec.t) (max_ticks : nat) (status : MSt.t) (s : Sim.t * nat)
    : result MSt.t Failure * (Sim.t * nat) :=
  match max_ticks with
  | 0 => (Ok status, s)
  | S k =>
      match interp simulated_handle (reconcile_plan spec status 1) (tick (fst s), snd s) with
      | (Err e, s') => (Err e, s')
      | (Ok out, s') =>
          let status := out_status out in
          if MPhase.is_terminal (MSt.phase status) then (Ok status, s') else run_ticks spec k status s'
      end
  end.

Definition run_to_completion (spec : MSpec.t) (c : Sim.t) (max_ticks : nat) : result MSt.t Failure * Sim.t :=
  let '(r, s) := run_ticks spec max_ticks MSt.default (c, 0) in (r, fst s).
End simulated.
