(* ===== verification/MaintenanceFacts.v ===== *)
(** * Planned maintenance: theorems of the engine

    What the engine asks of a backend, for every backend and every sequence of
    answers: evictions, budgets, cordons.  The status it keeps is in
    [MaintenancePlans], the controller that runs it in [MaintenanceProps]. *)

From stdpp Require Import prelude strings gmap list.
From S2P Require Import Prelude RustStr Float64 Conditions BTreeMap Prog MaintenanceTypes Maintenance.

Abbreviation event := (Prog.event Op).
Abbreviation op_pred := (Prog.op_pred Op).

(** ** Kinds of request *)

Definition no_evict : op_pred := λ X op, match op with Evict _ => false | _ => true end.
Definition no_cordon : op_pred := λ X op, match op with Cordon _ => false | _ => true end.

(** Unfolding the transitions and the steps. *)
Ltac unfold_plan :=
  unfold resolve, measure_pass, step, step_prewarm, step_verify, step_drain, step_stalled, drain_wave, finish_wave, note_stall,
    skip_node, surge_node, surge_workload, abort_plan, fail_plan, uncordon_all, recover_all, enter_phase,
    prewarm_workload, workloads_on_remaining, drain_node, workloads_on_node, pods_on_node, evict_pod,
    select_pdb_aware_batch, eviction_respects_pdb, cordon_node, call, ask.

Section kinds.
Context (f : op_pred).
Context (f_read : f _ ListPods = true) (f_ready : ∀ w n, f _ (WorkloadReadyOffNode w n) = true).

Lemma any_unready_on_ops node wls : all_ops f (any_unready_on node wls).
Proof.
  induction wls as [|w wls IH]; cbn [any_unready_on]; [done|]. split; [done|]. intros ready. cbn.
  by destruct ready.
Qed.

Lemma any_unready_ops wave : all_ops f (any_unready wave).
Proof.
  induction wave as [|n wave IH]; cbn [any_unready]; [done|].
  apply all_ops_bind; [by split|]. intros wls. apply all_ops_bind; [apply any_unready_on_ops|].
  by intros [].
Qed.
End kinds.

(** ** Evictions *)

(** The answer of a read. *)
Definition seen_pod (h : list event) (pod : WorkloadPod.t) : Prop :=
  ∃ pods, Ev ListPods pods ∈ h ∧ pod ∈ pods.

Definition slo_seen_ok (spec : MSpec.t) (h : list event) : Prop :=
  SloVerification.enabled (MSpec.slo spec) = true →
  ∃ sample, Ev Slo sample ∈ h ∧ slo_breached spec sample = false.

(** The pod may leave: it was listed on a node of the wave and is not a daemon the
    plan ignores. *)
Definition candidate (spec : MSpec.t) (wave : list string) (h : list event) (pod : WorkloadPod.t) : Prop :=
  WorkloadPod.node pod ∈ wave ∧ seen_pod h pod
  ∧ WorkloadPod.daemon_set pod && DrainConfig.ignore_daemon_sets (MSpec.drain spec) = false.

Definition evict_safe (spec : MSpec.t) (wave : list string) (h : list event) (e : event) : Prop :=
  match e with
  | Ev (Evict pod) _ =>
      candidate spec wave h pod ∧ slo_seen_ok spec h
      ∧ (PdbConfig.respect (MSpec.pdb spec) = true →
         ∃ h' pdbs, h = h' ++ [Ev ListPdbs pdbs] ∧ budgets_allow (WorkloadPod.workload pod) pdbs = true)
  | _ => True
  end.

Lemma no_evict_safe spec wave h e : ev_pred no_evict e = true → evict_safe spec wave h e.
Proof. destruct e as [X op x]. by destruct op. Qed.

Lemma candidate_app spec wave h h' pod : candidate spec wave h pod → candidate spec wave (h ++ h') pod.
Proof.
  intros (Hn & (pods & Hin & Hp) & Hd). split; [done|]. split; [|done].
  exists pods. split; [|done]. apply elem_of_app. by left.
Qed.

Lemma slo_seen_ok_app spec h h' : slo_seen_ok spec h → slo_seen_ok spec (h ++ h').
Proof.
  intros Hs He. destruct (Hs He) as (sample & Hin & Hb). exists sample. split; [|done].
  apply elem_of_app. by left.
Qed.

(** The batch is taken from the candidates. *)
Lemma batch_loop_sub spec allowed cands taken batch pod :
  pod ∈ batch_loop spec allowed cands taken batch → pod ∈ cands ∨ pod ∈ batch.
Proof.
  revert taken batch. induction cands as [|c cands IH]; intros taken batch; simpl; [by right|].
  repeat case_match; try (by right); intros Hin; apply IH in Hin;
    rewrite ?elem_of_app, ?list_elem_of_singleton in Hin; set_solver.
Qed.

Section evictions.
Context (spec : MSpec.t) (wave : list string).
Abbreviation safe := (evict_safe spec wave).

Lemma wp_drain_nodes st h :
  wp safe (for_each (drain_node spec) wave (st, []))
    (λ h' r, match r with Ok (_, evictable) => ∀ pod, pod ∈ evictable → candidate spec wave h' pod | Err _ => True end
       ∧ ∃ tr, h' = h ++ tr) h.
Proof.
  apply (wp_for_each _ (λ rest acc h', (∀ n, n ∈ rest → n ∈ wave)
    ∧ (∀ pod, pod ∈ snd acc → candidate spec wave h' pod) ∧ ∃ tr, h' = h ++ tr)).
  - split; [done|]. split; [by intros pod ?%not_elem_of_nil|]. exists []. by rewrite app_nil_r.
  - intros n rest [st' ev] h' (Hrest & Hev & tr & ->). unfold drain_node, pods_on_node, ask.
    cbn. intros pods. split; [done|]. case_bool_decide as Hp; cbn.
    + split; [set_solver|]. split; [intros; apply candidate_app; auto|].
      exists (tr ++ [Ev ListPods pods]). by rewrite app_assoc.
    + split; [set_solver|]. split.
      * intros pod [?|Hin]%elem_of_app; [apply candidate_app; auto|]. apply elem_of_lfilter in Hin as [Hin Hk].
        apply andb_prop in Hk as [Hn%String.eqb_eq Hd%negb_true_iff]. split; [set_solver|]. split; [|done].
        exists pods. split; [|done]. apply elem_of_app. right. by left.
      * exists (tr ++ [Ev ListPods pods]). by rewrite app_assoc.
  - intros [st' ev] h' (_ & Hev & tr & ->). by split; [|exists tr].
Qed.

Lemma wp_evict_batch st batch h :
  (∀ pod, pod ∈ batch → candidate spec wave h pod) → slo_seen_ok spec h →
  wp safe (for_each (evict_pod spec) batch st) (λ _ _, True) h.
Proof.
  intros Hb Hs. apply (wp_for_each _ (λ rest _ h',
    (∀ pod, pod ∈ rest → candidate spec wave h' pod) ∧ slo_seen_ok spec h')); [done| |done].
  clear. intros pod rest st h (Hb & Hs). unfold evict_pod.
  assert (candidate spec wave h pod) as Hpod by (apply Hb; by left).
  assert (∀ tr, (∀ p, p ∈ rest → candidate spec wave (h ++ tr) p) ∧ slo_seen_ok spec (h ++ tr)) as Hrest.
  { intros tr. split; [|by apply slo_seen_ok_app]. intros p Hp. apply candidate_app, Hb. by right. }
  destruct (PdbConfig.respect (MSpec.pdb spec)) eqn:Hr; unfold eviction_respects_pdb, call, ask; cbn.
  - intros pdbs. split; [done|]. destruct (budgets_allow _ pdbs) eqn:Ha; cbn; [|apply Hrest].
    intros r. split.
    + split; [by apply candidate_app|]. split; [by apply slo_seen_ok_app|]. intros _. by exists h, pdbs.
    + destruct r as [[]|e]; cbn; [|done]. intros now. split; [done|]. intros u. split; [done|].
      rewrite <- !app_assoc. apply Hrest.
  - intros r. split; [split; [done|]; split; [done|]; congruence|].
    destruct r as [[]|e]; cbn; [|done]. intros now. split; [done|]. intros u. split; [done|].
    rewrite <- !app_assoc. apply Hrest.
Qed.
End evictions.

(** Requests that are not evictions are safe whatever came before. *)
Lemma wp_no_evict {A} spec wave (p : prog A) Q h :
  all_ops no_evict p → (∀ tr r, exec p tr r → Q (h ++ tr) r) → wp (evict_safe spec wave) p Q h.
Proof. intros Hp HQ. apply (wp_all_ops no_evict); [done| |done]. intros tr e. apply no_evict_safe. Qed.

Ltac no_evictions := apply wp_no_evict; [unfold_plan; ops|done].

Lemma wp_drain_wave spec wave st h :
  slo_seen_ok spec h → wp (evict_safe spec wave) (drain_wave spec wave st) (λ _ _, True) h.
Proof.
  intros Hs. unfold drain_wave. apply wp_bind. eapply wp_mono; [apply wp_drain_nodes|].
  intros tr [[st' ev]|e] [Hev _]; [|done]. cbn [then_]. cbv zeta.
  case_bool_decide; [no_evictions|]. apply wp_bind. unfold select_pdb_aware_batch, ask. cbn.
  intros pdbs. split; [done|]. case_bool_decide; [no_evictions|]. apply wp_evict_batch.
  - intros pod [Hin|Hin]%batch_loop_sub; [|by apply not_elem_of_nil in Hin]. by apply candidate_app, Hev.
  - rewrite <- app_assoc. by apply slo_seen_ok_app.
Qed.

Lemma wp_step_drain spec st h :
  wp (evict_safe spec (wave_nodes spec st)) (step_drain spec st) (λ _ _, True) h.
Proof.
  unfold step_drain. case_bool_decide; [no_evictions|].
  destruct (SloVerification.enabled (MSpec.slo spec)) eqn:Hen; unfold ask; cbn.
  - intros sample. split; [done|]. destruct (slo_breached spec sample) eqn:Hb; [no_evictions|].
    apply wp_drain_wave. intros _. exists sample. split; [|done]. apply elem_of_app. right. by left.
  - apply wp_drain_wave. congruence.
Qed.

Lemma step_no_evict spec st : MSt.phase st ≠ MPhase.Draining → all_ops no_evict (step spec st).
Proof.
  intros Hph. unfold step. destruct (MSt.phase st); try done; unfold_plan; ops; by apply any_unready_ops.
Qed.

Lemma abort_no_evict spec reason st : all_ops no_evict (abort_plan spec reason st).
Proof. unfold_plan. ops. Qed.
Lemma resolve_no_evict spec st : all_ops no_evict (resolve spec st).
Proof. unfold_plan. ops. Qed.
Lemma measure_no_evict st : all_ops no_evict (measure_pass st).
Proof. unfold_plan. ops. Qed.

(** A pass in terms of the step it takes: [Q] of what ends it early, and of the
    step and the measurements. *)
Definition stamped (st : MSt.t) (now : string) (gen : Z) : MSt.t :=
  MSt.set_last_reconcile_time (Some now) (MSt.set_observed_generation gen st).

Lemma resolve_ok_phase spec st :
  post (resolve spec st) (λ r, match r with
    | Ok (inl st') => MSt.phase st' = MPhase.Planned
    | _ => True
    end).
Proof.
  unfold resolve, enter_phase, fail_plan, ask. cbn. intros n1 n2 u nodes.
  case_bool_decide; cbn; [by intros|]. intros now. case_match; cbn; by intros.
Qed.

(** The events of a pass: those of its step, from the status it was given, and
    others of the kind [f]. *)
Lemma wp_reconcile (f : op_pred) (P : list event → event → Prop) spec st gen :
  (∀ h e, ev_pred f e = true → P h e) →
  (∀ reason st', all_ops f (abort_plan spec reason st')) → (∀ st', all_ops f (resolve spec st')) →
  (∀ st', all_ops f (measure_pass st')) → f _ UtcNow = true →
  (∀ st', MSt.phase st' = MPhase.Planned → all_ops f (step spec st')) →
  (∀ now h, AbortPolicy.requested (MSpec.abort spec) = false → MSt.resolved_nodes st ≠ [] →
     (∀ e, e ∈ h → ev_pred f e = true) →
     wp P (step spec (stamped st now gen)) (λ _ _, True) h) →
  wp P (reconcile_plan spec st gen) (λ _ _, True) [].
Proof.
  intros HP Habort Hres Hmeas Hutc Hplanned Hstep. unfold reconcile_plan.
  destruct (MSpec.validate spec); [|done]. apply wp_bind. unfold ask. cbn [wp].
  intros now. split; [by apply HP|]. cbn [wp then_].
  assert (∀ (p : prog MSt.t) h, wp P p (λ _ _, True) h →
    wp P (st' ← p; st'' ← measure_pass st'; mret (outcome st'' (if MPhase.is_terminal (MSt.phase st'') then 300 else 2)%Z))
      (λ _ _, True) h) as Hafter.
  { intros p h Hp. apply wp_bind. eapply wp_mono; [done|]. intros tr [st'|e] _; [|done]. cbn [then_].
    apply wp_bind, (wp_all_ops f); [done|intros; by apply HP|]. by intros tr' [st''|e] _. }
  destruct (AbortPolicy.requested (MSpec.abort spec) && _) eqn:Hreq.
  { apply wp_bind, (wp_all_ops f); [apply Habort|intros; by apply HP|]. by intros tr [st'|e] _. }
  change (MSt.phase (MSt.set_last_reconcile_time (Some now) (MSt.set_observed_generation gen st))) with (MSt.phase st) in *.
  destruct (MPhase.is_terminal (MSt.phase st)) eqn:Hterm; [done|].
  apply andb_false_iff in Hreq as [Hreq|?]; [|done]. apply wp_bind.
  destruct (bool_decide (MSt.resolved_nodes (MSt.set_last_reconcile_time (Some now) (MSt.set_observed_generation gen st)) = [])) eqn:Hn.
  - apply (wp_all_ops f); [apply Hres|intros; by apply HP|]. intros tr r Hex.
    apply (post_exec _ _ _ _ (resolve_ok_phase _ _)) in Hex. destruct r as [[st'|st']|e]; cbn [then_]; [|done|done].
    apply Hafter, (wp_all_ops f); [by apply Hplanned|intros; by apply HP|done].
  - cbn [mret tree_ret wp then_]. apply Hafter, Hstep; [done|by apply bool_decide_eq_false in Hn|].
    intros e He. apply list_elem_of_singleton in He as ->. done.
Qed.

(** An eviction in a pass. *)
Lemma evict_pass spec st gen tr r h pod x t :
  exec (reconcile_plan spec st gen) tr r → tr = h ++ Ev (Evict pod) x :: t →
  MSt.phase st = MPhase.Draining ∧ AbortPolicy.requested (MSpec.abort spec) = false
  ∧ evict_safe spec (wave_nodes spec st) h (Ev (Evict pod) x).
Proof.
  intros Hex Htr.
  assert (wp (λ h e, ev_pred no_evict e = true ∨ (MSt.phase st = MPhase.Draining
      ∧ AbortPolicy.requested (MSpec.abort spec) = false ∧ evict_safe spec (wave_nodes spec st) h e))
    (reconcile_plan spec st gen) (λ _ _, True) []) as Hwp.
  { apply (wp_reconcile no_evict); [by left|..].
    - intros. apply abort_no_evict.
    - intros. apply resolve_no_evict.
    - intros. apply measure_no_evict.
    - done.
    - intros st' Hph. apply step_no_evict. congruence.
    - intros now h0 Hreq Hn _. destruct (decide (MSt.phase st = MPhase.Draining)) as [Hph|Hph].
      + unfold step. change (MSt.phase (stamped st now gen)) with (MSt.phase st). rewrite Hph.
        eapply wp_impl; [apply wp_step_drain|]. intros h' e He. by right.
      + apply (wp_all_ops no_evict); [by apply step_no_evict|by left|done]. }
  apply wp_sound with (2 := Hex) in Hwp as [Hev _].
  by destruct (Hev h _ t Htr) as [?|?].
Qed.

(** C3: Evictions are justified.  Against every backend, whatever it answers and
    wherever the pass stops: a pod is evicted only by a pass whose plan was
    draining and not asked to abort, from a node of the current wave on which it
    was listed in this pass, daemons aside; after a reading of the service level
    in this pass that is within the limits (when they are enabled); and directly
    after a reading of the budgets in which every budget of its workload allows a
    disruption (when budgets are respected). *)
Theorem evictions_are_justified spec st gen tr r h pod x t :
  exec (reconcile_plan spec st gen) tr r → tr = h ++ Ev (Evict pod) x :: t →
  MSt.phase st = MPhase.Draining ∧ AbortPolicy.requested (MSpec.abort spec) = false
  ∧ candidate spec (wave_nodes spec st) h pod ∧ slo_seen_ok spec h
  ∧ (PdbConfig.respect (MSpec.pdb spec) = true →
     ∃ h' pdbs, h = h' ++ [Ev ListPdbs pdbs] ∧ budgets_allow (WorkloadPod.workload pod) pdbs = true).
Proof. intros Hex Htr. by destruct (evict_pass _ _ _ _ _ _ _ _ _ Hex Htr) as (? & ? & ? & ? & ?). Qed.

(** ** Budgets *)

(** The pods whose eviction was requested. *)
Definition evicted_of (e : event) : option WorkloadPod.t :=
  match e with Ev (Evict pod) _ => Some pod | _ => None end.
Definition evicted (tr : list event) : list WorkloadPod.t := omap evicted_of tr.

Definition of_workload (w : string) (pod : WorkloadPod.t) : bool := String.eqb (WorkloadPod.workload pod) w.

Lemma evicted_app h h' : evicted (h ++ h') = evicted h ++ evicted h'.
Proof. apply omap_app. Qed.

Lemma evicted_none tr : (∀ e, e ∈ tr → ev_pred no_evict e = true) → evicted tr = [].
Proof.
  induction tr as [|e tr IH]; intros Htr; [done|]. unfold evicted in *. cbn.
  specialize (Htr e ltac:(left)) as He. rewrite IH by (intros; apply Htr; by right).
  destruct e as [X op x]. by destruct op.
Qed.

Lemma last_eviction tr : evicted tr ≠ [] → ∃ h pod x t, tr = h ++ Ev (Evict pod) x :: t ∧ evicted t = [].
Proof.
  induction tr as [|e tr IH]; [done|]. intros Hne. destruct (decide (evicted tr = [])) as [Hnil|Hsome].
  - destruct (evicted_of e) as [pod|] eqn:He.
    + destruct e as [X op x]. destruct op; try done. simpl in He. injection He as ->. by exists [], pod, x, tr.
    + destruct Hne. unfold evicted. cbn. by rewrite He.
  - destruct (IH Hsome) as (h & pod & x & t & -> & Ht). by exists (e :: h), pod, x, t.
Qed.

Definition nonneg (m : gmap string Z) : Prop := ∀ w n, m !! w = Some n → (0 ≤ n)%Z.

Lemma merge_allowance_nonneg m pdb : nonneg m → nonneg (merge_allowance m pdb).
Proof.
  intros Hm w n. unfold merge_allowance, PdbSnapshot.allowed_disruptions.
  destruct (m !! PdbSnapshot.workload pdb) as [n'|] eqn:E;
    (destruct (decide (PdbSnapshot.workload pdb = w)) as [<-|Hne];
     [rewrite lookup_insert_eq; intros [= <-]|rewrite lookup_insert_ne by done; apply Hm]); [|lia].
  apply Hm in E. lia.
Qed.

Lemma fold_allowance_nonneg pdbs m : nonneg m → nonneg (fold_left merge_allowance pdbs m).
Proof. revert m. induction pdbs as [|q l IH]; intros m Hm; simpl; [done|]. by apply IH, merge_allowance_nonneg. Qed.

Lemma allowed_by_wl_nonneg pdbs : nonneg (allowed_by_wl pdbs).
Proof. by apply fold_allowance_nonneg. Qed.

(** The allowance of a workload is at most that of each of its budgets. *)
Lemma fold_allowance_le pdb pdbs m :
  pdb ∈ pdbs ∨ (∃ n, m !! PdbSnapshot.workload pdb = Some n ∧ (n ≤ PdbSnapshot.allowed_disruptions pdb)%Z) →
  ∃ n, fold_left merge_allowance pdbs m !! PdbSnapshot.workload pdb = Some n
    ∧ (n ≤ PdbSnapshot.allowed_disruptions pdb)%Z.
Proof.
  revert m. induction pdbs as [|q l IH]; intros m Hor; simpl; [by destruct Hor as [?%not_elem_of_nil|]|].
  apply IH. unfold merge_allowance. destruct Hor as [[->|Hin']%elem_of_cons|(n & Hn & Hle)]; [right|by left|right].
  - destruct (m !! PdbSnapshot.workload q) as [n'|]; rewrite lookup_insert_eq; eexists; (split; [done|]); lia.
  - destruct (decide (PdbSnapshot.workload q = PdbSnapshot.workload pdb)) as [Heq|Hne].
    + rewrite Heq, Hn, lookup_insert_eq. eexists. split; [done|]. lia.
    + destruct (m !! PdbSnapshot.workload q); rewrite lookup_insert_ne by done; by exists n.
Qed.

Section batches.
Context (spec : MSpec.t) (allowed : gmap string Z).
Abbreviation cap := (DrainConfig.max_parallel (MSpec.drain spec)).
Context (cap_u32 : in_u32 cap).

(** What is taken so far is counted. *)
Definition batch_ok (taken : gmap string Z) (batch : list WorkloadPod.t) : Prop :=
  (Z.of_nat (length batch) ≤ cap)%Z
  ∧ ∀ w n, allowed !! w = Some n → PdbConfig.respect (MSpec.pdb spec) = true →
      default 0%Z (taken !! w) = count (of_workload w) batch ∧ (count (of_workload w) batch ≤ n)%Z.

Lemma batch_loop_ok cands taken batch :
  batch_ok taken batch → ∃ taken', batch_ok taken' (batch_loop spec allowed cands taken batch).
Proof.
  revert taken batch. induction cands as [|pod cands IH]; intros taken batch Hok; simpl; [by exists taken|].
  destruct Hok as [Hlen Hcnt]. unfold in_u32 in cap_u32.
  rewrite as_u32_small by (unfold in_u32; lia). case_match eqn:Hcap; [by exists taken|]. apply Z.leb_gt in Hcap.
  assert (Z.of_nat (length (batch ++ [pod])) ≤ cap)%Z as Hlen' by (rewrite length_app; simpl; lia).
  assert (∀ w, count (of_workload w) (batch ++ [pod])
    = (count (of_workload w) batch + (if of_workload w pod then 1 else 0))%Z) as Hcount.
  { intros w. rewrite count_app. unfold count. simpl. by destruct (of_workload w pod). }
  destruct (PdbConfig.respect (MSpec.pdb spec)) eqn:Hresp; [|apply IH; split; [done|intros ?? _ ?; congruence]].
  destruct (allowed !! WorkloadPod.workload pod) as [n|] eqn:Hall.
  - destruct (Hcnt _ _ Hall eq_refl) as [Htak Hn]. case_match eqn:Hfull; [apply IH; split; [done|]; intros ?? ? _; by apply Hcnt|]. apply Z.leb_gt in Hfull.
    apply IH. split; [done|]. intros w m Hw _. rewrite Hcount. unfold of_workload at 2 4.
    destruct (String.eqb_spec (WorkloadPod.workload pod) w) as [<-|Hne].
    + rewrite lookup_insert_eq. simpl. rewrite u32_add_small; [|rewrite Htak; unfold count; lia|done|].
      * split; [lia|]. rewrite Hall in Hw. injection Hw as <-. lia.
      * rewrite Htak. pose proof (count_le_length (of_workload (WorkloadPod.workload pod)) batch). lia.
    + rewrite lookup_insert_ne by done. rewrite Z.add_0_r. by apply Hcnt.
  - apply IH. split; [done|]. intros w m Hw _. rewrite Hcount. unfold of_workload at 2 4.
    destruct (String.eqb_spec (WorkloadPod.workload pod) w) as [<-|Hne]; [congruence|].
    rewrite Z.add_0_r. by apply Hcnt.
Qed.
End batches.

(** The selected batch: at most [maxParallel] pods, and of each workload at most what
    each of its budgets allows. *)
Lemma selected_batch_fits spec pdbs cands :
  in_u32 (DrainConfig.max_parallel (MSpec.drain spec)) →
  let batch := batch_loop spec (allowed_by_wl pdbs) cands ∅ [] in
  (Z.of_nat (length batch) ≤ DrainConfig.max_parallel (MSpec.drain spec))%Z
  ∧ (PdbConfig.respect (MSpec.pdb spec) = true → ∀ pdb, pdb ∈ pdbs →
       (count (of_workload (PdbSnapshot.workload pdb)) batch ≤ PdbSnapshot.allowed_disruptions pdb)%Z).
Proof.
  intros Hcap batch.
  destruct (batch_loop_ok spec (allowed_by_wl pdbs) Hcap cands ∅ []) as (taken & Hlen & Hcnt).
  { split; [simpl; unfold in_u32 in Hcap; lia|]. intros w n Hw _. rewrite lookup_empty. split; [done|].
    by apply allowed_by_wl_nonneg in Hw. }
  split; [done|]. intros Hresp pdb Hin. destruct (fold_allowance_le pdb pdbs ∅) as (n & Hn & Hle); [by left|].
  destruct (Hcnt _ _ Hn Hresp) as [_ Hc]. by etransitivity.
Qed.

(** One more eviction stays within the limits. *)
Definition budget_safe (spec : MSpec.t) (h : list event) (e : event) : Prop :=
  match e with
  | Ev (Evict pod) _ =>
      (Z.of_nat (length (evicted h ++ [pod])) ≤ DrainConfig.max_parallel (MSpec.drain spec))%Z
      ∧ (PdbConfig.respect (MSpec.pdb spec) = true →
         ∃ pdbs, Ev ListPdbs pdbs ∈ h ∧ ∀ pdb, pdb ∈ pdbs →
           (count (of_workload (PdbSnapshot.workload pdb)) (evicted h ++ [pod])
            ≤ PdbSnapshot.allowed_disruptions pdb)%Z)
  | _ => True
  end.

Lemma no_evict_budget spec h e : ev_pred no_evict e = true → budget_safe spec h e.
Proof. destruct e as [X op x]. by destruct op. Qed.

Lemma evict_within_batch spec pdbs cands done pod rest h x :
  in_u32 (DrainConfig.max_parallel (MSpec.drain spec)) → Ev ListPdbs pdbs ∈ h →
  batch_loop spec (allowed_by_wl pdbs) cands ∅ [] = done ++ pod :: rest → sublist (evicted h) done →
  budget_safe spec h (Ev (Evict pod) x).
Proof.
  intros Hcap Hp Hbatch Hsub. destruct (selected_batch_fits spec pdbs cands Hcap) as [Hlen Hcnt].
  rewrite Hbatch in Hlen, Hcnt. assert (sublist (evicted h ++ [pod]) (done ++ pod :: rest)) as Hs.
  { apply sublist_app; [done|]. apply sublist_skip, sublist_nil_l. }
  split.
  - apply sublist_length in Hs. lia.
  - intros Hr. exists pdbs. split; [done|]. intros pdb Hin. specialize (Hcnt Hr pdb Hin).
    apply (count_sublist (of_workload (PdbSnapshot.workload pdb))) in Hs. lia.
Qed.

(** Requests that evict nothing leave the count as it is. *)
Lemma wp_no_evict_budget {A} spec (p : prog A) Q h :
  all_ops no_evict p → (∀ tr r, exec p tr r → evicted (h ++ tr) = evicted h → Q (h ++ tr) r) →
  wp (budget_safe spec) p Q h.
Proof.
  intros Hp HQ. apply (wp_all_ops no_evict); [done|intros; by apply no_evict_budget|].
  intros tr r Hex. apply HQ; [done|]. rewrite evicted_app, (evicted_none tr), app_nil_r; [done|].
  intros e He. by eapply all_ops_exec.
Qed.

Lemma wp_budget_batch spec pdbs cands st h :
  in_u32 (DrainConfig.max_parallel (MSpec.drain spec)) → Ev ListPdbs pdbs ∈ h → evicted h = [] →
  wp (budget_safe spec) (for_each (evict_pod spec) (batch_loop spec (allowed_by_wl pdbs) cands ∅ []) st)
    (λ _ _, True) h.
Proof.
  intros Hcap Hp Hnil. set (batch := batch_loop _ _ _ _ _).
  apply (wp_for_each _ (λ rest _ h', ∃ done, batch = done ++ rest ∧ sublist (evicted h') done
    ∧ Ev ListPdbs pdbs ∈ h')); [|clear Hp Hnil h st|done].
  { exists []. rewrite Hnil. done. }
  intros pod rest st h (done & Hb & Hs & Hp). unfold evict_pod. apply wp_bind.
  apply wp_no_evict_budget; [destruct (PdbConfig.respect _); unfold_plan; ops|].
  intros tr r _ Hev. destruct r as [ok|e]; cbn [then_]; [|done].
  assert (Ev ListPdbs pdbs ∈ h ++ tr) as Hp' by (apply elem_of_app; by left).
  rewrite <- Hev in Hs. clear Hev Hp. generalize dependent (h ++ tr). clear h tr. intros h Hs Hp.
  assert (batch = (done ++ [pod]) ++ rest) as Hb' by by rewrite <- app_assoc.
  destruct ok; cbn.
  - intros res. split; [by apply (evict_within_batch spec pdbs cands done pod rest h res)|].
    destruct res as [[]|e]; cbn; [|done]. intros now. split; [done|]. intros u. split; [done|].
    exists (done ++ [pod]). rewrite <- !app_assoc. split; [done|]. rewrite evicted_app. split; [by apply sublist_app|].
    apply elem_of_app. by left.
  - exists (done ++ [pod]). split; [done|]. split; [|done]. by apply sublist_inserts_r.
Qed.

Lemma wp_budget_drain spec st h :
  in_u32 (DrainConfig.max_parallel (MSpec.drain spec)) → evicted h = [] →
  wp (budget_safe spec) (step_drain spec st) (λ _ _, True) h.
Proof.
  intros Hcap Hnil. unfold step_drain. case_bool_decide; [apply wp_no_evict_budget; [unfold_plan; ops|done]|].
  apply wp_bind, wp_no_evict_budget; [unfold_plan; ops|]. intros tr [[]|e] _ Hev; cbn [then_]; [| |done].
  { apply wp_no_evict_budget; [unfold_plan; ops|done]. }
  unfold drain_wave. apply wp_bind, wp_no_evict_budget; [unfold_plan; ops|].
  intros tr' [[st' ev]|e] _ Hev'; cbn [then_]; [|done]. cbv zeta.
  case_bool_decide; [apply wp_no_evict_budget; [unfold_plan; ops|done]|].
  apply wp_bind. unfold select_pdb_aware_batch, ask. cbn. intros pdbs. split; [done|].
  case_bool_decide; [apply wp_no_evict_budget; [unfold_plan; ops|done]|].
  apply wp_budget_batch; [done|apply elem_of_app; right; by left|].
  by rewrite evicted_app, Hev', Hev, Hnil.
Qed.

Lemma wp_budget_reconcile spec st gen :
  in_u32 (DrainConfig.max_parallel (MSpec.drain spec)) →
  wp (budget_safe spec) (reconcile_plan spec st gen) (λ _ _, True) [].
Proof.
  intros Hcap.
  apply (wp_reconcile no_evict); [apply no_evict_budget|intros; apply abort_no_evict|intros; apply resolve_no_evict
    |intros; apply measure_no_evict|done|intros st' Hph; apply step_no_evict; congruence|].
  intros now h Hreq Hn Hh. destruct (decide (MSt.phase (stamped st now gen) = MPhase.Draining)) as [Hph|Hph].
  - unfold step. rewrite Hph. apply wp_budget_drain; [done|]. by apply evicted_none.
  - apply wp_no_evict_budget; [by apply step_no_evict|done].
Qed.

(** C26: One pass stays within the disruption budgets.  Against every backend and
    wherever the pass stops, the evictions it requests are at most [maxParallel],
    and, when budgets are respected and something is evicted, some reading of the
    budgets in the pass covers all of them: of each workload the pass evicts at
    most as many pods as every one of its budgets allowed in that reading. *)
Theorem evictions_fit_the_budgets spec st gen tr r :
  in_u32 (DrainConfig.max_parallel (MSpec.drain spec)) → exec (reconcile_plan spec st gen) tr r →
  (Z.of_nat (length (evicted tr)) ≤ DrainConfig.max_parallel (MSpec.drain spec))%Z
  ∧ (PdbConfig.respect (MSpec.pdb spec) = true → evicted tr ≠ [] →
     ∃ pdbs, Ev ListPdbs pdbs ∈ tr ∧ ∀ pdb, pdb ∈ pdbs →
       (count (of_workload (PdbSnapshot.workload pdb)) (evicted tr) ≤ PdbSnapshot.allowed_disruptions pdb)%Z).
Proof.
  intros Hcap Hex. destruct (decide (evicted tr = [])) as [Hnil|Hne].
  { rewrite Hnil. split; [unfold in_u32 in Hcap; simpl; lia|done]. }
  destruct (last_eviction tr Hne) as (h & pod & x & t & Htr & Ht).
  apply wp_sound with (1 := wp_budget_reconcile spec st gen Hcap) in Hex as [Hev _].
  destruct (Hev h _ t Htr) as [Hlen Hb]. change ([] ++ h) with h in *.
  assert (evicted tr = evicted h ++ [pod]) as ->.
  { rewrite Htr, evicted_app. unfold evicted at 2. cbn. fold (evicted t). by rewrite Ht. }
  split; [done|]. intros Hr _. destruct (Hb Hr) as (pdbs & Hin & Hle). exists pdbs. split; [|done].
  rewrite Htr. apply elem_of_app. by left.
Qed.

(** ** Cordons *)

Lemma contains_str_spec x l : contains_str x l = true ↔ x ∈ l.
Proof. apply bool_decide_eq_true. Qed.

(** The replacements of the workloads of a node were read ready off it. *)
Definition verified_off (h : list event) (node : string) : Prop :=
  ∃ pods, Ev ListPods pods ∈ h ∧
    ∀ wl, wl ∈ workloads_of (λ pod, String.eqb (WorkloadPod.node pod) node) pods →
      Ev (WorkloadReadyOffNode wl node) true ∈ h.

Lemma verified_off_app_l h h' node : verified_off h node → verified_off (h ++ h') node.
Proof. intros (pods & Hp & Hw). exists pods. set_solver. Qed.
Lemma verified_off_app_r h h' node : verified_off h' node → verified_off (h ++ h') node.
Proof. intros (pods & Hp & Hw). exists pods. set_solver. Qed.

Lemma any_unready_on_false node wls tr :
  exec (any_unready_on node wls) tr (Ok false) →
  ∀ wl, wl ∈ wls → Ev (WorkloadReadyOffNode wl node) true ∈ tr.
Proof.
  revert tr. induction wls as [|w wls IH]; intros tr Hex wl; [by intros ?%not_elem_of_nil|].
  cbn in Hex. apply exec_inv in Hex as (ready & tr' & -> & Hex). destruct ready; [|by apply exec_inv in Hex as [_ ?]].
  intros [->|Hin]%elem_of_cons; [by left|]. right. by apply IH.
Qed.

Lemma any_unready_false wave tr :
  exec (any_unready wave) tr (Ok false) → ∀ node, node ∈ wave → verified_off tr node.
Proof.
  revert tr. induction wave as [|n wave IH]; intros tr Hex node; [by intros ?%not_elem_of_nil|].
  cbn [any_unready] in Hex. apply exec_bind_ok in Hex as (wls & t1 & t2 & -> & Hwls & Hex).
  apply exec_bind_ok in Hex as (unready & t3 & t4 & -> & Hon & Hex).
  apply exec_bind_ok in Hwls as (pods & t5 & t6 & -> & Hpods & [-> ->]%exec_ret_ok).
  apply exec_inv in Hpods as (pods' & t7 & -> & [-> ->]%exec_ret_ok).
  destruct unready; [by apply exec_inv in Hex as [_ ?]|]. intros [->|Hin]%elem_of_cons.
  - exists pods'. split; [by left|]. intros wl Hwl. eapply any_unready_on_false in Hon; [|done]. set_solver.
  - do 2 apply verified_off_app_r. by apply IH.
Qed.

(** What precedes a cordon. *)
Definition cordon_safe (spec : MSpec.t) (st : MSt.t) (h : list event) (e : event) : Prop :=
  match e with
  | Ev (Cordon node) _ =>
      node ∈ wave_nodes spec st ∧ node ∉ MSt.cordoned_nodes st ∧ slo_seen_ok spec h
      ∧ (PrewarmConfig.enabled (MSpec.prewarm spec) = true → ∀ n, n ∈ wave_nodes spec st → verified_off h n)
  | _ => True
  end.

Lemma no_cordon_safe spec st h e : ev_pred no_cordon e = true → cordon_safe spec st h e.
Proof. destruct e as [X op x]. by destruct op. Qed.

Lemma wp_no_cordon {A} spec st (p : prog A) (Q : list event → result A Failure → Prop) h :
  all_ops no_cordon p → (∀ tr r, exec p tr r → Q (h ++ tr) r) → wp (cordon_safe spec st) p Q h.
Proof. intros Hp HQ. apply (wp_all_ops no_cordon); [done| |done]. intros tr e. apply no_cordon_safe. Qed.

Lemma wp_cordon_wave spec st st' h :
  MSt.cordoned_nodes st' = MSt.cordoned_nodes st → slo_seen_ok spec h →
  (PrewarmConfig.enabled (MSpec.prewarm spec) = true → ∀ n, n ∈ wave_nodes spec st → verified_off h n) →
  wp (cordon_safe spec st) (for_each cordon_node (wave_nodes spec st) st') (λ _ _, True) h.
Proof.
  intros Hc Hs Hv. apply (wp_for_each _ (λ rest s h', (∀ n, n ∈ rest → n ∈ wave_nodes spec st)
    ∧ (∀ n, n ∈ MSt.cordoned_nodes st → n ∈ MSt.cordoned_nodes s) ∧ ∃ tr, h' = h ++ tr)); [| |done].
  { split; [done|]. split; [by rewrite Hc|]. exists []. by rewrite app_nil_r. }
  intros n rest s h' (Hrest & Hmono & tr & ->). unfold cordon_node. destruct (contains_str n _) eqn:Hin.
  { cbn. split; [set_solver|]. split; [done|]. by exists tr. }
  unfold call, ask. cbn. intros r. split.
  - split; [set_solver|]. split.
    { intros Hn%Hmono. apply contains_str_spec in Hn. congruence. }
    split; [by apply slo_seen_ok_app|]. intros He m Hm. apply verified_off_app_l. by apply Hv.
  - destruct r as [[]|e]; cbn; [|done]. intros u. split; [done|]. split; [set_solver|].
    split; [set_solver|]. rewrite <- !app_assoc. by eexists.
Qed.

Lemma wp_cordon_verify spec st h :
  wp (cordon_safe spec st) (step_verify spec st) (λ _ _, True) h.
Proof.
  unfold step_verify, ask. apply wp_bind. cbn [wp]. intros sample. split; [done|]. cbn [wp then_].
  set (st' := MSt.set_last_availability _ _). destruct (SloVerification.enabled _ && _) eqn:Hslo.
  { apply wp_no_cordon; [unfold_plan; ops|done]. }
  assert (slo_seen_ok spec (h ++ [Ev Slo sample])) as Hs.
  { intros He. rewrite He in Hslo. exists sample. split; [set_solver|done]. }
  cbv zeta. change (wave_nodes spec st') with (wave_nodes spec st).
  case_bool_decide. { apply wp_no_cordon; [unfold_plan; ops|done]. }
  apply wp_bind, wp_no_cordon. { destruct (PrewarmConfig.enabled _); [by apply any_unready_ops|done]. }
  intros tr [[]|e] Hex; cbn [then_]; [apply wp_no_cordon; [unfold_plan; ops|done]| |done].
  apply wp_bind. eapply wp_mono; [apply wp_cordon_wave; [done|by apply slo_seen_ok_app|]|].
  - intros He n Hn. rewrite He in Hex. eapply any_unready_false in Hex; [|done]. by apply verified_off_app_r.
  - intros tr' [st''|e] _; [|done]. cbn [then_]. apply wp_no_cordon; [unfold_plan; ops|done].
Qed.

Lemma step_no_cordon spec st : MSt.phase st ≠ MPhase.Verifying → all_ops no_cordon (step spec st).
Proof. intros Hph. unfold step. destruct (MSt.phase st); try done; unfold_plan; ops. Qed.

(** Cordons come after verification.  Against every backend: a node is cordoned
    only by a pass whose plan was verifying and not asked to abort, once (it is not
    in the recorded cordons), when it is of the current wave; after a reading of
    the service level within the limits (when enabled); and, when replacements are
    prewarmed, after every workload with a pod on any node of the wave was read
    ready off that node. *)
Theorem cordons_follow_verification spec st gen tr r h node x t :
  exec (reconcile_plan spec st gen) tr r → tr = h ++ Ev (Cordon node) x :: t →
  MSt.phase st = MPhase.Verifying ∧ AbortPolicy.requested (MSpec.abort spec) = false
  ∧ node ∈ wave_nodes spec st ∧ node ∉ MSt.cordoned_nodes st ∧ slo_seen_ok spec h
  ∧ (PrewarmConfig.enabled (MSpec.prewarm spec) = true → ∀ n, n ∈ wave_nodes spec st → verified_off h n).
Proof.
  intros Hex Htr.
  assert (wp (λ h e, ev_pred no_cordon e = true ∨ (MSt.phase st = MPhase.Verifying
      ∧ AbortPolicy.requested (MSpec.abort spec) = false ∧ cordon_safe spec st h e))
    (reconcile_plan spec st gen) (λ _ _, True) []) as Hwp.
  { apply (wp_reconcile no_cordon); [by left|intros; unfold_plan; ops..|done|intros st' Hph; apply step_no_cordon; congruence|].
    intros now h0 Hreq Hn _. destruct (decide (MSt.phase st = MPhase.Verifying)) as [Hph|Hph].
    - unfold step. change (MSt.phase (stamped st now gen)) with (MSt.phase st). rewrite Hph.
      eapply wp_impl; [apply wp_cordon_verify|]. intros h' e He. by right.
    - apply (wp_all_ops no_cordon); [by apply step_no_cordon|by left|done]. }
  apply wp_sound with (2 := Hex) in Hwp as [Hev _]. by destruct (Hev h _ t Htr) as [?|(? & ? & ?)].
Qed.
