(* ===== verification/MaintenancePlans.v ===== *)
(** * Planned maintenance: the life of a plan

    An abstract specification of what a plan goes through, and the refinement: every
    pass of the engine, against every backend, is a sequence of its transitions.
    The well-formedness of the recorded status is the invariant of the simulation. *)

From stdpp Require Import prelude strings gmap list relations.
From S2P Require Import Prelude RustStr Float64 Conditions BTreeMap Prog MaintenanceTypes Maintenance MaintenanceFacts.

(** ** The abstract plan *)

(** The phase, the target nodes, those drained, those given up, those cordoned. *)
Record plan : Type := Plan {
  p_phase : MPhase.t;
  p_nodes : list string;
  p_drained : gset string;
  p_skipped : gset string;
  p_cordoned : gset string;
}.

Inductive lifecycle : plan → plan → Prop :=
| life_targets ns d f c :
    ns ≠ [] → NoDup ns → lifecycle (Plan MPhase.Planned [] d f c) (Plan MPhase.Planned ns d f c)
| life_no_target d f c :
    lifecycle (Plan MPhase.Planned [] d f c) (Plan MPhase.Failed [] d f c)
| life_abort ph ns d f c :
    MPhase.is_terminal ph = false → lifecycle (Plan ph ns d f c) (Plan MPhase.Aborted ns d f c)
| life_start ph ns d f c :
    ns ≠ [] → ph = MPhase.Prewarming ∨ ph = MPhase.Verifying →
    lifecycle (Plan MPhase.Planned ns d f c) (Plan ph ns d f c)
| life_prewarmed ns d f c :
    lifecycle (Plan MPhase.Prewarming ns d f c) (Plan MPhase.Verifying ns d f c)
| life_not_ready ns d f c :
    lifecycle (Plan MPhase.Verifying ns d f c) (Plan MPhase.Prewarming ns d f c)
| life_cordon n ns d f c :
    n ∈ ns → n ∉ c → lifecycle (Plan MPhase.Verifying ns d f c) (Plan MPhase.Verifying ns d f ({[n]} ∪ c))
| life_drain ns d f c :
    lifecycle (Plan MPhase.Verifying ns d f c) (Plan MPhase.Draining ns d f c)
| life_drained n ns d f c :
    n ∈ ns → n ∉ d → n ∉ f → lifecycle (Plan MPhase.Draining ns d f c) (Plan MPhase.Draining ns ({[n]} ∪ d) f c)
| life_next_wave ns d f c :
    lifecycle (Plan MPhase.Draining ns d f c) (Plan MPhase.Verifying ns d f c)
| life_stall ns d f c :
    lifecycle (Plan MPhase.Draining ns d f c) (Plan MPhase.Stalled ns d f c)
| life_surge ns d f c :
    lifecycle (Plan MPhase.Stalled ns d f c) (Plan MPhase.Draining ns d f c)
| life_skip pre n post d f c :
    (∀ m, m ∈ pre → m ∈ d ∪ f) → n ∉ d ∪ f →
    lifecycle (Plan MPhase.Stalled (pre ++ n :: post) d f c)
      (Plan MPhase.Verifying (pre ++ n :: post) d ({[n]} ∪ f) c)
| life_complete ph ns d f c :
    ph = MPhase.Verifying ∨ ph = MPhase.Draining ∨ ph = MPhase.Stalled → (∀ n, n ∈ ns → n ∈ d ∪ f) →
    lifecycle (Plan ph ns d f c) (Plan MPhase.Completed ns d f c).

Definition new_plan : plan := Plan MPhase.Planned [] ∅ ∅ ∅.

Definition plan_of (st : MSt.t) : plan :=
  Plan (MSt.phase st) (MSt.resolved_nodes st) (list_to_set (MSt.nodes_completed st))
    (list_to_set (MSt.nodes_failed st)) (list_to_set (MSt.cordoned_nodes st)).

(** What the specification gives: the books only grow, and are consistent. *)
Record plan_ok (p : plan) : Prop := {
  ok_nodup : NoDup (p_nodes p);
  ok_disjoint : p_drained p ## p_skipped p;
  ok_drained : ∀ n, n ∈ p_drained p ∪ p_skipped p ∪ p_cordoned p → n ∈ p_nodes p;
  ok_completed : p_phase p = MPhase.Completed → ∀ n, n ∈ p_nodes p → n ∈ p_drained p ∪ p_skipped p;
}.

Lemma lifecycle_ok p q : lifecycle p q → plan_ok p → plan_ok q.
Proof.
  intros Hl [Hn Hd Hs Hc]. destruct Hl; split; simpl in *; try done; try (by destruct H0; subst); set_solver.
Qed.

Definition plan_le (p q : plan) : Prop :=
  p_drained p ⊆ p_drained q ∧ p_skipped p ⊆ p_skipped q ∧ p_cordoned p ⊆ p_cordoned q
  ∧ (p_nodes p ≠ [] → p_nodes q = p_nodes p)
  ∧ (MPhase.is_terminal (p_phase p) = true → q = p).

Lemma lifecycle_le p q : lifecycle p q → plan_le p q.
Proof.
  intros Hl. destruct Hl; unfold plan_le; simpl; (split; [set_solver|]); (split; [set_solver|]);
    (split; [set_solver|]); (split; [done|]); intros Ht; destruct_or?; simplify_eq/=; congruence.
Qed.

#[global] Instance plan_le_preorder : PreOrder plan_le.
Proof.
  split; [by intros p|]. intros p q r (Hd & Hs & Hc & Hn & Ht) (Hd' & Hs' & Hc' & Hn' & Ht').
  split; [set_solver|]. split; [set_solver|]. split; [set_solver|]. split.
  - intros H. specialize (Hn H). rewrite <- Hn in H. rewrite (Hn' H). done.
  - intros H. rewrite (Ht H) in *. auto.
Qed.

Lemma lifecycles_ok p q : rtc lifecycle p q → plan_ok p → plan_ok q.
Proof. induction 1; eauto using lifecycle_ok. Qed.

Lemma lifecycles_le p q : rtc lifecycle p q → plan_le p q.
Proof. induction 1 as [p|p q r Hl _ IH]; [done|]. etransitivity; [by apply lifecycle_le|done]. Qed.

Lemma new_plan_ok : plan_ok new_plan.
Proof. split; simpl; [constructor|set_solver|set_solver|done]. Qed.

(** ** The recorded status *)

Definition handled (st : MSt.t) (n : string) : Prop := n ∈ MSt.nodes_completed st ∨ n ∈ MSt.nodes_failed st.
Abbreviation cur st := (Z.to_nat (MSt.cursor st)).
Abbreviation nodes := MSt.resolved_nodes.

(** The parts of the status the plan is recorded in. *)
Record books (st : MSt.t) : Prop := {
  bk_cursor : (0 ≤ MSt.cursor st ≤ Z.of_nat (length (nodes st)))%Z;
  bk_nodup : NoDup (nodes st);
  bk_before : ∀ n, n ∈ take (cur st) (nodes st) → handled st n;
  bk_failed : ∀ n, n ∈ MSt.nodes_failed st → n ∈ take (cur st) (nodes st);
  bk_failed_nodup : NoDup (MSt.nodes_failed st);
  bk_completed : ∀ n, n ∈ MSt.nodes_completed st → n ∈ nodes st ∧ n ∉ MSt.nodes_failed st;
  bk_completed_nodup : NoDup (MSt.nodes_completed st);
  bk_cordoned : ∀ n, n ∈ MSt.cordoned_nodes st → n ∈ nodes st;
  bk_cordoned_nodup : NoDup (MSt.cordoned_nodes st);
}.

(** What a phase says of them: a plan past planning has targets, a stalled one has an
    unhandled node at the cursor, if any, a completed one has none left. *)
Definition phase_ok (ph : MPhase.t) (st : MSt.t) : Prop :=
  (nodes st = [] → ph = MPhase.Planned ∨ MPhase.is_terminal ph = true)
  ∧ (ph = MPhase.Stalled → ∀ n, nodes st !! cur st = Some n → ¬ handled st n)
  ∧ (ph = MPhase.Completed → ∀ n, n ∈ nodes st → handled st n).

Definition well_formed (st : MSt.t) : Prop := books st ∧ phase_ok (MSt.phase st) st.

(** Equality of what [books] and [phase_ok] read. *)
Definition core (st : MSt.t) :=
  (nodes st, MSt.cursor st, MSt.nodes_completed st, MSt.nodes_failed st, MSt.cordoned_nodes st).

Lemma books_core st st' : core st' = core st → books st → books st'.
Proof.
  unfold core. intros [= E1 E2 E3 E4 E5] [].
  split; unfold handled in *; rewrite ?E1, ?E2, ?E3, ?E4, ?E5; done.
Qed.

Lemma phase_ok_core ph st st' : core st' = core st → phase_ok ph st → phase_ok ph st'.
Proof. unfold core, phase_ok, handled. intros [= E1 E2 E3 E4 E5]. by rewrite E1, E2, E3, E4. Qed.

Lemma plan_of_core st st' : core st' = core st → MSt.phase st' = MSt.phase st → plan_of st' = plan_of st.
Proof. unfold core, plan_of. intros [= E1 E2 E3 E4 E5] E. by rewrite E, E1, E3, E4, E5. Qed.

(** The plan of [st0] went on to that of [st], which is well formed. *)
Definition follows_to (st0 st : MSt.t) : Prop := well_formed st ∧ rtc lifecycle (plan_of st0) (plan_of st).

Lemma follows_frame st0 st st' :
  core st' = core st → MSt.phase st' = MSt.phase st → follows_to st0 st → follows_to st0 st'.
Proof.
  intros Hc Hp [[Hb Hph] Hl]. split; [split|].
  - by eapply books_core.
  - rewrite Hp. by eapply phase_ok_core.
  - by rewrite (plan_of_core st st').
Qed.

Lemma follows_step st0 st st' :
  follows_to st0 st → lifecycle (plan_of st) (plan_of st') → well_formed st' → follows_to st0 st'.
Proof. intros [_ Hl] Hs Hw. split; [done|]. by eapply rtc_r. Qed.

(** ** Transitions *)

Definition keeps (st0 : MSt.t) (r : result MSt.t Failure) : Prop :=
  match r with Ok st' => follows_to st0 st' | Err e => e ≠ Panicked end.

Lemma enter_phase_post ph reason st :
  post (enter_phase ph reason st) (λ r, match r with
    | Ok st' => core st' = core st ∧ MSt.phase st' = ph
    | Err _ => False
    end).
Proof. unfold enter_phase, ask. cbn. done. Qed.

(** Entering a phase the specification allows. *)
Lemma enter_keeps st0 st ph reason :
  follows_to st0 st → phase_ok ph st → lifecycle (plan_of st) (plan_of (MSt.set_phase ph st)) →
  post (enter_phase ph reason st) (keeps st0).
Proof.
  intros [Hw Hl] Hph Hlife. eapply post_mono; [apply enter_phase_post|].
  intros [st'|e]; [|done]. intros [Hc Hp]. apply (follows_frame _ (MSt.set_phase ph st)); [done|done|].
  apply (follows_step _ st); [by split|done|]. split; [|done]. apply (books_core st); [done|apply Hw].
Qed.

Lemma attempts_post {A} (f : A → prog unit) (l : list A) (Q : result unit Failure → Prop) :
  (∀ x, post (f x) (λ r, r = Ok tt)) → Q (Ok tt) → post (for_each (λ _ x, f x) l tt) Q.
Proof.
  intros Hf HQ. apply (post_for_each (λ _ _, True)); [done| |by intros []].
  intros x rest u _. eapply post_mono; [apply Hf|]. by intros r ->.
Qed.

Lemma abort_keeps st0 st spec reason :
  follows_to st0 st → MPhase.is_terminal (MSt.phase st) = false → post (abort_plan spec reason st) (keeps st0).
Proof.
  intros Hf Ht. unfold abort_plan. apply post_bind. eapply post_mono.
  { apply enter_keeps; [done|split; [by right|done]|]. by constructor. }
  intros [st'|e] Hk; [|done]. assert (follows_to st0 (MSt.set_message (Some reason) st')) as Hk' by by apply (follows_frame _ st').
  generalize dependent (MSt.set_message (Some reason) st'). clear Hk st' Hf Ht. intros st' Hf. cbv zeta.
  apply post_bind. eapply (post_mono _ (λ r, r = Ok tt)).
  { case_match; [|done]. apply attempts_post; [|done]. intros x. by case_match. }
  intros r ->. apply post_bind. eapply (post_mono _ (λ r, r = Ok tt)).
  { case_match; [|done]. unfold recover_all, ask. cbn. intros pods. apply post_bind, attempts_post; [done|].
    by intros []. }
  intros r ->. unfold ask. cbn. intros n. by apply (follows_frame _ st').
Qed.

(** *** Prewarming *)

Lemma prewarm_keeps st0 st spec :
  follows_to st0 st → MSt.phase st = MPhase.Prewarming → post (step_prewarm spec st) (keeps st0).
Proof.
  intros Hf Hp. unfold step_prewarm, workloads_on_remaining. apply post_bind.
  pose proof Hf as [[Hb Hph] Hl]. case_match eqn:Hlt.
  { apply Z.ltb_lt in Hlt. destruct (bk_cursor _ Hb). lia. }
  clear Hlt. unfold ask. cbn. intros pods. apply post_bind.
  apply (post_for_each (λ _ acc, core (fst acc) = core st ∧ MSt.phase (fst acc) = MSt.phase st)); [done| |].
  - intros wl rest [s ready] [Hc Hs]. unfold prewarm_workload, call, ask. cbn. intros [ok|e]; [|done].
    cbn. destruct (ok && _); cbn; by repeat split.
  - intros [s ready] [Hc Hs]. cbn [fst] in *. assert (follows_to st0 s) as Hf' by by apply (follows_frame _ st).
    destruct ready; [|done]. apply enter_keeps; [done| |].
    + destruct Hf' as [[_ Hph'] _]. rewrite Hs, Hp in Hph'. destruct Hph' as (Hn & _).
      split; [|done]. intros Hnil. by destruct (Hn Hnil).
    + unfold plan_of. simpl. rewrite Hs, Hp. constructor.
Qed.

(** *** Verifying *)

Lemma targets_left st : well_formed st → MPhase.is_terminal (MSt.phase st) = false → MSt.phase st ≠ MPhase.Planned →
  nodes st ≠ [].
Proof. intros [_ (Hn & _)] Ht Hp Hnil. destruct (Hn Hnil); congruence. Qed.

Lemma phase_ok_simple ph st :
  nodes st ≠ [] → ph ≠ MPhase.Stalled → ph ≠ MPhase.Completed → phase_ok ph st.
Proof. by intros. Qed.

(** No node is left: all are handled. *)
Lemma all_handled st : books st → drop (cur st) (nodes st) = [] → ∀ n, n ∈ nodes st → handled st n.
Proof.
  intros Hb Hd n Hn. apply (bk_before _ Hb). rewrite <- (take_drop (cur st) (nodes st)), Hd, app_nil_r in Hn. done.
Qed.

Lemma wave_empty spec st : wave_nodes spec st = [] → drop (cur st) (nodes st) = [].
Proof.
  unfold wave_nodes, remaining_nodes. destruct (drop _ _) as [|n l]; [done|].
  destruct (Z.to_nat (Z.max _ 1)) eqn:E; [lia|done].
Qed.

Lemma wave_sub spec st n : n ∈ wave_nodes spec st → n ∈ drop (cur st) (nodes st).
Proof. unfold wave_nodes, remaining_nodes. apply subseteq_take. Qed.

Lemma handled_union st n : handled st n → n ∈@{gset string} list_to_set (MSt.nodes_completed st) ∪ list_to_set (MSt.nodes_failed st).
Proof. unfold handled. set_solver. Qed.

Lemma complete_keeps st0 st reason :
  follows_to st0 st → drop (cur st) (nodes st) = [] →
  MSt.phase st = MPhase.Verifying ∨ MSt.phase st = MPhase.Draining ∨ MSt.phase st = MPhase.Stalled →
  post (enter_phase MPhase.Completed reason st) (keeps st0).
Proof.
  intros Hf Hd Hp. pose proof Hf as [[Hb Hph] Hl]. apply enter_keeps; [done| |].
  - split; [by right|]. split; [done|]. intros _. by apply all_handled.
  - apply life_complete; [done|]. intros n Hn. by apply handled_union, all_handled.
Qed.

Lemma cordon_keeps st0 st wave :
  follows_to st0 st → MSt.phase st = MPhase.Verifying → (∀ n, n ∈ wave → n ∈ nodes st) →
  post (for_each cordon_node wave st) (λ r, match r with
    | Ok st' => follows_to st0 st' ∧ MSt.phase st' = MPhase.Verifying
    | Err e => e ≠ Panicked
    end).
Proof.
  intros Hf Hp Hw. apply (post_for_each (λ rest s, follows_to st0 s ∧ MSt.phase s = MPhase.Verifying
    ∧ ∀ n, n ∈ rest → n ∈ nodes s)); [done| |by intros s (? & ? & ?)].
  clear. intros n rest s (Hf & Hp & Hn). unfold cordon_node. destruct (contains_str n _) eqn:Hc.
  { cbn. split; [done|]. split; [done|]. intros m Hm. apply Hn. by right. }
  unfold call, ask. cbn. intros [[]|e]; [|done]. cbn. intros u.
  assert (n ∉ MSt.cordoned_nodes s) as Hnc by (rewrite <- contains_str_spec; congruence).
  split; [|split; [done|intros m Hm; apply Hn; by right]]. apply (follows_step _ s); [done| |].
  - unfold plan_of. simpl. rewrite Hp, list_to_set_app_L. simpl. rewrite union_empty_r_L, (union_comm_L _ {[n]}).
    apply life_cordon; [apply Hn; by left|]. by rewrite elem_of_list_to_set.
  - destruct Hf as [[Hb Hph] _]. split; [|done]. destruct Hb. split; simpl; try done.
    + intros m [Hm|Hm%list_elem_of_singleton]%elem_of_app; [auto|subst m]. apply Hn. by left.
    + apply NoDup_app. split; [done|]. split; [set_solver|]. apply NoDup_singleton.
Qed.

Lemma verify_keeps st0 st spec :
  follows_to st0 st → MSt.phase st = MPhase.Verifying → post (step_verify spec st) (keeps st0).
Proof.
  intros Hf Hp. unfold step_verify, ask. cbn [post mbind tree_bind bind]. intros sample.
  set (st1 := MSt.set_last_availability _ _).
  assert (follows_to st0 st1) as Hf1 by by apply (follows_frame _ st).
  assert (MSt.phase st1 = MPhase.Verifying) as Hp1 by done. clearbody st1. clear Hf Hp st. cbv zeta.
  assert (nodes st1 ≠ []) as Hne by (apply targets_left; [apply Hf1|by rewrite Hp1|congruence]).
  case_match. { apply abort_keeps; [done|by rewrite Hp1]. }
  case_bool_decide as Hw.
  { apply post_bind. eapply post_mono; [apply complete_keeps; [done|by eapply wave_empty|by left]|].
    intros [st2|e] Hk; [|done]. by apply (follows_frame _ st2). }
  apply post_bind. eapply (post_mono _ (λ r, match r with Ok _ => True | Err _ => False end)).
  { case_match; [|done]. clear. induction (wave_nodes spec st1) as [|n wave IH]; cbn; [done|]. intros pods.
    apply post_bind. generalize (workloads_of (λ pod, String.eqb (WorkloadPod.node pod) n) pods) as wls.
    induction wls as [|wl wls IH']; cbn; [done|]. by intros []. }
  intros [[]|e] Hr; [|clear Hw|done].
  { apply enter_keeps; [done|by apply phase_ok_simple|]. unfold plan_of. simpl. rewrite Hp1. constructor. }
  apply post_bind. eapply post_mono; [apply cordon_keeps; [done|done|]|].
  { intros n Hn%wave_sub. by eapply subseteq_drop. }
  intros [st2|e]; [|done]. intros [Hf2 Hp2]. apply post_bind. eapply post_mono.
  { apply enter_keeps; [done|apply phase_ok_simple; [|done|done]|].
    - apply targets_left; [apply Hf2|by rewrite Hp2|congruence].
    - unfold plan_of. simpl. rewrite Hp2. constructor. }
  intros [st3|e] Hk; [|done]. cbn. intros now. by apply (follows_frame _ st3).
Qed.

(** *** Draining *)

Definition few_nodes (st : MSt.t) : Prop := (Z.of_nat (length (nodes st)) < 2 ^ 32)%Z.

Lemma take_not_drop {A} (l : list A) k x : NoDup l → x ∈ take k l → x ∉ drop k l.
Proof. rewrite <- (take_drop k l) at 1. intros (_ & Hd & _)%NoDup_app. apply Hd. Qed.

Lemma drained_keeps st0 st spec wave :
  follows_to st0 st → MSt.phase st = MPhase.Draining → (∀ n, n ∈ wave → n ∈ drop (cur st) (nodes st)) →
  post (for_each (drain_node spec) wave (st, [])) (λ r, match r with
    | Ok (st', _) => follows_to st0 st' ∧ MSt.phase st' = MPhase.Draining ∧ nodes st' = nodes st
    | Err e => e ≠ Panicked
    end).
Proof.
  intros Hf Hp Hw. apply (post_for_each (λ rest acc, follows_to st0 (fst acc) ∧ MSt.phase (fst acc) = MPhase.Draining
    ∧ nodes (fst acc) = nodes st ∧ ∀ n, n ∈ rest → n ∈ drop (cur (fst acc)) (nodes (fst acc)))); [done| |by intros [s ev] (? & ? & ? & ?)].
  clear. intros n rest [s ev] (Hf & Hp & Hs & Hn). cbn [fst] in *. unfold drain_node, pods_on_node, ask. cbn. intros pods.
  assert (∀ m, m ∈ rest → m ∈ drop (cur s) (nodes s)) as Hrest by (intros m Hm; apply Hn; by right).
  case_bool_decide; [|done]. cbn. destruct (contains_str n _) eqn:Hc; [done|]. split; [|done].
  pose proof Hf as [[[] Hph] _].
  assert (n ∉ MSt.nodes_completed s) as Hnc by (rewrite <- contains_str_spec; congruence).
  assert (n ∈ drop (cur s) (nodes s)) as Hd by (apply Hn; by left).
  assert (n ∉ MSt.nodes_failed s) as Hnf by (intros Hm%bk_failed0; by apply (take_not_drop (nodes s) (cur s) n)).
  apply (follows_step _ s); [done| |].
  - unfold plan_of. simpl. rewrite Hp, list_to_set_app_L. simpl. rewrite union_empty_r_L, (union_comm_L _ {[n]}).
    apply life_drained; [by eapply subseteq_drop|by rewrite elem_of_list_to_set..].
  - split; [split|]; simpl; try done.
    + intros m Hm. destruct (bk_before0 m Hm); [left|by right]. simpl. set_solver.
    + intros m [Hm|Hm%list_elem_of_singleton]%elem_of_app; [auto|subst m]. split; [by eapply subseteq_drop|done].
    + apply NoDup_app. split; [done|]. split; [set_solver|]. apply NoDup_singleton.
    + rewrite Hp. apply phase_ok_simple; [|done|done]. apply (targets_left s); [apply Hf|by rewrite Hp|congruence].
Qed.

Lemma take_next {A} (l : list A) k x : l !! k = Some x → take (S k) l = take k l ++ [x].
Proof. apply take_S_r. Qed.

Lemma cursor_next st n :
  few_nodes st → books st → nodes st !! cur st = Some n →
  (MSt.cursor st +u32 1 = MSt.cursor st + 1)%Z ∧ Z.to_nat (MSt.cursor st +u32 1) = S (cur st)
  ∧ (0 ≤ MSt.cursor st + 1 ≤ Z.of_nat (length (nodes st)))%Z.
Proof.
  unfold few_nodes. intros Hfew Hb Hn%lookup_lt_Some. pose proof (bk_cursor _ Hb).
  rewrite u32_add_small by lia. lia.
Qed.

Lemma books_next st n :
  few_nodes st → books st → nodes st !! cur st = Some n → handled st n →
  books (MSt.set_cursor (MSt.cursor st +u32 1) st).
Proof.
  intros Hfew Hb Hn Hh. destruct (cursor_next st n Hfew Hb Hn) as (E & E' & Hr).
  destruct Hb. split; simpl; rewrite ?E', ?(take_next _ _ _ Hn), ?E; try done.
  - intros m [Hm|Hm%list_elem_of_singleton]%elem_of_app; [by apply bk_before0|by subst m].
  - intros m Hm. apply elem_of_app. left. auto.
Qed.

Lemma is_handled_spec st n : is_handled st n = true ↔ handled st n.
Proof. unfold is_handled, handled. by rewrite orb_true_iff, !contains_str_spec. Qed.

Lemma advance_loop_keeps fuel st :
  few_nodes st → books st →
  let st' := advance_loop fuel st in
  books st' ∧ MSt.phase st' = MSt.phase st ∧ plan_of st' = plan_of st
  ∧ (length (nodes st) ≤ fuel + cur st → ∀ n, nodes st' !! cur st' = Some n → ¬ handled st' n).
Proof.
  revert st. induction fuel as [|fuel IH]; intros st Hfew Hb; simpl.
  { do 3 (split; [done|]). intros Hl n Hn%lookup_lt_Some. lia. }
  destruct (nodes st !! cur st) as [name|] eqn:Hn; [|do 3 (split; [done|]); intros _ n Hn'; congruence].
  destruct (is_handled st name) eqn:Hh.
  - apply is_handled_spec in Hh. destruct (cursor_next st name Hfew Hb Hn) as (E & E' & Hr).
    destruct (IH (MSt.set_cursor (MSt.cursor st +u32 1) st)) as (Hb' & Hp & Hpl & Hhd); [done|by eapply books_next|].
    split; [done|]. split; [done|]. split; [by rewrite Hpl|]. intros Hl. apply Hhd. simpl. lia.
  - do 3 (split; [done|]). intros _ n Hn'. rewrite Hn in Hn'. injection Hn' as <-. rewrite <- is_handled_spec. congruence.
Qed.

Lemma finish_keeps st0 st :
  follows_to st0 st → MSt.phase st = MPhase.Draining → post (finish_wave st) (keeps st0).
Proof.
  intros Hf Hp. unfold finish_wave, ask. cbn [mbind tree_bind bind post]. intros now.
  assert (follows_to st0 (MSt.set_last_progress_unix now st)) as Hf' by by apply (follows_frame _ st).
  assert (nodes st ≠ []) as Hne by (apply targets_left; [apply Hf|by rewrite Hp|congruence]).
  case_match eqn:Hc.
  - apply Z.leb_le in Hc. apply complete_keeps; [done| |by right; left]. apply drop_ge. simpl in *. lia.
  - apply enter_keeps; [done|by apply phase_ok_simple|]. unfold plan_of. simpl. rewrite Hp. constructor.
Qed.

Lemma stall_keeps st0 st spec :
  follows_to st0 st → MSt.phase st = MPhase.Draining → (∀ n, nodes st !! cur st = Some n → ¬ handled st n) →
  post (note_stall spec st) (keeps st0).
Proof.
  intros Hf Hp Hh. unfold note_stall, ask. cbn [mbind tree_bind bind post]. intros now.
  assert (nodes st ≠ []) as Hne by (apply targets_left; [apply Hf|by rewrite Hp|congruence]).
  case_match; [|done]. apply enter_keeps; [by apply (follows_frame _ st)|done|].
  unfold plan_of. simpl. rewrite Hp. constructor.
Qed.

Lemma evict_keeps st0 st spec batch :
  follows_to st0 st → post (for_each (evict_pod spec) batch st) (keeps st0).
Proof.
  intros Hf. apply (post_for_each (λ _ s, follows_to st0 s)); [done| |done].
  clear. intros pod rest st Hf. unfold evict_pod. apply post_bind.
  eapply (post_mono _ (λ r, match r with Ok _ => True | Err _ => False end)).
  { by destruct (PdbConfig.respect _). }
  intros [[]|e] Hr; [|done|done]. unfold call, ask. cbn. intros [[]|e]; [|done]. cbn. intros now u.
  by apply (follows_frame _ st).
Qed.

Lemma drain_wave_keeps st0 st spec wave :
  few_nodes st → follows_to st0 st → MSt.phase st = MPhase.Draining →
  (∀ n, n ∈ wave → n ∈ drop (cur st) (nodes st)) → post (drain_wave spec wave st) (keeps st0).
Proof.
  intros Hfew Hf Hp Hw. unfold drain_wave. apply post_bind. eapply post_mono; [by apply drained_keeps|].
  intros [[st1 ev]|e]; [|done]. intros (Hf1 & Hp1 & Hn1).
  assert (few_nodes st1) as Hfew1 by (unfold few_nodes; by rewrite Hn1). pose proof Hf1 as [[Hb1 Hph1] Hl1].
  destruct (advance_loop_keeps (length (nodes st1)) st1 Hfew1 Hb1) as (Hb2 & Hp2 & Hpl & Hhd).
  fold (advance_cursor st1) in *. cbv beta iota zeta.
  assert (nodes st1 ≠ []) as Hne by (apply targets_left; [apply Hf1|by rewrite Hp1|congruence]).
  assert (nodes (advance_cursor st1) = nodes st1) as Hn2 by by injection Hpl.
  assert (follows_to st0 (advance_cursor st1)) as Hf2.
  { split; [split; [done|]|by rewrite Hpl]. rewrite Hp2, Hp1. apply phase_ok_simple; [by rewrite Hn2|done|done]. }
  assert (∀ s, follows_to st0 (MSt.set_progress s (advance_cursor st1))) as Hf3 by (intros s; by apply (follows_frame _ (advance_cursor st1))).
  assert (MSt.phase (advance_cursor st1) = MPhase.Draining) as Hp3 by congruence.
  case_bool_decide; [by apply finish_keeps|]. unfold select_pdb_aware_batch, ask. cbn [mret tree_ret mbind tree_bind bind post]. intros pdbs.
  cbn [mret tree_ret bind].
  case_bool_decide; [|by apply evict_keeps]. apply stall_keeps; [done|done|]. intros n. apply Hhd. lia.
Qed.

Lemma drain_keeps st0 st spec :
  few_nodes st → follows_to st0 st → MSt.phase st = MPhase.Draining → post (step_drain spec st) (keeps st0).
Proof.
  intros Hfew Hf Hp. unfold step_drain. case_bool_decide as Hw.
  { apply complete_keeps; [done|by eapply wave_empty|by right; left]. }
  apply post_bind. eapply (post_mono _ (λ r, match r with Ok _ => True | Err _ => False end)).
  { by destruct (SloVerification.enabled _). }
  intros [[]|e] Hr; [apply abort_keeps; [done|by rewrite Hp]| |done].
  apply drain_wave_keeps; [done..|]. intros n. apply wave_sub.
Qed.

(** *** Stalled *)

Lemma no_result_change (p : prog unit) st0 (f : prog MSt.t) :
  post p (λ r, match r with Ok _ => True | Err e => e ≠ Panicked end) → post f (keeps st0) →
  post (_ ← p; f) (keeps st0).
Proof. intros Hp Hf. apply post_bind. eapply post_mono; [done|]. by intros [u|e]. Qed.

Lemma surge_post spec wave :
  post (for_each (surge_node spec) wave tt) (λ r, match r with Ok _ => True | Err e => e ≠ Panicked end).
Proof.
  apply (post_for_each (λ _ _, True)); [done| |done]. intros n rest u _.
  unfold surge_node, workloads_on_node, ask. cbn [mret tree_ret mbind tree_bind bind post]. intros pods.
  apply (post_for_each (λ _ _, True)); [done| |done]. intros wl rest' u' _.
  unfold surge_workload, call. cbn. by intros [ok|e]; [intros [[]|e]|].
Qed.

(** Giving up the first node of the wave. *)
Lemma skip_keeps st0 st spec :
  few_nodes st → follows_to st0 st → MSt.phase st = MPhase.Stalled → wave_nodes spec st ≠ [] →
  post (st' ← skip_node spec (wave_nodes spec st) st; now ← ask NowUnix;
        enter_phase MPhase.Verifying "StallSkippedNode" (MSt.set_last_progress_unix now st')) (keeps st0).
Proof.
  intros Hfew Hf0 Hp Hw. pose proof Hf0 as [[Hb Hph] Hl]. unfold skip_node.
  destruct (head (wave_nodes spec st)) as [n|] eqn:Hhead; [|by destruct (wave_nodes spec st)].
  assert (nodes st !! cur st = Some n) as Hn.
  { unfold wave_nodes, remaining_nodes in Hhead. rewrite <- (Nat.add_0_r (cur st)), <- lookup_drop.
    destruct (drop _ _) as [|m l]; destruct (Z.to_nat (Z.max _ 1)); done. }
  rewrite Hp in Hph. assert (¬ handled st n) as Hh by by apply Hph.
  destruct (cursor_next st n Hfew Hb Hn) as (E & E' & Hr).
  set (st' := MSt.set_cursor _ _). assert (books st') as Hb'.
  { destruct Hb. unfold handled in Hh. split; unfold st', handled; simpl; rewrite ?E', ?(take_next _ _ _ Hn), ?E; try done.
    - intros m [Hm|Hm%list_elem_of_singleton]%elem_of_app; [|set_solver]. destruct (bk_before0 m Hm); set_solver.
    - set_solver.
    - apply NoDup_app. split; [done|]. split; [set_solver|]. apply NoDup_singleton.
    - intros m Hm. destruct (bk_completed0 m Hm). split; [done|]. set_solver. }
  assert (follows_to st0 (MSt.set_phase MPhase.Verifying st')) as Hf.
  { apply (follows_step _ st); [done| |].
    - unfold plan_of. simpl. rewrite Hp, list_to_set_app_L. simpl. rewrite union_empty_r_L, (union_comm_L _ {[n]}).
      rewrite <- (take_drop_middle _ _ _ Hn). apply life_skip.
      + intros m Hm. by apply handled_union, (bk_before _ Hb).
      + unfold handled in Hh. set_solver.
    - split; [by apply (books_core st')|]. apply phase_ok_simple; [|done|done].
      intros Hnil. change (nodes st = []) in Hnil. by rewrite Hnil in Hn. }
  clearbody st'. apply post_bind, post_bind. eapply (post_mono _ (λ r, match r with Ok _ => True | Err _ => False end)).
  { by destruct (AbortPolicy.uncordon_on_abort _). }
  intros [u|e] Hu; [|done]. unfold ask. cbn. intros now. intros. by apply (follows_frame _ (MSt.set_phase MPhase.Verifying st')).
Qed.

Lemma stalled_keeps st0 st spec :
  few_nodes st → follows_to st0 st → MSt.phase st = MPhase.Stalled → post (step_stalled spec st) (keeps st0).
Proof.
  intros Hfew Hf Hp. unfold step_stalled. case_bool_decide as Hw.
  { apply complete_keeps; [done|by eapply wave_empty|by right; right]. }
  assert (nodes st ≠ []) as Hne by (apply targets_left; [apply Hf|by rewrite Hp|congruence]).
  destruct (PdbConfig.stall_recovery _).
  - apply no_result_change; [apply surge_post|]. unfold ask. cbn [mbind tree_bind bind post]. intros now.
    apply enter_keeps; [by apply (follows_frame _ st)|by apply phase_ok_simple|]. unfold plan_of. simpl. rewrite Hp. constructor.
  - by apply skip_keeps.
  - apply abort_keeps; [done|by rewrite Hp].
Qed.

(** *** The pass *)

Lemma step_keeps st0 st spec :
  few_nodes st → follows_to st0 st → nodes st ≠ [] → post (step spec st) (keeps st0).
Proof.
  intros Hfew Hf Hn. unfold step. destruct (MSt.phase st) eqn:Hp; try done.
  { destruct (PrewarmConfig.enabled _); (apply enter_keeps; [done|by apply phase_ok_simple|]);
      unfold plan_of; simpl; rewrite Hp; apply life_start; auto. }
  all: first [by apply prewarm_keeps|by apply verify_keeps|by apply drain_keeps|by apply stalled_keeps].
Qed.

Lemma measure_keeps st0 st : follows_to st0 st → post (measure_pass st) (keeps st0).
Proof.
  intros Hf. unfold measure_pass, ask. cbn. intros n1 n2. by case_match; cbn; intros; apply (follows_frame _ st).
Qed.

Lemma no_elem_nil {A} (l : list A) : (∀ x, x ∉ l) → l = [].
Proof. destruct l as [|x l]; [done|]. intros H. destruct (H x). by left. Qed.

Lemma resolve_targets_nodup spec ns : NoDup (resolve_targets spec ns).
Proof.
  apply BTreeSet.NoDup_to_list, BTreeSet.fold_sorted. unfold BTreeSet.of_list.
  apply (BTreeSet.fold_sorted (λ x, x)). constructor.
Qed.

(** A plan without targets has recorded nothing, so any targets will do. *)
Lemma books_targets st ns : books st → nodes st = [] → NoDup ns → books (MSt.set_resolved_nodes ns st).
Proof.
  intros [] Hn Hns. rewrite Hn in *. simpl in *. rewrite take_nil in *.
  assert (MSt.nodes_failed st = []) as Hf by (apply no_elem_nil; set_solver).
  assert (MSt.nodes_completed st = []) as Hc by (apply no_elem_nil; set_solver).
  assert (MSt.cordoned_nodes st = []) as Hk by (apply no_elem_nil; set_solver).
  assert (MSt.cursor st = 0%Z) as H0 by lia.
  split; unfold handled; simpl; rewrite ?Hf, ?Hc, ?Hk, ?H0; try done; try set_solver. simpl. lia.
Qed.

(** Resolving gives a plan its targets, or ends it. *)
Lemma resolve_keeps st0 st spec :
  follows_to st0 st → MSt.phase st = MPhase.Planned → nodes st = [] →
  post (resolve spec st) (λ r, match r with
    | Ok (inl st') => follows_to st0 st' ∧ MSt.phase st' = MPhase.Planned ∧ nodes st' ≠ []
    | Ok (inr st') => follows_to st0 st'
    | Err e => e ≠ Panicked
    end).
Proof.
  intros Hf Hp Hn. unfold resolve. apply post_bind. eapply post_mono; [apply enter_phase_post|].
  intros [st1|e]; [|done]. intros [Hc1 Hp1]. unfold ask. cbn [mbind tree_bind bind post]. intros ns.
  assert (follows_to st0 st1) as Hf1 by (apply (follows_frame _ st); [done|congruence|done]).
  assert (nodes st1 = []) as Hn1 by by injection Hc1 as ->. clear Hf Hp Hn Hc1 st. cbv zeta.
  set (st2 := MSt.set_resolved_nodes _ _). case_bool_decide as Hnil.
  - apply post_bind. unfold fail_plan. apply post_bind. eapply post_mono.
    { apply (enter_keeps st0); [|split; [by right|done]|].
      - apply (follows_frame _ st1); [|done|done]. unfold core, st2. simpl. unfold st2 in Hnil. simpl in Hnil. by rewrite Hnil, Hn1.
      - unfold plan_of. simpl. unfold st2 in *. simpl in *. rewrite Hp1, Hnil. constructor. }
    intros [st3|e] Hk; [|done]. cbn. by apply (follows_frame _ st3).
  - assert (follows_to st0 st2) as Hf2.
    { apply (follows_step _ st1); [done| |].
      - unfold plan_of. simpl. rewrite Hp1, Hn1. apply life_targets; [done|]. apply resolve_targets_nodup.
      - split; [apply books_targets; [apply Hf1|done|apply resolve_targets_nodup]|].
        change (MSt.phase st2) with (MSt.phase st1). rewrite Hp1. by apply phase_ok_simple. }
    cbn. intros now. case_match; cbn; intros;
      (split; [by apply (follows_frame _ st2)|]; by split).
Qed.

Definition ends_well (st0 : MSt.t) (r : result ReconcileOutcome Failure) : Prop :=
  match r with Ok out => follows_to st0 (out_status out) | Err e => e ≠ Panicked end.

Lemma finish_pass st0 (p : prog MSt.t) :
  post p (keeps st0) →
  post (st' ← p; st'' ← measure_pass st';
        mret (outcome st'' (if MPhase.is_terminal (MSt.phase st'') then 300 else 2)%Z)) (ends_well st0).
Proof.
  intros Hp. apply post_bind. eapply post_mono; [done|]. intros [st1|e] H1; [|done].
  apply post_bind. eapply post_mono; [by apply measure_keeps|]. by intros [st2|e] H2.
Qed.

Lemma pass_keeps spec st gen :
  well_formed st → few_nodes st → post (reconcile_plan spec st gen) (ends_well st).
Proof.
  intros Hw Hfew. unfold reconcile_plan. destruct (MSpec.validate spec) as [[]|m]; [|done].
  unfold ask. cbn [mbind tree_bind bind post]. intros now. fold (stamped st now gen). cbv zeta.
  assert (follows_to st (stamped st now gen)) as Hf by by apply (follows_frame _ st); [..|split].
  change (MSt.phase (stamped st now gen)) with (MSt.phase st).
  destruct (_ && _) eqn:Ha.
  { apply andb_prop in Ha as [_ Ht%negb_true_iff]. apply post_bind. eapply post_mono; [by apply abort_keeps|].
    by intros [st1|e] H1. }
  destruct (MPhase.is_terminal (MSt.phase st)) eqn:Ht; [done|]. apply post_bind.
  case_bool_decide as Hn.
  - assert (MSt.phase (stamped st now gen) = MPhase.Planned) as Hp.
    { destruct Hw as [_ (Hnil & _)]. destruct (Hnil Hn); [done|congruence]. }
    eapply post_mono; [by apply resolve_keeps|]. intros [[st1|st1]|e]; [|done|done].
    intros (H1 & Hp1 & Hn1). apply finish_pass. unfold step. rewrite Hp1.
    destruct (PrewarmConfig.enabled _); (apply enter_keeps; [done|by apply phase_ok_simple|]);
      unfold plan_of; simpl; rewrite Hp1; apply life_start; auto.
  - cbn [mret tree_ret post]. by apply finish_pass, step_keeps.
Qed.

(** The statuses a plan can have: any sequence of passes, each with its own spec. *)
Inductive reachable : MSt.t → Prop :=
| reachable_new : reachable MSt.default
| reachable_pass spec st gen tr out :
    reachable st → few_nodes st → exec (reconcile_plan spec st gen) tr (Ok out) → reachable (out_status out).

Lemma well_formed_new : well_formed MSt.default.
Proof.
  split; [split; simpl|]; try (by constructor); try (by intros ? ?%not_elem_of_nil); try lia.
  split; [by left|by split].
Qed.

Lemma reachable_well_formed st : reachable st → well_formed st.
Proof.
  induction 1 as [|spec st gen tr out _ IH Hfew Hex]; [apply well_formed_new|].
  by apply (post_exec _ _ _ _ (pass_keeps spec st gen IH Hfew)) in Hex as [? _].
Qed.

(** C34: A plan's recorded status is well formed in every reachable state, whatever
    the backends answered and the specs said: the cursor is within the targets,
    which are distinct; every node before it is drained or given up, and no node is
    both; nothing is recorded twice, or recorded of a node that is not a target; a
    plan past planning has targets, a stalled one has an unhandled node at the
    cursor, and a completed one has handled every target. *)
Theorem reachable_statuses_are_well_formed st : reachable st → well_formed st.
Proof.
  induction 1 as [|spec st gen tr out _ IH Hfew Hex]; [apply well_formed_new|].
  by apply (post_exec _ _ _ _ (pass_keeps spec st gen IH Hfew)) in Hex as [? _].
Qed.

Lemma reachable_plan st : reachable st → rtc lifecycle new_plan (plan_of st).
Proof.
  induction 1 as [|spec st gen tr out Hst IH Hfew Hex]; [done|]. etransitivity; [done|].
  by apply (post_exec _ _ _ _ (pass_keeps spec st gen (reachable_well_formed _ Hst) Hfew)) in Hex as [_ ?].
Qed.

(** C24: The engine refines the abstract life of a plan.  A pass from a reachable
    status, against every backend, either ends in an error that is not a panic and
    records nothing, or goes from the plan the status stands for to the one the new
    status stands for by transitions of the specification.  So what is recorded only
    grows, a plan that has ended stays as it is, no node is both drained and given
    up, and a completed plan has drained or given up every target. *)
Theorem passes_refine_the_lifecycle spec st gen tr r :
  reachable st → few_nodes st → exec (reconcile_plan spec st gen) tr r →
  match r with
  | Ok out => rtc lifecycle (plan_of st) (plan_of (out_status out))
              ∧ plan_le (plan_of st) (plan_of (out_status out)) ∧ plan_ok (plan_of (out_status out))
  | Err e => e ≠ Panicked
  end.
Proof.
  intros Hst Hfew Hex.
  apply (post_exec _ _ _ _ (pass_keeps spec st gen (reachable_well_formed _ Hst) Hfew)) in Hex.
  destruct r as [out|e]; [|done]. destruct Hex as [_ Hl]. split; [done|]. split; [by apply lifecycles_le|].
  eapply lifecycles_ok; [done|]. eapply lifecycles_ok; [by apply reachable_plan|]. apply new_plan_ok.
Qed.
