(* ===== verification/MaintenanceProps.v ===== *)
(** * Planned maintenance: aborts, and the controller

    Why a plan is aborted; what the engine's theorems say of the controller that runs
    it on a listing of the cluster ([SnapshotOps]); and a run of the simulated cluster
    that evicts from a node that was never cordoned. *)

From stdpp Require Import prelude strings gmap list.
From Stdlib Require Import SpecFloat.
From S2P Require Import Prelude RustStr Float64 Conditions BTreeMap Prog MaintenanceTypes Maintenance MaintenanceBackends MaintenanceFacts MaintenancePlans.

(** ** Aborts *)

Definition not_aborted (r : result MSt.t Failure) : Prop :=
  match r with Ok st => MSt.phase st ≠ MPhase.Aborted | Err _ => True end.

Lemma enter_not_aborted ph reason st : ph ≠ MPhase.Aborted → post (enter_phase ph reason st) not_aborted.
Proof. intros Hph. eapply post_mono; [apply enter_phase_post|]. intros [st'|e]; [|done]. intros [_ <-]. done. Qed.

Lemma cordons_not_aborted wave st :
  MSt.phase st ≠ MPhase.Aborted → post (for_each cordon_node wave st) not_aborted.
Proof.
  intros Hp. apply (post_for_each (λ _ s, MSt.phase s ≠ MPhase.Aborted)); [done| |done].
  clear. intros n rest s Hs. unfold cordon_node, call, ask. case_match; cbn; [done|]. by intros [[]|e]; cbn.
Qed.

Lemma evictions_not_aborted spec batch st :
  MSt.phase st ≠ MPhase.Aborted → post (for_each (evict_pod spec) batch st) not_aborted.
Proof.
  intros Hp. apply (post_for_each (λ _ s, MSt.phase s ≠ MPhase.Aborted)); [done| |done].
  clear. intros pod rest s Hs. unfold evict_pod, eviction_respects_pdb, call, ask. apply post_bind.
  destruct (PdbConfig.respect _); cbn; [intros pdbs; destruct (budgets_allow _ _)|]; cbn; try done;
    by intros [[]|e]; cbn.
Qed.

Lemma prewarm_not_aborted spec st :
  MSt.phase st ≠ MPhase.Aborted → post (step_prewarm spec st) not_aborted.
Proof.
  intros Hp. unfold step_prewarm, workloads_on_remaining. apply post_bind. case_match; [done|].
  unfold ask. cbn. intros pods. apply post_bind.
  apply (post_for_each (λ _ acc, MSt.phase (fst acc) ≠ MPhase.Aborted)); [done| |].
  - clear. intros wl rest [s ready] Hs. unfold prewarm_workload, call, ask. cbn. intros [ok|e]; [|done].
    cbn. by destruct (ok && _); cbn.
  - intros [s []] Hs; [by apply enter_not_aborted|done].
Qed.

Lemma advance_phase fuel st : MSt.phase (advance_loop fuel st) = MSt.phase st.
Proof.
  revert st. induction fuel as [|fuel IH]; intros st; simpl; [done|]. repeat case_match; try done. by rewrite IH.
Qed.

Lemma drain_wave_not_aborted spec wave st :
  MSt.phase st ≠ MPhase.Aborted → post (drain_wave spec wave st) not_aborted.
Proof.
  intros Hp. unfold drain_wave. apply post_bind.
  apply (post_for_each (λ _ acc, MSt.phase (fst acc) ≠ MPhase.Aborted)); [done| |].
  - clear. intros n rest [s ev] Hs. unfold drain_node, pods_on_node, ask. cbn. intros pods.
    case_bool_decide; cbn; [|done]. by case_match.
  - clear. intros [s ev] Hs. cbn [fst] in Hs. rewrite <- (advance_phase (length (MSt.resolved_nodes s))) in Hs.
    fold (advance_cursor s) in Hs. cbv beta iota zeta. case_bool_decide.
    + unfold finish_wave, ask. cbn [mbind tree_bind bind post]. intros now.
      case_match; by apply enter_not_aborted.
    + unfold select_pdb_aware_batch, ask. cbn [mbind tree_bind bind post mret tree_ret]. intros pdbs.
      cbn [mret tree_ret bind]. case_bool_decide; [|by apply evictions_not_aborted].
      unfold note_stall, ask. cbn [mbind tree_bind bind post]. intros now. case_match; [by apply enter_not_aborted|done].
Qed.

(** The reading of the service level that stops a plan. *)
Definition breach_seen (spec : MSpec.t) (h : list event) : Prop :=
  SloVerification.enabled (MSpec.slo spec) = true ∧ ∃ sample, Ev Slo sample ∈ h ∧ slo_breached spec sample = true.

(** Why a pass aborts the plan. *)
Definition abort_reason (spec : MSpec.t) (st : MSt.t) (h : list event) : Prop :=
  (MSt.phase st = MPhase.Stalled ∧ PdbConfig.stall_recovery (MSpec.pdb spec) = StallRecovery.Abort)
  ∨ ((MSt.phase st = MPhase.Verifying ∨ MSt.phase st = MPhase.Draining) ∧ breach_seen spec h).

Definition aborted_for (spec : MSpec.t) (st : MSt.t) (h : list event) (r : result MSt.t Failure) : Prop :=
  match r with Ok st' => MSt.phase st' = MPhase.Aborted → abort_reason spec st h | Err _ => True end.

Abbreviation wp_any := (wp (λ _ _, True)).

Lemma wp_of_post {A} (p : prog A) (Q : result A Failure → Prop) h : post p Q → wp_any p (λ _ r, Q r) h.
Proof. revert h. induction p as [a|e|X op k IH]; intros h; simpl; [done|done|]. intros Hp x. split; [done|]. by apply IH. Qed.

Lemma wp_not_aborted spec st p h : post p not_aborted → wp_any p (aborted_for spec st) h.
Proof. intros Hp. eapply wp_mono; [by apply wp_of_post|]. intros tr [s|e] Hs; [|done]. intros Ha. by destruct Hs. Qed.

Lemma abort_for spec st reason st' h :
  (∀ tr, abort_reason spec st (h ++ tr)) → wp_any (abort_plan spec reason st') (aborted_for spec st) h.
Proof.
  intros Hr. eapply wp_mono; [apply wp_of_post, (post_true (abort_plan spec reason st'))|].
  intros tr [s|e] _; [|done]. intros _. apply Hr.
Qed.

Lemma breach_app spec sample h tr :
  SloVerification.enabled (MSpec.slo spec) = true → slo_breached spec sample = true →
  breach_seen spec ((h ++ [Ev Slo sample]) ++ tr).
Proof. intros He Hb. split; [done|]. exists sample. split; [set_solver|done]. Qed.

Lemma verify_aborts spec st st' h :
  MSt.phase st = MPhase.Verifying → MSt.phase st' = MPhase.Verifying →
  wp_any (step_verify spec st') (aborted_for spec st) h.
Proof.
  intros Hp Hp'. unfold step_verify, ask. apply wp_bind. cbn [wp]. intros sample. split; [done|]. cbn [wp then_].
  cbv zeta. destruct (SloVerification.enabled _ && _) eqn:Hs.
  { apply andb_prop in Hs as [He Hb]. apply abort_for. intros tr. right. split; [by left|]. by apply breach_app. }
  apply wp_not_aborted. clear Hs. set (st1 := MSt.set_last_availability _ _).
  assert (MSt.phase st1 ≠ MPhase.Aborted) as H1 by (simpl; congruence). clearbody st1.
  case_bool_decide.
  - apply post_bind. eapply post_mono; [by apply enter_not_aborted|]. by intros [s|e].
  - apply post_bind. eapply post_mono; [apply post_true|]. intros [[]|e] _; [by apply enter_not_aborted| |done].
    apply post_bind. eapply post_mono; [by apply cordons_not_aborted|]. intros [s|e] Hs; [|done].
    apply post_bind. eapply post_mono; [by apply enter_not_aborted|]. intros [s'|e] Hs'; [by intros now|done].
Qed.

Lemma drain_aborts spec st st' h :
  MSt.phase st = MPhase.Draining → MSt.phase st' = MPhase.Draining →
  wp_any (step_drain spec st') (aborted_for spec st) h.
Proof.
  intros Hp Hp'. unfold step_drain. case_bool_decide; [by apply wp_not_aborted, enter_not_aborted|].
  assert (post (drain_wave spec (wave_nodes spec st') st') not_aborted) as Hd.
  { apply drain_wave_not_aborted. congruence. }
  destruct (SloVerification.enabled (MSpec.slo spec)) eqn:He; [|by apply wp_not_aborted].
  unfold ask. cbn [mbind tree_bind bind wp mret tree_ret]. intros sample. split; [done|].
  destruct (slo_breached spec sample) eqn:Hb; cbn [bind mret tree_ret]; [|by apply wp_not_aborted].
  apply abort_for. intros tr. right. split; [by right|]. by apply breach_app.
Qed.

Lemma stalled_aborts spec st st' h :
  MSt.phase st = MPhase.Stalled → wp_any (step_stalled spec st') (aborted_for spec st) h.
Proof.
  intros Hp. unfold step_stalled. case_bool_decide; [by apply wp_not_aborted, enter_not_aborted|].
  destruct (PdbConfig.stall_recovery _) eqn:Hr.
  - apply wp_not_aborted, post_bind. eapply post_mono; [apply post_true|]. intros [u|e] _; [|done].
    unfold ask. cbn [mbind tree_bind bind post]. intros now. by apply enter_not_aborted.
  - apply wp_not_aborted, post_bind. eapply post_mono; [apply post_true|]. intros [s|e] _; [|done].
    unfold ask. cbn [mbind tree_bind bind post]. intros now. by apply enter_not_aborted.
  - apply abort_for. intros tr. by left.
Qed.

Lemma step_aborts spec st st' h :
  MSt.phase st' = MSt.phase st → MPhase.is_terminal (MSt.phase st) = false →
  wp_any (step spec st') (aborted_for spec st) h.
Proof.
  intros Hp Ht. unfold step. rewrite Hp. destruct (MSt.phase st) eqn:E; try done.
  - apply wp_not_aborted. case_match; by apply enter_not_aborted.
  - apply wp_not_aborted, prewarm_not_aborted. congruence.
  - by apply drain_aborts.
  - by apply stalled_aborts.
  - by apply verify_aborts.
Qed.

(** What the controller needs of a pass: the aborted outcome and its reasons. *)
Definition abort_justified (spec : MSpec.t) (st : MSt.t) (h : list event) (r : result ReconcileOutcome Failure) : Prop :=
  match r with
  | Ok out => MSt.phase (out_status out) = MPhase.Aborted →
      MSt.phase st = MPhase.Aborted ∨ AbortPolicy.requested (MSpec.abort spec) = true ∨ abort_reason spec st h
  | Err _ => True
  end.

Lemma abort_reason_app spec st h tr : abort_reason spec st h → abort_reason spec st (h ++ tr).
Proof.
  intros [?|[Hp [He (sample & Hin & Hb)]]]; [by left|]. right. split; [done|]. split; [done|].
  exists sample. set_solver.
Qed.

Lemma measure_phase st : post (measure_pass st) (λ r, match r with Ok s => MSt.phase s = MSt.phase st | Err _ => True end).
Proof. unfold measure_pass, ask. cbn. intros n1 n2. by case_match; cbn. Qed.

Lemma pass_aborts spec st (p : prog MSt.t) h :
  wp_any p (aborted_for spec st) h →
  wp_any (st' ← p; st'' ← measure_pass st';
    mret (outcome st'' (if MPhase.is_terminal (MSt.phase st'') then 300 else 2)%Z)) (abort_justified spec st) h.
Proof.
  intros Hp. apply wp_bind. eapply wp_mono; [done|]. intros tr [s|e] Hs; [|done]. cbn [then_].
  apply wp_bind. eapply wp_mono; [apply wp_of_post, measure_phase|]. intros tr' [s'|e] Hs'; [|done].
  cbn. rewrite Hs'. intros Ha. right. right. apply abort_reason_app. by apply Hs.
Qed.

Lemma reconcile_aborts spec st gen : wp_any (reconcile_plan spec st gen) (abort_justified spec st) [].
Proof.
  unfold reconcile_plan. destruct (MSpec.validate spec); [|done]. apply wp_bind. unfold ask. cbn [wp].
  intros now. split; [done|]. cbn [wp then_]. fold (stamped st now gen). cbv zeta.
  change (MSt.phase (stamped st now gen)) with (MSt.phase st).
  destruct (AbortPolicy.requested (MSpec.abort spec)) eqn:Hreq.
  { eapply wp_mono; [apply wp_of_post, post_true|]. intros tr [out|e] _; [|done]. intros _. right. by left. }
  cbn [andb]. destruct (MPhase.is_terminal (MSt.phase st)) eqn:Ht; [by left|]. apply wp_bind.
  case_bool_decide as Hn.
  - eapply wp_mono; [apply wp_of_post|].
    { unfold resolve. apply post_bind. eapply post_mono; [apply enter_phase_post|]. intros [s|e]; [|done]. intros [_ Hs].
      unfold ask. cbn [mbind tree_bind bind post]. intros ns. cbv zeta. case_bool_decide.
      - apply post_bind. unfold fail_plan. apply post_bind. eapply post_mono; [apply enter_phase_post|].
        intros [s'|e]; [|done]. intros [_ Hs']. cbn [mret tree_ret post].
        instantiate (1 := λ r, match r with
          | Ok (inl s) => MSt.phase s = MPhase.Planned
          | Ok (inr s) => MSt.phase s ≠ MPhase.Aborted
          | Err _ => True
          end). cbn. congruence.
      - cbn. intros t. by case_match; cbn. }
    intros tr [[s|s]|e] Hs; cbn [then_]; [|by intros Ha|done].
    apply pass_aborts, wp_not_aborted. unfold step. rewrite Hs. case_match; by apply enter_not_aborted.
  - cbn [mret tree_ret wp then_]. by apply pass_aborts, step_aborts.
Qed.

(** Plans are aborted for a reason.  Against every backend, a pass that leaves a
    plan aborted found it so, or the spec asks for the abort, or the plan was stalled
    and its recovery is to abort, or it was verifying or draining and the pass read
    a service level beyond the limits. *)
Theorem aborts_have_a_reason spec st gen tr out :
  exec (reconcile_plan spec st gen) tr (Ok out) → MSt.phase (out_status out) = MPhase.Aborted →
  MSt.phase st = MPhase.Aborted ∨ AbortPolicy.requested (MSpec.abort spec) = true
  ∨ (MSt.phase st = MPhase.Stalled ∧ PdbConfig.stall_recovery (MSpec.pdb spec) = StallRecovery.Abort)
  ∨ ((MSt.phase st = MPhase.Verifying ∨ MSt.phase st = MPhase.Draining) ∧ breach_seen spec tr).
Proof.
  intros Hex Ha. apply wp_sound with (1 := reconcile_aborts spec st gen) in Hex as [_ Hj]. by apply Hj.
Qed.

(** ** The controller *)

(** The engine run on a snapshot: its events are answered from the listings, and its
    writes are recorded in order. *)
Definition pending_of (e : event) : option PendingOp :=
  match e with
  | Ev (Prewarm wl buffer) _ => Some (PPrewarm wl buffer)
  | Ev (Cordon node) _ => Some (PCordon node)
  | Ev (Uncordon node) _ => Some (PUncordon node)
  | Ev (Evict pod) _ => Some (PEvict (WorkloadPod.namespace pod) (WorkloadPod.name pod))
  | Ev (RecoverWorkload wl) _ => Some (PRecover wl)
  | Ev (RecordEvent reason message) _ => Some (PEvent reason message)
  | _ => None
  end.

(** Answers of a snapshot. *)
Definition from_snapshot (s : SnapshotOps.t) (e : event) : Prop :=
  match e with
  | Ev ListPods pods => ∀ pod, pod ∈ pods → pod ∈ SnapshotOps.pods s
  | Ev ListPdbs pdbs => pdbs = SnapshotOps.pdbs s
  | Ev Slo sample => sample = SloSample.mk f64_zero (f64_of_Z 1)
  | _ => True
  end.

(** The listings only lose pods. *)
Definition snapshot_le (s s' : SnapshotOps.t) : Prop :=
  (∀ pod, pod ∈ SnapshotOps.pods s' → pod ∈ SnapshotOps.pods s) ∧ SnapshotOps.pdbs s' = SnapshotOps.pdbs s.

#[global] Instance snapshot_le_preorder : PreOrder snapshot_le.
Proof.
  split; [by intros s|]. intros s1 s2 s3 [Hp Hb] [Hp' Hb']. split; [auto|congruence].
Qed.

Lemma from_snapshot_le s s' e : snapshot_le s s' → from_snapshot s' e → from_snapshot s e.
Proof.
  intros [Hp Hb]. destruct e as [X op x]. destruct op; simpl; auto. by intros ->.
Qed.

Lemma handle_ok (X : Set) (op : Op X) s tr x s' :
  exec (snapshot_handle X op s) tr (Ok (x, s')) →
  from_snapshot s (Ev op x) ∧ snapshot_le s s'
  ∧ SnapshotOps.pending s' = SnapshotOps.pending s ++ option_list (pending_of (Ev op x)).
Proof.
  intros Hex. destruct op; simpl in Hex; try (apply exec_inv in Hex as (t & tr' & -> & Hex));
    apply exec_ret_ok in Hex as [_ [= -> ->]]; simpl; rewrite ?app_nil_r; try done.
  split; [done|]. split; [|done]. split; [|done]. simpl. intros p [? _]%elem_of_lfilter. done.
Qed.

(** An execution of the lowered engine is one of the engine. *)
Lemma lower_exec {A} (p : prog A) s tr a s' :
  exec (lower p s) tr (Ok (a, s')) →
  ∃ t, exec p t (Ok a) ∧ (∀ e, e ∈ t → from_snapshot s e)
    ∧ SnapshotOps.pending s' = SnapshotOps.pending s ++ omap pending_of t.
Proof.
  revert s tr. induction p as [b|e|X op k IH]; intros s tr Hex; simpl in Hex.
  - apply exec_ret_ok in Hex as [_ [= -> ->]]. exists []. split; [constructor|]. split; [by intros e ?%not_elem_of_nil|].
    simpl. by rewrite app_nil_r.
  - by apply exec_inv in Hex as [_ ?].
  - apply exec_bind_ok in Hex as ([x s1] & t1 & t2 & -> & Hh & Hex). apply handle_ok in Hh as (Hf & Hle & Hpend).
    destruct (IH _ _ _ Hex) as (t & Ht & Hev & Hp). cbn [fst snd] in *. exists (Ev op x :: t). split; [by constructor|]. split.
    + intros e [->|He]%elem_of_cons; [done|]. eapply from_snapshot_le; [done|]. auto.
    + rewrite Hp, Hpend, <- app_assoc. f_equal. cbn [omap list_omap]. by destruct (pending_of (Ev op x)).
Qed.

(** The evictions the controller requests are those the engine asked for. *)
Definition eviction_request (e : Prog.event ApiOp) : option (string * string) :=
  match e with Ev (EvictRequest namespace name) _ => Some (namespace, name) | _ => None end.
Definition status_written (e : Prog.event ApiOp) : option MSt.t :=
  match e with Ev (PatchPlanStatus st) _ => Some st | _ => None end.

Definition no_eviction_request : Prog.op_pred ApiOp := λ X op, match op with EvictRequest _ _ => false | _ => true end.
Definition no_status_write : Prog.op_pred ApiOp := λ X op, match op with PatchPlanStatus _ => false | _ => true end.

Lemma load_ok tr s :
  exec load tr (Ok s) → ∃ nodes pods pdbs,
    tr = [Ev ListNodeObjects (Ok nodes); Ev ListPodObjects (Ok pods); Ev ListPdbObjects pdbs]
    ∧ s = SnapshotOps.mk (load_node <$> nodes) (omap load_pod pods)
            (load_pdb <$> match pdbs with Ok l => l | Err _ => [] end) 0 0 [].
Proof.
  unfold load, api_call. intros Hex. cbn in Hex.
  apply exec_inv in Hex as ([nodes|e] & t1 & -> & Hex); [|by apply exec_inv in Hex as [_ ?]]. cbn in Hex.
  apply exec_inv in Hex as ([pods|e] & t2 & -> & Hex); [|by apply exec_inv in Hex as [_ ?]]. cbn in Hex.
  apply exec_inv in Hex as (pdbs & t3 & -> & [-> ->]%exec_ret_ok). by exists nodes, pods, pdbs.
Qed.

Ltac unfold_api :=
  unfold load, snapshot_handle, apply_ops, apply_op, scale_deployments, scale_deployment, api_call, attempt.

Lemma lower_ops {A} (f : Prog.op_pred ApiOp) (p : prog A) s :
  f _ SystemTimeSecs = true → f _ ElapsedMs = true → f _ UtcText = true → all_ops f (lower p s).
Proof.
  intros H1 H2 H3. revert s. induction p as [a|e|X op k IH]; intros s; simpl; [done|done|].
  apply all_ops_bind; [|intros; apply IH]. by destruct op.
Qed.

Lemma scaled_ops (f : Prog.op_pred ApiOp) wl buffer :
  f _ ListDeployments = true → (∀ n d b r, f _ (PatchReplicas n d b r) = true) →
  all_ops f (ignore_errors (scale_deployments wl buffer)).
Proof.
  intros H1 H2. apply all_ops_ignore. unfold scale_deployments, api_call. cbn. split; [done|]. intros [l|e]; [|done]. cbn.
  apply all_ops_for_each. intros [] d. unfold scale_deployment. by repeat case_match.
Qed.

(** What applying the recorded writes evicts. *)
Lemma apply_evicts pending tr r ns name x :
  exec (apply_ops pending) tr r → Ev (EvictRequest ns name) x ∈ tr → PEvict ns name ∈ pending.
Proof.
  unfold apply_ops. intros Hex Hin.
  assert (wp (λ _ e, match e with Ev (EvictRequest ns name) _ => PEvict ns name ∈ pending | _ => True end)
    (for_each apply_op pending tt) (λ _ _, True) []) as Hwp.
  { apply (wp_for_each _ (λ rest _ _, ∀ op, op ∈ rest → op ∈ pending)); [done| |done].
    intros op rest [] h Hrest. assert (op ∈ pending) as Hop by (apply Hrest; by left).
    assert (∀ o, o ∈ rest → o ∈ pending) as Hr by (intros o Ho; apply Hrest; by right).
    destruct op; try (by intros y);
      (apply (wp_all_ops no_eviction_request); [by apply scaled_ops| |by intros tr' [[]|e]]);
      intros tr' e He; destruct e as [X o y]; by destruct o. }
  apply wp_sound with (2 := Hex) in Hwp as [Hev _]. apply list_elem_of_split in Hin as (t1 & t2 & ->).
  by apply (Hev t1 _ t2 eq_refl).
Qed.

Definition snapshot_of (nodes : list NodeObject.t) (pods : list PodObject.t) (pdbs : result (list PdbObject.t) Error)
    : SnapshotOps.t :=
  SnapshotOps.mk (load_node <$> nodes) (omap load_pod pods)
    (load_pdb <$> match pdbs with Ok l => l | Err _ => [] end) 0 0 [].

(** An eviction or a status write of the controller comes from a pass of the engine
    on its listings. *)
Lemma controller_pass spec status gen tr r e :
  exec (reconcile spec status gen) tr r → e ∈ tr → eviction_request e ≠ None ∨ status_written e ≠ None →
  ∃ nodes pods pdbs t out,
    Ev ListPodObjects (Ok pods) ∈ tr ∧ Ev ListPdbObjects pdbs ∈ tr
    ∧ exec (reconcile_plan spec (default MSt.default status) (default 0%Z gen)) t (Ok out)
    ∧ (∀ e', e' ∈ t → from_snapshot (snapshot_of nodes pods pdbs) e')
    ∧ (∀ ns name, eviction_request e = Some (ns, name) → PEvict ns name ∈ omap pending_of t)
    ∧ (∀ st', status_written e = Some st' → st' = out_status out).
Proof.
  set (quiet := λ (X : Set) (op : ApiOp X), match op with EvictRequest _ _ | PatchPlanStatus _ => false | _ => true end).
  intros Hex Hin Hkind. unfold reconcile in Hex.
  assert (∀ {A} (p : api_prog A) t r', all_ops quiet p → exec p t r' → e ∈ t → False) as Hquiet.
  { intros A p t r' Hp Hr He. eapply all_ops_exec in Hp; [|done..]. destruct e as [X op x]; destruct op; naive_solver. }
  assert (all_ops quiet load) as Hload by (unfold_api; ops).
  apply exec_bind in Hex as [(ops & t1 & t2 & -> & Hl & Hex)|(f & Hl & ->)]; [|by destruct (Hquiet _ _ _ _ Hload Hl)].
  pose proof (load_ok _ _ Hl) as (nodes & pods & pdbs & Ht1 & Hs).
  apply elem_of_app in Hin as [Hin|Hin]; [by destruct (Hquiet _ _ _ _ Hload Hl)|].
  assert (all_ops quiet (lower (reconcile_plan spec (default MSt.default status) (default 0%Z gen)) ops)) as Hlow by by apply lower_ops.
  apply exec_bind in Hex as [([out ops'] & t3 & t4 & -> & Hr & Hex)|(f & Hr & ->)]; [|by destruct (Hquiet _ _ _ _ Hlow Hr)].
  apply elem_of_app in Hin as [Hin|Hin]; [by destruct (Hquiet _ _ _ _ Hlow Hr)|].
  apply lower_exec in Hr as (t & Ht & Hev & Hp). exists nodes, pods, pdbs, t, out.
  split; [rewrite Ht1; set_solver|]. split; [rewrite Ht1; set_solver|]. split; [done|].
  split; [by rewrite Hs in Hev|]. rewrite Hs in Hp. cbn [SnapshotOps.pending app] in Hp. split.
  - intros ns name He. destruct e as [X op x]. destruct op; try done. simpl in He. injection He as -> ->.
    rewrite <- Hp. apply exec_bind in Hex as [(u & t5 & t6 & -> & Ha & Hex)|(f & Ha & ->)]; [|by eapply apply_evicts].
    apply elem_of_app in Hin as [Hin|Hin]; [by eapply apply_evicts|].
    assert (all_ops no_eviction_request (_ ← api_call (PatchPlanStatus (out_status out)); mret (requeue_seconds out))) as Ho.
    { split; [done|]. by intros [[]|f]. }
    eapply all_ops_exec in Ho; [|done|exact Hin]. done.
  - intros st' He. destruct e as [X op x]. destruct op; try done. simpl in He. injection He as <-.
    assert (all_ops no_status_write (apply_ops (SnapshotOps.pending ops'))) as Hap.
    { apply all_ops_for_each. intros [] o. destruct o; try done; by apply scaled_ops. }
    apply exec_bind in Hex as [(u & t5 & t6 & -> & Ha & Hex)|(f & Ha & ->)]; [|by eapply all_ops_exec in Hap; [|done|exact Hin]].
    apply elem_of_app in Hin as [Hin|Hin]; [by eapply all_ops_exec in Hap; [|done|exact Hin]|].
    cbn in Hex. apply exec_inv in Hex as (y & t7 & -> & Hex). apply elem_of_cons in Hin as [Heq|Hin].
    + by injection Heq.
    + destruct y as [[]|f]; apply exec_inv in Hex as [-> _]; by apply not_elem_of_nil in Hin.
Qed.

Lemma pending_evict t ns name :
  PEvict ns name ∈ omap pending_of t →
  ∃ h pod x t', t = h ++ Ev (Evict pod) x :: t' ∧ WorkloadPod.namespace pod = ns ∧ WorkloadPod.name pod = name.
Proof.
  intros (e & He & Hp)%list_elem_of_omap. apply list_elem_of_split in He as (h & t' & ->).
  destruct e as [X op x]. destruct op; simplify_eq/=. by exists h, pod, x, t'.
Qed.

Lemma budgets_allow_spec w pdbs p :
  budgets_allow w pdbs = true → p ∈ pdbs → PdbSnapshot.workload p = w → (0 < PdbSnapshot.allowed_disruptions p)%Z.
Proof.
  unfold budgets_allow. rewrite forallb_forall. intros Ha Hin Hw. apply Z.ltb_lt, Ha, List.filter_In.
  split; [by apply list_elem_of_In|]. by apply String.eqb_eq.
Qed.

(** C35: The controller evicts only what its listings allow.  Every eviction a pass
    requests of the API server, whatever the server answers, is of a pod it listed in
    this pass, scheduled on a node of the current wave of a plan that was draining
    and not asked to abort, daemons aside; and, when budgets are respected, every
    listed budget of the pod's workload allows a disruption. *)
Theorem controller_evictions_are_justified spec status gen tr r ns name x :
  exec (reconcile spec status gen) tr r → Ev (EvictRequest ns name) x ∈ tr →
  let st := default MSt.default status in
  MSt.phase st = MPhase.Draining ∧ AbortPolicy.requested (MSpec.abort spec) = false
  ∧ ∃ pods pdbs po pod,
      Ev ListPodObjects (Ok pods) ∈ tr ∧ Ev ListPdbObjects pdbs ∈ tr
      ∧ po ∈ pods ∧ load_pod po = Some pod ∧ WorkloadPod.namespace pod = ns ∧ WorkloadPod.name pod = name
      ∧ WorkloadPod.node pod ∈ wave_nodes spec st
      ∧ WorkloadPod.daemon_set pod && DrainConfig.ignore_daemon_sets (MSpec.drain spec) = false
      ∧ (PdbConfig.respect (MSpec.pdb spec) = true → ∀ l p, pdbs = Ok l → p ∈ l →
           PdbSnapshot.workload (load_pdb p) = WorkloadPod.workload pod →
           (0 < PdbSnapshot.allowed_disruptions (load_pdb p))%Z).
Proof.
  intros Hex Hin. destruct (controller_pass _ _ _ _ _ _ Hex Hin) as (nodes & pods & pdbs & t & out & Hpods & Hpdbs & Ht & Hsnap & Hp & _);
    [by left|]. destruct (pending_evict t ns name (Hp _ _ eq_refl)) as (h & pod & y & t' & Htr & <- & <-).
  destruct (evict_pass _ _ _ _ _ _ _ _ _ Ht Htr) as (Hph & Hreq & (Hw & (lp & Hlp & Hpod) & Hd) & _ & Hb).
  split; [done|]. split; [done|].
  assert (∀ e, e ∈ h → from_snapshot (snapshot_of nodes pods pdbs) e) as Hsnap'.
  { intros e He. apply Hsnap. rewrite Htr. apply elem_of_app. by left. }
  assert (pod ∈ omap load_pod pods) as (po & Hpo & Hload)%list_elem_of_omap by by apply (Hsnap' _ Hlp).
  exists pods, pdbs, po, pod. do 8 (split; [done|]). intros Hr l p -> Hl Hwl.
  destruct (Hb Hr) as (h' & ps & -> & Hall). assert (ps = load_pdb <$> l) as ->.
  { apply (Hsnap' (Ev ListPdbs ps)). apply elem_of_app. right. by left. }
  eapply budgets_allow_spec; [done| |done]. by apply list_elem_of_fmap_2.
Qed.

(** *** The service level *)

(** A spec that validates does not see a breach in the sample of a snapshot. *)
Lemma snapshot_not_breached spec :
  MSpec.validate spec = Ok tt → slo_breached spec (SloSample.mk f64_zero (f64_of_Z 1)) = false.
Proof.
  unfold MSpec.validate. repeat case_match; try done. intros _.
  repeat match goal with H : negb _ = false |- _ => apply negb_false_iff, andb_prop in H as [] end.
  unfold slo_breached. cbn [SloSample.error_rate SloSample.availability].
  change (f64_lt (f64_of_Z 1) ?x) with (f64_gt x (f64_of_Z 1)).
  by rewrite !f64_le_not_gt.
Qed.

Lemma reconcile_validates spec st gen tr out :
  exec (reconcile_plan spec st gen) tr (Ok out) → MSpec.validate spec = Ok tt.
Proof.
  unfold reconcile_plan. destruct (MSpec.validate spec) as [[]|m]; [done|]. by intros [_ ?]%exec_inv.
Qed.

(** The controller never aborts a plan for its service level.  The snapshot
    always reports an error rate of 0 and full availability, which no valid spec
    counts as a breach: when a pass records an aborted plan, it found it so, or the
    spec asks for the abort, or the plan was stalled with abort as its recovery. *)
Theorem controller_ignores_the_service_level spec status gen tr r st' x :
  exec (reconcile spec status gen) tr r → Ev (PatchPlanStatus st') x ∈ tr → MSt.phase st' = MPhase.Aborted →
  let st := default MSt.default status in
  MSt.phase st = MPhase.Aborted ∨ AbortPolicy.requested (MSpec.abort spec) = true
  ∨ (MSt.phase st = MPhase.Stalled ∧ PdbConfig.stall_recovery (MSpec.pdb spec) = StallRecovery.Abort).
Proof.
  intros Hex Hin Ha. destruct (controller_pass _ _ _ _ _ _ Hex Hin) as (nodes & pods & pdbs & t & out & _ & _ & Ht & Hsnap & _ & Hst);
    [by right|]. rewrite (Hst st' eq_refl) in Ha. pose proof (reconcile_validates _ _ _ _ _ Ht) as Hv.
  apply wp_sound with (1 := reconcile_aborts spec (default MSt.default status) (default 0%Z gen)) in Ht as [_ Hj].
  destruct (Hj Ha) as [?|[?|[?|[_ [_ (sample & Hs & Hb)]]]]]; [by left|by right; left|by right; right|].
  specialize (Hsnap _ Hs). cbn [from_snapshot] in Hsnap. subst sample. by rewrite (snapshot_not_breached _ Hv) in Hb.
Qed.
