(* ===== verification/MaintenanceWitness.v ===== *)
(** * Planned maintenance: concrete plans

    A ring of six nodes; the theorems of the other maintenance files that have
    hypotheses are applied to passes over it, and the whole maintenance of the ring
    is run on the simulated cluster. *)

From stdpp Require Import prelude strings gmap list.
From S2P Require Import Prelude RustStr Float64 Conditions BTreeMap Prog MaintenanceTypes Maintenance MaintenanceBackends MaintenanceFacts MaintenancePlans MaintenanceProps.
Local Open Scope string_scope.

Definition clock (n : nat) : string := "2025-01-01T00:00:00Z".

(** The ring of the sources: six nodes, four workloads of three replicas. *)
Definition ring : Sim.t := Sim.patch_ring 6 4 3.
Definition workers : MSpec.t :=
  MSpec.mk (MaintenanceTarget.mk [] [("role", "worker")]) MaintenanceIntent.default DrainConfig.default PdbConfig.default
    PrewarmConfig.default SloVerification.default AbortPolicy.default.

(** A backend that answers from a ring that does not change. *)
Definition answers (c : Sim.t) (h : list event) (X : Set) (op : Op X) : X := fst (simulated_handle clock X op (c, 0)).

Definition pass (c : Sim.t) (spec : MSpec.t) (st : MSt.t) : list event * result ReconcileOutcome Failure :=
  run (answers c) (reconcile_plan spec st 1) [].

Lemma pass_exec c spec st : exec (reconcile_plan spec st 1) (fst (pass c spec st)) (snd (pass c spec st)).
Proof. apply run_exec. Qed.

Definition ring_nodes : list string := Sim.node_label <$> seq 0 6.
Definition at_phase (ph : MPhase.t) : MSt.t := MSt.set_phase ph (MSt.set_resolved_nodes ring_nodes MSt.default).

Lemma split_at (tr : list event) k e : tr !! k = Some e → (tr = take k tr ++ e :: drop (S k) tr)%list.
Proof. intros H. by rewrite take_drop_middle. Qed.

Definition drain_events : list event := fst (pass ring workers (at_phase MPhase.Draining)).
Definition first_pod : WorkloadPod.t := WorkloadPod.mk "wl-0-0" "stellar" "node-000" "wl-0" true false.

Lemma first_eviction : drain_events !! 8 = Some (Ev (Evict first_pod) (Ok tt)).
Proof. vm_compute. reflexivity. Qed.

Lemma evictions_are_justified_witness :
  budgets_allow "wl-0" (Sim.pdbs ring) = true
  ∧ candidate workers (wave_nodes workers (at_phase MPhase.Draining)) (take 8 drain_events) first_pod.
Proof.
  split; [vm_compute; reflexivity|].
  destruct (evictions_are_justified workers (at_phase MPhase.Draining) 1 drain_events _ (take 8 drain_events) first_pod (Ok tt)
    (drop 9 drain_events) (pass_exec ring workers (at_phase MPhase.Draining)) (split_at _ _ _ first_eviction))
    as (_ & _ & Hc & _). exact Hc.
Defined.

Lemma evictions_fit_the_budgets_witness :
  length (evicted drain_events) = 4 ∧ (Z.of_nat (length (evicted drain_events)) ≤ 4)%Z.
Proof.
  split; [vm_compute; reflexivity|].
  assert (in_u32 (DrainConfig.max_parallel (MSpec.drain workers))) as Hcap by (split; [discriminate|reflexivity]).
  exact (proj1 (evictions_fit_the_budgets workers (at_phase MPhase.Draining) 1 drain_events _ Hcap
    (pass_exec ring workers (at_phase MPhase.Draining)))).
Defined.

Definition verify_events : list event := fst (pass ring workers (at_phase MPhase.Verifying)).

Lemma first_cordon : verify_events !! 14 = Some (Ev (Cordon "node-000") (Ok tt)).
Proof. vm_compute. reflexivity. Qed.

Lemma cordons_follow_verification_witness :
  "node-003" ∈ wave_nodes workers (at_phase MPhase.Verifying) ∧ verified_off (take 14 verify_events) "node-003".
Proof.
  assert ("node-003" ∈ wave_nodes workers (at_phase MPhase.Verifying)) as Hin by (apply contains_str_spec; vm_compute; reflexivity).
  split; [exact Hin|].
  destruct (cordons_follow_verification workers (at_phase MPhase.Verifying) 1 verify_events _ (take 14 verify_events) "node-000" (Ok tt)
    (drop 15 verify_events) (pass_exec ring workers (at_phase MPhase.Verifying)) (split_at _ _ _ first_cordon))
    as (_ & _ & _ & _ & _ & Hv). exact (Hv eq_refl "node-003" Hin).
Defined.

(** The status after the first pass. *)
Definition status_after (c : Sim.t) (spec : MSpec.t) (st : MSt.t) : MSt.t :=
  match snd (pass c spec st) with Ok out => out_status out | Err _ => MSt.default end.

Definition went_well (c : Sim.t) (spec : MSpec.t) (st : MSt.t) : bool :=
  match snd (pass c spec st) with Ok _ => true | Err _ => false end.

Lemma status_after_exec c spec st :
  went_well c spec st = true →
  ∃ out, exec (reconcile_plan spec st 1) (fst (pass c spec st)) (Ok out) ∧ out_status out = status_after c spec st.
Proof.
  unfold went_well. intros H. pose proof (pass_exec c spec st) as Hex. unfold status_after.
  destruct (snd (pass c spec st)) as [out|e]; [|done]. by exists out.
Qed.

Lemma after_reachable c spec st :
  reachable st → few_nodes st → went_well c spec st = true →
  reachable (status_after c spec st).
Proof.
  intros Hr Hf (out & Hex & <-)%status_after_exec. by eapply reachable_pass.
Qed.

Definition started : MSt.t := status_after ring workers MSt.default.

Lemma started_reachable : reachable started.
Proof. apply after_reachable; [constructor|done|]. vm_compute. reflexivity. Qed.

Lemma reachable_statuses_are_well_formed_witness :
  MSt.resolved_nodes started = ring_nodes ∧ MSt.phase started = MPhase.Prewarming ∧ well_formed started.
Proof.
  split; [vm_compute; reflexivity|]. split; [vm_compute; reflexivity|].
  exact (reachable_statuses_are_well_formed started started_reachable).
Defined.

Lemma passes_refine_the_lifecycle_witness :
  MSt.phase (status_after ring workers started) = MPhase.Verifying
  ∧ ∃ out, rtc lifecycle (plan_of started) (plan_of (out_status out)) ∧ out_status out = status_after ring workers started.
Proof.
  split; [vm_compute; reflexivity|].
  assert (went_well ring workers started = true) as Hok by (vm_compute; reflexivity).
  destruct (status_after_exec ring workers started Hok) as (out & Hex & Hout). exists out. split; [|exact Hout].
  assert (few_nodes started) as Hfew by (unfold few_nodes; apply Z.ltb_lt; vm_compute; reflexivity).
  exact (proj1 (passes_refine_the_lifecycle workers started 1 _ (Ok out) started_reachable Hfew Hex)).
Defined.

(** Half of the requests fail. *)
Definition failing : Sim.t := Sim.set_error_rate (f64_div (f64_of_Z 1) (f64_of_Z 2)) ring.

Lemma aborts_have_a_reason_witness :
  breach_seen workers (fst (pass failing workers (at_phase MPhase.Draining))).
Proof.
  assert (went_well failing workers (at_phase MPhase.Draining) = true) as Hok
    by (vm_compute; reflexivity).
  destruct (status_after_exec failing workers (at_phase MPhase.Draining) Hok) as (out & Hex & Hout).
  assert (MSt.phase (out_status out) = MPhase.Aborted) as Ha by (rewrite Hout; vm_compute; reflexivity).
  destruct (aborts_have_a_reason workers (at_phase MPhase.Draining) 1 _ out Hex Ha) as [H|[H|[[H _]|[_ H]]]];
    [discriminate|discriminate|discriminate|exact H].
Defined.

(** ** The controller *)

Definition core_pod : PodObject.t :=
  PodObject.mk "core-0" (Some "stellar") (Some "node-000") None [("app", "core")] (Some [true]).
Definition core_pdb : PdbObject.t := PdbObject.mk "core-pdb" (Some [("app", "core")]) (Some (3, 1)%Z).

Definition api_answers (h : list (Prog.event ApiOp)) (X : Set) (op : ApiOp X) : X :=
  match op in ApiOp Y return Y with
  | ListNodeObjects => Ok []
  | ListPodObjects => Ok [core_pod]
  | ListPdbObjects => Ok [core_pdb]
  | ListDeployments => Ok []
  | SystemTimeSecs => 1000%Z
  | ElapsedMs => 5%Z
  | UtcText => clock 0
  | _ => Ok tt
  end.

Definition controller_run (spec : MSpec.t) (ph : MPhase.t) : list (Prog.event ApiOp) * result Z Failure :=
  run api_answers (reconcile spec (Some (at_phase ph)) (Some 1%Z)) [].

Lemma controller_exec spec ph :
  exec (reconcile spec (Some (at_phase ph)) (Some 1%Z)) (fst (controller_run spec ph)) (snd (controller_run spec ph)).
Proof. apply run_exec. Qed.

Lemma controller_evictions_are_justified_witness :
  ∃ pods po pod, Ev ListPodObjects (Ok pods) ∈ fst (controller_run workers MPhase.Draining)
    ∧ po ∈ pods ∧ load_pod po = Some pod ∧ WorkloadPod.node pod ∈ wave_nodes workers (at_phase MPhase.Draining).
Proof.
  assert (Ev (EvictRequest "stellar" "core-0") (Ok tt) ∈ fst (controller_run workers MPhase.Draining)) as Hin.
  { apply (list_elem_of_lookup_2 _ 8). vm_compute. reflexivity. }
  pose proof (controller_exec workers MPhase.Draining) as Hex.
  destruct (controller_evictions_are_justified workers (Some (at_phase MPhase.Draining)) (Some 1%Z) _ _ "stellar" "core-0" (Ok tt) Hex Hin)
    as (_ & _ & pods & pdbs & po & pod & H1 & _ & H2 & H3 & _ & _ & H4 & _).
  exists pods, po, pod. split; [exact H1|]. split; [exact H2|]. split; [exact H3|exact H4].
Defined.

(** A stalled plan whose recovery is to abort. *)
Definition abort_on_stall : MSpec.t :=
  MSpec.mk (MSpec.target workers) MaintenanceIntent.default DrainConfig.default (PdbConfig.mk true 120 StallRecovery.Abort)
    PrewarmConfig.default SloVerification.default AbortPolicy.default.

Definition aborted_write (e : Prog.event ApiOp) : bool :=
  match e with Ev (PatchPlanStatus st) _ => bool_decide (MSt.phase st = MPhase.Aborted) | _ => false end.

Lemma aborted_write_in tr : existsb aborted_write tr = true →
  ∃ st x, Ev (PatchPlanStatus st) x ∈ tr ∧ MSt.phase st = MPhase.Aborted.
Proof.
  rewrite existsb_exists. intros (e & Hin%list_elem_of_In & He). destruct e as [X op x]. destruct op; try done.
  apply bool_decide_eq_true in He. eauto.
Qed.

Lemma controller_ignores_the_service_level_witness :
  existsb aborted_write (fst (controller_run abort_on_stall MPhase.Stalled)) = true
  ∧ (MPhase.Stalled = MPhase.Stalled ∧ PdbConfig.stall_recovery (MSpec.pdb abort_on_stall) = StallRecovery.Abort).
Proof.
  assert (existsb aborted_write (fst (controller_run abort_on_stall MPhase.Stalled)) = true) as Hw by (vm_compute; reflexivity).
  split; [exact Hw|]. destruct (aborted_write_in _ Hw) as (st & x & Hin & Ha).
  pose proof (controller_exec abort_on_stall MPhase.Stalled) as Hex.
  destruct (controller_ignores_the_service_level abort_on_stall (Some (at_phase MPhase.Stalled)) (Some 1%Z) _ _ st x Hex Hin Ha)
    as [H|[H|H]]; [discriminate|discriminate|exact H].
Defined.

(** ** The maintenance of the ring *)

(** A node drained without ever being cordoned. *)
Definition drained_uncordoned (node : string) (r : result MSt.t Failure * Sim.t) : bool :=
  match fst r with
  | Ok st =>
      contains_str node (MSt.nodes_completed st)
      && negb (contains_str node (MSt.cordoned_nodes st))
      && existsb (λ n, String.eqb (ClusterNode.name n) node && negb (ClusterNode.cordoned n)) (Sim.nodes (snd r))
      && existsb (λ e, String.eqb (fst e) "Evicted" && RustStr.contains (" from " +:+ node) (snd e)) (Sim.events (snd r))
      && negb (existsb (λ e, String.eqb (fst e) "Cordoned"
                             && String.eqb (snd e) ("cordoned " +:+ node +:+ " after verification")) (Sim.events (snd r)))
  | Err _ => false
  end.

(** A node can be drained without being cordoned.  The wave is taken anew from the
    cursor in every draining pass, so as soon as its first node is empty the next
    target joins it without the verification and the cordon of the verifying phase:
    thirty ticks of the maintenance of the simulation's ring of six nodes, with the
    default configuration, evict the pods of [node-004] and record it as drained, and
    it was never cordoned. *)
Theorem waves_reach_uncordoned_nodes : drained_uncordoned "node-004" (run_to_completion clock workers ring 30) = true.
Proof. vm_compute. reflexivity. Qed.
