(* ===== verification/QuorumGraph.v ===== *)
(** * Quorum sets and the quorum graph

    Models [src/src/controller/quorum/types.rs] and
    [src/src/controller/quorum/graph.rs]: the quorum sets the validators report, the
    slices they allow, and the analysis of their intersections.

    A [HashMap] is a [gmap] and a [HashSet] a [gset]; the order in which the code
    iterates them is unspecified and is the class [HashIter], so that what is proved
    holds for every order. *)

From stdpp Require Import prelude strings gmap list.
From S2P Require Import Prelude RustStr Float64.

Class HashIter : Type := {
  keys_of : ∀ {V : Type}, gmap string V → list string;
  keys_of_perm : ∀ V (m : gmap string V), keys_of m ≡ₚ (map_to_list m).*1;
  items_of : gset string → list string;
  items_of_perm : ∀ s, items_of s ≡ₚ elements s;
}.

(** ** types.rs *)

Module InnerQuorumSetInfo.

Record t : Set := mk { threshold : Z; validators : list string }.

End InnerQuorumSetInfo.

Module QuorumSetInfo.

Record t : Set := mk {
  threshold : Z;
  validators : list string;
  inner_sets : list InnerQuorumSetInfo.t;
}.

End QuorumSetInfo.
Module QSet := QuorumSetInfo.

Module BallotState.

Record t : Set := mk { phase : string; ballot_counter : Z; value_hash : string }.

End BallotState.

Module NominationState.

Record t : Set := mk { votes : list string; accepted : list string }.

End NominationState.

Module ScpState.

Record t : Set := mk {
  node_id : string;
  quorum_set : QSet.t;
  ballot_state : BallotState.t;
  nomination_state : NominationState.t;
}.

End ScpState.

Module PeerInfo.

Record t : Set := mk { id : string; address : string; state : string }.

End PeerInfo.

(** ** graph.rs *)

Module QuorumNode.

Record t : Set := mk { validator_key : string; quorum_set : QSet.t }.

End QuorumNode.

Record QuorumGraph : Type := graph_of { nodes : gmap string QuorumNode.t }.

Record CriticalNodeAnalysis : Type := critical_analysis {
  critical_nodes : list string;
  quorum_intersection_valid : bool;
}.

Record OverlapAnalysis : Type := overlap_analysis {
  min_overlap : Z;
  max_overlap : Z;
  avg_overlap : f64;
  overlap_pairs : list (string * string * Z);
}.

Definition from_quorum_sets (quorum_sets : list (string * QSet.t)) : QuorumGraph :=
  graph_of (fold_left (λ m kq, <[fst kq := QuorumNode.mk (fst kq) (snd kq)]> m) quorum_sets ∅).

(** The [for] loop over the remaining validators: with [current] short of [k], each
    of them is added in turn. *)
Fixpoint combinations_helper (validators : list string) (k : nat) (current : list string)
    : list (gset string) :=
  if Nat.eqb (length current) k then [list_to_set current]
  else
    match validators with
    | [] => []
    | v :: rest => combinations_helper rest k (current ++ [v]) ++ combinations_helper rest k current
    end.

Definition generate_combinations (validators : list string) (k : nat) : list (gset string) :=
  if Nat.eqb k 0 then [∅]
  else if Nat.ltb (length validators) k then []
  else combinations_helper validators k [].

(** The validators of a quorum set and of its inner sets. *)
Definition all_validators (qset : QSet.t) : list string :=
  fold_left (λ l inner, l ++ InnerQuorumSetInfo.validators inner) (QSet.inner_sets qset) (QSet.validators qset).

Definition enumerate_slices (qset : QSet.t) : list (gset string) :=
  if bool_decide (all_validators qset = []) then []
  else generate_combinations (all_validators qset) (Z.to_nat (QSet.threshold qset)).

Definition compute_quorum_slices (g : QuorumGraph) (validator_key : string) : list (gset string) :=
  match nodes g !! validator_key with
  | Some node => enumerate_slices (QuorumNode.quorum_set node)
  | None => []
  end.

Definition check_quorum_intersection_size (slice_a slice_b : gset string) : Z :=
  Z.of_nat (size (slice_a ∩ slice_b)).

(** [for i in 0..len { for j in i+1..len { .. } }]. *)
Fixpoint pairs_of {A} (l : list A) : list (A * A) :=
  match l with
  | [] => []
  | x :: l' => (pair x <$> l') ++ pairs_of l'
  end.

Definition remove_node (g : QuorumGraph) (node_key : string) : QuorumGraph := graph_of (delete node_key (nodes g)).

Definition node_count (g : QuorumGraph) : nat := size (nodes g).

(** [usize::MAX] on a 64-bit target. *)
Definition USIZE_MAX : Z := 2 ^ 64 - 1.

Section graph.
Context `{HashIter}.

(** The slices of every validator. *)
Definition all_slices (g : QuorumGraph) : list (gset string) := keys_of (nodes g) ≫= compute_quorum_slices g.

Definition has_quorum_intersection (g : QuorumGraph) : bool :=
  if bool_decide (nodes g = ∅) then false
  else if Nat.ltb (length (all_slices g)) 2 then true
  else forallb (λ st, negb (check_quorum_intersection_size (fst st) (snd st) =? 0)%Z) (pairs_of (all_slices g)).

Definition find_critical_nodes (g : QuorumGraph) : CriticalNodeAnalysis :=
  if negb (has_quorum_intersection g) then critical_analysis [] false
  else critical_analysis
    (List.filter (λ k, negb (has_quorum_intersection (remove_node g k))) (keys_of (nodes g))) true.

(** The largest overlap of a slice of the one and a slice of the other. *)
Definition max_pair_overlap (slices1 slices2 : list (gset string)) : Z :=
  fold_left (λ m s1, fold_left (λ m s2, Z.max m (check_quorum_intersection_size s1 s2)) slices2 m) slices1 0%Z.

(** The counters of the loop over pairs: pairs, minimum, maximum, total, count. *)
Definition overlap_counters : Type := list (string * string * Z) * Z * Z * Z * Z.

Definition note_pair (g : QuorumGraph) (acc : overlap_counters) (vw : string * string) : overlap_counters :=
  let '(pairs, mn, mx, total, n) := acc in
  let m := max_pair_overlap (compute_quorum_slices g (fst vw)) (compute_quorum_slices g (snd vw)) in
  if (0 <? m)%Z then (pairs ++ [(fst vw, snd vw, m)], Z.min mn m, Z.max mx m, as_u64 (total + m), as_u64 (n + 1))%Z
  else acc.

Definition calculate_overlaps (g : QuorumGraph) : OverlapAnalysis :=
  let '(pairs, mn, mx, total, n) := fold_left (note_pair g) (pairs_of (keys_of (nodes g))) ([], USIZE_MAX, 0, 0, 0)%Z in
  overlap_analysis (if (mn =? USIZE_MAX)%Z then 0%Z else mn) mx
    (if (0 <? n)%Z then f64_div (f64_of_Z total) (f64_of_Z n) else f64_zero) pairs.

End graph.
