(* ===== verification/QuorumFacts.v ===== *)
(** * Quorum graph: theorems

    The slices the code enumerates are the subsets of threshold size; the intersection
    check decides the intersection of slices, in every iteration order; removing a
    node can not break it; and a set of validators with one threshold has it exactly
    when the threshold is a majority. *)

From stdpp Require Import prelude strings gmap list.
From Stdlib Require Import Btauto.
From S2P Require Import Prelude RustStr Float64 QuorumGraph.

(** ** Combinations *)

(** The choices of [k] positions of a list, as sets. *)
Definition choice (l : list string) (k : nat) (s : gset string) : Prop :=
  ∃ sub, sublist sub l ∧ length sub = k ∧ s = list_to_set sub.

Lemma combinations_helper_spec l k cur s :
  s ∈ combinations_helper l k cur
  ↔ length cur ≤ k ∧ ∃ sub, sublist sub l ∧ length cur + length sub = k ∧ s = list_to_set (cur ++ sub).
Proof.
  revert cur. induction l as [|v l IH]; intros cur; simpl; destruct (Nat.eqb_spec (length cur) k) as [Hk|Hk].
  - rewrite list_elem_of_singleton. split.
    + intros ->. split; [lia|]. exists []. rewrite app_nil_r. split; [constructor|]. simpl. by split; [lia|].
    + intros (_ & sub & Hs & Hl & ->). assert (sub = []) as -> by (apply length_zero_iff_nil; lia). by rewrite app_nil_r.
  - rewrite elem_of_nil. split; [done|]. intros (Hle & sub & Hs & Hl & ->). apply sublist_nil_r in Hs as ->. simpl in Hl. lia.
  - rewrite list_elem_of_singleton. split.
    + intros ->. split; [lia|]. exists []. rewrite app_nil_r. split; [apply sublist_nil_l|]. simpl. by split; [lia|].
    + intros (_ & sub & Hs & Hl & ->). assert (sub = []) as -> by (apply length_zero_iff_nil; lia). by rewrite app_nil_r.
  - rewrite elem_of_app, !IH, length_app. simpl. split.
    + intros [(Hle & sub & Hs & Hl & ->)|(Hle & sub & Hs & Hl & ->)].
      * split; [lia|]. exists (v :: sub). split; [by constructor|]. simpl. rewrite <- app_assoc. by split; [lia|].
      * split; [lia|]. exists sub. split; [by constructor|]. by split; [lia|].
    + intros (Hle & sub & Hs & Hl & ->). apply sublist_cons_r in Hs as [Hs|(sub' & -> & Hs)].
      * right. split; [lia|]. by exists sub.
      * left. simpl in Hl. split; [lia|]. exists sub'. rewrite <- app_assoc. by split; [|split; [lia|]].
Qed.

Lemma generate_combinations_spec l k s : s ∈ generate_combinations l k ↔ choice l k s.
Proof.
  unfold generate_combinations, choice. destruct (Nat.eqb_spec k 0) as [->|Hk].
  { rewrite list_elem_of_singleton. split.
    - intros ->. exists []. split; [apply sublist_nil_l|done].
    - intros (sub & _ & ->%length_zero_iff_nil & ->). done. }
  destruct (Nat.ltb_spec (length l) k) as [Hlt|Hge].
  { rewrite elem_of_nil. split; [done|]. intros (sub & Hs%sublist_length & Hl & _). lia. }
  rewrite combinations_helper_spec. simpl. split; [intros (_ & ?)|intros ?; split; [lia|]]; done.
Qed.

(** A slice of a quorum set: as many of its validators as its threshold. *)
Definition slice_of (q : QSet.t) (s : gset string) : Prop :=
  all_validators q ≠ [] ∧ choice (all_validators q) (Z.to_nat (QSet.threshold q)) s.

Lemma enumerate_slices_spec q s : s ∈ enumerate_slices q ↔ slice_of q s.
Proof.
  unfold enumerate_slices, slice_of. case_bool_decide as Hn; [rewrite elem_of_nil; naive_solver|].
  rewrite generate_combinations_spec. naive_solver.
Qed.

(** ** Pairs *)

Lemma forallb_fmap {A B} (p : B → bool) (f : A → B) l : forallb p (f <$> l) = forallb (λ x, p (f x)) l.
Proof. induction l as [|x l IH]; [done|]. change (p (f x) && forallb p (f <$> l) = p (f x) && forallb (λ x, p (f x)) l). by rewrite IH. Qed.

Section pairs.
Context {A : Type} (R : A → A → bool).

Definition all_pairs (l : list A) : bool := forallb (λ xy, R (fst xy) (snd xy)) (pairs_of l).

Lemma all_pairs_cons x l : all_pairs (x :: l) = forallb (R x) l && all_pairs l.
Proof. unfold all_pairs. cbn [pairs_of]. by rewrite forallb_app, forallb_fmap. Qed.

Lemma all_pairs_app l l' :
  all_pairs (l ++ l') = all_pairs l && all_pairs l' && forallb (λ x, forallb (R x) l') l.
Proof.
  induction l as [|x l IH]; [simpl; by rewrite andb_true_r|].
  rewrite <- app_comm_cons, !all_pairs_cons, IH, forallb_app. simpl. btauto.
Qed.

Context (R_sym : ∀ x y, R x y = R y x).

(** With a symmetric relation the order does not matter. *)
Lemma all_pairs_perm l l' : l ≡ₚ l' → all_pairs l = all_pairs l'.
Proof.
  induction 1 as [|x l l' Hp IH|x y l|l1 l2 l3 _ IH1 _ IH2]; [done| | |congruence].
  - rewrite !all_pairs_cons, IH. f_equal. apply eq_true_iff_eq. rewrite !forallb_forall.
    split; intros H z Hz; apply H; by rewrite Hp || rewrite <- Hp.
  - rewrite !all_pairs_cons. simpl. rewrite (R_sym x y). btauto.
Qed.
End pairs.

(** ** The graph *)

Definition meets (s t : gset string) : bool := negb (check_quorum_intersection_size s t =? 0)%Z.

Lemma meets_sym s t : meets s t = meets t s.
Proof. unfold meets, check_quorum_intersection_size. by rewrite (intersection_comm_L s t). Qed.

Lemma meets_spec s t : meets s t = true ↔ ∃ x, x ∈ s ∧ x ∈ t.
Proof.
  unfold meets, check_quorum_intersection_size. rewrite negb_true_iff, Z.eqb_neq. split.
  - intros Hs. destruct (set_choose_or_empty (s ∩ t)) as [[x Hx]|He].
    + exists x. set_solver.
    + apply leibniz_equiv in He. rewrite He, size_empty in Hs. done.
  - intros (x & Hx & Hy). assert (size (s ∩ t) ≠ 0) as Hz; [|lia].
    intros Hz%size_empty_iff. set_solver.
Qed.

(** The slices in the order of the map. *)
Definition slices (g : QuorumGraph) : list (gset string) :=
  map_to_list (nodes g) ≫= λ kv, enumerate_slices (QuorumNode.quorum_set (snd kv)).

Lemma bind_perm {A B} (f : A → list B) l l' : l ≡ₚ l' → l ≫= f ≡ₚ l' ≫= f.
Proof. intros Hp. by rewrite Hp. Qed.

Lemma slices_remove g k n :
  nodes g !! k = Some n → slices g ≡ₚ enumerate_slices (QuorumNode.quorum_set n) ++ slices (remove_node g k).
Proof. intros Hk. unfold slices. by rewrite <- (map_to_list_delete (nodes g) k n Hk). Qed.

Section graph_facts.
Context `{HashIter}.

Lemma all_slices_perm g : all_slices g ≡ₚ slices g.
Proof.
  unfold all_slices, slices. rewrite keys_of_perm. unfold mbind at 1.
  assert (∀ l, (∀ kv, kv ∈ l → nodes g !! fst kv = Some (snd kv)) →
    l.*1 ≫= compute_quorum_slices g = l ≫= λ kv, enumerate_slices (QuorumNode.quorum_set (snd kv))) as Hl.
  { intros l. induction l as [|[k n] l IH]; intros Hk; [done|]. cbn. rewrite IH by (intros; apply Hk; by right).
    unfold compute_quorum_slices at 1. specialize (Hk (k, n) ltac:(left)). simpl in Hk. by rewrite Hk. }
  fold (mbind (compute_quorum_slices g) (map_to_list (nodes g)).*1). rewrite Hl; [done|].
  intros [k n] Hin. by apply elem_of_map_to_list in Hin.
Qed.

Lemma all_pairs_short {A} (R : A → A → bool) l : length l < 2 → all_pairs R l = true.
Proof. destruct l as [|x [|y l]]; simpl; [done|done|lia]. Qed.

(** The check without its shortcuts, in the order of the map. *)
Lemma intersection_eq g :
  has_quorum_intersection g = negb (bool_decide (nodes g = ∅)) && all_pairs meets (slices g).
Proof.
  unfold has_quorum_intersection. case_bool_decide; [done|]. simpl.
  rewrite <- (all_pairs_perm meets meets_sym _ _ (all_slices_perm g)).
  destruct (Nat.ltb_spec (length (all_slices g)) 2); [by rewrite all_pairs_short|]. done.
Qed.

(** Fewer nodes, fewer slices: the check stays. *)
Lemma intersection_remove g k :
  has_quorum_intersection g = true → nodes (remove_node g k) ≠ ∅ → has_quorum_intersection (remove_node g k) = true.
Proof.
  rewrite !intersection_eq, !andb_true_iff, !negb_true_iff, !bool_decide_eq_false. intros [Hn Hp] Hne. split; [done|].
  destruct (nodes g !! k) as [n|] eqn:Hk.
  - rewrite (all_pairs_perm meets meets_sym _ _ (slices_remove g k n Hk)), all_pairs_app in Hp.
    apply andb_prop in Hp as [Hp _]. by apply andb_prop in Hp as [_ Hp].
  - unfold slices, remove_node. simpl. by rewrite delete_id.
Qed.

Lemma critical_nodes_spec (g : QuorumGraph) :
  critical_nodes (find_critical_nodes g)
  = (if has_quorum_intersection g && Nat.eqb (node_count g) 1 then keys_of (nodes g) else [])
  ∧ quorum_intersection_valid (find_critical_nodes g) = has_quorum_intersection g.
Proof.
  unfold find_critical_nodes. destruct (has_quorum_intersection g) eqn:Hg; simpl; [|done]. split; [|done].
  assert (∀ k, k ∈ keys_of (nodes g) → is_Some (nodes g !! k)) as Hkeys.
  { intros k Hk. rewrite keys_of_perm in Hk. apply list_elem_of_fmap in Hk as ([k' n] & -> & Hin).
    apply elem_of_map_to_list in Hin. by exists n. }
  assert (∀ k, k ∈ keys_of (nodes g) → has_quorum_intersection (remove_node g k) = negb (Nat.eqb (node_count g) 1)) as Hk.
  { intros k [n Hn]%Hkeys. assert (size (delete k (nodes g)) = pred (node_count g)) as Hsz.
    { unfold node_count. by rewrite map_size_delete, Hn. }
    assert (0 < node_count g) as Hpos.
    { unfold node_count. assert (size (nodes g) ≠ 0); [|lia]. intros Hz%map_size_empty_iff. by rewrite Hz in Hn. }
    destruct (Nat.eqb_spec (node_count g) 1) as [H1|H1]; simpl.
    - rewrite intersection_eq. unfold remove_node. simpl. rewrite bool_decide_eq_true_2; [done|].
      apply map_size_empty_iff. lia.
    - apply intersection_remove; [done|]. simpl. intros Hz%map_size_empty_iff. lia. }
  generalize dependent (keys_of (nodes g)). intros l _ Hk. induction l as [|k l IH]; simpl; [by case_match|].
  rewrite Hk by by left. rewrite negb_involutive, IH by (intros; apply Hk; by right). by case_match.
Qed.

(** No node is ever critical.  In every topology with two nodes or more the
    analysis reports no critical node, and of a single node with a valid check, that
    node: removing a node from the graph removes its slices and leaves those of the
    others as they are, even the ones that need it, so the check cannot fail where it
    held.  The share of critical nodes in the fragility score is zero. *)
Theorem critical_nodes_are_never_found (g : QuorumGraph) :
  critical_nodes (find_critical_nodes g)
  = (if has_quorum_intersection g && Nat.eqb (node_count g) 1 then keys_of (nodes g) else [])
  ∧ quorum_intersection_valid (find_critical_nodes g) = has_quorum_intersection g.
Proof. apply critical_nodes_spec. Qed.

(** *** The check against its definition *)

(** A slice of a validator of the graph. *)
Definition graph_slice (g : QuorumGraph) (s : gset string) : Prop :=
  ∃ v n, nodes g !! v = Some n ∧ slice_of (QuorumNode.quorum_set n) s.

Definition thresholds_positive (g : QuorumGraph) : Prop :=
  ∀ v n, nodes g !! v = Some n → (1 ≤ QSet.threshold (QuorumNode.quorum_set n))%Z.

Lemma elem_of_slices g s : s ∈ slices g ↔ graph_slice g s.
Proof.
  unfold slices, graph_slice. rewrite list_elem_of_bind. split.
  - intros ([v n] & Hs & Hin). apply elem_of_map_to_list in Hin. exists v, n. by rewrite <- enumerate_slices_spec.
  - intros (v & n & Hn & Hs). exists (v, n). by rewrite enumerate_slices_spec, elem_of_map_to_list.
Qed.

Lemma all_pairs_all {A} (R : A → A → bool) l :
  (∀ x y, R x y = R y x) → (∀ x, x ∈ l → R x x = true) →
  all_pairs R l = true ↔ ∀ x y, x ∈ l → y ∈ l → R x y = true.
Proof.
  intros Hsym Hrefl. induction l as [|z l IH]; [split; [by intros _ x y ?%not_elem_of_nil|done]|].
  rewrite all_pairs_cons, andb_true_iff, forallb_forall, IH by (intros; apply Hrefl; by right). split.
  - intros [Hz Hl] x y Hx Hy. rewrite elem_of_cons in Hx, Hy. destruct Hx as [->|Hx], Hy as [->|Hy].
    + apply Hrefl. by left.
    + by apply Hz, list_elem_of_In.
    + rewrite Hsym. by apply Hz, list_elem_of_In.
    + by apply Hl.
  - intros Hl. split; [intros y Hy%list_elem_of_In|intros x y Hx Hy]; apply Hl; by (left || right).
Qed.

Lemma slice_inhabited q s : (1 ≤ QSet.threshold q)%Z → slice_of q s → meets s s = true.
Proof.
  intros Ht (_ & sub & _ & Hl & ->). apply meets_spec. destruct sub as [|x sub]; [simpl in Hl; lia|].
  exists x. set_solver.
Qed.

Lemma intersection_spec g :
  thresholds_positive g →
  has_quorum_intersection g = true
  ↔ nodes g ≠ ∅ ∧ ∀ s t, graph_slice g s → graph_slice g t → ∃ x, x ∈ s ∧ x ∈ t.
Proof.
  intros Ht. rewrite intersection_eq, andb_true_iff, negb_true_iff, bool_decide_eq_false.
  rewrite (all_pairs_all _ _ meets_sym).
  - setoid_rewrite elem_of_slices. setoid_rewrite meets_spec. naive_solver.
  - intros s (v & n & Hn & Hs)%elem_of_slices. eapply slice_inhabited; [by eapply Ht|done].
Qed.

(** C25: The intersection check is exact.  With positive thresholds, and in whatever
    order the maps are iterated, the check accepts a graph exactly when it has a node
    and any two slices of its validators, each made of as many members of the
    validator's quorum set (inner sets included) as its threshold, have a member in
    common. *)
Theorem intersection_check_is_exact g :
  thresholds_positive g →
  has_quorum_intersection g = true
  ↔ nodes g ≠ ∅ ∧ ∀ s t, graph_slice g s → graph_slice g t → ∃ x, x ∈ s ∧ x ∈ t.
Proof. apply intersection_spec. Qed.

(** *** One quorum set for all *)

Definition uniform (validators : list string) (k : Z) : QuorumGraph :=
  from_quorum_sets ((λ v, (v, QSet.mk k validators [])) <$> validators).

Lemma fold_insert_lookup (q : QSet.t) vs (m : gmap string QuorumNode.t) v :
  fold_left (λ m kq, <[fst kq := QuorumNode.mk (fst kq) (snd kq)]> m) ((λ v, (v, q)) <$> vs) m !! v
  = if bool_decide (v ∈ vs) then Some (QuorumNode.mk v q) else m !! v.
Proof.
  revert m. induction vs as [|w vs IH]; intros m; [done|]. cbn. rewrite IH. repeat case_bool_decide; try done.
  - set_solver.
  - assert (v = w) as -> by set_solver. by rewrite lookup_insert_eq.
  - rewrite lookup_insert_ne; [done|]. set_solver.
Qed.

Lemma uniform_lookup vs k v n :
  nodes (uniform vs k) !! v = Some n ↔ v ∈ vs ∧ n = QuorumNode.mk v (QSet.mk k vs []).
Proof.
  unfold uniform, from_quorum_sets. simpl. rewrite fold_insert_lookup.
  case_bool_decide; [naive_solver|]. rewrite lookup_empty. naive_solver.
Qed.

Lemma choice_size vs k s : NoDup vs → choice vs k s → size s = k ∧ s ⊆ list_to_set vs.
Proof.
  intros Hn (sub & Hs & Hl & ->). split.
  - rewrite size_list_to_set; [done|]. by eapply sublist_NoDup.
  - intros x Hx%elem_of_list_to_set. apply elem_of_list_to_set. by eapply elem_of_sublist.
Qed.

(** Any two sets of [k] of [n] members meet, when twice [k] exceeds [n]. *)
Lemma majorities_meet vs k s t : NoDup vs → length vs < 2 * k → choice vs k s → choice vs k t → ∃ x, x ∈ s ∧ x ∈ t.
Proof.
  intros Hn Hk [Hs Hs']%(choice_size _ _ _ Hn) [Ht Ht']%(choice_size _ _ _ Hn).
  destruct (set_choose_or_empty (s ∩ t)) as [[x Hx]|He]; [exists x; set_solver|]. exfalso.
  assert (size (s ∪ t) = size s + size t) as Hu by (apply size_union; set_solver).
  assert (s ∪ t ⊆ list_to_set vs) as Hsub%subseteq_size by set_solver. rewrite size_list_to_set in Hsub by done. lia.
Qed.

Lemma uniform_intersection vs k :
  NoDup vs → vs ≠ [] → (1 ≤ k ≤ Z.of_nat (length vs))%Z →
  has_quorum_intersection (uniform vs k) = true ↔ (Z.of_nat (length vs) < 2 * k)%Z.
Proof.
  intros Hn Hne Hk. rewrite intersection_spec by (intros v n [_ ->]%uniform_lookup; simpl; lia).
  assert (∀ s, graph_slice (uniform vs k) s ↔ choice vs (Z.to_nat k) s) as Hs.
  { intros s. unfold graph_slice. setoid_rewrite uniform_lookup. unfold slice_of, all_validators. split.
    - intros (v & n & [_ ->] & Hs). apply Hs.
    - intros Hs. destruct vs as [|v vs]; [done|]. exists v. eexists. split; [split; [by left|done]|]. simpl. by split. }
  setoid_rewrite Hs. split.
  - intros [_ Hall]. destruct (Z.lt_ge_cases (Z.of_nat (length vs)) (2 * k)) as [?|Hle]; [done|]. exfalso.
    destruct (Hall (list_to_set (take (Z.to_nat k) vs)) (list_to_set (take (Z.to_nat k) (drop (Z.to_nat k) vs)))) as (x & Hx & Hy).
    + exists (take (Z.to_nat k) vs). split; [apply sublist_take|]. rewrite length_take. by split; [lia|].
    + exists (take (Z.to_nat k) (drop (Z.to_nat k) vs)).
      split; [etransitivity; [apply sublist_take|apply sublist_drop]|]. rewrite length_take, length_drop. by split; [lia|].
    + rewrite elem_of_list_to_set in Hx, Hy. apply subseteq_take in Hy.
      rewrite <- (take_drop (Z.to_nat k) vs) in Hn. apply NoDup_app in Hn as (_ & Hd & _). by apply (Hd x).
  - intros Hm. split.
    + intros He. destruct vs as [|v vs]; [done|]. assert (nodes (uniform (v :: vs) k) !! v = None) as Hv by (by rewrite He).
      rewrite (proj2 (uniform_lookup _ _ _ _)) in Hv by (split; [by left|done]). done.
    + intros s t Hs' Ht. apply (majorities_meet vs (Z.to_nat k)); [done|lia|done|done].
Qed.
End graph_facts.
