(* ===== verification/QuorumAnalyzer.v ===== *)
(** * Quorum analysis and optimization

    Models [latency.rs], [uptime.rs], [analyzer.rs] and [optimizer.rs] of
    [src/src/controller/quorum], and [perform_quorum_analysis] of
    [src/src/controller/reconciler.rs]: rolling measurements, the fragility score, the
    recommendation of a quorum set, what is published of it, and the worker that
    applies it.  The queries of a core, the API server and the clocks are requests
    with arbitrary answers; an error of [?] ends a program without the new state of
    the analyzer. *)

From stdpp Require Import prelude strings gmap list.
From Stdlib Require Import SpecFloat.
From S2P Require Import Prelude RustStr Float64 Prog BTreeMap Conditions QuorumGraph.
Local Open Scope string_scope.

(** [while window.len() > size { window.pop_front(); }]. *)
Definition trim_window {A} (window_size : nat) (l : list A) : list A := drop (length l - window_size) l.

(** ** latency.rs *)

Module LatencyMeasurement.

Record t : Type := mk { ledger_seq : Z; timestamp : DateTime; latency_ms : Z }.

End LatencyMeasurement.

Module LatencyStats.

Record t : Type := mk { mean_ms : f64; median_ms : f64; p95_ms : f64; p99_ms : f64; variance : f64 }.

End LatencyStats.

Module ConsensusLatencyTracker.

Record t : Type := mk { window_size : nat; measurements : gmap string (list LatencyMeasurement.t) }.

Definition new (window_size : nat) : t := mk window_size ∅.

Definition record_latency (validator : string) (ledger latency_ms : Z) (now : DateTime) (s : t) : t :=
  let l := default [] (measurements s !! validator) in
  mk (window_size s)
    (<[validator := trim_window (window_size s) (l ++ [LatencyMeasurement.mk ledger now latency_ms])%list]> (measurements s)).

Definition u64_sum (l : list Z) : Z := as_u64 (fold_left Z.add l 0%Z).

Definition f64_len {A} (l : list A) : f64 := f64_of_Z (Z.of_nat (length l)).

Definition percentile (p : f64) (latencies : list Z) : f64 :=
  let idx := f64_as_usize (f64_mul (f64_len latencies) p) in
  f64_of_Z (default 0%Z (latencies !! Z.to_nat (Z.min idx (Z.of_nat (length latencies) - 1)))).

(** Sum of the squared differences to a mean, over the count. *)
Definition variance_about (mean : f64) (l : list spec_float) : f64 :=
  f64_div (f64_sum ((λ x, let diff := f64_sub x mean in f64_mul diff diff) <$> l)) (f64_len l).

Definition stats_of (l : list LatencyMeasurement.t) : LatencyStats.t :=
  let latencies := sort_by Z.leb (LatencyMeasurement.latency_ms <$> l) in
  let mean := f64_div (f64_of_Z (u64_sum latencies)) (f64_len latencies) in
  let mid := length latencies / 2 in
  let at_ i := default 0%Z (latencies !! i) in
  let median :=
    if Nat.even (length latencies) then f64_div (f64_of_Z (as_u64 (at_ (mid - 1) + at_ mid))) (f64_of_Z 2)
    else f64_of_Z (at_ mid) in
  LatencyStats.mk mean median (percentile (f64_lit 95 100) latencies) (percentile (f64_lit 99 100) latencies)
    (variance_about mean (f64_of_Z <$> latencies)).

Definition get_stats (s : t) (validator : string) : option LatencyStats.t :=
  match measurements s !! validator with
  | Some ((_ :: _) as l) => Some (stats_of l)
  | _ => None
  end.

Definition measurement_count (s : t) (validator : string) : nat :=
  match measurements s !! validator with Some l => length l | None => 0 end.

Definition get_variance_across_validators `{HashIter} (s : t) : f64 :=
  let all_means := omap (λ v, LatencyStats.mean_ms <$> get_stats s v) (keys_of (measurements s)) in
  if bool_decide (all_means = []) then f64_zero
  else variance_about (f64_div (f64_sum all_means) (f64_len all_means)) all_means.

End ConsensusLatencyTracker.
Module Latency := ConsensusLatencyTracker.

(** ** uptime.rs *)

Module PeerUptimeTracker.

Record t : Type := mk { window_size : nat; samples : gmap string (list spec_float) }.

Definition new (window_size : nat) : t := mk window_size ∅.

Definition record_uptime_ratio (peer : string) (uptime_ratio : f64) (s : t) : t :=
  let ratio := f64_clamp f64_zero (f64_of_Z 1) uptime_ratio in
  let l := default [] (samples s !! peer) in
  mk (window_size s) (<[peer := trim_window (window_size s) (l ++ [ratio])%list]> (samples s)).

Definition get_mean_uptime (s : t) (peer : string) : option spec_float :=
  match samples s !! peer with
  | Some ((_ :: _) as l) => Some (f64_div (f64_sum l) (Latency.f64_len l))
  | _ => None
  end.

Definition mean_uptime_count (s : t) (peer : string) : nat :=
  match samples s !! peer with Some l => length l | None => 0 end.

End PeerUptimeTracker.
Module Uptime := PeerUptimeTracker.

(** ** analyzer.rs: data *)

Module QuorumSetRecommendation.

Record t : Type := mk {
  recommended_validators : list string;
  recommended_threshold : Z;
  message : string;
}.

End QuorumSetRecommendation.
Module Rec := QuorumSetRecommendation.

Module QuorumAnalysisResult.

Record t : Type := mk {
  critical_nodes : list string;
  min_overlap : Z;
  latency_variance : f64;
  fragility_score : f64;
  timestamp : DateTime;
  recommendation : option Rec.t;
}.

End QuorumAnalysisResult.
Module QResult := QuorumAnalysisResult.

Module QuorumAnalysisCache.

Record t : Type := mk {
  last_analysis : option QResult.t;
  last_topology_hash : option Z;
  cache_expiry : DateTime;
}.

End QuorumAnalysisCache.
Module QCache := QuorumAnalysisCache.

(** The SCP client holds its configuration only and belongs to the environment. *)
Module QuorumAnalyzer.

Record t : Type := mk {
  latency_tracker : Latency.t;
  uptime_tracker : Uptime.t;
  cache : QCache.t;
}.

Definition new (window_size : nat) (now : DateTime) : t :=
  mk (Latency.new window_size) (Uptime.new window_size) (QCache.mk None None now).

Definition record_latency (validator : string) (ledger latency_ms : Z) (now : DateTime) (a : t) : t :=
  mk (Latency.record_latency validator ledger latency_ms now (latency_tracker a)) (uptime_tracker a) (cache a).

Definition record_uptime (peer : string) (ratio : f64) (a : t) : t :=
  mk (latency_tracker a) (Uptime.record_uptime_ratio peer ratio (uptime_tracker a)) (cache a).

Definition set_cache (c : QCache.t) (a : t) : t := mk (latency_tracker a) (uptime_tracker a) c.

End QuorumAnalyzer.
Module Analyzer := QuorumAnalyzer.

(** ** Requests *)

Module QNode.

(** What is read of a [StellarNode]. *)
Record t : Set := mk {
  name : option string;
  namespace : option string;
  is_validator : bool;
  quorum_optimization : option (bool * bool);   (** enabled, and whether the mode is Auto *)
  conditions : list Condition.t;
}.

Definition name_any (n : t) : string := default "" (name n).
Definition namespace_any (n : t) : string := default "default" (namespace n).

End QNode.

Module StatusPatch.

(** The fields of the status that [update_node_status] sets. *)
Record t : Type := mk {
  quorum_fragility : f64;
  quorum_analysis_timestamp : string;
  conditions : list Condition.t;
}.

End StatusPatch.

Inductive QError : Set :=
| InvalidTopology (m : string)
| QKubeError (m : string)
| ConfigError (m : string).

Inductive QOp : Set → Type :=
| QueryScpState (pod_ip : string) : QOp (result ScpState.t string)
| QueryPeers (pod_ip : string) : QOp (result (list PeerInfo.t) string)
| ElapsedMs : QOp Z
| QUtcNow : QOp Z
| ListStellarNodes : QOp (result (list QNode.t) QError)
| ListPodIps (namespace selector : string) : QOp (result (list (option string)) QError)
| PatchQuorumSet (namespace name quorum_set : string) : QOp (result unit QError)
| PatchNodeStatus (namespace name : string) (status : StatusPatch.t) : QOp (result unit QError)
| PublishQuorumEvent (name reason note : string) : QOp (result unit QError).

Abbreviation qprog := (tree QOp QError).

Definition now_ : qprog Z := Vis QUtcNow Ret.

(** ** analyzer.rs: pure parts *)

(** [DefaultHasher]: what is fed to it, in order, and the digest. *)
Class Hasher := { hash_digest : list (string + Z) → Z }.

Definition compute_topology_hash `{Hasher} (quorum_sets : list (string * QSet.t)) : Z :=
  hash_digest (quorum_sets ≫= λ nq,
    (inl (fst nq) :: inr (QSet.threshold (snd nq)) :: (inl <$> QSet.validators (snd nq)))%list).

Definition quorum_peers (quorum_sets : list (string * QSet.t)) : gset string :=
  list_to_set (quorum_sets ≫= λ nq,
    (QSet.validators (snd nq) ++ (QSet.inner_sets (snd nq) ≫= InnerQuorumSetInfo.validators))%list).

Definition is_connected (state : string) : bool :=
  let s := to_ascii_lowercase state in
  contains "connected" s || contains "authenticated" s || contains "established" s.

(** [fragility_score = 0.5 * critical_ratio + 0.3 * overlap_penalty + 0.2 *
    latency_penalty], clamped. *)
Definition calculate_fragility_score (critical_nodes min_overlap : Z) (latency_variance : f64) (total_validators : Z)
    : f64 :=
  if (total_validators =? 0)%Z then f64_of_Z 1
  else
    let critical_ratio := f64_div (f64_of_Z critical_nodes) (f64_of_Z total_validators) in
    let expected_overlap :=
      Z.max 0 (f64_ceil_usize (f64_mul (f64_of_Z total_validators) (f64_lit 67 100)) - 1) in
    let overlap_penalty :=
      if (0 <? expected_overlap)%Z then
        f64_sub (f64_of_Z 1) (f64_min (f64_div (f64_of_Z min_overlap) (f64_of_Z expected_overlap)) (f64_of_Z 1))
      else f64_zero in
    let latency_penalty := f64_min (f64_div latency_variance (f64_of_Z 1000)) (f64_of_Z 1) in
    let score := f64_add (f64_add (f64_mul (f64_lit 5 10) critical_ratio) (f64_mul (f64_lit 3 10) overlap_penalty))
                   (f64_mul (f64_lit 2 10) latency_penalty) in
    f64_clamp f64_zero (f64_of_Z 1) score.

Section analyzer.
Context `{HashIter} `{Hasher}.

Definition MIN_UPTIME_RATIO : f64 := f64_lit 80 100.
Definition MAX_LATENCY_MS : f64 := f64_of_Z 500.
Definition LATENCY_SCORE_SCALE_MS : f64 := f64_of_Z 200.

(** [iter().max_by_key(..)]: the last of the largest. *)
Fixpoint max_by_key_from {A} (key : A → nat) (best : A) (l : list A) : A :=
  match l with
  | [] => best
  | x :: l' => max_by_key_from key (if Nat.leb (key best) (key x) then x else best) l'
  end.
Definition max_by_key {A} (key : A → nat) (l : list A) : option A :=
  match l with [] => None | x :: l' => Some (max_by_key_from key x l') end.

Definition qset_size (q : QSet.t) : nat :=
  length (QSet.validators q)
  + fold_left Nat.add ((λ i, length (InnerQuorumSetInfo.validators i)) <$> QSet.inner_sets q) 0.

Definition mean_uptime (a : Analyzer.t) (peer : string) : f64 :=
  default f64_zero (Uptime.get_mean_uptime (Analyzer.uptime_tracker a) peer).
Definition mean_latency (a : Analyzer.t) (peer : string) : f64 :=
  default (f64_mul MAX_LATENCY_MS (f64_of_Z 2))
    (LatencyStats.mean_ms <$> Latency.get_stats (Analyzer.latency_tracker a) peer).

Definition unhealthy (a : Analyzer.t) (peer : string) : bool :=
  f64_lt (mean_uptime a peer) MIN_UPTIME_RATIO || f64_gt (mean_latency a peer) MAX_LATENCY_MS.

Definition health_score (a : Analyzer.t) (peer : string) : f64 :=
  let latency_score := f64_div (f64_of_Z 1)
    (f64_add (f64_of_Z 1) (f64_max (f64_div (mean_latency a peer) LATENCY_SCORE_SCALE_MS) f64_zero)) in
  f64_add (f64_mul (f64_lit 6 10) (mean_uptime a peer)) (f64_mul (f64_lit 4 10) latency_score).

(** Higher scores first; [sort_by] is stable. *)
Definition scored_peers (a : Analyzer.t) (peers : gset string) : list (string * spec_float) :=
  sort_by (λ x y, negb (f64_gt (snd y) (snd x))) ((λ p, (p, health_score a p)) <$> items_of peers).

(** [sort_unstable] and [dedup] of the validators of the baseline. *)
Definition baseline_validators_of (q : QSet.t) : list string := BTreeSet.to_list (BTreeSet.of_list (all_validators q)).

Definition threshold_for (baseline_threshold : Z) (baseline_count new_count : nat) : Z :=
  let threshold_ratio := f64_div (f64_of_Z baseline_threshold) (f64_of_Z (Z.of_nat baseline_count)) in
  Z.min (Z.max (f64_ceil_u32 (f64_mul threshold_ratio (f64_of_Z (Z.of_nat new_count)))) 1) (as_u32 (Z.of_nat new_count)).

Definition recommendation_message (unhealthy_peers new_validators : list string) (threshold : Z) : string :=
  "Quorum optimization: replace " +:+ show_Z (Z.of_nat (length unhealthy_peers))
  +:+ " low-health peer(s) (e.g. " +:+ join ", " (take 3 unhealthy_peers)
  +:+ ") with healthier peers; recommended threshold=" +:+ show_Z threshold
  +:+ " validators=" +:+ show_Z (Z.of_nat (length new_validators)).

Definition recommend_quorum_set (a : Analyzer.t) (all_quorum_peers : gset string)
    (quorum_sets : list (string * QSet.t)) (baseline_min_overlap : Z) : option Rec.t :=
  match max_by_key qset_size (snd <$> quorum_sets) with
  | None => None
  | Some baseline_qset =>
      let baseline_validators := baseline_validators_of baseline_qset in
      if bool_decide (baseline_validators = []) then None
      else
        let unhealthy_peers := List.filter (unhealthy a) baseline_validators in
        if bool_decide (unhealthy_peers = []) then None
        else
          let new_validators := take (length baseline_validators) (fst <$> scored_peers a all_quorum_peers) in
          if Nat.ltb (length new_validators) 2 then None
          else
            let threshold := threshold_for (QSet.threshold baseline_qset) (length baseline_validators) (length new_validators) in
            let g := from_quorum_sets ((λ v, (v, QSet.mk threshold new_validators [])) <$> new_validators) in
            if negb (quorum_intersection_valid (find_critical_nodes g)) then None
            else if (min_overlap (calculate_overlaps g) <? baseline_min_overlap)%Z then None
            else Some (Rec.mk new_validators threshold
                         (recommendation_message unhealthy_peers new_validators threshold))
  end.

(** ** analyzer.rs: the analysis *)

Definition query_state (acc : Analyzer.t * list (string * QSet.t)) (pod_ip : string)
    : qprog (Analyzer.t * list (string * QSet.t)) :=
  Vis (QueryScpState pod_ip) (λ r, match r with
    | Ok scp_state =>
        elapsed_ms ← (Vis ElapsedMs Ret : qprog Z);
        now ← now_;
        let node_id := ScpState.node_id scp_state in
        mret (Analyzer.record_latency node_id (BallotState.ballot_counter (ScpState.ballot_state scp_state)) elapsed_ms now (fst acc),
              (snd acc ++ [(node_id, ScpState.quorum_set scp_state)])%list)
    | Err _ => mret acc
    end).

Definition count_connected (all_quorum_peers : gset string) (counts : gmap string Z) (peer : PeerInfo.t) : gmap string Z :=
  if bool_decide (PeerInfo.id peer ∈ all_quorum_peers) && is_connected (PeerInfo.state peer)
  then <[PeerInfo.id peer := as_u64 (default 0%Z (counts !! PeerInfo.id peer) + 1)]> counts
  else counts.

Definition query_peers (all_quorum_peers : gset string) (counts : gmap string Z) (pod_ip : string)
    : qprog (gmap string Z) :=
  Vis (QueryPeers pod_ip) (λ r, match r with
    | Ok peers => mret (fold_left (count_connected all_quorum_peers) peers counts)
    | Err _ => mret counts
    end).

Definition should_use_cache (a : Analyzer.t) (current_topology_hash : Z) : qprog bool :=
  let c := Analyzer.cache a in
  if bool_decide (QCache.last_topology_hash c = Some current_topology_hash) then
    now ← now_;
    mret ((now <? QCache.cache_expiry c)%Z && bool_decide (is_Some (QCache.last_analysis c)))
  else mret false.

Definition sample_uptime (counts : gmap string Z) (total_pods : Z) (a : Analyzer.t) (peer : string) : Analyzer.t :=
  Analyzer.record_uptime peer (f64_div (f64_of_Z (default 0%Z (counts !! peer))) (f64_of_Z total_pods)) a.

(** Critical nodes and overlap: from the cache, or of the graph. *)
Definition topology_of (cached : option QResult.t) (quorum_sets : list (string * QSet.t)) : list string * Z :=
  match cached with
  | Some c => (QResult.critical_nodes c, QResult.min_overlap c)
  | None =>
      let g := from_quorum_sets quorum_sets in
      (critical_nodes (find_critical_nodes g), min_overlap (calculate_overlaps g))
  end.

(** The result of an analysis, before its timestamp. *)
Definition assess (a : Analyzer.t) (peers : gset string) (quorum_sets : list (string * QSet.t)) (topology : list string * Z)
    (timestamp : DateTime) : QResult.t :=
  let '(critical, overlap) := topology in
  let variance := Latency.get_variance_across_validators (Analyzer.latency_tracker a) in
  QResult.mk critical overlap variance
    (calculate_fragility_score (Z.of_nat (length critical)) overlap variance (Z.of_nat (length quorum_sets)))
    timestamp (recommend_quorum_set a peers quorum_sets overlap).

Definition analyze_quorum (a : Analyzer.t) (pod_ips : list string) : qprog (QResult.t * Analyzer.t) :=
  acc ← for_each query_state pod_ips (a, []);
  let '(a, quorum_sets) := acc in
  if bool_decide (quorum_sets = []) then Throw (InvalidTopology "No quorum sets could be retrieved")
  else
    let topology_hash := compute_topology_hash quorum_sets in
    use_cache ← should_use_cache a topology_hash;
    let cached := if use_cache : bool then QCache.last_analysis (Analyzer.cache a) else None in
    let peers := quorum_peers quorum_sets in
    counts ← for_each (query_peers peers) pod_ips ∅;
    let a := fold_left (sample_uptime counts (Z.max (Z.of_nat (length pod_ips)) 1)) (items_of peers) a in
    let topology := topology_of cached quorum_sets in
    timestamp ← now_;
    let r := assess a peers quorum_sets topology timestamp in
    now ← now_;
    mret (r, Analyzer.set_cache (QCache.mk (Some r) (Some topology_hash) (now + seconds 300)) a).
End analyzer.

(** ** analyzer.rs: the status *)

Definition FRAGILE : f64 := f64_lit 7 10.

(** [position(..)], then an assignment, or [push]. *)
Definition put_condition (c : Condition.t) (l : list Condition.t) : list Condition.t :=
  match find_first (has_type (Condition.type_ c)) l with
  | Some _ => update_first (has_type (Condition.type_ c)) (λ _, c) l
  | None => (l ++ [c])%list
  end.

Definition fragile_message (r : QResult.t) : string :=
  "Quorum fragility score " +:+ fmt3 (QResult.fragility_score r) +:+ " exceeds threshold (critical_nodes="
  +:+ show_Z (Z.of_nat (length (QResult.critical_nodes r))) +:+ ", min_overlap="
  +:+ show_Z (QResult.min_overlap r) +:+ ")".

Section status.
Context (to_rfc3339 : DateTime → string).

Definition fragility_conditions (r : QResult.t) (l : list Condition.t) : qprog (list Condition.t) :=
  if f64_gt (QResult.fragility_score r) FRAGILE then
    now ← now_;
    mret (put_condition (Condition.mk "Degraded" "True" (to_rfc3339 now) "QuorumFragile" (fragile_message r) None) l)
  else
    mret (List.filter (λ c, negb (has_type "Degraded" c) || negb (String.eqb (Condition.reason c) "QuorumFragile")) l).

Definition recommendation_conditions (r : QResult.t) (l : list Condition.t) : qprog (list Condition.t) :=
  match QResult.recommendation r with
  | Some rec =>
      now ← now_;
      mret (put_condition (Condition.mk "QuorumOptimizationRecommended" "True" (to_rfc3339 now) "PeerHealthRebalance"
                             (Rec.message rec) None) l)
  | None => mret (List.filter (λ c, negb (has_type "QuorumOptimizationRecommended" c)) l)
  end.

Definition update_node_status (node : QNode.t) (r : QResult.t) : qprog unit :=
  match QNode.namespace node, QNode.name node with
  | None, _ => Throw (InvalidTopology "Node has no namespace")
  | _, None => Throw (InvalidTopology "Node has no name")
  | Some namespace, Some name =>
      l ← fragility_conditions r (QNode.conditions node);
      l ← recommendation_conditions r l;
      request (PatchNodeStatus namespace name
        (StatusPatch.mk (QResult.fragility_score r) (to_rfc3339 (QResult.timestamp r)) l))
  end.

(** ** reconciler.rs *)

(** The error a step of the pass reports; a query never throws, so these are the
    errors of the analysis and of the status patch. *)
Fixpoint map_err {A} (f : QError → QError) (p : qprog A) : qprog A :=
  match p with
  | Ret a => Ret a
  | Throw e => Throw (f e)
  | Vis op k => Vis op (λ x, map_err f (k x))
  end.

Definition show_error (e : QError) : string :=
  match e with
  | InvalidTopology m => "Invalid quorum topology: " +:+ m
  | QKubeError m => "Kubernetes API error: " +:+ m
  | ConfigError m => m
  end.

(** A pass that the 30 s timeout cuts short makes a prefix of the requests of the
    analysis and ends in an error. *)
Definition perform_quorum_analysis `{HashIter} `{Hasher} (node : QNode.t) : qprog unit :=
  ips ← request (ListPodIps (QNode.namespace_any node) ("app.kubernetes.io/instance=" +:+ QNode.name_any node));
  let pod_ips := omap id (ips : list (option string)) in
  if bool_decide (pod_ips = []) then mret tt
  else
    now ← now_;
    ra ← map_err (λ e, ConfigError ("Quorum analysis failed: " +:+ show_error e))
           (analyze_quorum (Analyzer.new 100 now) pod_ips);
    map_err (λ e, ConfigError ("Failed to update status: " +:+ show_error e)) (update_node_status node (fst ra)).
End status.

(** ** optimizer.rs *)

Section optimizer.
Context `{HashIter} `{Hasher}.

Definition quorum_set_text (rec : Rec.t) : string :=
  "THRESHOLD=" +:+ show_Z (Rec.recommended_threshold rec) +:+ newline
  +:+ "VALIDATORS=[" +:+ newline
  +:+ String.concat "" ((λ v, "  " +:+ String (byte 34) (v +:+ String (byte 34) ("," +:+ newline))) <$> Rec.recommended_validators rec)
  +:+ "]" +:+ newline.

Definition emit_optimization_event (node : QNode.t) (reason message : string) : qprog unit :=
  request (PublishQuorumEvent (QNode.name_any node) reason message).

Definition apply_recommendation (node : QNode.t) (rec : Rec.t) : qprog unit :=
  _ ← request (PatchQuorumSet (QNode.namespace_any node) (QNode.name_any node) (quorum_set_text rec));
  emit_optimization_event node "QuorumOptimizationApplied" (Rec.message rec).

Definition suggest_recommendation (node : QNode.t) (rec : Rec.t) : qprog unit :=
  emit_optimization_event node "QuorumOptimizationSuggested" (Rec.message rec).

(** [match p.await { Ok(..) => .., Err(e) => warn }], with the analyzer of the error
    branch: an analysis fails before it records anything. *)
Fixpoint catch {A B} (p : qprog A) (f : A → qprog B) (recover : qprog B) : qprog B :=
  match p with
  | Ret a => f a
  | Throw _ => recover
  | Vis op k => Vis op (λ x, catch (k x) f recover)
  end.

Definition optimize_node (node : QNode.t) (auto : bool) (a : Analyzer.t) : qprog Analyzer.t :=
  ips ← request (ListPodIps (QNode.namespace_any node)
                   ("app.kubernetes.io/instance=" +:+ QNode.name_any node +:+ ",stellar.org/node-type=validator"));
  let pod_ips := omap id (ips : list (option string)) in
  if bool_decide (pod_ips = []) then mret a
  else
    catch (analyze_quorum a pod_ips)
      (λ ra, let '(r, a) := ra in
         match QResult.recommendation r with
         | Some rec =>
             _ ← (if auto then apply_recommendation node rec else suggest_recommendation node rec);
             mret a
         | None => mret a
         end)
      (mret a).

Definition optimize_listed (a : Analyzer.t) (node : QNode.t) : qprog Analyzer.t :=
  match QNode.quorum_optimization node with
  | Some (enabled, auto) =>
      if QNode.is_validator node && enabled then optimize_node node auto a else mret a
  | None => mret a
  end.

Definition optimize_all_nodes (a : Analyzer.t) : qprog Analyzer.t :=
  l ← request ListStellarNodes;
  for_each optimize_listed l a.
End optimizer.
