(* ===== verification/QuorumProps.v ===== *)
(** * Quorum analysis: theorems

    The recommendation and what the optimization worker writes, the measurement
    windows, the fragility score, and the cache of topologies. *)

From stdpp Require Import prelude strings gmap list.
From Stdlib Require Import SpecFloat.
From S2P Require Import Prelude RustStr Float64 Prog BTreeMap Conditions QuorumGraph QuorumFacts QuorumAnalyzer.

(** ** Overlaps of one quorum set *)

Lemma fold_max {A} (f : A → Z) l m b :
  (m ≤ b)%Z → (∀ x, x ∈ l → (f x ≤ b)%Z) →
  let r := fold_left (λ m x, Z.max m (f x)) l m in
  (m ≤ r ≤ b)%Z ∧ ∀ x, x ∈ l → (f x ≤ r)%Z.
Proof.
  revert m. induction l as [|x l IH]; intros m Hm Hl; simpl; [split; [lia|by intros x ?%not_elem_of_nil]|].
  destruct (IH (Z.max m (f x))) as [Hr Hx].
  - specialize (Hl x ltac:(left)). lia.
  - intros; apply Hl; by right.
  - split; [lia|]. intros y [->|Hy]%elem_of_cons; [lia|by apply Hx].
Qed.

Lemma max_pair_overlap_eq l k s :
  (0 ≤ k)%Z → (∀ s t, s ∈ l → t ∈ l → (check_quorum_intersection_size s t ≤ k)%Z) →
  s ∈ l → check_quorum_intersection_size s s = k → max_pair_overlap l l = k.
Proof.
  intros Hk Hle Hs Heq. unfold max_pair_overlap.
  assert (∀ l' m, (∀ x, x ∈ l' → x ∈ l) → (m ≤ k)%Z →
    let r := fold_left (λ m s1, fold_left (λ m s2, Z.max m (check_quorum_intersection_size s1 s2)) l m) l' m in
    (m ≤ r ≤ k)%Z ∧ (s ∈ l' → (k ≤ r)%Z)) as Hf.
  { intros l'. induction l' as [|x l' IH]; intros m Hsub Hm; simpl; [split; [lia|by intros ?%not_elem_of_nil]|].
    destruct (fold_max (check_quorum_intersection_size x) l m k Hm) as [Hr Hx].
    { intros t Ht. apply Hle; [apply Hsub; by left|done]. }
    destruct (IH (fold_left (λ m s2, Z.max m (check_quorum_intersection_size x s2)) l m)) as [Hr' Hs'].
    { intros y Hy. apply Hsub. by right. } { lia. }
    split; [lia|]. intros [->|Hin]%elem_of_cons; [|auto]. specialize (Hx x Hs). lia. }
  destruct (Hf l 0%Z) as [Hr Hs']; [done|done|]. specialize (Hs' Hs). lia.
Qed.

Lemma elem_of_pairs {A} (l : list A) x y : (x, y) ∈ pairs_of l → x ∈ l ∧ y ∈ l.
Proof.
  induction l as [|z l IH]; [by intros ?%not_elem_of_nil|]. cbn [pairs_of]. rewrite elem_of_app, list_elem_of_fmap.
  intros [(w & [= -> ->] & Hw)|Hin]; [split; [by left|by right]|]. destruct (IH Hin). by split; right.
Qed.

Section uniform.
Context `{HashIter}.

Lemma note_pairs_const g k l acc :
  (0 < k)%Z → (∀ v w, (v, w) ∈ l → max_pair_overlap (compute_quorum_slices g v) (compute_quorum_slices g w) = k) →
  let '(_, mn, _, _, _) := acc in
  let '(_, mn', _, _, _) := fold_left (note_pair g) l acc in
  mn' = if bool_decide (l = []) then mn else Z.min mn k.
Proof.
  intros Hk. revert acc. induction l as [|[v w] l IH]; intros [[[[ps mn] mx] tot] n] Hl; [done|].
  cbn [fold_left]. unfold note_pair at 2. cbn [fst snd]. rewrite (Hl v w) by by left. rewrite (proj2 (Z.ltb_lt 0 k)) by done.
  specialize (IH ((ps ++ [(v, w, k)])%list, Z.min mn k, Z.max mx k, as_u64 (tot + k), as_u64 (n + 1))).
  simpl in IH. simpl. destruct (fold_left (note_pair g) l _) as [[[[ps' mn'] mx'] tot'] n'].
  rewrite IH by (intros; apply Hl; by right). case_bool_decide; lia.
Qed.

Lemma uniform_overlap vs k :
  NoDup vs → 2 ≤ length vs → (1 ≤ k ≤ Z.of_nat (length vs))%Z → (k < 2 ^ 32)%Z →
  min_overlap (calculate_overlaps (uniform vs k)) = k.
Proof.
  intros Hn Hlen Hk Hbig. set (g := uniform vs k).
  set (q := QSet.mk k vs []). assert (∀ v, v ∈ vs → compute_quorum_slices g v = enumerate_slices q) as Hslices.
  { intros v Hv. unfold compute_quorum_slices.
    assert (nodes g !! v = Some (QuorumNode.mk v q)) as -> by by apply uniform_lookup. done. }
  assert (∀ s, s ∈ enumerate_slices q ↔ choice vs (Z.to_nat k) s) as Hq.
  { intros s. rewrite enumerate_slices_spec. unfold slice_of, all_validators. simpl. split; [naive_solver|].
    split; [|done]. intros Hnil. rewrite Hnil in Hlen. simpl in Hlen. lia. }
  assert (max_pair_overlap (enumerate_slices q) (enumerate_slices q) = k) as Hmax.
  { apply (max_pair_overlap_eq _ _ (list_to_set (take (Z.to_nat k) vs))); [lia| | |].
    - intros s t Hs%Hq Ht%Hq. apply (choice_size vs) in Hs as [Hs _]; [|done]. unfold check_quorum_intersection_size.
      assert (size (s ∩ t) ≤ size s) by (apply subseteq_size; set_solver). lia.
    - apply Hq. exists (take (Z.to_nat k) vs). split; [apply sublist_take|]. rewrite length_take. by split; [lia|].
    - unfold check_quorum_intersection_size. rewrite intersection_idemp_L, size_list_to_set.
      + rewrite length_take. lia.
      + eapply sublist_NoDup; [done|apply sublist_take]. }
  assert (∀ v, v ∈ keys_of (nodes g) → v ∈ vs) as Hkeys.
  { intros v Hv. rewrite keys_of_perm in Hv. apply list_elem_of_fmap in Hv as ([v' n] & -> & Hin).
    apply elem_of_map_to_list, uniform_lookup in Hin. naive_solver. }
  assert (pairs_of (keys_of (nodes g)) ≠ []) as Hpairs.
  { assert (2 ≤ length (keys_of (nodes g))) as Hl.
    { rewrite keys_of_perm. transitivity (length vs); [done|]. apply submseteq_length, NoDup_submseteq; [done|].
      intros v Hv. apply list_elem_of_fmap. exists (v, QuorumNode.mk v q). split; [done|].
      apply elem_of_map_to_list. by apply uniform_lookup. }
    destruct (keys_of (nodes g)) as [|a [|b l]]; simpl in Hl; [lia|lia|done]. }
  unfold calculate_overlaps.
  pose proof (note_pairs_const g k (pairs_of (keys_of (nodes g))) ([], USIZE_MAX, 0, 0, 0)%Z ltac:(lia)) as Hfold.
  destruct (fold_left (note_pair g) _ _) as [[[[ps mn] mx] tot] n]. simpl. rewrite Hfold.
  - rewrite bool_decide_false by done. unfold USIZE_MAX in *. destruct (Z.eqb_spec (Z.min (2 ^ 64 - 1) k) (2 ^ 64 - 1)); lia.
  - intros v w [Hv Hw]%elem_of_pairs. by rewrite !Hslices by by apply Hkeys.
Qed.

Lemma uniform_size vs k : NoDup vs → length vs ≤ length (map_to_list (nodes (uniform vs k))).
Proof.
  intros Hn. rewrite <- (length_fmap fst). apply submseteq_length, NoDup_submseteq; [done|].
  intros v Hv. apply list_elem_of_fmap. exists (v, QuorumNode.mk v (QSet.mk k vs [])). split; [done|].
  apply elem_of_map_to_list. by apply uniform_lookup.
Qed.

Lemma bind_singletons {A B} (f : A → list B) y l : (∀ x, x ∈ l → f x = [y]) → l ≫= f = replicate (length l) y.
Proof.
  induction l as [|x l IH]; intros Hl; [done|]. rewrite bind_cons, (Hl x), IH; [done| |by left].
  intros; apply Hl; by right.
Qed.

(** With a threshold of 0 every slice is empty, and no two of them meet. *)
Lemma uniform_zero vs : NoDup vs → 2 ≤ length vs → has_quorum_intersection (uniform vs 0) = false.
Proof.
  intros Hn Hlen. rewrite intersection_eq. apply andb_false_iff. right.
  assert (slices (uniform vs 0) = replicate (length (map_to_list (nodes (uniform vs 0)))) ∅) as ->.
  { apply bind_singletons. intros [v n] Hin. apply elem_of_map_to_list, uniform_lookup in Hin as [_ ->]. simpl.
    unfold enumerate_slices, all_validators. simpl. rewrite bool_decide_false; [done|]. intros ->. simpl in Hlen. lia. }
  pose proof (uniform_size vs 0 Hn). destruct (length (map_to_list _)) as [|[|n]]; [lia|lia|done].
Qed.
End uniform.

(** ** The recommendation *)

(** A quorum set any two slices of which meet: distinct members, and a threshold that
    is a majority of them. *)
Definition majority_set (validators : list string) (threshold : Z) : Prop :=
  NoDup validators ∧ 2 ≤ length validators
  ∧ (Z.of_nat (length validators) < 2 * threshold)%Z ∧ (threshold ≤ Z.of_nat (length validators))%Z.

Section recommendations.
Context `{HashIter} `{Hasher}.

Lemma scored_peers_perm a peers : (scored_peers a peers).*1 ≡ₚ elements peers.
Proof.
  unfold scored_peers. rewrite sort_by_Permutation, <- list_fmap_compose. rewrite <- items_of_perm.
  unfold compose. simpl. by rewrite list_fmap_id.
Qed.

Lemma threshold_range t n m : (0 ≤ threshold_for t n m ≤ Z.of_nat m)%Z ∧ (threshold_for t n m < 2 ^ 32)%Z
  ∧ (threshold_for t n m = 0 ∨ 1 ≤ threshold_for t n m)%Z.
Proof.
  unfold threshold_for. pose proof (as_u32_range (Z.of_nat m)) as Hr. unfold in_u32 in Hr.
  assert (as_u32 (Z.of_nat m) ≤ Z.of_nat m)%Z by (unfold as_u32; apply Z.mod_le; lia). lia.
Qed.

Lemma recommendation_spec a peers qs m rec :
  recommend_quorum_set a peers qs m = Some rec →
  majority_set (Rec.recommended_validators rec) (Rec.recommended_threshold rec)
  ∧ (∀ v, v ∈ Rec.recommended_validators rec → v ∈ peers) ∧ (m ≤ Rec.recommended_threshold rec)%Z.
Proof.
  unfold recommend_quorum_set. destruct (max_by_key _ _) as [q|]; [|done]. case_bool_decide; [done|].
  case_bool_decide; [done|]. set (vs := take _ _). set (k := threshold_for _ _ _).
  destruct (Nat.ltb_spec (length vs) 2) as [?|Hlen]; [done|].
  assert (NoDup vs) as Hn.
  { eapply sublist_NoDup; [|apply sublist_take]. rewrite scored_peers_perm. apply NoDup_elements. }
  destruct (threshold_range (QSet.threshold q) (length (baseline_validators_of q)) (length vs)) as (Hk & Hk' & Hk0).
  fold k in Hk, Hk', Hk0. fold (uniform vs k).
  rewrite (proj2 (critical_nodes_spec (uniform vs k))).
  destruct (has_quorum_intersection (uniform vs k)) eqn:Hi; [|done]. simpl.
  destruct Hk0 as [Hk0|Hk1]; [rewrite Hk0, uniform_zero in Hi by done; done|].
  rewrite uniform_overlap by (done || lia). destruct (Z.ltb_spec k m) as [?|Hm]; [done|]. intros [= <-]. simpl.
  apply uniform_intersection in Hi; [|done|intros Hnil; rewrite Hnil in Hlen; simpl in Hlen; lia|lia].
  split; [split; [done|]; split; [done|]; lia|]. split; [|done].
  intros v Hv%subseteq_take. by rewrite scored_peers_perm, elem_of_elements in Hv.
Qed.
End recommendations.

(** ** The optimization worker *)

Abbreviation qevent := (Prog.event QOp).
Definition no_quorum_patch : Prog.op_pred QOp := λ X op, match op with PatchQuorumSet _ _ _ => false | _ => true end.

Section worker.
Context `{HashIter} `{Hasher}.

Lemma analyze_recommends a ips :
  post (analyze_quorum a ips) (λ r, match r with
    | Ok (res, _) => ∀ rec, QResult.recommendation res = Some rec →
        majority_set (Rec.recommended_validators rec) (Rec.recommended_threshold rec)
    | Err _ => True
    end).
Proof.
  unfold analyze_quorum. apply post_bind. eapply post_mono; [apply post_true|]. intros [[a1 qs]|e] _; [|done].
  cbv beta iota zeta. case_bool_decide; [done|]. apply post_bind. eapply post_mono; [apply post_true|].
  intros [use|e] _; [|done]. apply post_bind. eapply post_mono; [apply post_true|]. intros [counts|e] _; [|done].
  unfold now_. cbn [mbind tree_bind bind post mret tree_ret]. intros t1 t2 rec Hrec.
  unfold assess in Hrec. destruct (topology_of _ _) as [critical overlap]. simpl in Hrec.
  by apply recommendation_spec in Hrec as (? & _).
Qed.

Lemma query_state_ops acc ip : all_ops no_quorum_patch (query_state acc ip).
Proof. split; [done|]. intros [s|e]; [|done]. unfold now_. ops. Qed.

Lemma analyze_ops a ips : all_ops no_quorum_patch (analyze_quorum a ips).
Proof.
  unfold analyze_quorum. apply all_ops_bind; [apply all_ops_for_each; apply query_state_ops|]. intros [a1 qs].
  case_bool_decide; [done|]. apply all_ops_bind.
  { unfold should_use_cache, now_. case_bool_decide; [|done]. ops. }
  intros use. apply all_ops_bind.
  { apply all_ops_for_each. intros c ip. split; [done|]. by intros []. }
  intros counts. unfold now_. ops.
Qed.

Lemma wp_catch {A B} (P : list qevent → qevent → Prop) (p : qprog A) (f : A → qprog B) recover Q h :
  wp P p (λ h' r, match r with Ok a => wp P (f a) Q h' | Err _ => wp P recover Q h' end) h →
  wp P (catch p f recover) Q h.
Proof.
  revert h. induction p as [a|e|X op k IH]; intros h Hp; simpl in *; [done|done|].
  intros x. destruct (Hp x). auto.
Qed.

(** What a patch of a quorum set writes, and for which node. *)
Definition patch_safe (h : list qevent) (e : qevent) : Prop :=
  match e with
  | Ev (PatchQuorumSet ns name text) _ =>
      ∃ listed node rec, Ev ListStellarNodes (Ok listed) ∈ h ∧ node ∈ listed
        ∧ QNode.is_validator node = true ∧ QNode.quorum_optimization node = Some (true, true)
        ∧ ns = QNode.namespace_any node ∧ name = QNode.name_any node ∧ text = quorum_set_text rec
        ∧ majority_set (Rec.recommended_validators rec) (Rec.recommended_threshold rec)
  | _ => True
  end.

Lemma no_patch_safe h e : ev_pred no_quorum_patch e = true → patch_safe h e.
Proof. destruct e as [X op x]. by destruct op. Qed.

Lemma wp_optimize_node listed node auto a h :
  Ev ListStellarNodes (Ok listed) ∈ h → node ∈ listed → QNode.is_validator node = true →
  QNode.quorum_optimization node = Some (true, auto) →
  wp patch_safe (optimize_node node auto a) (λ h' _, ∃ tr, h' = h ++ tr) h.
Proof.
  intros Hl Hn Hv Ho. unfold optimize_node. apply wp_bind, (wp_all_ops no_quorum_patch); [ops|intros; by apply no_patch_safe|].
  intros tr [ips|e] _; [|by exists tr]. cbn [then_]. cbv zeta. case_bool_decide; [by exists tr|].
  apply wp_catch, (wp_all_ops no_quorum_patch); [apply analyze_ops|intros; by apply no_patch_safe|].
  intros tr' r Hex. apply (post_exec _ _ _ _ (analyze_recommends _ _)) in Hex. rewrite <- app_assoc.
  destruct r as [[res a']|e]; [|by eexists]. destruct (QResult.recommendation res) as [rec|] eqn:Hrec; [|by eexists].
  apply wp_bind. destruct auto.
  - unfold apply_recommendation. cbn. intros r. split.
    + exists listed, node, rec. split; [by apply elem_of_app; left|]. repeat (split; [done|]). by apply Hex.
    + destruct r as [[]|e]; cbn; [|rewrite <- app_assoc; by eexists]. intros r. split; [done|].
      destruct r as [[]|e]; cbn; rewrite <- !app_assoc; by eexists.
  - cbn. intros r. split; [done|]. destruct r as [[]|e]; cbn; rewrite <- !app_assoc; by eexists.
Qed.

Lemma wp_optimize_all a : wp patch_safe (optimize_all_nodes a) (λ _ _, True) [].
Proof.
  unfold optimize_all_nodes. apply wp_bind. cbn. intros [listed|e]; (split; [done|]); [|done]. cbn [then_].
  apply (wp_for_each _ (λ rest _ h, (∀ n, n ∈ rest → n ∈ listed) ∧ Ev ListStellarNodes (Ok listed) ∈ h)); [split; [done|by left]| |done].
  intros node rest a' h (Hrest & Hl). unfold optimize_listed.
  assert ((∀ n, n ∈ rest → n ∈ listed)) as Hr by (intros; apply Hrest; by right).
  destruct (QNode.quorum_optimization node) as [[enabled auto]|] eqn:Ho; [|by split].
  destruct (QNode.is_validator node && enabled) eqn:Hv; [|by split]. apply andb_prop in Hv as [Hv ->].
  eapply wp_mono; [apply (wp_optimize_node listed); [done|apply Hrest; by left|done|done]|].
  intros tr [a''|e] _; [|done]. split; [done|]. apply elem_of_app. by left.
Qed.

(** C5: Applied quorum sets intersect.  Every quorum set the optimization worker
    writes, from any state of the analyzer and whatever the cores and the API server
    answer, is written for a listed validator that has automatic optimization
    enabled in a listing the worker read before, names distinct validators, at least
    two, and has a threshold that is a majority of them, so that any two of its slices
    have a member in common. *)
Theorem applied_quorum_sets_are_safe a tr r ns name text x :
  exec (optimize_all_nodes a) tr r → Ev (PatchQuorumSet ns name text) x ∈ tr →
  ∃ before listed after node rec,
    tr = before ++ Ev ListStellarNodes (Ok listed) :: after ∧ Ev (PatchQuorumSet ns name text) x ∈ after ∧ node ∈ listed
    ∧ QNode.is_validator node = true ∧ QNode.quorum_optimization node = Some (true, true)
    ∧ ns = QNode.namespace_any node ∧ name = QNode.name_any node ∧ text = quorum_set_text rec
    ∧ majority_set (Rec.recommended_validators rec) (Rec.recommended_threshold rec)
    ∧ ∀ s t, choice (Rec.recommended_validators rec) (Z.to_nat (Rec.recommended_threshold rec)) s →
        choice (Rec.recommended_validators rec) (Z.to_nat (Rec.recommended_threshold rec)) t → ∃ v, v ∈ s ∧ v ∈ t.
Proof.
  intros Hex Hin. apply wp_sound with (1 := wp_optimize_all a) in Hex as [Hev _].
  apply list_elem_of_split in Hin as (h & t & ->).
  destruct (Hev h _ t eq_refl) as (listed & node & rec & Hl & Hin & Hv & Ho & Hns & Hname & Htext & Hm).
  rewrite app_nil_l in Hl. apply list_elem_of_split in Hl as (before & between & ->).
  exists before, listed, (between ++ Ev (PatchQuorumSet ns name text) x :: t), node, rec.
  split; [by rewrite <- app_assoc|]. split; [set_solver|]. do 7 (split; [done|]). destruct Hm as (Hn & Hlen & Hmaj & Hle). intros s t'.
  apply majorities_meet; [done|lia].
Qed.
End worker.

(** ** Windows and scores *)

Definition unit_range : f64 → Prop := f64_within f64_zero (f64_of_Z 1).

Lemma clamp_unit x : unit_range (f64_clamp f64_zero (f64_of_Z 1) x).
Proof. apply f64_clamp_within; vm_compute; reflexivity. Qed.

Lemma fragility_unit c o v n : unit_range (calculate_fragility_score c o v n).
Proof.
  unfold calculate_fragility_score. destruct (n =? 0)%Z; [right; split; vm_compute; reflexivity|]. apply clamp_unit.
Qed.

(** Windows no longer than their size, of samples in the unit interval. *)
Record bounded (a : Analyzer.t) : Prop := {
  bd_latency : ∀ v l, Latency.measurements (Analyzer.latency_tracker a) !! v = Some l →
    length l ≤ Latency.window_size (Analyzer.latency_tracker a);
  bd_uptime : ∀ v l, Uptime.samples (Analyzer.uptime_tracker a) !! v = Some l →
    length l ≤ Uptime.window_size (Analyzer.uptime_tracker a) ∧ Forall unit_range l;
}.

Lemma length_trim {A} n (l : list A) : length (trim_window n l) ≤ n.
Proof. unfold trim_window. rewrite length_drop. lia. Qed.

Lemma record_latency_bounded v ledger ms now a : bounded a → bounded (Analyzer.record_latency v ledger ms now a).
Proof.
  intros [Hl Hu]. split; simpl; [|done]. intros w l. destruct (decide (v = w)) as [<-|Hne].
  - rewrite lookup_insert_eq. intros [= <-]. apply length_trim.
  - rewrite lookup_insert_ne by done. apply Hl.
Qed.

Lemma record_uptime_bounded p ratio a : bounded a → bounded (Analyzer.record_uptime p ratio a).
Proof.
  intros [Hl Hu]. split; simpl; [done|]. intros w l. destruct (decide (p = w)) as [<-|Hne].
  - rewrite lookup_insert_eq. intros [= <-]. split; [apply length_trim|]. unfold trim_window. apply Forall_drop.
    apply Forall_app. split; [|apply Forall_singleton, clamp_unit].
    destruct (Uptime.samples _ !! p) as [l'|] eqn:E; [by apply Hu in E as [_ ?]|constructor].
  - rewrite lookup_insert_ne by done. apply Hu.
Qed.

Lemma samples_bounded counts total l a : bounded a → bounded (fold_left (sample_uptime counts total) l a).
Proof. revert a. induction l as [|p l IH]; intros a Ha; [done|]. by apply IH, record_uptime_bounded. Qed.

Section windows.
Context `{HashIter} `{Hasher}.

(** An analysis keeps its measurements bounded.  From a state whose windows are
    within their sizes and hold uptime samples between 0 and 1, whatever the cores
    answer, an analysis ends in such a state, and the fragility it reports is between
    0 and 1 (or not a number). *)
Theorem analysis_keeps_the_windows a ips tr r a' :
  bounded a → exec (analyze_quorum a ips) tr (Ok (r, a')) → bounded a' ∧ unit_range (QResult.fragility_score r).
Proof.
  intros Ha Hex. assert (post (analyze_quorum a ips) (λ res, match res with
    | Ok (r, a') => bounded a' ∧ unit_range (QResult.fragility_score r) | Err _ => True end)) as Hp.
  2: { by apply (post_exec _ _ _ _ Hp) in Hex. }
  unfold analyze_quorum. apply post_bind, (post_for_each (λ _ acc, bounded (fst acc))); [done| |].
  - clear. intros ip rest [a qs] Ha. cbn. intros [s|e]; cbn; [|done]. intros ms now. by apply record_latency_bounded.
  - clear a Ha Hex. intros [a qs] Ha. cbn [fst] in Ha. case_bool_decide; [done|]. cbv zeta. apply post_bind.
    eapply post_mono; [apply post_true|]. intros [use|e] _; [|done].
    apply post_bind. eapply post_mono; [apply post_true|]. intros [counts|e] _; [|done].
    unfold now_. cbn [mbind tree_bind bind post mret tree_ret]. intros t1 t2. split.
    + destruct (samples_bounded counts (Z.max (Z.of_nat (length ips)) 1) (items_of (quorum_peers qs)) a Ha) as [Hl Hu]. by split.
    + unfold assess. destruct (topology_of _ _). apply fragility_unit.
Qed.
End windows.

(** ** The published conditions *)

Definition of_type (ty : string) (c : Condition.t) : Prop := Condition.type_ c = ty.
Definition fragile (c : Condition.t) : Prop := of_type "Degraded" c ∧ Condition.reason c = "QuorumFragile"%string.

(** The conditions the analysis does not own. *)
Definition others (l : list Condition.t) : list Condition.t :=
  List.filter (λ c, negb (has_type "Degraded" c) && negb (has_type "QuorumOptimizationRecommended" c)) l.

Lemma others_update ty c l :
  ty = "Degraded"%string ∨ ty = "QuorumOptimizationRecommended"%string → Condition.type_ c = ty →
  others (put_condition c l) = others l.
Proof.
  intros Hty Hc. assert (∀ c', has_type (Condition.type_ c) c' = true →
    negb (has_type "Degraded" c') && negb (has_type "QuorumOptimizationRecommended" c') = false) as Hown.
  { intros c' Hc'%String.eqb_eq. unfold has_type. rewrite Hc', Hc. by destruct Hty as [->| ->]. }
  assert (has_type (Condition.type_ c) c = true) as Hself by apply String.eqb_refl.
  unfold put_condition, others. destruct (find_first _ l) eqn:E.
  - clear E. induction l as [|c' l IH]; [done|]. simpl. destruct (has_type (Condition.type_ c) c') eqn:Hc'.
    + simpl. by rewrite (Hown c Hself), (Hown c' Hc').
    + simpl. by rewrite IH.
  - rewrite List.filter_app. simpl. rewrite (Hown c Hself). by rewrite app_nil_r.
Qed.

Lemma put_in c l : c ∈ put_condition c l.
Proof.
  unfold put_condition. destruct (find_first _ l) as [y|] eqn:E; [|set_solver].
  apply find_first_Some in E as [Hin Hy]. induction l as [|z l IH]; [by apply not_elem_of_nil in Hin|]. simpl.
  destruct (has_type (Condition.type_ c) z) eqn:Hz; [by left|]. right. apply IH.
  apply elem_of_cons in Hin as [->|?]; [congruence|done].
Qed.

Lemma put_keeps c c' l : Condition.type_ c' ≠ Condition.type_ c → c' ∈ put_condition c l ↔ c' ∈ l.
Proof.
  intros Hne. assert (has_type (Condition.type_ c) c' = false) as Hty by by apply String.eqb_neq.
  unfold put_condition. destruct (find_first _ l); [|set_solver]. induction l as [|z l IH]; [done|]. simpl.
  destruct (has_type (Condition.type_ c) z) eqn:Hz; rewrite !elem_of_cons; [|by rewrite IH].
  split; (intros [->|?]; [|by right]); [done|congruence].
Qed.

Lemma others_filter (p : Condition.t → bool) l :
  (∀ c, negb (has_type "Degraded" c) && negb (has_type "QuorumOptimizationRecommended" c) = true → p c = true) →
  others (List.filter p l) = others l.
Proof.
  intros Hp. unfold others. induction l as [|c l IH]; [done|]. simpl. destruct (p c) eqn:E; simpl; rewrite IH; [done|].
  destruct (negb _ && _) eqn:E'; [|done]. rewrite Hp in E; done.
Qed.

Section published.
Context (to_rfc3339 : DateTime → string).

Lemma fragility_post r l :
  post (fragility_conditions to_rfc3339 r l) (λ res, match res with
    | Ok l' => ((∃ c, c ∈ l' ∧ fragile c) ↔ f64_gt (QResult.fragility_score r) FRAGILE = true) ∧ others l' = others l
    | Err _ => False
    end).
Proof.
  unfold fragility_conditions. destruct (f64_gt _ FRAGILE); cbn.
  - intros now. split; [|by apply (others_update "Degraded"); [left|]]. split; [done|]. intros _.
    eexists. split; [apply put_in|done].
  - split; [|apply others_filter; intros c [-> _]%andb_prop; done]. split; [|done].
    intros (c & [_ Hk]%elem_of_lfilter & Ht & Hr). exfalso. unfold of_type in Ht.
    apply orb_prop in Hk as [Hk%negb_true_iff|Hk%negb_true_iff].
    + apply String.eqb_neq in Hk. congruence.
    + apply String.eqb_neq in Hk. congruence.
Qed.

Lemma recommendation_post r l :
  post (recommendation_conditions to_rfc3339 r l) (λ res, match res with
    | Ok l' => ((∃ c, c ∈ l' ∧ of_type "QuorumOptimizationRecommended" c) ↔ is_Some (QResult.recommendation r))
               ∧ others l' = others l ∧ ∀ c, fragile c → (c ∈ l' ↔ c ∈ l)
    | Err _ => False
    end).
Proof.
  unfold recommendation_conditions. destruct (QResult.recommendation r) as [rec|]; cbn.
  - intros now. split; [|split; [by apply (others_update "QuorumOptimizationRecommended"); [right|]|]].
    + split; [by eexists|]. intros _. eexists. split; [apply put_in|done].
    + intros c [Ht _]. apply put_keeps. unfold of_type in Ht. rewrite Ht. done.
  - split; [|split; [apply others_filter; intros c [_ ->]%andb_prop; done|]].
    + split; [|by intros [? ?]]. intros (c & [_ Hk%negb_true_iff]%elem_of_lfilter & Ht). exfalso.
      apply String.eqb_neq in Hk. unfold of_type in Ht. congruence.
    + intros c [Ht _]. rewrite elem_of_lfilter. unfold has_type, of_type in *. rewrite Ht. naive_solver.
Qed.

(** The published conditions follow the analysis.  The status an analysis is
    published with carries its score, has a Degraded condition for a fragile quorum
    exactly when the score is above 0.7, has the recommendation condition exactly when
    there is a recommendation, and keeps the conditions of other types, in order. *)
Theorem published_conditions_follow_the_analysis node r tr res ns name st x :
  exec (update_node_status to_rfc3339 node r) tr res → Ev (PatchNodeStatus ns name st) x ∈ tr →
  StatusPatch.quorum_fragility st = QResult.fragility_score r
  ∧ ((∃ c, c ∈ StatusPatch.conditions st ∧ fragile c) ↔ f64_gt (QResult.fragility_score r) FRAGILE = true)
  ∧ ((∃ c, c ∈ StatusPatch.conditions st ∧ of_type "QuorumOptimizationRecommended" c) ↔ is_Some (QResult.recommendation r))
  ∧ others (StatusPatch.conditions st) = others (QNode.conditions node).
Proof.
  intros Hex Hin. unfold update_node_status in Hex.
  set (quiet := λ (X : Set) (op : QOp X), match op with PatchNodeStatus _ _ _ => false | _ => true end).
  assert (∀ {A} (p : qprog A) t r', all_ops quiet p → exec p t r' → Ev (PatchNodeStatus ns name st) x ∈ t → False) as Hq.
  { intros A p t r' Hp Hr He. by eapply all_ops_exec in Hp; [|done|exact He]. }
  assert (∀ l, all_ops quiet (fragility_conditions to_rfc3339 r l)) as Hf.
  { intros l. unfold fragility_conditions, now_. destruct (f64_gt _ _); ops. }
  assert (∀ l, all_ops quiet (recommendation_conditions to_rfc3339 r l)) as Hr.
  { intros l. unfold recommendation_conditions, now_. destruct (QResult.recommendation r); ops. }
  destruct (QNode.namespace node) as [ns'|]; [destruct (QNode.name node) as [name'|]|];
    [|apply exec_inv in Hex as [-> _]; by apply not_elem_of_nil in Hin..].
  apply exec_bind in Hex as [(l1 & t1 & t2 & -> & H1 & Hex)|(e & H1 & ->)]; [|by destruct (Hq _ _ _ _ (Hf _) H1)].
  apply elem_of_app in Hin as [Hin|Hin]; [by destruct (Hq _ _ _ _ (Hf _) H1)|].
  apply exec_bind in Hex as [(l2 & t3 & t4 & -> & H2 & Hex)|(e & H2 & ->)]; [|by destruct (Hq _ _ _ _ (Hr _) H2)].
  apply elem_of_app in Hin as [Hin|Hin]; [by destruct (Hq _ _ _ _ (Hr _) H2)|].
  apply (post_exec _ _ _ _ (fragility_post _ _)) in H1 as [Hd1 Ho1].
  apply (post_exec _ _ _ _ (recommendation_post _ _)) in H2 as (Hr2 & Ho2 & Hk2).
  apply exec_inv in Hex as (y & t5 & -> & Hex). apply elem_of_cons in Hin as [Heq|Hin].
  - injection Heq as -> -> ->. simpl. split; [done|]. split; [|split; [done|congruence]].
    rewrite <- Hd1. split; intros (c & Hc & Hfr); exists c; (split; [|done]); by apply Hk2.
  - destruct y as [[]|e]; apply exec_inv in Hex as [-> _]; by apply not_elem_of_nil in Hin.
Qed.
End published.
