(* ===== verification/QuorumWitness.v ===== *)
(** * Quorum analysis: concrete topologies

    The theorems of [QuorumFacts] and [QuorumProps] that have hypotheses applied to a
    validator of three, and what the analysis does on particular inputs: topologies
    its cache takes for one another, thresholds that drift, states and measurements
    it misreads. *)

From stdpp Require Import prelude strings gmap list.
From Stdlib Require Import SpecFloat.
From S2P Require Import Prelude RustStr Float64 Prog BTreeMap Conditions QuorumGraph QuorumFacts QuorumAnalyzer QuorumProps.
Local Open Scope string_scope.

(** The iteration order of the maps themselves, and a weak digest. *)
#[local] Instance map_order : HashIter := {
  keys_of V m := (map_to_list m).*1;
  keys_of_perm V m := Permutation_refl _;
  items_of s := elements s;
  items_of_perm s := Permutation_refl _;
}.

#[local] Instance sum_digest : Hasher := {
  hash_digest l := fold_left (λ acc x, match x with inl s => acc + Z.of_nat (String.length s) | inr z => acc + z end)%Z l 0%Z;
}.

(** ** The graph *)

Definition two_of_three : QSet.t := QSet.mk 2 ["V1"; "V2"; "V3"] [].
Definition three : QuorumGraph := from_quorum_sets [("V1", two_of_three); ("V2", two_of_three); ("V3", two_of_three)].

Lemma three_thresholds : thresholds_positive three.
Proof.
  intros v n Hn. apply elem_of_map_to_list in Hn.
  assert (Forall (λ kv, (1 ≤ QSet.threshold (QuorumNode.quorum_set (snd kv)))%Z) (map_to_list (nodes three))) as Hall.
  { vm_compute. repeat constructor; discriminate. }
  rewrite Forall_forall in Hall. exact (Hall (v, n) Hn).
Qed.

Lemma intersection_check_is_exact_witness :
  has_quorum_intersection three = true
  ∧ ∀ s t, graph_slice three s → graph_slice three t → ∃ x, x ∈ s ∧ x ∈ t.
Proof.
  assert (has_quorum_intersection three = true) as Hi by (vm_compute; reflexivity). split; [exact Hi|].
  exact (proj2 (proj1 (intersection_check_is_exact three three_thresholds) Hi)).
Defined.

Lemma critical_nodes_are_never_found_witness :
  has_quorum_intersection three = true ∧ critical_nodes (find_critical_nodes three) = [].
Proof.
  split; [vm_compute; reflexivity|]. rewrite (proj1 (critical_nodes_are_never_found three)). vm_compute. reflexivity.
Defined.

(** [V1] and [V2] as inner sets of one organisation, or of two that share nothing. *)
Definition inner (vs : list string) : QSet.t := QSet.mk 2 [] [InnerQuorumSetInfo.mk 2 vs].
Definition joined : list (string * QSet.t) := [("V1", inner ["V1"; "V2"; "V3"]); ("V2", inner ["V1"; "V2"; "V3"])].
Definition split_ : list (string * QSet.t) := [("V1", inner ["V1"; "V3"]); ("V2", inner ["V2"; "V4"])].

(** The cache cannot tell topologies apart by their inner sets.  Two topologies,
    one whose slices all meet and one with slices that share no member, have the same
    hash under every digest, because the inner sets are not hashed: for five minutes
    after the analysis of the first, the second is reported with the critical nodes
    and the overlap of the first. *)
Theorem topology_hash_ignores_inner_sets :
  (∀ hs : Hasher, @compute_topology_hash hs joined = @compute_topology_hash hs split_)
  ∧ ∀ it : HashIter, @has_quorum_intersection it (from_quorum_sets joined) = true
                     ∧ @has_quorum_intersection it (from_quorum_sets split_) = false.
Proof.
  split; [reflexivity|]. intros it. rewrite !intersection_eq. split; vm_compute; reflexivity.
Qed.

(** ** The recommendation *)

(** The threshold is scaled by a ratio of floats and rounded up: 15 of 29 validators
    become 16 of 29 though the number of validators does not change. *)
Example threshold_drifts : threshold_for 15 29 29 = 16%Z ∧ threshold_for 7 25 25 = 8%Z ∧ threshold_for 2 3 3 = 2%Z.
Proof. vm_compute. repeat split. Qed.

(** A peer that no pod of the node measured counts as slow. *)
Example unmeasured_is_unhealthy : unhealthy (Analyzer.new 50 0) "V2" = true.
Proof. vm_compute. reflexivity. Qed.

(** A disconnected peer counts as connected. *)
Example disconnected_is_connected : is_connected "Disconnected" = true.
Proof. vm_compute. reflexivity. Qed.

(** ** The worker *)

Definition v1 : QNode.t := QNode.mk (Some "v1") (Some "stellar") true (Some (true, true)) [].
Definition v1_state : ScpState.t :=
  ScpState.mk "V1" two_of_three (BallotState.mk "EXTERNALIZE" 7 "") (NominationState.mk [] []).
Definition up (id : string) : PeerInfo.t := PeerInfo.mk id "" "authenticated".

Definition core_answers (h : list qevent) (X : Set) (op : QOp X) : X :=
  match op in QOp Y return Y with
  | QueryScpState _ => Ok v1_state
  | QueryPeers _ => Ok [up "V2"; up "V3"]
  | ElapsedMs => 20%Z
  | QUtcNow => seconds 1000
  | ListStellarNodes => Ok [v1]
  | ListPodIps _ _ => Ok [Some "10.0.0.1"; None]
  | PatchQuorumSet _ _ _ => Ok tt
  | PatchNodeStatus _ _ _ => Ok tt
  | PublishQuorumEvent _ _ _ => Ok tt
  end.

Definition worker_run : list qevent * result Analyzer.t QError :=
  run core_answers (optimize_all_nodes (Analyzer.new 50 0)) [].

Definition v1_patch : string :=
  quorum_set_text (Rec.mk ["V3"; "V2"; "V1"] 2 "").

Lemma worker_exec : exec (optimize_all_nodes (Analyzer.new 50 0)) (fst worker_run) (snd worker_run).
Proof. apply run_exec. Qed.

Lemma applied_quorum_sets_are_safe_witness :
  ∃ listed node rec, Ev ListStellarNodes (Ok listed) ∈ fst worker_run ∧ node ∈ listed ∧ QNode.quorum_optimization node = Some (true, true)
    ∧ v1_patch = quorum_set_text rec
    ∧ majority_set (Rec.recommended_validators rec) (Rec.recommended_threshold rec).
Proof.
  assert (Ev (PatchQuorumSet "stellar" "v1" v1_patch) (Ok tt) ∈ fst worker_run) as Hin.
  { apply (list_elem_of_lookup_2 _ 8). vm_compute. reflexivity. }
  destruct (applied_quorum_sets_are_safe (Analyzer.new 50 0) _ _ "stellar" "v1" v1_patch (Ok tt) worker_exec Hin)
    as (before & listed & after & node & rec & Htr & _ & Hn & _ & Ho & _ & _ & Ht & Hm & _).
  exists listed, node, rec. split; [rewrite Htr; apply elem_of_app; right; apply list_elem_of_here|]. split; [exact Hn|]. split; [exact Ho|]. split; [exact Ht|exact Hm].
Defined.

Lemma new_bounded n now : bounded (Analyzer.new n now).
Proof. split; intros v l; simpl; by rewrite lookup_empty. Qed.

Definition analysis_run : list qevent * result (QResult.t * Analyzer.t) QError :=
  run core_answers (analyze_quorum (Analyzer.new 50 0) ["10.0.0.1"]) [].

Lemma analysis_keeps_the_windows_witness :
  ∃ r a, snd analysis_run = Ok (r, a) ∧ bounded a.
Proof.
  pose proof (run_exec core_answers (analyze_quorum (Analyzer.new 50 0) ["10.0.0.1"]) : exec _ (fst analysis_run) (snd analysis_run)) as Hex.
  assert (match snd analysis_run with Ok _ => true | Err _ => false end = true) as Hok by (vm_compute; reflexivity).
  destruct (snd analysis_run) as [[r a]|e]; [|discriminate]. exists r, a. split; [reflexivity|].
  exact (proj1 (analysis_keeps_the_windows (Analyzer.new 50 0) ["10.0.0.1"] _ r a (new_bounded 50 0) Hex)).
Defined.

(** A fragile quorum, over a status with a condition of another type. *)
Definition fragile_result : QResult.t := QResult.mk ["V1"] 0 f64_zero (f64_lit 9 10) (seconds 1000) None.
Definition ready_node : QNode.t :=
  QNode.mk (Some "v1") (Some "stellar") true None [Condition.mk "Ready" "True" "t" "Running" "" None].
Definition status_run : list qevent * result unit QError :=
  run core_answers (update_node_status (λ _, "t") ready_node fragile_result) [].

Definition written (e : qevent) : option (string * string * StatusPatch.t) :=
  match e with Ev (PatchNodeStatus ns name st) _ => Some (ns, name, st) | _ => None end.

Lemma written_in tr ns name st : omap written tr = [(ns, name, st)] → ∃ x, Ev (PatchNodeStatus ns name st) x ∈ tr.
Proof.
  intros Hw. assert ((ns, name, st) ∈ omap written tr) as (e & He & Hs)%list_elem_of_omap by (rewrite Hw; by left).
  destruct e as [X op x]. destruct op; simplify_eq/=. by exists x.
Qed.

Lemma published_conditions_follow_the_analysis_witness :
  ∃ st, (∃ c, c ∈ StatusPatch.conditions st ∧ fragile c) ∧ others (StatusPatch.conditions st) = QNode.conditions ready_node.
Proof.
  pose proof (run_exec core_answers (update_node_status (λ _, "t") ready_node fragile_result) : exec _ (fst status_run) (snd status_run)) as Hex.
  assert (∃ st, omap written (fst status_run) = [("stellar", "v1", st)]) as [st Hst] by (eexists; vm_compute; reflexivity).
  destruct (written_in _ _ _ _ Hst) as [x Hin].
  destruct (published_conditions_follow_the_analysis (λ _, "t") ready_node fragile_result _ _ "stellar" "v1" st x Hex Hin)
    as (_ & Hd & _ & Ho).
  exists st. split; [apply (proj2 Hd); vm_compute; reflexivity|]. rewrite Ho. vm_compute. reflexivity.
Defined.
