(* ===== verification/Contract.v ===== *)
(** * Contract calls

    The contract crates are plain Rust over [&mut self]: a call that returns [Err] keeps
    what it wrote before the error, and a panic ends it.  [call S E A] is such a call on a
    state [S]; [ends] is its program logic.  Also the 128-bit and 64-bit checked and
    wrapping operations, and sums over maps. *)

From stdpp Require Import prelude gmap list.
From S2P Require Import Prelude.

(** ** Calls on a mutable state *)

Inductive outcome (S E A : Type) : Type :=
| Returned (a : A) (s : S)
| Raised (e : E) (s : S)
| Panicked.
Arguments Returned {S E A} a s.
Arguments Raised {S E A} e s.
Arguments Panicked {S E A}.

Definition call (S E A : Type) : Type := S → outcome S E A.

Section call.
Context {S E : Type}.

Definition call_bind {A B} (m : call S E A) (f : A → call S E B) : call S E B := λ s,
  match m s with
  | Returned a s' => f a s'
  | Raised e s' => Raised e s'
  | Panicked => Panicked
  end.

#[global] Instance call_ret : MRet (call S E) := λ A a s, Returned a s.
#[global] Instance call_mbind : MBind (call S E) := λ A B f m, call_bind m f.

Definition throw {A} (e : E) : call S E A := λ s, Raised e s.
Definition panic {A} : call S E A := λ _, Panicked.
Definition get : call S E S := λ s, Returned s s.
Definition modify (f : S → S) : call S E unit := λ s, Returned tt (f s).

(** [if c { return Err(e); }], [o.ok_or(e)?], [r?] and an operation that panics. *)
Definition reject_if (c : bool) (e : E) : call S E unit := if c then throw e else mret tt.
Definition ok_or {A} (o : option A) (e : E) : call S E A := match o with Some a => mret a | None => throw e end.
Definition lift {A} (r : result A E) : call S E A := match r with Ok a => mret a | Err e => throw e end.
Definition or_panic {A} (o : option A) : call S E A := match o with Some a => mret a | None => panic end.

(** [for x in l { .. }] over local variables. *)
Fixpoint for_in {A B} (f : B → A → call S E B) (l : list A) (b : B) : call S E B :=
  match l with
  | [] => mret b
  | x :: l' => b' ← f b x; for_in f l' b'
  end.

(** The state after a call; a panic has none. *)
Definition state_of {A} (o : outcome S E A) : option S :=
  match o with Returned _ s => Some s | Raised _ s => Some s | Panicked => None end.
Definition result_of {A} (o : outcome S E A) : option (result A E) :=
  match o with Returned a _ => Some (Ok a) | Raised e _ => Some (Err e) | Panicked => None end.
End call.

(** A call on a component of the state. *)
Definition zoom {S T E A} (proj : S → T) (upd : T → S → S) (m : call T E A) : call S E A := λ s,
  match m (proj s) with
  | Returned a t => Returned a (upd t s)
  | Raised e t => Raised e (upd t s)
  | Panicked => Panicked
  end.

(** [?] with a [From] on the error. *)
Definition with_err {S A E E'} (f : E → E') (m : call S E A) : call S E' A := λ s,
  match m s with
  | Returned a s' => Returned a s'
  | Raised e s' => Raised (f e) s'
  | Panicked => Panicked
  end.

(** ** A program logic

    [ends m Q X s]: from [s], [m] does not panic, returns in [Q] or raises in [X]. *)

Definition ends {S E A} (m : call S E A) (Q : A → S → Prop) (X : E → S → Prop) (s : S) : Prop :=
  match m s with Returned a s' => Q a s' | Raised e s' => X e s' | Panicked => False end.

Section ends.
Context {S E : Type}.
Implicit Types (s : S) (X : E → S → Prop).

Lemma ends_ret {A} (a : A) (Q : A → S → Prop) X s : Q a s → ends (mret a) Q X s.
Proof. done. Qed.

Lemma ends_throw {A} e (Q : A → S → Prop) X s : X e s → ends (throw e) Q X s.
Proof. done. Qed.

Lemma ends_get Q X s : Q s s → ends (E:=E) get Q X s.
Proof. done. Qed.

Lemma ends_modify f (Q : unit → S → Prop) X s : Q tt (f s) → ends (modify f) Q X s.
Proof. done. Qed.

Lemma ends_then {A B} (m : call S E A) (f : A → call S E B) Q X s :
  ends m (λ a, ends (f a) Q X) X s → ends (m ≫= f) Q X s.
Proof. unfold ends, mbind, call_mbind, call_bind. by destruct (m s). Qed.

Lemma ends_reject_if (c : bool) e (Q : unit → S → Prop) X s :
  (c = true → X e s) → (c = false → Q tt s) → ends (reject_if c e) Q X s.
Proof. destruct c; intros HX HQ; [by apply HX|by apply HQ]. Qed.

Lemma ends_ok_or {A} (o : option A) e (Q : A → S → Prop) X s :
  (o = None → X e s) → (∀ a, o = Some a → Q a s) → ends (ok_or o e) Q X s.
Proof. destruct o; intros HX HQ; [by apply HQ|by apply HX]. Qed.

Lemma ends_lift {A} (r : result A E) (Q : A → S → Prop) X s :
  (∀ e, r = Err e → X e s) → (∀ a, r = Ok a → Q a s) → ends (lift r) Q X s.
Proof. destruct r; intros HX HQ; [by apply HQ|by apply HX]. Qed.

Lemma ends_or_panic {A} (o : option A) (Q : A → S → Prop) X s a :
  o = Some a → Q a s → ends (or_panic o) Q X s.
Proof. by intros ->. Qed.

Lemma ends_weaken {A} (m : call S E A) (Q Q' : A → S → Prop) X X' s :
  ends m Q X s → (∀ a s', Q a s' → Q' a s') → (∀ e s', X e s' → X' e s') → ends m Q' X' s.
Proof. unfold ends. destruct (m s); eauto. Qed.

(** The loop keeps an invariant of the elements left, the locals and the state. *)
Lemma ends_for_in {A B} (f : B → A → call S E B) (I : list A → B → S → Prop) (X : E → S → Prop) l b s :
  (∀ x l' b s, I (x :: l') b s → ends (f b x) (I l') X s) →
  I l b s → ends (for_in f l b) (I []) X s.
Proof.
  intros Hf. revert b s. induction l as [|x l IH]; intros b s HI; simpl; [done|].
  apply ends_then. eapply ends_weaken; [by apply Hf| |done]. eauto.
Qed.
End ends.

Lemma ends_zoom {S T E A} (proj : S → T) upd (m : call T E A) (Q : A → S → Prop) (X : E → S → Prop) s :
  ends m (λ a t, Q a (upd t s)) (λ e t, X e (upd t s)) (proj s) → ends (zoom proj upd m) Q X s.
Proof. unfold ends, zoom. by destruct (m (proj s)). Qed.

Lemma ends_with_err {S A E E'} (f : E → E') (m : call S E A) (Q : A → S → Prop) (X : E' → S → Prop) s :
  ends m Q (λ e, X (f e)) s → ends (with_err f m) Q X s.
Proof. unfold ends, with_err. by destruct (m s). Qed.

(** Turn a goal [ends m Q X s] into the goals of its branches. *)
Ltac call_step :=
  lazymatch goal with
  | |- ends (mret _) _ _ _ => apply ends_ret
  | |- ends (throw _) _ _ _ => apply ends_throw
  | |- ends get _ _ _ => apply ends_get
  | |- ends (modify _) _ _ _ => apply ends_modify
  | |- ends (_ ≫= _) _ _ _ => apply ends_then
  | |- ends (reject_if _ _) _ _ _ => apply ends_reject_if; intros ?; breflect
  | |- ends (ok_or _ _) _ _ _ => apply ends_ok_or; intros
  | |- ends (lift _) _ _ _ => apply ends_lift; intros
  | |- ends (if ?c then _ else _) _ _ _ => destruct c eqn:?; breflect
  end.

(** ** Integers of 128 bits *)

Definition U128_MAX : Z := 2 ^ 128 - 1.
Definition I128_MAX : Z := 2 ^ 127 - 1.
Definition U64_MAX : Z := 2 ^ 64 - 1.
Definition in_u128 (z : Z) : Prop := (0 <= z <= U128_MAX)%Z.
Definition in_i128 (z : Z) : Prop := (- 2 ^ 127 <= z <= I128_MAX)%Z.

(** The operators of the release profile wrap; [checked_*] and [saturating_*] do not. *)
Definition as_u128 (z : Z) : Z := z mod 2 ^ 128.
Definition as_i128 (z : Z) : Z := (z + 2 ^ 127) mod 2 ^ 128 - 2 ^ 127.
Definition fit (lo hi z : Z) : option Z := if (lo <=? z)%Z && (z <=? hi)%Z then Some z else None.
Definition u128_fit : Z → option Z := fit 0 U128_MAX.
Definition i128_fit : Z → option Z := fit (- 2 ^ 127) I128_MAX.
Definition u64_fit : Z → option Z := fit 0 U64_MAX.
Definition i128_saturate (z : Z) : Z := clamp (- 2 ^ 127) I128_MAX z.
Definition u64_saturate (z : Z) : Z := clamp 0 U64_MAX z.

(** Division of unsigned integers: a panic by zero. *)
Definition udiv (a b : Z) : option Z := if (b =? 0)%Z then None else Some (a / b)%Z.

Lemma fit_Some lo hi z z' : fit lo hi z = Some z' → z' = z ∧ (lo <= z <= hi)%Z.
Proof. unfold fit. destruct (_ && _) eqn:H; [|done]. intros [= <-]. breflect. auto. Qed.

Lemma fit_None lo hi z : fit lo hi z = None → (z < lo ∨ hi < z)%Z.
Proof. unfold fit. destruct (_ && _) eqn:H; [done|]. intros _. apply andb_false_iff in H as [H|H]; breflect; auto. Qed.

Lemma fit_in lo hi z : (lo <= z <= hi)%Z → fit lo hi z = Some z.
Proof. unfold fit. intros [??]. by rewrite !(proj2 (Z.leb_le _ _)). Qed.

Lemma as_u128_small z : in_u128 z → as_u128 z = z.
Proof. unfold in_u128, as_u128, U128_MAX. intros. apply Z.mod_small. lia. Qed.

Lemma as_u128_range z : in_u128 (as_u128 z).
Proof. unfold in_u128, as_u128, U128_MAX. pose proof (Z.mod_pos_bound z (2 ^ 128)). lia. Qed.

Lemma as_u128_le z : (0 <= z)%Z → (as_u128 z <= z)%Z.
Proof. intros. apply Z.mod_le; [done|lia]. Qed.

Lemma as_i128_small z : in_i128 z → as_i128 z = z.
Proof. unfold in_i128, as_i128, I128_MAX. intros. rewrite Z.mod_small; lia. Qed.

Lemma udiv_Some a b q : udiv a b = Some q → b ≠ 0%Z ∧ q = (a / b)%Z.
Proof. unfold udiv. destruct (Z.eqb_spec b 0); [done|]. by intros [= <-]. Qed.

Lemma ends_udiv {S E} a b (Q : Z → S → Prop) (X : E → S → Prop) s :
  b ≠ 0%Z → Q (a / b)%Z s → ends (or_panic (udiv a b)) Q X s.
Proof. intros Hb HQ. unfold udiv. by rewrite (proj2 (Z.eqb_neq b 0)). Qed.

(** Turn the results of checked operations in the context into arithmetic. *)
Ltac fitted :=
  repeat match goal with
  | H : u128_fit _ = _ |- _ => unfold u128_fit in H
  | H : i128_fit _ = _ |- _ => unfold i128_fit in H
  | H : u64_fit _ = _ |- _ => unfold u64_fit in H
  | H : fit _ _ _ = Some _ |- _ => apply fit_Some in H as [-> H]
  | H : fit _ _ _ = None |- _ => apply fit_None in H
  | H : udiv _ _ = Some _ |- _ => apply udiv_Some in H as [? ->]
  end.

(** ** The order in which a hash map is iterated *)

Class MapOrder (K : Type) `{Countable K} : Type := {
  order_of : ∀ {V : Type}, gmap K V → list (K * V);
  order_of_perm : ∀ V (m : gmap K V), order_of m ≡ₚ map_to_list m;
}.

(** ** Sums *)

Definition sumZ (l : list Z) : Z := foldr Z.add 0%Z l.

#[global] Instance sumZ_proper : Proper ((≡ₚ) ==> (=)) sumZ.
Proof. intros l l'. induction 1; simpl in *; lia. Qed.

Lemma sumZ_app l l' : sumZ (l ++ l') = (sumZ l + sumZ l')%Z.
Proof. induction l; simpl; lia. Qed.

Lemma sumZ_nonneg l : Forall (λ z, 0 <= z)%Z l → (0 <= sumZ l)%Z.
Proof. induction 1; simpl; lia. Qed.

Section map_sum.
Context {K V : Type} `{Countable K}.
Implicit Types (f : V → Z) (m : gmap K V).

(** The sum of [f] over the values of a map. *)
Definition map_sum f m : Z := sumZ (f <$> (map_to_list m).*2).

Lemma map_sum_empty f : map_sum f ∅ = 0%Z.
Proof. unfold map_sum. by rewrite map_to_list_empty. Qed.

Lemma map_sum_fresh f m k v : m !! k = None → map_sum f (<[k:=v]> m) = (f v + map_sum f m)%Z.
Proof. intros Hk. unfold map_sum. by rewrite (map_to_list_insert m k v Hk). Qed.

Lemma map_sum_insert f m k v v' : m !! k = Some v → map_sum f (<[k:=v']> m) = (map_sum f m - f v + f v')%Z.
Proof.
  intros Hk. rewrite <- (insert_delete_id m k v Hk), insert_insert_eq.
  rewrite !map_sum_fresh by apply lookup_delete_eq. lia.
Qed.

Lemma map_sum_nonneg f m : (∀ k v, m !! k = Some v → 0 <= f v)%Z → (0 <= map_sum f m)%Z.
Proof.
  intros Hf. apply sumZ_nonneg, Forall_fmap, Forall_fmap, Forall_forall.
  intros [k v] Hkv%elem_of_map_to_list. simpl. eauto.
Qed.

Lemma map_sum_ge f m k v :
  (∀ k v, m !! k = Some v → 0 <= f v)%Z → m !! k = Some v → (f v <= map_sum f m)%Z.
Proof.
  intros Hf Hk. rewrite <- (insert_delete_id m k v Hk), map_sum_fresh by apply lookup_delete_eq.
  enough (0 <= map_sum f (delete k m))%Z by lia. apply map_sum_nonneg.
  intros j w [_ ?]%lookup_delete_Some. eauto.
Qed.

Lemma map_sum_order `{!MapOrder K} f m : sumZ (f <$> (order_of m).*2) = map_sum f m.
Proof. unfold map_sum. by rewrite order_of_perm. Qed.
End map_sum.
