(* ===== verification/AmmPool.v ===== *)
(** * The constant-product pool

    Models [src/src/contracts/amm_pool/math.rs] and [src/src/contracts/amm_pool/lib.rs]: a
    pool of two tokens that mints shares to its providers and swaps against its
    reserves.  Amounts are [u128]; operators wrap as in the release profile, [checked_*]
    operations fail, and a division by zero panics. *)

From stdpp Require Import prelude list.
From S2P Require Import Prelude Contract.
Local Open Scope Z_scope.

(** ** math.rs *)

Definition FEE_SCALE : Z := 1000000.
Definition MAX_FEE_BPS : Z := 10000.
Definition MINIMUM_LIQUIDITY : Z := 1000.

Inductive MathError : Set :=
| FeeTooHigh (fee_bps : Z)
| Overflow
| InsufficientOutput (got min : Z)
| ZeroReserve
| ZeroInput.

(** A function of [math.rs]: it may fail or panic, and has no state. *)
Abbreviation math := (call unit MathError).

(** [while y < x { x = y; y = (x + n / x) / 2; }]. *)
Fixpoint isqrt_loop (fuel : nat) (n x y : Z) : math Z :=
  if y <? x then
    match fuel with
    | O => mret x
    | S fuel => q ← or_panic (udiv n y); isqrt_loop fuel n y (as_u128 (y + q) / 2)
    end
  else mret x.

Definition ISQRT_FUEL : nat := 128.

Definition isqrt (n : Z) : math Z :=
  if n =? 0 then mret 0 else isqrt_loop ISQRT_FUEL n n (as_u128 (n + 1) / 2).

Definition bps_to_scale (fee_bps : Z) : math Z :=
  _ ← reject_if (MAX_FEE_BPS <? fee_bps) (FeeTooHigh fee_bps);
  mret (as_u128 (fee_bps * 100)).

Definition amount_after_fee (amount fee_scaled : Z) : Z :=
  as_u128 (amount * as_u128 (FEE_SCALE - fee_scaled)) / FEE_SCALE.

Definition fee_amount (amount fee_scaled : Z) : Z := as_u128 (amount * fee_scaled) / FEE_SCALE.

Definition get_amount_out (dx reserve_x reserve_y fee_scaled min_dy : Z) : math Z :=
  _ ← reject_if (dx =? 0) ZeroInput;
  _ ← reject_if ((reserve_x =? 0) || (reserve_y =? 0)) ZeroReserve;
  let dx_eff := amount_after_fee dx fee_scaled in
  numerator ← ok_or (u128_fit (reserve_y * dx_eff)) Overflow;
  denominator ← ok_or (u128_fit (reserve_x + dx_eff)) Overflow;
  dy ← or_panic (udiv numerator denominator);
  _ ← reject_if (dy <? min_dy) (InsufficientOutput dy min_dy);
  mret dy.

Definition get_amount_in (dy reserve_x reserve_y fee_scaled : Z) : math Z :=
  _ ← reject_if (dy =? 0) ZeroInput;
  _ ← reject_if ((reserve_x =? 0) || (reserve_y =? 0)) ZeroReserve;
  _ ← reject_if (reserve_y <=? dy) Overflow;
  product ← ok_or (u128_fit (reserve_x * dy)) Overflow;
  numerator ← ok_or (u128_fit (product * FEE_SCALE)) Overflow;
  denominator ← ok_or (u128_fit (as_u128 (reserve_y - dy) * as_u128 (FEE_SCALE - fee_scaled))) Overflow;
  q ← or_panic (udiv numerator denominator);
  mret (as_u128 (q + 1)).

Definition initial_lp_shares (amount_x amount_y : Z) : math Z :=
  product ← ok_or (u128_fit (amount_x * amount_y)) Overflow;
  lp ← isqrt product;
  ok_or (u128_fit (lp - MINIMUM_LIQUIDITY)) Overflow.

Definition subsequent_lp_shares (amount_x amount_y reserve_x reserve_y total_lp : Z) : math Z :=
  _ ← reject_if ((reserve_x =? 0) || (reserve_y =? 0) || (total_lp =? 0)) ZeroReserve;
  px ← ok_or (u128_fit (amount_x * total_lp)) Overflow;
  shares_x ← or_panic (udiv px reserve_x);
  py ← ok_or (u128_fit (amount_y * total_lp)) Overflow;
  shares_y ← or_panic (udiv py reserve_y);
  mret (Z.min shares_x shares_y).

Definition lp_to_amounts (lp_burned reserve_x reserve_y total_lp : Z) : math (Z * Z) :=
  _ ← reject_if (total_lp =? 0) ZeroReserve;
  px ← ok_or (u128_fit (lp_burned * reserve_x)) Overflow;
  ax ← or_panic (udiv px total_lp);
  py ← ok_or (u128_fit (lp_burned * reserve_y)) Overflow;
  ay ← or_panic (udiv py total_lp);
  mret (ax, ay).

Definition verify_k_invariant (old_x old_y new_x new_y : Z) : math unit :=
  old_k ← ok_or (u128_fit (old_x * old_y)) Overflow;
  new_k ← ok_or (u128_fit (new_x * new_y)) Overflow;
  if old_k <=? new_k then mret tt else throw Overflow.

(** ** lib.rs: the pool *)

Inductive AmmError : Set :=
| AlreadyInitialised
| NotInitialised
| ZeroAmount
| SlippageExceeded (got needed : Z)
| InsufficientLp (have need : Z)
| Math (e : MathError).

Inductive TokenSide : Set := X | Y.

Inductive PoolEvent : Set :=
| Initialised (reserve_x reserve_y lp_minted : Z)
| LiquidityAdded (amount_x amount_y lp_minted : Z)
| LiquidityRemoved (lp_burned amount_x amount_y : Z)
| Swap (token_in : TokenSide) (amount_in amount_out fee_charged : Z).

Module AmmPool.

Record t : Set := mk {
  reserve_x : Z;
  reserve_y : Z;
  total_lp : Z;
  fee_bps : Z;
  fee_scaled : Z;
  initialised : bool;
}.

(** The assignments to the reserves and the shares. *)
Definition set_reserves (rx ry : Z) (p : t) : t := mk rx ry (total_lp p) (fee_bps p) (fee_scaled p) (initialised p).
Definition set_total_lp (lp : Z) (p : t) : t :=
  mk (reserve_x p) (reserve_y p) lp (fee_bps p) (fee_scaled p) (initialised p).
Definition set_initialised (p : t) : t :=
  mk (reserve_x p) (reserve_y p) (total_lp p) (fee_bps p) (fee_scaled p) true.

End AmmPool.
Import AmmPool (reserve_x, reserve_y, total_lp, fee_bps, fee_scaled, initialised).

Module PoolState.

Record t : Set := mk { reserve_x : Z; reserve_y : Z; total_lp : Z; fee_bps : Z }.

Definition k (s : t) : option Z := u128_fit (reserve_x s * reserve_y s).

End PoolState.

(** A method of the pool, and [?] on a result of [math.rs] inside one. *)
Abbreviation method := (call AmmPool.t AmmError).

Definition of_math {A} (m : math A) : method A := with_err Math (zoom (λ _, tt) (λ _ p, p) m).

Definition new (fee_bps : Z) : outcome unit AmmError AmmPool.t :=
  with_err Math (fee_scaled ← bps_to_scale fee_bps; mret (AmmPool.mk 0 0 0 fee_bps fee_scaled false)) tt.

Definition state (p : AmmPool.t) : PoolState.t :=
  PoolState.mk (reserve_x p) (reserve_y p) (total_lp p) (fee_bps p).

Definition require_initialised : method unit :=
  p ← get; if initialised p then mret tt else throw NotInitialised.

Definition initialise (amount_x amount_y : Z) : method (Z * PoolEvent) :=
  p ← get;
  _ ← reject_if (initialised p) AlreadyInitialised;
  _ ← reject_if ((amount_x =? 0) || (amount_y =? 0)) ZeroAmount;
  lp_minted ← of_math (initial_lp_shares amount_x amount_y);
  _ ← modify (AmmPool.set_reserves amount_x amount_y);
  _ ← modify (AmmPool.set_total_lp (as_u128 (lp_minted + MINIMUM_LIQUIDITY)));
  _ ← modify AmmPool.set_initialised;
  mret (lp_minted, Initialised amount_x amount_y lp_minted).

Definition add_liquidity (amount_x amount_y : Z) : method (Z * PoolEvent) :=
  _ ← require_initialised;
  _ ← reject_if ((amount_x =? 0) || (amount_y =? 0)) ZeroAmount;
  p ← get;
  lp_minted ← of_math (subsequent_lp_shares amount_x amount_y (reserve_x p) (reserve_y p) (total_lp p));
  _ ← modify (AmmPool.set_reserves (as_u128 (reserve_x p + amount_x)) (as_u128 (reserve_y p + amount_y)));
  _ ← modify (AmmPool.set_total_lp (as_u128 (total_lp p + lp_minted)));
  mret (lp_minted, LiquidityAdded amount_x amount_y lp_minted).

Definition remove_liquidity (lp_burned : Z) : method (Z * Z * PoolEvent) :=
  _ ← require_initialised;
  _ ← reject_if (lp_burned =? 0) ZeroAmount;
  p ← get;
  let redeemable := Z.max 0 (total_lp p - MINIMUM_LIQUIDITY) in
  _ ← reject_if (redeemable <? lp_burned) (InsufficientLp redeemable lp_burned);
  amounts ← of_math (lp_to_amounts lp_burned (reserve_x p) (reserve_y p) (total_lp p));
  let '(amount_x, amount_y) := amounts in
  _ ← modify (AmmPool.set_reserves (as_u128 (reserve_x p - amount_x)) (as_u128 (reserve_y p - amount_y)));
  _ ← modify (AmmPool.set_total_lp (as_u128 (total_lp p - lp_burned)));
  mret (amount_x, amount_y, LiquidityRemoved lp_burned amount_x amount_y).

(** The reserves are assigned before the invariant is verified. *)
Definition swap_x_for_y (dx min_dy : Z) : method (Z * PoolEvent) :=
  _ ← require_initialised;
  _ ← reject_if (dx =? 0) ZeroAmount;
  p ← get;
  let fee_charged := fee_amount dx (fee_scaled p) in
  dy ← of_math (get_amount_out dx (reserve_x p) (reserve_y p) (fee_scaled p) min_dy);
  let new_rx := as_u128 (reserve_x p + dx) in
  let new_ry := as_u128 (reserve_y p - dy) in
  _ ← modify (AmmPool.set_reserves new_rx new_ry);
  _ ← of_math (verify_k_invariant (reserve_x p) (reserve_y p) new_rx new_ry);
  mret (dy, Swap X dx dy fee_charged).

Definition swap_y_for_x (dy min_dx : Z) : method (Z * PoolEvent) :=
  _ ← require_initialised;
  _ ← reject_if (dy =? 0) ZeroAmount;
  p ← get;
  let fee_charged := fee_amount dy (fee_scaled p) in
  dx ← of_math (get_amount_out dy (reserve_y p) (reserve_x p) (fee_scaled p) min_dx);
  let new_ry := as_u128 (reserve_y p + dy) in
  let new_rx := as_u128 (reserve_x p - dx) in
  _ ← modify (AmmPool.set_reserves new_rx new_ry);
  _ ← of_math (verify_k_invariant (reserve_x p) (reserve_y p) new_rx new_ry);
  mret (dx, Swap Y dy dx fee_charged).

Definition quote_x_for_y (dx : Z) : method Z :=
  _ ← require_initialised;
  p ← get;
  of_math (get_amount_out dx (reserve_x p) (reserve_y p) (fee_scaled p) 0).

Definition quote_amount_in_for_dy (dy : Z) : method Z :=
  _ ← require_initialised;
  p ← get;
  of_math (get_amount_in dy (reserve_x p) (reserve_y p) (fee_scaled p)).

(** ** Sequences of calls *)

Inductive pool_call : Set :=
| Initialise (amount_x amount_y : Z)
| AddLiquidity (amount_x amount_y : Z)
| RemoveLiquidity (lp_burned : Z)
| SwapXForY (dx min_dy : Z)
| SwapYForX (dy min_dx : Z).

Definition exec (c : pool_call) : method unit :=
  match c with
  | Initialise ax ay => _ ← initialise ax ay; mret tt
  | AddLiquidity ax ay => _ ← add_liquidity ax ay; mret tt
  | RemoveLiquidity lp => _ ← remove_liquidity lp; mret tt
  | SwapXForY dx min_dy => _ ← swap_x_for_y dx min_dy; mret tt
  | SwapYForX dy min_dx => _ ← swap_y_for_x dy min_dx; mret tt
  end.

(** Calls one after the other, whether they fail or not; a panic ends them. *)
Fixpoint run_calls (cs : list pool_call) (p : AmmPool.t) : option AmmPool.t :=
  match cs with
  | [] => Some p
  | c :: cs => match state_of (exec c p) with Some p' => run_calls cs p' | None => None end
  end.
