(* ===== verification/AmmFacts.v ===== *)
(** * The constant-product pool: theorems

    The square root, the value of a share over any sequence of calls, liquidity added
    and removed, and quotes. *)

From stdpp Require Import prelude list.
From S2P Require Import Prelude Contract AmmPool.
Import AmmPool (reserve_x, reserve_y, total_lp, fee_bps, fee_scaled, initialised).
Local Open Scope Z_scope.

(** ** The square root *)

(** A Newton step stays above the root, and halves the distance to it. *)
Lemma newton_above n x : 0 <= n → 0 < x → Z.sqrt n <= (x + n / x) / 2.
Proof.
  intros Hn Hx. pose proof (Z.sqrt_spec n Hn) as [Hlo _]. set (s := Z.sqrt n) in *.
  apply Z.div_le_lower_bound; [lia|].
  pose proof (Z.mul_succ_div_gt n x Hx). set (q := n / x) in *.
  destruct (Z_le_gt_dec (2 * s) (x + q)); [done|].
  assert (0 <= q) by (apply Z.div_pos; lia). pose proof (Z.square_nonneg (x - Z.succ q)).
  enough (4 * (x * Z.succ q) <= 4 * (s * s)) by lia.
  transitivity ((x + Z.succ q) * (x + Z.succ q)); [nia|].
  transitivity ((2 * s) * (2 * s)); [apply Z.square_le_mono_nonneg|]; lia.
Qed.

Lemma newton_halves n x : 0 <= n → Z.sqrt n < x → (x + n / x) / 2 - Z.sqrt n <= (x - Z.sqrt n) / 2.
Proof.
  intros Hn Hx. pose proof (Z.sqrt_spec n Hn) as [_ Hhi]. pose proof (Z.sqrt_nonneg n).
  set (s := Z.sqrt n) in *.
  assert (n / x <= s) by (apply Z.lt_succ_r, Z.div_lt_upper_bound; nia).
  replace (x - s) with (x + s + (- s) * 2) by lia. rewrite Z.div_add by lia.
  enough ((x + n / x) / 2 <= (x + s) / 2) by lia. apply Z.div_le_mono; lia.
Qed.

Lemma newton_done n x : 0 <= n → 0 < x → Z.sqrt n <= x → x <= (x + n / x) / 2 → x = Z.sqrt n.
Proof.
  intros Hn Hx Hs Hy. apply Z.le_antisymm; [|done]. apply Z.sqrt_le_square; [lia..|].
  pose proof (Z.mul_div_le n x Hx). pose proof (Z.mul_div_le (x + n / x) 2 ltac:(lia)). nia.
Qed.

Lemma newton_fits n x : 1 <= x <= n → x + n / x <= n + 1.
Proof. intros Hx. pose proof (Z.mul_div_le n x ltac:(lia)). nia. Qed.

Lemma isqrt_loop_spec fuel n x :
  0 < n < U128_MAX → Z.sqrt n <= x <= n → x - Z.sqrt n < 2 ^ Z.of_nat fuel →
  isqrt_loop fuel n x ((x + n / x) / 2) tt = Returned (Z.sqrt n) tt.
Proof.
  intros Hn. assert (0 < Z.sqrt n) by (apply Z.sqrt_pos; lia).
  revert x. induction fuel as [|fuel IH]; intros x Hx Hd; cbn [isqrt_loop];
    destruct (Z.ltb_spec ((x + n / x) / 2) x) as [Hlt|Hge].
  - pose proof (newton_above n x). lia.
  - by rewrite <- (newton_done n x) by lia.
  - pose proof (newton_above n x ltac:(lia) ltac:(lia)).
    pose proof (newton_halves n x ltac:(lia) ltac:(lia)).
    set (y := (x + n / x) / 2) in *. pose proof (newton_fits n y ltac:(lia)).
    pose proof (Z.div_pos n y ltac:(lia) ltac:(lia)).
    unfold mbind, call_mbind, call_bind, udiv. rewrite (proj2 (Z.eqb_neq y 0)) by lia. simpl.
    rewrite as_u128_small by (unfold in_u128; lia). apply IH; [lia|].
    rewrite Nat2Z.inj_succ, Z.pow_succ_r in Hd by lia.
    eapply Z.le_lt_trans; [done|]. apply Z.div_lt_upper_bound; lia.
  - by rewrite <- (newton_done n x) by lia.
Qed.

Lemma isqrt_start fuel n :
  0 < n < U128_MAX → 2 ^ 128 <= 2 ^ Z.of_nat fuel →
  isqrt_loop fuel n n (as_u128 (n + 1) / 2) tt = Returned (Z.sqrt n) tt.
Proof.
  intros Hn Hf. rewrite as_u128_small by (unfold in_u128; lia).
  replace (n + 1) with (n + n / n) by (rewrite Z.div_same; lia). apply isqrt_loop_spec; [done| |].
  - pose proof (Z.sqrt_le_lin n). lia.
  - unfold U128_MAX in Hn. pose proof (Z.sqrt_nonneg n). lia.
Qed.

Lemma isqrt_spec n : 0 <= n < U128_MAX → isqrt n tt = Returned (Z.sqrt n) tt.
Proof.
  intros Hn. unfold isqrt. destruct (Z.eqb_spec n 0) as [->|]; [done|].
  apply isqrt_start; [lia|done].
Qed.

(** [isqrt] is the integer square root on every [u128] but the largest, in at most 128
    iterations of its loop (more fuel changes nothing); on the largest, where the doc
    comment promises [2^64 - 1], the first sum wraps and the division panics. *)
Theorem isqrt_is_the_square_root n :
  in_u128 n →
  isqrt n tt = (if n =? U128_MAX then Panicked else Returned (Z.sqrt n) tt)
  ∧ ∀ fuel, (ISQRT_FUEL <= fuel)%nat → n ≠ 0 → isqrt_loop fuel n n (as_u128 (n + 1) / 2) tt = isqrt n tt.
Proof.
  intros Hn. unfold in_u128 in Hn. destruct (Z.eqb_spec n U128_MAX) as [->|Hne].
  - split; [by vm_compute|]. intros [|fuel] Hf _; [by unfold ISQRT_FUEL in Hf; lia|]. by vm_compute.
  - split; [apply isqrt_spec; lia|]. intros fuel Hf Hn0. rewrite isqrt_spec by lia.
    apply isqrt_start; [lia|]. apply Z.pow_le_mono_r; unfold ISQRT_FUEL in Hf; lia.
Qed.

(** ** What the functions of [math.rs] return *)

Lemma ends_of_math {A} (m : math A) (Q : A → AmmPool.t → Prop) (Z : AmmError → AmmPool.t → Prop) p :
  ends m (λ a _, Q a p) (λ e _, Z (Math e) p) tt → ends (of_math m) Q Z p.
Proof. intros H. by apply ends_with_err, ends_zoom. Qed.

Lemma amount_after_fee_le dx fee : 0 <= dx → 0 <= fee <= FEE_SCALE → 0 <= amount_after_fee dx fee <= dx.
Proof.
  intros Hdx Hfee. unfold amount_after_fee.
  rewrite (as_u128_small (FEE_SCALE - fee)) by (unfold in_u128, U128_MAX, FEE_SCALE in *; lia).
  pose proof (as_u128_range (dx * (FEE_SCALE - fee))) as [? _]. split.
  - apply Z.div_pos; [done|reflexivity].
  - apply Z.div_le_upper_bound; [reflexivity|].
    etransitivity; [apply as_u128_le; nia|]. rewrite Z.mul_comm. nia.
Qed.

(** The output of a swap and what it leaves: the product does not fall. *)
Lemma swap_keeps_k rx ry dx e :
  0 < rx → 0 < ry → 0 <= e <= dx → let dy := ry * e / (rx + e) in
  0 <= dy < ry ∧ rx * ry <= (rx + dx) * (ry - dy).
Proof.
  intros Hrx Hry He dy. pose proof (Z.mul_div_le (ry * e) (rx + e) ltac:(lia)) as Hle.
  fold dy in Hle. assert (0 <= dy) by (apply Z.div_pos; nia).
  assert (rx * ry <= (rx + e) * (ry - dy)) by nia. clearbody dy.
  assert (dy < ry) by nia. split; [done|]. transitivity ((rx + e) * (ry - dy)); [done|]. apply Z.mul_le_mono_nonneg_r; lia.
Qed.

Lemma get_amount_out_ends dx rx ry fee min_dy (Q : Z → unit → Prop) (R : MathError → unit → Prop) :
  0 <= fee <= FEE_SCALE → 0 <= dx → 0 <= rx → 0 <= ry →
  (let e := amount_after_fee dx fee in let dy := ry * e / (rx + e) in
   0 < rx → 0 < ry → ry * e <= U128_MAX → rx + e <= U128_MAX → min_dy <= dy → Q dy tt) →
  (∀ e, R e tt) → ends (get_amount_out dx rx ry fee min_dy) Q R tt.
Proof.
  intros Hfee Hdx Hrx Hry HQ HR. pose proof (amount_after_fee_le dx fee Hdx Hfee) as He.
  unfold get_amount_out. set (e := amount_after_fee dx fee) in *.
  do 2 (call_step; call_step; [done|]). do 2 (call_step; call_step; [done|]). fitted.
  call_step. apply ends_udiv; [lia|].
  call_step; call_step; [done|]. call_step. apply HQ; lia.
Qed.

Lemma subsequent_lp_shares_ends ax ay rx ry L (Q : Z → unit → Prop) (R : MathError → unit → Prop) :
  0 <= ax → 0 <= ay → 0 < rx → 0 < ry →
  (∀ m, 0 <= m → m * rx <= ax * L → m * ry <= ay * L → Q m tt) →
  (∀ e, R e tt) → 0 <= L → ends (subsequent_lp_shares ax ay rx ry L) Q R tt.
Proof.
  intros Hax Hay Hrx Hry HQ HR HL. unfold subsequent_lp_shares.
  call_step; call_step; [done|]. call_step; call_step; [done|]. fitted.
  call_step. apply ends_udiv; [lia|].
  call_step; call_step; [done|]. fitted.
  call_step. apply ends_udiv; [lia|].
  call_step. pose proof (Z.mul_div_le (ax * L) rx Hrx). pose proof (Z.mul_div_le (ay * L) ry Hry).
  pose proof (Z.div_pos (ax * L) rx ltac:(nia) Hrx). pose proof (Z.div_pos (ay * L) ry ltac:(nia) Hry).
  apply HQ; nia.
Qed.

Lemma lp_to_amounts_ends lp rx ry L (Q : Z * Z → unit → Prop) (R : MathError → unit → Prop) :
  0 <= lp → 0 < rx → 0 < ry → 0 < L →
  (let ax := lp * rx / L in let ay := lp * ry / L in Q (ax, ay) tt) →
  R Overflow tt → ends (lp_to_amounts lp rx ry L) Q R tt.
Proof.
  intros Hlp Hrx Hry HL HQ HR. unfold lp_to_amounts.
  call_step; call_step; [lia|]. call_step; call_step; [done|]. fitted.
  call_step. apply ends_udiv; [lia|].
  call_step; call_step; [done|]. fitted.
  call_step. apply ends_udiv; [lia|].
  by call_step.
Qed.

Lemma initial_lp_shares_ends ax ay (Q : Z → unit → Prop) (R : MathError → unit → Prop) :
  0 <= ax → 0 <= ay → ax * ay ≠ U128_MAX →
  (let m := Z.sqrt (ax * ay) - MINIMUM_LIQUIDITY in 0 <= m → ax * ay < U128_MAX → Q m tt) →
  (∀ e, R e tt) → ends (initial_lp_shares ax ay) Q R tt.
Proof.
  intros Hax Hay Hne HQ HR. unfold initial_lp_shares.
  call_step; call_step; [done|]. fitted. call_step. unfold ends at 1. rewrite isqrt_spec by lia.
  call_step; [done|]. fitted. apply HQ; lia.
Qed.

(** ** The invariant of a pool *)

Record pool_ok (p : AmmPool.t) : Prop := {
  ok_fee : 0 <= fee_scaled p <= FEE_SCALE;
  ok_x : 0 <= reserve_x p <= U128_MAX;
  ok_y : 0 <= reserve_y p <= U128_MAX;
  (** Once initialised, the reserves are never empty, the locked shares remain, and the
      shares are backed: their square is at most the product of the reserves. *)
  ok_reserves : initialised p = true → 0 < reserve_x p ∧ 0 < reserve_y p;
  ok_locked : initialised p = true → MINIMUM_LIQUIDITY <= total_lp p;
  ok_backed : initialised p = true → total_lp p * total_lp p <= reserve_x p * reserve_y p;
}.

(** The value of a share squared, [k / total_lp^2], did not fall. *)
Definition worth_le (p p' : AmmPool.t) : Prop :=
  reserve_x p * reserve_y p * (total_lp p' * total_lp p')
    <= reserve_x p' * reserve_y p' * (total_lp p * total_lp p).

(** What a call pays into each reserve, and that the reserves have room for it. *)
Definition in_x (c : pool_call) : Z :=
  match c with Initialise ax _ | AddLiquidity ax _ => ax | SwapXForY dx _ => dx | _ => 0 end.
Definition in_y (c : pool_call) : Z :=
  match c with Initialise _ ay | AddLiquidity _ ay => ay | SwapYForX dy _ => dy | _ => 0 end.
Definition typed (c : pool_call) : Prop :=
  match c with
  | Initialise ax ay | AddLiquidity ax ay => 0 <= ax ∧ 0 <= ay
  | RemoveLiquidity lp => 0 <= lp
  | SwapXForY dx _ => 0 <= dx
  | SwapYForX dy _ => 0 <= dy
  end.
Definition room (c : pool_call) (p : AmmPool.t) : Prop :=
  reserve_x p + in_x c <= U128_MAX ∧ reserve_y p + in_y c <= U128_MAX.

(** The one call that panics. *)
Definition crashes (c : pool_call) : Prop :=
  match c with Initialise ax ay => ax * ay = U128_MAX | _ => False end.

Definition is_swap (c : pool_call) : Prop :=
  match c with SwapXForY _ _ | SwapYForX _ _ => True | _ => False end.

(** A pool after a call, seen from the pool before. *)
Record follows (c : pool_call) (p p' : AmmPool.t) : Prop := {
  follows_ok : pool_ok p';
  follows_x : reserve_x p' <= reserve_x p + in_x c;
  follows_y : reserve_y p' <= reserve_y p + in_y c;
  follows_init : initialised p = true → initialised p' = true;
  follows_worth : initialised p = true → worth_le p p';
  follows_swap : is_swap c → total_lp p' = total_lp p;
}.

Lemma worth_le_refl p : worth_le p p.
Proof. unfold worth_le. lia. Qed.

Lemma square_le a b : 0 <= a → a * a <= b * b → 0 <= b → a <= b.
Proof. intros. destruct (Z_le_gt_dec a b); [done|]. nia. Qed.

(** Backing follows from the value of a share. *)
Lemma worth_le_backed p p' :
  0 < reserve_x p → 0 < reserve_y p → 0 <= reserve_x p' * reserve_y p' →
  total_lp p * total_lp p <= reserve_x p * reserve_y p → worth_le p p' →
  total_lp p' * total_lp p' <= reserve_x p' * reserve_y p'.
Proof.
  unfold worth_le. intros Hx Hy Hk Hb Hw.
  apply (Z.mul_le_mono_pos_l _ _ (reserve_x p * reserve_y p)); [nia|].
  etransitivity; [exact Hw|]. rewrite (Z.mul_comm (reserve_x p * reserve_y p)).
  by apply Z.mul_le_mono_nonneg_l.
Qed.

(** The value does not fall when each reserve grows at least as the shares do. *)
Lemma worth_le_scaled p p' :
  0 <= reserve_x p → 0 <= reserve_y p → 0 <= total_lp p' →
  reserve_x p * total_lp p' <= reserve_x p' * total_lp p →
  reserve_y p * total_lp p' <= reserve_y p' * total_lp p → worth_le p p'.
Proof.
  unfold worth_le. intros Hx Hy HL Hsx Hsy.
  assert (0 <= reserve_x p * total_lp p') as Hpx by nia. assert (0 <= reserve_y p * total_lp p') as Hpy by nia.
  pose proof (Z.mul_le_mono_nonneg _ _ _ _ Hpx Hsx Hpy Hsy). lia.
Qed.

(** The steps that leave an initialised pool. *)
Lemma follows_intro c p p' :
  pool_ok p → initialised p = true → initialised p' = true → fee_scaled p' = fee_scaled p →
  0 < reserve_x p' <= reserve_x p + in_x c → 0 < reserve_y p' <= reserve_y p + in_y c →
  room c p → MINIMUM_LIQUIDITY <= total_lp p' → worth_le p p' → (is_swap c → total_lp p' = total_lp p) → follows c p p'.
Proof.
  intros [? ? ? Hr Hl Hb] Hi Hi' Hf ?? [??] ? Hw Hsw. destruct (Hr Hi). specialize (Hb Hi). split; try done; [|lia..].
  split; rewrite ?Hf; try done; try lia. intros _. apply (worth_le_backed p p'); try done. nia.
Qed.

Lemma follows_refl c p : pool_ok p → typed c → follows c p p.
Proof. intros Hok Ht. split; try done; try (destruct c; simpl in *; lia). intros _. apply worth_le_refl. Qed.

(** ** One call *)

Abbreviation leads c p := (λ _ p', follows c p p') (only parsing).

(** A call on an initialised pool, and the guard that makes it so. *)
Lemma ends_require_initialised (Q : unit → AmmPool.t → Prop) (R : AmmError → AmmPool.t → Prop) p :
  (initialised p = false → R NotInitialised p) → (initialised p = true → Q tt p) → ends require_initialised Q R p.
Proof. intros HR HQ. unfold require_initialised. call_step. call_step. destruct (initialised p) eqn:E; call_step; auto. Qed.

Lemma ends_dropped {A} (m : method A) (Q : unit → AmmPool.t → Prop) R p :
  ends m (λ _, Q tt) R p → ends (_ ← m; mret tt) Q R p.
Proof. intros H. by apply ends_then. Qed.

Lemma initialise_step ax ay p :
  let c := Initialise ax ay in
  pool_ok p → typed c → room c p → ¬ crashes c → ends (initialise ax ay) (leads c p) (leads c p) p.
Proof.
  intros c Hok [??] [??] Hnc. assert (follows c p p) as Hsame by (apply follows_refl; done).
  unfold initialise. call_step. call_step. call_step. call_step; [done|]. call_step. call_step; [done|].
  call_step. apply ends_of_math, initial_lp_shares_ends; [lia..|done| |done].
  simpl. intros Hm Hk. do 3 (call_step; call_step). call_step.
  pose proof (Z.sqrt_spec (ax * ay) ltac:(nia)) as [Hs _]. destruct Hok. simpl in *.
  assert (as_u128 (Z.sqrt (ax * ay) - MINIMUM_LIQUIDITY + MINIMUM_LIQUIDITY) = Z.sqrt (ax * ay)) as Hlp.
  { rewrite as_u128_small; [lia|]. unfold in_u128. pose proof (Z.sqrt_le_lin (ax * ay) ltac:(nia)). unfold MINIMUM_LIQUIDITY in *. lia. }
  split; simpl; try lia; [|congruence..]. split; simpl; rewrite ?Hlp; lia.
Qed.

(** The pool after [m] shares were minted for a deposit. *)
Definition deposited ax ay m (p : AmmPool.t) : AmmPool.t :=
  AmmPool.set_total_lp (total_lp p + m) (AmmPool.set_reserves (reserve_x p + ax) (reserve_y p + ay) p).

Lemma deposited_worth ax ay m p :
  pool_ok p → initialised p = true → room (AddLiquidity ax ay) p → 0 <= ax → 0 <= ay → 0 <= m →
  m * reserve_x p <= ax * total_lp p → m * reserve_y p <= ay * total_lp p →
  worth_le p (deposited ax ay m p) ∧ total_lp p + m <= U128_MAX.
Proof.
  intros Hok Hi [Hrx Hry] ?????. simpl in Hrx, Hry. destruct (ok_reserves p Hok Hi).
  pose proof (ok_locked p Hok Hi). pose proof (ok_backed p Hok Hi). unfold MINIMUM_LIQUIDITY in *.
  assert (worth_le p (deposited ax ay m p)) as Hw by (apply worth_le_scaled; simpl; lia). split; [done|].
  apply square_le; [lia| |unfold U128_MAX; lia].
  pose proof (worth_le_backed p (deposited ax ay m p)) as Hb. simpl in Hb.
  etransitivity; [apply Hb; try done; nia|]. apply Z.mul_le_mono_nonneg; lia.
Qed.

Lemma add_liquidity_ends ax ay p (Q : Z * PoolEvent → AmmPool.t → Prop) (R : AmmError → AmmPool.t → Prop) :
  pool_ok p → typed (AddLiquidity ax ay) → room (AddLiquidity ax ay) p →
  (∀ m, initialised p = true → 0 <= m → m * reserve_x p <= ax * total_lp p → m * reserve_y p <= ay * total_lp p →
     Q (m, LiquidityAdded ax ay m) (deposited ax ay m p)) →
  (∀ e, R e p) → ends (add_liquidity ax ay) Q R p.
Proof.
  intros Hok [??] Hroom HQ HR. unfold add_liquidity.
  call_step. apply ends_require_initialised; [done|]. intros Hi.
  destruct (ok_reserves p Hok Hi). pose proof (ok_locked p Hok Hi). unfold MINIMUM_LIQUIDITY in *.
  call_step. call_step; [done|]. call_step. call_step. call_step.
  apply ends_of_math, subsequent_lp_shares_ends; [lia..| |done|lia].
  intros m Hm Hmx Hmy. destruct (deposited_worth ax ay m p) as [_ Hfit]; [done..|].
  destruct Hroom as [Hrx Hry]; simpl in Hrx, Hry.
  do 2 (call_step; call_step). call_step. rewrite !as_u128_small by (unfold in_u128; lia). by apply HQ.
Qed.

Lemma add_liquidity_step ax ay p :
  let c := AddLiquidity ax ay in
  pool_ok p → typed c → room c p → ends (add_liquidity ax ay) (leads c p) (leads c p) p.
Proof.
  intros c Hok [??] Hroom. apply add_liquidity_ends; [done..| |intros _; by apply follows_refl].
  intros m Hi Hm Hmx Hmy. destruct (deposited_worth ax ay m p) as [Hw _]; [done..|].
  destruct (ok_reserves p Hok Hi). pose proof (ok_locked p Hok Hi). destruct Hroom as [Hrx Hry] eqn:E; simpl in Hrx, Hry.
  apply follows_intro; simpl; try done; lia.
Qed.

(** The pool after [lp] shares were burned. *)
Definition withdrawn lp (p : AmmPool.t) : AmmPool.t :=
  AmmPool.set_total_lp (total_lp p - lp)
    (AmmPool.set_reserves (reserve_x p - lp * reserve_x p / total_lp p) (reserve_y p - lp * reserve_y p / total_lp p) p).

Lemma part_of lp r L : 0 <= lp < L → 0 < r → 0 <= lp * r / L < r ∧ lp * r / L * L <= lp * r.
Proof.
  intros Hlp Hr. pose proof (Z.mul_div_le (lp * r) L ltac:(lia)).
  pose proof (Z.div_pos (lp * r) L ltac:(nia) ltac:(lia)).
  assert (lp * r / L < r) by (apply Z.div_lt_upper_bound; nia). lia.
Qed.

Lemma remove_liquidity_ends lp p (Q : Z * Z * PoolEvent → AmmPool.t → Prop) (R : AmmError → AmmPool.t → Prop) :
  pool_ok p → typed (RemoveLiquidity lp) →
  (let ax := lp * reserve_x p / total_lp p in let ay := lp * reserve_y p / total_lp p in
   initialised p = true → 0 < lp <= total_lp p - MINIMUM_LIQUIDITY →
   Q (ax, ay, LiquidityRemoved lp ax ay) (withdrawn lp p)) →
  (initialised p = false → R NotInitialised p) → (lp = 0 → R ZeroAmount p) →
  (∀ have, total_lp p - MINIMUM_LIQUIDITY < lp → R (InsufficientLp have lp) p) → R (Math Overflow) p →
  ends (remove_liquidity lp) Q R p.
Proof.
  intros Hok Hlp HQ HRn HRz HRi HRo. simpl in Hlp. unfold remove_liquidity.
  call_step. apply ends_require_initialised; [done|]. intros Hi.
  destruct (ok_reserves p Hok Hi). pose proof (ok_locked p Hok Hi) as Hl. pose proof (ok_backed p Hok Hi).
  pose proof (ok_x p Hok). pose proof (ok_y p Hok).
  call_step. call_step; [by apply HRz|]. call_step. call_step. call_step. call_step; [apply HRi; lia|]. call_step.
  unfold MINIMUM_LIQUIDITY in *. assert (total_lp p <= U128_MAX) by (apply square_le; unfold U128_MAX in *; nia).
  apply ends_of_math, lp_to_amounts_ends; [lia..| |done]. simpl. do 2 (call_step; call_step). call_step.
  destruct (part_of lp (reserve_x p) (total_lp p)), (part_of lp (reserve_y p) (total_lp p)); [lia..|].
  rewrite !as_u128_small by (unfold in_u128; lia). apply HQ; [done|lia].
Qed.

Lemma remove_liquidity_step lp p :
  let c := RemoveLiquidity lp in
  pool_ok p → typed c → ends (remove_liquidity lp) (leads c p) (leads c p) p.
Proof.
  intros c Hok Hlp. assert (follows c p p) as Hsame by (apply follows_refl; done).
  apply remove_liquidity_ends; try done. simpl. intros Hi Hlp'.
  destruct (ok_reserves p Hok Hi). pose proof (ok_x p Hok). pose proof (ok_y p Hok). unfold MINIMUM_LIQUIDITY in *.
  destruct (part_of lp (reserve_x p) (total_lp p)), (part_of lp (reserve_y p) (total_lp p)); [lia..|].
  apply follows_intro; simpl; try done; unfold MINIMUM_LIQUIDITY; try lia; [split; simpl; lia|].
  apply worth_le_scaled; simpl; lia.
Qed.

Lemma verify_k_ends ox oy nx ny (Q : unit → unit → Prop) (R : MathError → unit → Prop) :
  (ox * oy <= nx * ny → Q tt tt) → (∀ e, R e tt) → ends (verify_k_invariant ox oy nx ny) Q R tt.
Proof.
  intros HQ HR. unfold verify_k_invariant. do 2 (call_step; call_step; [done|]). fitted.
  destruct (Z.leb_spec (ox * oy) (nx * ny)); call_step; auto.
Qed.

(** A swap in either direction, up to the reserves it exchanges. *)
Lemma swapped_follows c p rx' ry' :
  pool_ok p → initialised p = true → room c p →
  0 < rx' <= reserve_x p + in_x c → 0 < ry' <= reserve_y p + in_y c →
  reserve_x p * reserve_y p <= rx' * ry' → follows c p (AmmPool.set_reserves rx' ry' p).
Proof.
  intros Hok Hi Hroom Hx Hy Hk. apply follows_intro; simpl; try done; [by apply ok_locked|].
  unfold worth_le; simpl. apply Z.mul_le_mono_nonneg_r; [nia|done].
Qed.

Lemma swap_x_for_y_step dx min_dy p :
  let c := SwapXForY dx min_dy in
  pool_ok p → typed c → room c p → ends (swap_x_for_y dx min_dy) (leads c p) (leads c p) p.
Proof.
  intros c Hok Hdx Hroom. assert (follows c p p) as Hsame by (apply follows_refl; done). simpl in Hdx.
  unfold swap_x_for_y. call_step. apply ends_require_initialised; [done|]. intros Hi.
  call_step. call_step; [done|]. call_step. call_step. call_step.
  pose proof (ok_fee p Hok) as Hfee. pose proof (ok_x p Hok). pose proof (ok_y p Hok).
  apply ends_of_math, get_amount_out_ends; [done|lia..| |done].
  simpl. intros Hrx Hry _ _ _.
  destruct (swap_keeps_k (reserve_x p) (reserve_y p) dx _ Hrx Hry (amount_after_fee_le dx _ Hdx Hfee)) as [Hdy Hk].
  set (dy := _ / _) in *. destruct Hroom as [Hroomx Hroomy] eqn:E; simpl in Hroomx, Hroomy.
  call_step. rewrite !as_u128_small by (unfold in_u128; lia). call_step.
  assert (follows c p (AmmPool.set_reserves (reserve_x p + dx) (reserve_y p - dy) p))
    by (apply swapped_follows; simpl; try done; lia).
  call_step. apply ends_of_math, verify_k_ends; [|done]. intros _. by call_step.
Qed.

Lemma swap_y_for_x_step dy min_dx p :
  let c := SwapYForX dy min_dx in
  pool_ok p → typed c → room c p → ends (swap_y_for_x dy min_dx) (leads c p) (leads c p) p.
Proof.
  intros c Hok Hdy Hroom. assert (follows c p p) as Hsame by (apply follows_refl; done). simpl in Hdy.
  unfold swap_y_for_x. call_step. apply ends_require_initialised; [done|]. intros Hi.
  call_step. call_step; [done|]. call_step. call_step. call_step.
  pose proof (ok_fee p Hok) as Hfee. pose proof (ok_x p Hok). pose proof (ok_y p Hok).
  apply ends_of_math, get_amount_out_ends; [done|lia..| |done].
  simpl. intros Hry Hrx _ _ _.
  destruct (swap_keeps_k (reserve_y p) (reserve_x p) dy _ Hry Hrx (amount_after_fee_le dy _ Hdy Hfee)) as [Hdx Hk].
  set (dx := _ / _) in *. destruct Hroom as [Hroomx Hroomy] eqn:E; simpl in Hroomx, Hroomy.
  call_step. rewrite !as_u128_small by (unfold in_u128; lia). call_step.
  assert (follows c p (AmmPool.set_reserves (reserve_x p - dx) (reserve_y p + dy) p))
    by (apply swapped_follows; simpl; try done; lia).
  call_step. apply ends_of_math, verify_k_ends; [|done]. intros _. by call_step.
Qed.

Lemma pool_step c p :
  pool_ok p → typed c → room c p → ¬ crashes c →
  ∃ p', state_of (exec c p) = Some p' ∧ follows c p p'.
Proof.
  intros Hok Ht Hroom Hnc. assert (ends (exec c) (leads c p) (leads c p) p) as H.
  { destruct c; apply ends_dropped;
      [by apply initialise_step|by apply add_liquidity_step|by apply remove_liquidity_step
      |by apply swap_x_for_y_step|by apply swap_y_for_x_step]. }
  unfold ends in H. destruct (exec c p); simpl; eauto; done.
Qed.

(** ** Sequences of calls *)

(** The tokens a sequence of calls pays in fit the reserves. *)
Definition paid_in (amount : pool_call → Z) (cs : list pool_call) : Z := sumZ (amount <$> cs).

Lemma paid_in_nonneg cs : Forall typed cs → 0 <= paid_in in_x cs ∧ 0 <= paid_in in_y cs.
Proof.
  intros Ht. split; apply sumZ_nonneg, Forall_fmap; (eapply Forall_impl; [exact Ht|]);
    intros [] Hc; simpl in *; lia.
Qed.

Lemma worth_le_trans p1 p2 p3 :
  0 < total_lp p2 → 0 <= reserve_x p1 * reserve_y p1 → 0 <= reserve_x p3 * reserve_y p3 →
  worth_le p1 p2 → worth_le p2 p3 → worth_le p1 p3.
Proof.
  unfold worth_le. intros HL H1 H3 H12 H23.
  set (k1 := reserve_x p1 * reserve_y p1) in *. set (k2 := reserve_x p2 * reserve_y p2) in *.
  set (k3 := reserve_x p3 * reserve_y p3) in *. set (l1 := total_lp p1 * total_lp p1) in *.
  set (l3 := total_lp p3 * total_lp p3) in *. set (l2 := total_lp p2 * total_lp p2) in *.
  assert (0 < l2) by (subst l2; nia). assert (0 <= l1) by (subst l1; nia). assert (0 <= l3) by (subst l3; nia).
  clearbody k1 k2 k3 l1 l2 l3. apply (Z.mul_le_mono_pos_l _ _ l2); [done|].
  transitivity (k2 * l1 * l3); nia.
Qed.

Lemma run_pool_ok cs p :
  pool_ok p → Forall typed cs → Forall (λ c, ¬ crashes c) cs →
  reserve_x p + paid_in in_x cs <= U128_MAX → reserve_y p + paid_in in_y cs <= U128_MAX →
  ∃ p', run_calls cs p = Some p' ∧ pool_ok p' ∧
        (initialised p = true → initialised p' = true ∧ worth_le p p') ∧
        (Forall is_swap cs → total_lp p' = total_lp p).
Proof.
  revert p. induction cs as [|c cs IH]; intros p Hok Ht Hnc Hx Hy.
  { exists p. split_and!; [done|done| |done]. intros. split; [done|]. apply worth_le_refl. }
  apply Forall_cons in Ht as [Htc Ht]. apply Forall_cons in Hnc as [Hcc Hnc].
  destruct (paid_in_nonneg cs Ht). unfold paid_in in *; csimpl in *.
  destruct (pool_step c p Hok Htc) as (p1 & Hex & [Hok1 Hx1 Hy1 Hi1 Hw1 Hs1]); [split; lia|done|].
  destruct (IH p1) as (p' & Hrun & Hok' & Hp' & Hs'); [done..|lia|lia|].
  exists p'. rewrite Hex. split_and!; [done|done| |intros [Hc Hcs]%Forall_cons; rewrite Hs', Hs1; done]. intros Hi. destruct (Hp' (Hi1 Hi)) as [Hi' Hw']. split; [done|].
  pose proof (ok_locked p1 Hok1 (Hi1 Hi)). destruct (ok_reserves p1 Hok1 (Hi1 Hi)), (ok_reserves p Hok Hi), (ok_reserves p' Hok' Hi').
  unfold MINIMUM_LIQUIDITY in *. apply (worth_le_trans p p1 p'); [lia|nia|nia|auto..].
Qed.

(** The pools that calls on a new pool lead to, when the tokens paid in fit a [u128]. *)
Definition reachable (p : AmmPool.t) : Prop :=
  ∃ fee p0 cs, 0 <= fee ∧ new fee = Returned p0 tt ∧
    Forall typed cs ∧ Forall (λ c, ¬ crashes c) cs ∧
    paid_in in_x cs <= U128_MAX ∧ paid_in in_y cs <= U128_MAX ∧ run_calls cs p0 = Some p.

Lemma new_ok fee p : 0 <= fee → new fee = Returned p tt → pool_ok p ∧ reserve_x p = 0 ∧ reserve_y p = 0.
Proof.
  intros Hf. unfold new, with_err, bps_to_scale, reject_if, mbind, call_mbind, call_bind.
  destruct (Z.ltb_spec MAX_FEE_BPS fee); [done|]. intros [= <-]. unfold MAX_FEE_BPS in *.
  split; [|done]. split; simpl; try done; [|unfold U128_MAX; lia..].
  rewrite as_u128_small; unfold in_u128, U128_MAX, FEE_SCALE; lia.
Qed.

Lemma reachable_pool_ok p : reachable p → pool_ok p.
Proof.
  intros (fee & p0 & cs & Hf & Hnew & Ht & Hnc & Hx & Hy & Hrun).
  destruct (new_ok fee p0 Hf Hnew) as (Hok & Hx0 & Hy0).
  destruct (run_pool_ok cs p0) as (p' & Hrun' & Hok' & _); [done..|lia|lia|]. congruence.
Qed.

(** Calls on a new pool whose payments fit a [u128], in any order and whether they
    fail or not, none of them the initialisation whose product is the largest [u128], never
    panic; and once the pool is initialised neither reserve is ever empty, the locked
    shares stay, and the square of the shares is at most the product of the reserves. *)
Theorem shares_stay_backed fee p0 cs :
  0 <= fee → new fee = Returned p0 tt → Forall typed cs → Forall (λ c, ¬ crashes c) cs →
  paid_in in_x cs <= U128_MAX → paid_in in_y cs <= U128_MAX →
  ∃ p, run_calls cs p0 = Some p ∧
    (initialised p = true →
       0 < reserve_x p <= U128_MAX ∧ 0 < reserve_y p <= U128_MAX ∧
       MINIMUM_LIQUIDITY <= total_lp p ∧ total_lp p * total_lp p <= reserve_x p * reserve_y p).
Proof.
  intros Hf Hnew Ht Hnc Hx Hy. destruct (new_ok fee p0 Hf Hnew) as (Hok & Hx0 & Hy0).
  destruct (run_pool_ok cs p0) as (p & Hrun & [] & _); [done..|lia|lia|].
  exists p. split; [done|]. naive_solver lia.
Qed.

(** C21: From any initialised pool that calls lead to, more calls (failed ones included, none of
    them the initialisation whose product is the largest [u128]) whose payments fit a [u128]
    together with the reserves never panic and never lower the value of a share,
    [reserve_x * reserve_y / total_lp^2]; swaps alone leave the shares and never lower the
    product of the reserves. *)
Theorem share_value_never_falls p cs :
  reachable p → initialised p = true → Forall typed cs → Forall (λ c, ¬ crashes c) cs →
  reserve_x p + paid_in in_x cs <= U128_MAX → reserve_y p + paid_in in_y cs <= U128_MAX →
  ∃ p', run_calls cs p = Some p' ∧
    reserve_x p * reserve_y p * (total_lp p' * total_lp p')
      <= reserve_x p' * reserve_y p' * (total_lp p * total_lp p)
    ∧ (Forall is_swap cs → total_lp p' = total_lp p ∧ reserve_x p * reserve_y p <= reserve_x p' * reserve_y p').
Proof.
  intros Hp%reachable_pool_ok Hi Ht Hnc Hx Hy.
  destruct (run_pool_ok cs p) as (p' & Hrun & _ & Hw & Hs); [done..|]. destruct (Hw Hi) as [_ Hworth].
  exists p'. split_and!; [done|done|]. intros Hsw. specialize (Hs Hsw). split; [done|].
  pose proof (ok_locked p Hp Hi). unfold worth_le, MINIMUM_LIQUIDITY in *. rewrite Hs in Hworth. nia.
Qed.

(** ** Liquidity and back *)

Lemma burned_back m ax L r : 0 < L + m → m * r <= ax * L → m * (r + ax) / (L + m) <= ax.
Proof. intros. apply Z.div_le_upper_bound; lia. Qed.

(** Liquidity added and at once removed never pays back more than was put in of
    either token; the removal fails only when no share was minted, or when an amount
    overflows, and then changes nothing. *)
Theorem liquidity_round_trip p ax ay m ev p1 :
  reachable p → typed (AddLiquidity ax ay) → room (AddLiquidity ax ay) p →
  add_liquidity ax ay p = Returned (m, ev) p1 →
  ends (remove_liquidity m)
    (λ '(back_x, back_y, _) _, 0 <= back_x <= ax ∧ 0 <= back_y <= ay)
    (λ e p2, p2 = p1 ∧ (e = ZeroAmount ∧ m = 0 ∨ e = Math Overflow)) p1.
Proof.
  intros Hok%reachable_pool_ok Ht Hroom Hadd.
  pose proof (add_liquidity_step ax ay p Hok Ht Hroom) as Hst. unfold ends in Hst. rewrite Hadd in Hst.
  assert (initialised p = true ∧ 0 <= m ∧ m * reserve_x p <= ax * total_lp p ∧
          m * reserve_y p <= ay * total_lp p ∧ p1 = deposited ax ay m p) as (Hi & Hm & Hmx & Hmy & ->).
  { pose proof (add_liquidity_ends ax ay p (λ r p', initialised p = true ∧ 0 <= r.1 ∧
      r.1 * reserve_x p <= ax * total_lp p ∧ r.1 * reserve_y p <= ay * total_lp p ∧ p' = deposited ax ay r.1 p)
      (λ _ _, True) Hok Ht Hroom) as He. unfold ends in He. rewrite Hadd in He. apply He; auto. }
  destruct (ok_reserves p Hok Hi). pose proof (ok_locked p Hok Hi). unfold MINIMUM_LIQUIDITY in *.
  apply remove_liquidity_ends; simpl; unfold MINIMUM_LIQUIDITY;
    [by apply Hst|done| |congruence|auto|lia|auto].
  intros _ Hm'. destruct Ht. split; (split; [apply Z.div_pos; nia|]); apply burned_back; lia.
Qed.

(** ** Quotes *)

Lemma get_amount_out_min dx rx ry fee min_dy dy :
  get_amount_out dx rx ry fee 0 tt = Returned dy tt →
  get_amount_out dx rx ry fee min_dy tt =
    if dy <? min_dy then Raised (InsufficientOutput dy min_dy) tt else Returned dy tt.
Proof.
  unfold get_amount_out, reject_if, mbind, call_mbind, call_bind, ok_or, or_panic, throw.
  destruct (dx =? 0); [done|]. destruct ((rx =? 0) || (ry =? 0)); [done|]. simpl.
  destruct (u128_fit (ry * _)) as [num|]; [|done]. destruct (u128_fit (rx + _)) as [den|]; [|done]. simpl.
  destruct (udiv num den) as [q|]; [|done]. simpl. destruct (q <? 0); [done|]. intros [= ->].
  by destruct (dy <? min_dy).
Qed.

(** C36: When the payment fits a [u128] together with the reserve, a quote of [quote_x_for_y]
    is what a swap pays for every minimum up to the quote, and every higher minimum is refused
    with nothing changed.  When the new product of the reserves does not fit a [u128] the swap
    raises an error after it has taken the payment and released the output from the
    reserves. *)
Theorem quotes_are_honoured p dx dy min_dy :
  reachable p → 0 <= dx → reserve_x p + dx <= U128_MAX →
  quote_x_for_y dx p = Returned dy p →
  let p' := AmmPool.set_reserves (reserve_x p + dx) (reserve_y p - dy) p in
  swap_x_for_y dx min_dy p =
    (if dy <? min_dy then Raised (Math (InsufficientOutput dy min_dy)) p
     else if reserve_x p' * reserve_y p' <=? U128_MAX
     then Returned (dy, Swap X dx dy (fee_amount dx (fee_scaled p))) p'
     else Raised (Math Overflow) p').
Proof.
  intros Hok%reachable_pool_ok Hdx Hroom Hq p'.
  pose proof (ok_fee p Hok). pose proof (ok_x p Hok). pose proof (ok_y p Hok).
  unfold quote_x_for_y, require_initialised, mbind, call_mbind, call_bind, get in Hq.
  destruct (initialised p) eqn:Hi; [|done]. simpl in Hq.
  destruct (get_amount_out dx (reserve_x p) (reserve_y p) (fee_scaled p) 0 tt) as [d []| |] eqn:Hg;
    unfold of_math, with_err, zoom in Hq; rewrite Hg in Hq; simplify_eq.
  assert (dx ≠ 0) by (intros ->; done).
  assert (0 <= dy < reserve_y p ∧ reserve_x p * reserve_y p <= (reserve_x p + dx) * (reserve_y p - dy)) as [Hdy Hk].
  { pose proof (get_amount_out_ends dx (reserve_x p) (reserve_y p) (fee_scaled p) 0
      (λ dy _, 0 <= dy < reserve_y p ∧ reserve_x p * reserve_y p <= (reserve_x p + dx) * (reserve_y p - dy))
      (λ _ _, True)) as He. unfold ends in He. rewrite Hg in He. apply He; try done; try lia.
    simpl. intros. apply swap_keeps_k; try done. by apply amount_after_fee_le. }
  unfold swap_x_for_y, require_initialised, mbind, call_mbind, call_bind, get. rewrite !Hi. simpl.
  rewrite (proj2 (Z.eqb_neq dx 0)) by done. simpl. unfold of_math, with_err, zoom.
  rewrite !(get_amount_out_min _ _ _ _ _ _ Hg). destruct (dy <? min_dy); [done|]. simpl. rewrite !as_u128_small by (unfold in_u128; lia). fold p'.
  unfold verify_k_invariant, mbind, call_mbind, call_bind, ok_or, throw.
  destruct (Z.leb_spec ((reserve_x p + dx) * (reserve_y p - dy)) U128_MAX).
  - rewrite !(fit_in 0 U128_MAX) by nia. simpl. by rewrite (proj2 (Z.leb_le _ _)) by done.
  - destruct (u128_fit (reserve_x p * reserve_y p)); [|done]. simpl.
    destruct (u128_fit ((reserve_x p + dx) * (reserve_y p - dy))) eqn:Hf; [|done]. fitted. lia.
Qed.

(** The input [get_amount_in] names, net of an exact fee, pays for the output. *)
Lemma get_amount_in_bound dy rx ry fee dx :
  0 <= dy → 0 <= rx → in_u128 ry → 0 <= 2 * fee <= FEE_SCALE →
  get_amount_in dy rx ry fee tt = Returned dx tt →
  0 < rx ∧ 0 < dy < ry ∧ 0 < dx ∧ rx * dy * FEE_SCALE < dx * ((ry - dy) * (FEE_SCALE - fee)).
Proof.
  intros Hdy Hrx Hry Hfee Hin. unfold in_u128 in Hry.
  assert (ends (get_amount_in dy rx ry fee) (λ dx _, 0 < rx ∧ 0 < dy < ry ∧ 0 < dx ∧
    rx * dy * FEE_SCALE < dx * ((ry - dy) * (FEE_SCALE - fee))) (λ _ _, True) tt) as He;
    [|unfold ends in He; by rewrite Hin in He].
  unfold get_amount_in. do 3 (call_step; call_step; [done|]). do 3 (call_step; call_step; [done|]). fitted.
  unfold FEE_SCALE in *. rewrite !as_u128_small in * by (unfold in_u128, U128_MAX in *; lia).
  set (den := (ry - dy) * (1000000 - fee)) in *. set (num := rx * dy * 1000000) in *.
  assert (500000 <= den) by (subst den; nia).
  call_step. apply ends_udiv; [lia|]. call_step.
  pose proof (Z.mul_succ_div_gt num den ltac:(lia)). pose proof (Z.div_pos num den ltac:(lia) ltac:(lia)).
  assert (num / den < U128_MAX) by (apply Z.div_lt_upper_bound; unfold U128_MAX in *; lia).
  rewrite as_u128_small by (unfold in_u128; lia). lia.
Qed.

(** For fees up to one half, two units above what [get_amount_in] names always buy
    the output it was asked for, unless it overflows; one unit above need not, by the
    truncation of the fee, so two is the least that does. *)
Theorem exact_output_quote_is_close dy rx ry fee dx :
  0 <= dy → in_u128 rx → in_u128 ry → 0 <= 2 * fee <= FEE_SCALE →
  get_amount_in dy rx ry fee tt = Returned dx tt → (dx + 2) * FEE_SCALE <= U128_MAX →
  ends (get_amount_out (dx + 2) rx ry fee 0) (λ got _, dy <= got) (λ e _, e = Overflow) tt
  ∧ (get_amount_in 33200001 1 33300001 3000 tt = Returned 333 tt
     ∧ get_amount_out 334 1 33300001 3000 0 tt = Returned 33200000 tt).
Proof.
  intros Hdy Hrx Hry Hfee Hin Hfit. split; [|by vm_compute].
  destruct (get_amount_in_bound dy rx ry fee dx) as (Hrx0 & Hdy0 & Hdx & Hpay); [done|apply Hrx|done..|].
  assert (0 <= fee <= FEE_SCALE) as Hfee' by lia.
  pose proof (amount_after_fee_le (dx + 2) fee ltac:(lia) Hfee') as He.
  assert (rx * dy < amount_after_fee (dx + 2) fee * (ry - dy)) as Hbuys.
  { clear He. unfold amount_after_fee. unfold FEE_SCALE in *.
    rewrite (as_u128_small (1000000 - fee)) by (unfold in_u128, U128_MAX; lia).
    rewrite as_u128_small by (unfold in_u128; nia).
    pose proof (Z.mul_succ_div_gt ((dx + 2) * (1000000 - fee)) 1000000 ltac:(lia)) as He'.
    set (e := _ / 1000000) in *. clearbody e.
    assert (dx * (1000000 - fee) < 1000000 * e + 1) by lia. nia. }
  unfold get_amount_out. set (e := amount_after_fee (dx + 2) fee) in *. clearbody e.
  call_step; call_step; [lia|]. call_step; call_step; [exfalso; rename select (_ || _ = true) into Hz; apply orb_true_iff in Hz as [?|?]; breflect; lia|].
  do 2 (call_step; call_step; [done|]). fitted. call_step. apply ends_udiv; [lia|].
  assert (dy <= ry * e / (rx + e)) by (apply Z.div_le_lower_bound; lia).
  call_step; call_step; [lia|]. by call_step.
Qed.
