(* ===== verification/AmmWitness.v ===== *)
(** * The constant-product pool: concrete pools

    The theorems of [AmmFacts] applied to the pools of the unit tests, and calls that do
    not do what the comments and the tests say. *)

From stdpp Require Import prelude list.
From S2P Require Import Prelude Contract AmmPool AmmFacts.
Import AmmPool (reserve_x, reserve_y, total_lp, fee_bps, fee_scaled, initialised).
Local Open Scope Z_scope.

(** [pool_with_liquidity(1_000_000, 1_000_000)]. *)
Definition fresh : AmmPool.t := AmmPool.mk 0 0 0 30 3000 false.
Definition pool : AmmPool.t := AmmPool.mk 1000000 1000000 1000000 30 3000 true.
Definition session : list pool_call :=
  [AddLiquidity 200000 200000; SwapXForY 10000 0; SwapYForX 5000 0; RemoveLiquidity 100000; SwapXForY 0 0].

Lemma pool_reachable : reachable pool.
Proof.
  exists 30, fresh, [Initialise 1000000 1000000].
  split_and!; [lia|by vm_compute|by repeat constructor; simpl; lia| |by vm_compute..].
  repeat constructor. by vm_compute.
Qed.

Lemma pool_session_typed : Forall typed session.
Proof. repeat constructor; simpl; lia. Qed.

Lemma session_safe : Forall (λ c, ¬ crashes c) session.
Proof. repeat constructor; by intros []. Qed.

Lemma isqrt_is_the_square_root_witness : isqrt 100 tt = Returned 10 tt.
Proof. refine (proj1 (isqrt_is_the_square_root 100 _)). by vm_compute. Defined.

Lemma shares_stay_backed_witness : ∃ p, run_calls (Initialise 1000000 1000000 :: session) fresh = Some p ∧
  (initialised p = true → 0 < reserve_x p <= U128_MAX ∧ 0 < reserve_y p <= U128_MAX ∧
     MINIMUM_LIQUIDITY <= total_lp p ∧ total_lp p * total_lp p <= reserve_x p * reserve_y p).
Proof.
  apply (shares_stay_backed 30 fresh (Initialise 1000000 1000000 :: session)).
  - lia.
  - by vm_compute.
  - constructor; [by vm_compute|apply pool_session_typed].
  - constructor; [by vm_compute|apply session_safe].
  - by vm_compute.
  - by vm_compute.
Defined.

Lemma share_value_never_falls_witness : ∃ p', run_calls session pool = Some p' ∧
  reserve_x pool * reserve_y pool * (total_lp p' * total_lp p')
    <= reserve_x p' * reserve_y p' * (total_lp pool * total_lp pool)
  ∧ (Forall is_swap session → total_lp p' = total_lp pool ∧ reserve_x pool * reserve_y pool <= reserve_x p' * reserve_y p').
Proof.
  apply (share_value_never_falls pool session);
    [apply pool_reachable|done|apply pool_session_typed|apply session_safe|by vm_compute|by vm_compute].
Defined.

Lemma liquidity_round_trip_witness :
  ends (remove_liquidity 200000)
    (λ '(back_x, back_y, _) _, 0 <= back_x <= 200000 ∧ 0 <= back_y <= 200000)
    (λ e p2, p2 = deposited 200000 200000 200000 pool ∧ (e = ZeroAmount ∧ 200000 = 0 ∨ e = Math Overflow))
    (deposited 200000 200000 200000 pool).
Proof.
  apply (liquidity_round_trip pool 200000 200000 200000 (LiquidityAdded 200000 200000 200000));
    [apply pool_reachable|by vm_compute|by vm_compute|by vm_compute].
Defined.

Lemma quotes_are_honoured_witness :
  swap_x_for_y 10000 9900 pool = Raised (Math (InsufficientOutput 9871 9900)) pool
  ∧ swap_x_for_y 10000 9000 pool =
      Returned (9871, Swap X 10000 9871 (fee_amount 10000 (fee_scaled pool))) (AmmPool.set_reserves 1010000 (reserve_y pool - 9871) pool).
Proof.
  split; [apply (quotes_are_honoured pool 10000 9871 9900)|apply (quotes_are_honoured pool 10000 9871 9000)];
    (apply pool_reachable || lia || by vm_compute).
Defined.

Lemma exact_output_quote_is_close_witness :
  ends (get_amount_out (1014 + 2) 100000 100000 3000 0) (λ got _, 1000 <= got) (λ e _, e = Overflow) tt.
Proof.
  apply (exact_output_quote_is_close 1000 100000 100000 3000 1014);
    [lia|by vm_compute|by vm_compute|by vm_compute|by vm_compute|by vm_compute].
Defined.

(** [test_get_amount_in_consistent_with_amount_out] asserts that the input named for an
    output buys it: on its own pool the input named for 1000 buys 999. *)
Example exact_output_quote_falls_short :
  get_amount_in 1000 100000 100000 3000 tt = Returned 1014 tt
  ∧ get_amount_out 1014 100000 100000 3000 0 tt = Returned 999 tt.
Proof. by vm_compute. Qed.

(** A payment that does not fit the reserve wraps: the swap fails, and leaves a pool of almost
    nothing behind. *)
Example huge_payment_wraps :
  quote_x_for_y U128_MAX pool = Returned 999999 pool
  ∧ swap_x_for_y U128_MAX 0 pool = Raised (Math Overflow) (AmmPool.set_reserves 999999 1 pool).
Proof. by vm_compute. Qed.

(** A pool at the largest fee [new] accepts panics on a quote. *)
Example full_fee_quote_panics :
  new 10000 = Returned (AmmPool.mk 0 0 0 10000 1000000 false) tt
  ∧ quote_amount_in_for_dy 1 (AmmPool.mk 1000000 1000000 1000000 10000 1000000 true) = Panicked.
Proof. by vm_compute. Qed.

(** The initialisation whose product is the largest [u128] panics. *)
Example initialise_panics : initialise 1 U128_MAX fresh = Panicked.
Proof. by vm_compute. Qed.

(** A swap that fails the check of the product keeps the payment and the output. *)
Definition deep_pool : AmmPool.t := AmmPool.mk (2 ^ 64) (2 ^ 64 - 1) (2 ^ 64 - 1) 30 3000 true.
Example failed_swap_keeps_the_payment :
  swap_x_for_y 1000000 0 deep_pool = Raised (Math Overflow) (AmmPool.mk (2 ^ 64 + 1000000) (2 ^ 64 - 1 - 996999) (2 ^ 64 - 1) 30 3000 true).
Proof. by vm_compute. Qed.
