(* ===== verification/Escrow.v ===== *)
(** * The collateral vault

    Models [src/contracts/escrow-vault/src/lib.rs] and [slashing.rs]: operators lock
    collateral for a node, a fault proof or an accepted dispute carves a part of it out for
    the notifier, a yield pool is split among the positions, and everyone pulls what they
    are owed.  An address or a key is its list of bytes.  Signatures are the class
    [Ed25519], the order of the map of positions is [MapOrder].  A method that returns an
    error keeps what it wrote before it. *)

From stdpp Require Import prelude strings gmap list.
From S2P Require Import Prelude Contract.
Local Open Scope Z_scope.

Abbreviation bytes := (list Z).
Abbreviation Amount := Z (only parsing).
Abbreviation LedgerTime := Z (only parsing).
Definition Address : Type := bytes.

#[global] Instance Address_eq_dec : EqDecision Address := _.
#[global] Instance Address_countable : Countable Address := _.

Definition vault_address : Address := replicate 32 0.

Inductive VaultError : Set :=
| Unauthorized
| InsufficientBalance
| Overflow
| InvalidProof (m : string)
| StaleProof
| PositionNotFound
| WrongStatus (m : string)
| LockupNotExpired
| LockupExpired
| NotFresh
| ZeroAmount.

Module PositionStatus.

Inductive t : Set := Locked | Disputed | Slashed | Released | Forfeited.

#[global] Instance t_eq_dec : EqDecision t.
Proof. solve_decision. Defined.

Definition to_string (s : t) : string :=
  match s with
  | Locked => "locked"
  | Disputed => "disputed"
  | Slashed => "slashed"
  | Released => "released"
  | Forfeited => "forfeited"
  end.

End PositionStatus.
Import PositionStatus (Locked, Disputed, Slashed, Released, Forfeited).

Module Position.

Record t : Type := mk {
  id : Z;
  operator : Address;
  node_id : Address;
  node_vk : bytes;
  deposit : Amount;
  slashed : Amount;
  claimed : Amount;
  released : Amount;
  unclaimed_yield : Amount;
  locked_at : LedgerTime;
  lockup_until : LedgerTime;
  status : PositionStatus.t;
}.

Definition set_slashed (z : Z) (p : t) : t :=
  mk (id p) (operator p) (node_id p) (node_vk p) (deposit p) z (claimed p) (released p) (unclaimed_yield p) (locked_at p) (lockup_until p) (status p).
Definition set_claimed (z : Z) (p : t) : t :=
  mk (id p) (operator p) (node_id p) (node_vk p) (deposit p) (slashed p) z (released p) (unclaimed_yield p) (locked_at p) (lockup_until p) (status p).
Definition set_released (z : Z) (p : t) : t :=
  mk (id p) (operator p) (node_id p) (node_vk p) (deposit p) (slashed p) (claimed p) z (unclaimed_yield p) (locked_at p) (lockup_until p) (status p).
Definition set_unclaimed_yield (z : Z) (p : t) : t :=
  mk (id p) (operator p) (node_id p) (node_vk p) (deposit p) (slashed p) (claimed p) (released p) z (locked_at p) (lockup_until p) (status p).
Definition set_status (s : PositionStatus.t) (p : t) : t :=
  mk (id p) (operator p) (node_id p) (node_vk p) (deposit p) (slashed p) (claimed p) (released p) (unclaimed_yield p) (locked_at p) (lockup_until p) s.

(** Saturating subtractions, then [max(0)]. *)
Definition remainder (p : t) : Amount :=
  Z.max 0 (i128_saturate (i128_saturate (i128_saturate (deposit p - slashed p) - claimed p) - released p)).

Definition has_remainder (p : t) : bool := 0 <? remainder p.

End Position.

Module VaultConfig.

Record t : Type := mk {
  admin : Address;
  notifier : Address;
  lockup_window : LedgerTime;
  dispute_window : LedgerTime;
  slashing_staleness : LedgerTime;
  downtime_slash_bps : Z;
  double_sign_slash_bps : Z;
  reporters : gmap Address bytes;
}.

Definition validate (c : t) : result unit VaultError :=
  if (10000 <? downtime_slash_bps c) || (10000 <? double_sign_slash_bps c)
  then Err (InvalidProof "slash basis points must be in [0, 10000]") else Ok tt.

Definition set_reporters (r : gmap Address bytes) (c : t) : t :=
  mk (admin c) (notifier c) (lockup_window c) (dispute_window c) (slashing_staleness c) (downtime_slash_bps c) (double_sign_slash_bps c) r.

End VaultConfig.

(** ** The token ledger *)

Abbreviation TokenLedger := (gmap Address Z).
Abbreviation ledger_call := (call TokenLedger VaultError).

Definition balance_of (addr : Address) (l : TokenLedger) : Amount := default 0 (l !! addr).

(** [entry(a).or_insert(0)]. *)
Definition entry_or_zero (addr : Address) : ledger_call Z :=
  l ← get; _ ← modify <[addr := balance_of addr l]>; mret (balance_of addr l).

Definition mint (addr : Address) (amount : Amount) : ledger_call unit :=
  _ ← reject_if (amount <=? 0) ZeroAmount;
  bal ← entry_or_zero addr;
  b ← ok_or (i128_fit (bal + amount)) Overflow;
  modify <[addr := b]>.

(** The payer is debited before the addition to the payee is checked. *)
Definition transfer (from to : Address) (amount : Amount) : ledger_call unit :=
  _ ← reject_if (amount <? 0) Overflow;
  l ← get;
  let from_bal := balance_of from l in
  _ ← reject_if (from_bal <? amount) InsufficientBalance;
  _ ← modify <[from := as_i128 (from_bal - amount)]>;
  to_bal ← entry_or_zero to;
  b ← ok_or (i128_fit (to_bal + amount)) Overflow;
  modify <[to := b]>.

(** ** slashing.rs *)

(** The signature scheme of [ed25519_dalek]: the keys it accepts, and what it verifies. *)
Class Ed25519 : Type := {
  valid_key : bytes → bool;
  verify : bytes → bytes → bytes → bool;   (** key, message, signature *)
}.

Inductive ProofType : Set := Downtime | DoubleSign.

#[global] Instance ProofType_eq_dec : EqDecision ProofType.
Proof. solve_decision. Defined.

Definition proof_type_byte (t : ProofType) : Z := match t with Downtime => 0 | DoubleSign => 1 end.

Module Proof_.

Record t : Type := mk {
  proof_type : ProofType;
  node_id : Address;
  store_key : bytes;
  slot : Z;
  observed_seq : Z;
  reporter : Address;
  signature : bytes;
}.

Definition set_observed_seq (z : Z) (p : t) : t :=
  mk (proof_type p) (node_id p) (store_key p) (slot p) z (reporter p) (signature p).

End Proof_.

Definition downtime_payload (proof_type : ProofType) (node_id : Address) (store_key : bytes) : bytes :=
  proof_type_byte proof_type :: node_id ++ store_key.

Definition signed_message (p : Proof_.t) : bytes :=
  if bool_decide (Proof_.proof_type p = Downtime)
  then downtime_payload (Proof_.proof_type p) (Proof_.node_id p) (Proof_.store_key p) else [].

(** [u64::to_le_bytes] and [from_le_bytes]. *)
Fixpoint to_le_bytes (n : nat) (z : Z) : bytes :=
  match n with O => [] | S n => z mod 256 :: to_le_bytes n (z / 256) end.
Fixpoint from_le_bytes (b : bytes) : Z :=
  match b with [] => 0 | x :: b => x + 256 * from_le_bytes b end.

Definition double_sign_message (node_id : Address) (slot : Z) (value : bytes) : bytes :=
  node_id ++ to_le_bytes 8 slot ++ value.

Module DoubleSignMaterial.

Record t : Type := mk {
  node_vk_bytes : bytes;
  message_a : bytes;
  sig_a : bytes;
  message_b : bytes;
  sig_b : bytes;
}.

End DoubleSignMaterial.
Module Material := DoubleSignMaterial.

Definition payload_targets_node (msg : bytes) (node_id : Address) : bool :=
  (32 <=? length msg)%nat && bool_decide (take 32 msg = node_id).

Definition slot_le_bytes (msg : bytes) : option Z :=
  if (40 <=? length msg)%nat then Some (from_le_bytes (take 8 (drop 32 msg))) else None.

Section slashing.
Context `{Ed25519}.

Definition verify_double_sign (m : Material.t) (node_id : Address) (slot : Z) : result unit VaultError :=
  let vk := Material.node_vk_bytes m in
  if negb (valid_key vk) then Err (InvalidProof "invalid node verifying key")
  else if negb (verify vk (Material.message_a m) (Material.sig_a m)) then Err (InvalidProof "double-sign signature mismatch")
  else if negb (verify vk (Material.message_b m) (Material.sig_b m)) then Err (InvalidProof "double-sign signature mismatch")
  else if (negb (payload_targets_node (Material.message_a m) node_id) || negb (payload_targets_node (Material.message_b m) node_id))
       || negb (bool_decide (slot_le_bytes (Material.message_a m) = Some slot))
       || negb (bool_decide (slot_le_bytes (Material.message_b m) = Some slot))
  then Err (InvalidProof "double-sign messages must target the same node/slot")
  else if bool_decide (Material.message_a m = Material.message_b m)
  then Err (InvalidProof "double-sign messages must be conflicting")
  else Ok tt.

Definition verify_reporter_signature (p : Proof_.t) (reporter_vk : bytes) (now staleness_window : Z) : result unit VaultError :=
  if staleness_window <? u64_saturate (now - Proof_.observed_seq p) then Err StaleProof
  else if bool_decide (Proof_.proof_type p ≠ Downtime) then Err (InvalidProof "expected downtime proof")
  else if negb (valid_key reporter_vk) then Err (InvalidProof "invalid reporter verifying key")
  else if negb (length (Proof_.signature p) =? 64)%nat then Err (InvalidProof "signature length mismatch")
  else if negb (verify reporter_vk (signed_message p) (Proof_.signature p)) then Err (InvalidProof "reporter signature invalid")
  else Ok tt.
End slashing.

(** ** The vault *)

Module SlashOutcome.

Record t : Set := mk { position_id : Z; slashed_amount : Amount; remainder : Amount }.

End SlashOutcome.

Module Vault.

Record t : Type := mk {
  config : VaultConfig.t;
  positions : gmap Z Position.t;
  next_id : Z;
  slashed_reserve : Amount;
  yield_pool : Amount;
  ledger : TokenLedger;
}.

Definition set_config (c : VaultConfig.t) (v : t) : t := mk c (positions v) (next_id v) (slashed_reserve v) (yield_pool v) (ledger v).
Definition set_positions (m : gmap Z Position.t) (v : t) : t := mk (config v) m (next_id v) (slashed_reserve v) (yield_pool v) (ledger v).
Definition set_next_id (z : Z) (v : t) : t := mk (config v) (positions v) z (slashed_reserve v) (yield_pool v) (ledger v).
Definition set_slashed_reserve (z : Z) (v : t) : t := mk (config v) (positions v) (next_id v) z (yield_pool v) (ledger v).
Definition set_yield_pool (z : Z) (v : t) : t := mk (config v) (positions v) (next_id v) (slashed_reserve v) z (ledger v).
Definition set_ledger (l : TokenLedger) (v : t) : t := mk (config v) (positions v) (next_id v) (slashed_reserve v) (yield_pool v) l.

End Vault.
Import Vault (config, positions, next_id, slashed_reserve, yield_pool, ledger).

Abbreviation method := (call Vault.t VaultError).

Definition on_ledger {A} (m : ledger_call A) : method A := zoom ledger Vault.set_ledger m.

(** [self.positions.get_mut(&id).ok_or(PositionNotFound)?], and a write through it. *)
Definition position_at (id : Z) : method Position.t := v ← get; ok_or (positions v !! id) PositionNotFound.
Definition update_position (id : Z) (f : Position.t → Position.t) : method unit :=
  modify (λ v, Vault.set_positions (alter f id (positions v)) v).

Definition initialize (c : VaultConfig.t) : result Vault.t VaultError :=
  match VaultConfig.validate c with
  | Ok _ => Ok (Vault.mk c ∅ 1 0 0 ∅)
  | Err e => Err e
  end.

Definition token_balance (v : Vault.t) : Amount := balance_of vault_address (ledger v).

Definition add_reporter (caller reporter : Address) (verifying_key : bytes) : method unit :=
  v ← get;
  _ ← reject_if (bool_decide (caller ≠ VaultConfig.admin (config v))) Unauthorized;
  modify (Vault.set_config (VaultConfig.set_reporters (<[reporter := verifying_key]> (VaultConfig.reporters (config v))) (config v))).

Definition fund (addr : Address) (amount : Amount) : method unit := on_ledger (mint addr amount).

Definition deposit (operator node_id : Address) (node_vk : bytes) (amount : Amount) (now : LedgerTime) : method Z :=
  _ ← reject_if (amount <=? 0) ZeroAmount;
  _ ← on_ledger (transfer operator vault_address amount);
  v ← get;
  let id := next_id v in
  next ← ok_or (u64_fit (next_id v + 1)) Overflow;
  _ ← modify (Vault.set_next_id next);
  lockup_until ← ok_or (u64_fit (now + VaultConfig.lockup_window (config v))) Overflow;
  _ ← modify (λ v, Vault.set_positions
        (<[id := Position.mk id operator node_id node_vk amount 0 0 0 0 now lockup_until Locked]> (positions v)) v);
  mret id.

Definition credit_yield (keeper : Address) (amount : Amount) : method unit :=
  _ ← reject_if (amount <=? 0) ZeroAmount;
  _ ← on_ledger (transfer keeper vault_address amount);
  v ← get;
  y ← ok_or (i128_fit (yield_pool v + amount)) Overflow;
  modify (Vault.set_yield_pool y).

(** [self.positions[id]]: a panic when it is not there. *)
Definition index_position (v : Vault.t) (id : Z) : method Position.t := or_panic (positions v !! id).

(** [acc.checked_add(self.positions[id].remainder())]. *)
Definition add_weight (acc id : Z) : method Z :=
  v ← get; p ← index_position v id; ok_or (i128_fit (acc + Position.remainder p)) Overflow.

Definition share_of (total_weight : Z) (shares : list (Z * Z)) (id : Z) : method (list (Z * Z)) :=
  v ← get;
  p ← index_position v id;
  product ← ok_or (i128_fit (Position.remainder p * yield_pool v)) Overflow;
  mret (shares ++ [(id, Z.quot product total_weight)]).

(** One turn of the loop over the shares; [leftover] is its local. *)
Definition credit_share (leftover : Z) (s : Z * Z) : method Z :=
  let share := if 0 <? leftover then as_i128 (s.2 + 1) else s.2 in
  let leftover' := if 0 <? leftover then as_i128 (leftover - 1) else leftover in
  v ← get;
  pos ← ok_or (positions v !! s.1) Overflow;
  y ← ok_or (i128_fit (Position.unclaimed_yield pos + share)) Overflow;
  _ ← update_position s.1 (Position.set_unclaimed_yield y);
  mret leftover'.

(** [iter().sum()] over [i128]. *)
Definition sum_i128 (l : list Z) : Z := fold_left (λ a b, as_i128 (a + b)) l 0.

Definition by_id (s s' : Z * Z) : bool := s.1 <=? s'.1.

Section vault.
Context `{Ed25519} `{!MapOrder Z}.

Definition distribute_yield : method unit :=
  v ← get;
  let actives := (List.filter (λ kp, Position.has_remainder kp.2) (order_of (positions v))).*1 in
  if bool_decide (actives = []) then mret tt
  else
    total_weight ← for_in add_weight actives 0;
    if total_weight =? 0 then mret tt
    else
      shares ← for_in (share_of total_weight) actives [];
      let shares := sort_by by_id shares in
      let floors_sum := sum_i128 shares.*2 in
      _ ← for_in credit_share shares (as_i128 (yield_pool v - floors_sum));
      modify (Vault.set_yield_pool 0).

Definition claim_yield (operator : Address) (position_id : Z) : method Amount :=
  pos ← position_at position_id;
  _ ← reject_if (bool_decide (Position.operator pos ≠ operator)) Unauthorized;
  let amount := Position.unclaimed_yield pos in
  _ ← reject_if (amount <=? 0) ZeroAmount;
  _ ← update_position position_id (Position.set_unclaimed_yield 0);
  _ ← on_ledger (transfer vault_address operator amount);
  mret amount.

Definition reclaim_yield_pool (caller : Address) : method Amount :=
  v ← get;
  _ ← reject_if (bool_decide (caller ≠ VaultConfig.admin (config v))) Unauthorized;
  let amount := yield_pool v in
  _ ← reject_if (amount <=? 0) ZeroAmount;
  _ ← modify (Vault.set_yield_pool 0);
  _ ← on_ledger (transfer vault_address caller amount);
  mret amount.

Definition find_position_for_node (node_id : Address) : method Z :=
  v ← get;
  ok_or (fst <$> find_first (λ kp, bool_decide (Position.node_id kp.2 = node_id) && bool_decide (Position.status kp.2 = Locked))
           (order_of (positions v))) PositionNotFound.

Definition slash_portion (base : Amount) (bps : Z) : result Amount VaultError :=
  if 10000 <? bps then Err (InvalidProof "slash basis points must be in [0, 10000]")
  else match i128_fit (base * bps) with Some n => Ok (Z.quot n 10000) | None => Err Overflow end.

(** [self.slashed_reserve.checked_add(amount)]. *)
Definition reserve_add (amount : Z) : method unit :=
  v ← get; r ← ok_or (i128_fit (slashed_reserve v + amount)) Overflow; modify (Vault.set_slashed_reserve r).

Definition slash_locked (position_id bps : Z) (now : LedgerTime) : method SlashOutcome.t :=
  pos ← position_at position_id;
  _ ← reject_if (bool_decide (Position.status pos ≠ Locked)) (WrongStatus (PositionStatus.to_string (Position.status pos)));
  _ ← reject_if (Position.lockup_until pos <=? now) LockupExpired;
  let base := Position.remainder pos in
  slash ← lift (slash_portion base bps);
  let remaining := as_i128 (base - slash) in
  s ← ok_or (i128_fit (Position.slashed pos + slash)) Overflow;
  _ ← update_position position_id (Position.set_slashed s);
  _ ← reserve_add slash;
  _ ← update_position position_id (Position.set_status (if remaining =? 0 then Forfeited else Slashed));
  mret (SlashOutcome.mk (Position.id pos) slash remaining).

Definition submit_downtime_proof (proof : Proof_.t) (now : LedgerTime) : method SlashOutcome.t :=
  v ← get;
  reporter_vk ← ok_or (VaultConfig.reporters (config v) !! Proof_.reporter proof) (InvalidProof "reporter not authorized");
  _ ← lift (verify_reporter_signature proof reporter_vk now (VaultConfig.slashing_staleness (config v)));
  id ← find_position_for_node (Proof_.node_id proof);
  slash_locked id (VaultConfig.downtime_slash_bps (config v)) now.

Definition submit_double_sign_proof (material : Material.t) (node_id : Address) (slot : Z) (now : LedgerTime) : method SlashOutcome.t :=
  id ← find_position_for_node node_id;
  pos ← position_at id;
  _ ← reject_if (bool_decide (Position.node_vk pos ≠ Material.node_vk_bytes material))
        (InvalidProof "node keys do not match the secured position");
  _ ← lift (verify_double_sign material node_id slot);
  v ← get;
  slash_locked id (VaultConfig.double_sign_slash_bps (config v)) now.

Definition open_dispute (caller : Address) (position_id : Z) (now : LedgerTime) : method unit :=
  v ← get;
  _ ← reject_if (bool_decide (caller ≠ VaultConfig.admin (config v))) Unauthorized;
  pos ← position_at position_id;
  _ ← reject_if (VaultConfig.dispute_window (config v) <? u64_saturate (now - Position.locked_at pos)) NotFresh;
  _ ← reject_if (bool_decide (Position.status pos ≠ Locked)) (WrongStatus (PositionStatus.to_string (Position.status pos)));
  update_position position_id (Position.set_status Disputed).

Definition resolve_dispute (caller : Address) (position_id : Z) (accepted : bool) (_now : LedgerTime) : method unit :=
  v ← get;
  _ ← reject_if (bool_decide (caller ≠ VaultConfig.admin (config v))) Unauthorized;
  pos ← position_at position_id;
  _ ← reject_if (bool_decide (Position.status pos ≠ Disputed)) (WrongStatus (PositionStatus.to_string (Position.status pos)));
  if accepted then
    let amount := Position.remainder pos in
    s ← ok_or (i128_fit (Position.slashed pos + amount)) Overflow;
    _ ← update_position position_id (Position.set_slashed s);
    _ ← reserve_add amount;
    _ ← update_position position_id (Position.set_status Forfeited);
    mret tt
  else update_position position_id (Position.set_status Locked).

Definition release_collateral (operator : Address) (position_id : Z) (now : LedgerTime) : method Amount :=
  pos ← position_at position_id;
  _ ← reject_if (bool_decide (Position.operator pos ≠ operator)) Unauthorized;
  _ ← reject_if (negb (bool_decide (Position.status pos = Locked) || bool_decide (Position.status pos = Slashed)))
        (WrongStatus (PositionStatus.to_string (Position.status pos)));
  _ ← reject_if (now <? Position.lockup_until pos) LockupNotExpired;
  let amount := Position.remainder pos in
  _ ← reject_if (amount <=? 0) (WrongStatus "nothing left to release");
  r ← ok_or (i128_fit (Position.released pos + amount)) Overflow;
  _ ← update_position position_id (Position.set_released r);
  _ ← update_position position_id (Position.set_status Released);
  _ ← on_ledger (transfer vault_address operator amount);
  mret amount.

Definition claim_slashed (caller : Address) (position_id : Z) : method Amount :=
  v ← get;
  _ ← reject_if (bool_decide (caller ≠ VaultConfig.notifier (config v))) Unauthorized;
  pos ← position_at position_id;
  let amount := Position.slashed pos in
  _ ← reject_if (amount <=? 0) (WrongStatus "nothing slashed to claim");
  s ← ok_or (i128_fit (Position.slashed pos - amount)) Overflow;
  _ ← update_position position_id (Position.set_slashed s);
  c ← ok_or (i128_fit (Position.claimed pos + amount)) Overflow;
  _ ← update_position position_id (Position.set_claimed c);
  r ← ok_or (i128_fit (slashed_reserve v - amount)) Overflow;
  _ ← modify (Vault.set_slashed_reserve r);
  _ ← on_ledger (transfer vault_address caller amount);
  mret amount.

(** The sums over the positions, in the order of the map. *)
Definition liabilities (v : Vault.t) : Amount :=
  let active := sum_i128 (Position.remainder <$> List.filter Position.has_remainder (order_of (positions v)).*2) in
  let unclaimed_yield := sum_i128 (Position.unclaimed_yield <$> (order_of (positions v)).*2) in
  as_i128 (as_i128 (as_i128 (active + slashed_reserve v) + yield_pool v) + unclaimed_yield).

Definition assert_solvent (v : Vault.t) : result unit VaultError :=
  let balance := token_balance v in
  if balance <? liabilities v then Err InsufficientBalance
  else if negb (balance =? liabilities v) then Err Overflow
  else Ok tt.

(** ** Sequences of calls *)

Inductive vault_call : Type :=
| AddReporter (caller reporter : Address) (verifying_key : bytes)
| Fund (addr : Address) (amount : Amount)
| Deposit (operator node_id : Address) (node_vk : bytes) (amount : Amount) (now : LedgerTime)
| CreditYield (keeper : Address) (amount : Amount)
| DistributeYield
| ClaimYield (operator : Address) (position_id : Z)
| ReclaimYieldPool (caller : Address)
| SubmitDowntimeProof (proof : Proof_.t) (now : LedgerTime)
| SubmitDoubleSignProof (material : Material.t) (node_id : Address) (slot : Z) (now : LedgerTime)
| OpenDispute (caller : Address) (position_id : Z) (now : LedgerTime)
| ResolveDispute (caller : Address) (position_id : Z) (accepted : bool) (now : LedgerTime)
| ReleaseCollateral (operator : Address) (position_id : Z) (now : LedgerTime)
| ClaimSlashed (caller : Address) (position_id : Z).

Definition dropped {A} (m : method A) : method unit := _ ← m; mret tt.

Definition exec (c : vault_call) : method unit :=
  match c with
  | AddReporter caller r vk => add_reporter caller r vk
  | Fund a amount => fund a amount
  | Deposit o n vk amount now => dropped (deposit o n vk amount now)
  | CreditYield k amount => credit_yield k amount
  | DistributeYield => distribute_yield
  | ClaimYield o i => dropped (claim_yield o i)
  | ReclaimYieldPool caller => dropped (reclaim_yield_pool caller)
  | SubmitDowntimeProof p now => dropped (submit_downtime_proof p now)
  | SubmitDoubleSignProof m n slot now => dropped (submit_double_sign_proof m n slot now)
  | OpenDispute caller i now => open_dispute caller i now
  | ResolveDispute caller i accepted now => resolve_dispute caller i accepted now
  | ReleaseCollateral o i now => dropped (release_collateral o i now)
  | ClaimSlashed caller i => dropped (claim_slashed caller i)
  end.

(** Calls one after the other, whether they fail or not; a panic ends them. *)
Fixpoint run_calls (cs : list vault_call) (v : Vault.t) : option Vault.t :=
  match cs with
  | [] => Some v
  | c :: cs => match state_of (exec c v) with Some v' => run_calls cs v' | None => None end
  end.
End vault.
