(* ===== verification/EscrowFacts.v ===== *)
(** * The collateral vault: solvency

    The invariant of the vault and that every call, failed ones included, keeps it: each
    position's collateral is accounted for, the reserve is what was carved out, and the
    balance of the vault covers what it owes. *)

From stdpp Require Import prelude strings gmap list.
From S2P Require Import Prelude Contract Escrow.
Import PositionStatus (Locked, Disputed, Slashed, Released, Forfeited).
Import Vault (config, positions, next_id, slashed_reserve, yield_pool, ledger).
Local Open Scope Z_scope.

#[local] Arguments balance_of : simpl never.
#[local] Arguments vault_address : simpl never.
#[local] Arguments Position.remainder : simpl never.

(** ** Ledgers *)

Definition ledger_ok (l : TokenLedger) : Prop := ∀ a, 0 <= balance_of a l <= I128_MAX.

Lemma balance_insert a b z l : balance_of a (<[b := z]> l) = if decide (a = b) then z else balance_of a l.
Proof. unfold balance_of. destruct (decide (a = b)) as [->|]; [by rewrite lookup_insert_eq|by rewrite lookup_insert_ne]. Qed.

Lemma entry_ends a (Q : Z → TokenLedger → Prop) X l :
  Q (balance_of a l) (<[a := balance_of a l]> l) → ends (entry_or_zero a) Q X l.
Proof. intros HQ. unfold entry_or_zero. repeat call_step. done. Qed.

Lemma mint_ends a amount l (Q : unit → TokenLedger → Prop) (X : VaultError → TokenLedger → Prop) :
  ledger_ok l →
  (∀ l', ledger_ok l' → balance_of a l' = balance_of a l + amount →
     (∀ b, b ≠ a → balance_of b l' = balance_of b l) → 0 < amount → Q tt l') →
  (∀ e l', ledger_ok l' → (∀ b, balance_of b l' = balance_of b l) → X e l') →
  ends (mint a amount) Q X l.
Proof.
  intros Hl HQ HX. unfold mint. call_step; call_step; [by apply HX|]. call_step. apply entry_ends.
  assert (∀ b, balance_of b (<[a := balance_of a l]> l) = balance_of b l) as Hsame.
  { intros b. rewrite balance_insert. by destruct (decide (b = a)) as [->|]. }
  call_step; call_step; [apply HX; [intros b; by rewrite Hsame|done]|]. call_step. fitted.
  pose proof (Hl a). apply HQ; [|by rewrite balance_insert, decide_True| |lia].
  - intros b. rewrite balance_insert, Hsame. destruct (decide (b = a)); [|apply Hl]. unfold I128_MAX in *; lia.
  - intros b Hb. by rewrite balance_insert, decide_False, Hsame.
Qed.

(** A transfer between two addresses, and one to oneself. *)
Lemma transfer_ends from to amount l (Q : unit → TokenLedger → Prop) (X : VaultError → TokenLedger → Prop) :
  ledger_ok l → 0 <= amount →
  (∀ l', ledger_ok l' → amount <= balance_of from l → from ≠ to →
     balance_of from l' = balance_of from l - amount → balance_of to l' = balance_of to l + amount →
     (∀ a, a ≠ from → a ≠ to → balance_of a l' = balance_of a l) → Q tt l') →
  (∀ l', ledger_ok l' → amount <= balance_of from l → from = to →
     (∀ a, balance_of a l' = balance_of a l) → Q tt l') →
  (balance_of from l < amount → X InsufficientBalance l) →
  (∀ l', ledger_ok l' → amount <= balance_of from l → from ≠ to → I128_MAX < balance_of to l + amount →
     balance_of from l' = balance_of from l - amount → (∀ a, a ≠ from → balance_of a l' = balance_of a l) → X Overflow l') →
  ends (transfer from to amount) Q X l.
Proof.
  intros Hl Ha HQ HQs HXi HXo. unfold transfer. call_step; call_step; [lia|]. call_step. call_step.
  call_step; call_step; [auto|]. pose proof (Hl from) as Hf.
  rewrite as_i128_small by (unfold in_i128; lia).
  call_step. call_step. call_step. apply entry_ends.
  set (l1 := <[from := balance_of from l - amount]> l).
  set (l2 := <[to := balance_of to l1]> l1).
  assert (∀ a, balance_of a l2 = balance_of a l1) as H21.
  { intros b. unfold l2. rewrite balance_insert. by destruct (decide (b = to)) as [->|]. }
  assert (ledger_ok l2) as Hl2.
  { intros b. rewrite H21. unfold l1. rewrite balance_insert. destruct (decide (b = from)); [lia|apply Hl]. }
  assert (balance_of from l1 = balance_of from l - amount) as Hf1 by (unfold l1; by rewrite balance_insert, decide_True).
  assert (∀ a, a ≠ from → balance_of a l1 = balance_of a l) as Hne by (intros; unfold l1; by rewrite balance_insert, decide_False).
  destruct (decide (from = to)) as [<-|Hft].
  - rewrite Hf1. call_step; call_step; fitted; [unfold I128_MAX in *; lia|]. apply ends_modify.
    assert (∀ a, balance_of a (<[from := balance_of from l - amount + amount]> l2) = balance_of a l) as Hs.
    { intros b. rewrite balance_insert. destruct (decide (b = from)) as [->|]; [lia|]. by rewrite H21, Hne. }
    apply HQs; [|done|done|done]. intros b. rewrite Hs. apply Hl.
  - rewrite Hne by done. pose proof (Hl to). call_step; call_step; fitted.
    + apply HXo; [done|done|done|unfold I128_MAX in *; lia|by rewrite H21|]. intros a Hne'. by rewrite H21, Hne.
    + apply ends_modify, HQ; [| |done|by rewrite balance_insert, decide_False, H21| |].
      * intros b. rewrite balance_insert. destruct (decide (b = to)); [lia|apply Hl2].
      * done.
      * by rewrite balance_insert, decide_True.
      * intros a ??. by rewrite balance_insert, decide_False, H21, Hne.
Qed.

(** ** Positions *)

Section position.
Implicit Types p : Position.t.
Import Position.

(** What a status says of the collateral. *)
Definition status_ok p : Prop :=
  match status p with
  | Locked | Disputed => slashed p = 0 ∧ claimed p = 0 ∧ released p = 0
  | Slashed => released p = 0
  | Released | Forfeited => slashed p + claimed p + released p = deposit p
  end.

Record pos_ok (i : Z) p : Prop := {
  pos_id : id p = i;
  pos_deposit : 0 < deposit p <= I128_MAX;
  pos_parts : 0 <= slashed p ∧ 0 <= claimed p ∧ 0 <= released p ∧ 0 <= unclaimed_yield p;
  pos_conserved : slashed p + claimed p + released p <= deposit p;
  pos_status : status_ok p;
}.

(** What the vault owes for a position: to its operator, and to the notifier. *)
Definition due p : Z := remainder p + unclaimed_yield p + slashed p.

Lemma remainder_eq i p : pos_ok i p → remainder p = deposit p - slashed p - claimed p - released p.
Proof.
  intros [_ Hd (?&?&?&_) Hc _]. unfold remainder, i128_saturate, clamp, I128_MAX in *. lia.
Qed.

Lemma remainder_nonneg p : 0 <= remainder p.
Proof. unfold remainder. lia. Qed.

Lemma has_remainder_spec p : has_remainder p = false → remainder p = 0.
Proof. unfold has_remainder. intros ?%Z.ltb_ge. pose proof (remainder_nonneg p). lia. Qed.
End position.

(** ** The invariant of the vault *)

Definition owed (v : Vault.t) : Z :=
  map_sum Position.remainder (positions v) + map_sum Position.unclaimed_yield (positions v) + slashed_reserve v + yield_pool v.

(** What the vault holds above what it owes. *)
Definition surplus (v : Vault.t) : Z := token_balance v - owed v.

Definition config_ok (c : VaultConfig.t) : Prop :=
  0 <= VaultConfig.downtime_slash_bps c <= 10000 ∧ 0 <= VaultConfig.double_sign_slash_bps c <= 10000
  ∧ 0 <= VaultConfig.lockup_window c.

Record vault_ok (v : Vault.t) : Prop := {
  vk_config : config_ok (config v);
  vk_pos : map_Forall pos_ok (positions v);
  vk_ids : map_Forall (λ i _, 1 <= i < next_id v) (positions v);
  vk_next : 1 <= next_id v <= U64_MAX;
  vk_reserve : slashed_reserve v = map_sum Position.slashed (positions v);
  vk_pool : 0 <= yield_pool v;
  vk_ledger : ledger_ok (ledger v);
  vk_solvent : 0 <= surplus v;
}.

Lemma map_sum_add {K V} `{Countable K} (f g : V → Z) (m : gmap K V) :
  map_sum (λ v, f v + g v) m = map_sum f m + map_sum g m.
Proof. unfold map_sum. induction ((map_to_list m).*2); csimpl; lia. Qed.

(** What it owes, position by position. *)
Lemma owed_due v : vault_ok v → owed v = map_sum due (positions v) + yield_pool v.
Proof. intros Hv. unfold owed, due. rewrite !map_sum_add, (vk_reserve v Hv). lia. Qed.

Lemma due_nonneg v i p : vault_ok v → positions v !! i = Some p → 0 <= due p.
Proof.
  intros Hv Hp. pose proof (pos_parts _ _ (vk_pos v Hv i p Hp)). pose proof (remainder_nonneg p). unfold due. lia.
Qed.

(** Everything owed fits an [i128], because the balance does. *)
Lemma owed_bounds v : vault_ok v →
  0 <= map_sum Position.remainder (positions v) ∧ 0 <= map_sum Position.unclaimed_yield (positions v) ∧
  0 <= slashed_reserve v ∧ 0 <= yield_pool v ∧ owed v <= I128_MAX.
Proof.
  intros Hv. pose proof (vk_ledger v Hv vault_address). pose proof (vk_solvent v Hv). unfold surplus, token_balance in *.
  rewrite (vk_reserve v Hv). split_and!; [..|apply Hv|lia];
    apply map_sum_nonneg; intros i p Hp; try apply remainder_nonneg; apply (pos_parts _ _ (vk_pos v Hv i p Hp)).
Qed.

Lemma due_bound v i p : vault_ok v → positions v !! i = Some p → due p + yield_pool v <= owed v.
Proof.
  intros Hv Hp. rewrite (owed_due v Hv).
  pose proof (map_sum_ge due (positions v) i p (λ j q, due_nonneg v j q Hv) Hp). lia.
Qed.

(** A position replaced by one that is well formed, with what that does to the surplus. *)
Definition put (i : Z) (p : Position.t) (r y : Z) (l : TokenLedger) (v : Vault.t) : Vault.t :=
  Vault.mk (config v) (<[i := p]> (positions v)) (next_id v) r y l.

Lemma owed_put i p p' r y l v :
  positions v !! i = Some p → r = slashed_reserve v - Position.slashed p + Position.slashed p' →
  owed (put i p' r y l v) = owed v - due p + due p' - yield_pool v + y.
Proof.
  intros Hp ->. unfold owed, put, due; simpl. rewrite !(map_sum_insert _ _ _ _ _ Hp). lia.
Qed.

Lemma put_ok i p p' r y l v :
  vault_ok v → positions v !! i = Some p → pos_ok i p' → ledger_ok l → 0 <= y →
  r = slashed_reserve v - Position.slashed p + Position.slashed p' →
  due p' - due p + (y - yield_pool v) <= balance_of vault_address l - token_balance v →
  vault_ok (put i p' r y l v) ∧
  surplus (put i p' r y l v) =
    surplus v + (balance_of vault_address l - token_balance v) - (due p' - due p + (y - yield_pool v)).
Proof.
  intros Hv Hp Hp' Hl Hy Hr Hs. pose proof (owed_put i p p' r y l v Hp Hr) as Ho.
  pose proof (vk_solvent v Hv) as Hs0.
  assert (surplus (put i p' r y l v) =
    surplus v + (balance_of vault_address l - token_balance v) - (due p' - due p + (y - yield_pool v))) as Hsur.
  { unfold surplus at 1. rewrite Ho. unfold surplus, token_balance; simpl. lia. }
  split; [|done]. destruct Hv. split; simpl; try done.
  - by apply map_Forall_insert_2.
  - apply map_Forall_insert_2; [|done]. by apply (vk_ids0 i p).
  - rewrite (map_sum_insert _ _ _ _ _ Hp). lia.
  - lia.
Qed.

(** Only the ledger and the pool change. *)
Definition settle (y : Z) (l : TokenLedger) (v : Vault.t) : Vault.t := Vault.set_ledger l (Vault.set_yield_pool y v).

Lemma settle_ok y l v :
  vault_ok v → ledger_ok l → 0 <= y → y - yield_pool v <= balance_of vault_address l - token_balance v →
  vault_ok (settle y l v) ∧
  surplus (settle y l v) = surplus v + (balance_of vault_address l - token_balance v) - (y - yield_pool v).
Proof.
  intros Hv Hl Hy Hs. pose proof (vk_solvent v Hv) as Hs0.
  assert (surplus (settle y l v) = surplus v + (balance_of vault_address l - token_balance v) - (y - yield_pool v)) as Hsur.
  { unfold surplus, owed, token_balance; simpl. lia. }
  split; [|done]. destruct Hv. split; simpl; try done. lia.
Qed.

(** ** What a call may do *)

(** Nobody acts for the vault's own address when paying in. *)
Definition honest (c : vault_call) : Prop :=
  match c with
  | Deposit o _ _ _ now => o ≠ vault_address ∧ 0 <= now
  | CreditYield k _ => k ≠ vault_address
  | _ => True
  end.

Definition typed (c : vault_call) : Prop :=
  match c with Deposit _ _ _ amount _ | CreditYield _ amount | Fund _ amount => amount <= I128_MAX | _ => True end.

(** The calls that leave the surplus as it was. *)
Definition clean (c : vault_call) (v : Vault.t) : Prop :=
  match c with
  | Fund a _ => a ≠ vault_address
  | Deposit _ _ _ _ now => now + VaultConfig.lockup_window (config v) <= U64_MAX ∧ next_id v < U64_MAX
  | ClaimYield o _ | ReleaseCollateral o _ _ => o ≠ vault_address
  | ReclaimYieldPool a | ClaimSlashed a _ => a ≠ vault_address
  | _ => True
  end.

Definition same_config (c c' : VaultConfig.t) : Prop := c' = VaultConfig.set_reporters (VaultConfig.reporters c') c.

Record follows (c : vault_call) (v v' : Vault.t) : Prop := {
  follows_ok : vault_ok v';
  follows_surplus : surplus v <= surplus v';
  follows_clean : clean c v → surplus v' = surplus v;
  follows_config : same_config (config v) (config v');
  follows_next : next_id v <= next_id v' <= next_id v + 1;
}.

Abbreviation leads c v := (λ _ v', follows c v v') (only parsing).

Lemma same_config_refl c : same_config c c.
Proof. by destruct c. Qed.

Lemma follows_same c v : vault_ok v → follows c v v.
Proof. intros. split; [done|lia|done|apply same_config_refl|lia]. Qed.

Lemma follows_put c i p p' r y l v :
  vault_ok v → positions v !! i = Some p → pos_ok i p' → ledger_ok l → 0 <= y →
  r = slashed_reserve v - Position.slashed p + Position.slashed p' →
  due p' - due p + (y - yield_pool v) <= balance_of vault_address l - token_balance v →
  (clean c v → due p' - due p + (y - yield_pool v) = balance_of vault_address l - token_balance v) →
  follows c v (put i p' r y l v).
Proof.
  intros Hv Hp Hp' Hl Hy Hr Hs Hcl. destruct (put_ok i p p' r y l v) as [Hok Hsur]; try done.
  split; simpl; [done|lia| |apply same_config_refl|lia]. intros Hc. specialize (Hcl Hc). lia.
Qed.

Lemma follows_settle c y l v :
  vault_ok v → ledger_ok l → 0 <= y → y - yield_pool v <= balance_of vault_address l - token_balance v →
  (clean c v → y - yield_pool v = balance_of vault_address l - token_balance v) → follows c v (settle y l v).
Proof.
  intros Hv Hl Hy Hs Hcl. destruct (settle_ok y l v) as [Hok Hsur]; try done.
  split; simpl; [done|lia| |apply same_config_refl|lia]. intros Hc. specialize (Hcl Hc). lia.
Qed.

(** ** The calls *)

Lemma pay_out_ends to amount v (Q : unit → Vault.t → Prop) (X : VaultError → Vault.t → Prop) :
  ledger_ok (ledger v) → 0 <= amount <= token_balance v →
  (∀ l, ledger_ok l → token_balance v - amount <= balance_of vault_address l →
     (to ≠ vault_address → balance_of vault_address l = token_balance v - amount) →
     Q tt (Vault.set_ledger l v) ∧ X Overflow (Vault.set_ledger l v)) →
  ends (on_ledger (transfer vault_address to amount)) Q X v.
Proof.
  intros Hl Ha HQX. unfold token_balance in *. apply ends_zoom, transfer_ends; [done|lia|..].
  - intros l Hl' _ Hne Hb _ _. apply HQX; [done|lia|done].
  - intros l Hl' _ <- Hs. apply HQX; [done|rewrite Hs; lia|done].
  - lia.
  - intros l Hl' _ Hne _ Hb _. apply HQX; [done|lia|done].
Qed.

Lemma pay_in_ends from amount v (Q : unit → Vault.t → Prop) (X : VaultError → Vault.t → Prop) :
  ledger_ok (ledger v) → from ≠ vault_address → 0 <= amount →
  (∀ l, ledger_ok l → balance_of vault_address l = token_balance v + amount → Q tt (Vault.set_ledger l v)) →
  (∀ e l, ledger_ok l → balance_of vault_address l = token_balance v → X e (Vault.set_ledger l v)) →
  ends (on_ledger (transfer from vault_address amount)) Q X v.
Proof.
  intros Hl Hne Ha HQ HX. unfold token_balance in *. apply ends_zoom, transfer_ends; [done|lia|..].
  - intros l Hl' _ _ _ Hb _. by apply HQ.
  - intros l _ _ ->. done.
  - intros _. by apply HX.
  - intros l Hl' _ _ _ _ Hs. apply HX; [done|]. by apply Hs.
Qed.

Lemma position_at_ends i v (Q : Position.t → Vault.t → Prop) (X : VaultError → Vault.t → Prop) :
  (positions v !! i = None → X PositionNotFound v) → (∀ p, positions v !! i = Some p → Q p v) →
  ends (position_at i) Q X v.
Proof. intros HX HQ. unfold position_at. call_step. call_step. call_step; auto. Qed.

Lemma alter_as_insert {K V} `{Countable K} (f : V → V) i (m : gmap K V) x :
  m !! i = Some x → alter f i m = <[i := f x]> m.
Proof.
  intros Hx. apply map_eq. intros j. destruct (decide (j = i)) as [->|].
  - by rewrite lookup_insert_eq, lookup_alter_eq, Hx.
  - by rewrite lookup_insert_ne, lookup_alter_ne.
Qed.

Lemma update_position_ends i f p v (Q : unit → Vault.t → Prop) (X : VaultError → Vault.t → Prop) :
  positions v !! i = Some p → Q tt (Vault.set_positions (<[i := f p]> (positions v)) v) →
  ends (update_position i f) Q X v.
Proof.
  intros Hp HQ. unfold update_position. call_step. by rewrite (alter_as_insert f i _ p Hp).
Qed.

Lemma dropped_ends {A} (m : method A) (Q : unit → Vault.t → Prop) X v :
  ends m (λ _, Q tt) X v → ends (dropped m) Q X v.
Proof. intros Hm. by apply ends_then. Qed.

(** The arithmetic of a position: its parts and its dues after a setter. *)
Ltac position_facts Hv Hp :=
  let Hpos := fresh "Hpos" in pose proof (vk_pos _ Hv _ _ Hp) as Hpos;
  let Hb := fresh "Hb" in pose proof (due_bound _ _ _ Hv Hp) as Hb;
  pose proof (vk_solvent _ Hv); pose proof (vk_ledger _ Hv vault_address); pose proof (owed_bounds _ Hv);
  pose proof (pos_parts _ _ Hpos); pose proof (pos_deposit _ _ Hpos); pose proof (pos_conserved _ _ Hpos);
  pose proof (remainder_eq _ _ Hpos);
  pose proof (map_sum_ge Position.remainder _ _ _ (λ _ q _, remainder_nonneg q) Hp);
  unfold surplus, token_balance, due in *.

(** A replacement of a position is well formed, with what is due for it. *)
Ltac new_position Hpos p' i :=
  let Hnew := fresh "Hnew" in
  assert (pos_ok i p') as Hnew by (destruct Hpos; split; simpl; try done; unfold status_ok in *; simpl; lia);
  pose proof (remainder_eq _ _ Hnew); simpl in *.

Section calls.
Context `{Ed25519} `{!MapOrder Z}.

(** The ledgers after [amount] was paid out to [to]. *)
Definition paid (to : Address) (amount : Z) (v : Vault.t) (l : TokenLedger) : Prop :=
  ledger_ok l ∧ token_balance v - amount <= balance_of vault_address l ∧
  (to ≠ vault_address → balance_of vault_address l = token_balance v - amount).

Lemma pay_out_to to amount v v0 (Q : unit → Vault.t → Prop) (X : VaultError → Vault.t → Prop) :
  vault_ok v0 → ledger v = ledger v0 → 0 <= amount <= token_balance v0 →
  (∀ l, paid to amount v0 l → Q tt (Vault.set_ledger l v) ∧ X Overflow (Vault.set_ledger l v)) →
  ends (on_ledger (transfer vault_address to amount)) Q X v.
Proof.
  intros Hv Hl Ha HQX. unfold paid, token_balance in *. apply pay_out_ends; unfold token_balance; rewrite Hl; [apply Hv|done|].
  intros l ???. by apply HQX.
Qed.

(** The three withdrawals from a position: they are refused when there is nothing to
    withdraw, and otherwise replace the position, whether the payment succeeds or not. *)
Lemma claim_yield_ends o i v (Q : Z → Vault.t → Prop) (X : VaultError → Vault.t → Prop) :
  vault_ok v →
  (∀ e, (∀ p, positions v !! i = Some p → Position.operator p = o → Position.unclaimed_yield p <= 0) → X e v) →
  (∀ p l, positions v !! i = Some p → Position.operator p = o →
     let p' := Position.set_unclaimed_yield 0 p in let v' := put i p' (slashed_reserve v) (yield_pool v) l v in
     pos_ok i p' → Position.remainder p' = Position.remainder p → paid o (Position.unclaimed_yield p) v l →
     Q (Position.unclaimed_yield p) v' ∧ X Overflow v') →
  ends (claim_yield o i) Q X v.
Proof.
  intros Hv HX HQ. unfold claim_yield.
  call_step. apply position_at_ends; [intros Hn; apply HX; congruence|]. intros p Hp.
  call_step; call_step; [apply HX; congruence|]. call_step; call_step; [apply HX; intros; by simplify_eq|].
  call_step. eapply update_position_ends; [done|]. position_facts Hv Hp.
  set (p' := Position.set_unclaimed_yield 0 p). new_position Hpos p' i.
  call_step. apply (pay_out_to _ _ _ v); [done|done|unfold token_balance; lia|]. intros l Hl.
  destruct (HQ p l) as [HQ' HX']; [done|by apply dec_stable|done|fold p'; lia|done|]. split; [by call_step|done].
Qed.

Lemma claim_yield_step o i v : vault_ok v → ends (claim_yield o i) (leads (ClaimYield o i) v) (leads (ClaimYield o i) v) v.
Proof.
  intros Hv. apply claim_yield_ends; [done|intros; by apply follows_same|].
  intros p l Hp _ p' v' Hp' Hr (Hl & Hge & Heq). enough (follows (ClaimYield o i) v v') by done. unfold v', p' in *.
  apply (follows_put _ _ p); try done; unfold due; simpl; rewrite ?Hr; [apply Hv|lia|lia|]. intros Hne. specialize (Heq Hne). lia.
Qed.

Lemma reclaim_yield_pool_step a v :
  vault_ok v → ends (reclaim_yield_pool a) (leads (ReclaimYieldPool a) v) (leads (ReclaimYieldPool a) v) v.
Proof.
  intros Hv. pose proof (follows_same (ReclaimYieldPool a) v Hv) as Hsame. unfold reclaim_yield_pool.
  call_step. call_step. call_step; call_step; [done|]. call_step; call_step; [done|]. call_step. call_step.
  pose proof (owed_bounds v Hv). pose proof (vk_solvent v Hv). unfold surplus, token_balance, owed in *.
  call_step. apply pay_out_ends; [apply Hv|unfold token_balance; simpl; lia|]. intros l Hl Hge Heq.
  enough (follows (ReclaimYieldPool a) v (settle 0 l v)) by (split; [by call_step|done]).
  unfold token_balance in *; simpl in *. apply follows_settle; try done; unfold token_balance; simpl; [lia|].
  intros Hne. specialize (Heq Hne). lia.
Qed.

Lemma release_collateral_ends o i now v (Q : Z → Vault.t → Prop) (X : VaultError → Vault.t → Prop) :
  vault_ok v →
  (∀ e, (∀ p, positions v !! i = Some p → Position.operator p = o → Position.lockup_until p <= now →
           Position.status p ∈ [Locked; Slashed] → Position.remainder p <= 0) → X e v) →
  (∀ p l, positions v !! i = Some p → Position.operator p = o →
     let r := Position.remainder p in
     let p' := Position.set_status Released (Position.set_released (Position.released p + r) p) in
     let v' := put i p' (slashed_reserve v) (yield_pool v) l v in
     pos_ok i p' → Position.remainder p' = 0 → paid o r v l → Q r v' ∧ X Overflow v') →
  ends (release_collateral o i now) Q X v.
Proof.
  intros Hv HX HQ. unfold release_collateral.
  call_step. apply position_at_ends; [intros Hn; apply HX; congruence|]. intros p Hp.
  call_step; call_step; [apply HX; congruence|].
  call_step; call_step; [apply HX; intros; simplify_eq; set_unfold; destruct (Position.status _); naive_solver|].
  call_step; call_step; [apply HX; intros; simplify_eq; lia|]. call_step; call_step; [apply HX; intros; by simplify_eq|].
  position_facts Hv Hp. call_step; call_step; fitted; [unfold I128_MAX in *; lia|].
  call_step. eapply update_position_ends; [done|]. call_step. eapply update_position_ends; [by apply lookup_insert_eq|].
  set (p' := Position.set_status Released _). new_position Hpos p' i.
  call_step. apply (pay_out_to _ _ _ v); [done|done|unfold token_balance; lia|]. intros l Hl.
  unfold Vault.set_ledger, Vault.set_positions; simpl. rewrite insert_insert_eq.
  destruct (HQ p l) as [HQ' HX']; [done|by apply dec_stable|done|fold p'; lia|done|]. split; [by call_step|done].
Qed.

Lemma release_collateral_step o i now v :
  let c := ReleaseCollateral o i now in vault_ok v → ends (release_collateral o i now) (leads c v) (leads c v) v.
Proof.
  intros c Hv. apply release_collateral_ends; [done|intros; by apply follows_same|].
  intros p l Hp _ r p' v' Hp' Hr (Hl & Hge & Heq). enough (follows c v v') by done. unfold v', p' in *.
  apply (follows_put _ _ p); try done; unfold due; simpl; rewrite ?Hr; [apply Hv|lia|lia|]. intros Hne. specialize (Heq Hne). lia.
Qed.

Lemma reserve_ge v i p : vault_ok v → positions v !! i = Some p → Position.slashed p <= slashed_reserve v.
Proof.
  intros Hv Hp. rewrite (vk_reserve v Hv). apply (map_sum_ge _ _ i); [|done].
  intros j q Hq. apply (pos_parts _ _ (vk_pos v Hv j q Hq)).
Qed.

Lemma claim_slashed_ends a i v (Q : Z → Vault.t → Prop) (X : VaultError → Vault.t → Prop) :
  vault_ok v →
  (∀ e, (∀ p, positions v !! i = Some p → a = VaultConfig.notifier (config v) → Position.slashed p <= 0) → X e v) →
  (∀ p l, positions v !! i = Some p →
     let p' := Position.set_claimed (Position.claimed p + Position.slashed p) (Position.set_slashed (Position.slashed p - Position.slashed p) p) in
     let v' := put i p' (slashed_reserve v - Position.slashed p) (yield_pool v) l v in
     pos_ok i p' → Position.remainder p' = Position.remainder p → paid a (Position.slashed p) v l →
     Q (Position.slashed p) v' ∧ X Overflow v') →
  ends (claim_slashed a i) Q X v.
Proof.
  intros Hv HX HQ. unfold claim_slashed.
  call_step. call_step. call_step; call_step; [by apply HX|]. call_step.
  apply position_at_ends; [intros Hn; apply HX; congruence|]. intros p Hp.
  call_step; call_step; [apply HX; intros; by simplify_eq|]. position_facts Hv Hp. pose proof (reserve_ge v i p Hv Hp).
  call_step; call_step; fitted; [lia|]. call_step. eapply update_position_ends; [done|].
  call_step; call_step; fitted; [unfold I128_MAX in *; lia|]. call_step. eapply update_position_ends; [by apply lookup_insert_eq|].
  call_step; call_step; fitted; [unfold owed, I128_MAX in *; lia|]. call_step. call_step.
  set (p' := Position.set_claimed _ _).
  assert (status_ok p') by (pose proof (pos_status _ _ Hpos) as Hs; unfold status_ok in *; simpl; destruct (Position.status p); lia).
  new_position Hpos p' i. unfold owed in *.
  call_step. apply (pay_out_to _ _ _ v); [done|done|unfold token_balance; lia|]. intros l Hl.
  unfold Vault.set_ledger, Vault.set_positions; simpl. rewrite insert_insert_eq.
  destruct (HQ p l) as [HQ' HX']; [done|done|fold p'; lia|done|]. split; [by call_step|done].
Qed.

Lemma claim_slashed_step a i v :
  let c := ClaimSlashed a i in vault_ok v → ends (claim_slashed a i) (leads c v) (leads c v) v.
Proof.
  intros c Hv. apply claim_slashed_ends; [done|intros; by apply follows_same|].
  intros p l Hp p' v' Hp' Hr (Hl & Hge & Heq). enough (follows c v v') by done. unfold v', p' in *.
  apply (follows_put _ _ p); try done; unfold due; simpl; rewrite ?Hr; [apply Hv|lia|lia|]. intros Hne. specialize (Heq Hne). lia.
Qed.

(** Collateral carved out of a position for the notifier. *)
Lemma carve_ends {A} i p amount s' (k : method A) v (Q : A → Vault.t → Prop) (X : VaultError → Vault.t → Prop) :
  vault_ok v → positions v !! i = Some p → Position.status p ∈ [Locked; Disputed] →
  0 <= amount <= Position.remainder p → (s' = Slashed ∨ s' = Forfeited ∧ amount = Position.remainder p) →
  (let p' := Position.set_status s' (Position.set_slashed amount p) in
   pos_ok i p' → Position.slashed p = 0 → Position.remainder p' = Position.remainder p - amount →
   ends k Q X (put i p' (slashed_reserve v + amount) (yield_pool v) (ledger v) v)) →
  ends (s ← ok_or (i128_fit (Position.slashed p + amount)) Overflow;
        _ ← update_position i (Position.set_slashed s);
        _ ← reserve_add amount;
        _ ← update_position i (Position.set_status s'); k) Q X v.
Proof.
  intros Hv Hp Hst Ha Hs' Hk. position_facts Hv Hp.
  assert (Position.slashed p = 0 ∧ Position.claimed p = 0 ∧ Position.released p = 0) as (Hs0 & Hc0 & Hr0).
  { pose proof (pos_status _ _ Hpos) as Hs. unfold status_ok in Hs. set_unfold in Hst. destruct Hst as [Hst|[Hst|[]]]; by rewrite Hst in Hs. }
  unfold owed in *. call_step; call_step; fitted; [unfold I128_MAX in *; lia|]. rewrite Hs0 in *. simpl (0 + amount) in *.
  call_step. eapply update_position_ends; [done|]. call_step. unfold reserve_add. call_step. call_step. simpl.
  call_step; call_step; fitted; [unfold I128_MAX in *; lia|]. call_step. call_step.
  eapply update_position_ends; [by apply lookup_insert_eq|].
  unfold Vault.set_slashed_reserve, Vault.set_positions; simpl. rewrite insert_insert_eq.
  set (p' := Position.set_status s' (Position.set_slashed amount p)) in *.
  assert (status_ok p') by (unfold status_ok; simpl; destruct Hs' as [->|[-> ->]]; lia).
  new_position Hpos p' i. apply Hk; [done|done|]. lia.
Qed.

Lemma carved_follows c i p amount s' v :
  vault_ok v → positions v !! i = Some p → let p' := Position.set_status s' (Position.set_slashed amount p) in
  pos_ok i p' → Position.slashed p = 0 → Position.remainder p' = Position.remainder p - amount →
  follows c v (put i p' (slashed_reserve v + amount) (yield_pool v) (ledger v) v).
Proof.
  intros Hv Hp p' Hp' Hs0 Hrem. unfold p' in *. apply (follows_put _ _ p); try done; [apply Hv|apply Hv|..];
    unfold due, token_balance; simpl; lia.
Qed.

Lemma slash_portion_bound base bps n :
  0 <= base → 0 <= bps → slash_portion base bps = Ok n → 0 <= n <= base ∧ (bps = 10000 → n = base).
Proof.
  intros Hb Hbps. unfold slash_portion. destruct (Z.ltb_spec 10000 bps); [done|].
  destruct (i128_fit (base * bps)) eqn:Hf; [|done]. fitted. intros [= <-].
  rewrite Z.quot_div_nonneg by lia. split_and!.
  - apply Z.div_pos; lia.
  - apply Z.div_le_upper_bound; nia.
  - intros ->. rewrite Z.div_mul; lia.
Qed.

Lemma slash_locked_step c i bps now v :
  (∀ v, clean c v) → vault_ok v → 0 <= bps → ends (slash_locked i bps now) (leads c v) (leads c v) v.
Proof.
  intros Hc Hv Hbps. pose proof (follows_same c v Hv) as Hsame. unfold slash_locked.
  call_step. apply position_at_ends; [done|]. intros p Hp. do 2 (call_step; call_step; [done|]).
  call_step; call_step; [done|]. rename select (slash_portion _ _ = Ok _) into Hs.
  destruct (slash_portion_bound _ _ _ (remainder_nonneg p) Hbps Hs) as [Ha _].
  position_facts Hv Hp.
  rewrite as_i128_small by (unfold in_i128, I128_MAX in *; lia).
  apply (carve_ends i p a); [done|done|assert (Position.status p = Locked) as -> by (apply dec_stable; done); set_solver|done| |].
  { destruct (Z.eqb_spec (Position.remainder p - a) 0); [right; split; [done|lia]|by left]. }
  intros p' Hp' Hs0 Hrem. call_step. by apply (carved_follows c i p a).
Qed.

Lemma find_position_ends n v (Q : Z → Vault.t → Prop) (X : VaultError → Vault.t → Prop) :
  X PositionNotFound v →
  (∀ i p, positions v !! i = Some p → Position.node_id p = n → Position.status p = Locked → Q i v) →
  ends (find_position_for_node n) Q X v.
Proof.
  intros HX HQ. unfold find_position_for_node. call_step. call_step. call_step; [done|].
  rename select (_ = Some _) into Hf. apply fmap_Some in Hf as ([j p] & Hf & ->).
  apply find_first_Some in Hf as [Hin Hc]. breflect. rewrite order_of_perm in Hin. apply elem_of_map_to_list in Hin. eauto.
Qed.

Lemma submit_downtime_proof_step pr now v :
  let c := SubmitDowntimeProof pr now in vault_ok v → ends (submit_downtime_proof pr now) (leads c v) (leads c v) v.
Proof.
  intros c Hv. pose proof (follows_same c v Hv) as Hsame. unfold submit_downtime_proof.
  call_step. call_step. do 2 (call_step; call_step; [done|]). call_step. apply find_position_ends; [done|].
  intros i p _ _ _. apply slash_locked_step; [done|done|apply Hv].
Qed.

Lemma submit_double_sign_proof_step m n slot now v :
  let c := SubmitDoubleSignProof m n slot now in
  vault_ok v → ends (submit_double_sign_proof m n slot now) (leads c v) (leads c v) v.
Proof.
  intros c Hv. pose proof (follows_same c v Hv) as Hsame. unfold submit_double_sign_proof.
  call_step. apply find_position_ends; [done|]. intros i p _ _ _.
  call_step. apply position_at_ends; [done|]. intros q _. do 2 (call_step; call_step; [done|]). call_step. call_step.
  apply slash_locked_step; [done|done|apply Hv].
Qed.

(** A position whose status alone changes, between locked and disputed. *)
Lemma restatus_step c i p s' v :
  vault_ok v → positions v !! i = Some p → Position.status p ∈ [Locked; Disputed] → s' ∈ [Locked; Disputed] →
  follows c v (Vault.set_positions (<[i := Position.set_status s' p]> (positions v)) v).
Proof.
  intros Hv Hp Hs Hs'. pose proof (vk_pos _ Hv _ _ Hp) as Hpos. set (p' := Position.set_status s' p).
  assert (status_ok p').
  { pose proof (pos_status _ _ Hpos) as Hst. unfold status_ok in *; simpl.
    set_unfold in Hs. set_unfold in Hs'. destruct Hs as [Hs|[Hs|[]]], Hs' as [->|[->|[]]]; by rewrite Hs in Hst. }
  assert (pos_ok i p') by (by destruct Hpos).
  change (follows c v (put i p' (slashed_reserve v) (yield_pool v) (ledger v) v)).
  apply (follows_put _ _ p); try done; [apply Hv|apply Hv|..]; unfold p', due, token_balance; simpl;
    change (Position.remainder (Position.set_status s' p)) with (Position.remainder p); lia.
Qed.

Lemma open_dispute_step a i now v :
  let c := OpenDispute a i now in vault_ok v → ends (open_dispute a i now) (leads c v) (leads c v) v.
Proof.
  intros c Hv. pose proof (follows_same c v Hv) as Hsame. unfold open_dispute.
  call_step. call_step. call_step; call_step; [done|]. call_step. apply position_at_ends; [done|]. intros p Hp.
  do 2 (call_step; call_step; [done|]). eapply update_position_ends; [done|].
  assert (Position.status p = Locked) as Hs by (by apply dec_stable). apply restatus_step; try done; rewrite ?Hs; set_solver.
Qed.

Lemma resolve_dispute_step a i b now v :
  let c := ResolveDispute a i b now in vault_ok v → ends (resolve_dispute a i b now) (leads c v) (leads c v) v.
Proof.
  intros c Hv. pose proof (follows_same c v Hv) as Hsame. unfold resolve_dispute.
  call_step. call_step. call_step; call_step; [done|]. call_step. apply position_at_ends; [done|]. intros p Hp.
  call_step; call_step; [done|]. assert (Position.status p = Disputed) as Hs by (by apply dec_stable).
  destruct b.
  - apply carve_ends; [done|done|rewrite Hs; set_solver|pose proof (remainder_nonneg p); lia|by right|].
    intros p' Hp' Hs0 Hrem. call_step. by apply (carved_follows c i p).
  - eapply update_position_ends; [done|]. apply restatus_step; try done; rewrite ?Hs; set_solver.
Qed.

Lemma fund_step a amount v :
  let c := Fund a amount in vault_ok v → ends (fund a amount) (leads c v) (leads c v) v.
Proof.
  intros c Hv. unfold fund. apply ends_zoom, mint_ends; [apply Hv|..].
  - intros l Hl Ha Hb Hpos. change (follows c v (settle (yield_pool v) l v)).
    pose proof (vk_ledger v Hv vault_address). unfold token_balance in *.
    apply follows_settle; try done; [apply Hv|..]; unfold token_balance.
    + destruct (decide (a = vault_address)) as [->|]; [lia|rewrite Hb by done; lia].
    + simpl. intros Hne. rewrite Hb by done. lia.
  - intros e l Hl Hb. change (follows c v (settle (yield_pool v) l v)).
    apply follows_settle; try done; [apply Hv|..]; unfold token_balance; rewrite Hb; lia.
Qed.

Lemma add_reporter_step a r vk v :
  let c := AddReporter a r vk in vault_ok v → ends (add_reporter a r vk) (leads c v) (leads c v) v.
Proof.
  intros c Hv. unfold add_reporter. call_step. call_step. call_step; call_step; [by apply follows_same|]. call_step.
  split; simpl; [|unfold surplus, owed, token_balance; simpl; lia..| |lia]; [|done].
  destruct Hv. split; try done.
Qed.

Lemma credit_yield_step k amount v :
  let c := CreditYield k amount in
  vault_ok v → honest c → ends (credit_yield k amount) (leads c v) (leads c v) v.
Proof.
  intros c Hv Hk. unfold credit_yield. call_step; call_step; [by apply follows_same|].
  pose proof (owed_bounds v Hv). pose proof (vk_solvent v Hv). unfold surplus in *.
  call_step. apply pay_in_ends; [apply Hv|done|lia|..].
  - intros l Hl Hb. call_step. call_step. simpl. pose proof (Hl vault_address). unfold owed in *.
    call_step; call_step; fitted; [unfold I128_MAX in *; lia|]. call_step.
    change (follows c v (settle (yield_pool v + amount) l v)). apply follows_settle; try done; lia.
  - intros e l Hl Hb. change (follows c v (settle (yield_pool v) l v)). apply follows_settle; try done; lia.
Qed.

(** A position opened under the next id. *)
Definition opened (p : Position.t) (l : TokenLedger) (v : Vault.t) : Vault.t :=
  Vault.mk (config v) (<[next_id v := p]> (positions v)) (next_id v + 1) (slashed_reserve v) (yield_pool v) l.

Lemma next_id_fresh v : vault_ok v → positions v !! next_id v = None.
Proof. intros Hv. destruct (positions v !! next_id v) eqn:E; [|done]. pose proof (vk_ids v Hv _ _ E). simpl in *. lia. Qed.

Lemma opened_follows c p l v :
  vault_ok v → next_id v < U64_MAX → pos_ok (next_id v) p → ledger_ok l → Position.slashed p = 0 → due p = Position.deposit p →
  balance_of vault_address l = token_balance v + Position.deposit p → follows c v (opened p l v).
Proof.
  intros Hv Hn Hp Hl Hs Hd Hb. pose proof (next_id_fresh v Hv) as Hf.
  assert (surplus (opened p l v) = surplus v) as Hsur.
  { unfold surplus, owed, token_balance in *; simpl. rewrite !map_sum_fresh by done. unfold due in Hd. lia. }
  split; simpl; [|lia|done|apply same_config_refl|lia].
  pose proof (vk_solvent v Hv). destruct Hv. split; simpl; try done; try lia.
  - by apply map_Forall_insert_2.
  - apply map_Forall_insert_2; [lia|]. eapply map_Forall_impl; [exact vk_ids0|]. simpl. lia.
  - rewrite map_sum_fresh by done. lia.
Qed.

(** Tokens taken in, and an id used up, for a position that was not opened. *)
Lemma stranded_follows c n l v :
  vault_ok v → next_id v <= n <= next_id v + 1 → n <= U64_MAX → ledger_ok l →
  token_balance v <= balance_of vault_address l → (clean c v → False) →
  follows c v (Vault.set_next_id n (Vault.set_ledger l v)).
Proof.
  intros Hv Hn Hn' Hl Hb Hc. split; simpl; [|unfold surplus, owed, token_balance in *; simpl; lia|tauto|apply same_config_refl|lia].
  pose proof (vk_solvent v Hv). destruct Hv. split; simpl; try done; try lia.
  - eapply map_Forall_impl; [exact vk_ids0|]. simpl. lia.
  - unfold surplus, owed, token_balance in *; simpl. lia.
Qed.

Lemma deposit_step o n vk amount now v :
  let c := Deposit o n vk amount now in
  vault_ok v → honest c → typed c → ends (deposit o n vk amount now) (leads c v) (leads c v) v.
Proof.
  intros c Hv [Hne Hnow] Hty. unfold deposit. call_step; call_step; [by apply follows_same|].
  pose proof (vk_next v Hv). call_step. apply pay_in_ends; [apply Hv|done|lia|..].
  - intros l Hl Hb. call_step. call_step. simpl. call_step; call_step; fitted.
    { change (follows c v (Vault.set_next_id (next_id v) (Vault.set_ledger l v))).
      apply stranded_follows; try done; try lia. simpl. unfold U64_MAX in *; lia. }
    call_step. call_step. call_step; call_step; fitted.
    { pose proof (vk_config v Hv) as (_ & _ & ?). apply stranded_follows; try done; simpl; lia. }
    call_step. call_step. call_step. simpl in Hty.
    set (p := Position.mk _ _ _ _ _ _ _ _ _ _ _ _).
    assert (pos_ok (next_id v) p) as Hp by (split; simpl; try done; lia).
    pose proof (remainder_eq _ _ Hp) as Hr. simpl in Hr.
    change (follows c v (opened p l v)). apply opened_follows; try done; [lia|]. unfold due; simpl. lia.
  - intros e l Hl Hb. change (follows c v (settle (yield_pool v) l v)). apply follows_settle; try done; [apply Hv|lia..].
Qed.
End calls.
