(* ===== verification/EscrowYield.v ===== *)
(** * The collateral vault: the split of the yield

    [distribute_yield] gives each position with collateral its share of the pool by
    weight, rounded down, and one unit more to the first ones by id until the pool is used
    up; nothing is lost and the balance still covers what is owed. *)

From stdpp Require Import prelude strings gmap list.
From S2P Require Import Prelude Contract Escrow EscrowFacts.
Import Vault (config, positions, next_id, slashed_reserve, yield_pool, ledger).
Local Open Scope Z_scope.

(** ** Shares rounded down *)

Lemma floors_bounds P W (rs : list Z) :
  0 < W → Forall (λ r, 0 <= r) rs → 0 <= P →
  sumZ ((λ r, r * P / W) <$> rs) * W <= sumZ rs * P
  ∧ sumZ rs * P <= sumZ ((λ r, r * P / W) <$> rs) * W + W * Z.of_nat (length rs).
Proof.
  intros HW Hrs HP. induction Hrs as [|r rs Hr _ IH]; csimpl; [lia|].
  pose proof (Z.mul_div_le (r * P) W HW). pose proof (Z.mul_succ_div_gt (r * P) W HW). lia.
Qed.

(** What rounding leaves over is less than one unit per share. *)
Lemma leftover_bounds P W (rs : list Z) :
  0 < W → Forall (λ r, 0 <= r) rs → 0 <= P → sumZ rs = W →
  0 <= P - sumZ ((λ r, r * P / W) <$> rs) <= Z.of_nat (length rs).
Proof. intros HW Hrs HP HS. destruct (floors_bounds P W rs) as [Hlo Hhi]; [done..|]. rewrite HS in *. nia. Qed.

Lemma sum_i128_from l a :
  Forall (λ z, 0 <= z) l → 0 <= a → a + sumZ l <= I128_MAX → fold_left (λ a b, as_i128 (a + b)) l a = a + sumZ l.
Proof.
  intros Hl. revert a. induction Hl as [|z l Hz Hl IH]; intros a Ha Hs; simpl in *; [lia|].
  pose proof (sumZ_nonneg l Hl). rewrite as_i128_small by (unfold in_i128; lia). rewrite IH; lia.
Qed.

Lemma sum_i128_eq l : Forall (λ z, 0 <= z) l → sumZ l <= I128_MAX → sum_i128 l = sumZ l.
Proof. intros. unfold sum_i128. by rewrite sum_i128_from. Qed.

Section yield.
Context `{Ed25519} `{!MapOrder Z}.
Implicit Types (v s : Vault.t) (l : list (Z * Z)).

(** The positions that share the pool, in the order of the map, and their weights. *)
Definition actives v : list Z := (List.filter (λ kp, Position.has_remainder kp.2) (order_of (positions v))).*1.
Definition weight v (i : Z) : Z := default 0 (Position.remainder <$> positions v !! i).
Definition total_weight v : Z := sumZ (weight v <$> actives v).
Definition floor_share v (i : Z) : Z := weight v i * yield_pool v / total_weight v.

Lemma actives_spec v i : i ∈ actives v ↔ ∃ p, positions v !! i = Some p ∧ Position.has_remainder p = true.
Proof.
  unfold actives. rewrite list_elem_of_fmap. split.
  - intros ([j p] & -> & Hin). apply list_elem_of_In, filter_In in Hin as [Hin Hp].
    apply list_elem_of_In in Hin. rewrite order_of_perm in Hin. apply elem_of_map_to_list in Hin. eauto.
  - intros (p & Hp & Hr). exists (i, p). split; [done|]. apply list_elem_of_In, filter_In. split; [|done].
    apply list_elem_of_In. rewrite order_of_perm. by apply elem_of_map_to_list.
Qed.

Lemma actives_NoDup v : NoDup (actives v).
Proof.
  unfold actives. assert (NoDup (order_of (positions v)).*1) as Hnd.
  { rewrite order_of_perm. apply NoDup_fst_map_to_list. }
  induction (order_of (positions v)) as [|[i p] l IH]; simpl in *; [constructor|].
  apply NoDup_cons in Hnd as [Hi Hnd]. destruct (Position.has_remainder p); [|auto]. csimpl. constructor; [|auto].
  contradict Hi. apply list_elem_of_fmap in Hi as ([j q] & -> & Hin). apply list_elem_of_fmap. exists (j, q). split; [done|].
  apply list_elem_of_In, filter_In in Hin as [Hin _]. by apply list_elem_of_In.
Qed.

Lemma weight_nonneg v i : 0 <= weight v i.
Proof. unfold weight. destruct (positions v !! i); simpl; [apply remainder_nonneg|done]. Qed.

Lemma weights_nonneg v (ids : list Z) : Forall (λ r, 0 <= r) (weight v <$> ids).
Proof. apply Forall_fmap, Forall_true. intros i. apply weight_nonneg. Qed.

(** ** The three loops *)

Lemma weights_loop v (X : VaultError → Vault.t → Prop) (Q : Z → Vault.t → Prop) :
  (∀ e, X e v) → Q (total_weight v) v → ends (for_in add_weight (actives v) 0) Q X v.
Proof.
  intros HX HQ.
  eapply (ends_weaken _ _ Q _ X); [apply (ends_for_in _ (λ ids acc s, s = v ∧ ids ⊆ actives v ∧ acc + sumZ (weight v <$> ids) = total_weight v) (λ _ s, s = v))| |].
  - intros i ids acc s (-> & Hsub & Hsum). unfold add_weight. call_step. call_step.
    destruct (proj1 (actives_spec v i)) as (p & Hp & _); [set_solver|].
    call_step. unfold index_position. apply (ends_or_panic _ _ _ _ p Hp). call_step; [done|]. fitted.
    split_and!; [done|set_solver|]. csimpl in Hsum. unfold weight in Hsum at 1. rewrite Hp in Hsum. simpl in Hsum. lia.
  - done.
  - intros acc s (-> & _ & Hsum). simpl in Hsum. replace acc with (total_weight v) by lia. done.
  - by intros e s ->.
Qed.

Lemma shares_loop v (X : VaultError → Vault.t → Prop) (Q : list (Z * Z) → Vault.t → Prop) :
  0 <= yield_pool v → 0 < total_weight v → (∀ e, X e v) → Q ((λ i, (i, floor_share v i)) <$> actives v) v →
  ends (for_in (share_of (total_weight v)) (actives v) []) Q X v.
Proof.
  intros HP HW HX HQ.
  eapply (ends_weaken _ _ Q _ X); [apply (ends_for_in _ (λ ids shares s, s = v ∧ ids ⊆ actives v ∧
    shares ++ ((λ i, (i, floor_share v i)) <$> ids) = (λ i, (i, floor_share v i)) <$> actives v) (λ _ s, s = v))| |].
  - intros i ids acc s (-> & Hsub & Hsum). unfold share_of. call_step. call_step.
    destruct (proj1 (actives_spec v i)) as (p & Hp & _); [set_solver|].
    call_step. unfold index_position. apply (ends_or_panic _ _ _ _ p Hp). call_step; call_step; [done|]. fitted. call_step.
    split_and!; [done|set_solver|]. rewrite <- Hsum, <- app_assoc. csimpl. do 3 f_equal.
    rewrite Z.quot_div_nonneg; [|pose proof (remainder_nonneg p); nia|done]. unfold floor_share, weight. by rewrite Hp.
  - done.
  - intros acc s (-> & _ & Hsum). csimpl in Hsum. rewrite app_nil_r in Hsum. by rewrite Hsum.
  - by intros e s ->.
Qed.

(** The vault during the last loop: what is left to give still counts as the pool. *)
Definition pending l (left : Z) s : Vault.t := Vault.set_yield_pool (sumZ l.*2 + left) s.

Record splitting v l (left : Z) s : Prop := {
  sp_left : 0 <= left <= Z.of_nat (length l);
  sp_nonneg : Forall (λ z, 0 <= z) l.*2;
  sp_ok : vault_ok (pending l left s);
  sp_surplus : surplus (pending l left s) = surplus v;
  sp_frame : s = Vault.set_positions (positions s) v;
  sp_weights : map_sum Position.remainder (positions s) = map_sum Position.remainder (positions v);
  sp_nodup : NoDup l.*1;
  sp_todo : ∀ i z, (i, z) ∈ l → i ∈ actives v ∧ z = floor_share v i ∧ positions s !! i = positions v !! i;
  sp_done : ∀ i p, positions v !! i = Some p → i ∉ l.*1 →
    ∃ b, 0 <= b <= 1 ∧ positions s !! i =
      Some (if Position.has_remainder p then Position.set_unclaimed_yield (Position.unclaimed_yield p + floor_share v i + b) p else p);
}.

Lemma credit_share_step v i z l left s :
  splitting v ((i, z) :: l) left s →
  ends (credit_share left (i, z)) (splitting v l) (λ _ _, False) s.
Proof.
  intros [Hleft Hnn Hok Hsur Hframe Hws Hnd Htodo Hdone]. simpl in Hleft. csimpl in *.
  apply Forall_cons in Hnn as [Hz Hnn]. apply NoDup_cons in Hnd as [Hi Hnd].
  pose proof (sumZ_nonneg _ Hnn) as Hsum.
  destruct (Htodo i z) as ([p [Hpv Hact]]%actives_spec & Hfl & Hps); [set_solver|]. rewrite Hpv in Hps.
  set (b := if 0 <? left then 1 else 0). assert (0 <= b <= 1 ∧ b <= left ∧ (left <= Z.of_nat (length l) + b)) as (Hb & Hbl & Hbn).
  { subst b. destruct (Z.ltb_spec 0 left); lia. }
  pose proof (vk_pos _ Hok i p Hps) as Hpos. pose proof (due_bound _ i p Hok Hps) as Hdue.
  pose proof (owed_bounds _ Hok) as (_ & _ & _ & _ & Hmax). pose proof (pos_parts _ _ Hpos) as (Hs0 & _ & _ & Hy).
  pose proof (remainder_nonneg p). unfold due, pending in *. csimpl in *.
  assert (credit_share left (i, z) s = Returned (left - b)
    (Vault.set_positions (<[i := Position.set_unclaimed_yield (Position.unclaimed_yield p + (z + b)) p]> (positions s)) s)) as Hrun.
  { unfold credit_share, mbind, call_mbind, call_bind, get. simpl. rewrite Hps. simpl.
    assert ((if 0 <? left then as_i128 (z + 1) else z) = z + b) as ->.
    { subst b. destruct (Z.ltb_spec 0 left); [|lia]. rewrite as_i128_small; [done|]. unfold in_i128, I128_MAX in *. lia. }
    unfold i128_fit. rewrite fit_in by (unfold I128_MAX in *; lia). simpl.
    rewrite (alter_as_insert _ i _ p Hps).
    subst b. destruct (Z.ltb_spec 0 left); [|by rewrite Z.sub_0_r].
    rewrite as_i128_small; [done|]. unfold in_i128, I128_MAX in *. lia. }
  unfold ends. rewrite Hrun.
  set (p' := Position.set_unclaimed_yield (Position.unclaimed_yield p + (z + b)) p).
  assert (pos_ok i p') as Hp' by (destruct Hpos; split; simpl; try done; lia).
  destruct (put_ok i p p' (slashed_reserve s) (sumZ l.*2 + (left - b)) (ledger s) (Vault.set_yield_pool (z + sumZ l.*2 + left) s))
    as [Hok' Hsur']; try done; [apply Hok|lia|simpl; lia| |].
  { unfold due, token_balance; simpl. change (Position.remainder p') with (Position.remainder p). lia. }
  split; try done; try lia.
  - rewrite <- Hsur.
    change (surplus (put i p' (slashed_reserve s) (sumZ l.*2 + (left - b)) (ledger s) (Vault.set_yield_pool (z + sumZ l.*2 + left) s))
      = surplus (Vault.set_yield_pool (z + sumZ l.*2 + left) s)).
    rewrite Hsur'. unfold due, token_balance; simpl. change (Position.remainder p') with (Position.remainder p). lia.
  - simpl. rewrite Hframe at 2. done.
  - simpl. rewrite (map_sum_insert _ _ _ _ _ Hps), <- Hws. change (Position.remainder p') with (Position.remainder p). lia.
  - intros j w Hj. destruct (Htodo j w) as (? & ? & ?); [set_solver|]. split_and!; [done|done|]. simpl.
    rewrite lookup_insert_ne; [done|]. intros ->. apply Hi, list_elem_of_fmap. by exists (j, w).
  - intros j q Hq Hj. simpl. destruct (decide (j = i)) as [->|].
    + rewrite lookup_insert_eq. simplify_eq. exists b. split; [done|]. rewrite Hact. f_equal. unfold p'. f_equal. lia.
    + rewrite lookup_insert_ne by done. apply Hdone; [done|]. set_solver.
Qed.

Lemma total_weight_pos v : actives v ≠ [] → 0 < total_weight v.
Proof.
  unfold total_weight. pose proof (actives_spec v) as Hspec. destruct (actives v) as [|i ids]; [done|]. intros _. csimpl.
  pose proof (sumZ_nonneg _ (weights_nonneg v ids)).
  destruct (proj1 (Hspec i)) as (p & Hp & Hr); [set_solver|]. apply Z.ltb_lt in Hr. unfold weight at 1. rewrite Hp. simpl. lia.
Qed.

(** The shares in the order they are credited, and the loop's start. *)
Definition sorted_shares v : list (Z * Z) := sort_by by_id ((λ i, (i, floor_share v i)) <$> actives v).

Lemma sorted_shares_spec v :
  sorted_shares v ≡ₚ (λ i, (i, floor_share v i)) <$> actives v.
Proof. apply sort_by_Permutation. Qed.

Lemma sorted_shares_sum v : sumZ (sorted_shares v).*2 = sumZ ((λ r, r * yield_pool v / total_weight v) <$> (weight v <$> actives v)).
Proof. rewrite sorted_shares_spec, <- !list_fmap_compose. done. Qed.

Lemma splitting_start v :
  vault_ok v → actives v ≠ [] →
  let left := yield_pool v - sumZ (sorted_shares v).*2 in splitting v (sorted_shares v) left v.
Proof.
  intros Hv Hne. pose proof (total_weight_pos v Hne) as HW. pose proof (vk_pool v Hv) as HP. simpl.
  pose proof (leftover_bounds (yield_pool v) (total_weight v) _ HW (weights_nonneg v (actives v)) HP eq_refl) as Hl.
  rewrite <- sorted_shares_sum, length_fmap in Hl.
  assert (pending (sorted_shares v) (yield_pool v - sumZ (sorted_shares v).*2) v = v) as Heq.
  { unfold pending. rewrite Zplus_minus. by destruct v. }
  split; rewrite ?Heq; try done.
  - rewrite (Permutation_length (sorted_shares_spec v)), length_fmap. done.
  - rewrite sorted_shares_spec, <- list_fmap_compose. apply Forall_fmap, Forall_true. intros i. simpl.
    apply Z.div_pos; [|done]. pose proof (weight_nonneg v i). nia.
  - by destruct v.
  - rewrite sorted_shares_spec, <- list_fmap_compose. simpl. rewrite list_fmap_id. apply actives_NoDup.
  - intros i z. rewrite sorted_shares_spec, list_elem_of_fmap. by intros (j & [= -> ->] & Hj).
  - intros i p Hp Hi. exists 0. split; [lia|]. destruct (Position.has_remainder p) eqn:Hr; [|done]. exfalso. apply Hi.
    rewrite sorted_shares_spec, <- list_fmap_compose. simpl. rewrite list_fmap_id. apply actives_spec. eauto.
Qed.

Lemma distribute_yield_ends v (Q : unit → Vault.t → Prop) (X : VaultError → Vault.t → Prop) :
  vault_ok v → (actives v = [] → Q tt v) → (∀ e, X e v) →
  (∀ s, actives v ≠ [] → splitting v [] 0 s → Q tt (Vault.set_yield_pool 0 s)) → ends distribute_yield Q X v.
Proof.
  intros Hv HQ0 HX HQ. unfold distribute_yield. call_step. call_step. fold (actives v).
  destruct (bool_decide (actives v = [])) eqn:He; breflect; [call_step; auto|].
  pose proof (total_weight_pos v He) as HW. pose proof (vk_pool v Hv) as HP.
  call_step. apply weights_loop; [done|]. rewrite (proj2 (Z.eqb_neq _ 0)) by lia.
  call_step. apply shares_loop; [done|done|done|]. fold (sorted_shares v).
  pose proof (splitting_start v Hv He) as Hst. simpl in Hst. pose proof (owed_bounds v Hv) as (? & ? & ? & _ & Hmax). unfold owed in Hmax.
  destruct (sp_left _ _ _ _ Hst) as [Hl0 _]. pose proof (sumZ_nonneg _ (sp_nonneg _ _ _ _ Hst)).
  rewrite sum_i128_eq by (try apply Hst; lia). rewrite as_i128_small by (unfold in_i128, I128_MAX in *; lia).
  call_step. eapply ends_weaken; [apply (ends_for_in _ (splitting v) (λ _ _, False)); [|exact Hst]|..].
  - intros [i z] l left s Hs. by apply credit_share_step.
  - intros left s Hs. call_step. apply HQ; [done|]. pose proof (sp_left _ _ _ _ Hs). simpl in *. by replace left with 0 in Hs by lia.
  - done.
Qed.

Lemma distribute_yield_step v : vault_ok v → ends distribute_yield (leads DistributeYield v) (leads DistributeYield v) v.
Proof.
  intros Hv. apply distribute_yield_ends; [done|intros _; by apply follows_same|intros _; by apply follows_same|].
  intros s _ Hs. pose proof (sp_surplus _ _ _ _ Hs) as Hsur. change (surplus (Vault.set_yield_pool 0 s) = surplus v) in Hsur. pose proof (sp_frame _ _ _ _ Hs) as Hf.
  split; [apply Hs|lia|done|rewrite Hf; apply same_config_refl|rewrite Hf; simpl; lia].
Qed.
End yield.
