(* ===== verification/EscrowProps.v ===== *)
(** * The collateral vault: theorems

    Solvency of every sequence of calls, the split of the yield, withdrawals, the
    winding down of a vault, and what justifies a slash. *)

From stdpp Require Import prelude strings gmap list.
From S2P Require Import Prelude Contract Escrow EscrowFacts EscrowYield.
Import PositionStatus (Locked, Disputed, Slashed, Released, Forfeited).
Import Vault (config, positions, next_id, slashed_reserve, yield_pool, ledger).
Local Open Scope Z_scope.
#[local] Arguments balance_of : simpl never.
#[local] Arguments vault_address : simpl never.
#[local] Arguments Position.remainder : simpl never.

Section props.
Context `{Ed25519} `{!MapOrder Z}.
Implicit Types (v : Vault.t) (c : vault_call).

(** ** Sequences of calls *)

Lemma exec_ends c v : vault_ok v → honest c → typed c → ends (exec c) (leads c v) (leads c v) v.
Proof.
  intros Hv Hh Ht. destruct c; simpl exec; try apply dropped_ends.
  - by apply add_reporter_step.
  - by apply fund_step.
  - by apply deposit_step.
  - by apply credit_yield_step.
  - by apply distribute_yield_step.
  - by apply claim_yield_step.
  - by apply reclaim_yield_pool_step.
  - by apply submit_downtime_proof_step.
  - by apply submit_double_sign_proof_step.
  - by apply open_dispute_step.
  - by apply resolve_dispute_step.
  - by apply release_collateral_step.
  - by apply claim_slashed_step.
Qed.

Lemma vault_step c v : vault_ok v → honest c → typed c → ∃ v', state_of (exec c v) = Some v' ∧ follows c v v'.
Proof.
  intros Hv Hh Ht. pose proof (exec_ends c v Hv Hh Ht) as He. unfold ends in He.
  destruct (exec c v); simpl; eauto; done.
Qed.

(** Calls that nobody makes for the vault's own address, in time for the clock. *)
Definition prudent (cfg : VaultConfig.t) c : Prop :=
  match c with
  | Fund a _ => a ≠ vault_address
  | Deposit _ _ _ _ now => now + VaultConfig.lockup_window cfg <= U64_MAX
  | ClaimYield o _ | ReleaseCollateral o _ _ => o ≠ vault_address
  | ReclaimYieldPool a | ClaimSlashed a _ => a ≠ vault_address
  | _ => True
  end.

Lemma prudent_same cfg cfg' c : same_config cfg cfg' → prudent cfg c → prudent cfg' c.
Proof. intros ->. by destruct c. Qed.

Lemma same_config_trans x y z : same_config x y → same_config y z → same_config x z.
Proof. intros Hc -> . unfold same_config in *. rewrite Hc. done. Qed.

Lemma run_vault_ok cs v :
  vault_ok v → Forall honest cs → Forall typed cs →
  ∃ v', run_calls cs v = Some v' ∧ vault_ok v' ∧ same_config (config v) (config v') ∧
    (Forall (prudent (config v)) cs → next_id v + Z.of_nat (length cs) <= U64_MAX → surplus v' = surplus v).
Proof.
  revert v. induction cs as [|c cs IH]; intros v Hv Hh Ht.
  { exists v. split_and!; [done|done|apply same_config_refl|done]. }
  apply Forall_cons in Hh as [Hhc Hh]. apply Forall_cons in Ht as [Htc Ht].
  destruct (vault_step c v Hv Hhc Htc) as (v1 & Hex & [Hv1 _ Hcl Hcfg Hn]).
  destruct (IH v1 Hv1 Hh Ht) as (v' & Hrun & Hv' & Hcfg' & Hsur). exists v'. cbn [run_calls]. rewrite Hex.
  split_and!; [done|done|by eapply same_config_trans|].
  intros [Hpc Hp]%Forall_cons Hlen. simpl in Hlen. rewrite Hsur; [|by eapply Forall_impl; [exact Hp|]; eauto using prudent_same|lia].
  apply Hcl. destruct c; simpl in *; try done. lia.
Qed.

Lemma initialize_ok cfg v :
  0 <= VaultConfig.downtime_slash_bps cfg → 0 <= VaultConfig.double_sign_slash_bps cfg → 0 <= VaultConfig.lockup_window cfg →
  initialize cfg = Ok v → vault_ok v ∧ surplus v = 0 ∧ config v = cfg ∧ next_id v = 1.
Proof.
  intros H1 H2 H3. unfold initialize, VaultConfig.validate.
  destruct (_ || _) eqn:Hb; [done|]. intros [= <-]. breflect.
  assert (surplus (Vault.mk cfg ∅ 1 0 0 ∅) = 0) as Hs.
  { unfold surplus, owed, token_balance; simpl. by rewrite !map_sum_empty. }
  split; [|done]. split; simpl; try done; try lia; try apply map_Forall_empty.
Qed.

(** The sums of [liabilities] do not wrap. *)
Lemma liabilities_owed v : vault_ok v → liabilities v = owed v.
Proof.
  intros Hv. pose proof (owed_bounds v Hv) as (Hr & Hy & Hs & Hp & Hmax). unfold owed in *.
  assert (sumZ (Position.remainder <$> List.filter Position.has_remainder (order_of (positions v)).*2)
          = map_sum Position.remainder (positions v)) as Hact.
  { rewrite <- map_sum_order. induction (order_of (positions v)).*2 as [|p l IH]; csimpl; [done|].
    destruct (Position.has_remainder p) eqn:E; csimpl; rewrite IH; [done|]. rewrite (has_remainder_spec p E). lia. }
  unfold liabilities. rewrite !sum_i128_eq.
  - rewrite Hact, map_sum_order. unfold I128_MAX in *.
    rewrite (as_i128_small (_ + slashed_reserve v)) by (unfold in_i128, I128_MAX; lia).
    rewrite (as_i128_small (_ + yield_pool v)) by (unfold in_i128, I128_MAX; lia).
    rewrite as_i128_small by (unfold in_i128, I128_MAX; lia). lia.
  - apply Forall_fmap, Forall_forall. intros p Hin. simpl. apply list_elem_of_fmap in Hin as ([i q] & -> & Hin).
    rewrite order_of_perm in Hin. apply elem_of_map_to_list in Hin. apply (pos_parts _ _ (vk_pos v Hv i q Hin)).
  - rewrite map_sum_order. lia.
  - apply Forall_fmap, Forall_true. intros p. apply remainder_nonneg.
  - rewrite Hact. lia.
Qed.

(** The vaults that calls on a new vault lead to. *)
Definition valid_config (cfg : VaultConfig.t) : Prop :=
  0 <= VaultConfig.downtime_slash_bps cfg ∧ 0 <= VaultConfig.double_sign_slash_bps cfg ∧ 0 <= VaultConfig.lockup_window cfg.

Definition reachable v : Prop :=
  ∃ cfg v0 cs, valid_config cfg ∧ initialize cfg = Ok v0 ∧ Forall honest cs ∧ Forall typed cs ∧ run_calls cs v0 = Some v.

Lemma reachable_vault_ok v : reachable v → vault_ok v.
Proof.
  intros (cfg & v0 & cs & (?&?&?) & Hi & Hh & Ht & Hrun).
  destruct (initialize_ok cfg v0) as (Hv0 & _); [done..|].
  destruct (run_vault_ok cs v0 Hv0 Hh Ht) as (v' & Hrun' & Hv' & _). congruence.
Qed.

(** C4: However the methods of a new vault are called, in any order and whether the calls
    fail or not, as long as the vault's own address does not pay itself: no call panics,
    the balance of the vault covers its liabilities, the reserve is what was carved out of
    the positions, and the deposit of each position is exactly what was carved out,
    claimed, released and is left of it, with nothing left once it is released or
    forfeited. *)
Theorem vault_stays_solvent cfg v0 cs :
  valid_config cfg → initialize cfg = Ok v0 → Forall honest cs → Forall typed cs →
  ∃ v, run_calls cs v0 = Some v ∧ 0 <= liabilities v <= token_balance v ∧
    slashed_reserve v = map_sum Position.slashed (positions v) ∧
    ∀ i p, positions v !! i = Some p →
      0 <= Position.slashed p ∧ 0 <= Position.claimed p ∧ 0 <= Position.released p ∧ 0 <= Position.unclaimed_yield p ∧
      Position.deposit p = Position.slashed p + Position.claimed p + Position.released p + Position.remainder p ∧
      (Position.status p = Released ∨ Position.status p = Forfeited → Position.remainder p = 0).
Proof.
  intros (?&?&?) Hi Hh Ht. destruct (initialize_ok cfg v0) as (Hv0 & _); [done..|].
  destruct (run_vault_ok cs v0 Hv0 Hh Ht) as (v & Hrun & Hv & _). exists v.
  pose proof (vk_solvent v Hv) as Hs. pose proof (owed_bounds v Hv). unfold surplus in Hs.
  rewrite (liabilities_owed v Hv). split_and!; [done|unfold owed in *; lia|lia|apply Hv|].
  intros i p Hp. pose proof (vk_pos v Hv i p Hp) as Hpos. pose proof (remainder_eq i p Hpos).
  pose proof (pos_parts _ _ Hpos) as (?&?&?&?). split_and!; try done; [lia|].
  pose proof (pos_status _ _ Hpos) as Hst. unfold status_ok in Hst. intros [E|E]; rewrite E in Hst; lia.
Qed.

(** When moreover nobody acts for the vault's own address, deposits end their lockup
    within the clock, and ids do not run out, [assert_solvent] succeeds after every
    sequence of calls: the vault holds exactly what it owes. *)
Theorem solvency_is_exact cfg v0 cs :
  valid_config cfg → initialize cfg = Ok v0 → Forall honest cs → Forall typed cs → Forall (prudent cfg) cs →
  Z.of_nat (length cs) < U64_MAX →
  ∃ v, run_calls cs v0 = Some v ∧ assert_solvent v = Ok tt.
Proof.
  intros (?&?&?) Hi Hh Ht Hp Hlen. destruct (initialize_ok cfg v0) as (Hv0 & Hs0 & Hcfg & Hn); [done..|].
  destruct (run_vault_ok cs v0 Hv0 Hh Ht) as (v & Hrun & Hv & _ & Hsur). exists v. split; [done|].
  rewrite Hcfg, Hn in Hsur. specialize (Hsur Hp ltac:(lia)). rewrite Hs0 in Hsur. unfold surplus in Hsur.
  unfold assert_solvent. rewrite (liabilities_owed v Hv).
  rewrite (proj2 (Z.ltb_ge _ _)) by lia. by rewrite (proj2 (Z.eqb_eq _ _)) by lia.
Qed.

(** When [distribute_yield] finds positions with collateral, it fails with nothing
    changed or gives each of them its share of the pool by weight, rounded down, or one
    unit more, and nothing to the others; the pool is then empty and, all told, exactly
    the pool was credited. *)
Theorem yield_is_split_exactly v :
  reachable v → actives v ≠ [] →
  ends distribute_yield
    (λ _ v', yield_pool v' = 0 ∧
       map_sum Position.unclaimed_yield (positions v') = map_sum Position.unclaimed_yield (positions v) + yield_pool v ∧
       ∀ i p, positions v !! i = Some p → ∃ b, 0 <= b <= 1 ∧ positions v' !! i =
         Some (if Position.has_remainder p
               then Position.set_unclaimed_yield
                      (Position.unclaimed_yield p + Position.remainder p * yield_pool v / total_weight v + b) p
               else p))
    (λ _ v', v' = v) v.
Proof.
  intros Hv%reachable_vault_ok Hne. apply distribute_yield_ends; [done|done|done|]. intros s _ Hs.
  assert (∀ i p, positions v !! i = Some p → ∃ b, 0 <= b <= 1 ∧ positions s !! i =
    Some (if Position.has_remainder p then Position.set_unclaimed_yield
      (Position.unclaimed_yield p + Position.remainder p * yield_pool v / total_weight v + b) p else p)) as Hpos.
  { intros i p Hp. destruct (sp_done _ _ _ _ Hs i p Hp) as (b & Hb & Hi); [set_solver|]. exists b. split; [done|].
    rewrite Hi. unfold floor_share, weight. by rewrite Hp. }
  split_and!; [done| |done].
  pose proof (sp_surplus _ _ _ _ Hs) as Hsur. change (surplus (Vault.set_yield_pool 0 s) = surplus v) in Hsur.
  pose proof (sp_frame _ _ _ _ Hs) as Hf. pose proof (sp_weights _ _ _ _ Hs) as Hw. rewrite Hf in *. clear Hf.
  unfold surplus, owed, token_balance in Hsur. simpl in *. lia.
Qed.

(** ** Withdrawals *)

(** After the end of its lockup, a position that was neither slashed nor disputed is
    paid back in full to its operator, unless the operator's own balance would overflow. *)
Theorem locked_collateral_is_released v i p now :
  reachable v → positions v !! i = Some p → Position.status p = Locked → Position.lockup_until p <= now →
  Position.operator p ≠ vault_address → balance_of (Position.operator p) (ledger v) + Position.deposit p <= I128_MAX →
  ∃ v', release_collateral (Position.operator p) i now v = Returned (Position.deposit p) v' ∧
    balance_of (Position.operator p) (ledger v') = balance_of (Position.operator p) (ledger v) + Position.deposit p ∧
    token_balance v' = token_balance v - Position.deposit p ∧
    positions v' = <[i := Position.set_status Released (Position.set_released (Position.deposit p) p)]> (positions v).
Proof.
  intros Hv%reachable_vault_ok Hp Hst Hnow Hne Hfit.
  assert (ends (release_collateral (Position.operator p) i now) (λ a v', a = Position.deposit p ∧
    balance_of (Position.operator p) (ledger v') = balance_of (Position.operator p) (ledger v) + Position.deposit p ∧
    token_balance v' = token_balance v - Position.deposit p ∧
    positions v' = <[i := Position.set_status Released (Position.set_released (Position.deposit p) p)]> (positions v))
    (λ _ _, False) v) as He.
  2: { unfold ends in He. destruct (release_collateral _ _ _ v) as [a v'| |]; [|done|done]. destruct He as [-> He]. by exists v'. }
  position_facts Hv Hp. pose proof (pos_status _ _ Hpos) as Hs. unfold status_ok in Hs. rewrite Hst in Hs. destruct Hs as (Hs0 & Hc0 & Hr0).
  unfold release_collateral. call_step. apply position_at_ends; [congruence|]. intros q Hq. simplify_eq.
  call_step; call_step; [done|]. call_step; call_step; [rewrite Hst in *; done|]. do 2 (call_step; call_step; [lia|]).
  call_step; call_step; fitted; [unfold I128_MAX in *; lia|]. call_step. eapply update_position_ends; [done|].
  call_step. eapply update_position_ends; [by apply lookup_insert_eq|]. call_step.
  apply ends_zoom, transfer_ends; simpl; [apply Hv|lia| | |lia|lia].
  - intros l Hl _ _ Hf Ht _. call_step. simpl. rewrite insert_insert_eq. unfold token_balance; simpl.
    split_and!; [lia|lia|lia|]. do 3 f_equal. lia.
  - intros l _ _ Heq. by destruct Hne.
Qed.

(** ** Winding down *)

(** Everything owed for a position is pulled, a dispute dismissed first. *)
Definition settle_calls (cfg : VaultConfig.t) (ip : Z * Position.t) : list vault_call :=
  let '(i, p) := ip in
  [ResolveDispute (VaultConfig.admin cfg) i false (Position.lockup_until p);
   ReleaseCollateral (Position.operator p) i (Position.lockup_until p);
   ClaimSlashed (VaultConfig.notifier cfg) i;
   ClaimYield (Position.operator p) i].

Definition wind_down v : list vault_call :=
  (map_to_list (positions v) ≫= settle_calls (config v)) ++ [ReclaimYieldPool (VaultConfig.admin (config v))].

(** One position replaced, of the same operator and the same lockup. *)
Record replaced (i : Z) (p p' : Position.t) v v' : Prop := {
  rp_positions : positions v' = <[i := p']> (positions v);
  rp_config : config v' = config v;
  rp_operator : Position.operator p' = Position.operator p;
  rp_lockup : Position.lockup_until p' = Position.lockup_until p;
}.

Lemma replaced_same i p v : positions v !! i = Some p → replaced i p p v v.
Proof. intros Hp. split; try done. by rewrite insert_id. Qed.

Abbreviation effect i p v P := (λ _ v', ∃ p', replaced i p p' v v' ∧ P p') (only parsing).

Lemma resolve_effect i p now v :
  positions v !! i = Some p → let P := (λ p', Position.status p' ≠ Disputed) in
  ends (resolve_dispute (VaultConfig.admin (config v)) i false now) (effect i p v P) (effect i p v P) v.
Proof.
  intros Hp P. unfold resolve_dispute. call_step. call_step. call_step; call_step; [done|]. call_step.
  apply position_at_ends; [congruence|]. intros q Hq. simplify_eq. call_step; call_step.
  - exists p. split; [by apply replaced_same|done].
  - eapply update_position_ends; [done|]. exists (Position.set_status Locked p). by split.
Qed.

Lemma release_effect i p v :
  vault_ok v → positions v !! i = Some p → Position.status p ≠ Disputed → let P := (λ p', Position.remainder p' = 0) in
  ends (release_collateral (Position.operator p) i (Position.lockup_until p)) (effect i p v P) (effect i p v P) v.
Proof.
  intros Hv Hp Hd P. pose proof (vk_pos v Hv i p Hp) as Hpos. apply release_collateral_ends; [done|..].
  - intros e Hnone. exists p. split; [by apply replaced_same|]. unfold P.
    pose proof (remainder_nonneg p). pose proof (remainder_eq i p Hpos).
    pose proof (pos_status _ _ Hpos) as Hs. unfold status_ok in Hs. specialize (Hnone p Hp eq_refl).
    destruct (Position.status p); try done; [..|lia|lia]; (apply Z.le_antisymm; [|done]; apply Hnone; [lia|set_solver]).
  - intros q l Hq _ r p' v' Hp' Hr _. simplify_eq.
    enough (∃ p0, replaced i p p0 v v' ∧ P p0) by done. exists p'. by split.
Qed.

Lemma claim_slashed_effect i p v :
  vault_ok v → positions v !! i = Some p → Position.remainder p = 0 →
  let P := (λ p', Position.remainder p' = 0 ∧ Position.slashed p' = 0) in
  ends (claim_slashed (VaultConfig.notifier (config v)) i) (effect i p v P) (effect i p v P) v.
Proof.
  intros Hv Hp Hr P. apply claim_slashed_ends; [done|..].
  - intros e Hnone. exists p. split; [by apply replaced_same|]. split; [done|].
    pose proof (pos_parts _ _ (vk_pos v Hv i p Hp)). specialize (Hnone p Hp eq_refl). lia.
  - intros q l Hq p' v' Hp' Hr' _. simplify_eq.
    enough (∃ p0, replaced i p p0 v v' ∧ P p0) by done. exists p'. split; [done|]. split; [lia|simpl; lia].
Qed.

Lemma claim_yield_effect i p v :
  vault_ok v → positions v !! i = Some p → Position.remainder p = 0 ∧ Position.slashed p = 0 → let P := (λ p', due p' = 0) in
  ends (claim_yield (Position.operator p) i) (effect i p v P) (effect i p v P) v.
Proof.
  intros Hv Hp [Hr Hs] P. apply claim_yield_ends; [done|..].
  - intros e Hnone. exists p. split; [by apply replaced_same|]. unfold P, due.
    pose proof (pos_parts _ _ (vk_pos v Hv i p Hp)). specialize (Hnone p Hp eq_refl). lia.
  - intros q l Hq _ p' v' Hp' Hr' _. simplify_eq.
    enough (∃ p0, replaced i p p0 v v' ∧ P p0) by done. exists p'. split; [done|]. unfold P, due. simpl in *. lia.
Qed.

(** A call of the winding down: it keeps the vault well formed and replaces one position. *)
Lemma exec_effect c i p v (P : Position.t → Prop) :
  vault_ok v → honest c → typed c → ends (exec c) (effect i p v P) (effect i p v P) v →
  ∃ v' p', state_of (exec c v) = Some v' ∧ vault_ok v' ∧ replaced i p p' v v' ∧ P p'.
Proof.
  intros Hv Hh Ht He. pose proof (exec_ends c v Hv Hh Ht) as Hf. unfold ends in *.
  destruct (exec c v) as [? v'|? v'|]; [| |done]; destruct He as (p' & ? & ?); exists v', p'; split_and!; try done; apply Hf.
Qed.

Lemma replaced_at i p p' v v' : replaced i p p' v v' → positions v' !! i = Some p'.
Proof. intros [-> _ _ _]. apply lookup_insert_eq. Qed.

Lemma settle_position i p v cs :
  vault_ok v → positions v !! i = Some p →
  ∃ v' p', run_calls (settle_calls (config v) (i, p) ++ cs) v = run_calls cs v' ∧ vault_ok v' ∧
    positions v' = <[i := p']> (positions v) ∧ config v' = config v ∧ due p' = 0.
Proof.
  intros Hv Hp. unfold settle_calls. cbn [app].
  destruct (exec_effect (ResolveDispute (VaultConfig.admin (config v)) i false (Position.lockup_until p)) i p v
    (λ p', Position.status p' ≠ Disputed)) as (v1 & p1 & E1 & Hv1 & R1 & H1); [done..|by apply resolve_effect|].
  destruct (exec_effect (ReleaseCollateral (Position.operator p) i (Position.lockup_until p)) i p1 v1
    (λ p', Position.remainder p' = 0)) as (v2 & p2 & E2 & Hv2 & R2 & H2); [done..| |].
  { apply dropped_ends. rewrite <- (rp_operator _ _ _ _ _ R1), <- (rp_lockup _ _ _ _ _ R1).
    apply release_effect; [done|by eapply replaced_at|done]. }
  destruct (exec_effect (ClaimSlashed (VaultConfig.notifier (config v)) i) i p2 v2
    (λ p', Position.remainder p' = 0 ∧ Position.slashed p' = 0)) as (v3 & p3 & E3 & Hv3 & R3 & H3); [done..| |].
  { apply dropped_ends. rewrite <- (rp_config _ _ _ _ _ R1), <- (rp_config _ _ _ _ _ R2).
    apply claim_slashed_effect; [done|by eapply replaced_at|done]. }
  destruct (exec_effect (ClaimYield (Position.operator p) i) i p3 v3 (λ p', due p' = 0)) as (v4 & p4 & E4 & Hv4 & R4 & H4); [done..| |].
  { apply dropped_ends. rewrite <- (rp_operator _ _ _ _ _ R1), <- (rp_operator _ _ _ _ _ R2), <- (rp_operator _ _ _ _ _ R3).
    apply claim_yield_effect; [done|by eapply replaced_at|done]. }
  exists v4, p4. split_and!; [|done| |by rewrite (rp_config _ _ _ _ _ R4), (rp_config _ _ _ _ _ R3), (rp_config _ _ _ _ _ R2), (rp_config _ _ _ _ _ R1)|done].
  - cbn [run_calls]. rewrite E1. cbn [run_calls]. rewrite E2. cbn [run_calls]. rewrite E3. cbn [run_calls]. by rewrite E4.
  - rewrite (rp_positions _ _ _ _ _ R4), (rp_positions _ _ _ _ _ R3), (rp_positions _ _ _ _ _ R2), (rp_positions _ _ _ _ _ R1).
    by rewrite !insert_insert_eq.
Qed.

Lemma settle_all ips v cs :
  vault_ok v → NoDup ips.*1 → (∀ i p, (i, p) ∈ ips → positions v !! i = Some p) →
  ∃ v', run_calls ((ips ≫= settle_calls (config v)) ++ cs) v = run_calls cs v' ∧ vault_ok v' ∧ config v' = config v ∧
    ∀ i p, positions v' !! i = Some p → i ∈ ips.*1 ∧ due p = 0 ∨ i ∉ ips.*1 ∧ positions v !! i = Some p.
Proof.
  revert v. induction ips as [|[i p] ips IH]; intros v Hv Hnd Hin.
  { exists v. split_and!; try done. intros j q Hq. right. set_solver. }
  csimpl in *. apply NoDup_cons in Hnd as [Hi Hnd].
  destruct (settle_position i p v ((ips ≫= settle_calls (config v)) ++ cs)) as (v1 & p1 & Hrun & Hv1 & Hpos & Hcfg & Hd);
    [done|apply Hin; set_solver|].
  destruct (IH v1 Hv1 Hnd) as (v' & Hrun' & Hv' & Hcfg' & Hall).
  { intros j q Hj. rewrite Hpos, lookup_insert_ne; [apply Hin; set_solver|]. intros ->. apply Hi, list_elem_of_fmap. by exists (j, q). }
  exists v'. rewrite Hcfg in *. split_and!; [|done|congruence|].
  - etransitivity; [exact Hrun|exact Hrun'].
  - intros j q Hq. rewrite elem_of_cons. destruct (Hall j q Hq) as [[??]|[Hj Hq1]]; [by auto|]. rewrite Hpos in Hq1.
    destruct (decide (j = i)) as [->|]; [rewrite lookup_insert_eq in Hq1; simplify_eq; auto|].
    rewrite lookup_insert_ne in Hq1 by done. right. split; [|done]. intros [?|?]; done.
Qed.

Lemma map_sum_zero {K V} `{Countable K} (f : V → Z) (m : gmap K V) :
  (∀ k x, m !! k = Some x → f x = 0) → map_sum f m = 0.
Proof.
  intros Hf. unfold map_sum. assert (Forall (λ z, z = 0) (f <$> (map_to_list m).*2)) as Hz.
  { apply Forall_fmap, Forall_fmap, Forall_forall. intros [k x] Hkx%elem_of_map_to_list. simpl. eauto. }
  induction Hz as [|z l -> _ IH]; simpl; [done|lia].
Qed.

(** No funds get stuck: in a vault that holds exactly what it owes, whose parties are
    not the vault itself, dismissing the disputes, pulling everything owed for each
    position after its lockup, and reclaiming the idle yield leaves it with no tokens and
    no liabilities. *)
Theorem winding_down_empties_the_vault v :
  reachable v → assert_solvent v = Ok tt →
  VaultConfig.admin (config v) ≠ vault_address → VaultConfig.notifier (config v) ≠ vault_address →
  (∀ i p, positions v !! i = Some p → Position.operator p ≠ vault_address) →
  next_id v + Z.of_nat (length (wind_down v)) <= U64_MAX →
  ∃ v', run_calls (wind_down v) v = Some v' ∧ token_balance v' = 0 ∧ liabilities v' = 0.
Proof.
  intros Hv%reachable_vault_ok Hex Ha Hn Hops Hlen.
  assert (surplus v = 0) as Hs0.
  { unfold assert_solvent in Hex. rewrite (liabilities_owed v Hv) in Hex. unfold surplus.
    destruct (_ <? _) eqn:?; [done|]. destruct (_ =? _) eqn:?; [|done]. breflect. lia. }
  destruct (run_vault_ok (wind_down v) v Hv) as (v' & Hrun & Hv' & _ & Hsur).
  { unfold wind_down. apply Forall_app. split; [|by repeat constructor]. apply Forall_bind, Forall_true. intros [i p]. by repeat constructor. }
  { unfold wind_down. apply Forall_app. split; [|by repeat constructor]. apply Forall_bind, Forall_true. intros [i p]. by repeat constructor. }
  rewrite Hs0 in Hsur. exists v'. rewrite (liabilities_owed v' Hv').
  enough (owed v' = 0).
  { split_and!; [done| |done]. unfold surplus in Hsur. enough (token_balance v' - owed v' = 0) by lia. apply Hsur; [|done].
    unfold wind_down. apply Forall_app. split; [|by repeat constructor]. apply Forall_bind, Forall_forall.
    intros [i p] Hip%elem_of_map_to_list. repeat constructor; simpl; eauto. }
  destruct (settle_all (map_to_list (positions v)) v [ReclaimYieldPool (VaultConfig.admin (config v))])
    as (v1 & Hrun1 & Hv1 & Hcfg & Hall); [done|apply NoDup_fst_map_to_list|by intros i p ?%elem_of_map_to_list|].
  fold (wind_down v) in Hrun1. rewrite Hrun in Hrun1.
  assert (map_sum due (positions v1) = 0) as Hd1.
  { apply map_sum_zero. intros i p Hp. destruct (Hall i p Hp) as [[_ ?]|[Hi Hp0]]; [done|]. exfalso. apply Hi.
    apply list_elem_of_fmap. exists (i, p). split; [done|]. by apply elem_of_map_to_list. }
  assert (ends (exec (ReclaimYieldPool (VaultConfig.admin (config v)))) (λ _ s, positions s = positions v1 ∧ yield_pool s = 0)
    (λ _ s, positions s = positions v1 ∧ yield_pool s = 0) v1) as He.
  { apply dropped_ends. unfold reclaim_yield_pool. call_step. call_step. rewrite <- Hcfg.
    call_step; call_step; [done|]. pose proof (vk_pool v1 Hv1). call_step; call_step; [split; [done|lia]|]. call_step. call_step.
    pose proof (vk_solvent v1 Hv1). pose proof (owed_bounds v1 Hv1). unfold surplus, owed in *.
    call_step. apply (pay_out_to _ _ _ v1); [done|done|lia|]. intros l _. split; [by call_step|done]. }
  unfold ends in He. cbn [run_calls] in Hrun1.
  destruct (exec _ v1) as [? s|? s|]; [| |done]; simplify_eq/=; destruct He as [Hps Hy];
    rewrite (owed_due _ Hv'), Hps, Hy, Hd1; done.
Qed.

(** ** Slashes *)

(** What a call that carves collateral out of a position must have shown. *)
Definition justified c v (i : Z) (p p' : Position.t) : Prop :=
  match c with
  | SubmitDowntimeProof pr now =>
      Position.status p = Locked ∧ now < Position.lockup_until p ∧ Position.node_id p = Proof_.node_id pr ∧
      Position.slashed p' = Position.remainder p * VaultConfig.downtime_slash_bps (config v) / 10000 ∧
      u64_saturate (now - Proof_.observed_seq pr) <= VaultConfig.slashing_staleness (config v) ∧
      ∃ vk, VaultConfig.reporters (config v) !! Proof_.reporter pr = Some vk ∧ valid_key vk = true ∧
        verify vk (downtime_payload Downtime (Proof_.node_id pr) (Proof_.store_key pr)) (Proof_.signature pr) = true
  | SubmitDoubleSignProof m n slot now =>
      Position.status p = Locked ∧ now < Position.lockup_until p ∧ Position.node_id p = n ∧
      Position.slashed p' = Position.remainder p * VaultConfig.double_sign_slash_bps (config v) / 10000 ∧
      Material.message_a m ≠ Material.message_b m ∧
      ∀ msg sig, (msg, sig) ∈ [(Material.message_a m, Material.sig_a m); (Material.message_b m, Material.sig_b m)] →
        verify (Position.node_vk p) msg sig = true ∧ take 32 msg = n ∧ slot_le_bytes msg = Some slot
  | ResolveDispute a j accepted _ =>
      Position.status p = Disputed ∧ j = i ∧ accepted = true ∧ a = VaultConfig.admin (config v) ∧
      Position.slashed p' = Position.remainder p
  | _ => False
  end.

(** Where the carved part of a position grew, [J] holds. *)
Definition grown (J : Z → Position.t → Position.t → Prop) v v' : Prop :=
  ∀ i p p', positions v !! i = Some p → positions v' !! i = Some p' → Position.slashed p < Position.slashed p' → J i p p'.

Lemma grown_same J v v' : positions v' = positions v → grown J v v'.
Proof. intros Heq i p p' Hp Hp' Hlt. rewrite Heq in Hp'. simplify_eq. lia. Qed.

Lemma grown_insert J v v' i p p' :
  positions v !! i = Some p → positions v' = <[i := p']> (positions v) →
  (Position.slashed p < Position.slashed p' → J i p p') → grown J v v'.
Proof.
  intros Hp Hv' HJ j q q' Hq Hq'. rewrite Hv' in Hq'. destruct (decide (j = i)) as [->|].
  - rewrite lookup_insert_eq in Hq'. by simplify_eq.
  - rewrite lookup_insert_ne in Hq' by done. simplify_eq. lia.
Qed.

Abbreviation grows J v := (λ _ v', grown J v v') (only parsing).

Lemma slash_locked_grown J i bps now v :
  vault_ok v → 0 <= bps →
  (∀ p p', positions v !! i = Some p → Position.status p = Locked → now < Position.lockup_until p →
     Position.slashed p' = Position.remainder p * bps / 10000 → J i p p') →
  ends (slash_locked i bps now) (grows J v) (grows J v) v.
Proof.
  intros Hv Hbps HJ. assert (grown J v v) as Hsame by (by apply grown_same). unfold slash_locked.
  call_step. apply position_at_ends; [done|]. intros p Hp. do 2 (call_step; call_step; [done|]).
  call_step; call_step; [done|]. rename select (slash_portion _ _ = Ok _) into Hs.
  pose proof (remainder_nonneg p). destruct (slash_portion_bound _ _ _ (remainder_nonneg p) Hbps Hs) as [Ha _].
  assert (a = Position.remainder p * bps / 10000) as Hamt.
  { unfold slash_portion in Hs. destruct (10000 <? bps); [done|]. destruct (i128_fit _) eqn:Hf; [|done]. fitted.
    simplify_eq. apply Z.quot_div_nonneg; nia. }
  assert (Position.status p = Locked) as Hst by (by apply dec_stable).
  position_facts Hv Hp. rewrite as_i128_small by (unfold in_i128, I128_MAX in *; lia).
  apply (carve_ends i p a); [done|done|rewrite Hst; set_solver|done| |].
  { destruct (Z.eqb_spec (Position.remainder p - a) 0); [right; split; [done|lia]|by left]. }
  intros p' Hp' Hs0 Hrem. call_step. eapply grown_insert; [done|done|]. intros _. by apply HJ.
Qed.

(** The messages of [double_sign_message] are read back. *)
Lemma le_bytes_round_trip n z : 0 <= z < 256 ^ Z.of_nat n → from_le_bytes (to_le_bytes n z) = z.
Proof.
  revert z. induction n as [|n IH]; intros z Hz; simpl; [simpl in Hz; lia|].
  rewrite Nat2Z.inj_succ, Z.pow_succ_r in Hz by lia. rewrite IH.
  - pose proof (Z.div_mod z 256 ltac:(lia)). lia.
  - split; [apply Z.div_pos; lia|]. apply Z.div_lt_upper_bound; lia.
Qed.

Lemma length_to_le_bytes n z : length (to_le_bytes n z) = n.
Proof. revert z. induction n; intros z; simpl; auto. Qed.

Lemma double_sign_message_read_back n slot value :
  length n = 32%nat → 0 <= slot <= U64_MAX →
  payload_targets_node (double_sign_message n slot value) n = true ∧ slot_le_bytes (double_sign_message n slot value) = Some slot.
Proof.
  intros Hn Hs. unfold payload_targets_node, slot_le_bytes, double_sign_message.
  rewrite !length_app, length_to_le_bytes, Hn, take_app_length', drop_app_length', take_app_length' by (rewrite ?length_to_le_bytes; done).
  rewrite bool_decide_eq_true_2 by done. split; [done|]. rewrite le_bytes_round_trip; [done|]. unfold U64_MAX in *. simpl. lia.
Qed.

Lemma verify_reporter_Ok pr vk now w :
  verify_reporter_signature pr vk now w = Ok tt →
  u64_saturate (now - Proof_.observed_seq pr) <= w ∧ valid_key vk = true ∧
  verify vk (downtime_payload Downtime (Proof_.node_id pr) (Proof_.store_key pr)) (Proof_.signature pr) = true.
Proof.
  unfold verify_reporter_signature. destruct (_ <? _) eqn:Hw; [done|].
  destruct (bool_decide _) eqn:Ht; [done|]. destruct (valid_key vk); [|done]. destruct (negb (_ =? _)%nat); [done|].
  destruct (verify _ _ _) eqn:Hs; [|done]. intros _. breflect. apply dec_stable in Ht.
  unfold signed_message in Hs. rewrite bool_decide_eq_true_2, Ht in Hs by done. done.
Qed.

Lemma verify_double_sign_Ok m n slot :
  verify_double_sign m n slot = Ok tt →
  Material.message_a m ≠ Material.message_b m ∧
  ∀ msg sig, (msg, sig) ∈ [(Material.message_a m, Material.sig_a m); (Material.message_b m, Material.sig_b m)] →
    verify (Material.node_vk_bytes m) msg sig = true ∧ take 32 msg = n ∧ slot_le_bytes msg = Some slot.
Proof.
  unfold verify_double_sign, payload_targets_node. destruct (valid_key _); [|done].
  destruct (verify _ (Material.message_a m) _) eqn:Ha; [|done]. destruct (verify _ (Material.message_b m) _) eqn:Hb; [|done].
  simpl. destruct (_ || _) eqn:Ho; [done|]. destruct (bool_decide (Material.message_a m = _)) eqn:Hne; [done|]. intros _. breflect.
  split; [done|]. intros msg sig. set_unfold. intros [[= -> ->]|[[= -> ->]|[]]]; done.
Qed.

Lemma submit_downtime_proof_grown proof now v :
  let c := SubmitDowntimeProof proof now in vault_ok v → ends (submit_downtime_proof proof now) (grows (justified c v) v) (grows (justified c v) v) v.
Proof.
  intros c Hv. assert (∀ J, grown J v v) as Hsame by (intros; by apply grown_same). unfold c.
  unfold submit_downtime_proof. call_step. call_step. do 2 (call_step; call_step; [done|]).
  rename select (verify_reporter_signature _ _ _ _ = Ok _) into Hok. destruct a0. apply verify_reporter_Ok in Hok as (?&?&?).
  call_step. apply find_position_ends; [done|]. intros i p Hp Hn Hst.
  apply slash_locked_grown; [done|apply Hv|]. intros q q' Hq ? ? ?. simplify_eq. simpl. eauto 10.
Qed.

Lemma submit_double_sign_proof_grown material node_id slot now v :
  let c := SubmitDoubleSignProof material node_id slot now in vault_ok v → ends (submit_double_sign_proof material node_id slot now) (grows (justified c v) v) (grows (justified c v) v) v.
Proof.
  intros c Hv. assert (∀ J, grown J v v) as Hsame by (intros; by apply grown_same). unfold c.
  unfold submit_double_sign_proof. call_step. apply find_position_ends; [done|]. intros i p Hp Hn Hst.
  call_step. apply position_at_ends; [done|]. intros q Hq. simplify_eq. call_step; call_step; [done|]. call_step; call_step; [done|].
  rename select (verify_double_sign _ _ _ = Ok _) into Hok. destruct a. apply verify_double_sign_Ok in Hok as [Hne Hall].
  rename select (¬ _ ≠ _) into Hvk. apply dec_stable in Hvk. rewrite <- Hvk in Hall.
  call_step. call_step. apply slash_locked_grown; [done|apply Hv|]. intros q q' Hq ? ? ?. simplify_eq. simpl. done.
Qed.

Lemma resolve_dispute_grown caller position_id accepted now v :
  let c := ResolveDispute caller position_id accepted now in vault_ok v → ends (resolve_dispute caller position_id accepted now) (grows (justified c v) v) (grows (justified c v) v) v.
Proof.
  intros c Hv. assert (∀ J, grown J v v) as Hsame by (intros; by apply grown_same). unfold c.
  unfold resolve_dispute. call_step. call_step. call_step; call_step; [done|]. call_step. apply position_at_ends; [done|]. intros p Hp.
  call_step; call_step; [done|]. rename select (¬ _ ≠ Disputed) into Hst. apply dec_stable in Hst.
  rename select (¬ _ ≠ VaultConfig.admin _) into Had. apply dec_stable in Had. destruct accepted.
  + apply carve_ends; [done|done|rewrite Hst; set_solver|pose proof (remainder_nonneg p); lia|by right|].
    intros p' Hp' Hs0 Hrem. call_step. eapply grown_insert; [done|done|]. simpl. by intros _.
  + eapply update_position_ends; [done|]. eapply grown_insert; [done|done|]. simpl. lia.
Qed.

Lemma exec_grown c v : vault_ok v → honest c → ends (exec c) (grows (justified c v) v) (grows (justified c v) v) v.
Proof.
  intros Hv Hh. assert (∀ J, grown J v v) as Hsame by (intros; by apply grown_same).
  destruct c; simpl exec; try apply dropped_ends.
  - unfold add_reporter. call_step. call_step. call_step; call_step; [done|]. call_step. by apply grown_same.
  - apply ends_zoom, mint_ends; [apply Hv|..]; intros; by apply grown_same.
  - unfold deposit. call_step; call_step; [done|]. call_step. destruct Hh as [Hh _].
    apply pay_in_ends; [apply Hv|done|lia| |intros; by apply grown_same]. intros l _ _. call_step. call_step.
    call_step; call_step; [by apply grown_same|]. call_step. call_step. call_step; call_step; [by apply grown_same|].
    call_step. call_step. call_step. intros i p p' Hp Hp' Hlt. simpl in Hp'.
    rewrite lookup_insert_ne in Hp' by (intros <-; pose proof (next_id_fresh v Hv); congruence). simplify_eq. lia.
  - unfold credit_yield. call_step; call_step; [done|]. call_step.
    apply pay_in_ends; [apply Hv|done|lia| |intros; by apply grown_same]. intros l _ _. call_step. call_step.
    call_step; call_step; [by apply grown_same|]. call_step. by apply grown_same.
  - apply distribute_yield_ends; [done|done|done|]. intros s _ Hs i p p' Hp Hp' Hlt. simpl in Hp'.
    destruct (sp_done _ _ _ _ Hs i p Hp) as (b & _ & Hi); [set_solver|]. rewrite Hi in Hp'. simplify_eq.
    destruct (Position.has_remainder p); simpl in Hlt; lia.
  - apply claim_yield_ends; [done|done|]. intros p l Hp _ p' v' _ _ _.
    enough (grown (justified (ClaimYield operator position_id) v) v v') by done. eapply grown_insert; [done|done|]. simpl. lia.
  - unfold reclaim_yield_pool. call_step. call_step. do 2 (call_step; call_step; [done|]). call_step. call_step.
    pose proof (vk_solvent v Hv). pose proof (owed_bounds v Hv). unfold surplus, owed in *.
    call_step. apply (pay_out_to _ _ _ v); [done|done|lia|]. intros l _. split; [call_step|]; by apply grown_same.
  - by apply submit_downtime_proof_grown.
  - by apply submit_double_sign_proof_grown.
  - unfold open_dispute. call_step. call_step. call_step; call_step; [done|]. call_step. apply position_at_ends; [done|]. intros p Hp.
    do 2 (call_step; call_step; [done|]). eapply update_position_ends; [done|]. eapply grown_insert; [done|done|]. simpl. lia.
  - by apply resolve_dispute_grown.
  - apply release_collateral_ends; [done|done|]. intros p l Hp _ r p' v' _ _ _.
    enough (grown (justified (ReleaseCollateral operator position_id now) v) v v') by done. eapply grown_insert; [done|done|]. simpl. lia.
  - apply claim_slashed_ends; [done|done|]. intros p l Hp p' v' _ _ _.
    enough (grown (justified (ClaimSlashed caller position_id) v) v v') by done. eapply grown_insert; [done|done|].
    pose proof (pos_parts _ _ (vk_pos v Hv _ p Hp)). simpl. lia.
Qed.

(** C22: Collateral is carved out of a position only by a downtime proof signed by a
    registered reporter for its node, by two conflicting messages for its node and one slot
    that its own key signed, both before the end of its lockup and for the configured
    share of what it holds, or by the admin accepting a dispute that was open on it, for all
    of it. *)
Theorem slashes_are_justified c v v' i p p' :
  reachable v → honest c → state_of (exec c v) = Some v' →
  positions v !! i = Some p → positions v' !! i = Some p' → Position.slashed p < Position.slashed p' →
  justified c v i p p'.
Proof.
  intros Hv%reachable_vault_ok Hh Hex Hp Hp' Hlt. pose proof (exec_grown c v Hv Hh) as He. unfold ends in He.
  destruct (exec c v); simplify_eq/=; by eapply He.
Qed.

(** The signature of a downtime proof does not cover the time it was observed: an
    accepted proof whose time is replaced by any later one is accepted at that later time,
    so a proof never becomes stale. *)
Theorem downtime_proofs_never_expire pr vk now w later :
  0 <= w → verify_reporter_signature pr vk now w = Ok tt →
  verify_reporter_signature (Proof_.set_observed_seq later pr) vk later w = Ok tt.
Proof.
  intros Hw. unfold verify_reporter_signature, signed_message. simpl. rewrite Z.sub_diag.
  unfold u64_saturate at 2, clamp. change (Z.max 0 (Z.min U64_MAX 0)) with 0. rewrite (proj2 (Z.ltb_ge w 0)) by done.
  by destruct (_ <? _).
Qed.
End props.
