(* ===== verification/EscrowWitness.v ===== *)
(** * The collateral vault: concrete vaults

    The theorems of [EscrowProps] applied to the vault of the property tests, with a toy
    signature scheme, and calls that do not do what the comments say. *)

From stdpp Require Import prelude strings gmap list.
From S2P Require Import Prelude Contract Escrow EscrowFacts EscrowYield EscrowProps.
Import PositionStatus (Locked, Disputed, Slashed, Released, Forfeited).
Import Vault (config, positions, next_id, slashed_reserve, yield_pool, ledger).
Local Open Scope Z_scope.

(** A key of 32 bytes signs a message with itself and the sum of the message. *)
Definition toy_sign (vk msg : bytes) : bytes := vk ++ replicate 32 (sumZ msg).
#[local] Instance toy_ed25519 : Ed25519 :=
  {| valid_key vk := (length vk =? 32)%nat; verify vk msg sig := bool_decide (sig = toy_sign vk msg) |}.
#[local] Instance list_order : MapOrder Z :=
  {| order_of V m := map_to_list m; order_of_perm V m := Permutation_refl _ |}.

Definition addr (b : Z) : Address := replicate 32 b.
Definition test_config : VaultConfig.t := VaultConfig.mk (addr 1) (addr 2) 100 30 50 6000 10000 ∅.
Definition new_vault : Vault.t := Vault.mk test_config ∅ 1 0 0 ∅.
Definition downtime : Proof_.t :=
  Proof_.mk Downtime (addr 64) (addr 5) 0 0 (addr 9) (toy_sign (addr 9) (downtime_payload Downtime (addr 64) (addr 5))).

Definition setup : list vault_call :=
  [AddReporter (addr 1) (addr 9) (addr 9); Fund (addr 3) 5000; Fund (addr 4) 7000; Fund (addr 10) 10000;
   Deposit (addr 3) (addr 64) (addr 0) 5000 0; Deposit (addr 4) (addr 65) (addr 0) 7000 0; CreditYield (addr 10) 1234].
Definition session : list vault_call :=
  setup ++ [DistributeYield; SubmitDowntimeProof downtime 5; CreditYield (addr 10) 99; OpenDispute (addr 1) 2 10;
            ReleaseCollateral (addr 3) 1 99; ClaimSlashed (addr 2) 1].

Definition vault_after (cs : list vault_call) : Vault.t := default new_vault (run_calls cs new_vault).

Definition runs (cs : list vault_call) : bool := if run_calls cs new_vault then true else false.
Lemma vault_after_run cs : runs cs = true → run_calls cs new_vault = Some (vault_after cs).
Proof. unfold runs, vault_after. by destruct (run_calls cs new_vault). Qed.

Lemma session_honest : Forall honest session.
Proof. repeat constructor; simpl; try lia; by apply (bool_decide_unpack _). Qed.
Lemma session_typed : Forall typed session.
Proof. repeat constructor; simpl; unfold I128_MAX; lia. Qed.
Lemma session_prudent : Forall (prudent test_config) session.
Proof. repeat constructor; simpl; try (unfold U64_MAX; lia); by apply (bool_decide_unpack _). Qed.

Lemma setup_reachable : reachable (vault_after setup).
Proof.
  exists test_config, new_vault, setup. split_and!; [by repeat split|by vm_compute| | |].
  - exact (proj1 (proj1 (Forall_app honest setup _) session_honest)).
  - exact (proj1 (proj1 (Forall_app typed setup _) session_typed)).
  - apply vault_after_run. by vm_compute.
Qed.

Lemma session_reachable : reachable (vault_after session).
Proof.
  exists test_config, new_vault, session.
  split_and!; [by repeat split|by vm_compute|apply session_honest|apply session_typed|apply vault_after_run; by vm_compute].
Qed.

Lemma vault_stays_solvent_witness : ∃ v, run_calls session new_vault = Some v ∧ 0 <= liabilities v <= token_balance v.
Proof.
  destruct (vault_stays_solvent test_config new_vault session) as (v & Hrun & Hl & _);
    [by repeat split|by vm_compute|apply session_honest|apply session_typed|]. exists v. exact (conj Hrun Hl).
Defined.

Lemma solvency_is_exact_witness : ∃ v, run_calls session new_vault = Some v ∧ assert_solvent v = Ok tt.
Proof.
  apply (solvency_is_exact test_config new_vault session);
    [by repeat split|by vm_compute|apply session_honest|apply session_typed|apply session_prudent|by vm_compute].
Defined.

(** The pool of 1234 is split 515 and 719: the unit left over goes to the smaller id. *)
Lemma yield_is_split_exactly_witness :
  ends distribute_yield
    (λ _ v', yield_pool v' = 0 ∧
       map_sum Position.unclaimed_yield (positions v')
       = map_sum Position.unclaimed_yield (positions (vault_after setup)) + yield_pool (vault_after setup) ∧
       ∀ i p, positions (vault_after setup) !! i = Some p → ∃ b, 0 <= b <= 1 ∧ positions v' !! i =
         Some (if Position.has_remainder p
               then Position.set_unclaimed_yield
                      (Position.unclaimed_yield p + Position.remainder p * yield_pool (vault_after setup) / total_weight (vault_after setup) + b) p
               else p))
    (λ _ v', v' = vault_after setup) (vault_after setup).
Proof. apply (yield_is_split_exactly (vault_after setup)); [apply setup_reachable|by vm_compute]. Defined.

Definition first_position : Position.t := Position.mk 1 (addr 3) (addr 64) (addr 0) 5000 0 0 0 0 0 100 Locked.

Lemma locked_collateral_is_released_witness : ∃ v',
  release_collateral (addr 3) 1 100 (vault_after setup) = Returned 5000 v' ∧
  balance_of (addr 3) (ledger v') = balance_of (addr 3) (ledger (vault_after setup)) + 5000.
Proof.
  destruct (locked_collateral_is_released (vault_after setup) 1 first_position 100) as (v' & Hr & Hb & _);
    [apply setup_reachable|by vm_compute|done|simpl; lia|by vm_compute|by vm_compute|]. exists v'. exact (conj Hr Hb).
Defined.

Lemma session_operators i p : positions (vault_after session) !! i = Some p → Position.operator p ≠ vault_address.
Proof.
  assert (forallb (λ ip, negb (bool_decide (Position.operator ip.2 = vault_address))) (map_to_list (positions (vault_after session))) = true)
    as Hall by (vm_compute; reflexivity).
  intros Hp%elem_of_map_to_list. rewrite forallb_forall in Hall. apply list_elem_of_In in Hp.
  specialize (Hall _ Hp). by apply negb_true_iff, bool_decide_eq_false in Hall.
Qed.

Lemma winding_down_empties_the_vault_witness : ∃ v',
  run_calls (wind_down (vault_after session)) (vault_after session) = Some v' ∧ token_balance v' = 0 ∧ liabilities v' = 0.
Proof.
  apply (winding_down_empties_the_vault (vault_after session));
    [apply session_reachable|by vm_compute|by vm_compute|by vm_compute|apply session_operators|by vm_compute].
Defined.

Definition slashed_position : Position.t := Position.mk 1 (addr 3) (addr 64) (addr 0) 5000 3000 0 0 0 0 100 Slashed.

Lemma slashes_are_justified_witness :
  justified (SubmitDowntimeProof downtime 5) (vault_after setup) 1 first_position slashed_position.
Proof.
  apply (slashes_are_justified (SubmitDowntimeProof downtime 5) (vault_after setup) (vault_after (setup ++ [SubmitDowntimeProof downtime 5])));
    [apply setup_reachable|done|by vm_compute|by vm_compute|by vm_compute|simpl; lia].
Defined.

Lemma downtime_proofs_never_expire_witness :
  verify_reporter_signature (Proof_.set_observed_seq 1000000 downtime) (addr 9) 1000000 50 = Ok tt.
Proof. apply (downtime_proofs_never_expire downtime (addr 9) 5 50 1000000); [lia|by vm_compute]. Defined.

(** A deposit whose lockup ends beyond the clock fails, and keeps the tokens and the id. *)
Example failed_deposit_takes_the_tokens :
  let v := vault_after [Fund (addr 3) 5000] in
  match deposit (addr 3) (addr 64) (addr 0) 5000 U64_MAX v with
  | Raised e v' => e = Overflow ∧ balance_of (addr 3) (ledger v') = 0 ∧ token_balance v' = 5000 ∧
                   positions v' = ∅ ∧ next_id v' = 2 ∧ assert_solvent v' = Err Overflow
  | _ => False
  end.
Proof. by vm_compute. Qed.

(** The vault's own address can deposit what it holds for others: nothing backs it. *)
Example vault_can_deposit_its_own_tokens :
  let v := vault_after (setup ++ [Deposit vault_address (addr 66) (addr 0) 5000 0]) in assert_solvent v = Err InsufficientBalance.
Proof. by vm_compute. Qed.

(** The unit that rounding leaves over goes to the smallest id, not to the largest
    remainder: the shares of 5000 and 7000 of 1234 are 514.17 and 719.83. *)
Example leftover_goes_to_the_smallest_id :
  let v := vault_after (setup ++ [DistributeYield]) in
  Position.unclaimed_yield <$> positions v !! 1 = Some 515 ∧ Position.unclaimed_yield <$> positions v !! 2 = Some 719.
Proof. by vm_compute. Qed.
