(* ===== verification/HashTree.v ===== *)
(** * Trees of hashes

    The loops that build a tree over a list level by level, as the Merkle primitive and the
    audit chain write them, and what both need of them: the loops end, and a root binds the
    list up to a collision.  The strings a computation hashes are named, so that a breach is
    not the mere existence of a collision, which any digest of fixed length has, but two
    different strings among those that were hashed: [collides]. *)

From stdpp Require Import prelude list.
From S2P Require Import Prelude.

(** Lists of neighbours: induction two elements at a time. *)
Lemma pairs_ind {A} (P : list A → Prop) :
  P [] → (∀ x, P [x]) → (∀ x y l, P l → P (x :: y :: l)) → ∀ l, P l.
Proof.
  intros H0 H1 H2 l. enough (P l ∧ ∀ x, P (x :: l)) by tauto.
  induction l as [|y l [IH1 IH2]]; split; auto.
Qed.

(** ** Levels *)

Section levels.
Context {A : Type} (node : A → A → A).
Implicit Types (level : list A) (n m : nat).

(** The inner loop: pairs of neighbours, the last node with itself when their number is odd. *)
Fixpoint pair_up level : list A :=
  match level with
  | [] => []
  | [l] => [node l l]
  | l :: r :: rest => node l r :: pair_up rest
  end.

(** The outer loop, [while level.len() > 1 { .. }], and [level[0]]. *)
Fixpoint fold_levels n level : option A :=
  if 1 <? length level then
    match n with
    | 0 => None
    | S n => fold_levels n (pair_up level)
    end
  else level !! 0.

Lemma pair_up_length level : length (pair_up level) = (length level + 1) / 2.
Proof.
  induction level as [| |x y l IH] using pairs_ind; [done..|]. cbn [pair_up length]. rewrite IH.
  replace (S (S (length l)) + 1) with (1 * 2 + (length l + 1)) by lia. by rewrite Nat.div_add_l by lia.
Qed.

Lemma half_shrinks n : 1 < n → 1 ≤ (n + 1) / 2 < n.
Proof. intros. pose proof (Nat.div_mod_eq (n + 1) 2). pose proof (Nat.mod_upper_bound (n + 1) 2). lia. Qed.

(** The number of nodes is fuel enough, and more changes nothing. *)
Lemma fold_levels_fuel n m level :
  length level ≤ n → length level ≤ m → fold_levels n level = fold_levels m level.
Proof.
  revert m level. induction n as [|n IH]; intros m level Hn Hm.
  - destruct level; [by destruct m|simpl in Hn; lia].
  - destruct m as [|m]; [destruct level; [done|simpl in Hm; lia]|]. simpl.
    destruct (Nat.ltb_spec 1 (length level)) as [Hl|Hl]; [|done].
    pose proof (pair_up_length level). pose proof (half_shrinks _ Hl). apply IH; lia.
Qed.

Lemma fold_levels_returns n level : level ≠ [] → length level ≤ n → ∃ r, fold_levels n level = Some r.
Proof.
  revert level. induction n as [|n IH]; intros level Hne Hn.
  - destruct level; [done|simpl in Hn; lia].
  - simpl. destruct (Nat.ltb_spec 1 (length level)) as [Hl|Hl].
    + pose proof (pair_up_length level) as Hnl. pose proof (half_shrinks _ Hl).
      apply IH; [|lia]. intros Hnil. rewrite Hnil in Hnl. cbn [length] in Hnl. lia.
    + destruct level as [|x ?]; [done|by exists x].
Qed.

(** A property of the nodes that holds of the leaves and of every parent holds of the root. *)
Lemma fold_levels_keeps (P : A → Prop) n level r :
  (∀ level, Forall P level → Forall P (pair_up level)) →
  Forall P level → fold_levels n level = Some r → P r.
Proof.
  intros HP. revert level. induction n as [|n IH]; intros level Hl; simpl.
  all: destruct (1 <? length level); [try done|intros Hr; by eapply Forall_lookup_1].
  by apply IH, HP.
Qed.

(** The last node of an odd level may be repeated. *)
Lemma pair_up_repeats level x :
  Nat.Even (length level) → pair_up (level ++ [x]) = pair_up (level ++ [x; x]).
Proof.
  induction level as [|y|y z level IH] using pairs_ind; simpl; intros Hev; [done|by destruct Hev; lia|].
  rewrite IH; [done|]. destruct Hev as [k Hk]. exists (k - 1). lia.
Qed.
End levels.

(** ** Collisions *)

Section collisions.
Context {A B : Type} `{EqDecision B} (hash : B → A).
Implicit Types (xs ys : list B).

(** Two different strings, one of each list, with the same digest. *)
Definition collides xs ys : Prop := ∃ x y, x ∈ xs ∧ y ∈ ys ∧ x ≠ y ∧ hash x = hash y.

Lemma collides_subseteq xs xs' ys ys' : xs ⊆ xs' → ys ⊆ ys' → collides xs ys → collides xs' ys'.
Proof. intros ?? (x & y & ?). exists x, y. naive_solver. Qed.

Lemma same_digest xs ys x y : x ∈ xs → y ∈ ys → hash x = hash y → x = y ∨ collides xs ys.
Proof. intros. destruct (decide (x = y)); [by left|]. right. by exists x, y. Qed.

Lemma same_digests xs ys : hash <$> xs = hash <$> ys → xs = ys ∨ collides xs ys.
Proof.
  revert ys. induction xs as [|x xs IH]; intros [|y ys] Heq; simplify_eq/=; [by left|].
  destruct (IH ys) as [->|?]; [done| |right; eapply collides_subseteq; [..|done]; set_solver].
  destruct (decide (x = y)) as [->|]; [by left|]. right. exists x, y. set_solver.
Qed.
End collisions.

(** ** A root binds the list under it *)

Section binding.
Context {A B : Type} `{EqDecision B} (hash : B → A) (input : A → A → B) (valid : A → Prop).
Implicit Types (level : list A).

Definition node_of (l r : A) : A := hash (input l r).

(** What the loops hash. *)
Fixpoint pair_inputs level : list B :=
  match level with
  | [] => []
  | [l] => [input l l]
  | l :: r :: rest => input l r :: pair_inputs rest
  end.

Fixpoint tree_inputs (n : nat) level : list B :=
  if 1 <? length level then
    match n with
    | 0 => []
    | S n => pair_inputs level ++ tree_inputs n (pair_up node_of level)
    end
  else [].

Lemma pair_up_inputs level : pair_up node_of level = hash <$> pair_inputs level.
Proof using Type. induction level using pairs_ind; csimpl; [done..|]. by rewrite IHlevel. Qed.

Context (hash_valid : ∀ b, valid (hash b)).
Context (input_inj : ∀ l r l' r', valid l → valid l' → input l r = input l' r' → l = l' ∧ r = r').

Lemma pair_up_valid level : Forall valid (pair_up node_of level).
Proof using hash_valid. rewrite pair_up_inputs. apply Forall_fmap, Forall_forall. intros. apply hash_valid. Qed.

Lemma pair_inputs_inj l1 l2 :
  length l1 = length l2 → Forall valid l1 → Forall valid l2 → pair_inputs l1 = pair_inputs l2 → l1 = l2.
Proof using input_inj.
  revert l2. induction l1 as [|x|x y l1 IH] using pairs_ind; intros l2 Hlen H1 H2 Heq.
  - by destruct l2.
  - destruct l2 as [|x' [|]]; [done| |done]. rewrite Forall_singleton in H1, H2.
    injection Heq as Heq. by apply input_inj in Heq as [-> _].
  - destruct l2 as [|x' [|y' l2]]; [done..|]. injection Hlen as Hlen.
    apply Forall_cons in H1 as [Hx [Hy H1]%Forall_cons]. apply Forall_cons in H2 as [Hx' [Hy' H2]%Forall_cons].
    injection Heq as Hxy Heq. apply input_inj in Hxy as [-> ->]; [|done..]. by rewrite (IH l2).
Qed.

Lemma fold_levels_binds n l1 l2 r :
  length l1 = length l2 → Forall valid l1 → Forall valid l2 →
  fold_levels node_of n l1 = Some r → fold_levels node_of n l2 = Some r →
  l1 = l2 ∨ collides hash (tree_inputs n l1) (tree_inputs n l2).
Proof using EqDecision0 hash_valid input_inj.
  revert l1 l2. induction n as [|n IH]; intros l1 l2 Hlen H1 H2; simpl; rewrite <- Hlen.
  all: destruct (Nat.ltb_spec 1 (length l1)) as [Hl|Hl].
  2,4: destruct l1 as [|? [|]], l2 as [|? [|]]; simplify_eq/=; try lia; intros; simplify_eq; by left.
  - done.
  - intros Hr1 Hr2. destruct (IH (pair_up node_of l1) (pair_up node_of l2)) as [Heq|Hc]; try done.
    { by rewrite !pair_up_length, Hlen. } 1,2: apply pair_up_valid.
    + rewrite !pair_up_inputs in Heq. apply same_digests in Heq as [Heq|Hc].
      * left. by apply pair_inputs_inj.
      * right. eapply collides_subseteq; [..|exact Hc]; set_solver.
    + right. eapply collides_subseteq; [..|exact Hc]; set_solver.
Qed.
End binding.
