(* ===== verification/Merkle.v ===== *)
(** * The Merkle proof primitive

    [src/src/contracts/merkle_proof/verify.rs] (hashing, proofs, roots) and [lib.rs] (the
    registry of roots, as calls on a [MerkleVerifier]).  The two hash functions are of other
    crates: the class [Digests], of which only the length of a digest is known.  A digest,
    [[u8; 32]], is a list of bytes.  The loops that build a tree level by level are
    those of [HashTree]; they take fuel, and an index that the code reads is a lookup, [None]
    where it would panic. *)

From stdpp Require Import prelude gmap list strings.
From S2P Require Import Prelude Contract HashTree.

Abbreviation bytes := (list Z).

Definition LEAF_PREFIX : Z := 0.
Definition NODE_PREFIX : Z := 1.

Inductive HashAlgorithm : Type := Sha256 | Keccak256.
#[global] Instance HashAlgorithm_eq_dec : EqDecision HashAlgorithm.
Proof. solve_decision. Defined.

(** What [sha2] and [tiny_keccak] promise: digests of 32 bytes. *)
Class Digests : Type := {
  sha256 : bytes → bytes;
  keccak256 : bytes → bytes;
  sha256_length : ∀ d, length (sha256 d) = 32;
  keccak256_length : ∀ d, length (keccak256 d) = 32;
}.

(** ** Proofs *)

Inductive ProofSide : Type := Left | Right.

Record ProofElement : Type := { sibling : bytes; side : ProofSide }.

Record LeafProof : Type := { leaf_data : bytes; proof : list ProofElement }.

Section verify.
Context `{!Digests}.

Definition hash_bytes (alg : HashAlgorithm) (data : bytes) : bytes :=
  match alg with Sha256 => sha256 data | Keccak256 => keccak256 data end.

Definition hash_leaf (alg : HashAlgorithm) (data : bytes) : bytes :=
  hash_bytes alg (LEAF_PREFIX :: data).

Definition hash_node (alg : HashAlgorithm) (l r : bytes) : bytes :=
  hash_bytes alg (NODE_PREFIX :: l ++ r).

(** One turn of the loop of [verify_proof]. *)
Definition climb_step (alg : HashAlgorithm) (current : bytes) (elem : ProofElement) : bytes :=
  match elem.(side) with
  | Left => hash_node alg elem.(sibling) current
  | Right => hash_node alg current elem.(sibling)
  end.

Definition verify_proof (alg : HashAlgorithm) (leaf_data : bytes) (proof : list ProofElement)
    (expected_root : bytes) : bool :=
  let current := foldl (climb_step alg) (hash_leaf alg leaf_data) proof in
  bool_decide (current = expected_root).

Definition verify_multiproof (alg : HashAlgorithm) (leaves : list LeafProof) (expected_root : bytes) : bool :=
  match leaves with
  | [] => false
  | _ => forallb (λ lp, verify_proof alg lp.(leaf_data) lp.(proof) expected_root) leaves
  end.

(** ** Roots *)

(** The two loops, with the nodes of the primitive. *)
Definition next_level (alg : HashAlgorithm) : list bytes → list bytes := pair_up (hash_node alg).
Definition root_loop (alg : HashAlgorithm) : nat → list bytes → option bytes := fold_levels (hash_node alg).

Definition compute_root_from_hashes (alg : HashAlgorithm) (leaf_hashes : list bytes) : option bytes :=
  match leaf_hashes with
  | [] => Some (replicate 32 0%Z)
  | _ => root_loop alg (length leaf_hashes) leaf_hashes
  end.

Definition compute_root (alg : HashAlgorithm) (leaves : list bytes) : option bytes :=
  match leaves with
  | [] => Some (replicate 32 0%Z)
  | _ => root_loop alg (length leaves) (hash_leaf alg <$> leaves)
  end.

(** ** Generation of a proof *)

Definition sibling_index (level : list bytes) (index : nat) : nat :=
  if (index mod 2 =? 0)%nat then (index + 1) `min` (length level - 1) else index - 1.

Fixpoint proof_loop (alg : HashAlgorithm) (fuel : nat) (level : list bytes) (index : nat) : option (list ProofElement) :=
  if 1 <? length level then
    match fuel with
    | 0 => None
    | S fuel =>
        let j := sibling_index level index in
        s ← level !! j;
        rest ← proof_loop alg fuel (next_level alg level) (index / 2);
        Some ({| sibling := s; side := if j <? index then Left else Right |} :: rest)
    end
  else Some [].

(** [None] of the code is [Some None]; [None] is a panic. *)
Definition generate_proof (alg : HashAlgorithm) (leaves : list bytes) (leaf_index : nat) : option (option (list ProofElement)) :=
  if length leaves <=? leaf_index then Some None
  else p ← proof_loop alg (length leaves) (hash_leaf alg <$> leaves) leaf_index; Some (Some p).
End verify.

(** ** The registry of roots *)

Inductive MerkleError : Type :=
| Unauthorized (caller : string)
| RootNotFound (epoch : Z)
| RootExpired (epoch stored current ttl : Z)
| ProofInvalid (epoch : Z)
| MultiProofInvalid (epoch : Z)
| RootAlreadyExists (epoch : Z).

Record MerkleRoot : Type := {
  root : bytes;
  mr_epoch : Z;
  mr_algorithm : string;
  expires_at : Z;
  submitted_by : string;
}.

Record MerkleVerifier : Type := {
  authority : string;
  root_ttl : Z;
  roots : gmap Z MerkleRoot;
  algorithm : HashAlgorithm;
}.

Definition set_roots (r : gmap Z MerkleRoot) (v : MerkleVerifier) : MerkleVerifier :=
  {| authority := v.(authority); root_ttl := v.(root_ttl); roots := r; algorithm := v.(algorithm) |}.

Abbreviation merkle A := (call MerkleVerifier MerkleError A).

Definition algo_name (alg : HashAlgorithm) : string :=
  match alg with Sha256 => "sha256" | Keccak256 => "keccak256" end.

Definition new (authority : string) (root_ttl : Z) (algorithm : HashAlgorithm) : MerkleVerifier :=
  {| authority := authority; root_ttl := root_ttl; roots := ∅; algorithm := algorithm |}.

Definition require_authority (caller : string) : merkle unit :=
  v ← get;
  if bool_decide (caller = v.(authority)) then mret tt else throw (Unauthorized caller).

(** The record both submissions insert. *)
Definition root_record (v : MerkleVerifier) (epoch : Z) (r : bytes) (caller : string) (current_epoch : Z) : MerkleRoot :=
  {| root := r; mr_epoch := epoch; mr_algorithm := algo_name v.(algorithm);
     expires_at := as_u64 (current_epoch + v.(root_ttl)); submitted_by := caller |}.

Definition submit_root (epoch : Z) (r : bytes) (caller : string) (current_epoch : Z) : merkle unit :=
  require_authority caller;;
  v ← get;
  reject_if (bool_decide (is_Some (v.(roots) !! epoch))) (RootAlreadyExists epoch);;
  modify (set_roots (<[epoch := root_record v epoch r caller current_epoch]> v.(roots))).

Definition overwrite_root (epoch : Z) (r : bytes) (caller : string) (current_epoch : Z) : merkle unit :=
  require_authority caller;;
  v ← get;
  modify (set_roots (<[epoch := root_record v epoch r caller current_epoch]> v.(roots))).

Definition evict_expired (current_epoch : Z) : merkle nat :=
  v ← get;
  let before := size v.(roots) in
  let kept := filter (λ kr, (current_epoch < kr.2.(expires_at))%Z) v.(roots) in
  modify (set_roots kept);;
  mret (before - size kept).

Definition get_root (v : MerkleVerifier) (epoch current_epoch : Z) : option MerkleRoot :=
  r ← v.(roots) !! epoch;
  if (current_epoch <? r.(expires_at))%Z then Some r else None.

Definition require_root (epoch current_epoch : Z) : merkle MerkleRoot :=
  v ← get;
  record ← ok_or (v.(roots) !! epoch) (RootNotFound epoch);
  reject_if (record.(expires_at) <=? current_epoch)%Z
    (RootExpired epoch record.(mr_epoch) current_epoch v.(root_ttl));;
  mret record.

Section entry.
Context `{!Digests}.

Definition verify (epoch : Z) (leaf_data : bytes) (proof : list ProofElement) (current_epoch : Z) : merkle unit :=
  record ← require_root epoch current_epoch;
  v ← get;
  if verify_proof v.(algorithm) leaf_data proof record.(root) then mret tt
  else throw (ProofInvalid epoch).

Definition verify_multi (epoch : Z) (leaves : list LeafProof) (current_epoch : Z) : merkle unit :=
  record ← require_root epoch current_epoch;
  v ← get;
  if verify_multiproof v.(algorithm) leaves record.(root) then mret tt
  else throw (MultiProofInvalid epoch).
End entry.
