(* ===== verification/MerkleFacts.v ===== *)
(** * Facts about the Merkle proof primitive

    The strings that a root and a proof hash ([root_inputs], [proof_inputs]), what a root
    commits to up to a collision among them, and that generated proofs verify. *)

From stdpp Require Import prelude gmap list strings.
From S2P Require Import Prelude Contract HashTree Merkle.

Section tree.
Context `{!Digests}.
Implicit Types (alg : HashAlgorithm) (level leaves : list bytes).

Lemma hash_bytes_length alg d : length (hash_bytes alg d) = 32.
Proof. destruct alg; [apply sha256_length|apply keccak256_length]. Qed.

Definition digest (h : bytes) : Prop := length h = 32.

(** ** The strings that are hashed *)

Definition node_input (l r : bytes) : bytes := NODE_PREFIX :: l ++ r.

Definition root_inputs alg leaves : list bytes :=
  (cons LEAF_PREFIX <$> leaves)
  ++ tree_inputs (hash_bytes alg) node_input (length leaves) (hash_leaf alg <$> leaves).

Definition step_input (h : bytes) (e : ProofElement) : bytes :=
  NODE_PREFIX :: match e.(side) with Left => e.(sibling) ++ h | Right => h ++ e.(sibling) end.

Fixpoint climb_inputs alg (h : bytes) (p : list ProofElement) : list bytes :=
  match p with
  | [] => []
  | e :: p' => step_input h e :: climb_inputs alg (climb_step alg h e) p'
  end.

Definition proof_inputs alg (leaf : bytes) (p : list ProofElement) : list bytes :=
  (LEAF_PREFIX :: leaf) :: climb_inputs alg (hash_leaf alg leaf) p.

Lemma climb_step_input alg h e : climb_step alg h e = hash_bytes alg (step_input h e).
Proof. by destruct e as [? []]. Qed.

Lemma climb_inputs_snoc alg p h e :
  climb_inputs alg h (p ++ [e]) = climb_inputs alg h p ++ [step_input (foldl (climb_step alg) h p) e].
Proof. revert h. induction p as [|e' p IH]; intros h; simpl; [done|]. by rewrite IH. Qed.

(** ** The loops end *)

Lemma node_input_inj l r l' r' : digest l → digest l' → node_input l r = node_input l' r' → l = l' ∧ r = r'.
Proof. unfold digest. intros Hl Hl' [= Heq]. apply app_inj_1 in Heq; [done|congruence]. Qed.

Lemma next_level_length alg level : length (next_level alg level) = (length level + 1) / 2.
Proof. apply pair_up_length. Qed.

Lemma compute_root_unfold alg leaves :
  leaves ≠ [] → compute_root alg leaves = root_loop alg (length leaves) (hash_leaf alg <$> leaves).
Proof. by destruct leaves. Qed.

Lemma hash_leaves_digests alg leaves : Forall digest (hash_leaf alg <$> leaves).
Proof. apply Forall_fmap, Forall_forall. intros. apply hash_bytes_length. Qed.

Lemma compute_root_returns alg leaves : ∃ r, compute_root alg leaves = Some r ∧ digest r.
Proof.
  destruct (decide (leaves = [])) as [->|Hne]; [by eexists|].
  rewrite compute_root_unfold by done.
  destruct (fold_levels_returns (hash_node alg) (length leaves) (hash_leaf alg <$> leaves)) as [r Hr];
    [by destruct leaves|by rewrite length_fmap|].
  exists r. split; [done|]. revert Hr. apply fold_levels_keeps; [|apply hash_leaves_digests].
  intros level _. apply (pair_up_valid (hash_bytes alg) node_input). apply hash_bytes_length.
Qed.

(** ** What a root commits to *)

(** The nodes of the tree over [leaves], whose computation hashed the strings [inputs]. *)
Inductive committed alg leaves (inputs : list bytes) : bytes → Prop :=
| committed_leaf d :
    d ∈ leaves → (LEAF_PREFIX :: d) ∈ inputs → committed alg leaves inputs (hash_leaf alg d)
| committed_node l r :
    committed alg leaves inputs l → committed alg leaves inputs r →
    (NODE_PREFIX :: l ++ r) ∈ inputs → committed alg leaves inputs (hash_node alg l r).

Lemma committed_digest alg leaves inputs h : committed alg leaves inputs h → digest h.
Proof. intros []; apply hash_bytes_length. Qed.

Lemma next_level_committed alg leaves inputs level :
  Forall (committed alg leaves inputs) level → pair_inputs node_input level ⊆ inputs →
  Forall (committed alg leaves inputs) (next_level alg level).
Proof.
  induction level as [|l|l r level IH] using pairs_ind; simpl; intros Hc Hsub; [done| |].
  - rewrite Forall_singleton in Hc |- *. apply committed_node; [done..|]. apply Hsub. set_solver.
  - apply Forall_cons in Hc as [? [? ?]%Forall_cons]. constructor; [|apply IH; set_solver].
    apply committed_node; [done..|]. apply Hsub. set_solver.
Qed.

Lemma root_loop_committed alg leaves inputs n level r :
  Forall (committed alg leaves inputs) level → tree_inputs (hash_bytes alg) node_input n level ⊆ inputs →
  root_loop alg n level = Some r → committed alg leaves inputs r.
Proof.
  revert level. induction n as [|n IH]; intros level Hc; simpl.
  all: destruct (1 <? length level); [try done|intros _ Hr; by eapply Forall_lookup_1].
  intros Hsub. apply IH; [apply next_level_committed; [done|]|]; set_solver.
Qed.

Lemma compute_root_committed alg leaves r :
  leaves ≠ [] → compute_root alg leaves = Some r → committed alg leaves (root_inputs alg leaves) r.
Proof.
  intros Hne. rewrite compute_root_unfold by done. apply root_loop_committed; [|set_solver].
  apply Forall_fmap, Forall_forall. intros d Hd. apply committed_leaf; [done|].
  apply elem_of_app. left. by apply list_elem_of_fmap_2.
Qed.

(** One step down a proof: the node that was hashed last, or a collision. *)
Lemma committed_step alg leaves inputs h e ys :
  digest h → digest e.(sibling) → step_input h e ∈ ys →
  committed alg leaves inputs (climb_step alg h e) →
  committed alg leaves inputs h ∨ collides (hash_bytes alg) inputs ys.
Proof.
  intros Hh He Hys. rewrite climb_step_input. inversion 1 as [d ? Hin Heq|l r Hl Hr Hin Heq].
  - right. by exists (LEAF_PREFIX :: d), (step_input h e).
  - destruct (same_digest _ _ _ _ _ Hin Hys Heq) as [[= Hlr]|?]; [left|by right].
    pose proof (committed_digest _ _ _ _ Hl). unfold digest in *.
    destruct (side e); apply app_inj_1 in Hlr as [-> ->]; congruence.
Qed.

Lemma climb_digest alg leaf p : digest (foldl (climb_step alg) (hash_leaf alg leaf) p).
Proof.
  destruct p as [|e p _] using rev_ind; [apply hash_bytes_length|].
  rewrite foldl_app. simpl. rewrite climb_step_input. apply hash_bytes_length.
Qed.

Lemma committed_climb alg leaves inputs leaf p :
  Forall (λ e, digest e.(sibling)) p →
  committed alg leaves inputs (foldl (climb_step alg) (hash_leaf alg leaf) p) →
  committed alg leaves inputs (hash_leaf alg leaf) ∨ collides (hash_bytes alg) inputs (proof_inputs alg leaf p).
Proof.
  induction p as [|e p IH] using rev_ind; [by left|]. rewrite Forall_app, Forall_singleton.
  intros [Hp He] Hc. rewrite foldl_app in Hc. simpl in Hc. unfold proof_inputs. rewrite climb_inputs_snoc.
  destruct (committed_step alg leaves inputs _ e
    ((LEAF_PREFIX :: leaf) :: climb_inputs alg (hash_leaf alg leaf) p
      ++ [step_input (foldl (climb_step alg) (hash_leaf alg leaf) p) e]) (climb_digest alg leaf p) He) as [Hc'|?];
    [set_solver|done| |by right].
  destruct (IH Hp Hc') as [?|Hcol]; [by left|right].
  eapply collides_subseteq; [done| |exact Hcol]. set_solver.
Qed.

(** A leaf that verifies against a root was committed to, or strings that were hashed collide. *)
Lemma verify_proof_sound alg leaves leaf p r :
  leaves ≠ [] → Forall (λ e, digest e.(sibling)) p →
  compute_root alg leaves = Some r → verify_proof alg leaf p r = true →
  leaf ∈ leaves ∨ collides (hash_bytes alg) (root_inputs alg leaves) (proof_inputs alg leaf p).
Proof.
  intros Hne Hp Hr Hv%bool_decide_eq_true_1.
  pose proof (compute_root_committed _ _ _ Hne Hr) as Hc. rewrite <- Hv in Hc.
  destruct (committed_climb _ _ _ _ _ Hp Hc) as [Hl|?]; [|by right].
  inversion Hl as [d Hd Hin Heq|l' r' _ _ Hin Heq].
  - destruct (same_digest (hash_bytes alg) _ (proof_inputs alg leaf p) _ (LEAF_PREFIX :: leaf) Hin) as [[= <-]|?];
      [set_solver|done|by left|by right].
  - right. exists (NODE_PREFIX :: l' ++ r'), (LEAF_PREFIX :: leaf). set_solver.
Qed.
(** ** A root determines its leaves *)

(** A root binds the leaves it was computed from: two lists of leaves of the same length
    with the same root are the same list, or two different strings that were hashed for them
    have the same digest. *)
Theorem roots_bind_the_leaves alg leaves1 leaves2 :
  length leaves1 = length leaves2 → compute_root alg leaves1 = compute_root alg leaves2 →
  leaves1 = leaves2 ∨ collides (hash_bytes alg) (root_inputs alg leaves1) (root_inputs alg leaves2).
Proof.
  intros Hlen Heq. destruct (compute_root_returns alg leaves2) as (r & Hr & _). rewrite Hr in Heq.
  destruct (decide (leaves1 = [])) as [->|Hne1]; [left; by destruct leaves2|].
  assert (leaves2 ≠ []) as Hne2 by (by intros ->; destruct leaves1).
  rewrite compute_root_unfold in Heq, Hr by done. rewrite <- Hlen in Hr.
  destruct (fold_levels_binds (hash_bytes alg) node_input digest (hash_bytes_length alg) node_input_inj
    (length leaves1) (hash_leaf alg <$> leaves1) (hash_leaf alg <$> leaves2) r)
    as [Hh|Hc]; [by rewrite !length_fmap|apply hash_leaves_digests..|done|done| |].
  - assert (hash_bytes alg <$> (cons LEAF_PREFIX <$> leaves1) = hash_bytes alg <$> (cons LEAF_PREFIX <$> leaves2))
      as Hh' by (by rewrite <- !list_fmap_compose).
    apply same_digests in Hh' as [Hl|Hc].
    + left. eapply list_fmap_eq_inj; [|exact Hl]. by intros ?? [= ->].
    + right. eapply collides_subseteq; [..|exact Hc]; set_solver.
  - right. eapply collides_subseteq; [..|exact Hc]; unfold root_inputs; rewrite ?Hlen; set_solver.
Qed.

(** The root does not bind the number of leaves: repeating the last of an odd number of
    leaves, three or more, leaves the root as it was, with no collision of the hash. *)
Theorem repeated_last_leaf_keeps_the_root alg leaves x :
  leaves ≠ [] → Nat.Even (length leaves) →
  compute_root alg (leaves ++ [x]) = compute_root alg (leaves ++ [x; x]).
Proof.
  intros Hne Hev. rewrite !compute_root_unfold by (by destruct leaves). rewrite !fmap_app, !length_app.
  assert (1 < length leaves) by (destruct leaves as [|? [|]]; simpl in *; [done|by destruct Hev; lia|lia]).
  cbn [length]. unfold root_loop. rewrite (fold_levels_fuel _ (length leaves + 1) (length leaves + 2)) by
    (rewrite length_app, length_fmap; simpl; lia).
  replace (length leaves + 2) with (S (length leaves + 1)) by lia. simpl.
  rewrite !length_app, !length_fmap; cbn [length].
  rewrite !(proj2 (Nat.ltb_lt _ _)) by lia. f_equal. apply pair_up_repeats. by rewrite length_fmap.
Qed.

(** ** Generated proofs *)

Lemma sibling_index_lookup level index h :
  1 < length level → level !! index = Some h → ∃ s, level !! sibling_index level index = Some s.
Proof.
  intros Hl Hi%lookup_lt_Some. apply lookup_lt_is_Some. unfold sibling_index.
  destruct (_ =? 0)%nat; lia.
Qed.

(** The parent of a node on the next level. *)
Lemma next_level_parent alg level index h s :
  level !! index = Some h → level !! sibling_index level index = Some s →
  next_level alg level !! (index / 2) =
    Some (climb_step alg h {| sibling := s; side := if sibling_index level index <? index then Left else Right |}).
Proof.
  revert index. induction level as [|x|x y level IH] using pairs_ind; intros index Hi Hs.
  - done.
  - destruct index as [|index]; [|done]. by simplify_eq/=.
  - destruct index as [|[|index]]; [by simplify_eq/=..|].
    assert (sibling_index (x :: y :: level) (S (S index)) = S (S (sibling_index level index))) as Hsib.
    { apply lookup_lt_Some in Hi. simpl in Hi. unfold sibling_index.
      replace (S (S index)) with (index + 1 * 2) by lia. rewrite Nat.Div0.mod_add.
      destruct (Nat.eqb_spec (index mod 2) 0) as [|Hodd]; simpl length; [lia|].
      destruct index; [done|lia]. }
    rewrite Hsib in Hs |- *. simpl in Hi, Hs.
    replace (S (S index) / 2) with (S (index / 2)).
    2: { replace (S (S index)) with (index + 1 * 2) by lia. rewrite Nat.div_add by lia. lia. }
    transitivity (next_level alg level !! (index / 2)); [done|]. rewrite IH by done. do 4 f_equal.
Qed.

Lemma log2_up_half n : 1 < n → Nat.log2_up n = S (Nat.log2_up ((n + 1) / 2)).
Proof.
  intros Hn. apply Nat.log2_up_unique; [lia|]. cbn [Nat.pred].
  pose proof (Nat.div_mod_eq (n + 1) 2) as Hd. pose proof (Nat.mod_upper_bound (n + 1) 2 ltac:(lia)).
  set (m := (n + 1) / 2) in *. destruct (decide (m = 1)) as [->|]; [simpl; lia|].
  destruct (Nat.log2_up_spec m) as [Hlo Hhi]; [lia|].
  pose proof (Nat.log2_up_pos m ltac:(lia)). destruct (Nat.log2_up m) as [|k]; [lia|].
  simpl in Hlo, Hhi |- *. lia.
Qed.

(** Climbing from a node with the generated proof ends at the root. *)
Lemma proof_loop_climbs alg n level index h r :
  length level ≤ n → level !! index = Some h → root_loop alg n level = Some r →
  ∃ p, proof_loop alg n level index = Some p ∧ foldl (climb_step alg) h p = r
    ∧ length p = Nat.log2_up (length level).
Proof.
  revert level index h. induction n as [|n IH]; intros level index h Hn Hi Hr.
  - destruct level; [done|simpl in Hn; lia].
  - cbn [proof_loop]. unfold root_loop in Hr. cbn [fold_levels] in Hr. destruct (Nat.ltb_spec 1 (length level)) as [Hl|Hl].
    + destruct (sibling_index_lookup level index h Hl Hi) as [s Hs]. rewrite Hs. cbn [mbind option_bind].
      pose proof (half_shrinks _ Hl). pose proof (next_level_length alg level) as Hnl.
      destruct (IH (next_level alg level) (index / 2) _ ltac:(lia) (next_level_parent alg _ _ _ _ Hi Hs) Hr)
        as (p & -> & Hp & Hlen).
      eexists. split_and!; [done|done|]. simpl. by rewrite Hlen, Hnl, <- log2_up_half.
    + destruct level as [|x [|]]; [done| |simpl in Hl; lia]. destruct index; simplify_eq/=. by exists [].
Qed.

(** Proofs round trip: for every leaf of every list a proof is generated without a panic,
    it verifies against the root of the list, and it has one sibling for each doubling of
    the number of leaves. *)
Lemma generated_proofs_verify alg leaves i leaf :
  leaves !! i = Some leaf →
  ∃ p r, generate_proof alg leaves i = Some (Some p) ∧ compute_root alg leaves = Some r
    ∧ verify_proof alg leaf p r = true ∧ length p = Nat.log2_up (length leaves).
Proof.
  intros Hi. destruct (compute_root_returns alg leaves) as (r & Hr & _).
  assert (leaves ≠ []) as Hne by (by intros ->). rewrite compute_root_unfold in * by done.
  destruct (proof_loop_climbs alg (length leaves) (hash_leaf alg <$> leaves) i (hash_leaf alg leaf) r)
    as (p & Hp & Hf & Hlen); [by rewrite length_fmap|by rewrite list_lookup_fmap, Hi|done|].
  exists p, r. rewrite length_fmap in Hlen. split_and!; [|done|by apply bool_decide_eq_true_2|done].
  unfold generate_proof. rewrite (proj2 (Nat.leb_gt _ _)) by (by eapply lookup_lt_Some). by rewrite Hp.
Qed.
End tree.
