(* ===== verification/MerkleProps.v ===== *)
(** * The registry of Merkle roots over its life

    Histories of calls on a verifier, by anybody and with any arguments: which root an
    accepted proof was checked against, and that a published leaf stays provable. *)

From stdpp Require Import prelude gmap list strings.
From S2P Require Import Prelude Contract HashTree Merkle MerkleFacts.

Inductive op : Type :=
| Submit (epoch : Z) (r : bytes) (caller : string) (now : Z)
| Overwrite (epoch : Z) (r : bytes) (caller : string) (now : Z)
| Evict (now : Z)
| Verify (epoch : Z) (leaf : bytes) (p : list ProofElement) (now : Z)
| VerifyMulti (epoch : Z) (leaves : list LeafProof) (now : Z).

Section registry.
Context `{!Digests}.
Implicit Types (v : MerkleVerifier) (o : op) (h : list op).

(** The verifier after a call; no call panics ([op_keeps_config]). *)
Definition after {A} (m : merkle A) v : MerkleVerifier := default v (state_of (m v)).

Definition run_op v o : MerkleVerifier :=
  match o with
  | Submit e r c now => after (submit_root e r c now) v
  | Overwrite e r c now => after (overwrite_root e r c now) v
  | Evict now => after (evict_expired now) v
  | Verify e leaf p now => after (verify e leaf p now) v
  | VerifyMulti e ls now => after (verify_multi e ls now) v
  end.

Definition run v h : MerkleVerifier := foldl run_op v h.

(** [o] is a submission of [r] for [epoch] at [now] by [who]. *)
Definition publishes (who : string) (epoch : Z) (r : bytes) (now : Z) o : Prop :=
  o = Submit epoch r who now ∨ o = Overwrite epoch r who now.

Definition overwrites (who : string) (epoch : Z) o : Prop := ∃ r now, o = Overwrite epoch r who now.

Lemma after_ends {A} (m : merkle A) (P : MerkleVerifier → Prop) v :
  ends m (λ _, P) (λ _, P) v → P (after m v).
Proof. unfold ends, after. by destruct (m v). Qed.

(** ** Each call *)

Lemma require_authority_ends caller (Q : unit → MerkleVerifier → Prop) (X : MerkleError → MerkleVerifier → Prop) v :
  (caller = v.(authority) → Q tt v) → (caller ≠ v.(authority) → X (Unauthorized caller) v) →
  ends (require_authority caller) Q X v.
Proof. intros HQ HX. unfold require_authority. do 2 call_step. case_bool_decide; call_step; auto. Qed.

Lemma require_root_ends epoch now (Q : MerkleRoot → MerkleVerifier → Prop) (X : MerkleError → MerkleVerifier → Prop) v :
  (∀ r, get_root v epoch now = Some r → Q r v) → (∀ e, X e v) → ends (require_root epoch now) Q X v.
Proof.
  intros HQ HX. unfold require_root. repeat call_step; auto. apply HQ. unfold get_root.
  match goal with Hl : roots v !! epoch = Some _ |- _ => rewrite Hl end. simpl. by rewrite (proj2 (Z.ltb_lt _ _)).
Qed.

(** What a call can do to the root of an epoch: nothing, remove it once it has expired, or
    store what the authority submits. *)
Inductive root_effect v o (epoch : Z) v' : Prop :=
| root_kept : v'.(roots) !! epoch = v.(roots) !! epoch → ¬ overwrites v.(authority) epoch o → root_effect v o epoch v'
| root_evicted now rec :
    v'.(roots) !! epoch = None → o = Evict now → v.(roots) !! epoch = Some rec →
    (rec.(expires_at) <= now)%Z → root_effect v o epoch v'
| root_stored r now :
    v'.(roots) !! epoch = Some (root_record v epoch r v.(authority) now) → publishes v.(authority) epoch r now o →
    v.(roots) !! epoch = None ∨ overwrites v.(authority) epoch o → root_effect v o epoch v'.

Definition op_effect v o (epoch : Z) v' : Prop :=
  (authority v' = authority v ∧ root_ttl v' = root_ttl v ∧ algorithm v' = algorithm v) ∧ root_effect v o epoch v'.

Lemma unchanged_effect v o epoch : ¬ overwrites v.(authority) epoch o → op_effect v o epoch v.
Proof. intros. split; [done|]. by apply root_kept. Qed.

Lemma submit_root_effect v epoch e r c now :
  op_effect v (Submit e r c now) epoch (after (submit_root e r c now) v).
Proof.
  assert (∀ who, ¬ overwrites who epoch (Submit e r c now)) as Hno by (intros ? (?&?&?); done).
  apply (after_ends _ (op_effect v _ epoch)). unfold submit_root.
  apply ends_then, require_authority_ends; [intros ->|intros _; by apply unchanged_effect].
  repeat call_step; [by apply unchanged_effect|]. split; [done|].
  destruct (decide (epoch = e)) as [->|Hne].
  - eapply root_stored; simpl; [apply lookup_insert_eq|by left|left].
    by apply eq_None_not_Some.
  - apply root_kept; [|done]. simpl. by rewrite lookup_insert_ne.
Qed.

Lemma overwrite_root_effect v epoch e r c now :
  op_effect v (Overwrite e r c now) epoch (after (overwrite_root e r c now) v).
Proof.
  apply (after_ends _ (op_effect v _ epoch)). unfold overwrite_root.
  apply ends_then, require_authority_ends; [intros ->|intros ?; apply unchanged_effect; intros (?&?&?); by simplify_eq].
  repeat call_step. split; [done|]. destruct (decide (epoch = e)) as [->|Hne].
  - eapply root_stored; simpl; [apply lookup_insert_eq|by right|right; by eexists _, _].
  - apply root_kept; [simpl; by rewrite lookup_insert_ne|]. intros (?&?&?). by simplify_eq.
Qed.

Lemma evict_expired_effect v epoch now : op_effect v (Evict now) epoch (after (evict_expired now) v).
Proof.
  assert (∀ who, ¬ overwrites who epoch (Evict now)) as Hno by (intros ? (?&?&?); done).
  split; [done|]. unfold after, evict_expired. simpl.
  destruct (roots v !! epoch) as [rec|] eqn:Hrec.
  - destruct (decide (now < rec.(expires_at))%Z) as [Hlt|Hge].
    + apply root_kept; [|done]. simpl. rewrite Hrec. by apply map_lookup_filter_Some.
    + eapply root_evicted; [|done..|lia]. simpl. apply map_lookup_filter_None. right. intros ? ?. by simplify_eq/=.
  - apply root_kept; [|done]. simpl. rewrite Hrec. apply map_lookup_filter_None. by left.
Qed.

Lemma verify_effect v epoch o (m : merkle unit) :
  ends m (λ _ v', v' = v) (λ _ v', v' = v) v → ¬ overwrites v.(authority) epoch o → op_effect v o epoch (after m v).
Proof. intros Hm Ho. pose proof (after_ends _ (λ v', v' = v) _ Hm) as ->. by apply unchanged_effect. Qed.

Lemma verify_reads v e leaf p now : ends (verify e leaf p now) (λ _ v', v' = v) (λ _ v', v' = v) v.
Proof. unfold verify. apply ends_then, require_root_ends; [|done]. intros. by repeat call_step. Qed.

Lemma verify_multi_reads v e ls now : ends (verify_multi e ls now) (λ _ v', v' = v) (λ _ v', v' = v) v.
Proof. unfold verify_multi. apply ends_then, require_root_ends; [|done]. intros. by repeat call_step. Qed.

Lemma run_op_effect v o epoch : op_effect v o epoch (run_op v o).
Proof.
  destruct o; simpl.
  - apply submit_root_effect.
  - apply overwrite_root_effect.
  - apply evict_expired_effect.
  - apply verify_effect; [apply verify_reads|by intros (?&?&?)].
  - apply verify_effect; [apply verify_multi_reads|by intros (?&?&?)].
Qed.

Lemma run_snoc v h o : run v (h ++ [o]) = run_op (run v h) o.
Proof. unfold run. by rewrite foldl_app. Qed.

Lemma run_config v h :
  (run v h).(authority) = v.(authority) ∧ (run v h).(root_ttl) = v.(root_ttl) ∧ (run v h).(algorithm) = v.(algorithm).
Proof.
  induction h as [|o h IH] using rev_ind; [done|]. rewrite run_snoc.
  destruct (run_op_effect (run v h) o 0) as [(-> & -> & ->) _]. done.
Qed.

(** ** Where a stored root comes from *)

(** The last publication of an epoch in a history that starts from an empty registry. *)
Lemma stored_roots_were_published who ttl alg h epoch rec :
  (run (new who ttl alg) h).(roots) !! epoch = Some rec →
  ∃ h1 o h2 now, h = h1 ++ o :: h2 ∧ publishes who epoch rec.(root) now o
    ∧ rec.(expires_at) = as_u64 (now + ttl) ∧ Forall (λ o', ¬ overwrites who epoch o') h2.
Proof.
  revert rec. induction h as [|o h IH] using rev_ind; [done|]. intros rec. rewrite run_snoc.
  destruct (run_config (new who ttl alg) h) as (Ha & Ht & _).
  destruct (run_op_effect (run (new who ttl alg) h) o epoch) as [_ Heff].
  destruct Heff as [-> Hno|? ? -> _ _ _|r now -> Hpub _].
  - intros Hrec. destruct (IH rec Hrec) as (h1 & o1 & h2 & now & -> & ? & ? & ?).
    exists h1, o1, (h2 ++ [o]), now. rewrite <- app_assoc. split_and!; [done..|].
    apply Forall_app. rewrite Forall_singleton. by rewrite Ha in Hno.
  - done.
  - intros [= <-]. exists h, o, [], now. rewrite Ha in Hpub. simpl. rewrite Ht. auto.
Qed.
(** ** Verification *)

(** The epoch, the leaves with their proofs and the time of a verification. *)
Definition checks o : option (Z * list LeafProof * Z) :=
  match o with
  | Verify e leaf p now => Some (e, [{| leaf_data := leaf; proof := p |}], now)
  | VerifyMulti e ls now => Some (e, ls, now)
  | _ => None
  end.

Definition returned {A} (m : merkle A) v : bool := match m v with Returned _ _ => true | _ => false end.

Definition accepts v o : bool :=
  match o with
  | Verify e leaf p now => returned (verify e leaf p now) v
  | VerifyMulti e ls now => returned (verify_multi e ls now) v
  | _ => false
  end.

Lemma require_root_returned {B} e now (f : MerkleRoot → merkle B) v :
  returned (require_root e now ≫= f) v =
    match get_root v e now with Some rec => returned (f rec) v | None => false end.
Proof.
  unfold returned, require_root, get_root. unfold mbind at 1, call_mbind, call_bind. simpl.
  unfold mbind at 1, call_mbind, call_bind. simpl. destruct (roots v !! e) as [rec|]; simpl; [|done].
  unfold mbind, call_mbind, call_bind, reject_if. simpl.
  destruct (Z.leb_spec rec.(expires_at) now), (Z.ltb_spec now rec.(expires_at)); (lia || done).
Qed.

Lemma verify_multiproof_spec alg ls r :
  verify_multiproof alg ls r = true ↔
  ls ≠ [] ∧ ∀ lp, lp ∈ ls → verify_proof alg lp.(leaf_data) lp.(proof) r = true.
Proof.
  unfold verify_multiproof. destruct ls as [|lp ls]; [naive_solver|]. rewrite forallb_forall.
  setoid_rewrite list_elem_of_In. naive_solver.
Qed.

(** What a verification accepts: leaves that verify against a root stored and alive. *)
Lemma accepts_spec v o e ls now :
  checks o = Some (e, ls, now) →
  accepts v o = true ↔ ∃ rec, get_root v e now = Some rec ∧ verify_multiproof v.(algorithm) ls rec.(root) = true.
Proof.
  destruct o as [| | |e' leaf p now'|e' ls' now']; simpl; intros; simplify_eq;
    unfold verify, verify_multi; rewrite require_root_returned;
    (destruct (get_root v e now) as [rec|]; [|naive_solver]).
  - transitivity (verify_proof v.(algorithm) leaf p rec.(root) = true).
    + unfold returned. simpl. destruct (verify_proof _ _ _ _) eqn:Hv; unfold mbind, call_mbind, call_bind; simpl; by rewrite Hv.
    + rewrite <- (andb_true_r (verify_proof _ _ _ _)). naive_solver.
  - transitivity (verify_multiproof v.(algorithm) ls rec.(root) = true); [|naive_solver].
    unfold returned. simpl. destruct (verify_multiproof _ _ _) eqn:Hv; unfold mbind, call_mbind, call_bind; simpl; by rewrite Hv.
Qed.

Lemma get_root_Some v e now rec :
  get_root v e now = Some rec ↔ v.(roots) !! e = Some rec ∧ (now < rec.(expires_at))%Z.
Proof.
  unfold get_root. destruct (roots v !! e) as [rec'|]; simpl; [|naive_solver].
  destruct (Z.ltb_spec now rec'.(expires_at)); naive_solver lia.
Qed.

(** C7: Whatever was called before, by anybody, a verification that is accepted was made
    against the root the authority published last for the epoch, before that root expired;
    and if that root is the root of a list of leaves then every leaf accepted is in the list,
    or two different strings that were hashed have the same digest. *)
Theorem accepted_leaves_were_published who ttl alg h o epoch ls now :
  checks o = Some (epoch, ls, now) → accepts (run (new who ttl alg) h) o = true →
  ls ≠ [] ∧ ∃ h1 o' h2 r submitted,
    h = h1 ++ o' :: h2 ∧ publishes who epoch r submitted o' ∧ Forall (λ o2, ¬ overwrites who epoch o2) h2
    ∧ (now < as_u64 (submitted + ttl))%Z
    ∧ ∀ leaves lp, leaves ≠ [] → compute_root alg leaves = Some r → lp ∈ ls →
        Forall (λ e, digest e.(sibling)) lp.(proof) →
        lp.(leaf_data) ∈ leaves
        ∨ collides (hash_bytes alg) (root_inputs alg leaves) (proof_inputs alg lp.(leaf_data) lp.(proof)).
Proof.
  intros Ho (rec & [Hrec Hlive]%get_root_Some & Hv)%(accepts_spec _ _ _ _ _ Ho).
  destruct (run_config (new who ttl alg) h) as (_ & _ & Halg). rewrite Halg in Hv.
  apply verify_multiproof_spec in Hv as [Hne Hv]. split; [done|].
  destruct (stored_roots_were_published _ _ _ _ _ _ Hrec) as (h1 & o' & h2 & submitted & -> & ? & Hexp & ?).
  exists h1, o', h2, rec.(root), submitted. rewrite <- Hexp. split_and!; [done..|].
  intros leaves lp Hl Hr Hlp Hp. by eapply verify_proof_sound; eauto.
Qed.

(** ** Availability *)

(** A call that leaves the root of [epoch] alone until it expires. *)
Definition spares (who : string) (epoch expires : Z) o : Prop :=
  ¬ overwrites who epoch o ∧ ∀ now, o = Evict now → (now < expires)%Z.

Lemma spared_root_stays v h epoch rec :
  v.(roots) !! epoch = Some rec → Forall (spares v.(authority) epoch rec.(expires_at)) h →
  (run v h).(roots) !! epoch = Some rec.
Proof.
  intros Hrec. induction h as [|o h IH] using rev_ind; [done|].
  rewrite Forall_app, Forall_singleton, run_snoc. intros [Hh [Hno Hev]]. specialize (IH Hh).
  destruct (run_config v h) as (Ha & _ & _). destruct (run_op_effect (run v h) o epoch) as [_ Heff].
  destruct Heff as [Hk _|now rec' _ -> Hrec' Hexp|r now _ _ [Hn|Ho]].
  - by rewrite Hk.
  - rewrite IH in Hrec'. simplify_eq. specialize (Hev now eq_refl). lia.
  - congruence.
  - by rewrite Ha in Ho.
Qed.

(** Once the authority has submitted the root of a list of leaves, whatever else is
    called until the root expires short of an overwrite by the authority or an eviction
    dated past the expiry, every leaf of the list is provable: the proof generated for it is
    accepted, and has one sibling for each doubling of the number of leaves. *)
Theorem published_leaves_stay_provable v epoch leaves r submitted h i leaf now :
  compute_root v.(algorithm) leaves = Some r → v.(roots) !! epoch = None →
  in_u64 (submitted + v.(root_ttl)) →
  Forall (spares v.(authority) epoch (submitted + v.(root_ttl))) h →
  leaves !! i = Some leaf → (now < submitted + v.(root_ttl))%Z →
  ∃ p, generate_proof v.(algorithm) leaves i = Some (Some p) ∧ length p = Nat.log2_up (length leaves)
    ∧ accepts (run v (Submit epoch r v.(authority) submitted :: h)) (Verify epoch leaf p now) = true.
Proof.
  intros Hr Hnone Hin Hh Hi Hnow.
  destruct (generated_proofs_verify v.(algorithm) leaves i leaf Hi) as (p & r' & Hp & Hr' & Hv & Hlen).
  rewrite Hr in Hr'. simplify_eq. exists p. split_and!; [done..|].
  set (v1 := run_op v (Submit epoch r' v.(authority) submitted)).
  assert (v1.(roots) !! epoch = Some (root_record v epoch r' v.(authority) submitted)) as H1.
  { unfold v1. simpl. unfold after, submit_root, require_authority.
    unfold mbind, call_mbind, call_bind. simpl. rewrite bool_decide_eq_true_2 by done. simpl.
    unfold reject_if. rewrite Hnone. simpl. apply lookup_insert_eq. }
  destruct (run_op_effect v (Submit epoch r' v.(authority) submitted) epoch) as [(Ha & Ht & Halg) _].
  fold v1 in Ha, Ht, Halg. destruct (run_config v1 h) as (_ & _ & Halg2).
  change (run v (_ :: h)) with (run v1 h). eapply accepts_spec; [done|]. exists (root_record v epoch r' v.(authority) submitted).
  assert (as_u64 (submitted + v.(root_ttl)) = submitted + v.(root_ttl))%Z as Hexp by (by apply Z.mod_small).
  split; [|rewrite Halg2, Halg; simpl; by rewrite Hv].
  apply get_root_Some. split; [|simpl; by rewrite Hexp].
  apply (spared_root_stays v1); [done|]. rewrite Ha. simpl. by rewrite Hexp.
Qed.
End registry.

(** ** Concrete trees and registries

    A checksum padded to 32 bytes stands for the digests.  The theorems applied to concrete
    histories, and what single calls answer, errors included. *)

Definition checksum (m : Z) (d : bytes) : bytes :=
  let s := foldl (λ s b, (s * m + b + 1) mod 2 ^ 24)%Z m d in
  (λ i, (s / 256 ^ Z.of_nat i) mod 256)%Z <$> seq 0 32.

Lemma checksum_length m d : length (checksum m d) = 32.
Proof. reflexivity. Qed.

#[local] Instance checksums : Digests := {|
  sha256 := checksum 263; keccak256 := checksum 521;
  sha256_length := checksum_length 263; keccak256_length := checksum_length 521;
|}.

Definition AUTHORITY : string := "GAUTHORITY_KEY".
Definition STRANGER : string := "GSTRANGER".

(** Five leaves, so that levels are odd twice. *)
Definition five : list bytes := [[10]; [20; 21]; []; [40]; [50]]%Z.
Definition five_root : bytes := default [] (compute_root Sha256 five).
Definition five_proof (i : nat) : list ProofElement := default [] (default None (generate_proof Sha256 five i)).

Definition history : list op :=
  [Submit 7 [1%Z] STRANGER 0; Submit 7 [2%Z] AUTHORITY 0; Submit 7 [3%Z] AUTHORITY 1;
   Overwrite 7 five_root AUTHORITY 10; Overwrite 7 [4%Z] STRANGER 11; Evict 100;
   Submit 8 [5%Z] AUTHORITY 200].

Definition registry : MerkleVerifier := run (new AUTHORITY 1000 Sha256) history.

Definition both : list LeafProof :=
  [{| leaf_data := [20; 21]%Z; proof := five_proof 1 |}; {| leaf_data := [50]%Z; proof := five_proof 4 |}].

(** The answers of single calls: accepted, a tampered leaf, a missing root, an expired root
    (which reports the epoch as the time it was stored), no leaves, a wrong caller. *)
Example calls_answer :
  result_of (verify_multi 7 both 1009 registry) = Some (Ok tt)
  ∧ result_of (verify 7 [20]%Z (five_proof 1) 1009 registry) = Some (Err (ProofInvalid 7))
  ∧ result_of (verify 9 [20]%Z [] 0 registry) = Some (Err (RootNotFound 9))
  ∧ result_of (verify 7 [50]%Z (five_proof 4) 1010 registry) = Some (Err (RootExpired 7 7 1010 1000))
  ∧ result_of (verify_multi 7 [] 0 registry) = Some (Err (MultiProofInvalid 7))
  ∧ result_of (submit_root 9 [] STRANGER 0 registry) = Some (Err (Unauthorized STRANGER))
  ∧ result_of (submit_root 7 [] AUTHORITY 0 registry) = Some (Err (RootAlreadyExists 7))
  ∧ result_of (evict_expired 1010 registry) = Some (Ok 1).
Proof. vm_compute. split_and!; reflexivity. Qed.

(** A lifetime that does not fit: the expiry wraps, and the root is born expired. *)
Example unlimited_lifetime_expires_at_once :
  result_of (verify 1 [10]%Z (five_proof 0) 5
    (run (new AUTHORITY U64_MAX Sha256) [Submit 1 five_root AUTHORITY 5])) = Some (Err (RootExpired 1 1 5 U64_MAX)).
Proof. vm_compute. reflexivity. Qed.

Lemma roots_bind_the_leaves_witness :
  five = five ∨ collides (hash_bytes Sha256) (root_inputs Sha256 five) (root_inputs Sha256 five).
Proof. apply (roots_bind_the_leaves Sha256 five five); reflexivity. Defined.

Lemma repeated_last_leaf_witness :
  compute_root Keccak256 ([[1]; [2]] ++ [[3]])%Z = compute_root Keccak256 ([[1]; [2]] ++ [[3]; [3]])%Z.
Proof. apply (repeated_last_leaf_keeps_the_root Keccak256 [[1]; [2]]%Z [3%Z]); [done|by exists 1]. Defined.

Lemma accepted_leaves_witness :
  both ≠ [] ∧ ∃ h1 o' h2 r submitted,
    history = h1 ++ o' :: h2 ∧ publishes AUTHORITY 7 r submitted o' ∧ Forall (λ o2, ¬ overwrites AUTHORITY 7 o2) h2
    ∧ (1009 < as_u64 (submitted + 1000))%Z
    ∧ ∀ leaves lp, leaves ≠ [] → compute_root Sha256 leaves = Some r → lp ∈ both →
        Forall (λ e, digest e.(sibling)) lp.(proof) →
        lp.(leaf_data) ∈ leaves
        ∨ collides (hash_bytes Sha256) (root_inputs Sha256 leaves) (proof_inputs Sha256 lp.(leaf_data) lp.(proof)).
Proof.
  apply (accepted_leaves_were_published AUTHORITY 1000 Sha256 history (VerifyMulti 7 both 1009) 7 both 1009).
  - reflexivity.
  - vm_compute. reflexivity.
Defined.

Lemma published_leaves_witness :
  ∃ p, generate_proof Sha256 five 2 = Some (Some p) ∧ length p = Nat.log2_up (length five)
    ∧ accepts (run (new AUTHORITY 1000 Sha256)
        (Submit 7 five_root AUTHORITY 10 :: [Overwrite 7 [] STRANGER 11; Evict 1009; Submit 7 [] AUTHORITY 12]))
        (Verify 7 [] p 500) = true.
Proof.
  refine (published_leaves_stay_provable (new AUTHORITY 1000 Sha256) 7 five five_root 10
    [Overwrite 7 [] STRANGER 11; Evict 1009; Submit 7 [] AUTHORITY 12] 2 [] 500 _ _ _ _ _ _).
  - vm_compute. reflexivity.
  - reflexivity.
  - unfold in_u64. simpl. lia.
  - repeat constructor; try (by intros (?&?&?)); intros ? [=]; simpl; lia.
  - reflexivity.
  - simpl. lia.
Defined.
