(* ===== verification/UpgradeProxy.v ===== *)
(** * The upgrade proxy

    [src/src/contracts/upgrade_proxy/storage.rs] (a store of serialized values under
    namespaced keys) and [lib.rs] (the proxy whose whole state is that store).
    [serde_json] is of another crate: the class [Serde], which says that a value that is
    written reads back. *)

From Stdlib Require Import Ascii String.
From stdpp Require Import prelude gmap list strings.
From S2P Require Import Prelude RustStr Contract.

Abbreviation bytes := (list Z).

(** ** Keys *)

Definition IMPL_PREFIX : string := "impl:".
Definition GOV_PREFIX : string := "gov:".
Definition KEY_CURRENT_WASM : string := "current_wasm".
Definition KEY_PREV_WASM : string := "prev_wasm".
Definition KEY_UPGRADE_COUNTER : string := "upgrade_counter".
Definition KEY_ADMIN_KEY : string := "admin_key".
Definition KEY_GOVERNANCE_KEYS : string := "governance_keys".
Definition KEY_PENDING_UPGRADE : string := "pending_upgrade".

Definition namespaced_key (prefix name : string) : string := prefix +:+ name.

Definition namespace (k : string) : string := default "" (head (split_char ":"%char k)).

Definition keys_are_isolated (key_a key_b : string) : bool :=
  negb (String.eqb (namespace key_a) (namespace key_b)).

(** ** Data *)

Record WasmRecord : Type := {
  wasm_hash : string;
  version : string;
  deployed_at : Z;
  deployed_by : string;
}.

Record PendingUpgrade : Type := {
  target_wasm_hash : string;
  target_version : string;
  proposed_by : string;
  proposed_at : Z;
}.

Inductive StorageError : Type :=
| SerializeError (e : string)
| DeserializeError (e : string).

(** Values of the width of their fields. *)
Definition wt_wasm (r : WasmRecord) : Prop := in_u64 r.(deployed_at).
Definition wt_pending (p : PendingUpgrade) : Prop := in_u64 p.(proposed_at).
Definition wt_any {T : Type} (_ : T) : Prop := True.

(** [serde_json] at a type, for the values of the type. *)
Class Serde (T : Type) (wt : T → Prop) : Type := {
  to_vec : T → result bytes string;
  from_slice : bytes → result T string;
  from_to : ∀ v, wt v → ∃ b, to_vec v = Ok b ∧ from_slice b = Ok v;
}.

(** ** The store *)

Abbreviation ContractStorage := (gmap string bytes).

Abbreviation storage A := (call ContractStorage StorageError A).

Section primitives.
Context {T : Type} {wt : T → Prop} `{!Serde T wt}.

Definition set (key : string) (value : T) : storage unit :=
  match to_vec value with
  | Ok b => modify <[key := b]>
  | Err e => throw (SerializeError e)
  end.

Definition get_at (key : string) : storage (option T) :=
  inner ← get;
  match inner !! key with
  | None => mret None
  | Some b =>
      match from_slice b with
      | Ok v => mret (Some v)
      | Err e => throw (DeserializeError e)
      end
  end.
End primitives.

Definition remove (key : string) : storage bool :=
  inner ← get;
  modify (delete key);;
  mret (bool_decide (is_Some (inner !! key))).

Definition has (key : string) : storage bool :=
  inner ← get;
  mret (bool_decide (is_Some (inner !! key))).

(** The types the proxy stores. *)
Class Codecs : Type := {
  serde_wasm :: Serde WasmRecord wt_wasm;
  serde_pending :: Serde PendingUpgrade wt_pending;
  serde_u32 :: Serde Z in_u32;
  serde_string :: Serde string wt_any;
  serde_strings :: Serde (list string) wt_any;
}.

Section accessors.
Context `{!Codecs}.

Definition get_current_wasm : storage (option WasmRecord) := get_at (namespaced_key IMPL_PREFIX KEY_CURRENT_WASM).
Definition set_current_wasm (record : WasmRecord) : storage unit := set (namespaced_key IMPL_PREFIX KEY_CURRENT_WASM) record.
Definition get_prev_wasm : storage (option WasmRecord) := get_at (namespaced_key IMPL_PREFIX KEY_PREV_WASM).
Definition set_prev_wasm (record : WasmRecord) : storage unit := set (namespaced_key IMPL_PREFIX KEY_PREV_WASM) record.

Definition get_upgrade_counter : storage Z :=
  c ← get_at (namespaced_key IMPL_PREFIX KEY_UPGRADE_COUNTER); mret (default 0%Z c).
Definition set_upgrade_counter (count : Z) : storage unit := set (namespaced_key IMPL_PREFIX KEY_UPGRADE_COUNTER) count.

Definition get_admin_key : storage (option string) := get_at (namespaced_key GOV_PREFIX KEY_ADMIN_KEY).
Definition set_admin_key (key : string) : storage unit := set (namespaced_key GOV_PREFIX KEY_ADMIN_KEY) key.

Definition get_governance_keys : storage (list string) :=
  ks ← get_at (namespaced_key GOV_PREFIX KEY_GOVERNANCE_KEYS); mret (default [] ks).
Definition set_governance_keys (keys : list string) : storage unit := set (namespaced_key GOV_PREFIX KEY_GOVERNANCE_KEYS) keys.

Definition get_pending_upgrade : storage (option PendingUpgrade) := get_at (namespaced_key GOV_PREFIX KEY_PENDING_UPGRADE).
Definition set_pending_upgrade (p : PendingUpgrade) : storage unit := set (namespaced_key GOV_PREFIX KEY_PENDING_UPGRADE) p.
Definition clear_pending_upgrade : storage unit := remove (namespaced_key GOV_PREFIX KEY_PENDING_UPGRADE);; mret tt.
End accessors.

(** ** The proxy *)

Inductive ProxyError : Type :=
| Unauthorized (caller : string)
| AlreadyDeployed (v : string)
| NoPendingUpgrade
| NoRollbackTarget
| NotInitialised
| Storage (e : StorageError).

Abbreviation proxy A := (call ContractStorage ProxyError A).

(** [?] on the result of a call on the store. *)
Definition stored {A} (m : storage A) : proxy A := with_err Storage m.

(** [UpgradeProxy::new]: an empty store. *)
Definition new : ContractStorage := ∅.

Section proxy.
Context `{!Codecs}.

Definition initialize (admin_key : string) (governance_keys : list string) (initial_wasm : WasmRecord) : proxy unit :=
  current ← stored get_current_wasm;
  reject_if (bool_decide (is_Some current)) (AlreadyDeployed initial_wasm.(version));;
  stored (set_admin_key admin_key);;
  stored (set_governance_keys governance_keys);;
  stored (set_current_wasm initial_wasm);;
  stored (set_upgrade_counter 0).

Definition current_wasm : proxy WasmRecord :=
  current ← stored get_current_wasm; ok_or current NotInitialised.
Definition prev_wasm : proxy (option WasmRecord) := stored get_prev_wasm.
Definition upgrade_count : proxy Z := stored get_upgrade_counter.
Definition pending_upgrade : proxy (option PendingUpgrade) := stored get_pending_upgrade.
Definition governance_keys : proxy (list string) := stored get_governance_keys.

Definition require_governance_key (caller : string) : proxy unit :=
  keys ← stored get_governance_keys;
  if existsb (String.eqb caller) keys then mret tt else throw (Unauthorized caller).

Definition propose_upgrade (target_wasm_hash target_version caller : string) (now : Z) : proxy unit :=
  require_governance_key caller;;
  current ← current_wasm;
  reject_if (String.eqb current.(version) target_version) (AlreadyDeployed target_version);;
  stored (set_pending_upgrade {| target_wasm_hash := target_wasm_hash; target_version := target_version;
                                 proposed_by := caller; proposed_at := now |}).

Definition execute_upgrade (caller : string) (now : Z) : proxy WasmRecord :=
  require_governance_key caller;;
  pending ← stored get_pending_upgrade;
  proposal ← ok_or pending NoPendingUpgrade;
  current ← current_wasm;
  stored (set_prev_wasm current);;
  let new_record := {| wasm_hash := proposal.(target_wasm_hash); version := proposal.(target_version);
                       deployed_at := now; deployed_by := caller |} in
  stored (set_current_wasm new_record);;
  counter ← stored get_upgrade_counter;
  stored (set_upgrade_counter (u32_add counter 1));;
  stored clear_pending_upgrade;;
  mret new_record.

Definition rollback_upgrade (caller : string) : proxy WasmRecord :=
  require_governance_key caller;;
  prev ← stored get_prev_wasm;
  prev ← ok_or prev NoRollbackTarget;
  stored (set_current_wasm prev);;
  stored (remove (namespaced_key IMPL_PREFIX "prev_wasm"));;
  counter ← stored get_upgrade_counter;
  stored (set_upgrade_counter (Z.max 0 (counter - 1)));;
  mret prev.

Definition add_governance_key (new_key caller : string) : proxy unit :=
  admin ← stored get_admin_key;
  admin ← ok_or admin NotInitialised;
  reject_if (negb (String.eqb caller admin)) (Unauthorized caller);;
  keys ← stored get_governance_keys;
  if negb (existsb (String.eqb new_key) keys)
  then stored (set_governance_keys (keys ++ [new_key]))
  else mret tt.
End proxy.
