(* ===== verification/ProxyFacts.v ===== *)
(** * The upgrade proxy as a record

    The store of the proxy represents a record, [Governance], and every call on the store
    does what an atomic call on the record does ([spec_of]): the same answer, the record it
    leaves, and nothing of the store outside the six keys of the proxy. *)

From stdpp Require Import prelude gmap list strings.
From S2P Require Import Prelude RustStr Contract UpgradeProxy.

(** ** Keys *)

(** Keys of the two namespaces are isolated whatever their names, and isolated keys differ. *)
Lemma namespaces_are_isolated a b :
  keys_are_isolated (namespaced_key IMPL_PREFIX a) (namespaced_key GOV_PREFIX b) = true.
Proof. reflexivity. Qed.

Lemma isolated_keys_differ k1 k2 : keys_are_isolated k1 k2 = true → k1 ≠ k2.
Proof. unfold keys_are_isolated. intros H ->. by rewrite String.eqb_refl in H. Qed.

Definition k_current : string := namespaced_key IMPL_PREFIX KEY_CURRENT_WASM.
Definition k_prev : string := namespaced_key IMPL_PREFIX KEY_PREV_WASM.
Definition k_counter : string := namespaced_key IMPL_PREFIX KEY_UPGRADE_COUNTER.
Definition k_admin : string := namespaced_key GOV_PREFIX KEY_ADMIN_KEY.
Definition k_keys : string := namespaced_key GOV_PREFIX KEY_GOVERNANCE_KEYS.
Definition k_pending : string := namespaced_key GOV_PREFIX KEY_PENDING_UPGRADE.
Definition proxy_keys : gset string := {[ k_current; k_prev; k_counter; k_admin; k_keys; k_pending ]}.

(** ** The record and its calls *)

Record Governance : Type := {
  g_admin : option string;
  g_keys : list string;
  g_current : option WasmRecord;
  g_prev : option WasmRecord;
  g_pending : option PendingUpgrade;
  g_counter : Z;
}.

Definition uninitialised : Governance :=
  {| g_admin := None; g_keys := []; g_current := None; g_prev := None; g_pending := None; g_counter := 0 |}.

Abbreviation spec A := (call Governance ProxyError A).

Definition governs (a : Governance) (caller : string) : bool := existsb (String.eqb caller) a.(g_keys).

Definition activated (p : PendingUpgrade) (caller : string) (now : Z) : WasmRecord :=
  {| wasm_hash := p.(target_wasm_hash); version := p.(target_version); deployed_at := now; deployed_by := caller |}.

Definition proposal (hash ver caller : string) (now : Z) : PendingUpgrade :=
  {| target_wasm_hash := hash; target_version := ver; proposed_by := caller; proposed_at := now |}.

Definition spec_initialize (admin_key : string) (keys : list string) (w : WasmRecord) : spec unit := λ a,
  if a.(g_current) is Some _ then Raised (AlreadyDeployed w.(version)) a
  else Returned tt {| g_admin := Some admin_key; g_keys := keys; g_current := Some w;
                      g_prev := a.(g_prev); g_pending := a.(g_pending); g_counter := 0 |}.

Definition spec_propose (hash ver caller : string) (now : Z) : spec unit := λ a,
  if governs a caller then
    if a.(g_current) is Some current then
      if String.eqb current.(version) ver then Raised (AlreadyDeployed ver) a
      else Returned tt {| g_admin := a.(g_admin); g_keys := a.(g_keys); g_current := a.(g_current); g_prev := a.(g_prev);
                          g_pending := Some (proposal hash ver caller now); g_counter := a.(g_counter) |}
    else Raised NotInitialised a
  else Raised (Unauthorized caller) a.

Definition spec_execute (caller : string) (now : Z) : spec WasmRecord := λ a,
  if governs a caller then
    match a.(g_pending), a.(g_current) with
    | None, _ => Raised NoPendingUpgrade a
    | _, None => Raised NotInitialised a
    | Some p, Some current =>
        Returned (activated p caller now)
          {| g_admin := a.(g_admin); g_keys := a.(g_keys); g_current := Some (activated p caller now);
             g_prev := Some current; g_pending := None; g_counter := u32_add a.(g_counter) 1 |}
    end
  else Raised (Unauthorized caller) a.

Definition spec_rollback (caller : string) : spec WasmRecord := λ a,
  if governs a caller then
    if a.(g_prev) is Some prev then
      Returned prev {| g_admin := a.(g_admin); g_keys := a.(g_keys); g_current := Some prev; g_prev := None;
                       g_pending := a.(g_pending); g_counter := Z.max 0 (a.(g_counter) - 1) |}
    else Raised NoRollbackTarget a
  else Raised (Unauthorized caller) a.

Definition spec_add_key (new_key caller : string) : spec unit := λ a,
  if a.(g_admin) is Some admin then
    if String.eqb caller admin then
      Returned tt {| g_admin := a.(g_admin); g_keys := if governs a new_key then a.(g_keys) else a.(g_keys) ++ [new_key];
                     g_current := a.(g_current); g_prev := a.(g_prev); g_pending := a.(g_pending);
                     g_counter := a.(g_counter) |}
    else Raised (Unauthorized caller) a
  else Raised NotInitialised a.

(** ** The store represents the record *)

Section represents.
Context `{!Codecs}.

(** What is read at a key. *)
Definition holds {T wt} `{!Serde T wt} (s : ContractStorage) (key : string) (v : option T) : Prop :=
  match s !! key, v with
  | None, None => True
  | Some b, Some v => from_slice b = Ok v
  | _, _ => False
  end.

(** [s] represents [a] and agrees with [s0] outside the keys of the proxy. *)
Record represents (s0 s : ContractStorage) (a : Governance) : Prop := {
  rep_admin : holds s k_admin a.(g_admin);
  rep_keys : ∃ ks, holds s k_keys ks ∧ a.(g_keys) = default [] ks;
  rep_current : holds s k_current a.(g_current);
  rep_prev : holds s k_prev a.(g_prev);
  rep_pending : holds s k_pending a.(g_pending);
  rep_counter : ∃ c, holds s k_counter c ∧ a.(g_counter) = default 0%Z c;
  rep_current_wt : ∀ w, a.(g_current) = Some w → wt_wasm w;
  rep_prev_wt : ∀ w, a.(g_prev) = Some w → wt_wasm w;
  rep_counter_wt : in_u32 a.(g_counter);
  rep_frame : ∀ k, k ∉ proxy_keys → s !! k = s0 !! k;
}.

Lemma holds_insert {T wt} `{!Serde T wt} s k b (v : T) : from_slice b = Ok v → holds (<[k:=b]> s) k (Some v).
Proof. intros. unfold holds. by rewrite lookup_insert_eq. Qed.

Lemma holds_insert_ne {T wt} `{!Serde T wt} s k k' b (v : option T) : k ≠ k' → holds s k' v → holds (<[k:=b]> s) k' v.
Proof. intros. unfold holds. by rewrite lookup_insert_ne. Qed.

Lemma holds_delete {T wt} `{!Serde T wt} s k : holds (delete k s) k (None : option T).
Proof. unfold holds. by rewrite lookup_delete_eq. Qed.

Lemma holds_delete_ne {T wt} `{!Serde T wt} s k k' (v : option T) : k ≠ k' → holds s k' v → holds (delete k s) k' v.
Proof. intros. unfold holds. by rewrite lookup_delete_ne. Qed.

Lemma get_at_holds {T wt} `{!Serde T wt} s k (v : option T) : holds s k v → stored (get_at k) s = Returned v s.
Proof.
  unfold holds, stored, with_err, get_at, mbind, call_mbind, call_bind. simpl.
  destruct (s !! k) as [b|], v as [v|]; try done. by intros ->.
Qed.

Lemma set_returns {T wt} `{!Serde T wt} s k (v : T) :
  wt v → ∃ b, from_slice b = Ok v ∧ stored (set k v) s = Returned tt (<[k:=b]> s).
Proof. intros (b & Ht & Hf)%from_to. exists b. unfold stored, with_err, set. by rewrite Ht. Qed.

Lemma then_returned {S E A B} (m : call S E A) (f : A → call S E B) s a s' :
  m s = Returned a s' → (m ≫= f) s = f a s'.
Proof. unfold mbind, call_mbind, call_bind. by intros ->. Qed.

Lemma then_raised {S E A B} (m : call S E A) (f : A → call S E B) s e s' :
  m s = Raised e s' → (m ≫= f) s = Raised e s'.
Proof. unfold mbind, call_mbind, call_bind. by intros ->. Qed.

(** *** Reading *)

Section reads.
Context {s0 s : ContractStorage} {a : Governance} (R : represents s0 s a).

Lemma get_current_wasm_reads : stored get_current_wasm s = Returned a.(g_current) s.
Proof using R. apply get_at_holds, R. Qed.

Lemma get_prev_wasm_reads : stored get_prev_wasm s = Returned a.(g_prev) s.
Proof using R. apply get_at_holds, R. Qed.

Lemma get_pending_upgrade_reads : stored get_pending_upgrade s = Returned a.(g_pending) s.
Proof using R. apply get_at_holds, R. Qed.

Lemma get_admin_key_reads : stored get_admin_key s = Returned a.(g_admin) s.
Proof using R. apply get_at_holds, R. Qed.

Lemma stored_then {A B} (m : storage A) (f : A → B) v :
  stored m s = Returned v s → stored (x ← m; mret (f x)) s = Returned (f v) s.
Proof using.
  unfold stored, with_err, mbind, call_mbind, call_bind. destruct (m s); [|done..]. by intros [= -> ->].
Qed.

Lemma get_governance_keys_reads : stored get_governance_keys s = Returned a.(g_keys) s.
Proof using R.
  destruct (rep_keys _ _ _ R) as (ks & Hks & ->). apply (stored_then _ (default [])). by apply get_at_holds.
Qed.

Lemma get_upgrade_counter_reads : stored get_upgrade_counter s = Returned a.(g_counter) s.
Proof using R.
  destruct (rep_counter _ _ _ R) as (c & Hc & ->). apply (stored_then _ (default 0%Z)). by apply get_at_holds.
Qed.

Lemma require_governance_key_reads caller :
  require_governance_key caller s = if governs a caller then Returned tt s else Raised (Unauthorized caller) s.
Proof using R.
  unfold require_governance_key. rewrite (then_returned _ _ _ _ _ get_governance_keys_reads).
  fold (governs a caller). by destruct (governs a caller).
Qed.
End reads.

(** *** Writing *)

Definition with_admin (k : string) (a : Governance) : Governance :=
  {| g_admin := Some k; g_keys := a.(g_keys); g_current := a.(g_current);
     g_prev := a.(g_prev); g_pending := a.(g_pending); g_counter := a.(g_counter) |}.
Definition with_keys (ks : list string) (a : Governance) : Governance :=
  {| g_admin := a.(g_admin); g_keys := ks; g_current := a.(g_current);
     g_prev := a.(g_prev); g_pending := a.(g_pending); g_counter := a.(g_counter) |}.
Definition with_current (w : WasmRecord) (a : Governance) : Governance :=
  {| g_admin := a.(g_admin); g_keys := a.(g_keys); g_current := Some w;
     g_prev := a.(g_prev); g_pending := a.(g_pending); g_counter := a.(g_counter) |}.
Definition with_prev (w : option WasmRecord) (a : Governance) : Governance :=
  {| g_admin := a.(g_admin); g_keys := a.(g_keys); g_current := a.(g_current);
     g_prev := w; g_pending := a.(g_pending); g_counter := a.(g_counter) |}.
Definition with_pending (p : option PendingUpgrade) (a : Governance) : Governance :=
  {| g_admin := a.(g_admin); g_keys := a.(g_keys); g_current := a.(g_current);
     g_prev := a.(g_prev); g_pending := p; g_counter := a.(g_counter) |}.
Definition with_counter (c : Z) (a : Governance) : Governance :=
  {| g_admin := a.(g_admin); g_keys := a.(g_keys); g_current := a.(g_current);
     g_prev := a.(g_prev); g_pending := a.(g_pending); g_counter := c |}.

Ltac keeps_the_rest :=
  lazymatch goal with
  | |- ∃ _, _ ∧ _ => eexists; split; [keeps_the_rest|done]
  | |- holds (<[_:=_]> _) _ _ => first [by apply holds_insert | apply holds_insert_ne; [done|eassumption]]
  | |- holds (delete _ _) _ _ => first [apply holds_delete | apply holds_delete_ne; [done|eassumption]]
  | |- ∀ k, k ∉ proxy_keys → <[_:=_]> _ !! _ = _ =>
      let k := fresh in let Hk := fresh in intros k Hk; rewrite lookup_insert_ne by (intros <-; by apply Hk); auto
  | |- ∀ k, k ∉ proxy_keys → delete _ _ !! _ = _ =>
      let k := fresh in let Hk := fresh in intros k Hk; rewrite lookup_delete_ne by (intros <-; by apply Hk); auto
  | |- _ => naive_solver
  end.

Ltac writes R :=
  destruct R as [? (? & ? & ?) ? ? ? (? & ? & ?) ? ? ? ?]; constructor; simpl; keeps_the_rest.

Section writes.
Context {s0 s : ContractStorage} {a : Governance} (R : represents s0 s a).

Lemma set_admin_key_writes k : ∃ s', stored (set_admin_key k) s = Returned tt s' ∧ represents s0 s' (with_admin k a).
Proof using R. destruct (set_returns s k_admin k I) as (b & Hb & Hs). eexists; split; [exact Hs|]. writes R. Qed.

Lemma set_governance_keys_writes l : ∃ s', stored (set_governance_keys l) s = Returned tt s' ∧ represents s0 s' (with_keys l a).
Proof using R.
  destruct (set_returns s k_keys l I) as (b & Hb & Hs). eexists; split; [exact Hs|].
  writes R.
Qed.

Lemma set_current_wasm_writes w : wt_wasm w → ∃ s', stored (set_current_wasm w) s = Returned tt s' ∧ represents s0 s' (with_current w a).
Proof using R. intros Hw. destruct (set_returns s k_current w Hw) as (b & Hb & Hs). eexists; split; [exact Hs|]. writes R. Qed.

Lemma set_prev_wasm_writes w : wt_wasm w → ∃ s', stored (set_prev_wasm w) s = Returned tt s' ∧ represents s0 s' (with_prev (Some w) a).
Proof using R. intros Hw. destruct (set_returns s k_prev w Hw) as (b & Hb & Hs). eexists; split; [exact Hs|]. writes R. Qed.

Lemma set_pending_upgrade_writes p : wt_pending p → ∃ s', stored (set_pending_upgrade p) s = Returned tt s' ∧ represents s0 s' (with_pending (Some p) a).
Proof using R. intros Hw. destruct (set_returns s k_pending p Hw) as (b & Hb & Hs). eexists; split; [exact Hs|]. writes R. Qed.

Lemma set_upgrade_counter_writes c : in_u32 c → ∃ s', stored (set_upgrade_counter c) s = Returned tt s' ∧ represents s0 s' (with_counter c a).
Proof using R. intros Hw. destruct (set_returns s k_counter c Hw) as (b & Hb & Hs). eexists; split; [exact Hs|]. writes R. Qed.

Lemma clear_pending_upgrade_writes : ∃ s', stored clear_pending_upgrade s = Returned tt s' ∧ represents s0 s' (with_pending None a).
Proof using R. eexists; split; [done|]. writes R. Qed.

Lemma remove_prev_wasm_writes :
  ∃ b s', stored (remove (namespaced_key IMPL_PREFIX "prev_wasm")) s = Returned b s' ∧ represents s0 s' (with_prev None a).
Proof using R. eexists _, _; split; [done|]. change (namespaced_key IMPL_PREFIX "prev_wasm") with k_prev. writes R. Qed.
End writes.
End represents.
