(* ===== verification/ProxyProps.v ===== *)
(** * The upgrade proxy over its life

    The refinement of the record by the store, call by call and over histories, and what it
    gives: who can activate code, and that a rollback undoes an upgrade. *)

From stdpp Require Import prelude gmap list strings countable.
From S2P Require Import Prelude RustStr Contract UpgradeProxy ProxyFacts.

Inductive op : Type :=
| Initialize (admin_key : string) (keys : list string) (w : WasmRecord)
| Propose (hash ver caller : string) (now : Z)
| Execute (caller : string) (now : Z)
| Rollback (caller : string)
| AddKey (new_key caller : string).

(** Arguments of the width of their types. *)
Definition wt_op (o : op) : Prop :=
  match o with
  | Initialize _ _ w => wt_wasm w
  | Propose _ _ _ now | Execute _ now => in_u64 now
  | _ => True
  end.

(** The answer of a call: the record it returns, if it returns one. *)
Definition answers {S E A} (f : A → option WasmRecord) (m : call S E A) : call S E (option WasmRecord) :=
  x ← m; mret (f x).

Section life.
Context `{!Codecs}.
Implicit Types (o : op) (h : list op) (a : Governance) (s : ContractStorage).

Definition call_of o : proxy (option WasmRecord) :=
  match o with
  | Initialize k ks w => answers (λ _, None) (initialize k ks w)
  | Propose hash ver c now => answers (λ _, None) (propose_upgrade hash ver c now)
  | Execute c now => answers Some (execute_upgrade c now)
  | Rollback c => answers Some (rollback_upgrade c)
  | AddKey k c => answers (λ _, None) (add_governance_key k c)
  end.

Definition spec_of o : spec (option WasmRecord) :=
  match o with
  | Initialize k ks w => answers (λ _, None) (spec_initialize k ks w)
  | Propose hash ver c now => answers (λ _, None) (spec_propose hash ver c now)
  | Execute c now => answers Some (spec_execute c now)
  | Rollback c => answers Some (spec_rollback c)
  | AddKey k c => answers (λ _, None) (spec_add_key k c)
  end.

(** ** Refinement *)

(** The same answer, and a store that represents the record left. *)
Definition agrees {A} s0 (o : outcome ContractStorage ProxyError A) (o' : outcome Governance ProxyError A) : Prop :=
  match o, o' with
  | Returned x s, Returned x' a => x = x' ∧ represents s0 s a
  | Raised e s, Raised e' a => e = e' ∧ represents s0 s a
  | _, _ => False
  end.

Lemma agrees_answers {A} s0 (f : A → option WasmRecord) (m : proxy A) (m' : spec A) s a :
  agrees s0 (m s) (m' a) → agrees s0 (answers f m s) (answers f m' a).
Proof.
  unfold answers, mbind, call_mbind, call_bind. destruct (m s), (m' a); simpl; try done. by intros [-> ?].
Qed.

Lemma agrees_governed {A} s0 (m : proxy A) (o : outcome Governance ProxyError A) caller s a :
  represents s0 s a → agrees s0 (m s) o →
  agrees s0 ((require_governance_key caller;; m) s) (if governs a caller then o else Raised (Unauthorized caller) a).
Proof.
  intros R Hm. unfold mbind, call_mbind, call_bind. rewrite (require_governance_key_reads R).
  by destruct (governs a caller).
Qed.

Ltac reads L := rewrite (then_returned _ _ _ _ _ L).
Ltac wrote L := edestruct L as (?s & ?Hs & ?R); [..|erewrite then_returned by eassumption].

Lemma current_wasm_reads s0 s a :
  represents s0 s a → current_wasm s = match a.(g_current) with Some w => Returned w s | None => Raised NotInitialised s end.
Proof. intros R. unfold current_wasm. reads (get_current_wasm_reads R). by destruct (g_current a). Qed.

Lemma initialize_refines s0 k ks w s a :
  wt_wasm w → represents s0 s a → agrees s0 (initialize k ks w s) (spec_initialize k ks w a).
Proof.
  intros Hw R. unfold initialize, spec_initialize. reads (get_current_wasm_reads R).
  destruct (g_current a) as [cur|] eqn:Hcur; [done|].
  rewrite (then_returned _ _ s tt s) by done.
  wrote (set_admin_key_writes R). wrote (set_governance_keys_writes R0). wrote (set_current_wasm_writes R1); [done|].
  edestruct (set_upgrade_counter_writes R2) as (s5 & -> & R5); [by unfold in_u32|]. split; [done|]. exact R5.
Qed.

Lemma propose_refines s0 hash ver caller now s a :
  in_u64 now → represents s0 s a →
  agrees s0 (propose_upgrade hash ver caller now s) (spec_propose hash ver caller now a).
Proof.
  intros Hn R. unfold propose_upgrade, spec_propose. apply agrees_governed; [done|].
  pose proof (current_wasm_reads _ _ _ R) as Hc. destruct (g_current a) as [cur|] eqn:Hcur.
  - reads Hc. destruct (String.eqb (version cur) ver); [done|].
    rewrite (then_returned _ _ s tt s) by done.
    edestruct (set_pending_upgrade_writes R) as (s1 & -> & R1); [|split; [done|]; unfold with_pending in R1; by rewrite Hcur in R1].
    exact Hn.
  - by rewrite (then_raised _ _ _ _ _ Hc).
Qed.

Lemma execute_refines s0 caller now s a :
  in_u64 now → represents s0 s a → agrees s0 (execute_upgrade caller now s) (spec_execute caller now a).
Proof.
  intros Hn R. unfold execute_upgrade, spec_execute. apply agrees_governed; [done|].
  reads (get_pending_upgrade_reads R). destruct (g_pending a) as [p|] eqn:Hp; [|done].
  rewrite (then_returned _ _ s p s) by done.
  pose proof (current_wasm_reads _ _ _ R) as Hc. destruct (g_current a) as [cur|] eqn:Hcur.
  2: { by rewrite (then_raised _ _ _ _ _ Hc). }
  reads Hc. wrote (set_prev_wasm_writes R); [by eapply rep_current_wt|].
  wrote (set_current_wasm_writes R0); [exact Hn|].
  reads (get_upgrade_counter_reads R1). wrote (set_upgrade_counter_writes R1); [apply u32_add_range|].
  wrote (clear_pending_upgrade_writes R2). split; [done|]. exact R3.
Qed.

Lemma rollback_refines s0 caller s a :
  represents s0 s a → agrees s0 (rollback_upgrade caller s) (spec_rollback caller a).
Proof.
  intros R. unfold rollback_upgrade, spec_rollback. apply agrees_governed; [done|].
  reads (get_prev_wasm_reads R). destruct (g_prev a) as [prev|] eqn:Hp; [|done].
  rewrite (then_returned _ _ s prev s) by done.
  wrote (set_current_wasm_writes R); [by eapply rep_prev_wt|].
  destruct (remove_prev_wasm_writes R0) as (b & s2 & Hs2 & R2). reads Hs2.
  reads (get_upgrade_counter_reads R2). wrote (set_upgrade_counter_writes R2).
  - pose proof (rep_counter_wt _ _ _ R) as Hc. unfold in_u32 in *. simpl. lia.
  - split; [done|]. exact R1.
Qed.

Lemma add_key_refines s0 k caller s a :
  represents s0 s a → agrees s0 (add_governance_key k caller s) (spec_add_key k caller a).
Proof.
  intros R. unfold add_governance_key, spec_add_key. reads (get_admin_key_reads R).
  destruct (g_admin a) as [admin|] eqn:Ha; [|done]. rewrite (then_returned _ _ s admin s) by done.
  destruct (String.eqb caller admin); [|done]. rewrite (then_returned _ _ s tt s) by done.
  reads (get_governance_keys_reads R). fold (governs a k). rewrite <- Ha. destruct (governs a k); simpl.
  - split; [done|]. by destruct a.
  - edestruct (set_governance_keys_writes R) as (s1 & -> & R1). split; [done|]. exact R1.
Qed.

Lemma call_refines s0 o s a : wt_op o → represents s0 s a → agrees s0 (call_of o s) (spec_of o a).
Proof.
  intros Ho R. destruct o; apply agrees_answers;
    auto using initialize_refines, propose_refines, execute_refines, rollback_refines, add_key_refines.
Qed.

(** ** Histories *)

(** The answers to a history of calls and the state it leaves; [None] after a panic. *)
Fixpoint runs {S E A} (step : op → call S E A) (h : list op) (s : S) : option (list (result A E) * S) :=
  match h with
  | [] => Some ([], s)
  | o :: h =>
      match step o s with
      | Returned x s' => '(rs, s'') ← runs step h s'; Some (Ok x :: rs, s'')
      | Raised e s' => '(rs, s'') ← runs step h s'; Some (Err e :: rs, s'')
      | Panicked => None
      end
  end.

Lemma runs_refine s0 h s a :
  Forall wt_op h → represents s0 s a →
  ∃ rs s' a', runs call_of h s = Some (rs, s') ∧ runs spec_of h a = Some (rs, a') ∧ represents s0 s' a'.
Proof.
  intros Hh. revert s a. induction Hh as [|o h Ho _ IH]; intros s a R; simpl; [by eexists _, _, _|].
  pose proof (call_refines s0 o s a Ho R) as Hag.
  destruct (call_of o s) as [x s1|e s1|], (spec_of o a) as [x' a1|e' a1|]; try done; destruct Hag as [-> R1];
    destruct (IH _ _ R1) as (rs & s' & a' & -> & -> & ?); by eexists _, _, _.
Qed.

(** A store without keys of the proxy, whatever else it holds, is an uninitialised proxy. *)
Lemma fresh_represents s : (∀ k, k ∈ proxy_keys → s !! k = None) → represents s s uninitialised.
Proof.
  intros Hs. assert (∀ T wt (C : Serde T wt) k, k ∈ proxy_keys → holds s k (None : option T)) as Hh.
  { intros T wt C k Hk. unfold holds. by rewrite Hs. }
  split; simpl; try (apply Hh; set_solver); try done.
  - exists None. split; [apply Hh; set_solver|done].
  - exists None. split; [apply Hh; set_solver|done].
Qed.

(** *** The documented record

    The documentation of the storage has a pending proposal cleared by a rollback, which the code
    leaves.  The two agree on histories that roll back with nothing pending. *)

Definition no_pending (a : Governance) : Governance :=
  {| g_admin := a.(g_admin); g_keys := a.(g_keys); g_current := a.(g_current); g_prev := a.(g_prev); g_pending := None;
     g_counter := a.(g_counter) |}.
Definition documented_rollback (caller : string) : spec WasmRecord := λ a,
  match spec_rollback caller a with Returned prev a' => Returned prev (no_pending a') | o => o end.
Definition documented o : spec (option WasmRecord) :=
  match o with Rollback c => answers Some (documented_rollback c) | _ => spec_of o end.

(** No rollback is called while a proposal is pending. *)
Fixpoint settled (a : Governance) h : Prop :=
  match h with
  | [] => True
  | o :: h' => match o with Rollback _ => a.(g_pending) = None | _ => True end ∧ settled (default a (state_of (documented o a))) h'
  end.

Lemma documented_settled o a : match o with Rollback _ => a.(g_pending) = None | _ => True end → documented o a = spec_of o a.
Proof.
  destruct o as [| | |c|]; try done. intros Hp. assert (documented_rollback c a = spec_rollback c a) as E.
  { unfold documented_rollback, spec_rollback. destruct (governs a c); [|done]. destruct (g_prev a) as [prev|]; [|done].
    unfold no_pending. simpl. by rewrite Hp. }
  cbn. unfold answers, mbind, call_mbind, call_bind. by rewrite E.
Qed.

Lemma runs_documented h a : settled a h → runs documented h a = runs spec_of h a.
Proof.
  revert a. induction h as [|o h IH]; intros a; [done|]. simpl. intros [Ho Hh].
  rewrite (documented_settled o a Ho) in Hh |- *. destruct (spec_of o a); simpl in *; [by rewrite IH..|done].
Qed.


(** ** Authority *)

Definition gov_after h : Governance := foldl (λ a o, default a (state_of (spec_of o a))) uninitialised h.

Lemma gov_after_snoc h o : gov_after (h ++ [o]) = default (gov_after h) (state_of (spec_of o (gov_after h))).
Proof. unfold gov_after. by rewrite foldl_app. Qed.

Lemma runs_spec_after h a rs a' :
  runs spec_of h a = Some (rs, a') → a' = foldl (λ a o, default a (state_of (spec_of o a))) a h.
Proof.
  revert a rs. induction h as [|o h IH]; intros a rs; simpl; [by intros [= _ ->]|].
  destruct (spec_of o a) as [x a1|e a1|]; [..|done]; simpl;
    destruct (runs spec_of h a1) as [[rs' a2]|] eqn:Hr; simpl; try done; intros [= _ <-]; by eapply IH.
Qed.

(** [c] was named a governor: at the start, or by the administrator. *)
Definition appointed h (c : string) : Prop :=
  ∃ admin ks w, Initialize admin ks w ∈ h ∧ (c ∈ ks ∨ AddKey c admin ∈ h).

(** A proposal [p] made in [h] by who governed then; [G] says who governs after a history. *)
Definition proposed (G : list op → string → Prop) h (p : PendingUpgrade) : Prop :=
  ∃ h1 h2, h = h1 ++ Propose p.(target_wasm_hash) p.(target_version) p.(proposed_by) p.(proposed_at) :: h2
    ∧ G h1 p.(proposed_by).

(** Code put in place at the start, or by an execution, by a governor, of a governor's proposal. *)
Definition sanctioned (G : list op → string → Prop) h (w : WasmRecord) : Prop :=
  (∃ admin ks, Initialize admin ks w ∈ h)
  ∨ ∃ h1 c now h2 p, h = h1 ++ Execute c now :: h2 ∧ w = activated p c now ∧ G h1 c ∧ proposed G h1 p.

Lemma proposed_snoc G h p o : proposed G h p → proposed G (h ++ [o]) p.
Proof. intros (h1 & h2 & -> & ?). exists h1, (h2 ++ [o]). by rewrite <- app_assoc. Qed.

Lemma sanctioned_snoc G h w o : sanctioned G h w → sanctioned G (h ++ [o]) w.
Proof.
  intros [(k & ks & ?)|(h1 & c & now & h2 & p & -> & ?)]; [left; exists k, ks; set_solver|right].
  exists h1, c, now, (h2 ++ [o]), p. by rewrite <- app_assoc.
Qed.

Lemma appointed_snoc h c o : appointed h c → appointed (h ++ [o]) c.
Proof. intros (k & ks & w & ? & ?). exists k, ks, w. set_solver. Qed.

Lemma governs_elem a c : governs a c = true ↔ c ∈ a.(g_keys).
Proof.
  unfold governs. rewrite existsb_exists. setoid_rewrite <- list_elem_of_In. setoid_rewrite String.eqb_eq. naive_solver.
Qed.

Definition gov_governs h (c : string) : Prop := governs (gov_after h) c = true.

Record authorised h a : Prop := {
  auth_current : ∀ w, a.(g_current) = Some w → sanctioned gov_governs h w;
  auth_prev : ∀ w, a.(g_prev) = Some w → sanctioned gov_governs h w;
  auth_pending : ∀ p, a.(g_pending) = Some p → proposed gov_governs h p;
  auth_keys : ∀ c, c ∈ a.(g_keys) → appointed h c;
  auth_admin : ∀ k, a.(g_admin) = Some k → ∃ ks w, Initialize k ks w ∈ h;
}.

Lemma authorised_snoc h a o : authorised h a → authorised (h ++ [o]) a.
Proof.
  intros []. split; eauto using sanctioned_snoc, proposed_snoc, appointed_snoc.
  intros k Hk. destruct (auth_admin0 k Hk) as (ks & w & ?). exists ks, w. set_solver.
Qed.

Lemma gov_after_authorised h : authorised h (gov_after h).
Proof.
  induction h as [|o h IH] using rev_ind; [split; simpl; (done || set_solver)|].
  rewrite gov_after_snoc. set (a := gov_after h) in *.
  pose proof (authorised_snoc h a o IH) as IH'.
  destruct o as [k ks w|hash ver c now|c now|c|k c]; simpl; unfold answers, mbind, call_mbind, call_bind.
  - unfold spec_initialize. destruct (g_current a); [done|]. destruct IH'. split; simpl; [| |done| |].
    + intros ? [= <-]. left. exists k, ks. set_solver.
    + done.
    + intros c Hc. exists k, ks, w. set_solver.
    + intros ? [= <-]. exists ks, w. set_solver.
  - unfold spec_propose. destruct (governs a c) eqn:Hg; [|done]. destruct (g_current a) as [cur|] eqn:Hcur; [|done].
    destruct (String.eqb _ _); [done|]. destruct IH'. split; simpl; try done; [by rewrite Hcur in auth_current0|].
    intros ? [= <-]. by exists h, [].
  - unfold spec_execute. destruct (governs a c) eqn:Hg; [|done].
    destruct (g_pending a) as [p|] eqn:Hp; [|done]. destruct (g_current a) as [cur|] eqn:Hcur; [|done].
    pose proof (auth_pending _ _ IH p Hp). destruct IH'. split; simpl; try done.
    + intros ? [= <-]. right. by exists h, c, now, [], p.
    + intros ? [= <-]. by apply auth_current0.
  - unfold spec_rollback. destruct (governs a c); [|done]. destruct (g_prev a) as [prev|] eqn:Hp; [|done].
    destruct IH'. split; simpl; try done. intros ? [= <-]. by apply auth_prev0.
  - unfold spec_add_key. destruct (g_admin a) as [admin|] eqn:Ha; [|done].
    destruct (String.eqb_spec c admin) as [->|]; [|done].
    destruct (auth_admin _ _ IH admin Ha) as (ks & w & Hin). destruct IH'. split; simpl; try done.
    + intros c Hc. destruct (governs a k); [by apply auth_keys0|].
      apply elem_of_app in Hc as [Hc| ->%list_elem_of_singleton]; [by apply auth_keys0|].
      exists admin, ks, w. set_solver.
    + by rewrite Ha in auth_admin0.
Qed.

(** After the calls [h] on the store [s], [c] passes for a governor. *)
Definition governor s h (c : string) : Prop :=
  ∃ rs s', runs call_of h s = Some (rs, s') ∧ require_governance_key c s' = Returned tt s'.

Lemma run_gov s h :
  Forall wt_op h → (∀ k, k ∈ proxy_keys → s !! k = None) →
  ∃ rs s', runs call_of h s = Some (rs, s') ∧ represents s s' (gov_after h).
Proof.
  intros Hh Hs. destruct (runs_refine s h s _ Hh (fresh_represents s Hs)) as (rs & s' & a & Hr & Ha & R).
  apply runs_spec_after in Ha as ->. by exists rs, s'.
Qed.

Lemma governor_gov s h c :
  Forall wt_op h → (∀ k, k ∈ proxy_keys → s !! k = None) → governor s h c ↔ gov_governs h c.
Proof.
  intros Hh Hs. destruct (run_gov s h Hh Hs) as (rs & s' & Hr & R). unfold governor, gov_governs. split.
  - intros (rs1 & s1 & Hr1 & Hg). rewrite Hr in Hr1. simplify_eq.
    rewrite (require_governance_key_reads R) in Hg. by destruct (governs _ _).
  - intros Hg. exists rs, s'. rewrite (require_governance_key_reads R), Hg. done.
Qed.

Lemma proposed_impl (G G' : list op → string → Prop) h p :
  (∀ h1 h2 c, h = h1 ++ h2 → G h1 c → G' h1 c) → proposed G h p → proposed G' h p.
Proof. intros HG (h1 & h2 & -> & ?). exists h1, h2. eauto. Qed.

Lemma sanctioned_impl (G G' : list op → string → Prop) h w :
  (∀ h1 h2 c, h = h1 ++ h2 → G h1 c → G' h1 c) → sanctioned G h w → sanctioned G' h w.
Proof.
  intros HG [?|(h1 & c & now & h2 & p & -> & ? & ? & Hp)]; [by left|right].
  exists h1, c, now, h2, p. split_and!; [done|done|eauto|].
  eapply proposed_impl; [|done]. intros h3 h4 c' ->. eapply HG. by rewrite <- app_assoc.
Qed.

(** Over any history of calls, by anybody, the active code was given at the
    initialisation, or activated by a call of a governor, of a proposal that a governor had
    made; and whoever passes for a governor was named at the initialisation or added by the
    administrator. *)
Theorem active_code_was_authorised h s rs s' :
  Forall wt_op h → (∀ k, k ∈ proxy_keys → s !! k = None) → runs call_of h s = Some (rs, s') →
  (∀ w, current_wasm s' = Returned w s' → sanctioned (governor s) h w) ∧ (∀ c, governor s h c → appointed h c).
Proof.
  intros Hh Hs Hr. destruct (run_gov s h Hh Hs) as (rs1 & s1 & Hr1 & R). rewrite Hr in Hr1. simplify_eq.
  destruct (gov_after_authorised h) as [Hcur _ _ Hkeys _]. split.
  - intros w. rewrite (current_wasm_reads _ _ _ R). destruct (g_current _) as [w'|] eqn:Hw; [|done].
    intros [= ->]. eapply sanctioned_impl; [|by apply Hcur].
    intros h1 h2 c -> Hg. apply Forall_app in Hh as [? _]. by apply governor_gov.
  - intros c Hc%governor_gov; [|done..]. by apply Hkeys, governs_elem.
Qed.

(** A rollback undoes an upgrade: after an upgrade was executed any governor can roll it
    back, which returns the code that was active before and leaves the record as it was,
    counter included, less the proposal that was executed and the snapshot before it. *)
Theorem rollback_undoes_an_upgrade s0 s a caller now w s' governor :
  represents s0 s a → in_u64 now → (a.(g_counter) < 2 ^ 32 - 1)%Z → governs a governor = true →
  execute_upgrade caller now s = Returned w s' →
  ∃ before s'', current_wasm s = Returned before s ∧ current_wasm s' = Returned w s'
    ∧ rollback_upgrade governor s' = Returned before s''
    ∧ represents s0 s'' (with_pending None (with_prev None a)).
Proof.
  intros R Hn Hc Hg Hx. pose proof (execute_refines s0 caller now s a Hn R) as Hag. rewrite Hx in Hag.
  unfold spec_execute in Hag. destruct (governs a caller); [|done].
  destruct (g_pending a) as [p|]; [|done]. destruct (g_current a) as [cur|] eqn:Hcur; [|done].
  destruct Hag as [-> R']. pose proof (rollback_refines s0 governor s' _ R') as Hag2.
  unfold spec_rollback, governs in Hag2. simpl in Hag2. fold (governs a governor) in Hag2. rewrite Hg in Hag2.
  destruct (rollback_upgrade governor s') as [x s''|e s''|]; [|done..]. destruct Hag2 as [-> R''].
  exists cur, s''. rewrite (current_wasm_reads _ _ _ R), (current_wasm_reads _ _ _ R'), Hcur. split_and!; [done..|].
  pose proof (rep_counter_wt _ _ _ R) as Hw. unfold in_u32 in Hw.
  assert (Z.max 0 (u32_add a.(g_counter) 1 - 1) = a.(g_counter))%Z as Hctr.
  { unfold u32_add, as_u32. rewrite Z.mod_small; lia. }
  rewrite Hctr in R''. unfold with_pending, with_prev. simpl. by rewrite Hcur.
Qed.
End life.

(** ** A concrete proxy

    A codec of bits stands for the serializer.  The theorems applied to a concrete history,
    and what single calls answer. *)

(** ** A codec *)

Fixpoint bits (p : positive) : list Z :=
  match p with xH => [] | xO p => 0%Z :: bits p | xI p => 1%Z :: bits p end.

Fixpoint of_bits (l : list Z) : positive :=
  match l with [] => xH | b :: l => if (b =? 0)%Z then xO (of_bits l) else xI (of_bits l) end.

Lemma of_bits_bits p : of_bits (bits p) = p.
Proof. induction p; simpl; congruence. Qed.

Section codec.
Context (T : Type) `{Countable T} (wt : T → Prop).

Definition bits_to_vec (v : T) : result (list Z) string := Ok (bits (encode v)).
Definition bits_from_slice (b : list Z) : result T string :=
  match decode (of_bits b) with Some v => Ok v | None => Err "invalid type" end.

Lemma bits_round_trip v : wt v → ∃ b, bits_to_vec v = Ok b ∧ bits_from_slice b = Ok v.
Proof. intros _. eexists; split; [done|]. unfold bits_from_slice. by rewrite of_bits_bits, decode_encode. Qed.

Definition bits_serde : Serde T wt := {| to_vec := bits_to_vec; from_slice := bits_from_slice; from_to := bits_round_trip |}.
End codec.

#[local] Instance WasmRecord_eq_dec : EqDecision WasmRecord.
Proof. solve_decision. Defined.
#[local] Instance PendingUpgrade_eq_dec : EqDecision PendingUpgrade.
Proof. solve_decision. Defined.

#[local] Instance WasmRecord_countable : Countable WasmRecord.
Proof.
  refine (inj_countable' (λ r, (wasm_hash r, version r, deployed_at r, deployed_by r))
    (λ '(h, v, t, b), {| wasm_hash := h; version := v; deployed_at := t; deployed_by := b |}) _).
  abstract (by intros []).
Defined.

#[local] Instance PendingUpgrade_countable : Countable PendingUpgrade.
Proof.
  refine (inj_countable' (λ r, (target_wasm_hash r, target_version r, proposed_by r, proposed_at r))
    (λ '(h, v, b, t), {| target_wasm_hash := h; target_version := v; proposed_by := b; proposed_at := t |}) _).
  abstract (by intros []).
Defined.

#[local] Instance bits_codecs : Codecs := {|
  serde_wasm := bits_serde _ wt_wasm;
  serde_pending := bits_serde _ wt_pending;
  serde_u32 := bits_serde _ in_u32;
  serde_string := bits_serde _ wt_any;
  serde_strings := bits_serde _ wt_any;
|}.

(** ** A history *)

Definition v1 : WasmRecord :=
  {| wasm_hash := "aabbccdd11111111"; version := "1.0.0"; deployed_at := 1000000; deployed_by := "GADMIN" |}.
Definition v2 : WasmRecord :=
  {| wasm_hash := "aabbccdd22222222"; version := "2.0.0"; deployed_at := 30; deployed_by := "GGOV2" |}.
Definition v3 : WasmRecord :=
  {| wasm_hash := "aabbccdd33333333"; version := "3.0.0"; deployed_at := 60; deployed_by := "GGOV1" |}.

Definition life : list op :=
  [Initialize "GADMIN" ["GGOV1"] v1; Initialize "GSTRANGER" ["GSTRANGER"] v3;
   Propose "aabbccdd22222222" "2.0.0" "GSTRANGER" 10; AddKey "GGOV2" "GADMIN";
   Propose "aabbccdd22222222" "2.0.0" "GGOV1" 20; Execute "GGOV2" 30].

(** The store of another contract, with a key of its own. *)
Definition store : gmap string (list Z) := {[ "impl:feature_flags" := [7%Z] ]}.

Definition after_life : gmap string (list Z) :=
  match runs call_of life store with Some (_, s) => s | None => ∅ end.
Definition life_answers : list (result (option WasmRecord) ProxyError) :=
  match runs call_of life store with Some (rs, _) => rs | None => [] end.

(** The answers of a history, and of calls after it: a proposal made after an upgrade
    outlives its rollback, and a proposal of the active hash under another version passes. *)
Example proxy_answers :
  life_answers = [Ok None; Err (AlreadyDeployed "3.0.0"); Err (Unauthorized "GSTRANGER"); Ok None; Ok None; Ok (Some v2)]
  ∧ result_of (upgrade_count after_life) = Some (Ok 1%Z)
  ∧ option_map fst (runs call_of [Propose "aabbccdd33333333" "3.0.0" "GGOV2" 40; Rollback "GGOV1"; Rollback "GGOV1"; Execute "GGOV1" 60] after_life)
      = Some [Ok None; Ok (Some v1); Err NoRollbackTarget; Ok (Some v3)]
  ∧ option_map fst (runs call_of [Propose "aabbccdd22222222" "2.0.0-again" "GGOV2" 40; Propose "x" "2.0.0" "GGOV2" 41] after_life)
      = Some [Ok None; Err (AlreadyDeployed "2.0.0")].
Proof. vm_compute. split_and!; reflexivity. Qed.

Lemma life_wt : Forall wt_op life.
Proof. repeat constructor; unfold wt_wasm, in_u64; simpl; lia. Qed.

Lemma store_fresh k : k ∈ proxy_keys → store !! k = None.
Proof.
  intros Hk. unfold store. apply lookup_singleton_None. intros <-. by vm_compute in Hk.
Qed.

Definition life_and_back : list op := life ++ [Rollback "GSTRANGER"; Rollback "GGOV1"].


Lemma life_runs : runs call_of life store = Some (life_answers, after_life).
Proof.
  destruct (run_gov store life life_wt store_fresh) as (rs & s' & Hr & _).
  unfold life_answers, after_life. by rewrite Hr.
Qed.

Lemma active_code_was_authorised_witness :
  (∀ w, current_wasm after_life = Returned w after_life → sanctioned (governor store) life w)
  ∧ (∀ c, governor store life c → appointed life c).
Proof.
  apply (active_code_was_authorised life store life_answers after_life); [exact life_wt|exact store_fresh|exact life_runs].
Defined.

(** The proxy before the last call of the history. *)
Definition before_last : gmap string (list Z) :=
  match runs call_of (take 5 life) store with Some (_, s) => s | None => ∅ end.

Lemma before_last_represents : represents store before_last (gov_after (take 5 life)).
Proof.
  destruct (run_gov store (take 5 life)) as (rs & s' & Hr & R); [apply Forall_take, life_wt|apply store_fresh|].
  unfold before_last. by rewrite Hr.
Qed.

#[local] Instance StorageError_eq_dec : EqDecision StorageError.
Proof. solve_decision. Defined.
#[local] Instance ProxyError_eq_dec : EqDecision ProxyError.
Proof. solve_decision. Defined.
#[local] Instance outcome_eq_dec : EqDecision (outcome (gmap string (list Z)) ProxyError WasmRecord).
Proof. solve_decision. Defined.

Lemma rollback_undoes_an_upgrade_witness :
  ∃ before s'', current_wasm before_last = Returned before before_last ∧ current_wasm after_life = Returned v2 after_life
    ∧ rollback_upgrade "GGOV1" after_life = Returned before s''
    ∧ represents store s'' (with_pending None (with_prev None (gov_after (take 5 life)))).
Proof.
  apply (rollback_undoes_an_upgrade store before_last (gov_after (take 5 life)) "GGOV2" 30 v2 after_life "GGOV1").
  - exact before_last_represents.
  - unfold in_u64. lia.
  - vm_compute. reflexivity.
  - vm_compute. reflexivity.
  - apply (bool_decide_eq_true_1 (execute_upgrade "GGOV2" 30 before_last = Returned v2 after_life)). vm_compute. reflexivity.
Defined.
