(* ===== verification/AuditChain.v ===== *)
(** * The audit chain

    [src/src/audit_chain.rs]: an append-only list of records linked by hashes, its
    verification, queries, checkpoints, and the pipeline around it.  Byte buffers are
    strings, as in [RustStr].  SHA-256, HMAC, the hexadecimal codec, the rendering of times
    and the serializer are of other crates: the class [AuditDeps], with what is documented
    of them in [AuditLaws].  The clock and the fresh identifier of an event are arguments. *)

From stdpp Require Import prelude list strings.
From Stdlib Require Import Ascii.
From S2P Require Import Prelude RustStr HashTree.

Definition GENESIS_DOMAIN_PREFIX : string := "STELLAR_K8S_AUDIT_GENESIS_v1:".

(** ** Data *)

Inductive AuditEventType : Type :=
| AdmissionDecision | ConfigChange | SecretRotation | QuotaEnforcement | AutoscalingAction
| TenantAction | NodeLifecycle | SecurityScan | PolicyEvaluation | OperatorStartup
| Custom (name : string).
#[global] Instance AuditEventType_eq_dec : EqDecision AuditEventType.
Proof. solve_decision. Defined.

Inductive AuditSeverity : Type := Info | Warning | Error | Critical.

Record AuditActor : Type := {
  actor_name : string;
  actor_namespace : option string;
  client_ip : option string;
  user_agent : option string;
}.

Definition system (component : string) : AuditActor :=
  {| actor_name := "system:" +:+ component; actor_namespace := Some "stellar-system";
     client_ip := None; user_agent := Some "stellar-operator" |}.

Record TargetResource : Type := {
  kind : string;
  target_name : string;
  target_namespace : option string;
  tenant_id : option string;
}.

Inductive AuditOutcome : Type := Success | Allowed | Denied | Failed.

(** [Value] is the JSON value of [serde_json]. *)
Record AuditEvent (Value : Type) : Type := {
  event_id : string;
  event_timestamp : DateTime;
  event_type : AuditEventType;
  severity : AuditSeverity;
  actor : AuditActor;
  target : TargetResource;
  outcome : AuditOutcome;
  action : string;
  details : Value;
}.
Arguments event_id {Value} _.
Arguments event_timestamp {Value} _.
Arguments event_type {Value} _.
Arguments severity {Value} _.
Arguments actor {Value} _.
Arguments target {Value} _.
Arguments outcome {Value} _.
Arguments action {Value} _.
Arguments details {Value} _.

Record AuditRecord (Value : Type) : Type := {
  sequence : Z;
  timestamp : DateTime;
  event : AuditEvent Value;
  prev_hash : string;
  record_hash : string;
  signature : option string;
}.
Arguments sequence {Value} _.
Arguments timestamp {Value} _.
Arguments event {Value} _.
Arguments prev_hash {Value} _.
Arguments record_hash {Value} _.
Arguments signature {Value} _.

Record SignedCheckpoint : Type := {
  start_sequence : Z;
  end_sequence : Z;
  cp_count : Z;
  merkle_root : string;
  cp_head_hash : string;
  created_at : DateTime;
  cp_signature : string;
}.

Record ChainVerificationSummary : Type := {
  valid : bool;
  total_records : nat;
  summary_genesis : string;
  summary_head : string;
  summary_start : Z;
  summary_end : Z;
  summary_message : string;
}.

Inductive TamperType : Type :=
| BrokenHashLink | PayloadMutation | SequenceMismatch | NonMonotonicTimestamp | GenesisMismatch | InvalidSignature.

Record AuditTamperError : Type := {
  tamper_sequence : Z;
  error_type : TamperType;
  expected_hash : string;
  actual_hash : string;
  tamper_message : string;
}.

(** ** What comes from other crates *)

Class AuditDeps : Type := {
  Value : Type;
  sha256 : string → string;
  hmac_sha256 : string → string → string;        (** key, message *)
  hex_encode : string → string;
  hex_decode : string → option string;
  to_rfc3339 : DateTime → string;
  display_time : DateTime → string;
  to_json : AuditEvent Value → result string string;
}.

(** Digests have 32 bytes; hexadecimal doubles the length, is made of digits and small
    letters, and reads back; distinct times have distinct texts, without a brace; distinct
    events have distinct texts, which start with one. *)
Class AuditLaws (D : AuditDeps) : Prop := {
  sha256_length : ∀ d, String.length (sha256 d) = 32;
  hex_encode_length : ∀ d, String.length (hex_encode d) = 2 * String.length d;
  hex_encode_head : ∀ d c s, hex_encode d = String c s → (Ascii.nat_of_ascii c < 58 ∨ 96 < Ascii.nat_of_ascii c);
  hex_round_trip : ∀ d, hex_decode (hex_encode d) = Some d;
  rfc3339_inj : ∀ t t', to_rfc3339 t = to_rfc3339 t' → t = t';
  rfc3339_chars : ∀ t, ¬ In "{"%char (String.list_ascii_of_string (to_rfc3339 t));
  json_starts : ∀ e, ∃ s, to_json e = Ok (String "{"%char s);
  json_inj : ∀ e e', to_json e = to_json e' → e = e';
}.

(** ** Hashes *)

(** [u64::to_be_bytes]. *)
Definition to_be_bytes (z : Z) : string :=
  String.string_of_list_ascii ((λ i, Ascii.ascii_of_N (Z.to_N (z / 256 ^ Z.of_nat i mod 256))) <$> reverse (seq 0 8)).

Section chain.
Context `{!AuditDeps}.
Abbreviation event_t := (AuditEvent Value).
Abbreviation record_t := (AuditRecord Value).

(** What [compute_record_hash] hashes. *)
Definition record_input (prev_hash : string) (sequence : Z) (timestamp : DateTime) (event : event_t) : string :=
  prev_hash +:+ to_be_bytes sequence +:+ to_rfc3339 timestamp
  +:+ match to_json event with Ok s => s | Err _ => "" end.

Definition compute_record_hash (prev_hash : string) (sequence : Z) (timestamp : DateTime) (event : event_t) : string :=
  hex_encode (sha256 (record_input prev_hash sequence timestamp event)).

Definition compute_hmac_signature (data secret_key : string) : string := hex_encode (hmac_sha256 secret_key data).

(** A parent in the Merkle tree of a checkpoint: no prefix. *)
Definition chunk_hash (l r : string) : string := sha256 (l +:+ r).

Definition decode_leaf (h : string) : string := default "" (hex_decode h).

(** The root; [None] is a panic of the index, which is never reached. *)
Definition compute_merkle_root (leaves : list string) : option string :=
  match leaves with
  | [] => Some "0000000000000000000000000000000000000000000000000000000000000000"
  | [leaf] => Some leaf
  | _ => root ← fold_levels chunk_hash (length leaves) (decode_leaf <$> leaves); Some (hex_encode root)
  end.

(** ** The chain *)

Record AuditChain : Type := {
  cluster_id : string;
  genesis_hash : string;
  records : list record_t;
  signing_secret : option string;
}.

Definition new (cluster_id : string) (signing_secret : option string) : AuditChain :=
  {| cluster_id := cluster_id; genesis_hash := hex_encode (sha256 (GENESIS_DOMAIN_PREFIX +:+ cluster_id));
     records := []; signing_secret := signing_secret |}.

Definition head_hash (c : AuditChain) : string :=
  match last c.(records) with Some r => r.(record_hash) | None => c.(genesis_hash) end.

(** [append] at the time [now]: the chain after it and the record. *)
Definition append (event : event_t) (now : DateTime) (c : AuditChain) : AuditChain * record_t :=
  let sequence := Z.of_nat (length c.(records)) in
  let prev_hash := head_hash c in
  let record_hash := compute_record_hash prev_hash sequence now event in
  let signature := (λ key, compute_hmac_signature record_hash key) <$> c.(signing_secret) in
  let record := {| sequence := sequence; timestamp := now; event := event; prev_hash := prev_hash;
                   record_hash := record_hash; signature := signature |} in
  ({| cluster_id := c.(cluster_id); genesis_hash := c.(genesis_hash);
      records := c.(records) ++ [record]; signing_secret := c.(signing_secret) |}, record).

Definition matches (et : option AuditEventType) (tid : option string) (r : record_t) : bool :=
  match et with Some et => bool_decide (r.(event).(event_type) = et) | None => true end
  && match tid with Some tid => bool_decide (r.(event).(target).(tenant_id) = Some tid) | None => true end.

Definition query (c : AuditChain) (start_seq : option Z) (limit : nat) (et : option AuditEventType) (tid : option string) : list record_t :=
  take limit (List.filter (matches et tid) (drop (Z.to_nat (default 0%Z start_seq)) c.(records))).

(** [None] of the code is [Some None]; [None] is a panic. *)
Definition create_checkpoint (now : DateTime) (c : AuditChain) : option (option SignedCheckpoint) :=
  if decide (c.(records) = []) then Some None
  else
    let end_sequence := Z.of_nat (length c.(records) - 1) in
    let head_hash := head_hash c in
    merkle_root ← compute_merkle_root (record_hash <$> c.(records));
    let signing_material := "0:" +:+ show_Z end_sequence +:+ ":" +:+ merkle_root +:+ ":" +:+ head_hash in
    Some (Some {| start_sequence := 0; end_sequence := end_sequence; cp_count := Z.of_nat (length c.(records));
                  merkle_root := merkle_root; cp_head_hash := head_hash; created_at := now;
                  cp_signature := match c.(signing_secret) with
                                  | Some key => compute_hmac_signature signing_material key
                                  | None => "unsigned"
                                  end |}).

(** ** Verification *)

Definition tamper (seq : Z) (t : TamperType) (expected actual message : string) : AuditTamperError :=
  {| tamper_sequence := seq; error_type := t; expected_hash := expected; actual_hash := actual; tamper_message := message |}.

(** The checks of one record, after a predecessor with the hash and the time given. *)
Definition check_record (idx : nat) (prev_hash_ : string) (prev_timestamp : DateTime) (record : record_t) : option AuditTamperError :=
  let expected_seq := Z.of_nat idx in
  if negb (record.(sequence) =? expected_seq)%Z then
    Some (tamper record.(sequence) SequenceMismatch ("seq:" +:+ show_Z expected_seq) ("seq:" +:+ show_Z record.(sequence))
      ("Sequence jump detected: expected " +:+ show_Z expected_seq +:+ ", found " +:+ show_Z record.(sequence)))
  else if negb (String.eqb record.(prev_hash) prev_hash_) then
    Some (tamper record.(sequence) (if (idx =? 0)%nat then GenesisMismatch else BrokenHashLink) prev_hash_ record.(prev_hash)
      ("Broken hash link: expected prev_hash " +:+ prev_hash_ +:+ ", found " +:+ record.(prev_hash)))
  else if (record.(timestamp) <? prev_timestamp)%Z then
    Some (tamper record.(sequence) NonMonotonicTimestamp (to_rfc3339 prev_timestamp) (to_rfc3339 record.(timestamp))
      ("Timestamp retroactivity detected: record time " +:+ display_time record.(timestamp)
       +:+ " is before previous " +:+ display_time prev_timestamp))
  else
    let computed_hash := compute_record_hash record.(prev_hash) record.(sequence) record.(timestamp) record.(event) in
    if negb (String.eqb computed_hash record.(record_hash)) then
      Some (tamper record.(sequence) PayloadMutation computed_hash record.(record_hash)
        "Payload mutation detected: record hash does not match computed event content")
    else None.

(** The loop; the first record that fails a check is reported. *)
Fixpoint check_records (idx : nat) (prev_hash_ : string) (prev_timestamp : DateTime) (l : list record_t) : option AuditTamperError :=
  match l with
  | [] => None
  | record :: l' =>
      match check_record idx prev_hash_ prev_timestamp record with
      | Some e => Some e
      | None => check_records (S idx) record.(record_hash) record.(timestamp) l'
      end
  end.

Definition verify_audit_chain (l : list record_t) (expected_genesis : string) : result ChainVerificationSummary AuditTamperError :=
  match l with
  | [] => Ok {| valid := true; total_records := 0; summary_genesis := expected_genesis; summary_head := expected_genesis;
                summary_start := 0; summary_end := 0; summary_message := "Empty chain is valid" |}
  | first :: l' =>
      match check_records 0 expected_genesis (first.(timestamp) - seconds 1)%Z l with
      | Some e => Err e
      | None =>
          let final := default first (last l) in
          Ok {| valid := true; total_records := length l; summary_genesis := expected_genesis;
                summary_head := final.(record_hash); summary_start := first.(sequence); summary_end := final.(sequence);
                summary_message := "Successfully verified " +:+ show_Z (Z.of_nat (length l))
                  +:+ " audit records with intact hash chain" |}
      end
  end.

(** ** The pipeline

    Its lock makes each call one step on the chain. *)

(** [record]: the identifier and the first reading of the clock are taken before the lock. *)
Definition record (uuid : string) (created now : DateTime) (event_type : AuditEventType) (severity : AuditSeverity)
    (actor : AuditActor) (target : TargetResource) (action : string) (outcome : AuditOutcome) (details : Value)
    (c : AuditChain) : AuditChain * record_t :=
  append {| event_id := uuid; event_timestamp := created; event_type := event_type; severity := severity;
            actor := actor; target := target; outcome := outcome; action := action; details := details |} now c.

Definition verify (c : AuditChain) : result ChainVerificationSummary AuditTamperError :=
  verify_audit_chain c.(records) c.(genesis_hash).
End chain.
