(* ===== verification/AuditProps.v ===== *)
(** * The audit chain over its life

    Chains made by appending, and what their verification and their checkpoints show. *)

From stdpp Require Import prelude list strings.
From Stdlib Require Import Sorted.
From S2P Require Import Prelude RustStr HashTree AuditChain AuditFacts.

Section life.
Context {D : AuditDeps} {Laws : AuditLaws D}.
Abbreviation event_t := (AuditEvent Value).
Abbreviation record_t := (AuditRecord Value).
Implicit Types (l : list record_t) (r : record_t) (calls : list (event_t * DateTime)).

(** C8: The hash a verified chain ends with binds its history: two chains of a cluster that
    verify and end with the same hash have the same records in the same order, their
    signatures apart, or two different strings that were hashed have the same digest. *)
Theorem the_head_binds_the_history cluster l1 l2 s1 s2 :
  verify_audit_chain l1 (genesis cluster) = Ok s1 → verify_audit_chain l2 (genesis cluster) = Ok s2 →
  (Z.of_nat (length l1) < 2 ^ 64)%Z → (Z.of_nat (length l2) < 2 ^ 64)%Z →
  s1.(summary_head) = s2.(summary_head) →
  Forall2 same_record l1 l2 ∨ collides sha256 (chain_inputs cluster l1) (chain_inputs cluster l2).
Proof.
  intros [Hc1 H1]%verify_Ok [Hc2 H2]%verify_Ok ?? Hh. apply heads_bind; [done..|]. by rewrite <- H1, <- H2.
Qed.

(** ** Appended chains *)

Definition appended (cluster : string) (secret : option string) calls : AuditChain :=
  foldl (λ c '(e, now), (append e now c).1) (new cluster secret) calls.

Lemma appended_snoc cluster secret calls e now :
  appended cluster secret (calls ++ [(e, now)]) = (append e now (appended cluster secret calls)).1.
Proof. unfold appended. by rewrite foldl_app. Qed.

Lemma appended_genesis cluster secret calls : (appended cluster secret calls).(genesis_hash) = genesis cluster.
Proof. induction calls as [|[e now] calls IH] using rev_ind; [done|]. by rewrite appended_snoc. Qed.

Lemma appended_head cluster secret calls :
  head_hash (appended cluster secret calls) = ends_at (genesis cluster) (appended cluster secret calls).(records).
Proof. unfold head_hash, ends_at. by rewrite appended_genesis. Qed.

Lemma appended_built cluster secret calls :
  let l := (appended cluster secret calls).(records) in
  built 0 (genesis cluster) l ∧ timestamp <$> l = calls.*2 ∧ event <$> l = calls.*1.
Proof.
  induction calls as [|[e now] calls (IHb & IHt & IHe)] using rev_ind; [done|]. cbn zeta in *.
  rewrite appended_snoc, !fmap_app, <- IHt, <- IHe. simpl. rewrite !fmap_app. split_and!; [|done..].
  apply built_snoc. split_and!; [done|done|apply appended_head|done].
Qed.

Lemma appended_length cluster secret calls : length (appended cluster secret calls).(records) = length calls.
Proof.
  destruct (appended_built cluster secret calls) as (_ & Ht & _).
  by rewrite <- (length_fmap timestamp), Ht, length_fmap.
Qed.

(** ** Verification and the clock *)

Fixpoint nondecreasing (t : DateTime) (ts : list DateTime) : bool :=
  match ts with [] => true | t' :: ts' => (t <=? t')%Z && nondecreasing t' ts' end.

Lemma nondecreasing_Sorted t ts : nondecreasing t ts = true ↔ Sorted Z.le (t :: ts).
Proof.
  revert t. induction ts as [|t' ts IH]; intros t; simpl.
  - split; [|done]. intros _. repeat constructor.
  - rewrite andb_true_iff, IH, Z.leb_le. split.
    + intros [Hle Hs]. constructor; [done|by constructor].
    + intros Hs. apply Sorted_inv in Hs as [? Hh]. apply HdRel_inv in Hh. done.
Qed.

Lemma check_built idx g t l :
  built idx g l →
  if nondecreasing t (timestamp <$> l) then check_records idx g t l = None
  else ∃ e, check_records idx g t l = Some e ∧ e.(error_type) = NonMonotonicTimestamp.
Proof.
  revert idx g t. induction l as [|r l IH]; intros idx g t; simpl; [done|].
  intros (Hs & Hp & Hh & Hl). destruct (Z.leb_spec t r.(timestamp)) as [Ht|Ht]; simpl.
  - rewrite (proj2 (check_record_spec idx g t r)) by done. by apply IH.
  - unfold check_record. rewrite Hs, Z.eqb_refl, Hp, String.eqb_refl. simpl.
    rewrite (proj2 (Z.ltb_lt _ _)) by done. eauto.
Qed.

(** A chain made by appending verifies exactly when the clock never went back between
    two records, with the count and the head of the chain in the summary; when it did, the
    chain is reported as tampered with, though nobody touched it. *)
Theorem appended_chains_verify cluster secret calls :
  let c := appended cluster secret calls in
  (Sorted Z.le calls.*2 →
     ∃ s, verify c = Ok s ∧ s.(valid) = true ∧ s.(total_records) = length calls ∧ s.(summary_head) = head_hash c)
  ∧ (¬ Sorted Z.le calls.*2 → ∃ e, verify c = Err e ∧ e.(error_type) = NonMonotonicTimestamp).
Proof.
  intros c. destruct (appended_built cluster secret calls) as (Hb & Ht & He). fold c in Hb, Ht, He.
  pose proof (appended_length cluster secret calls) as Hlen. fold c in Hlen.
  pose proof (appended_genesis cluster secret calls) as Hg. pose proof (appended_head cluster secret calls) as Hh.
  fold c in Hg, Hh. rewrite Hh. unfold verify, verify_audit_chain. rewrite Hg. clearbody c.
  destruct c.(records) as [|r l] eqn:Hl; [destruct calls; [|done]; split; [by eexists|intros []; constructor]|].
  pose proof (check_built 0 _ (r.(timestamp) - seconds 1)%Z _ Hb) as Hc.
  rewrite <- Ht. cbn [fmap list_fmap nondecreasing] in Hc |- *.
  rewrite (proj2 (Z.leb_le _ _)) in Hc by (unfold seconds, NANOS; lia). cbn [andb] in Hc.
  destruct (nondecreasing (timestamp r) (timestamp <$> l)) eqn:Hn.
  - split; [intros _|intros Hs; by destruct Hs; apply nondecreasing_Sorted]. rewrite Hc. eexists. split_and!; [done|done|by rewrite <- Hlen|].
    unfold ends_at. rewrite last_cons. simpl. by destruct (last l).
  - destruct Hc as (e & -> & ?). split; [|by eexists].
    intros Hs%nondecreasing_Sorted. congruence.
Qed.

(** ** What verification does not see *)

Definition resign (f : record_t → option string) r : record_t :=
  {| sequence := r.(sequence); timestamp := r.(timestamp); event := r.(event);
     prev_hash := r.(prev_hash); record_hash := r.(record_hash); signature := f r |}.

Lemma check_records_resigned f idx g t l : check_records idx g t (resign f <$> l) = check_records idx g t l.
Proof. revert idx g t. induction l as [|r l IH]; intros idx g t; simpl; [done|]. by rewrite IH. Qed.

Lemma check_records_prefix idx g t l k : check_records idx g t l = None → check_records idx g t (take k l) = None.
Proof.
  revert idx g t k. induction l as [|r l IH]; intros idx g t [|k]; simpl; try done.
  destruct (check_record idx g t r); [done|]. apply IH.
Qed.

(** Verification sees neither a truncation nor a signature: every prefix of a chain that
    verifies, with its signatures replaced or removed, verifies. *)
Theorem truncated_and_unsigned_chains_verify l g s k f :
  verify_audit_chain l g = Ok s → ∃ s', verify_audit_chain (resign f <$> take k l) g = Ok s'.
Proof.
  unfold verify_audit_chain. destruct l as [|r l]; [rewrite take_nil; by eexists|].
  destruct (check_records _ _ _ _) eqn:Hc; [done|]. intros _. destruct k as [|k]; [by eexists|].
  pose proof (check_records_prefix _ _ _ _ (S k) Hc) as Hp.
  rewrite <- (check_records_resigned f) in Hp. cbn [take fmap list_fmap] in Hp |- *.
  change (timestamp (resign f r)) with (timestamp r). rewrite Hp. by eexists.
Qed.

(** ** Checkpoints *)

Definition digest (d : string) : Prop := String.length d = 32.

(** The strings a checkpoint hashes, with those of the chain. *)
Definition checkpoint_inputs (cluster : string) l : list string :=
  chain_inputs cluster l ++ tree_inputs sha256 String.append (length l) (decode_leaf <$> (record_hash <$> l)).

Lemma built_hashes idx g l : built idx g l → Forall (λ r, r.(record_hash) = hash_of r) l.
Proof. revert idx g. induction l as [|r l IH]; intros idx g; simpl; [done|]. intros (? & ? & ? & ?). by constructor; [|eapply IH]. Qed.

Lemma decoded_hashes l :
  Forall (λ r, r.(record_hash) = hash_of r) l →
  record_hash <$> l = hex_encode <$> (decode_leaf <$> (record_hash <$> l))
  ∧ Forall digest (decode_leaf <$> (record_hash <$> l)).
Proof.
  induction 1 as [|r l Hr Hl [IH1 IH2]]; [done|]. csimpl.
  assert (decode_leaf r.(record_hash) = sha256 (input_of r)) as Hd.
  { rewrite Hr. unfold decode_leaf, hash_of, compute_record_hash. by rewrite hex_round_trip. }
  rewrite Hd, <- IH1. split; [by rewrite Hr at 1|]. constructor; [apply sha256_length|done].
Qed.

Lemma append_digest_inj a b a' b' : digest a → digest a' → a +:+ b = a' +:+ b' → a = a' ∧ b = b'.
Proof. unfold digest. intros Hl Hl'. apply append_inj. congruence. Qed.

Lemma compute_merkle_root_binds l1 l2 root :
  length l1 = length l2 →
  Forall (λ r, r.(record_hash) = hash_of r) l1 → Forall (λ r, r.(record_hash) = hash_of r) l2 →
  compute_merkle_root (record_hash <$> l1) = Some root → compute_merkle_root (record_hash <$> l2) = Some root →
  record_hash <$> l1 = record_hash <$> l2
  ∨ collides sha256 (tree_inputs sha256 String.append (length l1) (decode_leaf <$> (record_hash <$> l1)))
                    (tree_inputs sha256 String.append (length l1) (decode_leaf <$> (record_hash <$> l2))).
Proof.
  intros Hlen [E1 V1]%decoded_hashes [E2 V2]%decoded_hashes.
  destruct l1 as [|r1 [|r1' l1]], l2 as [|r2 [|r2' l2]]; try done.
  - by left.
  - intros [= ?] [= ?]. left. simpl. congruence.
  - set (m1 := r1 :: r1' :: l1) in *. set (m2 := r2 :: r2' :: l2) in *.
    change (compute_merkle_root (record_hash <$> m1)) with
      (root ← fold_levels chunk_hash (length (record_hash <$> m1)) (decode_leaf <$> (record_hash <$> m1)); Some (hex_encode root)).
    change (compute_merkle_root (record_hash <$> m2)) with
      (root ← fold_levels chunk_hash (length (record_hash <$> m2)) (decode_leaf <$> (record_hash <$> m2)); Some (hex_encode root)).
    rewrite !length_fmap, <- Hlen. intros (d1 & H1 & [= <-])%bind_Some (d2 & H2 & [= ->%hex_encode_inj])%bind_Some.
    destruct (fold_levels_binds sha256 String.append digest sha256_length append_digest_inj (length m1)
      (decode_leaf <$> (record_hash <$> m1)) (decode_leaf <$> (record_hash <$> m2)) d1) as [Heq|?];
      [by rewrite !length_fmap|done..|left; by rewrite E1, E2, Heq|by right].
Qed.

Lemma compute_merkle_root_returns leaves : ∃ root, compute_merkle_root leaves = Some root.
Proof.
  destruct leaves as [|h1 [|h2 leaves]]; [by eexists..|].
  destruct (fold_levels_returns chunk_hash (length (h1 :: h2 :: leaves)) (decode_leaf <$> (h1 :: h2 :: leaves))) as [d Hd];
    [done|by rewrite length_fmap|]. exists (hex_encode d). unfold compute_merkle_root. by rewrite Hd.
Qed.

Lemma appended_checkpoint cluster secret calls now :
  let c := appended cluster secret calls in
  calls ≠ [] → ∃ cp, create_checkpoint now c = Some (Some cp) ∧ cp.(end_sequence) = Z.of_nat (length calls - 1)
    ∧ compute_merkle_root (record_hash <$> c.(records)) = Some cp.(merkle_root).
Proof.
  intros c Hne. pose proof (appended_length cluster secret calls) as Hl. fold c in Hl.
  destruct (compute_merkle_root_returns (record_hash <$> c.(records))) as [m Hm].
  unfold create_checkpoint. rewrite Hm, Hl.
  destruct (decide (c.(records) = [])) as [E|_]; [rewrite E in Hl; by destruct calls|]. by eexists.
Qed.

(** A checkpoint is made of every chain that is not empty, and binds it: two chains of a
    cluster whose checkpoints have the same end and the same root have the same records,
    their signatures apart, or two different strings that were hashed have the same digest. *)
Theorem checkpoints_bind_the_chain cluster secret1 secret2 calls1 calls2 now1 now2 :
  let c1 := appended cluster secret1 calls1 in
  let c2 := appended cluster secret2 calls2 in
  calls1 ≠ [] → calls2 ≠ [] → (Z.of_nat (length calls1) < 2 ^ 64)%Z →
  ∃ cp1 cp2, create_checkpoint now1 c1 = Some (Some cp1) ∧ create_checkpoint now2 c2 = Some (Some cp2)
    ∧ (cp1.(end_sequence) = cp2.(end_sequence) → cp1.(merkle_root) = cp2.(merkle_root) →
       Forall2 same_record c1.(records) c2.(records)
       ∨ collides sha256 (checkpoint_inputs cluster c1.(records)) (checkpoint_inputs cluster c2.(records))).
Proof.
  intros c1 c2 Hne1 Hne2 Hlt.
  destruct (appended_checkpoint cluster secret1 calls1 now1 Hne1) as (cp1 & C1 & E1 & M1).
  destruct (appended_checkpoint cluster secret2 calls2 now2 Hne2) as (cp2 & C2 & E2 & M2).
  exists cp1, cp2. split_and!; [done..|]. intros He Hm.
  pose proof (appended_length cluster secret1 calls1) as L1. pose proof (appended_length cluster secret2 calls2) as L2.
  destruct (appended_built cluster secret1 calls1) as [B1 _], (appended_built cluster secret2 calls2) as [B2 _].
  fold c1 in M1, L1, B1. fold c2 in M2, L2, B2. rewrite <- Hm in M2.
  assert (length calls1 = length calls2) as Hlen by (destruct calls1, calls2; simpl in *; [done..|lia]).
  destruct (compute_merkle_root_binds c1.(records) c2.(records) cp1.(merkle_root)) as [Hh|Hc];
    [congruence|by eapply built_hashes..|done|done| |].
  - destruct (heads_bind cluster c1.(records) c2.(records)) as [?|Hc]; [done|done|lia|lia| |by left|].
    + unfold ends_at. apply (f_equal last) in Hh. rewrite !fmap_last in Hh.
      by destruct (last c1.(records)), (last c2.(records)); simplify_eq/=.
    + right. eapply collides_subseteq; [..|exact Hc]; unfold checkpoint_inputs; set_solver.
  - right. eapply collides_subseteq; [..|exact Hc]; unfold checkpoint_inputs; rewrite ?L1, ?L2, ?Hlen; set_solver.
Qed.
End life.
