(* ===== verification/AuditWitness.v ===== *)
(** * A concrete audit chain

    A padded checksum stands for the digests, hexadecimal is written out, and codecs of bits stand
    for the texts of times and events; they satisfy the laws.  The theorems applied to
    concrete chains, and what verification answers. *)

From stdpp Require Import prelude list strings countable.
From Stdlib Require Import Ascii Sorted.
From S2P Require Import Prelude RustStr HashTree AuditChain AuditFacts AuditProps.

(** ** Codecs *)

Definition hex_digit (n : nat) : ascii := ascii_of_nat (if n <? 10 then 48 + n else 87 + n).
Definition hex_value (c : ascii) : nat := let n := nat_of_ascii c in if n <? 58 then n - 48 else n - 87.

Fixpoint hex (s : string) : string :=
  match s with
  | String.EmptyString => ""
  | String c s => String (hex_digit (nat_of_ascii c / 16)) (String (hex_digit (nat_of_ascii c mod 16)) (hex s))
  end.

Fixpoint unhex (s : string) : option string :=
  match s with
  | String.EmptyString => Some ""
  | String a (String b s) => r ← unhex s; Some (String (ascii_of_nat (16 * hex_value a + hex_value b)) r)
  | _ => None
  end.

(** A digit or a small letter up to [f]. *)
Definition is_hex_digit (c : ascii) : bool :=
  let n := nat_of_ascii c in ((48 <=? n) && (n <? 58)) || ((97 <=? n) && (n <? 103)).

Lemma hex_char c :
  ascii_of_nat (16 * hex_value (hex_digit (nat_of_ascii c / 16)) + hex_value (hex_digit (nat_of_ascii c mod 16))) = c
  ∧ is_hex_digit (hex_digit (nat_of_ascii c / 16)) = true ∧ is_hex_digit (hex_digit (nat_of_ascii c mod 16)) = true.
Proof. destruct c as [[] [] [] [] [] [] [] []]; vm_compute; split_and!; reflexivity. Qed.

Lemma hex_digits s c : In c (String.list_ascii_of_string (hex s)) → is_hex_digit c = true.
Proof.
  induction s as [|c' s IH]; [done|]. cbn [hex String.list_ascii_of_string In].
  destruct (hex_char c') as (_ & ? & ?). intros [<-|[<-|?]]; auto.
Qed.

Lemma hex_length s : String.length (hex s) = 2 * String.length s.
Proof. induction s as [|c s IH]; simpl; [done|]. rewrite IH. lia. Qed.

Lemma unhex_hex s : unhex (hex s) = Some s.
Proof. induction s as [|c s IH]; [done|]. cbn [hex unhex]. rewrite IH. cbn [mbind option_bind]. by rewrite (proj1 (hex_char c)). Qed.

Lemma hex_head s c t : hex s = String c t → nat_of_ascii c < 58 ∨ 96 < nat_of_ascii c.
Proof.
  intros H. assert (is_hex_digit c = true) as Hc by (apply (hex_digits s); rewrite H; by left).
  unfold is_hex_digit in Hc. apply orb_true_iff in Hc as [[? ?]%andb_true_iff|[? ?]%andb_true_iff].
  - left. by apply Nat.ltb_lt.
  - right. by apply Nat.leb_le.
Qed.

Definition checksum (m : Z) (d : string) : string :=
  let s := foldl (λ s c, (s * m + Z.of_N (N_of_ascii c) + 1) mod 2 ^ 24)%Z m (String.list_ascii_of_string d) in
  String.string_of_list_ascii ((λ i, ascii_of_N (Z.to_N ((s / 256 ^ Z.of_nat i) mod 256))) <$> seq 0 32).

Fixpoint bits (p : positive) : string :=
  match p with xH => "" | xO p => String "0" (bits p) | xI p => String "1" (bits p) end.

Lemma bits_inj p q : bits p = bits q → p = q.
Proof. revert q. induction p as [p IH|p IH|]; intros [q|q|]; simpl; intros [=]; f_equal; auto. Qed.

Lemma bits_chars p : ¬ In "{"%char (String.list_ascii_of_string (bits p)).
Proof. induction p as [p IH|p IH|]; simpl; [intros [?|?]; done..|tauto]. Qed.

(** Events as fields that end in a comma, without a brace. *)
Definition plain (s : string) : Prop := ¬ In ","%char (String.list_ascii_of_string s).

Definition fields_text (l : list string) : string := foldr (λ f t, f +:+ String "," t) "" l.

Lemma fields_text_inj l l' :
  Forall plain l → Forall plain l' → length l = length l' → fields_text l = fields_text l' → l = l'.
Proof.
  intros Hl. revert l'. induction Hl as [|f l Hf _ IH]; intros [|f' l'] Hl' Hlen; simpl; try done.
  inversion_clear Hl' as [|? ? Hf' Hl'']. intros [-> H]%append_mark_inj; [|done..]. f_equal. auto.
Qed.

Definition option_text (o : option string) : string := match o with None => "n" | Some s => String "s" (hex s) end.

Lemma hex_plain s : plain (hex s).
Proof. intros H%hex_digits. done. Qed.
Lemma option_plain o : plain (option_text o).
Proof. destruct o as [s|]; simpl; [intros [?|H]; [done|by apply (hex_plain s)]|intros [?|?]; done]. Qed.
Lemma bits_plain p : plain (bits p).
Proof. unfold plain. induction p as [p IH|p IH|]; simpl; [intros [?|?]; done..|tauto]. Qed.

Lemma hex_inj s s' : hex s = hex s' → s = s'.
Proof. intros H. apply (f_equal unhex) in H. rewrite !unhex_hex in H. congruence. Qed.
Lemma option_text_inj o o' : option_text o = option_text o' → o = o'.
Proof. destruct o, o'; simpl; try done. by intros [= ->%hex_inj]. Qed.

Definition type_code (t : AuditEventType) : option string :=
  match t with
  | AdmissionDecision => Some "0" | ConfigChange => Some "1" | SecretRotation => Some "2" | QuotaEnforcement => Some "3"
  | AutoscalingAction => Some "4" | TenantAction => Some "5" | NodeLifecycle => Some "6" | SecurityScan => Some "7"
  | PolicyEvaluation => Some "8" | OperatorStartup => Some "9" | Custom s => Some (String "c" s)
  end.
Definition severity_code (s : AuditSeverity) : string := match s with Info => "0" | Warning => "1" | Error => "2" | Critical => "3" end.
Definition outcome_code (s : AuditOutcome) : string := match s with Success => "0" | Allowed => "1" | Denied => "2" | Failed => "3" end.

Definition event_fields (e : AuditEvent string) : list string :=
  [bits (encode (event_timestamp e)); hex (event_id e); option_text (type_code (event_type e)); hex (severity_code (severity e));
   hex (actor_name (actor e)); option_text (actor_namespace (actor e)); option_text (client_ip (actor e)); option_text (user_agent (actor e));
   hex (kind (target e)); hex (target_name (target e)); option_text (target_namespace (target e)); option_text (tenant_id (target e));
   hex (outcome_code (outcome e)); hex (action e); hex (details e)].

Lemma event_fields_plain e : Forall plain (event_fields e).
Proof. repeat constructor; auto using hex_plain, option_plain, bits_plain. Qed.

Lemma event_fields_inj e e' : event_fields e = event_fields e' → e = e'.
Proof.
  destruct e as [i t ty sv [] [] o ac d], e' as [i' t' ty' sv' [] [] o' ac' d']. unfold event_fields; simpl.
  intros [= Ht%bits_inj ->%hex_inj Hty%option_text_inj Hsv%hex_inj ->%hex_inj ->%option_text_inj ->%option_text_inj
    ->%option_text_inj ->%hex_inj ->%hex_inj ->%option_text_inj ->%option_text_inj Ho%hex_inj ->%hex_inj ->%hex_inj].
  apply (inj encode) in Ht as ->.
  assert (ty = ty') as -> by (by destruct ty, ty'; simplify_eq/=).
  assert (sv = sv') as -> by (by destruct sv, sv'). by assert (o = o') as -> by (by destruct o, o').
Qed.

#[local] Instance deps : AuditDeps := {|
  Value := string;
  sha256 := checksum 263;
  hmac_sha256 := λ key data, checksum 521 (key +:+ data);
  hex_encode := hex;
  hex_decode := unhex;
  to_rfc3339 := λ t, bits (encode t);
  display_time := λ t, bits (encode t);
  to_json := λ e, Ok (String "{" (fields_text (event_fields e)));
|}.

#[local] Instance laws : AuditLaws deps.
Proof.
  split; simpl.
  - reflexivity.
  - apply hex_length.
  - apply hex_head.
  - apply unhex_hex.
  - intros t t' H%bits_inj. by apply (inj encode).
  - intros t. apply bits_chars.
  - intros e. by eexists.
  - intros e e' [= H]. apply event_fields_inj, fields_text_inj; auto using event_fields_plain.
Qed.

(** ** Chains *)

Definition an_event (name act : string) : AuditEvent string :=
  {| event_id := name; event_timestamp := 5; event_type := AdmissionDecision; severity := Info; actor := system "webhook";
     target := {| kind := "StellarNode"; target_name := name; target_namespace := Some "default"; tenant_id := Some "tenant-1" |};
     outcome := Allowed; action := act; details := "" |}.

Definition calls : list (AuditEvent string * Z) :=
  [(an_event "node-1" "create", 10%Z); (an_event "node-2" "scale", 10%Z); (an_event "node-1" "delete", 12%Z)].
Definition chain : AuditChain := appended "c1" (Some "key") calls.

Definition with_action (act : string) (r : AuditRecord string) : AuditRecord string :=
  {| sequence := sequence r; timestamp := timestamp r; event := an_event (event_id (event r)) act;
     prev_hash := prev_hash r; record_hash := record_hash r; signature := signature r |}.

(** What verification answers, as the kind of tampering and its place. *)
Definition verdict (l : list (AuditRecord string)) : option (Z * TamperType) :=
  match verify_audit_chain l (genesis "c1") with Ok _ => None | Err e => Some (tamper_sequence e, error_type e) end.

Example verdicts :
  verdict (records chain) = None
  ∧ verdict (take 2 (records chain)) = None
  ∧ verdict (alter (with_action "grant") 1 (records chain)) = Some (1%Z, PayloadMutation)
  ∧ verdict (delete 1 (records chain)) = Some (2%Z, SequenceMismatch)
  ∧ verdict (records (appended "c2" None calls)) = Some (0%Z, GenesisMismatch)
  ∧ verdict (take 1 (records chain) ++ drop 1 (records (appended "c1" None (alter (prod_map id (λ _, 9%Z)) 0 calls)))) = Some (1%Z, BrokenHashLink)
  ∧ verdict (records (appended "c1" None (alter (prod_map id (λ _, 13%Z)) 0 calls))) = Some (1%Z, NonMonotonicTimestamp)
  ∧ length (query chain (Some 1%Z) 5 (Some AdmissionDecision) (Some "tenant-1")) = 2.
Proof. vm_compute. split_and!; reflexivity. Qed.

Lemma the_head_binds_witness :
  ∃ s1 s2, verify_audit_chain (records chain) (genesis "c1") = Ok s1
    ∧ verify_audit_chain (records (appended "c1" None calls)) (genesis "c1") = Ok s2
    ∧ (Forall2 same_record (records chain) (records (appended "c1" None calls))
       ∨ collides sha256 (chain_inputs "c1" (records chain)) (chain_inputs "c1" (records (appended "c1" None calls)))).
Proof.
  eexists _, _. split; [vm_compute; reflexivity|]. split; [vm_compute; reflexivity|].
  eapply (the_head_binds_the_history "c1"); try (vm_compute; reflexivity).
Defined.

Lemma truncated_witness :
  ∃ s', verify_audit_chain (resign (λ _, None) <$> take 2 (records chain)) (genesis "c1") = Ok s'.
Proof.
  eapply (truncated_and_unsigned_chains_verify (records chain) (genesis "c1")). vm_compute. reflexivity.
Defined.

Lemma checkpoints_bind_witness :
  ∃ cp1 cp2, create_checkpoint 20 chain = Some (Some cp1) ∧ create_checkpoint 21 (appended "c1" None calls) = Some (Some cp2)
    ∧ (cp1.(end_sequence) = cp2.(end_sequence) → cp1.(merkle_root) = cp2.(merkle_root) →
       Forall2 same_record (records chain) (records (appended "c1" None calls))
       ∨ collides sha256 (checkpoint_inputs "c1" (records chain)) (checkpoint_inputs "c1" (records (appended "c1" None calls)))).
Proof. apply (checkpoints_bind_the_chain (D:=deps) "c1" (Some "key") None calls calls 20 21); [done|done|simpl; lia]. Defined.
