(* ===== verification/ConfigRollout.v ===== *)
(** * Progressive rollout of operator settings

    [src/src/progressive_config.rs]: canary selection, health gates, and the engine that
    applies a bundle to the canary, evaluates the gates, and propagates it or restores the
    one before.  The engine is calls on a state that keep what they wrote before an error
    ([Contract]).  What it calls through the traits [ConfigApply] and [Clock] is the class
    [World]; every request and its answer are also kept in a trace, which the code has not
    and which nothing reads. *)

From stdpp Require Import prelude list strings.
From Stdlib Require Import Ascii SpecFloat.
From S2P Require Import Prelude RustStr Float64 BTreeMap Contract.

Definition MAX_BLAST_RADIUS : f64 := f64_lit 5 100.
Definition ROLLBACK_SLA_MS : Z := 30000.
Definition UNSET_BUNDLE_VERSION : string := "0.0.0".

(** ** Bundles and targets *)

(** SHA-256 in hexadecimal, and the text of a float as [{}] prints it. *)
Class Texts : Type := {
  sha256_hex : string → string;
  display_f64 : f64 → string;
}.

Module ConfigBundle.
Record t : Type := { version : string; digest : string; settings : BTreeMap.t string }.
End ConfigBundle.

Module RolloutTarget.
Record t : Type := { namespace : string; node : string }.
#[global] Instance eq_dec : EqDecision t.
Proof. solve_decision. Defined.

Definition id (x : t) : string := namespace x +:+ "/" +:+ node x.

(** The derived order: by namespace, then by node. *)
Definition cmp (x y : t) : comparison :=
  then_cmp (String.compare (namespace x) (namespace y)) (String.compare (node x) (node y)).

(** [split_once('/')]: the text before the first slash and all that follows it. *)
Definition from_str (raw : string) : t :=
  match split_char "/"%char raw with
  | ns :: ((_ :: _) as rest) => {| namespace := ns; node := join "/" rest |}
  | _ => {| namespace := "default"; node := raw |}
  end.
End RolloutTarget.
Abbreviation target := RolloutTarget.t.

(** [dedup]: of equal neighbours the first stays. *)
Fixpoint dedup_from (x : target) (l : list target) : list target :=
  match l with
  | [] => []
  | y :: l' => if decide (x = y) then dedup_from x l' else y :: dedup_from y l'
  end.
Definition dedup (l : list target) : list target := match l with [] => [] | x :: l' => x :: dedup_from x l' end.

Definition target_le : target → target → bool := le_of RolloutTarget.cmp.

Definition canary_size (n : nat) : nat :=
  let cap := Z.to_nat (f64_as_usize (f64_mul (f64_of_Z (Z.of_nat n)) MAX_BLAST_RADIUS)) in
  if (cap <? 1)%nat then 1 else if (n <? cap)%nat then n else cap.

(** One turn of the sampling loop; [None] where the index would panic. *)
Definition pick (sorted : list target) (size : nat) (picked : option (list target)) (i : nat) : option (list target) :=
  picked ← picked;
  x ← sorted !! (i * length sorted / size);
  Some (if decide (x ∈ picked) then picked else picked ++ [x]).

Definition select_canary (targets : list target) : option (list target) :=
  if decide (targets = []) then Some []
  else
    let sorted := dedup (sort_by target_le targets) in
    let size := canary_size (length sorted) in
    picked ← foldl (pick sorted size) (Some []) (seq 0 size);
    Some (sort_by target_le picked).

Definition blast_radius (targets canary : list target) : f64 :=
  match targets with
  | [] => f64_zero
  | _ => f64_div (f64_of_Z (Z.of_nat (length (dedup (sort_by target_le canary))))) (f64_of_Z (Z.of_nat (length targets)))
  end.

(** ** Gates *)

Inductive Comparator : Type := Max | Min.
Definition show_comparator (c : Comparator) : string := match c with Max => "max" | Min => "min" end.

Module HealthGate.
Record t : Type := { name : string; signal : string; comparator : Comparator; threshold : f64 }.
End HealthGate.

Module HealthSample.
Record t : Type := { signal : string; value : f64 }.
End HealthSample.

Definition default_gates : list HealthGate.t :=
  [ {| HealthGate.name := "replicas_positive"; HealthGate.signal := "replica_count"; HealthGate.comparator := Min; HealthGate.threshold := f64_of_Z 1 |};
    {| HealthGate.name := "ready_ratio"; HealthGate.signal := "ready_ratio"; HealthGate.comparator := Min; HealthGate.threshold := f64_lit 9 10 |};
    {| HealthGate.name := "error_ratio"; HealthGate.signal := "error_ratio"; HealthGate.comparator := Max; HealthGate.threshold := f64_lit 5 100 |} ].

Inductive GateVerdict : Type := Passed | Failed | Incomplete.
#[global] Instance GateVerdict_eq_dec : EqDecision GateVerdict.
Proof. solve_decision. Defined.
Definition show_verdict (v : GateVerdict) : string :=
  match v with Passed => "passed" | Failed => "failed" | Incomplete => "incomplete" end.

Module GateResult.
Record t : Type := {
  gate : string; signal : string; observed : option f64; threshold : f64;
  comparator : Comparator; outcome : GateVerdict; detail : string;
}.
End GateResult.

Module GateReport.
Record t : Type := { verdict : GateVerdict; results : list GateResult.t; canary : list string; evaluated_at_ms : Z }.
Definition failing_gates (r : t) : list string :=
  GateResult.gate <$> List.filter (λ x, negb (bool_decide (GateResult.outcome x = Passed))) (results r).
End GateReport.

Definition observe (samples : list HealthSample.t) (g : HealthGate.t) : option f64 :=
  HealthSample.value <$> find_first (λ s, String.eqb (HealthSample.signal s) (HealthGate.signal g)) samples.

Definition gate_outcome (g : HealthGate.t) (observed : option f64) : GateVerdict :=
  match observed with
  | None => Incomplete
  | Some v =>
      match HealthGate.comparator g with
      | Max => if f64_le v (HealthGate.threshold g) then Passed else Failed
      | Min => if f64_ge v (HealthGate.threshold g) then Passed else Failed
      end
  end.

(** The verdict so far after one more outcome. *)
Definition merge_verdict (verdict outcome : GateVerdict) : GateVerdict :=
  match outcome with
  | Passed => verdict
  | Failed => Failed
  | Incomplete => match verdict with Failed => Failed | _ => Incomplete end
  end.

(** ** The engine *)

Inductive VersionStatus : Type := SCanary | SRestored | SPromoted.

Module ComponentConfigVersion.
Record t : Type := {
  component : string; namespace : string; node : string; version : string; digest : string;
  status : VersionStatus; updated_at : DateTime;
}.
End ComponentConfigVersion.

Inductive RolloutStage : Type := Idle | Canary | Propagating | Complete | RolledBack.
#[global] Instance RolloutStage_eq_dec : EqDecision RolloutStage.
Proof. solve_decision. Defined.
Definition show_stage (s : RolloutStage) : string :=
  match s with
  | Idle => "idle" | Canary => "canary" | Propagating => "propagating" | Complete => "complete" | RolledBack => "rolled_back"
  end.

Module RolloutEvent.
Record t : Type := { at_ms : Z; stage : RolloutStage; version : string; targets : list string; detail : string }.
End RolloutEvent.

Module RollbackRecord.
Record t : Type := {
  from_version : string; to_version : string; targets : list string; duration_ms : Z; within_sla : bool; reason : string;
}.
End RollbackRecord.

Module Rollout.
Record t : Type := {
  targets : list target;
  gates : list HealthGate.t;
  stage : RolloutStage;
  canary : list target;
  pending_bundle : option ConfigBundle.t;
  previous_bundle : option ConfigBundle.t;
  versions : BTreeMap.t ComponentConfigVersion.t;
  reports : list GateReport.t;
  events : list RolloutEvent.t;
  rollbacks : list RollbackRecord.t;
}.
Definition set_stage (s : RolloutStage) (r : t) : t :=
  {| targets := targets r; gates := gates r; stage := s; canary := canary r; pending_bundle := pending_bundle r;
     previous_bundle := previous_bundle r; versions := versions r; reports := reports r; events := events r; rollbacks := rollbacks r |}.
Definition set_candidate (c : list target) (prev : ConfigBundle.t) (b : ConfigBundle.t) (r : t) : t :=
  {| targets := targets r; gates := gates r; stage := stage r; canary := c; pending_bundle := Some b;
     previous_bundle := Some prev; versions := versions r; reports := reports r; events := events r; rollbacks := rollbacks r |}.
Definition clear_pending (r : t) : t :=
  {| targets := targets r; gates := gates r; stage := stage r; canary := canary r; pending_bundle := None;
     previous_bundle := previous_bundle r; versions := versions r; reports := reports r; events := events r; rollbacks := rollbacks r |}.
Definition set_versions (v : BTreeMap.t ComponentConfigVersion.t) (r : t) : t :=
  {| targets := targets r; gates := gates r; stage := stage r; canary := canary r; pending_bundle := pending_bundle r;
     previous_bundle := previous_bundle r; versions := v; reports := reports r; events := events r; rollbacks := rollbacks r |}.
Definition push_report (x : GateReport.t) (r : t) : t :=
  {| targets := targets r; gates := gates r; stage := stage r; canary := canary r; pending_bundle := pending_bundle r;
     previous_bundle := previous_bundle r; versions := versions r; reports := reports r ++ [x]; events := events r; rollbacks := rollbacks r |}.
Definition push_event (x : RolloutEvent.t) (r : t) : t :=
  {| targets := targets r; gates := gates r; stage := stage r; canary := canary r; pending_bundle := pending_bundle r;
     previous_bundle := previous_bundle r; versions := versions r; reports := reports r; events := events r ++ [x]; rollbacks := rollbacks r |}.
Definition push_rollback (x : RollbackRecord.t) (r : t) : t :=
  {| targets := targets r; gates := gates r; stage := stage r; canary := canary r; pending_bundle := pending_bundle r;
     previous_bundle := previous_bundle r; versions := versions r; reports := reports r; events := events r; rollbacks := rollbacks r ++ [x] |}.
Definition set_gates (g : list HealthGate.t) (r : t) : t :=
  {| targets := targets r; gates := g; stage := stage r; canary := canary r; pending_bundle := pending_bundle r;
     previous_bundle := previous_bundle r; versions := versions r; reports := reports r; events := events r; rollbacks := rollbacks r |}.
End Rollout.

(** What the engine calls: the two requests of [ConfigApply] it makes, the clock it was
    given, and the clock of the system.  They may answer anything. *)
Class World (W : Type) : Type := {
  w_apply : target → ConfigBundle.t → W → result string string * W;
  w_restore : target → ConfigBundle.t → W → result string string * W;
  w_now : W → Z * W;
  w_utc : W → DateTime * W;
}.

Inductive event : Type :=
| Applied (x : target) (b : ConfigBundle.t) (r : result string string)
| Restored (x : target) (b : ConfigBundle.t) (r : result string string).

Record sys (W : Type) : Type := { roll : Rollout.t; world : W; trace : list event }.
Arguments roll {W} _.
Arguments world {W} _.
Arguments trace {W} _.
Arguments Build_sys {W} _ _ _.

Section engine.
Context {W : Type} `{!World W} `{!Texts}.
Abbreviation engine A := (call (sys W) string A).

Definition roll_get : engine Rollout.t := s ← get; mret s.(roll).
Definition roll_set (f : Rollout.t → Rollout.t) : engine unit :=
  modify (λ s, {| roll := f s.(roll); world := s.(world); trace := s.(trace) |}).

(** A request: its answer and the trace; an error is raised. *)
Definition request (f : W → result string string * W) (ev : result string string → event) : engine string := λ s,
  let '(r, w) := f s.(world) in
  let s' := {| roll := s.(roll); world := w; trace := s.(trace) ++ [ev r] |} in
  match r with Ok v => Returned v s' | Err e => Raised e s' end.

Definition apply (x : target) (b : ConfigBundle.t) : engine string := request (w_apply x b) (Applied x b).
Definition restore (x : target) (b : ConfigBundle.t) : engine string := request (w_restore x b) (Restored x b).

Definition read (f : W → Z * W) : engine Z := λ s,
  let '(z, w) := f s.(world) in Returned z {| roll := s.(roll); world := w; trace := s.(trace) |}.
Definition now_millis : engine Z := read w_now.
Definition utc_now : engine DateTime := read w_utc.

(** *** Bundles *)

Definition digest_settings (settings : BTreeMap.t string) : string :=
  sha256_hex (foldr (λ kv acc, kv.1 +:+ "=" +:+ kv.2 +:+ ";" +:+ acc) "" settings).

Definition new_bundle (version : string) (settings : list (string * string)) : ConfigBundle.t :=
  let settings := foldl (λ m kv, BTreeMap.insert kv.1 kv.2 m) [] settings in
  {| ConfigBundle.version := version; ConfigBundle.digest := digest_settings settings; ConfigBundle.settings := settings |}.

(** *** Versions *)

Definition record_version (x : target) (b : ConfigBundle.t) (status : VersionStatus) : engine unit :=
  at_ ← utc_now;
  roll_set (λ r, Rollout.set_versions (BTreeMap.insert (RolloutTarget.id x)
    {| ComponentConfigVersion.component := "operator-config"; ComponentConfigVersion.namespace := RolloutTarget.namespace x;
       ComponentConfigVersion.node := RolloutTarget.node x; ComponentConfigVersion.version := ConfigBundle.version b;
       ComponentConfigVersion.digest := ConfigBundle.digest b; ComponentConfigVersion.status := status;
       ComponentConfigVersion.updated_at := at_ |} (Rollout.versions r)) r).

Definition current_active_bundle (r : Rollout.t) : ConfigBundle.t :=
  match head (BTreeMap.values (Rollout.versions r)) with
  | Some v => {| ConfigBundle.version := ComponentConfigVersion.version v; ConfigBundle.digest := ComponentConfigVersion.digest v;
                 ConfigBundle.settings := [] |}
  | None => new_bundle UNSET_BUNDLE_VERSION []
  end.

Definition config_version (r : Rollout.t) (x : target) : option ComponentConfigVersion.t :=
  BTreeMap.get (RolloutTarget.id x) (Rollout.versions r).

Definition current_blast_radius (r : Rollout.t) : f64 :=
  let canary_count := length (List.filter (λ v, match ComponentConfigVersion.status v with SPromoted => false | _ => true end)
                                (BTreeMap.values (Rollout.versions r))) in
  match Rollout.targets r with
  | [] => f64_zero
  | _ => f64_div (f64_of_Z (Z.of_nat canary_count)) (f64_of_Z (Z.of_nat (length (Rollout.targets r))))
  end.

(** *** The life of a rollout *)

Definition new (targets : list target) : Rollout.t :=
  {| Rollout.targets := targets; Rollout.gates := default_gates; Rollout.stage := Idle; Rollout.canary := [];
     Rollout.pending_bundle := None; Rollout.previous_bundle := None; Rollout.versions := []; Rollout.reports := [];
     Rollout.events := []; Rollout.rollbacks := [] |}.

Definition with_gates (g : list HealthGate.t) (r : Rollout.t) : Rollout.t := Rollout.set_gates g r.

Definition register_active (x : target) (b : ConfigBundle.t) : engine unit := record_version x b SPromoted.

Definition start (b : ConfigBundle.t) : engine (list target) :=
  r ← roll_get;
  reject_if (bool_decide (Rollout.stage r = Canary) || bool_decide (Rollout.stage r = Propagating))
    "a rollout is already in flight";;
  canary ← or_panic (select_canary (Rollout.targets r));
  roll_set (Rollout.set_candidate canary (current_active_bundle r) b);;
  for_in (λ _ x, apply x b;; record_version x b SCanary) canary tt;;
  roll_set (Rollout.set_stage Canary);;
  now ← now_millis;
  roll_set (Rollout.push_event
    {| RolloutEvent.at_ms := now; RolloutEvent.stage := Canary; RolloutEvent.version := ConfigBundle.version b;
       RolloutEvent.targets := RolloutTarget.id <$> canary;
       RolloutEvent.detail := "canary started for " +:+ ConfigBundle.version b +:+ " version " +:+ ConfigBundle.digest b
         +:+ " (blast radius " +:+ fmt1 (f64_mul (blast_radius (Rollout.targets r) canary) f64_100) +:+ "%)" |});;
  mret canary.

Definition gate_result (samples : list HealthSample.t) (source : string) (g : HealthGate.t) : GateResult.t :=
  let observed := observe samples g in
  {| GateResult.gate := HealthGate.name g; GateResult.signal := HealthGate.signal g; GateResult.observed := observed;
     GateResult.threshold := HealthGate.threshold g; GateResult.comparator := HealthGate.comparator g;
     GateResult.outcome := gate_outcome g observed;
     GateResult.detail :=
       match observed with
       | None => "signal `" +:+ HealthGate.signal g +:+ "` not reported by " +:+ source
       | Some v => HealthGate.signal g +:+ "=" +:+ display_f64 v +:+ " (requires " +:+ show_comparator (HealthGate.comparator g)
                   +:+ " " +:+ display_f64 (HealthGate.threshold g) +:+ ")"
       end |}.

Definition evaluate (samples : list HealthSample.t) (source : string) : engine GateReport.t :=
  now ← now_millis;
  r ← roll_get;
  let results := gate_result samples source <$> Rollout.gates r in
  let report := {| GateReport.verdict := foldl merge_verdict Passed (GateResult.outcome <$> results);
                   GateReport.results := results; GateReport.canary := RolloutTarget.id <$> Rollout.canary r;
                   GateReport.evaluated_at_ms := now |} in
  roll_set (Rollout.push_report report);;
  (if bool_decide (GateReport.verdict report = Passed) && bool_decide (Rollout.stage r = Canary) then
     roll_set (Rollout.set_stage Propagating);;
     roll_set (Rollout.push_event
       {| RolloutEvent.at_ms := now; RolloutEvent.stage := Propagating;
          RolloutEvent.version := match Rollout.pending_bundle r with Some b => ConfigBundle.version b | None => "" end;
          RolloutEvent.targets := RolloutTarget.id <$> Rollout.targets r;
          RolloutEvent.detail := "all gates passed; propagating" |})
   else mret tt);;
  mret report.

Definition rollback (reason : string) : engine (option RollbackRecord.t) :=
  r ← roll_get;
  match Rollout.pending_bundle r, Rollout.previous_bundle r with
  | Some bundle, Some previous =>
      started ← now_millis;
      for_in (λ _ x, restore x previous;; record_version x previous SRestored) (Rollout.canary r) tt;;
      ended ← now_millis;
      let duration_ms := Z.max 0 (ended - started) in
      let record := {| RollbackRecord.from_version := ConfigBundle.version bundle;
                       RollbackRecord.to_version := ConfigBundle.version previous;
                       RollbackRecord.targets := RolloutTarget.id <$> Rollout.canary r;
                       RollbackRecord.duration_ms := duration_ms;
                       RollbackRecord.within_sla := (duration_ms <=? ROLLBACK_SLA_MS)%Z;
                       RollbackRecord.reason := reason |} in
      roll_set (Rollout.push_rollback record);;
      roll_set Rollout.clear_pending;;
      roll_set (Rollout.set_stage RolledBack);;
      now ← now_millis;
      roll_set (Rollout.push_event
        {| RolloutEvent.at_ms := now; RolloutEvent.stage := RolledBack; RolloutEvent.version := ConfigBundle.version previous;
           RolloutEvent.targets := RollbackRecord.targets record;
           RolloutEvent.detail := "rolled back in " +:+ show_Z duration_ms +:+ "ms: " +:+ reason |});;
      mret (Some record)
  | _, _ => mret None
  end.

Definition gate_or_rollback (samples : list HealthSample.t) (source : string) : engine (GateReport.t * option RollbackRecord.t) :=
  report ← evaluate samples source;
  if bool_decide (GateReport.verdict report = Passed) then mret (report, None)
  else
    rb ← rollback ("gate " +:+ show_verdict (GateReport.verdict report) +:+ ": " +:+ join ", " (GateReport.failing_gates report));
    mret (report, rb).

Definition complete : engine (list string) :=
  r ← roll_get;
  reject_if (negb (bool_decide (Rollout.stage r = Propagating))) ("cannot complete a rollout in stage " +:+ show_stage (Rollout.stage r));;
  bundle ← or_panic (Rollout.pending_bundle r);
  now ← now_millis;
  touched ← for_in (λ touched x,
      (if decide (x ∈ Rollout.canary r) then mret tt else apply x bundle;; mret tt);;
      record_version x bundle SPromoted;;
      mret (touched ++ [RolloutTarget.id x])) (Rollout.targets r) [];
  roll_set (Rollout.set_stage Complete);;
  roll_set Rollout.clear_pending;;
  roll_set (Rollout.push_event
    {| RolloutEvent.at_ms := now; RolloutEvent.stage := Complete; RolloutEvent.version := ConfigBundle.version bundle;
       RolloutEvent.targets := touched; RolloutEvent.detail := "rollout complete" |});;
  mret touched.
End engine.

(** ** The recording applier and the manual clock *)

Module Recording.
Record t : Type := {
  millis : Z;                                  (** the manual clock *)
  cost_ms : Z;
  applied : BTreeMap.t string;
  history : BTreeMap.t (list string);
  utc : DateTime;                              (** the clock of the system, at rest *)
}.

Definition new (start_millis utc : Z) : t :=
  {| millis := start_millis; cost_ms := 1000; applied := []; history := []; utc := utc |}.

(** [charge], the writes to the two maps, and the version. *)
Definition apply (x : target) (b : ConfigBundle.t) (a : t) : result string string * t :=
  let key := RolloutTarget.id x in
  let past := default [] (BTreeMap.get key (history a)) in
  (Ok (ConfigBundle.version b),
   {| millis := as_u64 (millis a + cost_ms a); cost_ms := cost_ms a;
      applied := BTreeMap.insert key (ConfigBundle.version b) (applied a);
      history := BTreeMap.insert key (past ++ [ConfigBundle.version b]) (history a); utc := utc a |}).

Definition restore (x : target) (b : ConfigBundle.t) (a : t) : result string string * t :=
  let key := RolloutTarget.id x in
  let past := default [] (BTreeMap.get key (history a)) in
  (Ok (ConfigBundle.version b),
   {| millis := as_u64 (millis a + cost_ms a); cost_ms := cost_ms a;
      applied := BTreeMap.insert key (ConfigBundle.version b) (applied a);
      history := BTreeMap.insert key (past ++ [ConfigBundle.version b]) (history a); utc := utc a |}).

Definition current_version (x : target) (a : t) : option string := BTreeMap.get (RolloutTarget.id x) (applied a).
End Recording.

#[global] Instance recording_world : World Recording.t := {|
  w_apply := Recording.apply;
  w_restore := Recording.restore;
  w_now := λ a, (Recording.millis a, a);
  w_utc := λ a, (Recording.utc a, a);
|}.
