(* ===== verification/ConfigFacts.v ===== *)
(** * Facts about the rollout of settings

    The selection of the canary, and the engine as transitions of what matters of its state:
    [step] says what each call can do to the stage, the bundles and the trace, in any world. *)

From stdpp Require Import prelude list strings sorting.
From Stdlib Require Import Sorted.
From S2P Require Import Prelude RustStr Float64 BTreeMap Contract ConfigRollout.

(** ** Selection *)

#[local] Instance target_cmp_laws : CmpLaws RolloutTarget.cmp.
Proof. apply (lex_cmp_laws RolloutTarget.namespace RolloutTarget.node); apply _. Qed.

Lemma target_cmp_eq x y : RolloutTarget.cmp x y = Eq → x = y.
Proof.
  destruct x as [a b], y as [c d]. unfold RolloutTarget.cmp, then_cmp. simpl.
  destruct (String.compare a c) eqn:E; try done. apply String.compare_eq_iff in E as ->.
  intros ->%String.compare_eq_iff. done.
Qed.

Lemma target_le_antisym x y : target_le x y = true → target_le y x = true → x = y.
Proof.
  unfold target_le, le_of. rewrite (cmp_antisym y x). destruct (RolloutTarget.cmp x y) eqn:E; simpl; try done.
  intros _ _. by apply target_cmp_eq.
Qed.

Lemma elem_of_dedup_from y x l : y ∈ x :: dedup_from x l ↔ y ∈ x :: l.
Proof.
  revert x. induction l as [|z l IH]; intros x; simpl; [done|].
  destruct (decide (x = z)) as [->|]; [rewrite IH; set_solver|].
  rewrite (elem_of_cons (z :: dedup_from z l) y x), IH. set_solver.
Qed.

Lemma elem_of_dedup y l : y ∈ dedup l ↔ y ∈ l.
Proof. destruct l; [done|]. apply elem_of_dedup_from. Qed.

Abbreviation tsorted := (StronglySorted (λ x y, target_le x y = true)).

Lemma dedup_from_sorted x l : tsorted (x :: l) → tsorted (x :: dedup_from x l) ∧ NoDup (x :: dedup_from x l).
Proof.
  revert x. induction l as [|z l IH]; intros x Hs; simpl.
  - split; [done|apply NoDup_singleton].
  - apply StronglySorted_inv in Hs as [Hs Hx]. apply Forall_cons in Hx as [Hxz Hx].
    destruct (decide (x = z)) as [->|Hne].
    { by apply IH. }
    destruct (IH z Hs) as [Hs' Hn']. apply StronglySorted_inv in Hs as [_ Hz]. split.
    + constructor; [done|]. apply Forall_forall. intros y Hy.
      rewrite elem_of_dedup_from, elem_of_cons in Hy. destruct Hy as [->|Hy]; [done|]. by eapply (proj1 (Forall_forall _ _) Hx).
    + constructor; [|done]. rewrite elem_of_dedup_from, elem_of_cons. intros [?|Hin]; [done|].
      destruct Hne. apply target_le_antisym; [done|]. by eapply (proj1 (Forall_forall _ _) Hz).
Qed.

Lemma sorted_targets_spec l :
  let s := dedup (sort_by target_le l) in tsorted s ∧ NoDup s ∧ ∀ x, x ∈ s ↔ x ∈ l.
Proof.
  assert (tsorted (sort_by target_le l)) as Hs.
  { apply sort_by_sorted; [apply le_of_total, _|intros ???; apply le_of_trans, _]. }
  assert (∀ x, x ∈ dedup (sort_by target_le l) ↔ x ∈ l) as Hel.
  { intros x. by rewrite elem_of_dedup, elem_of_sort_by. }
  cbn zeta. destruct (sort_by target_le l) as [|x s]; [split_and!; [constructor|constructor|done]|].
  destruct (dedup_from_sorted x s Hs). by split_and!.
Qed.

(** The sampling loop never leaves the list, and picks at most one target a turn. *)
Lemma pick_spec sorted size js p :
  0 < length sorted → Forall (λ i, i < size) js → p ⊆ sorted → NoDup p →
  ∃ p', foldl (pick sorted size) (Some p) js = Some p' ∧ p' ⊆ sorted ∧ NoDup p' ∧ length p' ≤ length p + length js
    ∧ p ⊆ p' ∧ (js ≠ [] → p' ≠ []).
Proof.
  intros Hs His. revert p. induction His as [|i js Hi _ IH]; intros p Hp Hn; simpl.
  - exists p. split_and!; [done..|lia|done|done].
  - destruct (sorted !! (i * length sorted / size)) as [x|] eqn:Hx.
    2: { apply lookup_ge_None in Hx.
         assert (i * length sorted / size < length sorted); [|lia]. apply Nat.div_lt_upper_bound; nia. }
    simpl. apply list_elem_of_lookup_2 in Hx. destruct (decide (x ∈ p)) as [Hin|Hin].
    + destruct (IH p Hp Hn) as (p' & -> & ? & ? & ? & ? & ?). exists p'. split_and!; [done..|simpl; lia|done|].
      intros _ ->. set_solver.
    + destruct (IH (p ++ [x])) as (p' & -> & ? & ? & Hlen & ? & ?); [set_solver|apply NoDup_app; split_and!; [done|set_solver|apply NoDup_singleton]|].
      rewrite length_app in Hlen. simpl in Hlen. exists p'. split_and!; [done..|simpl; lia|set_solver|]. intros _ ->. set_solver.
Qed.

Lemma canary_size_bounds n : 0 < n → 1 ≤ canary_size n ≤ n.
Proof.
  intros. unfold canary_size. generalize (Z.to_nat (f64_as_usize (f64_mul (f64_of_Z (Z.of_nat n)) MAX_BLAST_RADIUS))).
  intros cap. destruct (Nat.ltb_spec cap 1), (Nat.ltb_spec n cap); lia.
Qed.

Definition FLEET : nat := 1000.

(** A twentieth of the fleet, or one target, computed for every size up to [FLEET]. *)
Lemma canary_size_small n : n ≤ FLEET → canary_size n ≤ 1 `max` (n / 20).
Proof.
  intros Hn. assert (forallb (λ n, canary_size n <=? 1 `max` (n / 20)) (seq 0 (S FLEET)) = true) as H by (vm_compute; reflexivity).
  rewrite forallb_forall in H. apply Nat.leb_le, H. apply in_seq. unfold FLEET in *. lia.
Qed.

Lemma select_canary_spec targets :
  let s := dedup (sort_by target_le targets) in
  ∃ c, select_canary targets = Some c ∧ c ⊆ targets ∧ NoDup c ∧ length c ≤ canary_size (length s) ∧ (targets ≠ [] → c ≠ []).
Proof.
  intros s. unfold select_canary. destruct (decide (targets = [])) as [->|Hne].
  { exists []. split_and!; [done|done|apply NoDup_nil_2|apply Nat.le_0_l|done]. }
  destruct (sorted_targets_spec targets) as (_ & Hn & Hel). fold s in Hn, Hel |- *.
  assert (0 < length s) as Hl.
  { destruct targets as [|x ?]; [done|]. assert (x ∈ s) by (apply Hel; set_solver). destruct s; [set_solver|simpl; lia]. }
  destruct (pick_spec s (canary_size (length s)) (seq 0 (canary_size (length s))) []) as (p & -> & Hp & Hnp & Hlen & _ & Hpne).
  { done. } { apply Forall_seq. lia. } { set_solver. } { apply NoDup_nil_2. }
  pose proof (canary_size_bounds _ Hl). rewrite length_seq in Hlen. simpl in Hlen |- *.
  exists (sort_by target_le p). rewrite length_sort_by. split_and!; [done| | |done|].
  - intros x. rewrite elem_of_sort_by. intros ?%Hp. by apply Hel.
  - by rewrite sort_by_Permutation.
  - intros _ Hnil. apply (f_equal length) in Hnil. rewrite length_sort_by in Hnil. destruct p; [|done].
    apply Hpne; [|done]. destruct (canary_size (length s)); [lia|done].
Qed.

(** A canary is always found without a panic, is a part of the fleet without repetition,
    has a target unless the fleet is empty, and at most a twentieth of the fleet or one
    target, for fleets up to a thousand; it does not depend on the order or the repetitions of
    the list of targets. *)
Theorem canary_is_small targets targets' :
  length (dedup (sort_by target_le targets)) ≤ FLEET → (∀ x, x ∈ targets ↔ x ∈ targets') →
  ∃ c, select_canary targets = Some c ∧ select_canary targets' = Some c ∧ c ⊆ targets ∧ NoDup c
    ∧ length c ≤ 1 `max` (length (dedup (sort_by target_le targets)) / 20) ∧ (targets ≠ [] → c ≠ []).
Proof.
  intros Hfleet Hsame. destruct (select_canary_spec targets) as (c & Hc & Hsub & Hn & Hlen & Hne).
  exists c. split_and!; [done| |done|done| |done].
  - rewrite <- Hc. unfold select_canary.
    destruct (sorted_targets_spec targets) as (Hs & Hns & Hel), (sorted_targets_spec targets') as (Hs' & Hns' & Hel').
    assert (dedup (sort_by target_le targets') = dedup (sort_by target_le targets)) as ->.
    { eapply StronglySorted_unique_strong; [|exact Hs'|exact Hs|apply NoDup_Permutation; [done..|]; intros x; by rewrite Hel, Hel', Hsame].
      intros x y _ _. apply target_le_antisym. }
    destruct (decide (targets' = [])) as [->|H1], (decide (targets = [])) as [->|H2]; try done.
    + destruct targets as [|x ?]; [done|]. specialize (Hsame x). set_solver.
    + destruct targets' as [|x ?]; [done|]. specialize (Hsame x). set_solver.
  - pose proof (canary_size_small _ Hfleet). lia.
Qed.
