(* ===== verification/ConfigProps.v ===== *)
(** * The rollout of settings over its life

    What each call of the engine does to its state and which requests it makes, in any world
    and with any answers; histories of calls; and what a rollback does. *)

From stdpp Require Import prelude list strings.
From S2P Require Import Prelude RustStr Float64 BTreeMap Contract ConfigRollout ConfigFacts.

Inductive op : Type :=
| Start (b : ConfigBundle.t)
| Evaluate (samples : list HealthSample.t) (source : string)
| GateOrRollback (samples : list HealthSample.t) (source : string)
| Rollback (reason : string)
| CompleteOp
| Register (x : target) (b : ConfigBundle.t).

Section engine.
Context {W : Type} {WW : World W} {TT : Texts}.
Implicit Types (s : sys W) (r : Rollout.t) (P : event → Prop).
Abbreviation engine A := (call (sys W) string A).

(** ** Rules for the effects *)

Lemma roll_get_ends (Q : Rollout.t → sys W → Prop) (X : string → sys W → Prop) s :
  Q s.(roll) s → ends roll_get Q X s.
Proof. done. Qed.

Lemma roll_set_ends f (Q : unit → sys W → Prop) (X : string → sys W → Prop) s :
  Q tt {| roll := f s.(roll); world := s.(world); trace := s.(trace) |} → ends (roll_set f) Q X s.
Proof. done. Qed.

Lemma read_ends f (Q : Z → sys W → Prop) (X : string → sys W → Prop) s :
  (∀ z w, Q z {| roll := s.(roll); world := w; trace := s.(trace) |}) → ends (read f) Q X s.
Proof. intros HQ. unfold ends, read. destruct (f s.(world)). apply HQ. Qed.

Lemma request_ends f ev (Q : string → sys W → Prop) (X : string → sys W → Prop) s :
  (∀ v w, f s.(world) = (Ok v, w) → Q v {| roll := s.(roll); world := w; trace := s.(trace) ++ [ev (Ok v)] |}) →
  (∀ e w, f s.(world) = (Err e, w) → X e {| roll := s.(roll); world := w; trace := s.(trace) ++ [ev (Err e)] |}) →
  ends (request f ev) Q X s.
Proof. intros HQ HX. unfold ends, request. destruct (f s.(world)) as [[v|e] w]; eauto. Qed.

Definition entry (x : target) (b : ConfigBundle.t) (st : VersionStatus) (at_ : DateTime) : ComponentConfigVersion.t :=
  {| ComponentConfigVersion.component := "operator-config"; ComponentConfigVersion.namespace := RolloutTarget.namespace x;
     ComponentConfigVersion.node := RolloutTarget.node x; ComponentConfigVersion.version := ConfigBundle.version b;
     ComponentConfigVersion.digest := ConfigBundle.digest b; ComponentConfigVersion.status := st;
     ComponentConfigVersion.updated_at := at_ |}.

Lemma record_version_ends x b st (Q : unit → sys W → Prop) (X : string → sys W → Prop) s :
  (∀ at_ w, Q tt {| roll := Rollout.set_versions (BTreeMap.insert (RolloutTarget.id x) (entry x b st at_) (Rollout.versions s.(roll))) s.(roll);
                    world := w; trace := s.(trace) |}) →
  ends (record_version x b st) Q X s.
Proof. intros HQ. unfold record_version. apply ends_then, read_ends. intros at_ w. apply roll_set_ends. apply HQ. Qed.

(** ** What is kept *)

(** Everything but the books: the versions, reports, events and rollbacks. *)
Record kept r r' : Prop := {
  k_targets : Rollout.targets r' = Rollout.targets r;
  k_gates : Rollout.gates r' = Rollout.gates r;
  k_stage : Rollout.stage r' = Rollout.stage r;
  k_canary : Rollout.canary r' = Rollout.canary r;
  k_pending : Rollout.pending_bundle r' = Rollout.pending_bundle r;
  k_previous : Rollout.previous_bundle r' = Rollout.previous_bundle r;
}.

Lemma kept_refl r : kept r r.
Proof. done. Qed.

Lemma kept_trans r1 r2 r3 : kept r1 r2 → kept r2 r3 → kept r1 r3.
Proof. intros [] []. split; congruence. Qed.

(** The requests a call makes. *)
Definition adds P s s' : Prop := ∃ evs, s'.(trace) = s.(trace) ++ evs ∧ Forall P evs.

Lemma adds_refl P s s' : s'.(trace) = s.(trace) → adds P s s'.
Proof. intros Heq. exists []. by rewrite app_nil_r. Qed.

Lemma adds_snoc P s s' s'' ev : adds P s s' → s''.(trace) = s'.(trace) ++ [ev] → P ev → adds P s s''.
Proof. intros (evs & He & HP) Ht ?. exists (evs ++ [ev]). rewrite Ht, He, app_assoc, Forall_app. auto. Qed.

Lemma adds_elem P s s' ev : adds P s s' → ev ∈ s'.(trace) → ev ∈ s.(trace) ∨ P ev.
Proof.
  intros (evs & He & HP). rewrite He, elem_of_app. intros [?|Hin]; [by left|right]. by eapply (proj1 (Forall_forall _ _) HP).
Qed.

(** ** What each call does *)

(** The candidate goes to the canary; the stage changes at the end, if no request failed. *)
Definition eff_start (b : ConfigBundle.t) s s' : Prop :=
  (kept s.(roll) s'.(roll) ∧ s'.(trace) = s.(trace))
  ∨ ∃ c, select_canary (Rollout.targets s.(roll)) = Some c
      ∧ Rollout.stage s.(roll) ≠ Canary ∧ Rollout.stage s.(roll) ≠ Propagating
      ∧ (∃ st, (st = Canary ∨ st = Rollout.stage s.(roll))
         ∧ kept (Rollout.set_stage st (Rollout.set_candidate c (current_active_bundle s.(roll)) b s.(roll))) s'.(roll))
      ∧ adds (λ ev, ∃ x a, ev = Applied x b a ∧ x ∈ c) s s'.

Definition gates_pass (gates : list HealthGate.t) (samples : list HealthSample.t) : Prop :=
  Forall (λ g, gate_outcome g (observe samples g) = Passed) gates.

(** The gates move a canary on when they pass; nothing else changes. *)
Definition eff_evaluate (samples : list HealthSample.t) s s' : Prop :=
  s'.(trace) = s.(trace)
  ∧ (kept s.(roll) s'.(roll)
     ∨ Rollout.stage s.(roll) = Canary ∧ gates_pass (Rollout.gates s.(roll)) samples
       ∧ kept (Rollout.set_stage Propagating s.(roll)) s'.(roll)).

Definition eff_rollback s s' : Prop :=
  (kept s.(roll) s'.(roll) ∨ kept (Rollout.set_stage RolledBack (Rollout.clear_pending s.(roll))) s'.(roll))
  ∧ adds (λ ev, ∃ x p a, ev = Restored x p a ∧ x ∈ Rollout.canary s.(roll) ∧ Rollout.previous_bundle s.(roll) = Some p) s s'.

Definition eff_complete s s' : Prop :=
  (kept s.(roll) s'.(roll) ∧ s'.(trace) = s.(trace))
  ∨ ∃ b, Rollout.stage s.(roll) = Propagating ∧ Rollout.pending_bundle s.(roll) = Some b
      ∧ (kept s.(roll) s'.(roll) ∨ kept (Rollout.clear_pending (Rollout.set_stage Complete s.(roll))) s'.(roll))
      ∧ adds (λ ev, ∃ x a, ev = Applied x b a) s s'.

(** A loop of requests, each followed by an entry in the books. *)
Lemma loop_ends (f : target → W → result string string * W) (ev : target → result string string → event) b st l P
    (Q : unit → sys W → Prop) (X : string → sys W → Prop) s :
  (∀ x a, x ∈ l → P (ev x a)) →
  (∀ s', kept s.(roll) s'.(roll) → adds P s s' → Q tt s') →
  (∀ e s', kept s.(roll) s'.(roll) → adds P s s' → X e s') →
  ends (for_in (λ _ x, request (f x) (ev x);; record_version x b st) l tt) Q X s.
Proof.
  intros HP HQ HX. eapply ends_weaken.
  - apply (ends_for_in _ (λ l' _ s', l' ⊆ l ∧ kept s.(roll) s'.(roll) ∧ adds P s s') (λ _ s', kept s.(roll) s'.(roll) ∧ adds P s s')).
    + intros x l' _ s1 (Hl & Hk & Ha). apply ends_then, request_ends.
      * intros v w _. apply record_version_ends. intros at_ w'. simpl. split_and!; [set_solver| |].
        -- eapply kept_trans; [exact Hk|done].
        -- eapply adds_snoc; [exact Ha|done|]. apply HP. set_solver.
      * intros e w _. split; [done|]. eapply adds_snoc; [exact Ha|done|]. apply HP. set_solver.
    + split_and!; [done|apply kept_refl|by apply adds_refl].
  - intros [] s' (_ & ? & ?). by apply HQ.
  - intros e s' [? ?]. by apply HX.
Qed.

Abbreviation does m eff s := (ends m (λ _, eff s) (λ _, eff s) s).

Lemma start_does b s : does (start b) (eff_start b) s.
Proof.
  unfold start. apply ends_then, roll_get_ends. apply ends_then, ends_reject_if.
  { intros _. by left. }
  intros [Hc Hp]%orb_false_iff. rewrite !bool_decide_eq_false in Hc, Hp.
  destruct (select_canary_spec (Rollout.targets s.(roll))) as (c & Hsel & _).
  eapply ends_then, ends_or_panic; [exact Hsel|]. apply ends_then, roll_set_ends, ends_then.
  apply (loop_ends (λ x, w_apply x b) (λ x, Applied x b) b SCanary c (λ ev, ∃ x a, ev = Applied x b a ∧ x ∈ c)); [by eauto| |].
  - intros s1 Hk Ha. apply ends_then, roll_set_ends, ends_then, read_ends. intros z w.
    apply ends_then, roll_set_ends, ends_ret. right. exists c. split_and!; [done..| |].
    + exists Canary. split; [by left|]. destruct Hk. by split.
    + destruct Ha as (evs & Ha & ?). by exists evs.
  - intros e s1 Hk Ha. right. exists c. split_and!; [done..| |].
    + exists (Rollout.stage s.(roll)). split; [by right|]. destruct Hk. by split.
    + destruct Ha as (evs & Ha & ?). by exists evs.
Qed.

Lemma merge_verdict_passed l v : foldl merge_verdict v l = Passed → v = Passed ∧ Forall (λ o, o = Passed) l.
Proof.
  revert v. induction l as [|o l IH]; intros v; simpl; [done|]. intros [Hm Hl]%IH. destruct o; simpl in Hm; try done.
  - split; [done|]. by constructor.
  - by destruct v.
Qed.

Lemma evaluate_ends samples source (Q : GateReport.t → sys W → Prop) (X : string → sys W → Prop) s :
  (∀ rep s', eff_evaluate samples s s' → (GateReport.verdict rep = Passed → gates_pass (Rollout.gates s.(roll)) samples) →
    (GateReport.verdict rep ≠ Passed → kept s.(roll) s'.(roll)) → Q rep s') →
  ends (evaluate samples source) Q X s.
Proof.
  intros HQ. unfold evaluate. apply ends_then, read_ends. intros now w. apply ends_then, roll_get_ends.
  apply ends_then, roll_set_ends, ends_then. simpl.
  assert (foldl merge_verdict Passed (GateResult.outcome <$> (gate_result samples source <$> Rollout.gates s.(roll))) = Passed →
    gates_pass (Rollout.gates s.(roll)) samples) as Hpass.
  { intros [_ H]%merge_verdict_passed. by rewrite <- list_fmap_compose, Forall_fmap in H. }
  destruct (bool_decide _ && bool_decide _) eqn:Hb.
  - apply andb_true_iff in Hb as [Hv%bool_decide_eq_true_1 Hs%bool_decide_eq_true_1].
    apply ends_then, roll_set_ends, roll_set_ends, ends_ret. apply HQ; [|done|done].
    split; [done|]. right. split_and!; [done|by apply Hpass|by split].
  - apply ends_ret, ends_ret. apply HQ; [split; [done|by left; split]|done|by intros; split].
Qed.

Lemma evaluate_does samples source s : does (evaluate samples source) (eff_evaluate samples) s.
Proof. by apply evaluate_ends. Qed.

Lemma rollback_does reason s : does (rollback reason) eff_rollback s.
Proof.
  unfold rollback. apply ends_then, roll_get_ends.
  destruct (Rollout.pending_bundle s.(roll)) as [b|] eqn:Hb, (Rollout.previous_bundle s.(roll)) as [p|] eqn:Hp;
    try (apply ends_ret; split; [by left; split|by apply adds_refl]).
  apply ends_then, read_ends. intros started w. apply ends_then.
  apply (loop_ends (λ x, w_restore x p) (λ x, Restored x p) p SRestored (Rollout.canary s.(roll))
    (λ ev, ∃ x p a, ev = Restored x p a ∧ x ∈ Rollout.canary s.(roll) ∧ Rollout.previous_bundle s.(roll) = Some p)).
  - intros x a Hx. by exists x, p, a.
  - intros s1 Hk Ha. apply ends_then, read_ends. intros ended w1. do 3 apply ends_then, roll_set_ends.
    apply ends_then, read_ends. intros now w2. apply ends_then, roll_set_ends, ends_ret. split.
    + right. destruct Hk. by split.
    + destruct Ha as (evs & Ha & ?). by exists evs.
  - intros e s1 Hk Ha. split; [by left|]. destruct Ha as (evs & Ha & ?). by exists evs.
Qed.

Lemma complete_does s :
  (Rollout.stage s.(roll) = Propagating → is_Some (Rollout.pending_bundle s.(roll))) → does complete eff_complete s.
Proof.
  intros Hsome. unfold complete. apply ends_then, roll_get_ends. apply ends_then, ends_reject_if.
  { intros _. by left. }
  intros Hst%negb_false_iff%bool_decide_eq_true_1. destruct (Hsome Hst) as [b Hb].
  eapply ends_then, ends_or_panic; [exact Hb|]. apply ends_then, read_ends. intros now w. apply ends_then.
  eapply ends_weaken.
  - apply (ends_for_in _ (λ _ _ s', kept s.(roll) s'.(roll) ∧ adds (λ ev, ∃ x a, ev = Applied x b a) s s')
      (λ _ s', kept s.(roll) s'.(roll) ∧ adds (λ ev, ∃ x a, ev = Applied x b a) s s')).
    + intros x l' touched s1 [Hk Ha]. apply ends_then.
      assert (∀ s2, kept s.(roll) s2.(roll) → adds (λ ev, ∃ x a, ev = Applied x b a) s s2 →
        ends (record_version x b SPromoted;; mret (touched ++ [RolloutTarget.id x]))
          (λ _ s', kept s.(roll) s'.(roll) ∧ adds (λ ev, ∃ x a, ev = Applied x b a) s s')
          (λ (_ : string) s', kept s.(roll) s'.(roll) ∧ adds (λ ev, ∃ x a, ev = Applied x b a) s s') s2) as Hrec.
      { intros s2 Hk2 Ha2. apply ends_then, record_version_ends. intros at_ w'. apply ends_ret.
        split; [by eapply kept_trans; [exact Hk2|]|]. destruct Ha2 as (evs & Ha2 & ?). by exists evs. }
      destruct (decide (x ∈ Rollout.canary s.(roll))).
      * apply ends_ret. by apply Hrec.
      * apply ends_then, request_ends; intros ? w' _; [apply ends_ret, Hrec; simpl|]; split_and?; try done;
          eapply adds_snoc; try exact Ha; try done; by eexists _, _.
    + split; [by split|by apply adds_refl].
  - intros touched s1 [Hk Ha]. do 3 apply ends_then, roll_set_ends. apply ends_ret. right. exists b.
    split_and!; [done..|right; destruct Hk; by split|]. destruct Ha as (evs & Ha & ?). by exists evs.
  - intros e s1 [Hk Ha]. right. exists b. by split_and!; [..|left|].
Qed.

(** ** Histories *)

Definition call_of (o : op) : engine unit :=
  match o with
  | Start b => start b;; mret tt
  | Evaluate samples source => evaluate samples source;; mret tt
  | GateOrRollback samples source => gate_or_rollback samples source;; mret tt
  | Rollback reason => rollback reason;; mret tt
  | CompleteOp => complete;; mret tt
  | Register x b => register_active x b
  end.

Definition run_op s (o : op) : sys W := default s (state_of (call_of o s)).
Definition run s (h : list op) : sys W := foldl run_op s h.

Lemma calls_snoc s h o : run s (h ++ [o]) = run_op (run s h) o.
Proof. unfold run. by rewrite foldl_app. Qed.

Definition op_does (o : op) s s' : Prop :=
  match o with
  | Start b => eff_start b s s'
  | Evaluate samples _ => eff_evaluate samples s s'
  | GateOrRollback samples _ =>
      ∃ s1, eff_evaluate samples s s1 ∧ (s' = s1 ∨ eff_rollback s1 s')
  | Rollback _ => eff_rollback s s'
  | CompleteOp => eff_complete s s'
  | Register _ _ => kept s.(roll) s'.(roll) ∧ s'.(trace) = s.(trace)
  end.

Lemma does_then {A} (m : engine A) (P : sys W → Prop) s :
  ends m (λ _, P) (λ _, P) s → ends (m;; mret tt) (λ _, P) (λ _, P) s.
Proof. intros Hm. apply ends_then. eapply ends_weaken; [exact Hm|done|done]. Qed.

(** The state that a call which is not a panic leaves. *)
Lemma run_op_does s o :
  (Rollout.stage s.(roll) = Propagating → is_Some (Rollout.pending_bundle s.(roll))) → op_does o s (run_op s o).
Proof.
  intros Hsome. assert (ends (call_of o) (λ _, op_does o s) (λ _, op_does o s) s) as Hd.
  { destruct o as [b|samples source|samples source|reason| |x b]; simpl.
    - apply does_then, start_does.
    - apply does_then, evaluate_does.
    - apply does_then. unfold gate_or_rollback. apply ends_then, evaluate_ends. intros rep s1 He _ _.
      case_bool_decide; [apply ends_ret; exists s1; auto|]. apply ends_then.
      eapply ends_weaken; [apply rollback_does|intros rb s2 ?; apply ends_ret; exists s1; auto|intros e s2 ?; exists s1; auto].
    - apply does_then, rollback_does.
    - by apply does_then, complete_does.
    - apply record_version_ends. intros at_ w. by split. }
  unfold run_op. unfold ends in Hd. by destruct (call_of o s).
Qed.

Section history.
Context (targets : list target) (gates : list HealthGate.t) (w : W).

Definition begins : sys W := {| roll := with_gates gates (new targets); world := w; trace := [] |}.

(** In [h] the gates passed over the canary of [b]. *)
Definition gated (h : list op) (b : ConfigBundle.t) : Prop :=
  ∃ h1 gate h2 samples source, h = h1 ++ gate :: h2
    ∧ (gate = Evaluate samples source ∨ gate = GateOrRollback samples source)
    ∧ Rollout.stage (run begins h1).(roll) = Canary ∧ Rollout.pending_bundle (run begins h1).(roll) = Some b
    ∧ gates_pass gates samples.

(** [x] is in the canary, or the gates passed for [b] and the rollout was then completed. *)
Definition reaches (h : list op) (x : target) (b : ConfigBundle.t) : Prop :=
  (∃ c, select_canary targets = Some c ∧ x ∈ c) ∨ ∃ h1 h2, h = h1 ++ CompleteOp :: h2 ∧ gated h1 b.

Record sound (h : list op) s : Prop := {
  snd_targets : Rollout.targets s.(roll) = targets;
  snd_gates : Rollout.gates s.(roll) = gates;
  snd_canary : Rollout.stage s.(roll) = Canary → is_Some (Rollout.pending_bundle s.(roll));
  snd_gated : Rollout.stage s.(roll) = Propagating → ∃ b, Rollout.pending_bundle s.(roll) = Some b ∧ gated h b;
  snd_trace : ∀ x b a, Applied x b a ∈ s.(trace) → reaches h x b;
  snd_previous : ∀ p, Rollout.previous_bundle s.(roll) = Some p → ConfigBundle.settings p = [];
  snd_restored : ∀ x p a, Restored x p a ∈ s.(trace) → ConfigBundle.settings p = [];
}.

Lemma gated_snoc h b o : gated h b → gated (h ++ [o]) b.
Proof.
  intros (h1 & g & h2 & samples & source & -> & ?). exists h1, g, (h2 ++ [o]), samples, source. by rewrite <- app_assoc.
Qed.

Lemma reaches_snoc h x b o : reaches h x b → reaches (h ++ [o]) x b.
Proof. intros [?|(h1 & h2 & -> & ?)]; [by left|right]. exists h1, (h2 ++ [o]). by rewrite <- app_assoc. Qed.

Lemma sound_snoc h s o : sound h s → sound (h ++ [o]) s.
Proof.
  intros []. split; try done.
  - intros Hs. destruct (snd_gated0 Hs) as (b & ? & ?). exists b. auto using gated_snoc.
  - eauto using reaches_snoc.
Qed.

(** A state that is kept but for the books stays sound. *)
Lemma sound_kept h s s' P :
  sound h s → kept s.(roll) s'.(roll) → adds P s s' →
  (∀ x b a, P (Applied x b a) → reaches h x b) → (∀ x p a, P (Restored x p a) → ConfigBundle.settings p = []) → sound h s'.
Proof.
  intros [] [] Ha HA HR. split; rewrite ?k_targets0, ?k_gates0, ?k_stage0, ?k_pending0, ?k_previous0; try done.
  - intros x b a Hin. destruct (adds_elem _ _ _ _ Ha Hin); eauto.
  - intros x p a Hin. destruct (adds_elem _ _ _ _ Ha Hin); eauto.
Qed.

Lemma active_bundle_settings r : ConfigBundle.settings (current_active_bundle r) = [].
Proof. unfold current_active_bundle. by destruct (head _). Qed.

(** The same with some fields of the rollout changed first. *)
Lemma sound_change h s s' r P :
  sound h s → kept r s'.(roll) → adds P s s' →
  Rollout.targets r = Rollout.targets s.(roll) → Rollout.gates r = Rollout.gates s.(roll) →
  (Rollout.stage r = Canary → is_Some (Rollout.pending_bundle r)) →
  (Rollout.stage r = Propagating → ∃ b, Rollout.pending_bundle r = Some b ∧ gated h b) →
  (∀ p, Rollout.previous_bundle r = Some p → ConfigBundle.settings p = []) →
  (∀ x b a, P (Applied x b a) → reaches h x b) → (∀ x p a, P (Restored x p a) → ConfigBundle.settings p = []) → sound h s'.
Proof.
  intros Hs Hk (evs & Ht & HP) HT HG HC HPr HPv HA HR.
  apply (sound_kept h {| roll := r; world := s.(world); trace := s.(trace) |} s' P); [|done|by exists evs|done|done].
  destruct Hs. split; simpl; rewrite ?HT, ?HG; done.
Qed.

Lemma sound_start h s s' b : sound h s → eff_start b s s' → sound h s'.
Proof.
  intros Hs [[Hk Ht]|(c & Hc & Hs1 & Hs2 & (st & Hst & Hk) & Ha)].
  - eapply (sound_kept _ _ _ (λ _, False)); [done|done|by apply adds_refl|done|done].
  - eapply sound_change; [exact Hs|exact Hk|exact Ha|done|done|simpl; by eauto| | | |].
    + simpl. intros ->. by destruct Hst.
    + simpl. intros p [= <-]. apply active_bundle_settings.
    + intros x b' a (x' & a' & [= -> -> ->] & Hx). left. exists c. by rewrite <- (snd_targets _ _ Hs).
    + by intros x p a (? & ? & ? & _).
Qed.

Lemma sound_evaluate h s' samples source o :
  sound h (run begins h) → (o = Evaluate samples source ∨ o = GateOrRollback samples source) →
  eff_evaluate samples (run begins h) s' → sound (h ++ [o]) s'.
Proof.
  intros Hs Ho [Ht [Hk|(Hst & Hg & Hk)]].
  - eapply (sound_kept _ _ _ (λ _, False)); [by apply sound_snoc|done|by apply adds_refl|done|done].
  - destruct (snd_canary _ _ Hs Hst) as [b Hb].
    eapply (sound_change _ _ _ _ (λ _, False)); [by apply sound_snoc|exact Hk|by apply adds_refl|done|done|done| |apply Hs|done|done].
    intros _. exists b. split; [done|]. exists h, o, [], samples, source. rewrite (snd_gates _ _ Hs) in Hg. by split_and!.
Qed.

Lemma sound_rollback h s s' : sound h s → eff_rollback s s' → sound h s'.
Proof.
  intros Hs [[Hk|Hk] Ha].
  all: eapply sound_change; [exact Hs|exact Hk|exact Ha|done|done|try apply Hs; done|try apply Hs; done|apply Hs| |].
  all: try (by intros x b a (? & ? & ? & ? & _)).
  all: intros x p a (x' & p' & a' & [= -> -> ->] & _ & Hp); by apply Hs.
Qed.

Lemma sound_complete h s s' : sound h s → eff_complete s s' → sound (h ++ [CompleteOp]) s'.
Proof.
  intros Hs [[Hk Ht]|(b & Hst & Hb & Hk & Ha)].
  - eapply (sound_kept _ _ _ (λ _, False)); [by apply sound_snoc|done|by apply adds_refl|done|done].
  - destruct (snd_gated _ _ Hs Hst) as (b' & Hb' & Hg). rewrite Hb in Hb'. simplify_eq.
    pose proof (sound_snoc h s CompleteOp Hs) as Hs'. destruct Hk as [Hk|Hk].
    all: eapply sound_change; [exact Hs'|exact Hk|exact Ha|done|done|try apply Hs'; done|try apply Hs'; done|apply Hs'| |].
    all: try (by intros x p a (? & ? & ?)).
    all: intros x b0 a (x' & a' & [= -> -> ->]); right; by exists h, [].
Qed.

Lemma run_sound h : sound h (run begins h).
Proof.
  induction h as [|o h IH] using rev_ind.
  { split; simpl; try done; intros; set_solver. }
  rewrite calls_snoc. assert (op_does o (run begins h) (run_op (run begins h) o)) as Ho.
  { apply run_op_does. intros Hp. destruct (snd_gated _ _ IH Hp) as (b & Hb & _). by exists b. }
  destruct o as [b|samples source|samples source|reason| |x b]; simpl in Ho.
  - eapply sound_start; [by apply sound_snoc|exact Ho].
  - eapply sound_evaluate; [done|by left|done].
  - destruct Ho as (s1 & He & Hr). assert (sound (h ++ [GateOrRollback samples source]) s1) as H1
      by (eapply sound_evaluate; [done|by right|done]).
    destruct Hr as [->|Hr]; [done|]. by eapply sound_rollback.
  - eapply sound_rollback; [by apply sound_snoc|exact Ho].
  - by eapply sound_complete.
  - destruct Ho as [Hk Ht]. eapply (sound_kept _ _ _ (λ _, False)); [by apply sound_snoc|done|by apply adds_refl|done|done].
Qed.

(** C9: In any history of calls, whatever the world answers, a bundle is only ever sent to a
    target of the canary, or after the gates all passed on samples taken while that bundle
    was on the canary and the rollout was then completed. *)
Theorem bundles_spread_after_the_gates h x b a :
  Applied x b a ∈ (run begins h).(trace) →
  (∃ c, select_canary targets = Some c ∧ x ∈ c)
  ∨ ∃ h1 gate h2 h3 samples source, h = h1 ++ gate :: h2 ++ CompleteOp :: h3
      ∧ (gate = Evaluate samples source ∨ gate = GateOrRollback samples source)
      ∧ Rollout.stage (run begins h1).(roll) = Canary ∧ Rollout.pending_bundle (run begins h1).(roll) = Some b
      ∧ Forall (λ g, gate_outcome g (observe samples g) = Passed) gates.
Proof.
  intros Ha. destruct (snd_trace _ _ (run_sound h) _ _ _ Ha) as [?|(h0 & h3 & -> & h1 & gate & h2 & samples & source & -> & ?)];
    [by left|right]. exists h1, gate, h2, h3, samples, source. by rewrite <- app_assoc.
Qed.

(** What a rollback sends has a version but no settings: the settings of the bundle that was
    active are not kept. *)
Lemma restored_bundles_are_empty h x p a :
  Restored x p a ∈ (run begins h).(trace) → ConfigBundle.settings p = [].
Proof. apply (snd_restored _ _ (run_sound h)). Qed.
End history.

(** ** Rollback *)

Definition runs_version (p : ConfigBundle.t) (st : VersionStatus) r (x : target) : Prop :=
  ∃ v, config_version r x = Some v ∧ ComponentConfigVersion.version v = ConfigBundle.version p
    ∧ ComponentConfigVersion.status v = st.

Lemma runs_version_insert p st r x y at_ :
  x = y ∨ runs_version p st r x →
  runs_version p st (Rollout.set_versions (BTreeMap.insert (RolloutTarget.id y) (entry y p st at_) (Rollout.versions r)) r) x.
Proof.
  intros Hx. unfold runs_version, config_version. simpl.
  destruct (decide (RolloutTarget.id x = RolloutTarget.id y)) as [->|Hne].
  - rewrite BTreeMap.get_insert. by eexists.
  - rewrite BTreeMap.get_insert_ne by done. destruct Hx as [->|Hx]; [done|exact Hx].
Qed.

Lemma restore_loop_ends p l s (Q : unit → sys W → Prop) (X : string → sys W → Prop) :
  (∀ x w, ∃ v w', w_restore x p w = (Ok v, w')) →
  (∀ s' evs, kept s.(roll) s'.(roll) → s'.(trace) = s.(trace) ++ evs →
     Forall2 (λ x ev, ∃ v, ev = Restored x p (Ok v)) l evs → Forall (runs_version p SRestored s'.(roll)) l → Q tt s') →
  ends (for_in (λ _ x, restore x p;; record_version x p SRestored) l tt) Q X s.
Proof.
  intros Hok HQ. eapply ends_weaken.
  - apply (ends_for_in _ (λ l' _ s', ∃ done evs, l = done ++ l' ∧ kept s.(roll) s'.(roll) ∧ s'.(trace) = s.(trace) ++ evs
      ∧ Forall2 (λ x ev, ∃ v, ev = Restored x p (Ok v)) done evs ∧ Forall (runs_version p SRestored s'.(roll)) done) (λ _ _, False)).
    + intros x l' _ s1 (dn & evs & Hl & Hk & Ht & Hev & Hv). apply ends_then, request_ends.
      2: { intros e w He. destruct (Hok x s1.(world)) as (v & w' & Hw). congruence. }
      intros v w _. apply record_version_ends. intros at_ w'. exists (dn ++ [x]), (evs ++ [Restored x p (Ok v)]). simpl. split_and!.
      * by rewrite Hl, <- app_assoc.
      * by eapply kept_trans; [exact Hk|].
      * by rewrite Ht, <- app_assoc.
      * apply Forall2_app; [done|]. constructor; [by eexists|constructor].
      * apply Forall_app. split; [|constructor; [apply runs_version_insert; by left|constructor]].
        eapply Forall_impl; [exact Hv|]. intros y Hy. apply runs_version_insert. by right.
    + exists [], []. rewrite app_nil_r. by split_and!; constructor.
  - intros [] s' (dn & evs & Hl & Hk & Ht & Hev & Hv). rewrite app_nil_r in Hl. subst dn. by eapply HQ.
  - done.
Qed.

End engine.

(** ** A concrete rollout of settings

    Forty targets, the recording applier and the manual clock: the theorems applied to
    concrete histories, and what single calls answer. *)

#[local] Instance texts : Texts := {| sha256_hex := λ s, s; display_f64 := fmt2 |}.

Definition fleet : list target :=
  (λ i, {| RolloutTarget.namespace := "ns-" +:+ show_Z (Z.of_nat (i mod 3)); RolloutTarget.node := "node-" +:+ show_Z (Z.of_nat i) |}) <$> seq 0 40.

Definition old : ConfigBundle.t := new_bundle "2.3.0" [("replica_count", "2")].
Definition candidate : ConfigBundle.t := new_bundle "2.4.0" [("replica_count", "1")].

Definition sample (s : string) (n d : Z) : HealthSample.t := {| HealthSample.signal := s; HealthSample.value := f64_lit n d |}.
Definition healthy : list HealthSample.t := [sample "replica_count" 2 1; sample "ready_ratio" 1 1; sample "error_ratio" 0 1].
Definition broken : list HealthSample.t := [sample "replica_count" 0 1; sample "ready_ratio" 1 1].

Definition begin_ : sys Recording.t := begins fleet default_gates (Recording.new 1000 0).
Definition canaried : sys Recording.t := run begin_ [Register (RolloutTarget.from_str "ns-0/node-0") old; Start candidate].
Definition good : list op := [Start candidate; Evaluate healthy "metrics"; CompleteOp].

Definition stage_of (s : sys Recording.t) : RolloutStage := Rollout.stage (roll s).

(** Two of forty targets are the canary; a second start and an early completion are refused;
    a good canary goes to all, a bad one back, without its settings. *)
Example rollout_answers :
  length (Rollout.canary (roll canaried)) = 2
  ∧ result_of (start old canaried) = Some (Err "a rollout is already in flight")
  ∧ result_of (complete canaried) = Some (Err "cannot complete a rollout in stage canary")
  ∧ stage_of (run begin_ good) = Complete
  ∧ Forall (λ x, Recording.current_version x (world (run begin_ good)) = Some "2.4.0") fleet
  ∧ stage_of (run canaried [GateOrRollback broken "metrics"]) = RolledBack
  ∧ last (trace (run canaried [GateOrRollback broken "metrics"]))
      = Some (Restored (RolloutTarget.from_str "ns-1/node-25")
                {| ConfigBundle.version := "2.3.0"; ConfigBundle.digest := ConfigBundle.digest old; ConfigBundle.settings := [] |} (Ok "2.3.0")).
Proof. vm_compute. split_and!; [reflexivity..| |reflexivity|reflexivity]. repeat constructor. Qed.

Example targets_parse :
  RolloutTarget.from_str "a/b/c" = {| RolloutTarget.namespace := "a"; RolloutTarget.node := "b/c" |}
  ∧ RolloutTarget.from_str "solo" = {| RolloutTarget.namespace := "default"; RolloutTarget.node := "solo" |}.
Proof. split; reflexivity. Qed.

Lemma canary_is_small_witness :
  ∃ c, select_canary fleet = Some c ∧ select_canary (reverse fleet ++ fleet) = Some c ∧ c ⊆ fleet ∧ NoDup c
    ∧ length c ≤ 1 `max` (length (dedup (sort_by target_le fleet)) / 20) ∧ (fleet ≠ [] → c ≠ []).
Proof.
  apply (canary_is_small fleet (reverse fleet ++ fleet)).
  - apply Nat.leb_le. vm_compute. reflexivity.
  - intros x. rewrite elem_of_app, elem_of_reverse. tauto.
Defined.

(** The first target outside the canary that is sent the candidate. *)
Definition reached : target := {| RolloutTarget.namespace := "ns-1"; RolloutTarget.node := "node-1" |}.

Lemma bundles_spread_witness :
  (∃ c, select_canary fleet = Some c ∧ reached ∈ c)
  ∨ ∃ h1 gate h2 h3 samples source, good = h1 ++ gate :: h2 ++ CompleteOp :: h3
      ∧ (gate = Evaluate samples source ∨ gate = GateOrRollback samples source)
      ∧ Rollout.stage (run begin_ h1).(roll) = Canary ∧ Rollout.pending_bundle (run begin_ h1).(roll) = Some candidate
      ∧ Forall (λ g, gate_outcome g (observe samples g) = Passed) default_gates.
Proof.
  apply (bundles_spread_after_the_gates fleet default_gates (Recording.new 1000 0) good reached candidate (Ok "2.4.0")).
  apply (list_elem_of_lookup_2 _ 2). vm_compute. reflexivity.
Defined.

Definition previous : ConfigBundle.t :=
  {| ConfigBundle.version := "2.3.0"; ConfigBundle.digest := ConfigBundle.digest old; ConfigBundle.settings := [] |}.

