(* ===== verification/PolicyPromotion.v ===== *)
(** * Promotion of policy bundles

    [src/src/policy_promotion.rs]: content-addressed bundles of policy rules, the dry-run
    impact analysis, and the pipeline that promotes a bundle from dev to staging to
    production, advances the enforcement stage of an environment, and rolls every
    environment back.  The pipeline is calls on a state that keep what they wrote before an
    error ([Contract]).  SHA-256 is the class [Sha] of [RustText], the trait [PromotionClock] with the
    clock of the system the class [Clock]. *)

From stdpp Require Import prelude gmap list strings.
From Stdlib Require Import Ascii SpecFloat.
From S2P Require Import Prelude RustStr RustText Float64 BTreeMap Contract.

Definition ROLLBACK_SLA_MS : Z := 60000.
Definition MAX_DENY_RATIO : f64 := f64_lit 25 100.

(** ** Bundles *)

Inductive Severity : Type := Info | Medium | High | Critical.
#[global] Instance Severity_eq_dec : EqDecision Severity.
Proof. solve_decision. Defined.
Definition show_severity (s : Severity) : string :=
  match s with Info => "info" | Medium => "medium" | High => "high" | Critical => "critical" end.

(** The derived order: by position. *)
Definition severity_rank (s : Severity) : nat :=
  match s with Info => 0 | Medium => 1 | High => 2 | Critical => 3 end.
Definition severity_max (a b : Severity) : Severity :=
  if (severity_rank b <? severity_rank a)%nat then a else b.

Inductive PolicyAction : Type := Allow | Warn | Deny.
#[global] Instance PolicyAction_eq_dec : EqDecision PolicyAction.
Proof. solve_decision. Defined.
Definition show_action (a : PolicyAction) : string :=
  match a with Allow => "allow" | Warn => "warn" | Deny => "deny" end.

Module PolicyRule.
Record t : Type := { id : string; expr : string; action : PolicyAction; severity : Severity }.
#[global] Instance eq_dec : EqDecision t.
Proof. solve_decision. Defined.

Definition deny (i e : string) (s : Severity) : t := {| id := i; expr := e; action := Deny; severity := s |}.
Definition warn (i e : string) (s : Severity) : t := {| id := i; expr := e; action := Warn; severity := s |}.
Definition allow (i e : string) : t := {| id := i; expr := e; action := Allow; severity := Info |}.
End PolicyRule.

Module PolicyBundle.
Record t : Type := { version : string; digest : string; rules : list PolicyRule.t; created_at : DateTime }.
#[global] Instance eq_dec : EqDecision t.
Proof. solve_decision. Defined.

(** [iter().map(..).max().unwrap_or(Info)]. *)
Definition severity (b : t) : Severity :=
  match PolicyRule.severity <$> rules b with
  | [] => Info
  | s :: l => foldl severity_max s l
  end.

Definition deny_rules (b : t) : list PolicyRule.t :=
  List.filter (λ r, bool_decide (PolicyRule.action r = Deny)) (rules b).
End PolicyBundle.
Abbreviation bundle := PolicyBundle.t.
Abbreviation rule := PolicyRule.t.

(** What is fed to the hasher for one rule, and for a bundle. *)
Definition rule_text (r : rule) : string :=
  PolicyRule.id r +:+ "|" +:+ PolicyRule.expr r +:+ "|" +:+ show_action (PolicyRule.action r) +:+ "|"
    +:+ show_severity (PolicyRule.severity r) +:+ newline.
Fixpoint rules_text (rs : list rule) : string :=
  match rs with [] => "" | r :: rs' => rule_text r +:+ rules_text rs' end.
Definition bundle_text (version : string) (rs : list rule) : string := version +:+ newline +:+ rules_text rs.

Definition bundle_digest `{Sha} (version : string) (rs : list rule) : string := sha256_hex (bundle_text version rs).

Definition new_bundle `{Sha} (version : string) (rs : list rule) (now : DateTime) : bundle :=
  {| PolicyBundle.version := version; PolicyBundle.digest := bundle_digest version rs;
     PolicyBundle.rules := rs; PolicyBundle.created_at := now |}.

Definition is_intact `{Sha} (b : bundle) : bool :=
  String.eqb (PolicyBundle.digest b) (bundle_digest (PolicyBundle.version b) (PolicyBundle.rules b)).

(** ** Environments and stages *)

Inductive Environment : Type := Dev | Staging | Production.
#[global] Instance Environment_eq_dec : EqDecision Environment.
Proof. solve_decision. Defined.
Definition env_encode (e : Environment) : positive := match e with Dev => 1 | Staging => 2 | Production => 3 end.
Definition env_decode (p : positive) : option Environment :=
  match p with 1%positive => Some Dev | 2%positive => Some Staging | _ => Some Production end.
#[global] Instance Environment_countable : Countable Environment.
Proof. refine {| encode := env_encode; decode := env_decode |}. abstract (by intros []). Defined.

Definition PATH : list Environment := [Dev; Staging; Production].
Definition predecessor (e : Environment) : option Environment :=
  match e with Dev => None | Staging => Some Dev | Production => Some Staging end.
Definition show_env (e : Environment) : string :=
  match e with Dev => "dev" | Staging => "staging" | Production => "production" end.

Inductive EnforcementStage : Type := Audit | WarnStage | Enforce.
#[global] Instance EnforcementStage_eq_dec : EqDecision EnforcementStage.
Proof. solve_decision. Defined.
Definition next (s : EnforcementStage) : option EnforcementStage :=
  match s with Audit => Some WarnStage | WarnStage => Some Enforce | Enforce => None end.
Definition show_stage (s : EnforcementStage) : string :=
  match s with Audit => "audit" | WarnStage => "warn" | Enforce => "enforce" end.

(** ** Impact analysis *)

Module PolicyInventory.
Record t : Type := { environment : Environment; resources : Z; namespaces : BTreeMap.t Z }.
Definition new (e : Environment) (n : Z) : t := {| environment := e; resources := n; namespaces := [] |}.
Definition with_namespaces (i : t) (l : list (string * Z)) : t :=
  {| environment := environment i; resources := resources i;
     namespaces := foldl (λ m p, BTreeMap.insert p.1 p.2 m) [] l |}.
End PolicyInventory.
Abbreviation inventory := PolicyInventory.t.

Module ImpactAnalysis.
Record t : Type := {
  bundle_version : string; bundle_digest : string; environment : Environment;
  evaluated_resources : Z; denied : Z; warned : Z; denied_ratio : f64;
  wiped_namespaces : list string; max_severity : Severity; blockers : list string; analysed_at : DateTime;
}.

Definition blocks_promotion (a : t) : bool := negb (bool_decide (blockers a = [])).

(** [None] where the slice of the digest would panic. *)
Definition to_markdown (a : t) : option string :=
  d ← slice_head 16 (bundle_digest a);
  let out :=
    "### Policy impact: `" +:+ bundle_version a +:+ "` -> " +:+ show_env (environment a) +:+ newline +:+ newline
    +:+ "* bundle digest: `" +:+ d +:+ "`" +:+ newline
    +:+ "* resources in scope: " +:+ show_Z (evaluated_resources a) +:+ newline
    +:+ "* would deny: " +:+ show_Z (denied a) +:+ " (" +:+ fmt1 (f64_mul (denied_ratio a) f64_100)
    +:+ "%, budget " +:+ fmt_fixed 0 (f64_mul MAX_DENY_RATIO f64_100) +:+ "%)" +:+ newline
    +:+ "* would warn: " +:+ show_Z (warned a) +:+ newline
    +:+ "* max severity: " +:+ show_severity (max_severity a) +:+ newline +:+ newline in
  Some (out +:+ match blockers a with
                | [] => "No blockers: promotion is allowed." +:+ newline
                | bs => "**Blocked:**" +:+ newline +:+ join "" ((λ b, "* " +:+ b +:+ newline) <$> bs)
                end).
End ImpactAnalysis.

Definition is_universal (expr : string) : bool :=
  let e := trim expr in
  String.eqb e "true" || String.eqb e "1" || String.eqb e ".*" || String.eqb e "*".

Definition overbroad (b : bundle) : bool := existsb (λ r, is_universal (PolicyRule.expr r)) (PolicyBundle.deny_rules b).

Definition denied_count (b : bundle) (n : Z) : Z :=
  if overbroad b then n
  else if negb (bool_decide (PolicyBundle.deny_rules b = [])) then Z.max (as_u64 (n * 3) / 100) 1
  else 0.
Definition warned_count (b : bundle) (n : Z) : Z :=
  if existsb (λ r, bool_decide (PolicyRule.action r = Warn)) (PolicyBundle.rules b) then Z.max (as_u64 (n * 10) / 100) 1 else 0.
Definition ratio_of (denied n : Z) : f64 := if (n =? 0)%Z then f64_zero else f64_div (f64_of_Z denied) (f64_of_Z n).
Definition wiped (b : bundle) (i : inventory) : list string :=
  sort_by str_le (if overbroad b then fst <$> PolicyInventory.namespaces i else []).

Definition blockers_of `{Sha} (b : bundle) (i : inventory) : list string :=
  let n := PolicyInventory.resources i in
  let env := show_env (PolicyInventory.environment i) in
  let denied := denied_count b n in
  let ratio := ratio_of denied n in
  (if overbroad b
   then ["bundle denies all " +:+ show_Z denied +:+ " resources in " +:+ env +:+ " (ratio " +:+ fmt2 ratio
           +:+ " > budget " +:+ fmt2 MAX_DENY_RATIO +:+ ")"] else [])
  ++ (if f64_gt ratio MAX_DENY_RATIO
      then ["deny ratio " +:+ fmt2 ratio +:+ " exceeds the " +:+ fmt2 MAX_DENY_RATIO +:+ " budget"] else [])
  ++ ((λ ns, "namespace `" +:+ ns +:+ "` would be emptied entirely") <$> wiped b i)
  ++ (if is_intact b then [] else ["bundle digest does not match its content; it was mutated after creation"])
  ++ (if (n =? 0)%Z then ["no resources in scope for " +:+ env] else []).

Definition analyze_impact `{Sha} (b : bundle) (i : inventory) (now : DateTime) : ImpactAnalysis.t :=
  let n := PolicyInventory.resources i in
  {| ImpactAnalysis.bundle_version := PolicyBundle.version b;
     ImpactAnalysis.bundle_digest := PolicyBundle.digest b;
     ImpactAnalysis.environment := PolicyInventory.environment i;
     ImpactAnalysis.evaluated_resources := n;
     ImpactAnalysis.denied := denied_count b n;
     ImpactAnalysis.warned := warned_count b n;
     ImpactAnalysis.denied_ratio := ratio_of (denied_count b n) n;
     ImpactAnalysis.wiped_namespaces := wiped b i;
     ImpactAnalysis.max_severity := PolicyBundle.severity b;
     ImpactAnalysis.blockers := blockers_of b i;
     ImpactAnalysis.analysed_at := now |}.

(** ** The pipeline *)

Module EnvironmentState.
Record t : Type := {
  environment : Environment; active : option bundle; previous : option bundle;
  stage : EnforcementStage; updated_at : DateTime;
}.
Definition initial (e : Environment) (now : DateTime) : t :=
  {| environment := e; active := None; previous := None; stage := Audit; updated_at := now |}.

(** The writes of [promote], [advance_stage] and [rollback]. *)
Definition activate (b : bundle) (now : DateTime) (s : t) : t :=
  {| environment := environment s; active := Some b; previous := active s; stage := stage s; updated_at := now |}.
Definition set_stage (st : EnforcementStage) (now : DateTime) (s : t) : t :=
  {| environment := environment s; active := active s; previous := previous s; stage := st; updated_at := now |}.
Definition restore (p : bundle) (now : DateTime) (s : t) : t :=
  {| environment := environment s; active := Some p; previous := None; stage := Audit; updated_at := now |}.
End EnvironmentState.

Module PromotionRecord.
Record t : Type := {
  bundle_version : string; bundle_digest : string; environment : Environment;
  stage : EnforcementStage; blocked : bool; detail : string; at_ : DateTime;
}.
End PromotionRecord.

Module RollbackRecord.
Record t : Type := {
  environments : list Environment; restored_version : string; restored_digest : string;
  duration_ms : Z; within_sla : bool;
}.
End RollbackRecord.

Inductive PromotionError : Type :=
| MutatedBundle
| PredecessorNotPromoted (environment : Environment)
| ImpactBlocked (record : PromotionRecord.t)
| NoActiveBundle (environment : Environment)
| StageAlreadyMaximal (environment : Environment)
| NothingToRollBack.

Definition show_error (e : PromotionError) : string :=
  match e with
  | MutatedBundle => "policy bundle was mutated after creation"
  | PredecessorNotPromoted env => "bundle is not promoted to " +:+ show_env env +:+ " yet"
  | ImpactBlocked r => "impact analysis blocked promotion: " +:+ PromotionRecord.detail r
  | NoActiveBundle env => "no bundle promoted to " +:+ show_env env
  | StageAlreadyMaximal env => show_env env +:+ " is already enforcing"
  | NothingToRollBack => "no previous policy bundle to roll back to"
  end.

(** [PromotionClock], with [Utc::now()]: reading a clock may move it. *)
Class Clock (W : Type) : Type := {
  clock_millis : W → Z * W;
  clock_charge : Z → W → W;
  clock_utc : W → DateTime * W;
}.

Record pipeline (W : Type) : Type := {
  states : gmap Environment EnvironmentState.t;
  history : list PromotionRecord.t;
  clock : W;
  promote_cost_ms : Z;
}.
Arguments states {W} _.
Arguments history {W} _.
Arguments clock {W} _.
Arguments promote_cost_ms {W} _.

Section pipeline.
Context `{Sha} {W : Type} `{!Clock W}.
Abbreviation step := (call (pipeline W) PromotionError).
Implicit Types (p : pipeline W).

Definition set_clock (w : W) p : pipeline W :=
  {| states := states p; history := history p; clock := w; promote_cost_ms := promote_cost_ms p |}.
Definition update_state (e : Environment) (f : EnvironmentState.t → EnvironmentState.t) p : pipeline W :=
  {| states := alter f e (states p); history := history p; clock := clock p; promote_cost_ms := promote_cost_ms p |}.
Definition push_record (r : PromotionRecord.t) p : pipeline W :=
  {| states := states p; history := history p ++ [r]; clock := clock p; promote_cost_ms := promote_cost_ms p |}.

Definition utc_now : step DateTime := λ p, let '(t, w) := clock_utc (clock p) in Returned t (set_clock w p).
Definition now_millis : step Z := λ p, let '(t, w) := clock_millis (clock p) in Returned t (set_clock w p).
Definition charge (ms : Z) : step unit := modify (λ p, set_clock (clock_charge ms (clock p)) p).

(** Every environment gets a state of its own, made at its own time. *)
Definition new (w : W) : pipeline W :=
  let '(states, w) := foldl (λ '(m, w) e, let '(t, w) := clock_utc w in (<[e := EnvironmentState.initial e t]> m, w)) (∅, w) PATH in
  {| states := states; history := []; clock := w; promote_cost_ms := 2000 |}.
Definition with_cost (ms : Z) p : pipeline W :=
  {| states := states p; history := history p; clock := clock p; promote_cost_ms := ms |}.

Definition state (e : Environment) : step EnvironmentState.t := p ← get; or_panic (states p !! e).
Definition stage (e : Environment) : step EnforcementStage := st ← state e; mret (EnvironmentState.stage st).
Definition dry_run (b : bundle) (i : inventory) : step ImpactAnalysis.t := now ← utc_now; mret (analyze_impact b i now).

Definition check_predecessor (b : bundle) (e : Environment) : step unit :=
  match predecessor e with
  | None => mret tt
  | Some prev =>
      st ← state prev;
      reject_if (negb (bool_decide (PolicyBundle.digest <$> EnvironmentState.active st = Some (PolicyBundle.digest b))))
        (PredecessorNotPromoted prev)
  end.

Definition promote (b : bundle) (i : inventory) : step PromotionRecord.t :=
  let env := PolicyInventory.environment i in
  reject_if (negb (is_intact b)) MutatedBundle;;
  check_predecessor b env;;
  analysis ← dry_run b i;
  if ImpactAnalysis.blocks_promotion analysis then
    st ← stage env;
    now ← utc_now;
    let record := {| PromotionRecord.bundle_version := PolicyBundle.version b; PromotionRecord.bundle_digest := PolicyBundle.digest b;
       PromotionRecord.environment := env; PromotionRecord.stage := st; PromotionRecord.blocked := true;
       PromotionRecord.detail := join "; " (ImpactAnalysis.blockers analysis); PromotionRecord.at_ := now |} in
    modify (push_record record);;
    throw (ImpactBlocked record)
  else
    p ← get;
    charge (promote_cost_ms p);;
    st ← stage env;
    _ ← state env;
    updated ← utc_now;
    modify (update_state env (EnvironmentState.activate b updated));;
    now ← utc_now;
    let record := {| PromotionRecord.bundle_version := PolicyBundle.version b; PromotionRecord.bundle_digest := PolicyBundle.digest b;
       PromotionRecord.environment := env; PromotionRecord.stage := st; PromotionRecord.blocked := false;
       PromotionRecord.detail := "promoted " +:+ PolicyBundle.version b +:+ " to " +:+ show_env env +:+ " at stage " +:+ show_stage st
         +:+ " (" +:+ show_Z (ImpactAnalysis.denied analysis) +:+ " of " +:+ show_Z (ImpactAnalysis.evaluated_resources analysis)
         +:+ " resources denied)"; PromotionRecord.at_ := now |} in
    modify (push_record record);;
    mret record.

Definition advance_stage (e : Environment) : step EnforcementStage :=
  st ← state e;
  active ← ok_or (EnvironmentState.active st) (NoActiveBundle e);
  nxt ← ok_or (next (EnvironmentState.stage st)) (StageAlreadyMaximal e);
  updated ← utc_now;
  modify (update_state e (EnvironmentState.set_stage nxt updated));;
  now ← utc_now;
  modify (push_record
    {| PromotionRecord.bundle_version := PolicyBundle.version active; PromotionRecord.bundle_digest := PolicyBundle.digest active;
       PromotionRecord.environment := e; PromotionRecord.stage := nxt; PromotionRecord.blocked := false;
       PromotionRecord.detail := "enforcement stage advanced to " +:+ show_stage nxt; PromotionRecord.at_ := now |});;
  mret nxt.

(** The environments that have a bundle to go back to. *)
Definition rollback_targets p : list (Environment * bundle) :=
  omap (λ e, st ← states p !! e; b ← EnvironmentState.previous st; Some (e, b)) PATH.

(** The loop, over the environments restored and the version and digest restored last. *)
Definition restore_one (acc : list Environment * (string * string)) (x : Environment * bundle)
    : step (list Environment * (string * string)) :=
  p ← get;
  charge (promote_cost_ms p);;
  _ ← state x.1;
  updated ← utc_now;
  modify (update_state x.1 (EnvironmentState.restore x.2 updated));;
  mret (acc.1 ++ [x.1], (PolicyBundle.version x.2, PolicyBundle.digest x.2)).

Definition rollback : step RollbackRecord.t :=
  p ← get;
  let targets := rollback_targets p in
  reject_if (bool_decide (targets = [])) NothingToRollBack;;
  started ← now_millis;
  acc ← for_in restore_one targets ([], ("", ""));
  ended ← now_millis;
  let duration := Z.max 0 (ended - started) in
  mret {| RollbackRecord.environments := acc.1; RollbackRecord.restored_version := acc.2.1;
          RollbackRecord.restored_digest := acc.2.2; RollbackRecord.duration_ms := duration;
          RollbackRecord.within_sla := (duration <=? ROLLBACK_SLA_MS)%Z |}.
End pipeline.

(** ** The clock of tests *)

Module Manual.
Record t : Type := { millis : Z; utc : DateTime }.
Definition new (start utc : Z) : t := {| millis := start; utc := utc |}.
Definition charge (ms : Z) (c : t) : t := {| millis := as_u64 (millis c + ms); utc := utc c |}.
#[global] Instance clock : Clock t :=
  {| clock_millis c := (millis c, c); clock_charge := charge; clock_utc c := (utc c, c) |}.
End Manual.
