(* ===== verification/PolicyFacts.v ===== *)
(** * Facts about policy promotion

    What a digest binds, what the impact analysis lets pass, and the effect of every call on
    the states of the environments. *)

From stdpp Require Import prelude gmap list strings.
From Stdlib Require Import Ascii SpecFloat.
From S2P Require Import Prelude RustStr RustText Float64 BTreeMap Contract HashTree PolicyPromotion.

(** ** Digests *)

Definition lacks (c : ascii) (s : string) : Prop := ¬ In c (String.list_ascii_of_string s).

(** No bar in an identifier or an expression, and a version of one line. *)
Definition plain_rule (r : rule) : Prop := lacks "|"%char (PolicyRule.id r) ∧ lacks "|"%char (PolicyRule.expr r).
Definition plain (b : bundle) : Prop := lacks NL (PolicyBundle.version b) ∧ Forall plain_rule (PolicyBundle.rules b).

Lemma show_action_inj a a' : show_action a = show_action a' → a = a'.
Proof. by destruct a, a'. Qed.

Lemma show_severity_inj s s' : show_severity s = show_severity s' → s = s'.
Proof. by destruct s, s'. Qed.

Lemma show_action_lacks a : lacks "|"%char (show_action a).
Proof. unfold lacks. destruct a; simpl; intuition discriminate. Qed.

Lemma show_severity_lacks s : lacks NL (show_severity s).
Proof. unfold lacks. destruct s; simpl; intuition discriminate. Qed.

Lemma rule_text_inj r r' s s' :
  plain_rule r → plain_rule r' → rule_text r +:+ s = rule_text r' +:+ s' → r = r' ∧ s = s'.
Proof.
  intros [Hi He] [Hi' He']. destruct r as [i e a v], r' as [i' e' a' v']. unfold rule_text; simpl in *.
  rewrite !append_assoc. simpl.
  intros [-> H]%append_mark_inj; [|done..]. apply append_mark_inj in H as [-> H]; [|done..].
  apply append_mark_inj in H as [Ha H]; [|apply show_action_lacks..].
  apply append_mark_inj in H as [Hv ->]; [|apply show_severity_lacks..].
  apply show_action_inj in Ha as ->. by apply show_severity_inj in Hv as ->.
Qed.

Lemma rule_text_nonempty r : ∃ c s, rule_text r = String c s.
Proof. unfold rule_text. destruct (PolicyRule.id r); simpl; eauto. Qed.

Lemma rules_text_inj rs rs' : Forall plain_rule rs → Forall plain_rule rs' → rules_text rs = rules_text rs' → rs = rs'.
Proof.
  intros Hrs. revert rs'. induction Hrs as [|r rs Hr _ IH]; intros rs' Hrs' H; destruct Hrs' as [|r' rs' Hr' Hrs']; simpl in H.
  - done.
  - destruct (rule_text_nonempty r') as (c & s & E). by rewrite E in H.
  - destruct (rule_text_nonempty r) as (c & s & E). by rewrite E in H.
  - apply rule_text_inj in H as [-> H]; [|done..]. by rewrite (IH rs').
Qed.

Definition content (b : bundle) : string * list rule := (PolicyBundle.version b, PolicyBundle.rules b).
Definition text_of (b : bundle) : string := bundle_text (PolicyBundle.version b) (PolicyBundle.rules b).

Lemma text_of_inj b b' : plain b → plain b' → text_of b = text_of b' → content b = content b'.
Proof.
  intros [Hv Hr] [Hv' Hr']. unfold text_of, bundle_text, content. intros [-> H]%append_mark_inj; [|done..].
  apply rules_text_inj in H; [|done..]. by rewrite H.
Qed.

Lemma digests_bind `{Sha} b b' :
  is_intact b = true → is_intact b' = true → plain b → plain b' → PolicyBundle.digest b = PolicyBundle.digest b' →
  content b = content b' ∨ collides sha256_hex [text_of b] [text_of b'].
Proof.
  unfold is_intact. intros Hb%String.eqb_eq Hb'%String.eqb_eq Hp Hp' Hd.
  destruct (same_digest sha256_hex [text_of b] [text_of b'] (text_of b) (text_of b')) as [Ht|Hc].
  - by apply list_elem_of_singleton.
  - by apply list_elem_of_singleton.
  - unfold text_of. unfold bundle_digest in *. congruence.
  - left. by apply text_of_inj.
  - by right.
Qed.

(** ** Impact analysis *)

(** What has to hold of a bundle and of the environment it goes to. *)
Record vetted `{Sha} (b : bundle) (i : inventory) : Prop := {
  v_intact : is_intact b = true;
  v_scope : PolicyInventory.resources i ≠ 0%Z;
  v_narrow : ∀ r, r ∈ PolicyBundle.rules b → PolicyRule.action r = Deny → is_universal (PolicyRule.expr r) = false;
  v_budget : f64_gt (ratio_of (denied_count b (PolicyInventory.resources i)) (PolicyInventory.resources i)) MAX_DENY_RATIO = false;
}.

Lemma overbroad_false b :
  overbroad b = false ↔ ∀ r, r ∈ PolicyBundle.rules b → PolicyRule.action r = Deny → is_universal (PolicyRule.expr r) = false.
Proof.
  unfold overbroad, PolicyBundle.deny_rules. rewrite <- not_true_iff_false, existsb_exists. split.
  - intros Hf r Hr Ha. apply not_true_iff_false. intros Hu. apply Hf. exists r. split; [|done].
    apply List.filter_In. split; [by apply list_elem_of_In|by apply bool_decide_eq_true_2].
  - intros Hf (r & [Hr Ha%bool_decide_eq_true_1]%List.filter_In & Hu). apply list_elem_of_In in Hr.
    rewrite Hf in Hu; done.
Qed.

Lemma blocks_promotion_false `{Sha} b i now : ImpactAnalysis.blocks_promotion (analyze_impact b i now) = false ↔ vetted b i.
Proof.
  unfold ImpactAnalysis.blocks_promotion, analyze_impact, blockers_of; simpl.
  rewrite negb_false_iff, bool_decide_eq_true. rewrite !app_nil. split.
  - intros (Ho & Hr & _ & Hi & Hn). split.
    + by destruct (is_intact b).
    + by destruct (Z.eqb_spec (PolicyInventory.resources i) 0).
    + apply overbroad_false. by destruct (overbroad b).
    + by destruct (f64_gt _ _).
  - intros [Hi Hn Ho%overbroad_false Hr]. unfold wiped. rewrite Hi, Ho, Hr. apply Z.eqb_neq in Hn. by rewrite Hn.
Qed.

(** ** Effects of calls *)

Section effects.
Context `{Sha} {W : Type} `{!Clock W}.
Implicit Types (p : pipeline W) (e : Environment).

(** Every environment has a state. *)
Definition full p : Prop := ∀ e, is_Some (states p !! e).

Definition active_in p e : option bundle := st ← states p !! e; EnvironmentState.active st.
Definition previous_in p e : option bundle := st ← states p !! e; EnvironmentState.previous st.
Definition stage_in p e : option EnforcementStage := EnvironmentState.stage <$> states p !! e.

Lemma utc_now_ends Q X p : (∀ t w, Q t (set_clock w p)) → ends utc_now Q X p.
Proof. intros HQ. unfold ends, utc_now. destruct (clock_utc (clock p)). apply HQ. Qed.

Lemma now_millis_ends Q X p : (∀ t w, Q t (set_clock w p)) → ends now_millis Q X p.
Proof. intros HQ. unfold ends, now_millis. destruct (clock_millis (clock p)). apply HQ. Qed.

Lemma charge_ends ms Q X p : (∀ w, Q tt (set_clock w p)) → ends (charge ms) Q X p.
Proof. intros HQ. apply HQ. Qed.

Lemma state_ends e Q X p st : states p !! e = Some st → Q st p → ends (state e) Q X p.
Proof. intros Hst HQ. unfold state. apply ends_then, ends_get. by eapply ends_or_panic. Qed.

Lemma stage_ends e Q X p st : states p !! e = Some st → Q (EnvironmentState.stage st) p → ends (stage e) Q X p.
Proof. intros Hst HQ. unfold stage. apply ends_then. eapply state_ends; [done|]. by apply ends_ret. Qed.

Lemma dry_run_ends b i Q X p : (∀ t w, Q (analyze_impact b i t) (set_clock w p)) → ends (dry_run b i) Q X p.
Proof. intros HQ. unfold dry_run. apply ends_then, utc_now_ends. intros t w. apply ends_ret, HQ. Qed.

(** The environment before [e] runs a bundle with the digest of [b]. *)
Definition preceded p e b : Prop :=
  match predecessor e with
  | None => True
  | Some e' => PolicyBundle.digest <$> active_in p e' = Some (PolicyBundle.digest b)
  end.

#[global] Instance preceded_dec p e b : Decision (preceded p e b).
Proof. unfold preceded. destruct (predecessor e); apply _. Defined.

Lemma check_predecessor_ends b e Q X p :
  full p → (preceded p e b → Q tt p) →
  (∀ e', predecessor e = Some e' → ¬ preceded p e b → X (PredecessorNotPromoted e') p) →
  ends (check_predecessor b e) Q X p.
Proof.
  unfold check_predecessor, preceded. intros Hf HQ HX. destruct (predecessor e) as [e'|]; [|by apply ends_ret, HQ].
  destruct (Hf e') as [st Hst]. apply ends_then. eapply state_ends; [done|]. unfold active_in in HQ, HX. rewrite Hst in HQ, HX.
  apply ends_reject_if; intros Hc.
  - apply negb_true_iff, bool_decide_eq_false_1 in Hc. by apply HX.
  - apply negb_false_iff, bool_decide_eq_true_1 in Hc. by apply HQ.
Qed.

(** The three outcomes of a promotion: refused with nothing changed, blocked with the attempt
    on record, or carried out. *)
Inductive promotes b (i : inventory) p : result PromotionRecord.t PromotionError → pipeline W → Prop :=
| promote_mutated : is_intact b = false → promotes b i p (Err MutatedBundle) p
| promote_early e' :
    is_intact b = true → predecessor (PolicyInventory.environment i) = Some e' →
    ¬ preceded p (PolicyInventory.environment i) b → promotes b i p (Err (PredecessorNotPromoted e')) p
| promote_blocked r p' :
    is_intact b = true → preceded p (PolicyInventory.environment i) b → ¬ vetted b i →
    PromotionRecord.blocked r = true → PromotionRecord.bundle_digest r = PolicyBundle.digest b →
    states p' = states p → history p' = history p ++ [r] → promotes b i p (Err (ImpactBlocked r)) p'
| promote_done r t p' :
    vetted b i → preceded p (PolicyInventory.environment i) b →
    PromotionRecord.blocked r = false → PromotionRecord.bundle_digest r = PolicyBundle.digest b →
    states p' = alter (EnvironmentState.activate b t) (PolicyInventory.environment i) (states p) →
    history p' = history p ++ [r] → promotes b i p (Ok r) p'.

Lemma promote_ends b i p :
  full p → ends (promote b i) (λ r p', promotes b i p (Ok r) p' ∧ promote_cost_ms p' = promote_cost_ms p)
                (λ x p', promotes b i p (Err x) p' ∧ promote_cost_ms p' = promote_cost_ms p) p.
Proof.
  intros Hf. unfold promote. apply ends_then, ends_reject_if.
  { intros Hi%negb_true_iff. split; [by constructor|done]. }
  intros Hi%negb_false_iff. apply ends_then, check_predecessor_ends; [done| |].
  2:{ intros e' He Hn. split; [by constructor|done]. }
  intros Hp. apply ends_then, dry_run_ends. intros t w.
  destruct (Hf (PolicyInventory.environment i)) as [st Hst].
  pose proof (blocks_promotion_false b i t) as Hv.
  destruct (ImpactAnalysis.blocks_promotion _).
  - apply ends_then. eapply stage_ends; [done|]. apply ends_then, utc_now_ends. intros t1 w1.
    apply ends_then, ends_modify, ends_throw. split; [|done]. apply promote_blocked; try done. by intros ?%Hv.
  - apply ends_then, ends_get, ends_then, charge_ends. intros w1. apply ends_then. eapply stage_ends; [done|].
    apply ends_then. eapply state_ends; [done|]. apply ends_then, utc_now_ends. intros t2 w2. apply ends_then, ends_modify.
    apply ends_then, utc_now_ends. intros t3 w3. apply ends_then, ends_modify, ends_ret. split; [|done].
    eapply promote_done; try done. by apply Hv.
Qed.

Inductive advances e p : result EnforcementStage PromotionError → pipeline W → Prop :=
| advance_none : active_in p e = None → advances e p (Err (NoActiveBundle e)) p
| advance_maximal : is_Some (active_in p e) → stage_in p e = Some Enforce → advances e p (Err (StageAlreadyMaximal e)) p
| advance_done st st' t p' :
    is_Some (active_in p e) → stage_in p e = Some st → next st = Some st' →
    states p' = alter (EnvironmentState.set_stage st' t) e (states p) → advances e p (Ok st') p'.

Lemma advance_stage_ends e p :
  full p → ends (advance_stage e) (λ r p', advances e p (Ok r) p' ∧ promote_cost_ms p' = promote_cost_ms p)
                (λ x p', advances e p (Err x) p' ∧ promote_cost_ms p' = promote_cost_ms p) p.
Proof.
  intros Hf. destruct (Hf e) as [st Hst]. unfold advance_stage. apply ends_then. eapply state_ends; [done|].
  apply ends_then, ends_ok_or; intros.
  { split; [|done]. constructor. unfold active_in. by rewrite Hst. }
  assert (is_Some (active_in p e)) as Ha by (unfold active_in; rewrite Hst; eauto).
  apply ends_then, ends_ok_or.
  { intros Hn. split; [|done]. apply advance_maximal; [done|]. unfold stage_in. rewrite Hst. simpl. by destruct (EnvironmentState.stage st). }
  intros nxt Hn. apply ends_then, utc_now_ends. intros t1 w1. apply ends_then, ends_modify, ends_then, utc_now_ends.
  intros t2 w2. apply ends_then, ends_modify, ends_ret. split; [|done].
  eapply advance_done; [done| |exact Hn|done]. unfold stage_in. by rewrite Hst.
Qed.

(** What a rollback leaves of a state. *)
Definition rolled_back (st st' : EnvironmentState.t) : Prop :=
  match EnvironmentState.previous st with
  | None => st' = st
  | Some b => ∃ t, st' = EnvironmentState.restore b t st
  end.

Lemma restores_end l acc p :
  NoDup l.*1 → full p →
  ends (for_in restore_one l acc)
    (λ acc' p', acc' = (acc.1 ++ l.*1, match last l with Some (_, b) => (PolicyBundle.version b, PolicyBundle.digest b) | None => acc.2 end)
       ∧ promote_cost_ms p' = promote_cost_ms p ∧ history p' = history p
       ∧ (∀ e b, (e, b) ∈ l → ∃ t, states p' !! e = EnvironmentState.restore b t <$> states p !! e)
       ∧ (∀ e, e ∉ l.*1 → states p' !! e = states p !! e)) (λ _ _, False) p.
Proof.
  revert acc p. induction l as [|[e b] l IH]; intros acc p Hnd Hf; simpl.
  { apply ends_ret. rewrite app_nil_r. split_and!; try done; [by destruct acc|]. by intros ?? ?%not_elem_of_nil. }
  inversion_clear Hnd as [|? ? Hni Hnd']. destruct (Hf e) as [st Hst].
  unfold restore_one. apply ends_then, ends_then, ends_get, ends_then, charge_ends. intros w1.
  apply ends_then. eapply state_ends; [done|]. apply ends_then, utc_now_ends. intros t w2. apply ends_then, ends_modify, ends_ret.
  eapply ends_weaken; [apply IH; [done|]| |done].
  { intros e'. simpl. destruct (decide (e' = e)) as [->|]; [rewrite lookup_alter_eq, Hst; eauto|rewrite lookup_alter_ne; auto]. }
  intros acc' p' (-> & Hc & Hh & Hin & Hout). simpl in *. split_and!; [|done|done| |].
  - rewrite <- (assoc_L app). destruct l as [|x l]; [done|]. rewrite last_cons_cons.
    assert (is_Some (last (x :: l))) as [[e' b'] ->] by (by apply last_is_Some). done.
  - intros e' b' [[= -> ->]|Hl]%elem_of_cons.
    + exists t. by rewrite Hout, lookup_alter_eq.
    + destruct (Hin e' b' Hl) as [t' Ht']. exists t'. rewrite Ht', lookup_alter_ne; [done|].
      intros ->. apply Hni. apply list_elem_of_fmap. by exists (e', b').
  - intros e' [Hne Hl]%not_elem_of_cons. by rewrite Hout, lookup_alter_ne.
Qed.
Lemma elem_of_PATH e : e ∈ PATH.
Proof. destruct e; repeat constructor. Qed.

Lemma rollback_targets_alt p : rollback_targets p = omap (λ e, pair e <$> previous_in p e) PATH.
Proof.
  unfold rollback_targets, previous_in. apply list_omap_ext, Forall_Forall2_diag, Forall_forall. intros e _.
  destruct (states p !! e) as [st|]; simpl; [|done]. by destruct (EnvironmentState.previous st).
Qed.

Lemma elem_of_rollback_targets p e b : (e, b) ∈ rollback_targets p ↔ previous_in p e = Some b.
Proof.
  rewrite rollback_targets_alt, list_elem_of_omap. split.
  - intros (e' & _ & He). destruct (previous_in p e') as [b'|] eqn:E; simplify_eq/=. done.
  - intros Hp. exists e. split; [apply elem_of_PATH|]. by rewrite Hp.
Qed.

Definition has_previous p e : bool := bool_decide (is_Some (previous_in p e)).

Lemma rollback_targets_envs p : (rollback_targets p).*1 = List.filter (has_previous p) PATH.
Proof.
  rewrite rollback_targets_alt. unfold PATH, has_previous. cbn [omap list_omap List.filter].
  destruct (previous_in p Dev), (previous_in p Staging), (previous_in p Production); reflexivity.
Qed.

Lemma NoDup_rollback_targets p : NoDup (rollback_targets p).*1.
Proof.
  rewrite rollback_targets_envs. apply NoDup_ListNoDup, List.NoDup_filter, NoDup_ListNoDup.
  apply (bool_decide_eq_true_1 (NoDup PATH)). reflexivity.
Qed.

Inductive rolls p : result RollbackRecord.t PromotionError → pipeline W → Prop :=
| rollback_nothing : (∀ e, previous_in p e = None) → rolls p (Err NothingToRollBack) p
| rollback_done r p' :
    RollbackRecord.environments r = List.filter (has_previous p) PATH → RollbackRecord.environments r ≠ [] →
    (∀ b, previous_in p Production = Some b →
       RollbackRecord.restored_version r = PolicyBundle.version b ∧ RollbackRecord.restored_digest r = PolicyBundle.digest b) →
    history p' = history p →
    (∀ e st, states p !! e = Some st → ∃ st', states p' !! e = Some st' ∧ rolled_back st st') →
    rolls p (Ok r) p'.

Lemma rollback_targets_last p b : previous_in p Production = Some b → last (rollback_targets p) = Some (Production, b).
Proof.
  intros Hp. rewrite rollback_targets_alt. unfold PATH. cbn [omap list_omap]. rewrite Hp.
  by destruct (previous_in p Dev), (previous_in p Staging).
Qed.

Lemma rollback_ends p :
  full p → ends rollback (λ r p', rolls p (Ok r) p' ∧ promote_cost_ms p' = promote_cost_ms p)
                (λ x p', rolls p (Err x) p' ∧ promote_cost_ms p' = promote_cost_ms p) p.
Proof.
  intros Hf. unfold rollback. apply ends_then, ends_get, ends_then, ends_reject_if.
  { intros Hn%bool_decide_eq_true_1. split; [|done]. constructor. intros e. destruct (previous_in p e) as [b|] eqn:E; [|done].
    apply elem_of_rollback_targets in E. rewrite Hn in E. by apply not_elem_of_nil in E. }
  intros Hn%bool_decide_eq_false_1. apply ends_then, now_millis_ends. intros t1 w1. apply ends_then.
  eapply ends_weaken; [apply restores_end; [apply NoDup_rollback_targets|done]| |done].
  intros acc p' (-> & Hc & Hh & Hin & Hout). apply ends_then, now_millis_ends. intros t2 w2. apply ends_ret. split; [|done].
  constructor; simpl; [apply rollback_targets_envs| | |done|].
  - by intros ?%fmap_nil_inv.
  - intros b Hb. by rewrite (rollback_targets_last p b Hb).
  - intros e st Hst. simpl in *. unfold rolled_back. destruct (EnvironmentState.previous st) as [b|] eqn:Eb.
    + destruct (Hin e b) as [t Ht]; [apply elem_of_rollback_targets; unfold previous_in; by rewrite Hst|].
      rewrite Ht, Hst. simpl. eauto.
    + exists st. split; [|done]. rewrite Hout, Hst; [done|]. intros ([e' b] & -> & Hb)%list_elem_of_fmap.
      apply elem_of_rollback_targets in Hb. unfold previous_in in Hb. simpl in Hst. rewrite Hst in Hb. simpl in Hb. congruence.
Qed.
End effects.
