(* ===== verification/PolicyProps.v ===== *)
(** * Policy promotion over its life

    The theorems over any history of calls: what runs in an environment was vetted there and
    came along the path, a rollback undoes a release, and how stages move.  Also two ways
    around the path and the stages. *)

From stdpp Require Import prelude gmap list strings.
From Stdlib Require Import Ascii SpecFloat.
From S2P Require Import Prelude RustStr RustText Float64 BTreeMap Contract HashTree PolicyPromotion PolicyFacts.

(** A call on the pipeline. *)
Inductive op : Type :=
| Promote (b : bundle) (i : inventory)
| Advance (e : Environment)
| Rollback.

Definition bundles_of (h : list op) : list bundle := omap (λ o, match o with Promote b _ => Some b | _ => None end) h.

Section runs.
Context `{Sha} {W : Type} `{!Clock W}.
Implicit Types (p : pipeline W) (h : list op) (e : Environment).

Definition call_of (o : op) : call (pipeline W) PromotionError unit :=
  match o with
  | Promote b i => promote b i;; mret tt
  | Advance e => advance_stage e;; mret tt
  | Rollback => rollback;; mret tt
  end.

Definition run_op p (o : op) : pipeline W := default p (state_of (call_of o p)).
Definition run p h : pipeline W := foldl run_op p h.

Lemma run_app p h h' : run p (h ++ h') = run (run p h) h'.
Proof. apply foldl_app. Qed.

(** ** What one call does *)

Lemma run_promote p b i :
  full p → ∃ x, result_of (promote b i p) = Some x ∧ promotes b i p x (run_op p (Promote b i)).
Proof.
  intros Hf. pose proof (promote_ends b i p Hf) as He. unfold ends in He. unfold run_op, call_of, mbind, call_mbind, call_bind.
  destruct (promote b i p); [..|done]; destruct He; simpl; eauto.
Qed.

Lemma run_advance p e :
  full p → ∃ x, result_of (advance_stage e p) = Some x ∧ advances e p x (run_op p (Advance e)).
Proof.
  intros Hf. pose proof (advance_stage_ends e p Hf) as He. unfold ends in He. unfold run_op, call_of, mbind, call_mbind, call_bind.
  destruct (advance_stage e p); [..|done]; destruct He; simpl; eauto.
Qed.

Lemma run_rollback p : full p → ∃ x, result_of (rollback p) = Some x ∧ rolls p x (run_op p Rollback).
Proof.
  intros Hf. pose proof (rollback_ends p Hf) as He. unfold ends in He. unfold run_op, call_of, mbind, call_mbind, call_bind.
  destruct (rollback p); [..|done]; destruct He; simpl; eauto.
Qed.

(** What a call may do to the state of an environment. *)
Inductive moves p (o : op) e (st : EnvironmentState.t) : EnvironmentState.t → Prop :=
| move_none : moves p o e st st
| move_promote b i r t :
    o = Promote b i → PolicyInventory.environment i = e → vetted b i → preceded p e b →
    result_of (promote b i p) = Some (Ok r) → moves p o e st (EnvironmentState.activate b t st)
| move_advance st' t :
    o = Advance e → is_Some (EnvironmentState.active st) → next (EnvironmentState.stage st) = Some st' →
    moves p o e st (EnvironmentState.set_stage st' t st)
| move_rollback b t :
    o = Rollback → EnvironmentState.previous st = Some b → moves p o e st (EnvironmentState.restore b t st).

Lemma alter_moves (m m' : gmap Environment EnvironmentState.t) f e e' st :
  m' = alter f e m → m !! e' = Some st → m' !! e' = Some (if decide (e = e') then f st else st).
Proof. intros -> Hst. case_decide; subst; [rewrite lookup_alter_eq|rewrite lookup_alter_ne by done]; by rewrite Hst. Qed.

Lemma run_op_moves p o e st :
  full p → states p !! e = Some st → ∃ st', states (run_op p o) !! e = Some st' ∧ moves p o e st st'.
Proof.
  intros Hf Hst. destruct o as [b i|e'|].
  - destruct (run_promote p b i Hf) as (x & Hx & Hp).
    inversion Hp as [|? ? ? Hn|? p' ? ? ? ? ? Hs|? t p' Hv Hpr ? ? Hs]; subst.
    1,2: exists st; split; [congruence|constructor].
    + exists st. split; [by rewrite Hs|constructor].
    + eexists. split; [by eapply alter_moves|]. case_decide; [|constructor]. subst e. by eapply move_promote.
  - destruct (run_advance p e' Hf) as (x & Hx & Hp). inversion Hp as [| |st0 st1 t p' Ha Hs0 Hn Hs]; subst.
    1,2: exists st; split; [congruence|constructor].
    eexists. split; [by eapply alter_moves|]. case_decide; [|constructor]. subst e'.
    unfold active_in, stage_in in *. rewrite Hst in Ha, Hs0. simplify_eq/=. by eapply move_advance.
  - destruct (run_rollback p Hf) as (x & Hx & Hp). inversion Hp as [|r p' ? ? ? ? Hs]; subst.
    + exists st. split; [congruence|constructor].
    + destruct (Hs e st Hst) as (st' & Hst' & Hr). exists st'. split; [done|]. unfold rolled_back in Hr.
      destruct (EnvironmentState.previous st) as [b|] eqn:E; [|subst; constructor].
      destruct Hr as [t ->]. by eapply move_rollback.
Qed.

Lemma run_op_full p o : full p → full (run_op p o).
Proof. intros Hf e. destruct (Hf e) as [st Hst]. destruct (run_op_moves p o e st Hf Hst) as (st' & -> & _). eauto. Qed.

Lemma run_full p h : full p → full (run p h).
Proof. revert p. induction h as [|o h IH]; intros p Hf; simpl; [done|]. apply IH, run_op_full, Hf. Qed.

(** ** Histories of a new pipeline *)

Section history.
Context (w : W) (cost : Z).

Definition begins : pipeline W := with_cost cost (new w).

Lemma begins_states e : ∃ t, states begins !! e = Some (EnvironmentState.initial e t).
Proof.
  unfold begins, with_cost, new, PATH. cbn [foldl]. destruct (clock_utc w) as [t1 w1], (clock_utc w1) as [t2 w2], (clock_utc w2) as [t3 w3].
  cbn [states]. destruct e.
  - exists t1. by rewrite !lookup_insert_ne, lookup_insert_eq by done.
  - exists t2. by rewrite lookup_insert_ne, lookup_insert_eq by done.
  - exists t3. by rewrite lookup_insert_eq.
Qed.

Lemma begins_full : full begins.
Proof. intros e. destruct (begins_states e) as [t ->]. eauto. Qed.

Lemma reached_full h : full (run begins h).
Proof. apply run_full, begins_full. Qed.

(** In [h] the bundle was accepted for the environment. *)
Definition promoted h e b : Prop :=
  ∃ h1 i h2 r, h = h1 ++ Promote b i :: h2 ∧ PolicyInventory.environment i = e ∧ vetted b i
    ∧ preceded (run begins h1) e b ∧ result_of (promote b i (run begins h1)) = Some (Ok r).

Lemma promoted_snoc h o e b : promoted h e b → promoted (h ++ [o]) e b.
Proof. intros (h1 & i & h2 & r & -> & Hp). exists h1, i, (h2 ++ [o]), r. by rewrite <- (assoc_L app). Qed.

Lemma bundles_were_promoted h e st b :
  states (run begins h) !! e = Some st → EnvironmentState.active st = Some b ∨ EnvironmentState.previous st = Some b → promoted h e b.
Proof.
  revert e st b. induction h as [|o h IH] using rev_ind; intros e st' b Hst Hb.
  { destruct (begins_states e) as [t Ht]. change (run begins []) with begins in Hst. rewrite Ht in Hst. injection Hst as <-. by destruct Hb. }
  rewrite run_app in Hst. simpl in Hst. destruct (reached_full h e) as [st Hst0].
  destruct (run_op_moves (run begins h) o e st (reached_full h) Hst0) as (st1 & Hst1 & Hm). rewrite Hst in Hst1. injection Hst1 as <-.
  assert (∀ b', EnvironmentState.active st = Some b' ∨ EnvironmentState.previous st = Some b' → promoted (h ++ [o]) e b') as Hold.
  { intros b' Hb'. by eapply promoted_snoc, IH. }
  destruct Hm as [|b' i r t -> He Hv Hp Hr|st'' t _ _ _|b' t _ Hpr]; simpl in *; [auto| |auto|].
  - destruct Hb as [[= ->]|Hb]; [|auto]. exists h, i, [], r. done.
  - destruct Hb as [[= ->]|Hb]; [auto|done].
Qed.

Lemma active_was_promoted h e b : active_in (run begins h) e = Some b → promoted h e b.
Proof.
  unfold active_in. destruct (states (run begins h) !! e) as [st|] eqn:Hst; [|done]. simpl. intros Ha.
  eapply bundles_were_promoted; eauto.
Qed.

(** A bundle accepted for an environment was accepted, up to its digest, for the one before. *)
Lemma promoted_preceded h e e' b :
  predecessor e = Some e' → promoted h e b →
  ∃ h1 b1 h2 i r, h = h1 ++ Promote b i :: h2 ∧ PolicyInventory.environment i = e ∧ vetted b i
    ∧ result_of (promote b i (run begins h1)) = Some (Ok r)
    ∧ promoted h1 e' b1 ∧ PolicyBundle.digest b1 = PolicyBundle.digest b.
Proof.
  intros He (h1 & i & h2 & r & -> & Hi & Hv & Hp & Hr). unfold preceded in Hp. rewrite He in Hp.
  destruct (active_in (run begins h1) e') as [b1|] eqn:Ea; [|done]. injection Hp as Hd.
  exists h1, b1, h2, i, r. split_and!; try done. by apply active_was_promoted.
Qed.

Lemma bundles_of_app h h' : bundles_of (h ++ h') = bundles_of h ++ bundles_of h'.
Proof. apply omap_app. Qed.

(** C10: Over any history of calls, blocked and refused ones included, the bundle active in
    production was accepted for dev, then for staging, then for production, by promotions that
    went through: each time it was intact, no deny rule of it was universal, the environment
    had resources and the share denied was within budget; and the three bundles had the same
    digest.  When no identifier or expression of a rule has a bar in it and no version a line
    break, the three promotions were of the same version and rules, or two of the texts that
    were hashed collide. *)
Theorem policies_walk_the_path h b :
  active_in (run begins h) Production = Some b →
  ∃ h1 b1 i1 r1 h2 b2 i2 r2 h3 i3 r3 h4,
    h = h1 ++ Promote b1 i1 :: h2 ++ Promote b2 i2 :: h3 ++ Promote b i3 :: h4
    ∧ (PolicyInventory.environment i1 = Dev ∧ vetted b1 i1 ∧ result_of (promote b1 i1 (run begins h1)) = Some (Ok r1))
    ∧ (PolicyInventory.environment i2 = Staging ∧ vetted b2 i2
       ∧ result_of (promote b2 i2 (run begins (h1 ++ Promote b1 i1 :: h2))) = Some (Ok r2))
    ∧ (PolicyInventory.environment i3 = Production ∧ vetted b i3
       ∧ result_of (promote b i3 (run begins (h1 ++ Promote b1 i1 :: h2 ++ Promote b2 i2 :: h3))) = Some (Ok r3))
    ∧ (PolicyBundle.digest b1 = PolicyBundle.digest b ∧ PolicyBundle.digest b2 = PolicyBundle.digest b)
    ∧ (Forall plain (bundles_of h) →
       (content b1 = content b ∧ content b2 = content b)
       ∨ collides sha256_hex (text_of <$> bundles_of h) (text_of <$> bundles_of h)).
Proof.
  intros Ha. apply active_was_promoted in Ha.
  destruct (promoted_preceded h Production Staging b eq_refl Ha) as (k3 & b2 & h4 & i3 & r3 & -> & Hi3 & Hv3 & Hr3 & Hp2 & Hd2).
  destruct (promoted_preceded k3 Staging Dev b2 eq_refl Hp2) as (k2 & b1 & h3 & i2 & r2 & -> & Hi2 & Hv2 & Hr2 & Hp1 & Hd1).
  destruct Hp1 as (h1 & i1 & h2 & r1 & -> & Hi1 & Hv1 & _ & Hr1). rewrite <- !(assoc_L app) in *. simpl in *. rewrite <- ?(assoc_L app) in *.
  exists h1, b1, i1, r1, h2, b2, i2, r2, h3, i3, r3, h4. split_and!; try done; [congruence|]. intros Hplain.
  set (h := h1 ++ _) in *. assert (∀ b', b' ∈ [b1; b2; b] → b' ∈ bundles_of h) as Hin.
  { intros b'. unfold h. rewrite !bundles_of_app; simpl. rewrite !bundles_of_app; simpl. rewrite !bundles_of_app; simpl. set_solver. }
  assert (∀ b1 b2, b1 ∈ bundles_of h → b2 ∈ bundles_of h → is_intact b1 = true → is_intact b2 = true →
    PolicyBundle.digest b1 = PolicyBundle.digest b2 →
    content b1 = content b2 ∨ collides sha256_hex (text_of <$> bundles_of h) (text_of <$> bundles_of h)) as Hbind.
  { intros x y Hx Hy Hix Hiy Hd. rewrite Forall_forall in Hplain.
    destruct (digests_bind x y) as [?|Hc]; auto. right. eapply collides_subseteq; [| |exact Hc];
      intros z ->%list_elem_of_singleton; by apply list_elem_of_fmap_2. }
  destruct (Hbind b1 b2) as [E1|]; [apply Hin; set_solver..|apply Hv1|apply Hv2|done| |by right].
  destruct (Hbind b2 b) as [E2|]; [apply Hin; set_solver..|apply Hv2|apply Hv3|done| |by right]. left. split; congruence.
Qed.

(** ** Promotions that go through *)

Lemma vetted_promotes p b i :
  full p → vetted b i → preceded p (PolicyInventory.environment i) b →
  ∃ r t, result_of (promote b i p) = Some (Ok r)
    ∧ states (run_op p (Promote b i)) = alter (EnvironmentState.activate b t) (PolicyInventory.environment i) (states p).
Proof.
  intros Hf Hv Hp. destruct (run_promote p b i Hf) as (x & Hx & Hr).
  remember (run_op p (Promote b i)) as q eqn:Eq. destruct Hr as [Hi|? ? ? Hn|? p' ? ? Hn|r t p' ? ? ? ? Hs]; [|done|done|eauto].
  destruct Hv as [Hi']. congruence.
Qed.

Lemma activated_in p e b t p' :
  states p' = alter (EnvironmentState.activate b t) e (states p) → full p →
  active_in p' e = Some b ∧ previous_in p' e = active_in p e ∧ stage_in p' e = stage_in p e
  ∧ ∀ e', e' ≠ e → states p' !! e' = states p !! e'.
Proof.
  intros Hs Hf. destruct (Hf e) as [st Hst]. unfold active_in, previous_in, stage_in. rewrite Hs, lookup_alter_eq, Hst.
  split_and!; [done..|]. intros e' Hne. by rewrite lookup_alter_ne.
Qed.

Definition release (b : bundle) (i : Environment → inventory) : list op := (λ e, Promote b (i e)) <$> PATH.

(** A vetted bundle goes through every environment of the path. *)
Lemma release_goes_through p b (i : Environment → inventory) :
  full p → (∀ e, PolicyInventory.environment (i e) = e ∧ vetted b (i e)) →
  ∀ e, active_in (run p (release b i)) e = Some b ∧ previous_in (run p (release b i)) e = active_in p e.
Proof.
  intros Hf Hi. cbn. set (p1 := run_op p (Promote b (i Dev))). set (p2 := run_op p1 (Promote b (i Staging))).
  set (p3 := run_op p2 (Promote b (i Production))).
  assert (full p1 ∧ full p2) as [Hf1 Hf2] by (split; repeat apply run_op_full; done).
  destruct (Hi Dev) as [E1 V1], (Hi Staging) as [E2 V2], (Hi Production) as [E3 V3].
  destruct (vetted_promotes p b (i Dev) Hf V1) as (r1 & t1 & _ & S1); [by rewrite E1|]. rewrite E1 in S1. fold p1 in S1.
  destruct (activated_in _ _ _ _ _ S1 Hf) as (A1 & P1 & _ & O1).
  destruct (vetted_promotes p1 b (i Staging) Hf1 V2) as (r2 & t2 & _ & S2); [rewrite E2; unfold preceded; simpl; by rewrite A1|].
  rewrite E2 in S2. fold p2 in S2. destruct (activated_in _ _ _ _ _ S2 Hf1) as (A2 & P2 & _ & O2).
  destruct (vetted_promotes p2 b (i Production) Hf2 V3) as (r3 & t3 & _ & S3); [rewrite E3; unfold preceded; simpl; by rewrite A2|].
  rewrite E3 in S3. fold p3 in S3. destruct (activated_in _ _ _ _ _ S3 Hf2) as (A3 & P3 & _ & O3).
  intros e. unfold active_in, previous_in in *. destruct e; rewrite ?O3, ?O2 by done; split; try done.
  - by rewrite P2, O1.
  - by rewrite P3, O2, O1.
Qed.

Lemma rolled_back_in p p' :
  full p → (∀ e st, states p !! e = Some st → ∃ st', states p' !! e = Some st' ∧ rolled_back st st') →
  ∀ e, previous_in p' e = None
    ∧ (∀ b, previous_in p e = Some b → active_in p' e = Some b ∧ stage_in p' e = Some Audit).
Proof.
  intros Hf Hs e. destruct (Hf e) as [st Hst]. destruct (Hs e st Hst) as (st' & Hst' & Hr).
  unfold previous_in, active_in, stage_in, rolled_back in *. rewrite Hst, Hst'. simpl.
  destruct (EnvironmentState.previous st) as [b|] eqn:E; [|by subst]. destruct Hr as [t ->]. split; [done|]. by intros ? [= ->].
Qed.

(** C38: Whatever was called before, when every environment runs a bundle, a bundle that passes
    the analysis of every environment is promoted to all of them in the order of the path, and
    one rollback gives every environment the bundle it ran before, at the stage of auditing,
    and names all three, with the version and digest they are back at when that is the same
    for all; a second rollback finds nothing. *)
Theorem rollback_undoes_a_release h b (i : Environment → inventory) (before : Environment → bundle) :
  (∀ e, active_in (run begins h) e = Some (before e)) →
  (∀ e, PolicyInventory.environment (i e) = e ∧ vetted b (i e)) →
  let released := run begins (h ++ release b i) in
  let back := run_op released Rollback in
  (∀ e, active_in released e = Some b)
  ∧ (∀ e, active_in back e = Some (before e) ∧ stage_in back e = Some Audit)
  ∧ (∃ r, result_of (rollback released) = Some (Ok r) ∧ RollbackRecord.environments r = PATH
       ∧ ∀ b0, (∀ e, PolicyBundle.version (before e) = PolicyBundle.version b0 ∧ PolicyBundle.digest (before e) = PolicyBundle.digest b0) →
           RollbackRecord.restored_version r = PolicyBundle.version b0 ∧ RollbackRecord.restored_digest r = PolicyBundle.digest b0)
  ∧ result_of (rollback back) = Some (Err NothingToRollBack).
Proof.
  intros Hb Hi released back. pose proof (reached_full (h ++ release b i)) as Hf. fold released in Hf.
  assert (∀ e, active_in released e = Some b ∧ previous_in released e = Some (before e)) as Hr.
  { intros e. unfold released. rewrite run_app, <- (Hb e). apply release_goes_through; [apply reached_full|done]. }
  destruct (run_rollback released Hf) as (x & Hx & Hroll). fold back in Hroll.
  inversion Hroll as [Hn|r p' He Hne Hv _ Hs]; subst; [destruct (Hr Dev) as [_ HD]; by rewrite Hn in HD|].
  pose proof (rolled_back_in _ _ Hf Hs) as Hback. split_and!.
  - intros e. apply Hr.
  - intros e. apply Hback, Hr.
  - exists r. split; [done|]. split.
    + rewrite He. unfold has_previous, PATH. cbn [List.filter]. by rewrite !(proj2 (Hr _)).
    + intros b0 Hb0. destruct (Hv (before Production)) as [-> ->]; [apply Hr|apply Hb0].
  - destruct (run_rollback back (run_op_full _ _ Hf)) as (y & Hy & Hroll2). rewrite Hy.
    inversion Hroll2 as [|r2 p2 He2 Hne2]; subst; [done|]. destruct Hne2. rewrite He2. unfold has_previous, PATH. cbn [List.filter].
    by rewrite !(proj1 (Hback _)).
Qed.

(** ** Stages *)

(** A stage rises by one when asked to and while a bundle is active, falls to auditing in a
    rollback that restores the environment, and otherwise stays. *)
Lemma stages_move_by_single_steps h o e :
  let p := run begins h in
  let p' := run_op p o in
  stage_in p' e = stage_in p e
  ∨ (o = Advance e ∧ is_Some (active_in p e) ∧ ∃ st st', stage_in p e = Some st ∧ next st = Some st' ∧ stage_in p' e = Some st')
  ∨ (o = Rollback ∧ is_Some (previous_in p e) ∧ stage_in p' e = Some Audit ∧ active_in p' e = previous_in p e).
Proof.
  intros p p'. destruct (reached_full h e) as [st Hst]. fold p in Hst.
  destruct (run_op_moves p o e st (reached_full h) Hst) as (st' & Hst' & Hm). fold p' in Hst'.
  unfold stage_in, active_in, previous_in. rewrite Hst, Hst'. simpl.
  destruct Hm as [|b i r t _ _ _ _ _|st'' t -> Ha Hn|b t -> Hp]; [by left|by left| |].
  - right; left. split_and!; [done..|]. eauto 6.
  - right; right. rewrite Hp. eauto.
Qed.

(** A promotion leaves the stage of the environment as it is: promoted to an environment
    that enforces, a new bundle rejects admissions at once, without having been audited there. *)
Theorem enforcing_environments_enforce_at_once h b i :
  let e := PolicyInventory.environment i in
  vetted b i → preceded (run begins h) e b → stage_in (run begins h) e = Some Enforce →
  active_in (run begins (h ++ [Promote b i])) e = Some b ∧ stage_in (run begins (h ++ [Promote b i])) e = Some Enforce.
Proof.
  intros e Hv Hp Hst. rewrite run_app. simpl. destruct (vetted_promotes _ b i (reached_full h) Hv Hp) as (r & t & _ & Hs).
  destruct (activated_in _ _ _ _ _ Hs (reached_full h)) as (Ha & _ & Hs' & _). split; [done|]. subst e. by rewrite Hs'.
Qed.

(** ** Ambiguous texts *)

(** Two narrow rules, and the one rule whose expression holds the text between them. *)
Definition two_rules : list rule := [PolicyRule.deny "a" "x" High; PolicyRule.deny "b" "y" High].
Definition one_rule : list rule := [PolicyRule.deny "a" ("x|deny|high" +:+ newline +:+ "b|y") High].

(** Rules with a bar in them can share their digest with other rules whatever the hash: a
    bundle of one rule is promoted to staging, although only a bundle of two other rules was
    ever promoted to dev. *)
Theorem bars_leave_the_path now :
  let b := new_bundle "1" two_rules now in
  let b' := new_bundle "1" one_rule now in
  let h := [Promote b (PolicyInventory.new Dev 100); Promote b' (PolicyInventory.new Staging 100)] in
  content b ≠ content b'
  ∧ active_in (run begins h) Dev = Some b ∧ active_in (run begins h) Staging = Some b'.
Proof.
  intros b b' h. assert (vetted b (PolicyInventory.new Dev 100) ∧ vetted b' (PolicyInventory.new Staging 100)) as [V V'].
  { split; (constructor; [apply String.eqb_refl|done|apply overbroad_false; vm_compute; reflexivity|vm_compute; reflexivity]). }
  destruct (vetted_promotes begins b (PolicyInventory.new Dev 100) begins_full V I) as (r & t & _ & S1).
  set (p1 := run_op begins _) in S1. destruct (activated_in _ _ _ _ _ S1 begins_full) as (A1 & _ & _ & _).
  change (active_in p1 Dev = Some b) in A1. assert (full p1) as F1 by apply run_op_full, begins_full.
  destruct (vetted_promotes p1 b' (PolicyInventory.new Staging 100) F1 V') as (r' & t' & _ & S2).
  { unfold preceded. simpl. by rewrite A1. }
  destruct (activated_in _ _ _ _ _ S2 F1) as (A2 & _ & _ & O2). split_and!; [done| |exact A2].
  rewrite <- A1. unfold active_in. f_equal. by apply O2.
Qed.
End history.
End runs.

(** ** The time a rollback takes, on the clock of tests *)

Section manual.
Context `{Sha}.
Implicit Types (p : pipeline Manual.t).

Lemma restore_loop_time l acc p :
  full p → (0 <= Manual.millis (clock p))%Z → (0 <= promote_cost_ms p)%Z →
  (Manual.millis (clock p) + Z.of_nat (length l) * promote_cost_ms p < 2 ^ 64)%Z →
  ends (for_in restore_one l acc)
    (λ _ p', Manual.millis (clock p') = Manual.millis (clock p) + Z.of_nat (length l) * promote_cost_ms p)%Z (λ _ _, False) p.
Proof.
  revert acc p. induction l as [|[e b] l IH]; intros acc p Hf H0 Hc Hb; [apply ends_ret; simpl; lia|].
  cbn [length] in *. destruct (Hf e) as [st Hst]. cbn [for_in]. unfold restore_one.
  apply ends_then, ends_then, ends_get, ends_then, ends_modify, ends_then. eapply state_ends; [done|].
  apply ends_then. unfold ends at 1, utc_now. simpl. apply ends_then, ends_modify, ends_ret.
  assert (as_u64 (Manual.millis (clock p) + promote_cost_ms p) = Manual.millis (clock p) + promote_cost_ms p)%Z as Ht
    by (unfold as_u64; rewrite Z.mod_small; lia).
  eapply ends_weaken; [apply IH| |done]; simpl; rewrite ?Ht; try lia.
  intros e'. simpl. destruct (decide (e' = e)) as [->|]; [rewrite lookup_alter_eq, Hst; eauto|rewrite lookup_alter_ne; auto].
Qed.

(** The duration is the cost of one environment for each that is restored. *)
Lemma rollback_is_measured p :
  full p → rollback_targets p ≠ [] → (0 <= Manual.millis (clock p))%Z → (0 <= promote_cost_ms p)%Z →
  let cost := (Z.of_nat (length (rollback_targets p)) * promote_cost_ms p)%Z in
  (Manual.millis (clock p) + cost < 2 ^ 64)%Z →
  ∃ r, result_of (rollback p) = Some (Ok r) ∧ RollbackRecord.duration_ms r = cost
    ∧ RollbackRecord.within_sla r = (cost <=? ROLLBACK_SLA_MS)%Z.
Proof.
  intros Hf Hn H0 Hc cost Hb.
  assert (ends rollback (λ r _, RollbackRecord.duration_ms r = cost ∧ RollbackRecord.within_sla r = (cost <=? ROLLBACK_SLA_MS)%Z)
            (λ _ _, False) p) as He.
  { unfold rollback. apply ends_then, ends_get, ends_then, ends_reject_if; [by intros ?%bool_decide_eq_true_1|]. intros _.
    apply ends_then. unfold ends at 1, now_millis. simpl. apply ends_then.
    eapply ends_weaken; [apply restore_loop_time; done| |done]. intros acc p' Ht. apply ends_then. unfold ends at 1, now_millis. simpl.
    apply ends_ret. simpl in *. rewrite Ht. fold cost. assert (0 <= cost)%Z by (unfold cost; lia).
    replace (Z.max 0 _) with cost by lia. done. }
  unfold ends in He. destruct (rollback p) as [r p'|x p'|]; [|done..]. exists r. split; [done|exact He].
Qed.
End manual.

(** ** What the analysis lets pass *)

Definition narrow_ratio (n : Z) : f64 := ratio_of (Z.max (as_u64 (n * 3) / 100) 1) n.

Lemma narrow_ratio_checked :
  forallb (λ n, Bool.eqb (f64_gt (narrow_ratio (Z.of_nat n)) MAX_DENY_RATIO) (n <? 4)%nat) (seq 1 1000) = true.
Proof. vm_compute. reflexivity. Qed.

Lemma no_rules_ratio_checked : forallb (λ n, negb (f64_gt (ratio_of 0 (Z.of_nat n)) MAX_DENY_RATIO)) (seq 1 1000) = true.
Proof. vm_compute. reflexivity. Qed.

(** Over up to a thousand resources, an intact bundle without universal deny rules passes,
    unless it has a deny rule and there are fewer than four resources. *)
Lemma impact_is_decided `{Sha} b i (n : nat) :
  PolicyInventory.resources i = Z.of_nat n → 1 ≤ n ≤ 1000 → is_intact b = true → overbroad b = false →
  vetted b i ↔ PolicyBundle.deny_rules b = [] ∨ 4 ≤ n.
Proof.
  intros Hn Hr Hi Ho. assert (n ∈ seq 1 1000) as Hin by (apply elem_of_seq; lia). apply list_elem_of_In in Hin.
  pose proof (proj1 (forallb_forall _ _) narrow_ratio_checked n Hin) as H1%Bool.eqb_prop. simpl in H1.
  pose proof (proj1 (forallb_forall _ _) no_rules_ratio_checked n Hin) as H2%negb_true_iff. unfold narrow_ratio in H1.
  split.
  - intros [_ _ _ Hb]. unfold denied_count in Hb. rewrite Hn, Ho in Hb. case_bool_decide; [by left|]. right. simpl in Hb.
    rewrite H1 in Hb. by apply Nat.ltb_ge in Hb.
  - intros Hd. constructor; [done|lia|by apply overbroad_false|]. unfold denied_count. rewrite Hn, Ho.
    case_bool_decide; simpl; [done|]. rewrite H1. apply Nat.ltb_ge. by destruct Hd.
Qed.

(** ** A concrete promotion of policies

    The inventories and bundles of the tests of the source, on the manual clock: the theorems
    applied to concrete histories, and what single calls answer. *)

#[local] Instance sha : Sha := λ s, s.

Definition scope (e : Environment) : inventory :=
  PolicyInventory.with_namespaces (PolicyInventory.new e 1000) [("stellar", 400%Z); ("horizon", 300%Z); ("rpc", 300%Z)].
Definition safe (version : string) : bundle :=
  new_bundle version [PolicyRule.deny "no-latest-tag" "imageTag == 'latest'" High;
                      PolicyRule.warn "pinned-toml-version" "configVersion == 1" Medium] 0.
Definition broad : bundle := new_bundle "1.2.0" [PolicyRule.deny "deny-everything" " true " Critical] 0.
Definition altered : bundle :=
  {| PolicyBundle.version := "3.0.0"; PolicyBundle.digest := PolicyBundle.digest (safe "3.0.0");
     PolicyBundle.rules := [PolicyRule.deny "no-latest-tag" "spec.replicas > 99" High]; PolicyBundle.created_at := 0 |}.

Definition begin_ : pipeline Manual.t := begins (Manual.new 0 0) 2000.
Definition v1 : list op := release (safe "1.0.0") scope.
Definition v2 : list op := release (safe "2.0.0") scope.
Definition after (h : list op) : pipeline Manual.t := run begin_ h.

(** The tests of the source: blockers, refusals, records. *)
Example impact_of_a_broad_bundle :
  let a := analyze_impact broad (scope Production) 0 in
  ImpactAnalysis.denied a = 1000%Z ∧ ImpactAnalysis.wiped_namespaces a = ["horizon"; "rpc"; "stellar"]
  ∧ ImpactAnalysis.blockers a =
    ["bundle denies all 1000 resources in production (ratio 1.00 > budget 0.25)"; "deny ratio 1.00 exceeds the 0.25 budget";
     "namespace `horizon` would be emptied entirely"; "namespace `rpc` would be emptied entirely";
     "namespace `stellar` would be emptied entirely"].
Proof. vm_compute. split_and!; reflexivity. Qed.

Example impact_of_a_safe_bundle :
  let a := analyze_impact (safe "1.1.0") (scope Production) 0 in
  ImpactAnalysis.denied a = 30%Z ∧ ImpactAnalysis.warned a = 100%Z ∧ ImpactAnalysis.max_severity a = High
  ∧ is_Some (ImpactAnalysis.to_markdown a) ∧ ImpactAnalysis.blockers a = [].
Proof. vm_compute. split_and!; try reflexivity. eexists. reflexivity. Qed.

Example promotion_answers :
  result_of (promote (safe "1.0.0") (scope Production) begin_) = Some (Err (PredecessorNotPromoted Staging))
  ∧ result_of (promote altered (scope Dev) begin_) = Some (Err MutatedBundle)
  ∧ result_of (advance_stage Dev begin_) = Some (Err (NoActiveBundle Dev))
  ∧ result_of (rollback begin_) = Some (Err NothingToRollBack)
  ∧ length (history (after [Promote broad (scope Dev)])) = 1 ∧ active_in (after [Promote broad (scope Dev)]) Dev = None
  ∧ PolicyBundle.version <$> active_in (after (v1 ++ v2)) Production = Some "2.0.0"
  ∧ stage_in (after (v1 ++ [Advance Dev; Advance Dev; Advance Dev])) Dev = Some Enforce
  ∧ result_of (rollback (after (v1 ++ v2)))
      = Some (Ok {| RollbackRecord.environments := PATH; RollbackRecord.restored_version := "1.0.0";
                    RollbackRecord.restored_digest := PolicyBundle.digest (safe "1.0.0");
                    RollbackRecord.duration_ms := 6000; RollbackRecord.within_sla := true |}).
Proof. vm_compute. split_and!; reflexivity. Qed.

(** Every environment that has a previous bundle goes back, also one the bad bundle never reached. *)
Example rollback_goes_past_the_release :
  let p := after (v1 ++ v2 ++ [Promote (safe "3.0.0") (scope Dev); Rollback]) in
  PolicyBundle.version <$> active_in p Dev = Some "2.0.0" ∧ PolicyBundle.version <$> active_in p Production = Some "1.0.0".
Proof. vm_compute. split; reflexivity. Qed.

(** [plain], decided. *)
Definition lacks_b (c : ascii) (s : string) : bool := forallb (λ d, negb (Ascii.eqb d c)) (String.list_ascii_of_string s).
Definition plain_b (b : bundle) : bool :=
  lacks_b NL (PolicyBundle.version b)
  && forallb (λ r, lacks_b "|"%char (PolicyRule.id r) && lacks_b "|"%char (PolicyRule.expr r)) (PolicyBundle.rules b).

Lemma lacks_b_lacks c s : lacks_b c s = true → lacks c s.
Proof.
  unfold lacks_b, lacks. intros Hf Hin. apply (proj1 (forallb_forall _ _) Hf) in Hin.
  by rewrite Ascii.eqb_refl in Hin.
Qed.

Lemma plain_b_plain l : forallb plain_b l = true → Forall plain l.
Proof.
  intros Hl. apply List.Forall_forall. intros b [Hv Hr]%(proj1 (forallb_forall _ _) Hl)%andb_true_iff.
  split; [by apply lacks_b_lacks|]. apply List.Forall_forall. intros r [Hi He]%(proj1 (forallb_forall _ _) Hr)%andb_true_iff.
  split; by apply lacks_b_lacks.
Qed.

(** [vetted], decided. *)
Lemma vetted_of b i : bool_decide (blockers_of b i = []) = true → vetted b i.
Proof. intros Hb. apply (blocks_promotion_false b i 0). unfold ImpactAnalysis.blocks_promotion. simpl. by rewrite Hb. Qed.

Lemma safe_is_vetted e : vetted (safe "2.0.0") (scope e).
Proof. apply vetted_of. destruct e; vm_compute; reflexivity. Qed.

Lemma policies_walk_the_path_witness :
  ∃ h1 b1 i1 r1 h2 b2 i2 r2 h3 i3 r3 h4,
    v1 ++ v2 = h1 ++ Promote b1 i1 :: h2 ++ Promote b2 i2 :: h3 ++ Promote (safe "2.0.0") i3 :: h4
    ∧ (PolicyInventory.environment i1 = Dev ∧ vetted b1 i1 ∧ result_of (promote b1 i1 (run begin_ h1)) = Some (Ok r1))
    ∧ (PolicyInventory.environment i2 = Staging ∧ vetted b2 i2
       ∧ result_of (promote b2 i2 (run begin_ (h1 ++ Promote b1 i1 :: h2))) = Some (Ok r2))
    ∧ (PolicyInventory.environment i3 = Production ∧ vetted (safe "2.0.0") i3
       ∧ result_of (promote (safe "2.0.0") i3 (run begin_ (h1 ++ Promote b1 i1 :: h2 ++ Promote b2 i2 :: h3))) = Some (Ok r3))
    ∧ (PolicyBundle.digest b1 = PolicyBundle.digest (safe "2.0.0") ∧ PolicyBundle.digest b2 = PolicyBundle.digest (safe "2.0.0"))
    ∧ ((content b1 = content (safe "2.0.0") ∧ content b2 = content (safe "2.0.0"))
       ∨ collides sha256_hex (text_of <$> bundles_of (v1 ++ v2)) (text_of <$> bundles_of (v1 ++ v2))).
Proof.
  destruct (policies_walk_the_path (Manual.new 0 0) 2000 (v1 ++ v2) (safe "2.0.0"))
    as (h1 & b1 & i1 & r1 & h2 & b2 & i2 & r2 & h3 & i3 & r3 & h4 & Hh & H1 & H2 & H3 & Hd & Hc).
  - refine (bool_decide_eq_true_1 _ _). vm_compute. reflexivity.
  - exists h1, b1, i1, r1, h2, b2, i2, r2, h3, i3, r3, h4. do 5 (split; [assumption|]). apply Hc, plain_b_plain. vm_compute. reflexivity.
Defined.

Lemma rollback_undoes_a_release_witness :
  let released := run begin_ (v1 ++ release (safe "2.0.0") scope) in
  let back := run_op released Rollback in
  (∀ e, active_in released e = Some (safe "2.0.0"))
  ∧ (∀ e, active_in back e = Some (safe "1.0.0") ∧ stage_in back e = Some Audit)
  ∧ (∃ r, result_of (rollback released) = Some (Ok r) ∧ RollbackRecord.environments r = PATH
       ∧ RollbackRecord.restored_version r = "1.0.0" ∧ RollbackRecord.restored_digest r = PolicyBundle.digest (safe "1.0.0"))
  ∧ result_of (rollback back) = Some (Err NothingToRollBack).
Proof.
  destruct (rollback_undoes_a_release (Manual.new 0 0) 2000 v1 (safe "2.0.0") scope (λ _, safe "1.0.0")) as (Ha & Hb & (r & Hr & He & Hv) & Hn).
  - intros e. refine (bool_decide_eq_true_1 _ _). destruct e; vm_compute; reflexivity.
  - intros e. split; [by destruct e|apply safe_is_vetted].
  - split; [exact Ha|]. split; [exact Hb|]. split; [|exact Hn]. exists r. split; [exact Hr|]. split; [exact He|].
    exact (Hv (safe "1.0.0") (λ _, conj eq_refl eq_refl)).
Defined.

(** Version 2 has never been in dev, and enforces there at once. *)
Lemma enforce_at_once_witness :
  let h := v1 ++ [Advance Dev; Advance Dev] in
  active_in (run begin_ (h ++ [Promote (safe "2.0.0") (scope Dev)])) Dev = Some (safe "2.0.0")
  ∧ stage_in (run begin_ (h ++ [Promote (safe "2.0.0") (scope Dev)])) Dev = Some Enforce.
Proof.
  apply (enforcing_environments_enforce_at_once (Manual.new 0 0) 2000 (v1 ++ [Advance Dev; Advance Dev]) (safe "2.0.0") (scope Dev)).
  - apply safe_is_vetted.
  - exact I.
  - refine (bool_decide_eq_true_1 _ _). vm_compute. reflexivity.
Defined.
