(* ===== verification/DepGate.v ===== *)
(** * Validation of dependency upgrades

    [src/src/dependency_contract.rs]: versions, breaking changes and call sites, the contract
    tests generated from call sites, the compatibility matrix, and the gate that approves an
    upgrade with a signed artifact or blocks it with the consumers that break.  SHA-256 is the
    class [Sha] of [RustText].  The time the generation took and the clock are arguments;
    [None] is a panic of a slice or of an [expect]. *)

From stdpp Require Import prelude list strings.
From Stdlib Require Import Ascii.
From S2P Require Import Prelude RustStr RustText BTreeMap.

(** Five minutes, in nanoseconds. *)
Definition SUITE_GENERATION_BUDGET : Duration := seconds (5 * 60).

(** ** Versions *)

Module SemVer.
Record t : Type := { major : Z; minor : Z; patch : Z; pre : string }.
#[global] Instance eq_dec : EqDecision t.
Proof. solve_decision. Defined.

Definition new (a b c : Z) : t := {| major := a; minor := b; patch := c; pre := "" |}.

(** The error is the text that could not be parsed. *)
Definition parse (raw : string) : result t string :=
  let trimmed := without_prefix "v" (trim raw) in
  if is_empty trimmed then Err raw
  else
    let '(core, pre) := match split_once "-" trimmed with Some (core, pre) => (core, pre) | None => (trimmed, "") end in
    match split_char "." core with
    | [a; b; c] =>
        match parse_u64 a, parse_u64 b, parse_u64 c with
        | Some a, Some b, Some c => Ok {| major := a; minor := b; patch := c; pre := pre |}
        | _, _, _ => Err raw
        end
    | _ => Err raw
    end.

Definition is_major_bump_from (self other : t) : bool := (major self <? major other)%Z.

(** The derived order, field by field. *)
Definition cmp (a b : t) : comparison :=
  then_cmp (Z.compare (major a) (major b))
    (then_cmp (Z.compare (minor a) (minor b))
      (then_cmp (Z.compare (patch a) (patch b)) (String.compare (pre a) (pre b)))).
Definition is_upgrade_over (self other : t) : bool := match cmp other self with Gt => true | _ => false end.

Definition show (v : t) : string :=
  show_Z (major v) +:+ "." +:+ show_Z (minor v) +:+ "." +:+ show_Z (patch v)
    +:+ (if is_empty (pre v) then "" else "-" +:+ pre v).
End SemVer.

(** ** Dependencies, call sites and breaking changes *)

Inductive DependencyKind : Type := Library | BaseImage | Operator.
#[global] Instance DependencyKind_eq_dec : EqDecision DependencyKind.
Proof. solve_decision. Defined.
Definition show_kind (k : DependencyKind) : string :=
  match k with Library => "library" | BaseImage => "base_image" | Operator => "operator" end.

Module DependencyRef.
Record t : Type := { name : string; kind : DependencyKind; from : SemVer.t; to : SemVer.t }.
Definition show (d : t) : string :=
  name d +:+ " (" +:+ show_kind (kind d) +:+ " " +:+ SemVer.show (from d) +:+ " -> " +:+ SemVer.show (to d) +:+ ")".
End DependencyRef.

Inductive BreakingChangeKind : Type := RemovedApi | ChangedSignature | ChangedReturnType | RenamedConfigKey | BehaviorChange.
#[global] Instance BreakingChangeKind_eq_dec : EqDecision BreakingChangeKind.
Proof. solve_decision. Defined.
Definition show_change (k : BreakingChangeKind) : string :=
  match k with
  | RemovedApi => "removed_api" | ChangedSignature => "changed_signature" | ChangedReturnType => "changed_return_type"
  | RenamedConfigKey => "renamed_config_key" | BehaviorChange => "behavior_change"
  end.

Module BreakingChange.
Record t : Type := { api : string; kind : BreakingChangeKind; detail : string }.
Definition new (a : string) (k : BreakingChangeKind) (d : string) : t := {| api := a; kind := k; detail := d |}.
Definition removed_api (a : string) : t := new a RemovedApi "symbol no longer exported".
Definition changed_signature (a d : string) : t := new a ChangedSignature d.
Definition changed_return_type (a d : string) : t := new a ChangedReturnType d.
Definition renamed_config_key (a d : string) : t := new a RenamedConfigKey d.
Definition behavior_change (a d : string) : t := new a BehaviorChange d.
Definition is_fatal (c : t) : bool := negb (bool_decide (kind c = BehaviorChange)).
End BreakingChange.
Abbreviation change := BreakingChange.t.

Module CallSite.
Record t : Type := { consumer : string; file : string; line : Z; apis : list string }.
Definition new (c f : string) (l : Z) : t := {| consumer := c; file := f; line := l; apis := [] |}.
Definition touching (s : t) (api : string) : t :=
  {| consumer := consumer s; file := file s; line := line s; apis := apis s ++ [api] |}.
Definition location (s : t) : string := file s +:+ ":" +:+ show_Z (line s).
Definition touches (s : t) (api : string) : bool := existsb (λ a, String.eqb a api || starts_with api a) (apis s).
End CallSite.
Abbreviation site := CallSite.t.

(** ** Contract tests *)

Inductive Assertion : Type := ApiResolves | CallableWithArity (n : Z) | ConfigKeyHonoured.
Definition show_assertion (a : Assertion) : string :=
  match a with
  | ApiResolves => "api_resolves"
  | CallableWithArity n => "callable_with_arity(" +:+ show_Z n +:+ ")"
  | ConfigKeyHonoured => "config_key_honoured"
  end.

Module ContractTest.
Record t : Type := {
  id : string; consumer : string; api : string; call_site : string; assertion : Assertion; derived_from : string;
}.
End ContractTest.

(** One character for each character, so nothing for the further bytes of one. *)
Fixpoint sanitize_ident (s : string) : string :=
  match s with
  | String.EmptyString => ""
  | String c s' =>
      if is_alphanumeric c then String (to_ascii_lowercase_char c) (sanitize_ident s')
      else if is_continuation c then sanitize_ident s'
      else String "_" (sanitize_ident s')
  end.

Definition QUOTE : string := String (ascii_of_nat 34) "".

Definition assertion_source (api : string) (a : Assertion) : string :=
  match a with
  | ApiResolves =>
      "    // contract: " +:+ api +:+ " must still be reachable" +:+ newline +:+ "    let _ = || {" +:+ newline
        +:+ "        use " +:+ api +:+ ";" +:+ newline +:+ "    };" +:+ newline
  | CallableWithArity n =>
      "    // contract: " +:+ api +:+ " must still accept " +:+ show_Z n +:+ " argument(s)" +:+ newline
        +:+ "    const _ARITY: usize = " +:+ show_Z n +:+ ";" +:+ newline
  | ConfigKeyHonoured =>
      "    // contract: config key " +:+ api +:+ " must still be honoured" +:+ newline
        +:+ "    const _KEY: &str = " +:+ QUOTE +:+ api +:+ QUOTE +:+ ";" +:+ newline
  end.

Definition to_rust_source (t : ContractTest.t) : string :=
  "/// Generated from " +:+ ContractTest.derived_from t +:+ newline +:+ "#[test]" +:+ newline
    +:+ "fn " +:+ sanitize_ident (ContractTest.id t) +:+ "() {" +:+ newline
    +:+ assertion_source (ContractTest.api t) (ContractTest.assertion t) +:+ "}" +:+ newline.

Module GeneratedSuite.
Record t : Type := { tests : list ContractTest.t; consumers : list string; deduplicated : Z; generation_time : Duration }.
Definition within_budget (s : t) : bool := (generation_time s <=? SUITE_GENERATION_BUDGET)%Z.
Definition to_rust_module (s : t) : string :=
  "// @generated by stellar_k8s::dependency_contract -- do not edit by hand." +:+ newline
    +:+ "// Regenerated on every dependency upgrade PR from consumer call sites." +:+ newline +:+ newline
    +:+ join "" ((λ t, to_rust_source t +:+ newline) <$> tests s).
End GeneratedSuite.

Definition assertion_for (api : string) : Assertion :=
  let leaf := after_last api api in
  if all_bytes (λ c, is_lower c || Ascii.eqb c "_" || Ascii.eqb c "-") leaf && negb (is_empty leaf)
  then ConfigKeyHonoured else ApiResolves.

Definition pair_key (s : site) (api : string) : string := CallSite.consumer s +:+ "::" +:+ api.
Definition test_for (s : site) (api : string) : ContractTest.t :=
  {| ContractTest.id := CallSite.consumer s +:+ "::" +:+ api +:+ "@" +:+ CallSite.location s;
     ContractTest.consumer := CallSite.consumer s; ContractTest.api := api; ContractTest.call_site := CallSite.location s;
     ContractTest.assertion := assertion_for api;
     ContractTest.derived_from := CallSite.consumer s +:+ " -> " +:+ CallSite.location s |}.

(** The local variables of the loops. *)
Record generating : Type := { g_seen : BTreeSet.t; g_tests : list ContractTest.t; g_consumers : BTreeSet.t; g_dedup : Z }.

(** One turn of the inner loop, and of the outer one. *)
Definition generate_api (s : site) (g : generating) (api : string) : generating :=
  if bool_decide (pair_key s api ∈ BTreeSet.to_list (g_seen g))
  then {| g_seen := g_seen g; g_tests := g_tests g; g_consumers := g_consumers g; g_dedup := (g_dedup g + 1)%Z |}
  else {| g_seen := BTreeSet.insert (pair_key s api) (g_seen g); g_tests := g_tests g ++ [test_for s api];
          g_consumers := g_consumers g; g_dedup := g_dedup g |}.
Definition generate_site (g : generating) (s : site) : generating :=
  foldl (generate_api s)
    {| g_seen := g_seen g; g_tests := g_tests g; g_consumers := BTreeSet.insert (CallSite.consumer s) (g_consumers g);
       g_dedup := g_dedup g |} (CallSite.apis s).

Definition generate (call_sites : list site) (elapsed : Duration) : GeneratedSuite.t :=
  let g := foldl generate_site {| g_seen := []; g_tests := []; g_consumers := []; g_dedup := 0 |} call_sites in
  {| GeneratedSuite.tests := g_tests g; GeneratedSuite.consumers := BTreeSet.to_list (g_consumers g);
     GeneratedSuite.deduplicated := g_dedup g; GeneratedSuite.generation_time := elapsed |}.

(** ** The compatibility matrix *)

Inductive CellStatus : Type := Compatible | Incompatible | Unverified.
#[global] Instance CellStatus_eq_dec : EqDecision CellStatus.
Proof. solve_decision. Defined.
Definition show_status (s : CellStatus) : string :=
  match s with Compatible => "compatible" | Incompatible => "incompatible" | Unverified => "unverified" end.

Module MatrixCell.
Record t : Type := { consumer : string; dependency : string; status : CellStatus; causes : list string; call_sites : list string }.
End MatrixCell.
Abbreviation cell := MatrixCell.t.

(** [entry(..).or_default().push(..)]. *)
Definition push_site (m : BTreeMap.t (list site)) (s : site) : BTreeMap.t (list site) :=
  BTreeMap.insert (CallSite.consumer s) (default [] (BTreeMap.get (CallSite.consumer s) m) ++ [s]) m.

(** The loop over the changes: causes, evidence, and whether one was fatal. *)
Definition judge_change (sites : list site) (acc : list string * BTreeSet.t * bool) (c : change) : list string * BTreeSet.t * bool :=
  let '(causes, evidence, fatal) := acc in
  let hit := List.filter (λ s, CallSite.touches s (BreakingChange.api c)) sites in
  match hit with
  | [] => acc
  | _ => (causes ++ [show_change (BreakingChange.kind c) +:+ ": " +:+ BreakingChange.api c],
          fold_left (λ e s, BTreeSet.insert (CallSite.location s) e) hit evidence,
          BreakingChange.is_fatal c || fatal)
  end.
Definition judge (dependency : string) (changes : list change) (entry : string * list site) : cell :=
  let '(causes, evidence, fatal) := foldl (judge_change entry.2) ([], [], false) changes in
  {| MatrixCell.consumer := entry.1; MatrixCell.dependency := dependency;
     MatrixCell.status := if fatal : bool then Incompatible else if bool_decide (causes = []) then Compatible else Unverified;
     MatrixCell.causes := causes; MatrixCell.call_sites := BTreeSet.to_list evidence |}.

Definition construct (dependency : string) (call_sites : list site) (changes : list change) : list cell :=
  judge dependency changes <$> foldl push_site [] call_sites.

Definition cell_for (m : list cell) (consumer : string) : option cell :=
  find_first (λ c, String.eqb (MatrixCell.consumer c) consumer) m.
Definition with_status (st : CellStatus) (m : list cell) : list cell :=
  List.filter (λ c, bool_decide (MatrixCell.status c = st)) m.
Definition blocked_consumers : list cell → list cell := with_status Incompatible.
Definition unverified_consumers : list cell → list cell := with_status Unverified.
Definition compatible_count (m : list cell) : Z := Z.of_nat (length (with_status Compatible m)).

Definition or_dash (sep : string) (l : list string) : string := match l with [] => "-" | _ => join sep l end.
Definition matrix_markdown (m : list cell) : string :=
  "| Consumer | Status | Cause | Call sites |" +:+ newline +:+ "|---|---|---|---|" +:+ newline
  +:+ match m with
      | [] => "| _no consumers_ | - | - | - |" +:+ newline
      | _ => join "" ((λ c, "| `" +:+ MatrixCell.consumer c +:+ "` | " +:+ show_status (MatrixCell.status c) +:+ " | "
                +:+ or_dash "<br>" (MatrixCell.causes c) +:+ " | " +:+ or_dash "<br>" (MatrixCell.call_sites c) +:+ " |" +:+ newline) <$> m)
      end.

Definition matrix_text (m : list cell) : string :=
  join "" ((λ c, MatrixCell.consumer c +:+ show_status (MatrixCell.status c) +:+ join "" (MatrixCell.causes c)
     +:+ join "" (MatrixCell.call_sites c) +:+ newline) <$> m).
Definition matrix_digest `{Sha} (m : list cell) : string := sha256_hex (matrix_text m).

(** ** Proposals *)

Module UpgradeProposal.
Record t : Type := { pr_number : Z; dependency : DependencyRef.t; breaking_changes : list change; call_sites : list site }.
End UpgradeProposal.
Abbreviation proposal := UpgradeProposal.t.

Module Builder.
Record t : Type := {
  name : string; kind : DependencyKind; pr_number : Z; from : SemVer.t; to : SemVer.t;
  breaking_changes : list change; call_sites : list site;
}.
Definition new (n : string) (k : DependencyKind) : t :=
  {| name := n; kind := k; pr_number := 0; from := SemVer.new 0 0 0; to := SemVer.new 0 0 0; breaking_changes := []; call_sites := [] |}.
Definition pr (n : Z) (b : t) : t :=
  {| name := name b; kind := kind b; pr_number := n; from := from b; to := to b; breaking_changes := breaking_changes b; call_sites := call_sites b |}.
Definition expect (r : result SemVer.t string) : option SemVer.t := match r with Ok v => Some v | Err _ => None end.
Definition set_from (v : string) (b : t) : option t :=
  v ← expect (SemVer.parse v);
  Some {| name := name b; kind := kind b; pr_number := pr_number b; from := v; to := to b;
          breaking_changes := breaking_changes b; call_sites := call_sites b |}.
Definition set_to (v : string) (b : t) : option t :=
  v ← expect (SemVer.parse v);
  Some {| name := name b; kind := kind b; pr_number := pr_number b; from := from b; to := v;
          breaking_changes := breaking_changes b; call_sites := call_sites b |}.
Definition breaking_change (c : change) (b : t) : t :=
  {| name := name b; kind := kind b; pr_number := pr_number b; from := from b; to := to b;
     breaking_changes := breaking_changes b ++ [c]; call_sites := call_sites b |}.
Definition call_site (s : site) (b : t) : t :=
  {| name := name b; kind := kind b; pr_number := pr_number b; from := from b; to := to b;
     breaking_changes := breaking_changes b; call_sites := call_sites b ++ [s] |}.
Definition build (b : t) : proposal :=
  {| UpgradeProposal.pr_number := pr_number b;
     UpgradeProposal.dependency := {| DependencyRef.name := name b; DependencyRef.kind := kind b; DependencyRef.from := from b; DependencyRef.to := to b |};
     UpgradeProposal.breaking_changes := breaking_changes b; UpgradeProposal.call_sites := call_sites b |}.
End Builder.

(** ** The artifact *)

Inductive Verdict : Type := Approved | Blocked.
#[global] Instance Verdict_eq_dec : EqDecision Verdict.
Proof. solve_decision. Defined.
Definition show_verdict (v : Verdict) : string := match v with Approved => "approved" | Blocked => "blocked" end.

Module ConsumerAttribution.
Record t : Type := { consumer : string; reasons : list string; call_sites : list string }.
End ConsumerAttribution.

Module Artifact.
Record t : Type := {
  artifact_id : string; pr_number : Z; dependency : string; kind : DependencyKind; from : SemVer.t; to : SemVer.t;
  verdict : Verdict; suite_digest : string; matrix_digest : string; generated_tests : Z; consumers : list string;
  generated_at : DateTime; signature : string;
}.
Definition sign (s : string) (a : t) : t :=
  {| artifact_id := artifact_id a; pr_number := pr_number a; dependency := dependency a; kind := kind a; from := from a; to := to a;
     verdict := verdict a; suite_digest := suite_digest a; matrix_digest := matrix_digest a; generated_tests := generated_tests a;
     consumers := consumers a; generated_at := generated_at a; signature := s |}.

Definition text (a : t) : string :=
  show_Z (pr_number a) +:+ dependency a +:+ show_kind (kind a) +:+ SemVer.show (from a) +:+ SemVer.show (to a)
    +:+ show_verdict (verdict a) +:+ suite_digest a +:+ matrix_digest a +:+ show_Z (generated_tests a) +:+ join "" (consumers a).
Definition compute_signature `{Sha} (a : t) : string := sha256_hex (text a).
Definition verify `{Sha} (a : t) : bool := String.eqb (signature a) (compute_signature a).

Definition to_markdown (a : t) (m : list cell) : option string :=
  suite ← slice_head 16 (suite_digest a);
  matrix ← slice_head 16 (matrix_digest a);
  sig ← slice_head 16 (signature a);
  Some ("### Dependency upgrade validation artifact" +:+ newline +:+ newline
    +:+ "* artifact: `" +:+ artifact_id a +:+ "`" +:+ newline
    +:+ "* PR: #" +:+ show_Z (pr_number a) +:+ newline
    +:+ "* dependency: `" +:+ dependency a +:+ "` (" +:+ show_kind (kind a) +:+ ") `" +:+ SemVer.show (from a) +:+ "` -> `" +:+ SemVer.show (to a) +:+ "`" +:+ newline
    +:+ "* verdict: **" +:+ show_verdict (verdict a) +:+ "**" +:+ newline
    +:+ "* contract tests generated: " +:+ show_Z (generated_tests a) +:+ " (suite digest `" +:+ suite +:+ "`)" +:+ newline
    +:+ "* matrix digest: `" +:+ matrix +:+ "`" +:+ newline
    +:+ "* consumers covered: " +:+ join ", " (consumers a) +:+ newline
    +:+ "* signature: `" +:+ sig +:+ "`" +:+ newline +:+ newline
    +:+ "#### Compatibility matrix" +:+ newline +:+ newline +:+ matrix_markdown m).
End Artifact.

Module UpgradeReport.
Record t : Type := {
  pr_number : Z; dependency : string; verdict : Verdict; reason : string; attribution : list ConsumerAttribution.t;
  matrix : list cell; artifact : option Artifact.t; generated_at : DateTime;
}.
Definition block_reason_lines (r : t) : list string :=
  reason r :: ((λ a, "  - " +:+ ConsumerAttribution.consumer a +:+ " blocked: " +:+ join "; " (ConsumerAttribution.reasons a)
    +:+ " (call sites: " +:+ (match ConsumerAttribution.call_sites a with [] => "unknown" | l => join ", " l end) +:+ ")") <$> attribution r).
Definition is_blocked (r : t) : bool := bool_decide (verdict r = Blocked).
End UpgradeReport.
Abbreviation report := UpgradeReport.t.

(** ** The gate *)

Definition suite_text (s : GeneratedSuite.t) : string :=
  join "" ((λ t, ContractTest.id t +:+ show_assertion (ContractTest.assertion t) +:+ newline) <$> GeneratedSuite.tests s).
Definition digest_of `{Sha} (s : GeneratedSuite.t) : string := sha256_hex (suite_text s).

Definition cell_reason (c : cell) : string :=
  "consumer `" +:+ MatrixCell.consumer c +:+ "` breaks: "
    +:+ (match MatrixCell.causes c with [] => "incompatible" | l => join "; " l end)
    +:+ " (call sites: " +:+ (match MatrixCell.call_sites c with [] => "unknown" | l => join ", " l end) +:+ ")".

(** The reasons to block, in the order they are pushed. *)
Definition reasons_of (enforce_budget : bool) (p : proposal) (suite : GeneratedSuite.t) (m : list cell) : list string :=
  let d := UpgradeProposal.dependency p in
  let from := DependencyRef.from d in
  let to := DependencyRef.to d in
  (if SemVer.is_major_bump_from from to
   then ["semver major bump " +:+ SemVer.show from +:+ " -> " +:+ SemVer.show to +:+ " is breaking by definition"] else [])
  ++ (if SemVer.is_upgrade_over from to then []
      else ["proposed version " +:+ SemVer.show to +:+ " is not newer than " +:+ SemVer.show from])
  ++ (if bool_decide (UpgradeProposal.call_sites p = [])
      then ["no consumer call sites found: the upgrade cannot be validated against real usage"] else [])
  ++ (if enforce_budget && negb (GeneratedSuite.within_budget suite)
      then ["contract suite generation exceeded the " +:+ show_Z (num_seconds SUITE_GENERATION_BUDGET) +:+ "s budget"] else [])
  ++ (cell_reason <$> blocked_consumers m).

Definition attribute (c : cell) : ConsumerAttribution.t :=
  {| ConsumerAttribution.consumer := MatrixCell.consumer c; ConsumerAttribution.reasons := MatrixCell.causes c;
     ConsumerAttribution.call_sites := MatrixCell.call_sites c |}.

Definition artifact_for `{Sha} (p : proposal) (suite : GeneratedSuite.t) (m : list cell) (now : DateTime) : option Artifact.t :=
  let d := UpgradeProposal.dependency p in
  head ← slice_to 12 (digest_of suite);
  let a := {| Artifact.artifact_id := "depval-pr" +:+ show_Z (UpgradeProposal.pr_number p) +:+ "-" +:+ head;
              Artifact.pr_number := UpgradeProposal.pr_number p; Artifact.dependency := DependencyRef.name d;
              Artifact.kind := DependencyRef.kind d; Artifact.from := DependencyRef.from d; Artifact.to := DependencyRef.to d;
              Artifact.verdict := Approved; Artifact.suite_digest := digest_of suite; Artifact.matrix_digest := matrix_digest m;
              Artifact.generated_tests := Z.of_nat (length (GeneratedSuite.tests suite));
              Artifact.consumers := GeneratedSuite.consumers suite; Artifact.generated_at := now; Artifact.signature := "" |} in
  Some (Artifact.sign (Artifact.compute_signature a) a).

Definition validate `{Sha} (enforce_budget : bool) (p : proposal) (elapsed : Duration) (now : DateTime) : option report :=
  let d := UpgradeProposal.dependency p in
  let suite := generate (UpgradeProposal.call_sites p) elapsed in
  let m := construct (DependencyRef.name d) (UpgradeProposal.call_sites p) (UpgradeProposal.breaking_changes p) in
  let reasons := reasons_of enforce_budget p suite m in
  let blocked := blocked_consumers m in
  let verdict := match reasons with [] => Approved | _ => Blocked end in
  let reason :=
    match verdict with
    | Approved => "approved: " +:+ show_Z (Z.of_nat (length m)) +:+ " consumers validated against "
        +:+ show_Z (Z.of_nat (length (GeneratedSuite.tests suite))) +:+ " generated contract tests"
    | Blocked => "blocked: upgrade of " +:+ DependencyRef.name d +:+ " from " +:+ SemVer.show (DependencyRef.from d) +:+ " to "
        +:+ SemVer.show (DependencyRef.to d) +:+ " is incompatible for " +:+ show_Z (Z.of_nat (length blocked)) +:+ " consumer(s) ["
        +:+ join ", " (MatrixCell.consumer <$> blocked) +:+ "]: " +:+ join "; " reasons
    end in
  artifact ← match verdict with
             | Approved => a ← artifact_for p suite m now; Some (Some a)
             | Blocked => Some None
             end;
  Some {| UpgradeReport.pr_number := UpgradeProposal.pr_number p; UpgradeReport.dependency := DependencyRef.name d;
          UpgradeReport.verdict := verdict; UpgradeReport.reason := reason; UpgradeReport.attribution := attribute <$> blocked;
          UpgradeReport.matrix := m; UpgradeReport.artifact := artifact; UpgradeReport.generated_at := now |}.

(** ** The consumers of this repository *)

Module Consumer.
Record t : Type := { name : string; kind : DependencyKind; call_sites : list site }.

Definition at_ (c f : string) (l : Z) (api : string) : site := CallSite.touching (CallSite.new c f l) api.

Definition harvest (name : string) (kind : DependencyKind) : option t :=
  if String.eqb name "k8s-openapi" then
    Some {| name := "stellar-controller"; kind := kind; call_sites :=
      [at_ "stellar-controller" "src/controller/reconcile.rs" 118 "k8s_openapi::api::core::v1::PodSpec";
       at_ "stellar-controller" "src/controller/resources.rs" 77 "k8s_openapi::api::core::v1::PodStatus";
       at_ "stellar-controller" "src/scheduler/constraints.rs" 45 "k8s_openapi::api::core::v1::Toleration"] |}
  else if String.eqb name "kube" then
    Some {| name := "stellar-operator"; kind := kind; call_sites :=
      [at_ "stellar-operator" "src/main.rs" 62 "kube::runtime::Controller";
       at_ "stellar-operator" "src/rest_api/routes.rs" 210 "kube::Client"] |}
  else if String.eqb name "serde_yaml" then
    Some {| name := "stellar-webhook"; kind := kind; call_sites :=
      [at_ "stellar-webhook" "src/webhook/admission.rs" 88 "serde_yaml::from_slice";
       at_ "stellar-webhook" "src/config_mgmt/validation.rs" 31 "serde_yaml::Value"] |}
  else if String.eqb name "chrono" then
    Some {| name := "stellar-telemetry"; kind := kind; call_sites := [at_ "stellar-telemetry" "src/telemetry.rs" 140 "chrono::DateTime"] |}
  else if String.eqb name "reqwest" then
    Some {| name := "stellar-sidecar"; kind := kind; call_sites := [at_ "stellar-sidecar" "src/sidecar.rs" 402 "reqwest::Client::get"] |}
  else None.

Definition of_dependency (dependency : string) (s : site) : bool := String.eqb (CallSite.consumer s) dependency.

Definition known_consumers (dependency : string) : list t :=
  (λ c, {| name := name c; kind := kind c; call_sites := List.filter (of_dependency dependency) (call_sites c) |})
    <$> List.filter (λ c, existsb (of_dependency dependency) (call_sites c))
          (omap (λ d, harvest d Library) ["k8s-openapi"; "kube"; "serde_yaml"; "chrono"; "reqwest"]).
End Consumer.
