(* ===== verification/DepGateFacts.v ===== *)
(** * Facts about the upgrade gate

    Versions are read back from their texts; the tests generated are one for each pair of a
    consumer and an API; the rows of the matrix are the consumers, each with exactly the
    changes and call sites that concern it. *)

From stdpp Require Import prelude list strings.
From Stdlib Require Import Ascii.
From S2P Require Import Prelude RustStr RustText BTreeMap DepGate.

(** ** Versions *)

Definition well_formed (v : SemVer.t) : Prop :=
  in_u64 (SemVer.major v) ∧ in_u64 (SemVer.minor v) ∧ in_u64 (SemVer.patch v) ∧ all_bytes visible (SemVer.pre v) = true.

Definition core_text (v : SemVer.t) : string :=
  show_Z (SemVer.major v) +:+ String "." (show_Z (SemVer.minor v) +:+ String "." (show_Z (SemVer.patch v))).

Lemma digits_lack c s : is_digit c = false → all_bytes is_digit s = true → all_bytes (λ d, negb (Ascii.eqb d c)) s = true.
Proof.
  intros Hc. apply all_bytes_impl. intros d Hd. apply negb_true_iff. destruct (Ascii.eqb_spec d c) as [->|]; [congruence|done].
Qed.

Lemma digit_visible c : is_digit c = true → visible c = true.
Proof. unfold is_digit, visible. rewrite !andb_true_iff, !Nat.leb_le. lia. Qed.

Lemma show_core v : SemVer.show v = core_text v +:+ (if is_empty (SemVer.pre v) then "" else String "-" (SemVer.pre v)).
Proof.
  unfold SemVer.show, core_text. rewrite append_assoc.
  change (String "." (show_Z (SemVer.minor v) +:+ String "." (show_Z (SemVer.patch v))))
    with ("." +:+ show_Z (SemVer.minor v) +:+ "." +:+ show_Z (SemVer.patch v)).
  by rewrite !append_assoc.
Qed.

Section core.
Context (v : SemVer.t) (Hv : well_formed v).

Lemma core_digits : all_bytes is_digit (show_Z (SemVer.major v)) = true ∧ all_bytes is_digit (show_Z (SemVer.minor v)) = true
  ∧ all_bytes is_digit (show_Z (SemVer.patch v)) = true.
Proof. destruct Hv as (H1 & H2 & H3 & _). split_and!; apply show_Z_digits; unfold in_u64 in *; lia. Qed.

Lemma core_bytes f : (∀ c, is_digit c = true → f c = true) → f "."%char = true → all_bytes f (core_text v) = true.
Proof.
  intros Hf Hd. destruct core_digits as (H1 & H2 & H3). unfold core_text.
  rewrite all_bytes_append, all_bytes_cons, all_bytes_append, all_bytes_cons, Hd.
  by rewrite !(all_bytes_impl is_digit f).
Qed.

Lemma core_lacks_dash : all_bytes (λ d, negb (Ascii.eqb d "-")) (core_text v) = true.
Proof. apply core_bytes; [|done]. intros c Hc. by destruct (Ascii.eqb_spec c "-") as [->|]. Qed.

Lemma split_core :
  split_char "." (core_text v) = [show_Z (SemVer.major v); show_Z (SemVer.minor v); show_Z (SemVer.patch v)].
Proof.
  destruct core_digits as (H1 & H2 & H3). unfold core_text.
  rewrite split_char_mark by (by apply digits_lack). rewrite split_char_mark by (by apply digits_lack).
  by rewrite split_char_lacks by (by apply digits_lack).
Qed.

Lemma show_visible : all_bytes visible (SemVer.show v) = true.
Proof.
  rewrite show_core, all_bytes_append, core_bytes; [|apply digit_visible|done].
  destruct (is_empty _); [done|]. rewrite all_bytes_cons. apply Hv.
Qed.

Lemma core_starts : ∃ c s, core_text v = String c s ∧ is_digit c = true.
Proof.
  destruct (show_Z_starts (SemVer.major v)) as (c & s & E & Hc); [apply Hv|]. unfold core_text. rewrite E. by eexists c, _.
Qed.
End core.

(** What follows the trimming and the [v]. *)
Definition parse_trimmed (raw trimmed : string) : result SemVer.t string :=
  if is_empty trimmed then Err raw
  else
    let '(core, pre) := match split_once "-" trimmed with Some (core, pre) => (core, pre) | None => (trimmed, "") end in
    match split_char "." core with
    | [a; b; c] =>
        match parse_u64 a, parse_u64 b, parse_u64 c with
        | Some a, Some b, Some c => Ok {| SemVer.major := a; SemVer.minor := b; SemVer.patch := c; SemVer.pre := pre |}
        | _, _, _ => Err raw
        end
    | _ => Err raw
    end.

Lemma parse_trimmed_show raw v : well_formed v → parse_trimmed raw (SemVer.show v) = Ok v.
Proof.
  intros Hv. unfold parse_trimmed. rewrite show_core. destruct (core_starts v Hv) as (c & s & E & Hc).
  assert (∀ t, is_empty (core_text v +:+ t) = false) as -> by (intros t; by rewrite E).
  assert (match split_once "-" (core_text v +:+ (if is_empty (SemVer.pre v) then "" else String "-" (SemVer.pre v))) with
          | Some (core, pre) => (core, pre)
          | None => (core_text v +:+ (if is_empty (SemVer.pre v) then "" else String "-" (SemVer.pre v)), "")
          end = (core_text v, SemVer.pre v)) as ->.
  { destruct (SemVer.pre v) as [|d p] eqn:Ep; simpl.
    - rewrite append_empty, split_once_lacks; [done|]. by apply core_lacks_dash.
    - by rewrite split_once_mark by (by apply core_lacks_dash). }
  rewrite split_core by done. destruct Hv as (H1 & H2 & H3 & _). rewrite !parse_show_u64 by done. by destruct v.
Qed.

Lemma parse_show v : well_formed v → SemVer.parse (SemVer.show v) = Ok v.
Proof.
  intros Hv. change (parse_trimmed (SemVer.show v) (without_prefix "v" (trim (SemVer.show v))) = Ok v).
  rewrite trim_visible by (by apply show_visible).
  destruct (core_starts v Hv) as (c & s & E & Hc). assert (without_prefix "v" (SemVer.show v) = SemVer.show v) as ->.
  { rewrite show_core, E. simpl. by destruct (Ascii.eqb_spec c "v") as [->|]. }
  by apply parse_trimmed_show.
Qed.

Lemma parse_show_padded v : well_formed v → SemVer.parse ("  v" +:+ SemVer.show v +:+ newline) = Ok v.
Proof.
  intros Hv. set (raw := "  v" +:+ _).
  change (parse_trimmed raw (without_prefix "v" (trim raw)) = Ok v). unfold raw at 2.
  assert (trim ("  v" +:+ SemVer.show v +:+ newline) = String "v" (SemVer.show v)) as ->.
  { apply (trim_padded [" "%char; " "%char] (String "v" (SemVer.show v)) [NL]); [done|done|].
    rewrite all_bytes_cons. by apply show_visible. }
  by apply parse_trimmed_show.
Qed.

(** ** The generated suite *)

(** Every call of an API, in the order of the loops. *)
Definition calls (l : list site) : list (site * string) := concat ((λ s, pair s <$> CallSite.apis s) <$> l).
Definition key_of (x : site * string) : string := pair_key x.1 x.2.
Definition test_of (x : site * string) : ContractTest.t := test_for x.1 x.2.
Definition test_key (t : ContractTest.t) : string := ContractTest.consumer t +:+ "::" +:+ ContractTest.api t.

Lemma elem_of_calls l s a : (s, a) ∈ calls l ↔ s ∈ l ∧ a ∈ CallSite.apis s.
Proof.
  unfold calls. rewrite list_elem_of_In, in_concat. setoid_rewrite <- list_elem_of_In. setoid_rewrite list_elem_of_fmap. split.
  - intros (xs & (s' & -> & Hs') & (a' & [= -> ->] & Ha)%list_elem_of_fmap). done.
  - intros [Hs Ha]. eexists. split; [by exists s|]. by apply list_elem_of_fmap_2.
Qed.

(** What the loops keep of the calls made so far. *)
Record generated (xs : list (site * string)) (g : generating) : Prop := {
  gen_seen : ∀ k, k ∈ BTreeSet.to_list (g_seen g) ↔ k ∈ key_of <$> xs;
  gen_unique : NoDup (test_key <$> g_tests g);
  gen_keys : ∀ k, k ∈ test_key <$> g_tests g ↔ k ∈ key_of <$> xs;
  gen_from : ∀ t, t ∈ g_tests g → ∃ x, x ∈ xs ∧ t = test_of x;
  gen_count : (Z.of_nat (length (g_tests g)) + g_dedup g = Z.of_nat (length xs))%Z;
}.

Lemma elem_of_fmap_snoc {A} (f : A → string) xs x k : k ∈ f <$> (xs ++ [x]) ↔ k ∈ f <$> xs ∨ k = f x.
Proof. rewrite fmap_app, elem_of_app. simpl. by rewrite list_elem_of_singleton. Qed.

Lemma generate_api_generated xs g s a : generated xs g → generated (xs ++ [(s, a)]) (generate_api s g a).
Proof.
  intros [Hs Hu Hk Hf Hc]. unfold generate_api. case_bool_decide as Hin; rewrite Hs in Hin; split; simpl.
  - intros k. rewrite Hs, elem_of_fmap_snoc. split; [by left|]. intros [?| ->]; done.
  - done.
  - intros k. rewrite Hk, elem_of_fmap_snoc. split; [by left|]. intros [?| ->]; done.
  - intros t Ht. destruct (Hf t Ht) as (x & Hx & ->). exists x. split; [set_solver|done].
  - rewrite length_app. simpl. lia.
  - intros k. rewrite BTreeSet.elem_of_insert, Hs, elem_of_fmap_snoc. unfold key_of. simpl. tauto.
  - rewrite fmap_app. apply NoDup_app. split_and!; [done| |apply NoDup_singleton].
    intros k Hk' ->%list_elem_of_singleton. apply Hin. by apply Hk.
  - intros k. rewrite !elem_of_fmap_snoc, Hk. done.
  - intros t [Ht| ->%list_elem_of_singleton]%elem_of_app.
    + destruct (Hf t Ht) as (x & Hx & ->). exists x. split; [set_solver|done].
    + exists (s, a). split; [set_solver|done].
  - rewrite !length_app. simpl. lia.
Qed.

Lemma generated_consumers xs g c :
  generated xs g → generated xs {| g_seen := g_seen g; g_tests := g_tests g; g_consumers := c; g_dedup := g_dedup g |}.
Proof. intros [Hs Hu Hk Hf Hc]. by split. Qed.

Lemma generate_apis_generated xs g s l : generated xs g → generated (xs ++ (pair s <$> l)) (foldl (generate_api s) g l).
Proof.
  revert xs g. induction l as [|a l IH]; intros xs g Hg; simpl; [by rewrite app_nil_r|].
  rewrite cons_middle, (assoc_L app). apply IH. by apply generate_api_generated.
Qed.

Lemma generate_sites_generated xs g l : generated xs g → generated (xs ++ calls l) (foldl generate_site g l).
Proof.
  revert xs g. induction l as [|s l IH]; intros xs g Hg; simpl; [by rewrite app_nil_r|].
  unfold calls. cbn [fmap list_fmap concat]. rewrite (assoc_L app). apply IH.
  unfold generate_site. by apply generate_apis_generated, generated_consumers.
Qed.

Lemma generate_apis_consumers g s l : g_consumers (foldl (generate_api s) g l) = g_consumers g.
Proof.
  revert g. induction l as [|a l IH]; intros g; simpl; [done|]. rewrite IH. unfold generate_api. by case_bool_decide.
Qed.

Lemma generate_sites_consumers g l :
  g_consumers (foldl generate_site g l) = fold_left (λ cs s, BTreeSet.insert (CallSite.consumer s) cs) l (g_consumers g).
Proof.
  revert g. induction l as [|s l IH]; intros g; simpl; [done|]. rewrite IH. unfold generate_site. by rewrite generate_apis_consumers.
Qed.

Lemma pair_key_inj c c' a a' :
  all_bytes (λ d, negb (Ascii.eqb d ":")) c = true → all_bytes (λ d, negb (Ascii.eqb d ":")) c' = true →
  c +:+ "::" +:+ a = c' +:+ "::" +:+ a' → c = c' ∧ a = a'.
Proof.
  intros Hc Hc' H. assert (∀ x, all_bytes (λ d, negb (Ascii.eqb d ":")) x = true → ¬ In ":"%char (String.list_ascii_of_string x)) as Hl.
  { intros x Hx Hin. apply (proj1 (forallb_forall _ _) Hx) in Hin. done. }
  apply append_mark_inj in H as [-> H]; auto. split; [done|]. change (String ":" a = String ":" a') in H. congruence.
Qed.

(** ** The matrix *)

Definition of_consumer (c : string) (s : site) : bool := String.eqb (CallSite.consumer s) c.

(** A map that groups the sites of [l] by consumer. *)
Definition groups (m : BTreeMap.t (list site)) (l : list site) : Prop :=
  BTreeMap.sorted m ∧ ∀ c, BTreeMap.get c m = match List.filter (of_consumer c) l with [] => None | x => Some x end.

Lemma push_site_groups m l s : groups m l → groups (push_site m s) (l ++ [s]).
Proof.
  intros [Hm Hg]. split; [by apply BTreeMap.insert_sorted|]. intros c. unfold push_site. rewrite List.filter_app. simpl.
  unfold of_consumer at 2. destruct (String.eqb_spec (CallSite.consumer s) c) as [<-|Hne].
  - rewrite BTreeMap.get_insert, Hg. by destruct (List.filter _ l).
  - rewrite BTreeMap.get_insert_ne by done. by rewrite Hg, app_nil_r.
Qed.

Lemma push_sites_groups l : groups (foldl push_site [] l) l.
Proof.
  induction l as [|s l IH] using rev_ind; [split; [constructor|done]|]. rewrite foldl_app. by apply push_site_groups.
Qed.

Lemma elem_of_groups m l c x :
  groups m l → (c, x) ∈ m ↔ x = List.filter (of_consumer c) l ∧ x ≠ [].
Proof.
  intros [Hm Hg]. split.
  - intros Hin. apply BTreeMap.get_elem in Hin; [|done]. rewrite Hg in Hin. destruct (List.filter _ l) eqn:E; [done|]. by injection Hin as <-.
  - intros [-> Hne]. apply BTreeMap.get_Some. rewrite Hg. by destruct (List.filter _ l).
Qed.

(** A change that reaches one of the sites. *)
Definition hits (sites : list site) (c : change) : bool := existsb (λ s, CallSite.touches s (BreakingChange.api c)) sites.
Definition cause_of (c : change) : string := show_change (BreakingChange.kind c) +:+ ": " +:+ BreakingChange.api c.

Lemma hits_filter sites c : hits sites c = negb (bool_decide (List.filter (λ s, CallSite.touches s (BreakingChange.api c)) sites = [])).
Proof. unfold hits. induction sites as [|s l IH]; simpl; [done|]. by destruct (CallSite.touches s _). Qed.

Definition reached (sites : list site) (c : change) : list site :=
  List.filter (λ s, CallSite.touches s (BreakingChange.api c)) sites.

Lemma judge_change_alt sites causes (ev : BTreeSet.t) fatal c :
  judge_change sites (causes, ev, fatal) c =
    (causes ++ (cause_of <$> List.filter (hits sites) [c]),
     fold_left (λ e s, BTreeSet.insert (CallSite.location s) e) (reached sites c) ev,
     hits sites c && BreakingChange.is_fatal c || fatal).
Proof.
  pose proof (hits_filter sites c) as Hh. unfold judge_change, reached. cbn [List.filter].
  destruct (List.filter _ sites) as [|s0 hit]; simpl in Hh; rewrite Hh; [by rewrite app_nil_r|done].
Qed.

Lemma judge_changes sites changes causes (ev : BTreeSet.t) fatal :
  BTreeMap.sorted ev →
  ∃ ev', foldl (judge_change sites) (causes, ev, fatal) changes
      = (causes ++ (cause_of <$> List.filter (hits sites) changes), ev', existsb (λ c, hits sites c && BreakingChange.is_fatal c) changes || fatal)
    ∧ BTreeMap.sorted ev'
    ∧ ∀ x, x ∈ BTreeSet.to_list ev' ↔ x ∈ BTreeSet.to_list ev
        ∨ ∃ c s, c ∈ changes ∧ s ∈ sites ∧ CallSite.touches s (BreakingChange.api c) = true ∧ x = CallSite.location s.
Proof.
  revert causes ev fatal. induction changes as [|c changes IH]; intros causes ev fatal Hev.
  { exists ev. simpl. rewrite app_nil_r. split_and!; [done..|]. set_solver. }
  cbn [foldl]. rewrite judge_change_alt.
  edestruct IH as (ev' & -> & Hs & Hx); [by apply BTreeSet.fold_sorted|]. exists ev'. split_and!; [|done|].
  - rewrite <- (assoc_L app), <- fmap_app, <- List.filter_app. f_equal. simpl.
    by destruct (hits sites c && _), (existsb _ changes), fatal.
  - intros x. rewrite Hx, BTreeSet.elem_of_fold. unfold reached. setoid_rewrite elem_of_lfilter. set_solver.
Qed.
