(* ===== verification/DepGateProps.v ===== *)
(** * The upgrade gate

    The verdict of the gate is exactly a statement over the proposed changes and the call
    sites, and blame is put exactly where it belongs; the generated suite has one test for
    every pair of a consumer and an API; versions are read back; and two things the gate
    gets wrong: release candidates rank above their releases, and a signature does not bind
    what it signs. *)

From stdpp Require Import prelude list strings.
From Stdlib Require Import Ascii.
From S2P Require Import Prelude RustStr RustText BTreeMap DepGate DepGateFacts.

(** ** Rows of the matrix *)

(** A change and a site of the consumer that it reaches. *)
Definition concerns (sites : list site) (changes : list change) (consumer : string) (c : change) (s : site) : Prop :=
  c ∈ changes ∧ s ∈ sites ∧ CallSite.consumer s = consumer ∧ CallSite.touches s (BreakingChange.api c) = true.

(** A fatal change reaches a site of the consumer. *)
Definition breaks (sites : list site) (changes : list change) (consumer : string) : Prop :=
  ∃ c s, concerns sites changes consumer c s ∧ BreakingChange.is_fatal c = true.

Record row_of (sites : list site) (changes : list change) (x : cell) : Prop := {
  row_status : MatrixCell.status x = Incompatible ↔ breaks sites changes (MatrixCell.consumer x);
  row_compatible : MatrixCell.status x = Compatible ↔ ∀ c s, ¬ concerns sites changes (MatrixCell.consumer x) c s;
  row_causes : ∀ t, t ∈ MatrixCell.causes x ↔ ∃ c s, concerns sites changes (MatrixCell.consumer x) c s ∧ t = cause_of c;
  row_sites : ∀ l, l ∈ MatrixCell.call_sites x ↔ ∃ c s, concerns sites changes (MatrixCell.consumer x) c s ∧ l = CallSite.location s;
}.

Lemma of_consumer_true c s : of_consumer c s = true ↔ CallSite.consumer s = c.
Proof. apply String.eqb_eq. Qed.

Lemma hits_consumer sites c ch :
  hits (List.filter (of_consumer c) sites) ch = true
  ↔ ∃ s, s ∈ sites ∧ CallSite.consumer s = c ∧ CallSite.touches s (BreakingChange.api ch) = true.
Proof.
  unfold hits. rewrite existsb_exists. setoid_rewrite <- list_elem_of_In. setoid_rewrite elem_of_lfilter.
  setoid_rewrite of_consumer_true. naive_solver.
Qed.

Lemma judge_row dep sites changes c : row_of sites changes (judge dep changes (c, List.filter (of_consumer c) sites)).
Proof.
  unfold judge. destruct (judge_changes (List.filter (of_consumer c) sites) changes [] [] false) as (ev & E & _ & Hev); [constructor|].
  rewrite orb_false_r in E. destruct (foldl _ _ changes) as [[causes ev'] fatal] eqn:E'.
  injection E as -> -> ->. clear E'. cbn [app fst].
  assert (∀ t, t ∈ cause_of <$> List.filter (hits (List.filter (of_consumer c) sites)) changes
    ↔ ∃ ch s, concerns sites changes c ch s ∧ t = cause_of ch) as Hc.
  { intros t. rewrite list_elem_of_fmap. setoid_rewrite elem_of_lfilter. setoid_rewrite hits_consumer. unfold concerns. naive_solver. }
  assert (existsb (λ ch, hits (List.filter (of_consumer c) sites) ch && BreakingChange.is_fatal ch) changes = true ↔ breaks sites changes c) as Hb.
  { rewrite existsb_exists. setoid_rewrite <- list_elem_of_In. setoid_rewrite andb_true_iff. setoid_rewrite hits_consumer.
    unfold breaks, concerns. naive_solver. }
  split; cbn [MatrixCell.status MatrixCell.consumer MatrixCell.causes MatrixCell.call_sites].
  - rewrite <- Hb. destruct (existsb _ changes); [done|]. by case_bool_decide.
  - destruct (existsb _ changes) eqn:E.
    + destruct Hb as [Hb _]. destruct (Hb eq_refl) as (ch & s & Hcs & _). split; [done|]. intros Hn. by destruct (Hn ch s).
    + case_bool_decide as Hn; split; try done.
      * intros _ ch s Hcs. assert (cause_of ch ∈ cause_of <$> List.filter (hits (List.filter (of_consumer c) sites)) changes) as Hin
          by (apply Hc; eauto). rewrite Hn in Hin. by apply not_elem_of_nil in Hin.
      * intros Hx. exfalso. apply Hn. destruct (cause_of <$> _) as [|t l] eqn:El; [done|].
        destruct (proj1 (Hc t)) as (ch & s & Hcs & _); [left|]. by destruct (Hx ch s).
  - exact Hc.
  - intros l. rewrite Hev. setoid_rewrite elem_of_lfilter. setoid_rewrite of_consumer_true. unfold concerns. set_solver.
Qed.

Lemma elem_of_construct dep sites changes x :
  x ∈ construct dep sites changes ↔ ∃ c, List.filter (of_consumer c) sites ≠ [] ∧ x = judge dep changes (c, List.filter (of_consumer c) sites).
Proof.
  unfold construct. rewrite list_elem_of_fmap. split.
  - intros ([c l] & -> & [-> Hne]%(elem_of_groups _ sites)); [|apply push_sites_groups]. eauto.
  - intros (c & Hne & ->). eexists. split; [done|]. by apply (elem_of_groups _ sites); [apply push_sites_groups|].
Qed.

Lemma judge_consumer dep changes e : MatrixCell.consumer (judge dep changes e) = e.1.
Proof. unfold judge. by destruct (foldl _ _ changes) as [[? ?] ?]. Qed.

Lemma construct_rows dep sites changes x : x ∈ construct dep sites changes → row_of sites changes x.
Proof. intros (c & _ & ->)%elem_of_construct. apply judge_row. Qed.

Lemma construct_NoDup dep sites changes : NoDup (MatrixCell.consumer <$> construct dep sites changes).
Proof.
  unfold construct. rewrite <- list_fmap_compose. erewrite list_fmap_ext; [apply BTreeMap.sorted_NoDup, push_sites_groups|].
  intros i x _. simpl. apply judge_consumer.
Qed.

(** Every consumer with a site has its row. *)
Lemma construct_complete dep sites changes s :
  s ∈ sites → ∃ x, x ∈ construct dep sites changes ∧ MatrixCell.consumer x = CallSite.consumer s.
Proof.
  intros Hs. eexists. split; [apply elem_of_construct; exists (CallSite.consumer s); split; [|done]|apply judge_consumer].
  intros Hn. assert (s ∈ List.filter (of_consumer (CallSite.consumer s)) sites) as Hin
    by (apply elem_of_lfilter; by rewrite of_consumer_true). rewrite Hn in Hin. by apply not_elem_of_nil in Hin.
Qed.

Lemma elem_of_blocked dep sites changes c :
  c ∈ MatrixCell.consumer <$> blocked_consumers (construct dep sites changes) ↔ breaks sites changes c.
Proof.
  unfold blocked_consumers, with_status. rewrite list_elem_of_fmap. setoid_rewrite elem_of_lfilter. split.
  - intros (x & -> & Hx & Hst%bool_decide_eq_true_1). by apply (row_status _ _ _ (construct_rows _ _ _ _ Hx)).
  - intros Hb. destruct Hb as (ch & s & Hcs & Hf). pose proof Hcs as (Hch & Hs & Hc & Ht).
    destruct (construct_complete dep sites changes s Hs) as (x & Hx & Hxc). exists x. split; [congruence|]. split; [done|].
    apply bool_decide_eq_true_2, (row_status _ _ _ (construct_rows _ _ _ _ Hx)). exists ch, s. rewrite Hxc, Hc. done.
Qed.

Lemma NoDup_blocked dep sites changes : NoDup (MatrixCell.consumer <$> blocked_consumers (construct dep sites changes)).
Proof.
  eapply sublist_NoDup; [apply (construct_NoDup dep sites changes)|]. apply fmap_sublist.
  unfold blocked_consumers, with_status. generalize (construct dep sites changes). intros l. induction l as [|x l IH]; simpl; [done|].
  destruct (bool_decide _); by constructor.
Qed.

(** ** The verdict *)

(** What an upgrade must satisfy. *)
Record admissible (enforce : bool) (p : proposal) (elapsed : Duration) : Prop := {
  adm_major : (SemVer.major (DependencyRef.to (UpgradeProposal.dependency p))
                 <= SemVer.major (DependencyRef.from (UpgradeProposal.dependency p)))%Z;
  adm_newer : SemVer.cmp (DependencyRef.to (UpgradeProposal.dependency p)) (DependencyRef.from (UpgradeProposal.dependency p)) = Gt;
  adm_sites : UpgradeProposal.call_sites p ≠ [];
  adm_budget : enforce = true → (elapsed <= SUITE_GENERATION_BUDGET)%Z;
  adm_unbroken : ∀ c s, c ∈ UpgradeProposal.breaking_changes p → s ∈ UpgradeProposal.call_sites p →
                 BreakingChange.is_fatal c = true → CallSite.touches s (BreakingChange.api c) = false;
}.

Lemma if_nil {A} (b : bool) (x : A) : (if b then [x] else []) = [] ↔ b = false.
Proof. by destruct b. Qed.

Lemma if_not_nil {A} (b : bool) (x : A) : (if b then [] else [x]) = [] ↔ b = true.
Proof. by destruct b. Qed.

Lemma fmap_is_nil {A B} (f : A → B) l : f <$> l = [] ↔ l = [].
Proof. by destruct l. Qed.

Lemma unbroken_alt dep sites changes :
  blocked_consumers (construct dep sites changes) = []
  ↔ ∀ c s, c ∈ changes → s ∈ sites → BreakingChange.is_fatal c = true → CallSite.touches s (BreakingChange.api c) = false.
Proof.
  split.
  - intros Hn c s Hc Hs Hf. apply not_true_iff_false. intros Ht.
    assert (breaks sites changes (CallSite.consumer s)) as Hb by (exists c, s; unfold concerns; done).
    apply (elem_of_blocked dep) in Hb. rewrite Hn in Hb. by apply not_elem_of_nil in Hb.
  - intros Hu. destruct (blocked_consumers _) as [|x l] eqn:E; [done|].
    assert (breaks sites changes (MatrixCell.consumer x)) as (c & s & (Hc & Hs & _ & Ht) & Hf)
      by (apply (elem_of_blocked dep); rewrite E; left).
    by rewrite (Hu c s Hc Hs Hf) in Ht.
Qed.

Lemma reasons_nil enforce p elapsed :
  reasons_of enforce p (generate (UpgradeProposal.call_sites p) elapsed)
    (construct (DependencyRef.name (UpgradeProposal.dependency p)) (UpgradeProposal.call_sites p) (UpgradeProposal.breaking_changes p)) = []
  ↔ admissible enforce p elapsed.
Proof.
  unfold reasons_of. rewrite !app_nil, !if_nil, if_not_nil, fmap_is_nil, unbroken_alt.
  unfold SemVer.is_major_bump_from, SemVer.is_upgrade_over, GeneratedSuite.within_budget, generate.
  rewrite bool_decide_eq_false, Z.ltb_ge, andb_false_iff, negb_false_iff. cbn [GeneratedSuite.generation_time]. rewrite Z.leb_le. split.
  - intros (Hm & Hn & Hs & Hb & Hu). split; [done| |done| |done].
    + by destruct (SemVer.cmp _ _).
    + intros ->. by destruct Hb.
  - intros [Hm Hn Hs Hb Hu]. split_and!; [done|by rewrite Hn|done| |done]. destruct enforce; auto.
Qed.

Lemma slice_digest {H : Sha} `{!ShaLaws H} s : ∃ t, slice_to 12 (sha256_hex s) = Some t.
Proof.
  unfold slice_to. pose proof (sha_length s) as Hl. pose proof (sha_hex s) as Hh.
  destruct (sha256_hex s) as [|c0 [|c1 [|c2 [|c3 [|c4 [|c5 [|c6 [|c7 [|c8 [|c9 [|c10 [|c11 [|c12 rest]]]]]]]]]]]]]; try done.
  cbn [String.get]. do 12 apply Forall_cons_1, proj2 in Hh. apply Forall_cons_1, proj1 in Hh.
  assert (is_continuation c12 = false) as ->; [|eauto]. unfold is_continuation, is_hex in *.
  rewrite orb_true_iff, !andb_true_iff, !Nat.leb_le in Hh. apply andb_false_iff. left. apply Nat.leb_gt. lia.
Qed.


(** ** The suite *)

(** The generated suite has a test for every API of every call site, one for each pair of a
    consumer and an API when no consumer has a colon in its name, and none but those: each test
    is the one of some call; the calls without a test of their own are counted; the consumers
    are those of the call sites, once each. *)
Theorem suite_covers_every_call sites elapsed :
  Forall (λ s, all_bytes (λ d, negb (Ascii.eqb d ":")) (CallSite.consumer s) = true) sites →
  let suite := generate sites elapsed in
  let pair_of t := (ContractTest.consumer t, ContractTest.api t) in
  NoDup (pair_of <$> GeneratedSuite.tests suite)
  ∧ (∀ c a, (c, a) ∈ pair_of <$> GeneratedSuite.tests suite
       ↔ ∃ s, s ∈ sites ∧ CallSite.consumer s = c ∧ a ∈ CallSite.apis s)
  ∧ (∀ t, t ∈ GeneratedSuite.tests suite → ∃ s a, s ∈ sites ∧ a ∈ CallSite.apis s ∧ t = test_for s a)
  ∧ (Z.of_nat (length (GeneratedSuite.tests suite)) + GeneratedSuite.deduplicated suite = Z.of_nat (length (calls sites)))%Z
  ∧ NoDup (GeneratedSuite.consumers suite)
  ∧ (∀ c, c ∈ GeneratedSuite.consumers suite ↔ c ∈ CallSite.consumer <$> sites).
Proof.
  intros Hplain suite pair_of. rewrite Forall_forall in Hplain.
  assert (generated [] {| g_seen := []; g_tests := []; g_consumers := []; g_dedup := 0 |}) as H0.
  { split; simpl; try done; [constructor|]. intros t. by rewrite elem_of_nil. }
  pose proof (generate_sites_generated [] _ sites H0) as [_ Hu Hk Hf Hc]. cbn [app] in *.
  set (g := foldl generate_site _ sites) in *. change (GeneratedSuite.tests suite) with (g_tests g).
  change (GeneratedSuite.deduplicated suite) with (g_dedup g). change (GeneratedSuite.consumers suite) with (BTreeSet.to_list (g_consumers g)).
  assert (∀ t, t ∈ g_tests g → ∃ s a, s ∈ sites ∧ a ∈ CallSite.apis s ∧ t = test_for s a) as Hf'.
  { intros t Ht. destruct (Hf t Ht) as ([s a] & [Hs Ha]%elem_of_calls & ->). by exists s, a. }
  assert (g_consumers g = fold_left (λ cs s, BTreeSet.insert (CallSite.consumer s) cs) sites []) as Hcs by apply generate_sites_consumers.
  split_and!; [| |exact Hf'|exact Hc| |].
  - apply (NoDup_fmap_1 (λ x : string * string, x.1 +:+ "::" +:+ x.2)). rewrite <- list_fmap_compose. exact Hu.
  - intros c a. split.
    + intros (t & [= -> ->] & (s & a' & Hs & Ha & ->)%Hf')%list_elem_of_fmap. by exists s.
    + intros (s & Hs & <- & Ha). assert (pair_key s a ∈ test_key <$> g_tests g) as Hin.
      { apply Hk. apply list_elem_of_fmap. exists (s, a). split; [done|]. by apply elem_of_calls. }
      apply list_elem_of_fmap in Hin as (t & Hkey & Ht). destruct (Hf' t Ht) as (s' & a' & Hs' & Ha' & ->).
      apply pair_key_inj in Hkey as [Ec Ea]; [|by apply Hplain..]. apply list_elem_of_fmap. exists (test_for s' a').
      split; [|done]. unfold pair_of. simpl in *. congruence.
  - rewrite Hcs. apply BTreeSet.NoDup_to_list, BTreeSet.fold_sorted. constructor.
  - intros c. rewrite Hcs, BTreeSet.elem_of_fold, list_elem_of_fmap. unfold BTreeSet.to_list. simpl. rewrite elem_of_nil. naive_solver.
Qed.

(** ** Versions *)

(** A version is read back from its text: for numbers of 64 bits and a visible pre-release
    identifier, parsing what is displayed gives the version, also after a [v] and surrounding
    blanks. *)
Theorem versions_are_read_back v :
  well_formed v → SemVer.parse (SemVer.show v) = Ok v ∧ SemVer.parse ("  v" +:+ SemVer.show v +:+ newline) = Ok v.
Proof.
  intros Hv. split; [by apply parse_show|]. by apply parse_show_padded.
Qed.

Definition release_of (v : SemVer.t) : SemVer.t :=
  {| SemVer.major := SemVer.major v; SemVer.minor := SemVer.minor v; SemVer.patch := SemVer.patch v; SemVer.pre := "" |}.

(** A release ranks below its own candidates: leaving a candidate for the release is blocked,
    and going back to a candidate counts as an upgrade. *)
Lemma releases_rank_below_candidates v :
  SemVer.pre v ≠ "" → SemVer.is_upgrade_over v (release_of v) = false ∧ SemVer.is_upgrade_over (release_of v) v = true.
Proof.
  intros Hp. unfold SemVer.is_upgrade_over, SemVer.cmp, release_of. simpl. rewrite !Z.compare_refl. simpl.
  by destruct (SemVer.pre v).
Qed.

Lemma leaving_a_candidate_is_blocked {H : Sha} `{!ShaLaws H} enforce p elapsed now :
  let d := UpgradeProposal.dependency p in
  SemVer.pre (DependencyRef.from d) ≠ "" → DependencyRef.to d = release_of (DependencyRef.from d) →
  ∃ r, validate enforce p elapsed now = Some r ∧ UpgradeReport.verdict r = Blocked.
Proof.
  intros d Hp Hto. unfold validate. fold d.
  assert (¬ admissible enforce p elapsed) as Hna.
  { intros [_ Hn _ _ _]. fold d in Hn. rewrite Hto in Hn. destruct (releases_rank_below_candidates (DependencyRef.from d) Hp) as [Hf _].
    unfold SemVer.is_upgrade_over in Hf. by rewrite Hn in Hf. }
  rewrite <- reasons_nil in Hna. destruct (reasons_of _ _ _ _); [done|]. eexists. split; reflexivity.
Qed.

(** ** The signature *)

Definition with_stamp (id : string) (now : DateTime) (a : Artifact.t) : Artifact.t :=
  {| Artifact.artifact_id := id; Artifact.pr_number := Artifact.pr_number a; Artifact.dependency := Artifact.dependency a;
     Artifact.kind := Artifact.kind a; Artifact.from := Artifact.from a; Artifact.to := Artifact.to a; Artifact.verdict := Artifact.verdict a;
     Artifact.suite_digest := Artifact.suite_digest a; Artifact.matrix_digest := Artifact.matrix_digest a;
     Artifact.generated_tests := Artifact.generated_tests a; Artifact.consumers := Artifact.consumers a;
     Artifact.generated_at := now; Artifact.signature := Artifact.signature a |}.
Definition with_request (pr : Z) (dep : string) (a : Artifact.t) : Artifact.t :=
  {| Artifact.artifact_id := Artifact.artifact_id a; Artifact.pr_number := pr; Artifact.dependency := dep;
     Artifact.kind := Artifact.kind a; Artifact.from := Artifact.from a; Artifact.to := Artifact.to a; Artifact.verdict := Artifact.verdict a;
     Artifact.suite_digest := Artifact.suite_digest a; Artifact.matrix_digest := Artifact.matrix_digest a;
     Artifact.generated_tests := Artifact.generated_tests a; Artifact.consumers := Artifact.consumers a;
     Artifact.generated_at := Artifact.generated_at a; Artifact.signature := Artifact.signature a |}.

(** The time and the identifier are not signed, and fields can be shifted into one another. *)
Lemma altered_artifacts_verify `{Sha} a id now dep :
  Artifact.verify a = true →
  Artifact.verify (with_stamp id now a) = true
  ∧ (Artifact.pr_number a = 15%Z → Artifact.dependency a = dep → Artifact.verify (with_request 1 ("5" +:+ dep) a) = true).
Proof.
  unfold Artifact.verify, Artifact.compute_signature. intros Hv. split; [exact Hv|]. intros Hp <-.
  assert (Artifact.text (with_request 1 ("5" +:+ Artifact.dependency a) a) = Artifact.text a) as ->; [|exact Hv].
  unfold Artifact.text. rewrite Hp. reflexivity.
Qed.

(** ** Concrete upgrades

    The trials of the tests of the source, the example of its documentation, and the theorems
    applied to them. *)

(** Sixty-four copies of a digit made from the length. *)
#[local] Instance sha : Sha := λ s,
  String.string_of_list_ascii (replicate 64 (ascii_of_nat (48 + String.length s mod 10))).

Lemma length_of_list l : String.length (String.string_of_list_ascii l) = length l.
Proof. induction l as [|c l IH]; simpl; congruence. Qed.

#[local] Instance sha_laws : ShaLaws sha.
Proof.
  split; intros s; unfold sha256_hex, sha.
  - by rewrite length_of_list, length_replicate.
  - rewrite String.list_ascii_of_string_of_list_ascii. apply Forall_replicate. unfold is_hex.
    assert (String.length s mod 10 < 10) as Hm by (apply Nat.mod_upper_bound; lia). revert Hm. generalize (String.length s mod 10).
    intros n Hn. do 10 (destruct n as [|n]; [done|]). lia.
Defined.

Definition v (s : string) : SemVer.t := match SemVer.parse s with Ok x => x | Err _ => SemVer.new 0 0 0 end.
Definition pr (n : Z) (name from to : string) (changes : list change) (sites : list site) : proposal :=
  {| UpgradeProposal.pr_number := n;
     UpgradeProposal.dependency := {| DependencyRef.name := name; DependencyRef.kind := Library; DependencyRef.from := v from; DependencyRef.to := v to |};
     UpgradeProposal.breaking_changes := changes; UpgradeProposal.call_sites := sites |}.

Definition pod_status : string := "k8s_openapi::api::core::v1::PodStatus".
Definition controller_sites : list site :=
  [Consumer.at_ "stellar-controller" "src/controller/resources.rs" 77 pod_status;
   Consumer.at_ "stellar-controller" "src/scheduler/constraints.rs" 45 "k8s_openapi::api::core::v1::Toleration";
   Consumer.at_ "stellar-operator" "src/main.rs" 62 "kube::Client";
   Consumer.at_ "stellar-operator" "src/main.rs" 99 "kube::Client"].
Definition trial : proposal := pr 2001 "k8s-openapi" "0.22.0" "0.22.1" [BreakingChange.removed_api pod_status] controller_sites.

Example versions_parse :
  SemVer.parse "v0.22.0" = Ok (SemVer.new 0 22 0)
  ∧ SemVer.parse "1.0.0-rc.1" = Ok {| SemVer.major := 1; SemVer.minor := 0; SemVer.patch := 0; SemVer.pre := "rc.1" |}
  ∧ SemVer.parse "not-a-version" = Err "not-a-version" ∧ SemVer.parse "1.2" = Err "1.2" ∧ SemVer.parse "1.2.3.4" = Err "1.2.3.4".
Proof. vm_compute. split_and!; reflexivity. Qed.

Example trial_is_blocked :
  (λ r, (UpgradeReport.verdict r, UpgradeReport.attribution r, UpgradeReport.artifact r)) <$> validate true trial 0 0
    = Some (Blocked, [{| ConsumerAttribution.consumer := "stellar-controller"; ConsumerAttribution.reasons := ["removed_api: " +:+ pod_status];
                         ConsumerAttribution.call_sites := ["src/controller/resources.rs:77"] |}], None).
Proof. vm_compute. reflexivity. Qed.

(** The proposal of the documentation, said to be blocked: its call site touches no API. *)
Example documented_example_is_approved :
  UpgradeReport.verdict <$> validate true
    (pr 0 "k8s-openapi" "0.21.0" "0.23.0" [BreakingChange.removed_api "k8s_openapi::api::core::v1::Pod::status"]
        [CallSite.new "stellar-operator" "src/controller/reconcile.rs" 412]) 0 0 = Some Approved.
Proof. vm_compute. reflexivity. Qed.

(** [known_consumers] of a dependency compares it with the names of consumers. *)
Example no_known_consumers_of_kube :
  Consumer.known_consumers "kube" = [] ∧ length (Consumer.known_consumers "stellar-controller") = 1.
Proof. vm_compute. split; reflexivity. Qed.

(** A symbol is reached by a change of another one whose name it continues. *)
Example names_that_continue : CallSite.touches (Consumer.at_ "c" "f" 1 "kube::Client2") "kube::Client" = true.
Proof. reflexivity. Qed.


Lemma suite_covers_witness :
  let suite := generate controller_sites 0 in
  let pair_of t := (ContractTest.consumer t, ContractTest.api t) in
  NoDup (pair_of <$> GeneratedSuite.tests suite)
  ∧ (∀ c a, (c, a) ∈ pair_of <$> GeneratedSuite.tests suite
       ↔ ∃ s, s ∈ controller_sites ∧ CallSite.consumer s = c ∧ a ∈ CallSite.apis s)
  ∧ (∀ t, t ∈ GeneratedSuite.tests suite → ∃ s a, s ∈ controller_sites ∧ a ∈ CallSite.apis s ∧ t = test_for s a)
  ∧ (Z.of_nat (length (GeneratedSuite.tests suite)) + GeneratedSuite.deduplicated suite = Z.of_nat (length (calls controller_sites)))%Z
  ∧ NoDup (GeneratedSuite.consumers suite)
  ∧ (∀ c, c ∈ GeneratedSuite.consumers suite ↔ c ∈ CallSite.consumer <$> controller_sites).
Proof. apply (suite_covers_every_call controller_sites 0). repeat constructor. Defined.

Definition candidate : SemVer.t := {| SemVer.major := 1; SemVer.minor := 20; SemVer.patch := 3; SemVer.pre := "rc.1-x" |}.

Lemma versions_witness :
  SemVer.parse (SemVer.show candidate) = Ok candidate ∧ SemVer.parse ("  v" +:+ SemVer.show candidate +:+ newline) = Ok candidate.
Proof. apply (versions_are_read_back candidate). unfold well_formed, in_u64. simpl. split_and!; try lia; reflexivity. Defined.
