(* ===== verification/Deploy.v ===== *)
(** * Deployment strategies

    [src/src/deployment_strategy.rs]: the controller that creates deployments, approves them,
    moves canary, rolling, blue-green and feature-flag rollouts forward, records metrics and
    rolls back what is unhealthy.  Calls on a state ([Contract]) with strings for errors.  The
    clock of the system is the class [UtcClock]; the order in which the map of deployments is
    iterated is the class [MapOrder]. *)

From stdpp Require Import prelude gmap list strings.
From Stdlib Require Import Ascii SpecFloat.
From S2P Require Import Prelude RustStr Float64 Contract.

(** [Utc::now()]: reading the clock may move it. *)
Class UtcClock (W : Type) : Type := utc_read : W → DateTime * W.

(** [timestamp()], whole seconds rounded down, and [timestamp_nanos_opt().unwrap_or(0)]. *)
Definition timestamp (t : DateTime) : Z := t / NANOS.
Definition timestamp_nanos (t : DateTime) : Z := if bool_decide (in_i64 t) then t else 0.

Definition as_u8 (z : Z) : Z := z mod 2 ^ 8.

(** ** Configuration *)

Inductive Strategy : Type := BlueGreen | Canary | Rolling | FeatureFlag | Recreate.
#[global] Instance Strategy_eq_dec : EqDecision Strategy.
Proof. solve_decision. Defined.
Definition debug_strategy (s : Strategy) : string :=
  match s with BlueGreen => "BlueGreen" | Canary => "Canary" | Rolling => "Rolling" | FeatureFlag => "FeatureFlag" | Recreate => "Recreate" end.

Inductive Health : Type := Healthy | Degraded | HFailed.
#[global] Instance Health_eq_dec : EqDecision Health.
Proof. solve_decision. Defined.

Module RollbackPolicy.
Record t : Type := {
  error_rate_threshold : f64; latency_p99_threshold_ms : Z; min_healthy_replicas : Z; failure_count_threshold : Z;
}.
Definition default : t :=
  {| error_rate_threshold := f64_lit 5 100; latency_p99_threshold_ms := 2000; min_healthy_replicas := 1; failure_count_threshold := 3 |}.
End RollbackPolicy.

Module FeatureFlagRollout.
Record t : Type := { flag_name : string; rollout_percent : Z; allowlist : list string }.
Definition set_percent (p : Z) (f : t) : t := {| flag_name := flag_name f; rollout_percent := p; allowlist := allowlist f |}.
End FeatureFlagRollout.

Module Config.
Record t : Type := {
  name : string; namespace : string; strategy : Strategy; image : string; target_replicas : Z;
  canary_initial_percent : Z; canary_step_percent : Z; rolling_max_unavailable : Z; rolling_max_surge : Z;
  rollback_policy : RollbackPolicy.t; feature_flags : list FeatureFlagRollout.t; require_approval : bool;
}.
Definition default : t :=
  {| name := "deployment"; namespace := "default"; strategy := Rolling; image := ""; target_replicas := 3;
     canary_initial_percent := 10; canary_step_percent := 10; rolling_max_unavailable := 1; rolling_max_surge := 1;
     rollback_policy := RollbackPolicy.default; feature_flags := []; require_approval := false |}.
Definition set_flags (l : list FeatureFlagRollout.t) (c : t) : t :=
  {| name := name c; namespace := namespace c; strategy := strategy c; image := image c; target_replicas := target_replicas c;
     canary_initial_percent := canary_initial_percent c; canary_step_percent := canary_step_percent c;
     rolling_max_unavailable := rolling_max_unavailable c; rolling_max_surge := rolling_max_surge c;
     rollback_policy := rollback_policy c; feature_flags := l; require_approval := require_approval c |}.
End Config.

(** ** Status *)

Inductive Phase : Type := Pending | WaitingApproval | InProgress | Paused | Succeeded | RollingBack | RolledBack | Failed.
#[global] Instance Phase_eq_dec : EqDecision Phase.
Proof. solve_decision. Defined.
Definition debug_phase (p : Phase) : string :=
  match p with
  | Pending => "Pending" | WaitingApproval => "WaitingApproval" | InProgress => "InProgress" | Paused => "Paused"
  | Succeeded => "Succeeded" | RollingBack => "RollingBack" | RolledBack => "RolledBack" | Failed => "Failed"
  end.

Module Status.
Record t : Type := {
  id : string; config : Config.t; phase : Phase; current_traffic_percent : Z; healthy_replicas : Z; total_replicas : Z;
  error_rate : f64; latency_p99_ms : Z; consecutive_failures : Z; created_at : Z; updated_at : Z; completed_at : option Z;
  rollback_reason : option string;
}.

Definition new (i : string) (c : Config.t) (now : DateTime) : t :=
  {| id := i; config := c; phase := Pending; current_traffic_percent := 0;
     healthy_replicas := Z.max (Config.target_replicas c) (RollbackPolicy.min_healthy_replicas (Config.rollback_policy c));
     total_replicas := Config.target_replicas c; error_rate := f64_zero; latency_p99_ms := 0; consecutive_failures := 0;
     created_at := timestamp now; updated_at := timestamp now; completed_at := None; rollback_reason := None |}.

(** The writes of the calls. *)
Definition set_phase (p : Phase) (d : t) : t :=
  {| id := id d; config := config d; phase := p; current_traffic_percent := current_traffic_percent d; healthy_replicas := healthy_replicas d;
     total_replicas := total_replicas d; error_rate := error_rate d; latency_p99_ms := latency_p99_ms d;
     consecutive_failures := consecutive_failures d; created_at := created_at d; updated_at := updated_at d;
     completed_at := completed_at d; rollback_reason := rollback_reason d |}.
Definition set_traffic (z : Z) (d : t) : t :=
  {| id := id d; config := config d; phase := phase d; current_traffic_percent := z; healthy_replicas := healthy_replicas d;
     total_replicas := total_replicas d; error_rate := error_rate d; latency_p99_ms := latency_p99_ms d;
     consecutive_failures := consecutive_failures d; created_at := created_at d; updated_at := updated_at d;
     completed_at := completed_at d; rollback_reason := rollback_reason d |}.
Definition set_replicas (healthy total : Z) (d : t) : t :=
  {| id := id d; config := config d; phase := phase d; current_traffic_percent := current_traffic_percent d; healthy_replicas := healthy;
     total_replicas := total; error_rate := error_rate d; latency_p99_ms := latency_p99_ms d;
     consecutive_failures := consecutive_failures d; created_at := created_at d; updated_at := updated_at d;
     completed_at := completed_at d; rollback_reason := rollback_reason d |}.
Definition set_metrics (rate : f64) (latency healthy : Z) (d : t) : t :=
  {| id := id d; config := config d; phase := phase d; current_traffic_percent := current_traffic_percent d; healthy_replicas := healthy;
     total_replicas := total_replicas d; error_rate := rate; latency_p99_ms := latency;
     consecutive_failures := consecutive_failures d; created_at := created_at d; updated_at := updated_at d;
     completed_at := completed_at d; rollback_reason := rollback_reason d |}.
Definition set_failures (n : Z) (d : t) : t :=
  {| id := id d; config := config d; phase := phase d; current_traffic_percent := current_traffic_percent d; healthy_replicas := healthy_replicas d;
     total_replicas := total_replicas d; error_rate := error_rate d; latency_p99_ms := latency_p99_ms d;
     consecutive_failures := n; created_at := created_at d; updated_at := updated_at d;
     completed_at := completed_at d; rollback_reason := rollback_reason d |}.
Definition set_config (c : Config.t) (d : t) : t :=
  {| id := id d; config := c; phase := phase d; current_traffic_percent := current_traffic_percent d; healthy_replicas := healthy_replicas d;
     total_replicas := total_replicas d; error_rate := error_rate d; latency_p99_ms := latency_p99_ms d;
     consecutive_failures := consecutive_failures d; created_at := created_at d; updated_at := updated_at d;
     completed_at := completed_at d; rollback_reason := rollback_reason d |}.
Definition touch (now : DateTime) (d : t) : t :=
  {| id := id d; config := config d; phase := phase d; current_traffic_percent := current_traffic_percent d; healthy_replicas := healthy_replicas d;
     total_replicas := total_replicas d; error_rate := error_rate d; latency_p99_ms := latency_p99_ms d;
     consecutive_failures := consecutive_failures d; created_at := created_at d; updated_at := timestamp now;
     completed_at := completed_at d; rollback_reason := rollback_reason d |}.
Definition set_completed (now : DateTime) (d : t) : t :=
  {| id := id d; config := config d; phase := phase d; current_traffic_percent := current_traffic_percent d; healthy_replicas := healthy_replicas d;
     total_replicas := total_replicas d; error_rate := error_rate d; latency_p99_ms := latency_p99_ms d;
     consecutive_failures := consecutive_failures d; created_at := created_at d; updated_at := updated_at d;
     completed_at := Some (timestamp now); rollback_reason := rollback_reason d |}.
Definition set_reason (r : string) (d : t) : t :=
  {| id := id d; config := config d; phase := phase d; current_traffic_percent := current_traffic_percent d; healthy_replicas := healthy_replicas d;
     total_replicas := total_replicas d; error_rate := error_rate d; latency_p99_ms := latency_p99_ms d;
     consecutive_failures := consecutive_failures d; created_at := created_at d; updated_at := updated_at d;
     completed_at := completed_at d; rollback_reason := Some r |}.

Definition health (d : t) : Health :=
  let policy := Config.rollback_policy (config d) in
  if f64_ge (error_rate d) (RollbackPolicy.error_rate_threshold policy)
     || (RollbackPolicy.latency_p99_threshold_ms policy <=? latency_p99_ms d)%Z
     || (healthy_replicas d <? RollbackPolicy.min_healthy_replicas policy)%Z
  then HFailed
  else if f64_ge (error_rate d) (f64_div (RollbackPolicy.error_rate_threshold policy) (f64_of_Z 2)) then Degraded
  else Healthy.

Definition should_rollback (d : t) : bool :=
  (RollbackPolicy.failure_count_threshold (Config.rollback_policy (config d)) <=? consecutive_failures d)%Z
  || bool_decide (health d = HFailed).
End Status.
Abbreviation status := Status.t.

Module Event.
Record t : Type := { deployment_id : string; at_ : Z; event_type : string; actor : string; details : string }.
Definition new (i ty a d : string) (now : DateTime) : t :=
  {| deployment_id := i; at_ := timestamp now; event_type := ty; actor := a; details := d |}.
End Event.

Module Analytics.
Record t : Type := {
  total_deployments : Z; successful_deployments : Z; rolled_back_deployments : Z; failed_deployments : Z;
  avg_duration_secs : f64; by_strategy : gmap string Z;
}.
Definition empty : t :=
  {| total_deployments := 0; successful_deployments := 0; rolled_back_deployments := 0; failed_deployments := 0;
     avg_duration_secs := f64_zero; by_strategy := ∅ |}.
Definition count_created (s : Strategy) (a : t) : t :=
  {| total_deployments := as_u64 (total_deployments a + 1); successful_deployments := successful_deployments a;
     rolled_back_deployments := rolled_back_deployments a; failed_deployments := failed_deployments a; avg_duration_secs := avg_duration_secs a;
     by_strategy := <[debug_strategy s := as_u64 (default 0%Z (by_strategy a !! debug_strategy s) + 1)]> (by_strategy a) |}.
Definition count_success (a : t) : t :=
  {| total_deployments := total_deployments a; successful_deployments := as_u64 (successful_deployments a + 1);
     rolled_back_deployments := rolled_back_deployments a; failed_deployments := failed_deployments a; avg_duration_secs := avg_duration_secs a;
     by_strategy := by_strategy a |}.
Definition count_rollback (a : t) : t :=
  {| total_deployments := total_deployments a; successful_deployments := successful_deployments a;
     rolled_back_deployments := as_u64 (rolled_back_deployments a + 1); failed_deployments := failed_deployments a; avg_duration_secs := avg_duration_secs a;
     by_strategy := by_strategy a |}.
End Analytics.

(** ** The controller *)

Record controller (W : Type) : Type := {
  deployments : gmap string status;
  history : list status;
  audit_log : list Event.t;
  analytics : Analytics.t;
  clock : W;
}.
Arguments deployments {W} _.
Arguments history {W} _.
Arguments audit_log {W} _.
Arguments analytics {W} _.
Arguments clock {W} _.

Section controller.
Context {W : Type} `{!UtcClock W} `{!MapOrder string}.
Abbreviation step := (call (controller W) string).
Implicit Types (c : controller W).

Definition new (w : W) : controller W :=
  {| deployments := ∅; history := []; audit_log := []; analytics := Analytics.empty; clock := w |}.

Definition set_clock (w : W) c : controller W :=
  {| deployments := deployments c; history := history c; audit_log := audit_log c; analytics := analytics c; clock := w |}.
Definition set_deployments (m : gmap string status) c : controller W :=
  {| deployments := m; history := history c; audit_log := audit_log c; analytics := analytics c; clock := clock c |}.
Definition push_event (e : Event.t) c : controller W :=
  {| deployments := deployments c; history := history c; audit_log := audit_log c ++ [e]; analytics := analytics c; clock := clock c |}.
Definition set_analytics (f : Analytics.t → Analytics.t) c : controller W :=
  {| deployments := deployments c; history := history c; audit_log := audit_log c; analytics := f (analytics c); clock := clock c |}.

Definition utc_now : step DateTime := λ c, let '(t, w) := utc_read (clock c) in Returned t (set_clock w c).
(** Writes through the reference to a deployment, which is there. *)
Definition write (i : string) (f : status → status) : step unit := modify (λ c, set_deployments (alter f i (deployments c)) c).
Definition touch (i : string) : step unit := t ← utc_now; write i (Status.touch t).
Definition complete (i : string) : step unit := t ← utc_now; write i (Status.set_completed t).
Definition audit (i ty a d : string) : step unit := t ← utc_now; modify (push_event (Event.new i ty a d t)).
Definition find (i : string) : step (option status) := c ← get; mret (deployments c !! i).
Definition lookup_or_fail (i : string) : step status :=
  o ← find i; ok_or o ("Deployment '" +:+ i +:+ "' not found").

Definition create (cfg : Config.t) : step string :=
  t ← utc_now;
  let i := Config.name cfg +:+ "-" +:+ show_Z (timestamp_nanos t) in
  now ← utc_now;
  let d := Status.new i cfg now in
  let d := if Config.require_approval cfg then Status.set_phase WaitingApproval d else d in
  audit i "created" "system" ("Strategy: " +:+ debug_strategy (Config.strategy cfg) +:+ ", image: " +:+ Config.image cfg);;
  modify (set_analytics (Analytics.count_created (Config.strategy cfg)));;
  modify (λ c, set_deployments (<[i := d]> (deployments c)) c);;
  mret i.

Definition approve (i approver : string) : step bool :=
  o ← find i;
  match o with
  | Some d =>
      if bool_decide (Status.phase d = WaitingApproval) then
        write i (Status.set_phase InProgress);;
        touch i;;
        audit i "approved" approver "Deployment approved";;
        mret true
      else mret false
  | None => mret false
  end.

Definition succeed (i : string) : step unit :=
  write i (Status.set_phase Succeeded);;
  complete i;;
  modify (set_analytics Analytics.count_success).

Definition advance_canary (i : string) : step Z :=
  d ← lookup_or_fail i;
  reject_if (negb (bool_decide (Config.strategy (Status.config d) = Canary))) "Not a canary deployment";;
  reject_if (negb (bool_decide (Status.phase d = InProgress))) ("Deployment is in phase " +:+ debug_phase (Status.phase d));;
  reject_if (Status.should_rollback d) "Health check failed; rollback required";;
  let pct := Z.min (as_u8 (Status.current_traffic_percent d + Config.canary_step_percent (Status.config d))) 100 in
  write i (Status.set_traffic pct);;
  touch i;;
  (if (100 <=? pct)%Z then succeed i else mret tt);;
  audit i "canary_advanced" "system" ("Traffic: " +:+ show_Z pct +:+ "%");;
  mret pct.

Definition advance_rolling (i : string) : step Z :=
  d ← lookup_or_fail i;
  let cfg := Status.config d in
  reject_if (negb (bool_decide (Config.strategy cfg = Rolling))) "Not a rolling deployment";;
  reject_if (Status.should_rollback d) "Health check failed; rollback required";;
  let batch := Z.max (Config.rolling_max_surge cfg) 1 in
  let updated := Z.min (u32_add (Status.healthy_replicas d) batch) (Config.target_replicas cfg) in
  write i (Status.set_replicas updated (Config.target_replicas cfg));;
  touch i;;
  (if (Config.target_replicas cfg <=? updated)%Z then succeed i else mret tt);;
  audit i "rolling_step" "system" (show_Z updated +:+ "/" +:+ show_Z (Config.target_replicas cfg) +:+ " replicas updated");;
  mret updated.

Definition switch_blue_green (i : string) : step unit :=
  d ← lookup_or_fail i;
  reject_if (negb (bool_decide (Config.strategy (Status.config d) = BlueGreen))) "Not a blue-green deployment";;
  reject_if (Status.should_rollback d) "Health check failed; rollback required";;
  write i (Status.set_traffic 100);;
  write i (Status.set_phase Succeeded);;
  complete i;;
  touch i;;
  modify (set_analytics Analytics.count_success);;
  audit i "blue_green_switched" "system" "Traffic switched to green".

Definition update_feature_flag (i flag : string) (percent : Z) : step bool :=
  let named f := String.eqb (FeatureFlagRollout.flag_name f) flag in
  o ← find i;
  match o with
  | Some d =>
      let flags := Config.feature_flags (Status.config d) in
      match find_first named flags with
      | Some _ =>
          write i (Status.set_config (Config.set_flags (update_first named (FeatureFlagRollout.set_percent (Z.min percent 100)) flags) (Status.config d)));;
          touch i;;
          audit i "feature_flag_updated" "system" ("Flag '" +:+ flag +:+ "' set to " +:+ show_Z percent +:+ "%");;
          (if (100 <=? percent)%Z then succeed i else mret tt);;
          mret true
      | None => mret false
      end
  | None => mret false
  end.

Definition rollback (i reason : string) : step bool :=
  o ← find i;
  match o with
  | Some _ =>
      write i (Status.set_phase RolledBack);;
      write i (Status.set_traffic 0);;
      write i (Status.set_reason reason);;
      complete i;;
      touch i;;
      modify (set_analytics Analytics.count_rollback);;
      audit i "rolled_back" "system" reason;;
      mret true
  | None => mret false
  end.

(** One turn of the loop over the keys. *)
Definition reconcile_one (_ : unit) (i : string) : step unit :=
  o ← find i;
  match o with
  | Some d =>
      if bool_decide (Status.phase d = InProgress) && Status.should_rollback d
      then rollback i "Automated rollback: health check failed";; mret tt
      else mret tt
  | None => mret tt
  end.
Definition reconcile_health : step unit :=
  c ← get;
  for_in reconcile_one (fst <$> order_of (deployments c)) tt.

Definition update_metrics (i : string) (rate : f64) (latency healthy : Z) : step unit :=
  o ← find i;
  match o with
  | Some d =>
      let d := Status.set_metrics rate latency healthy d in
      write i (Status.set_metrics rate latency healthy);;
      write i (Status.set_failures (if bool_decide (Status.health d = HFailed) then as_u32 (Status.consecutive_failures d + 1) else 0));;
      touch i
  | None => mret tt
  end.

Definition list_active c : list status :=
  List.filter (λ d, negb (bool_decide (Status.phase d ∈ [Succeeded; RolledBack; Failed]))) (snd <$> order_of (deployments c)).
End controller.
