(* ===== verification/DeployFacts.v ===== *)
(** * A deployment on its own

    What every call does to one deployment, as a pure function of its status, and that the
    controller does this and nothing else: times apart, a deployment follows the calls that
    name it, whatever the clock, the other deployments and the order of the map. *)

From stdpp Require Import prelude gmap list strings.
From Stdlib Require Import Ascii SpecFloat.
From S2P Require Import Prelude RustStr Float64 Contract Deploy.

(** A call on the controller. *)
Inductive op : Type :=
| Create (cfg : Config.t)
| Approve (i approver : string)
| AdvanceCanary (i : string)
| AdvanceRolling (i : string)
| SwitchBlueGreen (i : string)
| UpdateFlag (i flag : string) (percent : Z)
| RollbackOp (i reason : string)
| Reconcile
| Metrics (i : string) (rate : f64) (latency healthy : Z).

(** ** What a call does to a deployment

    Auxiliary to the proofs: the effect of each call on a single status, without the times. *)

Definition succeeded (d : status) : status := Status.set_phase Succeeded d.
Definition rolled_back (reason : string) (d : status) : status :=
  Status.set_reason reason (Status.set_traffic 0 (Status.set_phase RolledBack d)).

Definition canary_percent (d : status) : Z :=
  Z.min (as_u8 (Status.current_traffic_percent d + Config.canary_step_percent (Status.config d))) 100.
Definition canary_step (d : status) : status :=
  let d' := Status.set_traffic (canary_percent d) d in
  if (100 <=? canary_percent d)%Z then succeeded d' else d'.
Definition canary_ready (d : status) : bool :=
  bool_decide (Config.strategy (Status.config d) = Canary) && bool_decide (Status.phase d = InProgress) && negb (Status.should_rollback d).

Definition rolling_replicas (d : status) : Z :=
  Z.min (u32_add (Status.healthy_replicas d) (Z.max (Config.rolling_max_surge (Status.config d)) 1)) (Config.target_replicas (Status.config d)).
Definition rolling_step (d : status) : status :=
  let target := Config.target_replicas (Status.config d) in
  let d' := Status.set_replicas (rolling_replicas d) target d in
  if (target <=? rolling_replicas d)%Z then succeeded d' else d'.
Definition rolling_ready (d : status) : bool :=
  bool_decide (Config.strategy (Status.config d) = Rolling) && negb (Status.should_rollback d).
Definition switch_ready (d : status) : bool :=
  bool_decide (Config.strategy (Status.config d) = BlueGreen) && negb (Status.should_rollback d).

Definition named (flag : string) (f : FeatureFlagRollout.t) : bool := String.eqb (FeatureFlagRollout.flag_name f) flag.
Definition flag_step (flag : string) (percent : Z) (d : status) : status :=
  let flags := Config.feature_flags (Status.config d) in
  match find_first (named flag) flags with
  | None => d
  | Some _ =>
      let d' := Status.set_config
        (Config.set_flags (update_first (named flag) (FeatureFlagRollout.set_percent (Z.min percent 100)) flags) (Status.config d)) d in
      if (100 <=? percent)%Z then succeeded d' else d'
  end.

Definition metrics_step (rate : f64) (latency healthy : Z) (d : status) : status :=
  let d := Status.set_metrics rate latency healthy d in
  Status.set_failures (if bool_decide (Status.health d = HFailed) then as_u32 (Status.consecutive_failures d + 1) else 0) d.

Definition AUTOMATED : string := "Automated rollback: health check failed".

(** What a call does to the deployment [i] with status [d]. *)
Definition step_of (i : string) (d : status) (o : op) : status :=
  match o with
  | Create _ => d
  | Approve j _ => if decide (j = i) then if bool_decide (Status.phase d = WaitingApproval) then Status.set_phase InProgress d else d else d
  | AdvanceCanary j => if decide (j = i) then if canary_ready d then canary_step d else d else d
  | AdvanceRolling j => if decide (j = i) then if rolling_ready d then rolling_step d else d else d
  | SwitchBlueGreen j => if decide (j = i) then if switch_ready d then succeeded (Status.set_traffic 100 d) else d else d
  | UpdateFlag j flag percent => if decide (j = i) then flag_step flag percent d else d
  | RollbackOp j reason => if decide (j = i) then rolled_back reason d else d
  | Reconcile => if bool_decide (Status.phase d = InProgress) && Status.should_rollback d then rolled_back AUTOMATED d else d
  | Metrics j rate latency healthy => if decide (j = i) then metrics_step rate latency healthy d else d
  end.

(** Everything of a status but the times of its last changes. *)
Definition core (d : status) :=
  (Status.id d, Status.config d, Status.phase d, Status.current_traffic_percent d, Status.healthy_replicas d, Status.total_replicas d,
   Status.error_rate d, Status.latency_p99_ms d, Status.consecutive_failures d, Status.created_at d, Status.rollback_reason d).

(** A step depends on the core only. *)
Lemma step_of_core i d d' o : core d = core d' → core (step_of i d o) = core (step_of i d' o).
Proof.
  destruct d, d'. unfold core. intros Hc. simplify_eq/=.
  destruct o; simpl; try done; repeat case_decide; try done;
    unfold canary_ready, canary_step, canary_percent, rolling_ready, rolling_step, rolling_replicas, switch_ready, flag_step,
      succeeded, rolled_back, metrics_step, Status.should_rollback, Status.health; simpl; repeat case_match; done.
Qed.

Lemma steps_of_core i h d d' : core d = core d' → core (foldl (step_of i) d h) = core (foldl (step_of i) d' h).
Proof. revert d d'. induction h as [|o h IH]; intros d d' Hc; simpl; [done|]. by apply IH, step_of_core. Qed.

(** ** The calls *)

Section calls.
Context {W : Type} `{!UtcClock W} `{!MapOrder string}.
Implicit Types (c : controller W) (m : gmap string status) (X : string → controller W → Prop).

Lemma clock_ends (Q : DateTime → controller W → Prop) X c :
  (∀ t c', deployments c' = deployments c → Q t c') → ends utc_now Q X c.
Proof. intros HQ. unfold ends, utc_now. destruct (utc_read (clock c)). by apply HQ. Qed.

Lemma audit_ends i ty a s Q X c : (∀ c', deployments c' = deployments c → Q tt c') → ends (audit (W:=W) i ty a s) Q X c.
Proof. intros HQ. apply ends_then, clock_ends. intros t c' Hc. apply ends_modify. by apply HQ. Qed.

Lemma count_ends f Q X c : (∀ c', deployments c' = deployments c → Q tt c') → ends (modify (set_analytics (W:=W) f)) Q X c.
Proof. intros HQ. apply ends_modify. by apply HQ. Qed.

(** The deployment [i] of the map [m] has the core of [d]. *)
Definition has m i d c : Prop := ∃ d', deployments c = <[i := d']> m ∧ core d' = core d.

Lemma has_keep m i d c c' : deployments c' = deployments c → has m i d c → has m i d c'.
Proof. intros Hd (d' & Hc & Hk). exists d'. by rewrite Hd. Qed.

Lemma write_ends m i d f g Q X c :
  has m i d c → (∀ d', core d' = core d → core (f d') = core g) → (∀ c', has m i g c' → Q tt c') → ends (write (W:=W) i f) Q X c.
Proof.
  intros (d' & Hc & Hk) Hf HQ. apply ends_modify, HQ. exists (f d'). split; [|by apply Hf]. simpl. rewrite Hc.
  by rewrite alter_insert_eq.
Qed.

Lemma touch_ends m i d Q X c : has m i d c → (∀ c', has m i d c' → Q tt c') → ends (touch (W:=W) i) Q X c.
Proof.
  intros Hh HQ. apply ends_then, clock_ends. intros t c' Hc. eapply write_ends; [by eapply has_keep| |exact HQ]. by intros d' Hk.
Qed.

Lemma complete_ends m i d Q X c : has m i d c → (∀ c', has m i d c' → Q tt c') → ends (complete (W:=W) i) Q X c.
Proof.
  intros Hh HQ. apply ends_then, clock_ends. intros t c' Hc. eapply write_ends; [by eapply has_keep| |exact HQ]. by intros d' Hk.
Qed.

Lemma core_phase p d d' : core d = core d' → core (Status.set_phase p d) = core (Status.set_phase p d').
Proof. destruct d, d'. unfold core. simpl. intros. by simplify_eq/=. Qed.

Lemma core_traffic z d d' : core d = core d' → core (Status.set_traffic z d) = core (Status.set_traffic z d').
Proof. destruct d, d'. unfold core. simpl. intros. by simplify_eq/=. Qed.

Lemma core_replicas a b d d' : core d = core d' → core (Status.set_replicas a b d) = core (Status.set_replicas a b d').
Proof. destruct d, d'. unfold core. simpl. intros. by simplify_eq/=. Qed.

Lemma core_reason r d d' : core d = core d' → core (Status.set_reason r d) = core (Status.set_reason r d').
Proof. destruct d, d'. unfold core. simpl. intros. by simplify_eq/=. Qed.

Lemma core_config k d d' : core d = core d' → core (Status.set_config k d) = core (Status.set_config k d').
Proof. destruct d, d'. unfold core. simpl. intros. by simplify_eq/=. Qed.

Lemma core_metrics a b e d d' : core d = core d' → core (Status.set_metrics a b e d) = core (Status.set_metrics a b e d').
Proof. destruct d, d'. unfold core. simpl. intros. by simplify_eq/=. Qed.

Lemma core_failures n d d' : core d = core d' → core (Status.set_failures n d) = core (Status.set_failures n d').
Proof. destruct d, d'. unfold core. simpl. intros. by simplify_eq/=. Qed.

Lemma succeed_ends m i d Q X c : has m i d c → (∀ c', has m i (succeeded d) c' → Q tt c') → ends (succeed (W:=W) i) Q X c.
Proof.
  intros Hh HQ. unfold succeed. apply ends_then. eapply write_ends; [exact Hh|by intros; apply core_phase|]. intros c1 H1.
  apply ends_then. eapply complete_ends; [exact H1|]. intros c2 H2. apply count_ends. intros c3 H3. apply HQ. by eapply has_keep.
Qed.

Lemma find_ends i Q X c : Q (deployments c !! i) c → ends (find (W:=W) i) Q X c.
Proof. intros HQ. apply ends_then, ends_get. by apply ends_ret. Qed.

Lemma has_self m i d c : deployments c = m → m !! i = Some d → has m i d c.
Proof. intros Hc Hd. exists d. by rewrite Hc, insert_id. Qed.

(** A call does to every deployment what the reference says, and makes none. *)
Definition effect (o : op) c c' : Prop :=
  ∀ i, match deployments c !! i with
       | Some d => ∃ d', deployments c' !! i = Some d' ∧ core d' = core (step_of i d o)
       | None => deployments c' !! i = None
       end.

(** The deployment a call names. *)
Definition names (o : op) (i : string) : Prop :=
  match o with
  | Approve j _ | AdvanceCanary j | AdvanceRolling j | SwitchBlueGreen j | UpdateFlag j _ _ | RollbackOp j _ | Metrics j _ _ _ => j = i
  | Create _ | Reconcile => False
  end.

Lemma step_of_other o i j d : names o j → i ≠ j → step_of i d o = d.
Proof. destruct o; simpl; try done; intros <- Hne; by rewrite decide_False by congruence. Qed.

Lemma effect_at o j d c c' :
  names o j → deployments c !! j = Some d → has (deployments c) j (step_of j d o) c' → effect o c c'.
Proof.
  intros Hn Hd (d' & Hc & Hk) i. rewrite Hc. destruct (decide (i = j)) as [->|Hne].
  - rewrite Hd, lookup_insert_eq. eauto.
  - rewrite lookup_insert_ne by done. destruct (deployments c !! i) as [d0|] eqn:E; [|done].
    exists d0. by rewrite (step_of_other o i j).
Qed.

Lemma effect_none o j c : names o j → deployments c !! j = None → effect o c c.
Proof.
  intros Hn Hd i. destruct (deployments c !! i) as [d0|] eqn:E; [|done]. exists d0. split; [done|].
  rewrite (step_of_other o i j); [done..|]. congruence.
Qed.

Lemma effect_idle o j d c : names o j → deployments c !! j = Some d → step_of j d o = d → effect o c c.
Proof. intros Hn Hd Hs. eapply effect_at; [done..|]. rewrite Hs. by apply has_self. Qed.

Definition ends_in {A} (P : controller W → Prop) (m : call (controller W) string A) c : Prop := ends m (λ _, P) (λ _, P) c.

Lemma approve_effect i a c : ends_in (effect (Approve i a) c) (approve i a) c.
Proof.
  apply ends_then, find_ends. destruct (deployments c !! i) as [d|] eqn:Hd; [|by apply ends_ret, (effect_none _ i)].
  case_bool_decide as Hp.
  - apply ends_then. eapply write_ends; [by apply has_self|by intros; apply core_phase|]. intros c1 H1.
    apply ends_then. eapply touch_ends; [exact H1|]. intros c2 H2. apply ends_then, audit_ends. intros c3 H3. apply ends_ret.
    eapply effect_at; [done|exact Hd|]. simpl. rewrite decide_True, bool_decide_true by done. by eapply has_keep.
  - apply ends_ret. eapply effect_idle; [done|exact Hd|]. simpl. by rewrite decide_True, bool_decide_false.
Qed.

Lemma lookup_ends i Q X c :
  (∀ d, deployments c !! i = Some d → Q d c) → (deployments c !! i = None → X ("Deployment '" +:+ i +:+ "' not found") c) →
  ends (lookup_or_fail (W:=W) i) Q X c.
Proof. intros HQ HX. apply ends_then, find_ends, ends_ok_or; auto. Qed.

Lemma advance_canary_effect i c : ends_in (effect (AdvanceCanary i) c) (advance_canary i) c.
Proof.
  apply ends_then, lookup_ends; [|by intros; apply (effect_none _ i)]. intros d Hd.
  assert (canary_ready d = false → effect (AdvanceCanary i) c c) as Hidle.
  { intros Hr. eapply effect_idle; [done|exact Hd|]. simpl. by rewrite decide_True, Hr. }
  unfold canary_ready in Hidle.
  apply ends_then, ends_reject_if; [intros H1%negb_true_iff; apply Hidle; by rewrite H1|intros H1%negb_false_iff].
  apply ends_then, ends_reject_if; [intros H2%negb_true_iff; apply Hidle; by rewrite H1, H2|intros H2%negb_false_iff].
  apply ends_then, ends_reject_if; [intros H3; apply Hidle; by rewrite H1, H2, H3|intros H3].
  apply ends_then. eapply write_ends; [by apply has_self|by intros; apply core_traffic|]. intros c1 H4.
  apply ends_then. eapply touch_ends; [exact H4|]. intros c2 H5. fold (canary_percent d) in H5 |- *.
  assert (∀ c3, has (deployments c) i (canary_step d) c3 → ends_in (effect (AdvanceCanary i) c)
    (audit i "canary_advanced" "system" ("Traffic: " +:+ show_Z (canary_percent d) +:+ "%");; mret (canary_percent d)) c3) as Hend.
  { intros c3 H6. apply ends_then, audit_ends. intros c4 H7. apply ends_ret. eapply effect_at; [done|exact Hd|]. simpl.
    rewrite decide_True by done. unfold canary_ready. rewrite H1, H2, H3. by eapply has_keep. }
  apply ends_then. unfold canary_step in Hend. destruct (100 <=? canary_percent d)%Z.
  - eapply succeed_ends; [exact H5|exact Hend].
  - by apply ends_ret, Hend.
Qed.

Lemma advance_rolling_effect i c : ends_in (effect (AdvanceRolling i) c) (advance_rolling i) c.
Proof.
  apply ends_then, lookup_ends; [|by intros; apply (effect_none _ i)]. intros d Hd.
  assert (rolling_ready d = false → effect (AdvanceRolling i) c c) as Hidle.
  { intros Hr. eapply effect_idle; [done|exact Hd|]. simpl. by rewrite decide_True, Hr. }
  unfold rolling_ready in Hidle.
  apply ends_then, ends_reject_if; [intros H1%negb_true_iff; apply Hidle; by rewrite H1|intros H1%negb_false_iff].
  apply ends_then, ends_reject_if; [intros H3; apply Hidle; by rewrite H1, H3|intros H3].
  apply ends_then. eapply write_ends; [by apply has_self|by intros; apply core_replicas|]. intros c1 H4.
  apply ends_then. eapply touch_ends; [exact H4|]. intros c2 H5. fold (rolling_replicas d) in H5 |- *.
  set (target := Config.target_replicas _) in *.
  assert (∀ c3, has (deployments c) i (rolling_step d) c3 → ends_in (effect (AdvanceRolling i) c)
    (audit i "rolling_step" "system" (show_Z (rolling_replicas d) +:+ "/" +:+ show_Z target +:+ " replicas updated");; mret (rolling_replicas d)) c3) as Hend.
  { intros c3 H6. apply ends_then, audit_ends. intros c4 H7. apply ends_ret. eapply effect_at; [done|exact Hd|]. simpl.
    rewrite decide_True by done. unfold rolling_ready. rewrite H1, H3. by eapply has_keep. }
  apply ends_then. unfold rolling_step in Hend. fold target in Hend. destruct (target <=? rolling_replicas d)%Z.
  - eapply succeed_ends; [exact H5|exact Hend].
  - by apply ends_ret, Hend.
Qed.

Lemma switch_effect i c : ends_in (effect (SwitchBlueGreen i) c) (switch_blue_green i) c.
Proof.
  apply ends_then, lookup_ends; [|by intros; apply (effect_none _ i)]. intros d Hd.
  assert (switch_ready d = false → effect (SwitchBlueGreen i) c c) as Hidle.
  { intros Hr. eapply effect_idle; [done|exact Hd|]. simpl. by rewrite decide_True, Hr. }
  unfold switch_ready in Hidle.
  apply ends_then, ends_reject_if; [intros H1%negb_true_iff; apply Hidle; by rewrite H1|intros H1%negb_false_iff].
  apply ends_then, ends_reject_if; [intros H3; apply Hidle; by rewrite H1, H3|intros H3].
  apply ends_then. eapply write_ends; [by apply has_self|by intros; apply core_traffic|]. intros c1 H4.
  apply ends_then. eapply write_ends; [exact H4|by intros; apply core_phase|]. intros c2 H5.
  apply ends_then. eapply complete_ends; [exact H5|]. intros c3 H6. apply ends_then. eapply touch_ends; [exact H6|]. intros c4 H7.
  apply ends_then, count_ends. intros c5 H8. apply audit_ends. intros c6 H9. eapply effect_at; [done|exact Hd|]. simpl.
  rewrite decide_True by done. unfold switch_ready. rewrite H1, H3. eapply has_keep; [exact H9|]. by eapply has_keep.
Qed.

Lemma update_flag_effect i flag percent c : ends_in (effect (UpdateFlag i flag percent) c) (update_feature_flag i flag percent) c.
Proof.
  apply ends_then, find_ends. destruct (deployments c !! i) as [d|] eqn:Hd; [|by apply ends_ret, (effect_none _ i)].
  cbv beta zeta. change (λ f, String.eqb (FeatureFlagRollout.flag_name f) flag) with (named flag). destruct (find_first (named flag) _) as [f|] eqn:Ef.
  2:{ apply ends_ret. eapply effect_idle; [done|exact Hd|]. simpl. rewrite decide_True by done. unfold flag_step. by rewrite Ef. }
  apply ends_then. eapply write_ends; [by apply has_self|by intros; apply core_config|]. intros c1 H1.
  apply ends_then. eapply touch_ends; [exact H1|]. intros c2 H2. apply ends_then, audit_ends. intros c3 H3.
  eapply has_keep in H2; [|exact H3].
  assert (∀ c4, has (deployments c) i (flag_step flag percent d) c4 → ends_in (effect (UpdateFlag i flag percent) c) (mret true) c4) as Hend.
  { intros c4 H4. apply ends_ret. eapply effect_at; [done|exact Hd|]. simpl. by rewrite decide_True. }
  unfold flag_step in Hend. rewrite Ef in Hend. apply ends_then. destruct (100 <=? percent)%Z.
  - eapply succeed_ends; [exact H2|exact Hend].
  - by apply ends_ret, Hend.
Qed.

Lemma rollback_has i reason m d c Q X :
  deployments c !! i = Some d → has m i d c → (∀ c', has m i (rolled_back reason d) c' → Q true c') → ends (rollback i reason) Q X c.
Proof.
  intros Hd Hh HQ. apply ends_then, find_ends. rewrite Hd.
  apply ends_then. eapply write_ends; [exact Hh|by intros; apply core_phase|]. intros c1 H1.
  apply ends_then. eapply write_ends; [exact H1|by intros; apply core_traffic|]. intros c2 H2.
  apply ends_then. eapply write_ends; [exact H2|by intros; apply core_reason|]. intros c3 H3.
  apply ends_then. eapply complete_ends; [exact H3|]. intros c4 H4. apply ends_then. eapply touch_ends; [exact H4|]. intros c5 H5.
  apply ends_then, count_ends. intros c6 H6. apply ends_then, audit_ends. intros c7 H7. apply ends_ret, HQ.
  eapply has_keep; [exact H7|]. by eapply has_keep.
Qed.

Lemma rollback_effect i reason c : ends_in (effect (RollbackOp i reason) c) (rollback i reason) c.
Proof.
  destruct (deployments c !! i) as [d|] eqn:Hd.
  - eapply rollback_has; [exact Hd|by apply has_self|]. intros c' H'. eapply effect_at; [done|exact Hd|]. simpl. by rewrite decide_True.
  - apply ends_then, find_ends. rewrite Hd. by apply ends_ret, (effect_none _ i).
Qed.

Lemma update_metrics_effect i rate latency healthy c :
  ends_in (effect (Metrics i rate latency healthy) c) (update_metrics i rate latency healthy) c.
Proof.
  apply ends_then, find_ends. destruct (deployments c !! i) as [d|] eqn:Hd; [|by apply ends_ret, (effect_none _ i)].
  apply ends_then. eapply write_ends; [by apply has_self|by intros; apply core_metrics|]. intros c1 H1.
  apply ends_then. eapply write_ends; [exact H1|by intros; apply core_failures|]. intros c2 H2.
  eapply touch_ends; [exact H2|]. intros c3 H3. eapply effect_at; [done|exact Hd|]. simpl. by rewrite decide_True.
Qed.

(** After the turns for other keys than those left, the deployments are where the reference
    takes them. *)
Definition reconciled m (left : list string) c : Prop :=
  ∀ i, match m !! i with
       | Some d => ∃ d', deployments c !! i = Some d' ∧ core d' = core (if decide (i ∈ left) then d else step_of i d Reconcile)
       | None => deployments c !! i = None
       end.

Lemma reconcile_one_ends m i left c :
  i ∉ left → reconciled m (i :: left) c → ends (reconcile_one tt i) (λ _, reconciled m left) (λ _ _, False) c.
Proof.
  intros Hni Hr. unfold reconcile_one. apply ends_then, find_ends.
  assert (∀ c', (∀ j, j ≠ i → deployments c' !! j = deployments c !! j) →
    match m !! i with
    | Some d => ∃ d', deployments c' !! i = Some d' ∧ core d' = core (step_of i d Reconcile)
    | None => deployments c' !! i = None
    end → reconciled m left c') as Hstep.
  { intros c' Ho Hi j. destruct (decide (j = i)) as [->|Hne].
    - destruct (m !! i); [|done]. by rewrite decide_False.
    - specialize (Hr j). rewrite Ho by done. destruct (m !! j) as [d|]; [|done].
      by rewrite (decide_ext (j ∈ left) (j ∈ i :: left)) by set_solver. }
  pose proof (Hr i) as Hi. destruct (m !! i) as [d|] eqn:Em.
  - rewrite decide_True in Hi by left. destruct Hi as (d' & Hd' & Hk). rewrite Hd'.
    pose proof (step_of_core i _ _ Reconcile Hk) as Hs. simpl in Hs. simpl in Hstep.
    destruct (bool_decide (Status.phase d' = InProgress) && Status.should_rollback d').
    + apply ends_then. eapply (rollback_has i _ (deployments c)); [exact Hd'|by apply has_self|].
      intros c' (d2 & Hc' & Hk2). apply ends_ret, Hstep.
      * intros j Hne. by rewrite Hc', lookup_insert_ne.
      * exists d2. rewrite Hc', lookup_insert_eq. split; [done|]. by rewrite <- Hs.
    + apply ends_ret, Hstep; [done|]. exists d'. split; [done|]. by rewrite <- Hs.
  - rewrite Hi. apply ends_ret, Hstep; done.
Qed.

Lemma reconcile_effect c : ends_in (effect Reconcile c) reconcile_health c.
Proof.
  unfold ends_in, reconcile_health. apply ends_then, ends_get.
  pose proof (order_of_perm _ (deployments c)) as Hp. assert (NoDup (order_of (deployments c)).*1) as Hnd
    by (rewrite Hp; apply NoDup_fst_map_to_list).
  assert (∀ i, is_Some (deployments c !! i) ↔ i ∈ (order_of (deployments c)).*1) as Hdom.
  { intros i. rewrite Hp, list_elem_of_fmap. split.
    - intros [d Hd]. exists (i, d). split; [done|]. by apply elem_of_map_to_list.
    - intros ([j d] & -> & Hd%elem_of_map_to_list). eauto. }
  eapply ends_weaken; [apply (ends_for_in _ (λ left _ c', NoDup left ∧ reconciled (deployments c) left c') (λ _ _, False))| |].
  - intros i left [] c' [Hl Hr]. inversion_clear Hl as [|? ? Hni Hl'].
    eapply ends_weaken; [by apply reconcile_one_ends|by intros; split|done].
  - split; [done|]. intros i. destruct (deployments c !! i) as [d|] eqn:E; [|done]. exists d.
    split; [done|]. rewrite decide_True; [done|]. apply Hdom. eauto.
  - intros [] c' [_ Hr] i. specialize (Hr i). destruct (deployments c !! i); [|done]. by rewrite decide_False in Hr by apply not_elem_of_nil.
  - done.
Qed.
End calls.
Create HintDb deploy.
#[export] Hint Resolve core_phase core_traffic core_replicas core_reason core_config core_metrics core_failures : deploy.
