(* ===== verification/DeployProps.v ===== *)
(** * Deployments over their life

    The theorems over any history of calls: deployments do not interfere, a canary that requires
    an approval passes its initial share only after it and in steps that never wrap, and a healthy
    canary completes.  Also what needs no approval although it asks for one. *)

From stdpp Require Import prelude gmap list strings.
From Stdlib Require Import Ascii SpecFloat.
From S2P Require Import Prelude RustStr Float64 Contract Deploy DeployFacts.

(** The status a deployment is created with. *)
Definition born (i : string) (cfg : Config.t) (now : DateTime) : status :=
  let d := Status.new i cfg now in
  if Config.require_approval cfg then Status.set_phase WaitingApproval d else d.

Section runs.
Context {W : Type} `{!UtcClock W} `{!MapOrder string}.
Implicit Types (c : controller W) (h : list op).

Definition call_of (o : op) : call (controller W) string unit :=
  match o with
  | Create cfg => create cfg;; mret tt
  | Approve i a => approve i a;; mret tt
  | AdvanceCanary i => advance_canary i;; mret tt
  | AdvanceRolling i => advance_rolling i;; mret tt
  | SwitchBlueGreen i => switch_blue_green i
  | UpdateFlag i flag percent => update_feature_flag i flag percent;; mret tt
  | RollbackOp i reason => rollback i reason;; mret tt
  | Reconcile => reconcile_health
  | Metrics i rate latency healthy => update_metrics i rate latency healthy
  end.

Definition run_op c (o : op) : controller W := default c (state_of (call_of o c)).
Definition run c h : controller W := foldl run_op c h.

(** The identifiers that the calls of a history create. *)
Definition created_by c (o : op) : list string :=
  match o with
  | Create cfg => match create cfg c with Returned i _ => [i] | _ => [] end
  | _ => []
  end.
Fixpoint created c h : list string :=
  match h with [] => [] | o :: h' => created_by c o ++ created (run_op c o) h' end.

Lemma create_ends cfg c :
  ends (create cfg) (λ i c', ∃ d now, deployments c' = <[i := d]> (deployments c) ∧ d = born i cfg now) (λ _ _, False) c.
Proof.
  unfold create. apply ends_then, clock_ends. intros t c1 H1. apply ends_then, clock_ends. intros now c2 H2.
  apply ends_then, audit_ends. intros c3 H3. apply ends_then, count_ends. intros c4 H4. apply ends_then, ends_modify, ends_ret.
  eexists _, now. split; [|done]. simpl. by rewrite H4, H3, H2, H1.
Qed.

Lemma then_unit {A} (P : controller W → Prop) (m : call (controller W) string A) c :
  ends_in P m c → ends_in P (m;; mret tt) c.
Proof. intros Hm. unfold ends_in in *. apply ends_then. eapply ends_weaken; [exact Hm|done|done]. Qed.

Lemma call_effect o c : (∀ cfg, o ≠ Create cfg) → ends_in (effect o c) (call_of o) c.
Proof.
  intros Hn. destruct o as [cfg|i a|i|i|i|i flag p|i r| |i rate l k]; simpl.
  - by destruct (Hn cfg).
  - apply then_unit, approve_effect.
  - apply then_unit, advance_canary_effect.
  - apply then_unit, advance_rolling_effect.
  - apply switch_effect.
  - apply then_unit, update_flag_effect.
  - apply then_unit, rollback_effect.
  - apply reconcile_effect.
  - apply update_metrics_effect.
Qed.

Lemma deploy_op_effect o c : (∀ cfg, o ≠ Create cfg) → effect o c (run_op c o).
Proof. intros Hn. pose proof (call_effect o c Hn) as He. unfold ends_in, ends, run_op in *. by destruct (call_of o c). Qed.

Lemma run_create c cfg :
  ∃ i c' now, create cfg c = Returned i c' ∧ run_op c (Create cfg) = c' ∧ deployments c' = <[i := born i cfg now]> (deployments c).
Proof.
  pose proof (create_ends cfg c) as He. unfold ends in He. unfold run_op, call_of, mbind, call_mbind, call_bind.
  destruct (create cfg c) as [i c'|e c'|]; [|done..]. destruct He as (d & now & Hc & ->). simpl. eauto 6.
Qed.

Lemma run_op_follows c o i d :
  deployments c !! i = Some d → i ∉ created_by c o →
  ∃ d', deployments (run_op c o) !! i = Some d' ∧ core d' = core (step_of i d o).
Proof.
  intros Hd Hi. assert ((∃ cfg, o = Create cfg) ∨ ∀ cfg, o ≠ Create cfg) as [[cfg ->]|Hn] by (destruct o; naive_solver).
  - destruct (run_create c cfg) as (j & c' & now & Ej & -> & Hc). simpl in Hi. rewrite Ej in Hi. exists d. split; [|done].
    rewrite Hc, lookup_insert_ne; [done|]. set_solver.
  - pose proof (deploy_op_effect o c Hn i) as He. by rewrite Hd in He.
Qed.

Lemma run_follows c h i d :
  deployments c !! i = Some d → i ∉ created c h →
  ∃ d', deployments (run c h) !! i = Some d' ∧ core d' = core (foldl (step_of i) d h).
Proof.
  revert c d. induction h as [|o h IH]; intros c d Hd Hi; simpl in *; [eauto|]. apply not_elem_of_app in Hi as [Hi1 Hi2].
  destruct (run_op_follows c o i d Hd Hi1) as (d1 & Hd1 & Hk1). destruct (IH _ d1 Hd1 Hi2) as (d' & Hd' & Hk').
  exists d'. split; [done|]. rewrite Hk'. by apply steps_of_core.
Qed.

Lemma deployments_follow c cfg h :
  ∃ i c' now, create cfg c = Returned i c'
    ∧ (i ∉ created c' h →
       ∃ d, deployments (run c (Create cfg :: h)) !! i = Some d
         ∧ core d = core (foldl (step_of i) (born i cfg now) h)).
Proof.
  destruct (run_create c cfg) as (i & c' & now & Ei & Er & Hc). exists i, c', now. split; [done|]. intros Hi. simpl. rewrite Er.
  apply run_follows; [|done]. by rewrite Hc, lookup_insert_eq.
Qed.

(** The calls that name a deployment, and the health checks. *)
Definition affects (i : string) (o : op) : bool :=
  match o with
  | Create _ => false
  | Reconcile => true
  | Approve j _ | AdvanceCanary j | AdvanceRolling j | SwitchBlueGreen j | UpdateFlag j _ _ | RollbackOp j _ | Metrics j _ _ _ => String.eqb j i
  end.

Lemma unaffected i o d : affects i o = false → step_of i d o = d.
Proof. destruct o; simpl; try done; intros Hj%String.eqb_neq; by rewrite decide_False. Qed.

Lemma follows_the_affecting i h d : foldl (step_of i) d h = foldl (step_of i) d (List.filter (affects i) h).
Proof.
  revert d. induction h as [|o h IH]; intros d; simpl; [done|]. destruct (affects i o) eqn:E; simpl; [apply IH|]. by rewrite unaffected.
Qed.

(** C13: Deployments do not interfere.  Take two controllers, with any other deployments, clocks,
    audit logs and analytics, that hold a deployment in the same state, times apart; and two
    histories in which the calls that name it and the health checks are the same, in the same
    order, whatever else is called in between.  Then they leave it in the same state, times
    apart, as long as neither gives its identifier out again (an identifier is the name and the
    time of the creation, so a clock that repeats itself can). *)
Theorem deployments_do_not_interfere c1 c2 i d1 d2 h1 h2 :
  deployments c1 !! i = Some d1 → deployments c2 !! i = Some d2 → core d1 = core d2 →
  i ∉ created c1 h1 → i ∉ created c2 h2 → List.filter (affects i) h1 = List.filter (affects i) h2 →
  ∃ e1 e2, deployments (run c1 h1) !! i = Some e1 ∧ deployments (run c2 h2) !! i = Some e2 ∧ core e1 = core e2.
Proof.
  intros Hd1 Hd2 Hk Hi1 Hi2 Hh. destruct (run_follows c1 h1 i d1 Hd1 Hi1) as (e1 & He1 & Hk1).
  destruct (run_follows c2 h2 i d2 Hd2 Hi2) as (e2 & He2 & Hk2). exists e1, e2. split_and!; [done..|].
  rewrite Hk1, Hk2, (follows_the_affecting i h1), (follows_the_affecting i h2), Hh. by apply steps_of_core.
Qed.

(** ** Canaries *)

Definition approved (i : string) h : Prop := ∃ a, Approve i a ∈ h.

(** What holds of a canary in its life. *)
Record canary_life (i : string) (cfg : Config.t) h (d : status) : Prop := {
  cl_strategy : Config.strategy (Status.config d) = Canary;
  cl_step : Config.canary_step_percent (Status.config d) = Config.canary_step_percent cfg;
  cl_traffic : Status.current_traffic_percent d = 0%Z ∨ Status.current_traffic_percent d = 100%Z
    ∨ (Config.canary_step_percent cfg <= Status.current_traffic_percent d < 100)%Z;
  cl_waiting : Status.phase d = WaitingApproval → Config.require_approval cfg = true ∧ Status.current_traffic_percent d = 0%Z;
  cl_progress : Status.phase d = InProgress → Config.require_approval cfg = true ∧ approved i h ∧ (Status.current_traffic_percent d < 100)%Z;
  cl_approved : Status.current_traffic_percent d ≠ 0%Z → Config.require_approval cfg = true ∧ approved i h;
}.

Lemma approved_snoc i h o : approved i h → approved i (h ++ [o]).
Proof. intros [a Ha]. exists a. set_solver. Qed.

Lemma canary_percent_exact i cfg h d :
  (0 <= Config.canary_step_percent cfg < 256)%Z → canary_life i cfg h d → Status.phase d = InProgress →
  canary_percent d = Z.min (Status.current_traffic_percent d + Config.canary_step_percent cfg) 100.
Proof.
  intros Hs [Hst Hstep Ht Hw Hp Ha] Hph. destruct (Hp Hph) as (_ & _ & Hlt). unfold canary_percent, as_u8. rewrite Hstep.
  rewrite Z.mod_small; [done|]. destruct Ht as [->|[Ht|Ht]]; lia.
Qed.

Lemma canary_life_born i cfg now : Config.strategy cfg = Canary → canary_life i cfg [] (born i cfg now).
Proof.
  intros Hs. unfold born. destruct (Config.require_approval cfg) eqn:E; split; simpl; try done; auto.
Qed.

(** Only phase, traffic and flags move. *)
Lemma canary_life_flags i cfg h d l :
  canary_life i cfg h d → canary_life i cfg h (Status.set_config (Config.set_flags l (Status.config d)) d).
Proof. intros [Hst Hstep Ht Hw Hp Ha]. by split. Qed.

Lemma canary_life_succeeded i cfg h d : canary_life i cfg h d → canary_life i cfg h (succeeded d).
Proof. intros [Hst Hstep Ht Hw Hp Ha]. by split. Qed.

Lemma canary_life_rolled_back i cfg h d r : canary_life i cfg h d → canary_life i cfg h (rolled_back r d).
Proof. intros [Hst Hstep Ht Hw Hp Ha]. split; simpl; try done. by left. Qed.

Lemma canary_life_later i cfg h d o : canary_life i cfg h d → canary_life i cfg (h ++ [o]) d.
Proof.
  intros [Hst Hstep Ht Hw Hp Ha]. split; try done.
  - intros Hph. destruct (Hp Hph) as (? & ? & ?). auto using approved_snoc.
  - intros Hne. destruct (Ha Hne). auto using approved_snoc.
Qed.

Lemma canary_life_step i cfg h d o :
  (0 <= Config.canary_step_percent cfg < 256)%Z → canary_life i cfg h d → canary_life i cfg (h ++ [o]) (step_of i d o).
Proof.
  intros Hs Hl0. pose proof (canary_life_later i cfg h d o Hl0) as Hl. destruct o as [k|j a|j|j|j|j flag p|j r| |j rate l k]; simpl; try done.
  - case_decide as E; [subst j|done]. case_bool_decide as Hw; [|done]. destruct (cl_waiting _ _ _ _ Hl Hw) as [Hreq Ht].
    destruct Hl as [? ? ? _ _ _]. split; simpl; try done.
    + intros _. rewrite Ht. split_and!; [done| |lia]. exists a. set_solver.
  - case_decide as E; [subst j|done]. unfold canary_ready. case_bool_decide as H1; [|done]. case_bool_decide as H2; [|done].
    destruct (negb _); [|done]. simpl. pose proof (canary_percent_exact _ _ _ _ Hs Hl H2) as Hp.
    destruct (cl_progress _ _ _ _ Hl H2) as (Hreq & Happ & Hlt). destruct Hl as [Hst Hstep Ht _ _ _]. unfold canary_step. rewrite Hp.
    destruct (Z.leb_spec 100 (Z.min (Status.current_traffic_percent d + Config.canary_step_percent cfg) 100)); split; simpl; try done; try lia;
      try (intros _; by split_and?); try (intros; split_and!; try done; lia). intros Hw. congruence.
  - case_decide as E; [subst j|done]. unfold rolling_ready. rewrite (cl_strategy _ _ _ _ Hl). done.
  - case_decide as E; [subst j|done]. unfold switch_ready. rewrite (cl_strategy _ _ _ _ Hl). done.
  - case_decide as E; [subst j|done]. unfold flag_step. destruct (find_first _ _); [|done].
    destruct (100 <=? p)%Z; [apply canary_life_succeeded|]; by apply canary_life_flags.
  - case_decide as E; [subst j|done]. by apply canary_life_rolled_back.
  - destruct (_ && _); [|done]. by apply canary_life_rolled_back.
  - case_decide as E; [subst j|done]. destruct Hl as [? ? ? ? ? ?]. by split.
Qed.

Lemma canary_lives i cfg now h :
  (0 <= Config.canary_step_percent cfg < 256)%Z → Config.strategy cfg = Canary →
  canary_life i cfg h (foldl (step_of i) (born i cfg now) h).
Proof.
  intros Hs Hc. induction h as [|o h IH] using rev_ind; [by apply canary_life_born|].
  rewrite foldl_app. by apply canary_life_step.
Qed.

(** C12: Over any history of calls after its creation in which its identifier is not given out
    again, a canary that requires an approval has between none and all of the traffic; it has
    more than the initial share only after the approval was given; and while it is in progress,
    the sum of its share and its step is taken in eight bits without wrapping. *)
Theorem canary_traffic_is_approved c cfg h i c' :
  create cfg c = Returned i c' → i ∉ created c' h →
  Config.strategy cfg = Canary → Config.require_approval cfg = true →
  (0 <= Config.canary_step_percent cfg < 256)%Z → (0 <= Config.canary_initial_percent cfg < 256)%Z →
  ∃ d, deployments (run c (Create cfg :: h)) !! i = Some d
    ∧ (0 <= Status.current_traffic_percent d <= 100)%Z
    ∧ ((Config.canary_initial_percent cfg < Status.current_traffic_percent d)%Z → approved i h)
    ∧ (Status.phase d = InProgress →
         canary_percent d = Z.min (Status.current_traffic_percent d + Config.canary_step_percent cfg) 100).
Proof.
  intros Ei Hi Hc _ Hs Hinit. destruct (deployments_follow c cfg h) as (j & c2 & now & Ej & Hrun). rewrite Ei in Ej. injection Ej as <- <-.
  destruct (Hrun Hi) as (d & Hd & Hk). exists d. split; [done|]. pose proof (canary_lives i cfg now h Hs Hc) as Hl.
  set (e := foldl (step_of i) (born i cfg now) h) in *.
  assert (canary_life i cfg h d) as Hl'.
  { destruct Hl as [? ? ? ? ? ?]. destruct d, e. unfold core in Hk. simplify_eq/=. by split. }
  split_and!.
  - destruct Hl' as [_ _ Ht _ _ _]. lia.
  - destruct Hl' as [_ _ Ht _ _ _]. lia.
  - intros Ht. apply (cl_approved _ _ _ _ Hl'). lia.
  - intros Hph. by eapply canary_percent_exact.
Qed.

(** ** Progress *)

(** Where [k] advances take a canary with no traffic. *)
Definition advanced (d : status) (k : nat) : status :=
  let share := (Z.of_nat k * Config.canary_step_percent (Status.config d))%Z in
  if (share <? 100)%Z then Status.set_traffic share d else succeeded (Status.set_traffic 100 d).

Lemma advanced_step i d k :
  Config.strategy (Status.config d) = Canary → Status.phase d = InProgress → Status.should_rollback d = false →
  (0 < Config.canary_step_percent (Status.config d) < 256)%Z →
  core (step_of i (advanced d k) (AdvanceCanary i)) = core (advanced d (S k)).
Proof.
  intros Hs Hp Hr Hstep. simpl. rewrite decide_True by done. unfold advanced. rewrite Nat2Z.inj_succ.
  set (step := Config.canary_step_percent (Status.config d)) in *.
  destruct (Z.ltb_spec (Z.of_nat k * step) 100) as [Hlt|Hge].
  - assert (canary_ready (Status.set_traffic (Z.of_nat k * step) d) = true) as ->.
    { unfold canary_ready. simpl. rewrite !bool_decide_true by done. simpl. change (negb (Status.should_rollback d) = true). by rewrite Hr. }
    assert (canary_percent (Status.set_traffic (Z.of_nat k * step) d) = Z.min (Z.succ (Z.of_nat k) * step) 100) as Hpct.
    { unfold canary_percent, as_u8. simpl. fold step. rewrite Z.mod_small; [f_equal; lia|]. destruct k as [|k]; nia. }
    unfold canary_step. rewrite Hpct. destruct (Z.ltb_spec (Z.succ (Z.of_nat k) * step) 100).
    + rewrite (proj2 (Z.leb_gt _ _)) by lia. by rewrite Z.min_l by lia.
    + rewrite (proj2 (Z.leb_le _ _)) by lia. by rewrite Z.min_r by lia.
  - rewrite (proj2 (Z.ltb_ge _ _)) by nia. unfold canary_ready. simpl. by rewrite andb_false_r.
Qed.

Lemma advanced_steps i d n :
  Config.strategy (Status.config d) = Canary → Status.phase d = InProgress → Status.should_rollback d = false →
  (0 < Config.canary_step_percent (Status.config d) < 256)%Z → Status.current_traffic_percent d = 0%Z →
  core (foldl (step_of i) d (replicate n (AdvanceCanary i))) = core (advanced d n).
Proof.
  intros Hs Hp Hr Hstep Ht. induction n as [|n IH].
  - simpl. unfold advanced. simpl. destruct d. simpl in *. by subst.
  - rewrite replicate_S_end, foldl_app. cbn [foldl]. rewrite <- (advanced_step i) by done. by apply step_of_core.
Qed.

(** C39: A canary that is in progress, healthy and without traffic completes: after any number
    of advances whose steps add up to a hundred it has succeeded with all of the traffic, and
    further advances change nothing. *)
Theorem healthy_canaries_complete c i d n :
  deployments c !! i = Some d → Config.strategy (Status.config d) = Canary → Status.phase d = InProgress →
  Status.should_rollback d = false → (0 < Config.canary_step_percent (Status.config d) < 256)%Z →
  Status.current_traffic_percent d = 0%Z → (100 <= Z.of_nat n * Config.canary_step_percent (Status.config d))%Z →
  ∃ d', deployments (run c (replicate n (AdvanceCanary i))) !! i = Some d'
    ∧ Status.phase d' = Succeeded ∧ Status.current_traffic_percent d' = 100%Z ∧ Status.config d' = Status.config d.
Proof.
  intros Hd Hs Hp Hr Hstep Ht Hn. destruct (run_follows c (replicate n (AdvanceCanary i)) i d Hd) as (d' & Hd' & Hk).
  { clear. revert c. induction n as [|n IH]; intros c; simpl; [set_solver|]. by apply IH. }
  exists d'. split; [done|]. rewrite advanced_steps in Hk by done. unfold advanced in Hk.
  rewrite (proj2 (Z.ltb_ge _ _)) in Hk by lia. destruct d, d'. unfold core in Hk. simplify_eq/=. done.
Qed.

(** ** What needs no approval *)

(** A healthy blue-green deployment that asks for an approval is switched without one. *)
Lemma switch_needs_no_approval i cfg now :
  Config.strategy cfg = BlueGreen → Config.require_approval cfg = true → Status.should_rollback (born i cfg now) = false →
  let d := step_of i (born i cfg now) (SwitchBlueGreen i) in
  Status.phase (born i cfg now) = WaitingApproval ∧ Status.phase d = Succeeded ∧ Status.current_traffic_percent d = 100%Z.
Proof.
  intros Hs Hr Hh. simpl. rewrite decide_True by done. unfold switch_ready. rewrite Hh.
  assert (Config.strategy (Status.config (born i cfg now)) = BlueGreen) as -> by (unfold born; by rewrite Hr).
  simpl. split; [|done]. unfold born. by rewrite Hr.
Qed.

(** A deployment without approval never gets in progress: health checks never roll it back. *)
Lemma unapproved_is_never_in_progress i cfg now h :
  Config.require_approval cfg = false →
  let d := foldl (step_of i) (born i cfg now) h in Status.phase d ≠ InProgress ∧ Status.phase d ≠ WaitingApproval.
Proof.
  intros Hr. simpl. assert (Status.phase (born i cfg now) ≠ InProgress ∧ Status.phase (born i cfg now) ≠ WaitingApproval) as H0
    by (unfold born; by rewrite Hr).
  revert H0. generalize (born i cfg now). induction h as [|o h IH]; intros d Hd; simpl; [done|]. apply IH. clear IH h.
  destruct o; simpl; try case_decide; try done; unfold canary_step, rolling_step, flag_step, metrics_step; repeat case_match; simpl; try done;
    destruct Hd; by repeat case_bool_decide.
Qed.
End runs.

(** ** Concrete deployments

    A clock that ticks and the order of the map: the theorems applied to concrete histories,
    and what single calls answer. *)

#[local] Instance ticking : UtcClock Z := λ t, (t, t + 1)%Z.
#[local] Instance natural_order : MapOrder string :=
  {| order_of V m := map_to_list m; order_of_perm V m := reflexivity _ |}.

Definition canary_config (approval : bool) (step : Z) : Config.t :=
  {| Config.name := "my-app"; Config.namespace := "default"; Config.strategy := Canary; Config.image := "stellar/node:v2";
     Config.target_replicas := 3; Config.canary_initial_percent := 10; Config.canary_step_percent := step;
     Config.rolling_max_unavailable := 1; Config.rolling_max_surge := 1; Config.rollback_policy := RollbackPolicy.default;
     Config.feature_flags := []; Config.require_approval := approval |}.
Definition blue_green_config : Config.t :=
  {| Config.name := "bg"; Config.namespace := "default"; Config.strategy := BlueGreen; Config.image := "";
     Config.target_replicas := 3; Config.canary_initial_percent := 10; Config.canary_step_percent := 10;
     Config.rolling_max_unavailable := 1; Config.rolling_max_surge := 1; Config.rollback_policy := RollbackPolicy.default;
     Config.feature_flags := []; Config.require_approval := true |}.

Definition start : controller Z := new 1000%Z.
Definition app : string := "my-app-1000".
Definition view (c : controller Z) (i : string) : option (Phase * Z) :=
  (λ d, (Status.phase d, Status.current_traffic_percent d)) <$> deployments c !! i.

(** An approved canary in steps of a quarter; a bad one is rolled back; without approval nothing
    moves; a blue-green deployment is switched without the approval it asks for; a rolling one
    succeeds at its first step. *)
Example deployments_answer :
  view (run start ([Create (canary_config true 25); Approve app "ops"] ++ replicate 3 (AdvanceCanary app))) app = Some (InProgress, 75%Z)
  ∧ view (run start ([Create (canary_config true 25); Approve app "ops"] ++ replicate 5 (AdvanceCanary app))) app = Some (Succeeded, 100%Z)
  ∧ view (run start [Create (canary_config true 25); Approve app "ops"; AdvanceCanary app; Metrics app (f64_lit 9 10) 5000 0; AdvanceCanary app; Reconcile]) app
      = Some (RolledBack, 0%Z)
  ∧ view (run start [Create (canary_config false 25); Approve app "ops"; AdvanceCanary app]) app = Some (Pending, 0%Z)
  ∧ result_of (advance_canary app (run start [Create (canary_config false 25)])) = Some (Err "Deployment is in phase Pending")
  ∧ view (run start [Create blue_green_config; SwitchBlueGreen "bg-1000"]) "bg-1000" = Some (Succeeded, 100%Z)
  ∧ view (run start [Create Config.default; AdvanceRolling "deployment-1000"]) "deployment-1000" = Some (Succeeded, 0%Z)
  ∧ view (run start [Create Config.default; RollbackOp "deployment-1000" "bad"; AdvanceRolling "deployment-1000"]) "deployment-1000" = Some (Succeeded, 0%Z).
Proof. vm_compute. split_and!; reflexivity. Qed.

Definition life : list op := [Approve app "ops"; AdvanceCanary app; AdvanceCanary app].

Lemma canary_traffic_witness :
  ∃ d, deployments (run start (Create (canary_config true 25) :: life)) !! app = Some d
    ∧ (0 <= Status.current_traffic_percent d <= 100)%Z
    ∧ ((10 < Status.current_traffic_percent d)%Z → approved app life)
    ∧ (Status.phase d = InProgress → canary_percent d = Z.min (Status.current_traffic_percent d + 25) 100).
Proof.
  apply (canary_traffic_is_approved start (canary_config true 25) life app (run_op start (Create (canary_config true 25)))).
  - vm_compute. reflexivity.
  - assert (created (run_op start (Create (canary_config true 25))) life = []) as E by (vm_compute; reflexivity). rewrite E. apply not_elem_of_nil.
  - reflexivity.
  - reflexivity.
  - simpl. lia.
  - simpl. lia.
Defined.

(** The same canary next to another deployment, under another clock. *)
Definition alone : controller Z := run start [Create (canary_config true 25)].
Definition beside : controller Z := run start [Create (canary_config true 25); Create blue_green_config].
Definition busy_life : list op :=
  [Create Config.default; Approve app "ops"; SwitchBlueGreen "bg-1003"; AdvanceCanary app; RollbackOp "bg-1003" "bad"; AdvanceCanary app].

Lemma deployments_do_not_interfere_witness :
  ∃ e1 e2, deployments (run alone life) !! app = Some e1 ∧ deployments (run beside busy_life) !! app = Some e2 ∧ core e1 = core e2.
Proof.
  assert (deployments alone !! app = deployments beside !! app) as Hsame by (vm_compute; reflexivity).
  assert (is_Some (deployments alone !! app)) as [d Hd] by (vm_compute; eauto).
  apply (deployments_do_not_interfere alone beside app d d life busy_life).
  - exact Hd.
  - rewrite <- Hsame. exact Hd.
  - reflexivity.
  - assert (created alone life = []) as E by (vm_compute; reflexivity). rewrite E. apply not_elem_of_nil.
  - assert (bool_decide (app ∈ created beside busy_life) = false) as E by (vm_compute; reflexivity). by apply bool_decide_eq_false in E.
  - vm_compute. reflexivity.
Defined.

Definition progressing : controller Z := run start [Create (canary_config true 30); Approve app "ops"].
Definition progressing_status : status := default (born app (canary_config true 30) 0) (deployments progressing !! app).

Lemma healthy_canaries_witness :
  ∃ d', deployments (run progressing (replicate 4 (AdvanceCanary app))) !! app = Some d'
    ∧ Status.phase d' = Succeeded ∧ Status.current_traffic_percent d' = 100%Z ∧ Status.config d' = Status.config progressing_status.
Proof.
  apply (healthy_canaries_complete progressing app progressing_status 4).
  - vm_compute. reflexivity.
  - vm_compute. reflexivity.
  - vm_compute. reflexivity.
  - vm_compute. reflexivity.
  - vm_compute. split; reflexivity.
  - vm_compute. reflexivity.
  - vm_compute. discriminate.
Defined.
