(* ===== verification/DeployRollback.v ===== *)
(** * Rollback decisions from burn rates

    [src/src/rollback_engine.rs]: the engine that decides a rollback when the error budget
    burns in two windows at once, records its decisions and executes them through the trait
    [RollbackAction], here the class [RollbackAction] over the state of the action.  The clock
    readings are arguments, the rendering of a time the class [Rfc3339]. *)

From stdpp Require Import prelude gmap list strings.
From Stdlib Require Import Ascii SpecFloat.
From S2P Require Import Prelude RustStr Float64.

Class Rfc3339 : Type := to_rfc3339 : DateTime → string.

Inductive ServiceTier : Type := Critical | High | Standard.
#[global] Instance ServiceTier_eq_dec : EqDecision ServiceTier.
Proof. solve_decision. Defined.
Definition debug_tier (t : ServiceTier) : string := match t with Critical => "Critical" | High => "High" | Standard => "Standard" end.

Module BurnThresholds.
Record t : Type := { fast_burn : f64; slow_burn : f64; min_budget_consumed : f64 }.
Definition for_tier (tier : ServiceTier) : t :=
  match tier with
  | Critical => {| fast_burn := f64_of_Z 6; slow_burn := f64_of_Z 2; min_budget_consumed := f64_lit 5 100 |}
  | High => {| fast_burn := f64_of_Z 10; slow_burn := f64_of_Z 3; min_budget_consumed := f64_lit 10 100 |}
  | Standard => {| fast_burn := f64_of_Z 14; slow_burn := f64_of_Z 4; min_budget_consumed := f64_lit 15 100 |}
  end.
End BurnThresholds.

Module BurnObservation.
Record t : Type := {
  deployment_id : string; tier : ServiceTier; short_burn : f64; long_burn : f64; budget_consumed : f64;
  short_window_secs : Z; long_window_secs : Z; observed_at : DateTime;
}.
Definition new (i : string) (tr : ServiceTier) (short long budget : f64) (now : DateTime) : t :=
  {| deployment_id := i; tier := tr; short_burn := short; long_burn := long; budget_consumed := budget;
     short_window_secs := 3600; long_window_secs := 21600; observed_at := now |}.
End BurnObservation.
Abbreviation observation := BurnObservation.t.

Inductive RollbackVerdict : Type := Rollback | Hold.
#[global] Instance RollbackVerdict_eq_dec : EqDecision RollbackVerdict.
Proof. solve_decision. Defined.
Definition debug_verdict (v : RollbackVerdict) : string := match v with Rollback => "Rollback" | Hold => "Hold" end.

Module RollbackDecision.
Record t : Type := {
  deployment_id : string; tier : ServiceTier; verdict : RollbackVerdict; rationale : string;
  short_burn : f64; long_burn : f64; budget_consumed : f64; evaluated_at : DateTime;
}.
Definition record_annotation `{Rfc3339} (d : t) : gmap string string :=
  list_to_map [("stellar.org/rollback-verdict", debug_verdict (verdict d)); ("stellar.org/rollback-rationale", rationale d);
               ("stellar.org/rollback-evaluated-at", to_rfc3339 (evaluated_at d))].
End RollbackDecision.
Abbreviation decision := RollbackDecision.t.

Module PostRollbackAnalysis.
Record t : Type := { deployment_id : string; rolled_back_at : DateTime; trigger : decision; outcome : string; reviewer : option string }.
End PostRollbackAnalysis.

Class RollbackAction (A : Type) : Type := {
  act_rollback : string → string → A → result bool string * A;
  is_rolled_back : string → A → bool;
}.

(** The action kept in memory. *)
Module Memory.
Record t : Type := { rolled_back : gset string; attempts : Z }.
Definition default : t := {| rolled_back := ∅; attempts := 0 |}.
Definition rollback (i _reason : string) (a : t) : result bool string * t :=
  let a := {| rolled_back := rolled_back a; attempts := as_u64 (attempts a + 1) |} in
  if bool_decide (i ∈ rolled_back a) then (Ok false, a)
  else (Ok true, {| rolled_back := {[i]} ∪ rolled_back a; attempts := attempts a |}).
#[global] Instance action : RollbackAction t := {| act_rollback := rollback; is_rolled_back i a := bool_decide (i ∈ rolled_back a) |}.
End Memory.

(** ** The engine *)

(** The map of thresholds as a function that may have no entry. *)
Module Engine.
Record t : Type := {
  thresholds : ServiceTier → option BurnThresholds.t; decisions : list decision; analyses : list PostRollbackAnalysis.t;
}.
Definition new : t := {| thresholds := λ tier, Some (BurnThresholds.for_tier tier); decisions := []; analyses := [] |}.
Definition with_threshold (tier : ServiceTier) (b : BurnThresholds.t) (e : t) : t :=
  {| thresholds := λ x, if decide (x = tier) then Some b else thresholds e x; decisions := decisions e; analyses := analyses e |}.
Definition push_decision (d : decision) (e : t) : t :=
  {| thresholds := thresholds e; decisions := decisions e ++ [d]; analyses := analyses e |}.
Definition push_analysis (a : PostRollbackAnalysis.t) (e : t) : t :=
  {| thresholds := thresholds e; decisions := decisions e; analyses := analyses e ++ [a] |}.
Definition decisions_for (i : string) (e : t) : list decision :=
  List.filter (λ d, String.eqb (RollbackDecision.deployment_id d) i) (decisions e).
End Engine.
Abbreviation engine := Engine.t.

Definition breach (b : BurnThresholds.t) (o : observation) : bool :=
  f64_ge (BurnObservation.short_burn o) (BurnThresholds.fast_burn b)
  && f64_ge (BurnObservation.long_burn o) (BurnThresholds.slow_burn b)
  && f64_ge (BurnObservation.budget_consumed o) (BurnThresholds.min_budget_consumed b).

Definition thresholds_for (e : engine) (tier : ServiceTier) : BurnThresholds.t :=
  default (BurnThresholds.for_tier tier) (Engine.thresholds e tier).

Definition rationale_of (b : BurnThresholds.t) (o : observation) (v : RollbackVerdict) : string :=
  "tier=" +:+ debug_tier (BurnObservation.tier o) +:+ " short_burn=" +:+ fmt2 (BurnObservation.short_burn o) +:+ " (thresh "
    +:+ fmt2 (BurnThresholds.fast_burn b) +:+ "/" +:+ show_Z (BurnObservation.short_window_secs o) +:+ "s) long_burn="
    +:+ fmt2 (BurnObservation.long_burn o) +:+ " (thresh " +:+ fmt2 (BurnThresholds.slow_burn b) +:+ "/"
    +:+ show_Z (BurnObservation.long_window_secs o) +:+ "s) budget_consumed=" +:+ fmt3 (BurnObservation.budget_consumed o) +:+ " (min "
    +:+ fmt3 (BurnThresholds.min_budget_consumed b) +:+ ") verdict=" +:+ debug_verdict v.

Definition evaluate (o : observation) (now : DateTime) (e : engine) : decision * engine :=
  let b := thresholds_for e (BurnObservation.tier o) in
  let verdict := if breach b o then Rollback else Hold in
  let d := {| RollbackDecision.deployment_id := BurnObservation.deployment_id o; RollbackDecision.tier := BurnObservation.tier o;
              RollbackDecision.verdict := verdict; RollbackDecision.rationale := rationale_of b o verdict;
              RollbackDecision.short_burn := BurnObservation.short_burn o; RollbackDecision.long_burn := BurnObservation.long_burn o;
              RollbackDecision.budget_consumed := BurnObservation.budget_consumed o; RollbackDecision.evaluated_at := now |} in
  (d, Engine.push_decision d e).

Definition execute {A} `{!RollbackAction A} (d : decision) (now : DateTime) (s : engine * A) : result bool string * (engine * A) :=
  let '(e, a) := s in
  if bool_decide (RollbackDecision.verdict d = Rollback) then
    match act_rollback (RollbackDecision.deployment_id d) (RollbackDecision.rationale d) a with
    | (Err x, a) => (Err x, (e, a))
    | (Ok did, a) =>
        (Ok did,
         (Engine.push_analysis
            {| PostRollbackAnalysis.deployment_id := RollbackDecision.deployment_id d; PostRollbackAnalysis.rolled_back_at := now;
               PostRollbackAnalysis.trigger := d;
               PostRollbackAnalysis.outcome := if did then "rolled back" else "already rolled back (idempotent no-op)";
               PostRollbackAnalysis.reviewer := None |} e, a))
    end
  else (Ok false, s).

(** ** Histories *)

(** An observation that is evaluated and whose decision is then executed, possibly more than
    once. *)
Record round : Type := { obs : observation; retries : nat; at_ : DateTime }.

Section rounds.
Context {A : Type} `{!RollbackAction A}.

Definition run_round (s : engine * A) (r : round) : engine * A :=
  let '(d, e) := evaluate (obs r) (at_ r) s.1 in
  Nat.iter (retries r) (λ s, (execute d (at_ r) s).2) (e, s.2).
Definition run_rounds (s : engine * A) (l : list round) : engine * A := foldl run_round s l.

Lemma execute_thresholds d now s : Engine.thresholds (execute d now s).2.1 = Engine.thresholds s.1.
Proof. destruct s as [e a]. simpl. case_bool_decide; [|done]. by destruct (act_rollback _ _ a) as [[|] ?]. Qed.

Lemma iter_thresholds d now n s : Engine.thresholds (Nat.iter n (λ s, (execute d now s).2) s).1 = Engine.thresholds s.1.
Proof. induction n as [|n IH]; [done|]. simpl. by rewrite execute_thresholds. Qed.

Lemma run_round_thresholds s r : Engine.thresholds (run_round s r).1 = Engine.thresholds s.1.
Proof. unfold run_round, evaluate. by rewrite iter_thresholds. Qed.
End rounds.

Lemma iter_execute d now n (s : engine * Memory.t) i :
  i ∈ Memory.rolled_back (Nat.iter n (λ s, (execute d now s).2) s).2
  ↔ i ∈ Memory.rolled_back s.2 ∨ (n ≠ 0 ∧ RollbackDecision.verdict d = Rollback ∧ i = RollbackDecision.deployment_id d).
Proof.
  induction n as [|n IH]; [simpl; naive_solver|]. simpl Nat.iter. destruct (Nat.iter n _ s) as [e a]. cbn [fst snd] in *.
  unfold execute. case_bool_decide as Hv; [|rewrite IH; naive_solver]. unfold act_rollback, Memory.action, Memory.rollback. simpl.
  case_bool_decide as Hin; simpl.
  - rewrite IH. split; [naive_solver|]. intros [?|(_ & _ & ->)]; [by left|]. apply IH. done.
  - rewrite elem_of_union, elem_of_singleton, IH. naive_solver.
Qed.

(** Rollbacks on the action in memory are exactly of the deployments whose burn breached the
    thresholds of their tier in both windows with enough of the budget consumed, however
    often the decisions are executed. *)
Theorem rollbacks_are_of_breaches e l i :
  i ∈ Memory.rolled_back (run_rounds (e, Memory.default) l).2
  ↔ ∃ r, r ∈ l ∧ retries r ≠ 0 ∧ BurnObservation.deployment_id (obs r) = i
      ∧ breach (thresholds_for e (BurnObservation.tier (obs r))) (obs r) = true.
Proof.
  enough (∀ s : engine * Memory.t, Engine.thresholds s.1 = Engine.thresholds e →
    i ∈ Memory.rolled_back (run_rounds s l).2 ↔ i ∈ Memory.rolled_back s.2 ∨ ∃ r, r ∈ l ∧ retries r ≠ 0 ∧ BurnObservation.deployment_id (obs r) = i
      ∧ breach (thresholds_for e (BurnObservation.tier (obs r))) (obs r) = true) as Hall
    by (rewrite Hall by done; unfold Memory.default; simpl; set_solver).
  induction l as [|r l IH]; intros s Hs; simpl; [set_solver|]. rewrite IH by (by rewrite run_round_thresholds).
  assert (thresholds_for s.1 (BurnObservation.tier (obs r)) = thresholds_for e (BurnObservation.tier (obs r))) as Ht
    by (unfold thresholds_for; by rewrite Hs).
  unfold run_round, evaluate. rewrite iter_execute. cbn [fst snd RollbackDecision.verdict RollbackDecision.deployment_id]. rewrite Ht.
  setoid_rewrite elem_of_cons. split.
  - intros [[?|(Hn & Hv & ->)]|(r' & Hr' & Hx)]; [by left| |right; exists r'; tauto]. right. exists r.
    destruct (breach _ (obs r)) eqn:Eb; [|done]. tauto.
  - intros [?|(r' & [->|Hr'] & Hn & Hi & Hb)]; [by left; left| |right; exists r'; tauto]. left; right. by rewrite Hb.
Qed.
