(* ===== verification/Threads.v ===== *)
(** * Tasks over shared memory

    Concurrent tasks as programs ([Prog]) over atomic operations on a shared state.  [run]
    interleaves them one operation at a time, in the order of a schedule that also settles what
    the operations leave open; [run_tasks] switches only where a task yields, as a runtime with
    one thread does at an [await].  A credit logic bounds a shared counter in every
    interleaving. *)

From stdpp Require Import prelude list.
From S2P Require Import Prelude Contract Prog.

Lemma sumZ_alter d i (l : list Z) : i < length l → sumZ (alter (Z.add d) i l) = (sumZ l + d)%Z.
Proof.
  unfold sumZ. revert i. induction l as [|z l IH]; intros [|i] Hi; simpl in *; [lia..|]. specialize (IH i ltac:(lia)).
  unfold alter in IH. rewrite IH. lia.
Qed.

Lemma sumZ_bounds (l : list Z) : Forall (λ z, 0 <= z <= 1)%Z l → (0 <= sumZ l <= Z.of_nat (length l))%Z.
Proof. induction 1 as [|z l Hz _ IH]; simpl; [lia|]. unfold sumZ in *. simpl. lia. Qed.

Lemma count_insert {X} (f : X → bool) i x y (l : list X) :
  l !! i = Some x → count f (<[i := y]> l) = (count f l - (if f x then 1 else 0) + (if f y then 1 else 0))%Z.
Proof.
  revert i. induction l as [|z l IH]; intros [|i] Hi; [done|done| |].
  - injection Hi as ->. change (<[0:=y]> (x :: l)) with (y :: l). rewrite count_cons, (count_cons f x l). unfold count. simpl. destruct (f x), (f y); simpl; lia.
  - change (<[S i:=y]> (z :: l)) with (z :: <[i:=y]> l). rewrite count_cons, (count_cons f z l), (IH i) by done. lia.
Qed.

Section threads.
Context {Op : Set → Type} {E : Set} {A : Type} {St Ch : Type}.
Abbreviation task := (@tree Op E A).

(** What an operation answers and leaves, given the choice of the schedule. *)
Context (perform : ∀ X : Set, Op X → Ch → St → X * St).
Arguments perform {X} _ _ _.
(** The operations at which a task gives up the thread. *)
Context (yields : ∀ X : Set, Op X → bool).
Arguments yields {X} _.

Implicit Types (p : task) (s : St) (ts : list task) (c : St * list task).

(** ** Interleavings *)

Definition step_task (ch : Ch) p s : St * task :=
  match p with
  | Vis op k => let '(x, s') := perform op ch s in (s', k x)
  | _ => (s, p)
  end.

Definition step c (m : nat * Ch) : St * list task :=
  match c.2 !! m.1 with
  | Some p => let '(s', p') := step_task m.2 p c.1 in (s', <[m.1 := p']> c.2)
  | None => c
  end.
Definition run c (sched : list (nat * Ch)) : St * list task := foldl step c sched.

(** The task up to its next yield. *)
Fixpoint segment (ch : Ch) p s : St * task :=
  match p with
  | Vis op k => if yields op then (s, p) else let '(x, s') := perform op ch s in segment ch (k x) s'
  | _ => (s, p)
  end.
(** The operation a task stopped at, and on to the next yield. *)
Definition resume (ch : Ch) p s : St * task := let '(s', p') := step_task ch p s in segment ch p' s'.
Definition turn c (m : nat * Ch) : St * list task :=
  match c.2 !! m.1 with
  | Some p => let '(s', p') := resume m.2 p c.1 in (s', <[m.1 := p']> c.2)
  | None => c
  end.
Definition run_tasks c (sched : list (nat * Ch)) : St * list task := foldl turn c sched.

Lemma interleave_cons c m l : run c (m :: l) = run (step c m) l.
Proof. done. Qed.
Lemma interleave_app c l1 l2 : run c (l1 ++ l2) = run (run c l1) l2.
Proof. apply foldl_app. Qed.
Lemma interleave_snoc c l m : run c (l ++ [m]) = step (run c l) m.
Proof. by rewrite interleave_app. Qed.
Lemma run_tasks_snoc c l m : run_tasks c (l ++ [m]) = turn (run_tasks c l) m.
Proof. unfold run_tasks. by rewrite foldl_app. Qed.

Lemma step_length c m : length (step c m).2 = length c.2.
Proof. unfold step. destruct (c.2 !! m.1); [|done]. destruct (step_task _ _ _). apply length_insert. Qed.
Lemma interleave_length c l : length (run c l).2 = length c.2.
Proof. revert c. induction l as [|m l IH]; intros c; [done|]. rewrite interleave_cons, IH. apply step_length. Qed.

(** Switching at the yields only is one of the interleavings. *)
Lemma segment_is_run ch i p s ts :
  ts !! i = Some p → ∃ l, run (s, ts) l = ((segment ch p s).1, <[i := (segment ch p s).2]> ts).
Proof.
  revert s ts. induction p as [a|e|X op k IH]; intros s ts Hi; simpl; [exists []; by rewrite list_insert_id..|].
  destruct (yields op); [exists []; by rewrite list_insert_id|]. destruct (perform op ch s) as [x s'] eqn:Ep.
  assert (i < length ts) as Hlt by (by eapply lookup_lt_Some).
  destruct (IH x s' (<[i := k x]> ts)) as [l Hl]; [by apply list_lookup_insert_eq|]. exists ((i, ch) :: l).
  rewrite list_insert_insert_eq in Hl. rewrite <- Hl, interleave_cons. f_equal. unfold step. cbn [fst snd]. rewrite Hi. simpl. by rewrite Ep.
Qed.

Lemma turn_is_run c m : ∃ l, run c l = turn c m.
Proof.
  destruct c as [s ts], m as [i ch]. unfold turn. cbn [fst snd]. destruct (ts !! i) as [p|] eqn:Hi; [|by exists []].
  unfold resume. destruct (step_task ch p s) as [s1 p1] eqn:E1.
  assert (i < length ts) as Hlt by (by eapply lookup_lt_Some).
  destruct (segment_is_run ch i p1 s1 (<[i := p1]> ts)) as [l Hl]; [by apply list_lookup_insert_eq|].
  exists ((i, ch) :: l). rewrite list_insert_insert_eq in Hl. destruct (segment ch p1 s1) as [s2 p2]. simpl in Hl. rewrite <- Hl, interleave_cons. f_equal.
  unfold step. cbn [fst snd]. by rewrite Hi, E1.
Qed.

Lemma run_tasks_is_run c sched : ∃ l, run c l = run_tasks c sched.
Proof.
  induction sched as [|m sched [l Hl]] using rev_ind; [by exists []|]. rewrite run_tasks_snoc, <- Hl.
  destruct (turn_is_run (run c l) m) as [l' Hl']. exists (l ++ l'). by rewrite interleave_app.
Qed.

(** ** Histories

    The operations a task made with their answers, each with the state it was made in. *)
Definition made (ch : Ch) s (o : option task) : list (St * event Op) :=
  match o with Some (Vis op k) => [(s, Ev op (perform op ch s).1)] | _ => [] end.
Fixpoint history c (sched : list (nat * Ch)) (i : nat) : list (St * event Op) :=
  match sched with
  | [] => []
  | m :: l =>
      (if decide (m.1 = i) then made m.2 c.1 (c.2 !! i) else []) ++ history (step c m) l i
  end.

Lemma step_other c m i : m.1 ≠ i → (step c m).2 !! i = c.2 !! i.
Proof.
  intros Hne. unfold step. destruct (c.2 !! m.1) as [p|]; [|done]. destruct (step_task m.2 p c.1). by apply list_lookup_insert_ne.
Qed.
Lemma step_same c m p : c.2 !! m.1 = Some p → step c m = ((step_task m.2 p c.1).1, <[m.1 := (step_task m.2 p c.1).2]> c.2).
Proof. intros Hp. unfold step. rewrite Hp. by destruct (step_task m.2 p c.1). Qed.
Lemma step_lookup c m p : c.2 !! m.1 = Some p → (step c m).2 !! m.1 = Some (step_task m.2 p c.1).2.
Proof. intros Hp. rewrite (step_same _ _ p) by done. apply list_lookup_insert_eq. by eapply lookup_lt_Some. Qed.

(** A task that has ended executed its program with the answers of its history. *)
Lemma history_exec c sched i p a :
  c.2 !! i = Some p → (run c sched).2 !! i = Some (Ret a) → exec p (snd <$> history c sched i) (Ok a).
Proof.
  revert c p. induction sched as [|m l IH]; intros c p Hp Hr; simpl in *.
  - rewrite Hp in Hr. injection Hr as ->. constructor.
  - case_decide as Hm; [|apply (IH (step c m) p); [by rewrite step_other|done]]. subst i. rewrite Hp.
    pose proof (IH _ _ (step_lookup _ _ _ Hp) Hr) as Hex. destruct p as [b|e|X op k]; simpl in *; [done..|].
    destruct (perform op m.2 c.1) as [x s']. by constructor.
Qed.

Lemma history_snoc c l m i :
  history c (l ++ [m]) i = history c l i ++
    (if decide (m.1 = i) then made m.2 (run c l).1 ((run c l).2 !! i) else []).
Proof. revert c. induction l as [|m' l IH]; intros c; simpl; [by rewrite app_nil_r|]. by rewrite IH, app_assoc. Qed.

Lemma history_split c sched i h1 s e h2 :
  history c sched i = h1 ++ (s, e) :: h2 →
  ∃ l1 m l2, sched = l1 ++ m :: l2 ∧ s = (run c l1).1 ∧ h1 = history c l1 i ∧ m.1 = i
    ∧ ∃ X (op : Op X) k, (run c l1).2 !! i = Some (Vis op k) ∧ e = Ev op (perform op m.2 s).1.
Proof.
  revert h2. induction sched as [|m l IH] using rev_ind; intros h2 Hh; [by destruct h1|]. rewrite history_snoc in Hh.
  destruct h2 as [|y h2 _] using rev_ind.
  - case_decide as Hm; [destruct ((run c l).2 !! i) as [[b|e'|X op k]|] eqn:Ei|].
    3: { apply (app_inj_tail (history c l i) h1) in Hh as [<- Hh]. simplify_eq. exists l, m, []. eauto 10. }
    all: rewrite app_nil_r in Hh; destruct (IH _ Hh) as (l1 & m1 & l2 & -> & Hl); exists l1, m1, (l2 ++ [m]); by rewrite <- app_assoc.
  - enough (∃ h2', history c l i = h1 ++ (s, e) :: h2') as [h2' Hh'].
    { destruct (IH _ Hh') as (l1 & m1 & l2 & -> & Hl). exists l1, m1, (l2 ++ [m]). by rewrite <- app_assoc. }
    case_decide as Hm; [destruct ((run c l).2 !! i) as [[b|e'|X op k]|]|]; try (rewrite app_nil_r in Hh; eauto; fail).
    rewrite app_comm_cons, app_assoc in Hh. apply app_inj_tail in Hh as [Hh _]. eauto.
Qed.

(** ** Credits

    [credit op x] is what the counter gains when [op] is answered with [x], [needs op n] what a
    task must hold to make [op].  A task is balanced at [n] when, whatever the possible answers,
    it holds [n] now, never more than one nor less than none, and nothing when it ends. *)

Section credits.
Context (possible : ∀ X : Set, Op X → X → Prop) (credit : ∀ X : Set, Op X → X → Z) (needs : ∀ X : Set, Op X → Z → Prop).
Arguments needs {X} _ _.
Arguments possible {X} _ _.
Arguments credit {X} _ _.

Fixpoint balanced p (n : Z) : Prop :=
  match p with
  | Vis op k => (0 <= n <= 1)%Z ∧ needs op n ∧ ∀ x, possible op x → balanced (k x) (n + credit op x)
  | _ => n = 0%Z
  end.

Lemma balanced_range p n : balanced p n → (0 <= n <= 1)%Z.
Proof. destruct p; simpl; [lia|lia|intros (? & _); lia]. Qed.

(** A program that neither gains nor needs anything. *)
Fixpoint neutral {B} (p : @tree Op E B) : Prop :=
  match p with
  | Vis op k => needs op 0 ∧ ∀ x, possible op x → credit op x = 0%Z ∧ neutral (k x)
  | _ => True
  end.

Lemma neutral_bind {B C} (p : @tree Op E B) (f : B → @tree Op E C) :
  neutral p → (∀ b, neutral (f b)) → neutral (p ≫= f).
Proof.
  intros Hp Hf. induction p as [b|e|X op k IH]; simpl in *; [apply Hf|done|]. destruct Hp as [Hn Hk]. split; [done|].
  intros x Hx. destruct (Hk x Hx). split; [done|]. by apply IH.
Qed.

Lemma neutral_balanced p : neutral p → balanced p 0.
Proof.
  induction p as [a|e|X op k IH]; simpl; [done..|]. intros [Hn Hk]. split; [lia|]. split; [done|]. intros x Hx.
  destruct (Hk x Hx) as [-> Hp]. by apply IH.
Qed.

Lemma balanced_step (held : list Z) ts i p ch s :
  Forall2 balanced ts held → ts !! i = Some p →
  (∀ X (op : Op X), possible op (perform op ch s).1) →
  ∃ d, Forall2 balanced (<[i := (step_task ch p s).2]> ts) (alter (Z.add d) i held)
    ∧ (step_task ch p s).1 = match p with Vis op _ => (perform op ch s).2 | _ => s end
    ∧ d = match p with Vis op _ => credit op (perform op ch s).1 | _ => 0%Z end.
Proof.
  intros Hall Hi Hpos. destruct (Forall2_lookup_l _ _ _ _ _ Hall Hi) as (n & Hn & Hb).
  destruct p as [a|e|X op k]; simpl.
  - exists 0%Z. split; [|done]. rewrite list_insert_id by done. by rewrite list_alter_id.
  - exists 0%Z. split; [|done]. rewrite list_insert_id by done. by rewrite list_alter_id.
  - pose proof (Hpos X op) as Hx. destruct (perform op ch s) as [x s'] eqn:Ep. simpl in *. exists (credit op x).
    split; [|done]. apply Forall2_same_length_lookup_2.
    { rewrite length_insert, length_alter. by eapply Forall2_length. }
    intros j p' n' Hp' Hn'. destruct (decide (j = i)) as [->|Hne].
    + rewrite list_lookup_insert_eq in Hp' by (by eapply lookup_lt_Some). rewrite list_lookup_alter_eq, Hn in Hn'. simplify_eq/=.
      rewrite Z.add_comm. by apply Hb.
    + rewrite list_lookup_insert_ne in Hp' by done. rewrite list_lookup_alter_ne in Hn' by done. by eapply (Forall2_lookup_lr _ _ _ _ _ _ Hall).
Qed.
End credits.
End threads.
