(* ===== verification/Drain.v ===== *)
(** * Connection draining

    [src/src/connection_drain.rs]: the controller through which a service stops its intake,
    drains the work in flight and exits.  Its handles are shared by the tasks of the service,
    so every method is a program over the atomic operations it makes on the shared counters and
    on the lock around the phase; [Threads] interleaves them.  What the source leaves to the
    runtime is a choice of the schedule: whether a wait is woken or cut short by its timeout,
    and the time that elapsed. *)

From stdpp Require Import prelude list strings.
From Stdlib Require Import Ascii.
From S2P Require Import Prelude RustStr Prog Threads.

(** ** Configuration *)

Module DrainConfig.
Record t : Type := { drain_timeout : Duration; stream_grace_period : Duration; prestop_sleep : Duration }.
Definition default : t := {| drain_timeout := seconds 30; stream_grace_period := seconds 10; prestop_sleep := seconds 5 |}.
Definition with_drain_timeout (d : Duration) (c : t) : t :=
  {| drain_timeout := d; stream_grace_period := stream_grace_period c; prestop_sleep := prestop_sleep c |}.
Definition with_stream_grace_period (d : Duration) (c : t) : t :=
  {| drain_timeout := drain_timeout c; stream_grace_period := d; prestop_sleep := prestop_sleep c |}.
End DrainConfig.

(** [as_secs] of a duration, which is never negative. *)
Definition as_secs (d : Duration) : Z := d / NANOS.

Definition DQ : string := String "034"%char "".
Definition LF : string := String NL "".
Definition prestop_hook_yaml (c : DrainConfig.t) : string :=
  "lifecycle:" +:+ LF +:+ "  preStop:" +:+ LF +:+ "    exec:" +:+ LF
    +:+ "      command: [" +:+ DQ +:+ "/bin/sh" +:+ DQ +:+ ", " +:+ DQ +:+ "-c" +:+ DQ +:+ ", " +:+ DQ +:+ "sleep "
    +:+ show_Z (as_secs (DrainConfig.prestop_sleep c)) +:+ DQ +:+ "]" +:+ LF
    +:+ "terminationGracePeriodSeconds: "
    +:+ show_Z (as_u64 (as_secs (DrainConfig.drain_timeout c) + as_secs (DrainConfig.prestop_sleep c))) +:+ LF.

Inductive DrainPhase : Set := Active | StopIntake | Draining | Terminated.
#[global] Instance DrainPhase_eq_dec : EqDecision DrainPhase.
Proof. solve_decision. Defined.

Module DrainMetrics.
Record t : Type := { drain_duration : Duration; peak_in_flight : Z; forced_terminations : Z; streams_interrupted : Z }.
Definition completed_without_force (m : t) : bool := (forced_terminations m =? 0)%Z.
End DrainMetrics.
Abbreviation metrics := DrainMetrics.t.

(** ** Shared state *)

(** The counters: two of the shared state, two of the controller. *)
Inductive cell : Set := InFlight | Streams | Peak | Interrupted.

Record shared : Type := { phase_of : DrainPhase; in_flight_of : Z; streams_of : Z; peak_of : Z; interrupted_of : Z }.
Definition fresh : shared := {| phase_of := Active; in_flight_of := 0; streams_of := 0; peak_of := 0; interrupted_of := 0 |}.

Definition value (c : cell) (s : shared) : Z :=
  match c with InFlight => in_flight_of s | Streams => streams_of s | Peak => peak_of s | Interrupted => interrupted_of s end.
Definition set_value (c : cell) (z : Z) (s : shared) : shared :=
  match c with
  | InFlight => {| phase_of := phase_of s; in_flight_of := z; streams_of := streams_of s; peak_of := peak_of s; interrupted_of := interrupted_of s |}
  | Streams => {| phase_of := phase_of s; in_flight_of := in_flight_of s; streams_of := z; peak_of := peak_of s; interrupted_of := interrupted_of s |}
  | Peak => {| phase_of := phase_of s; in_flight_of := in_flight_of s; streams_of := streams_of s; peak_of := z; interrupted_of := interrupted_of s |}
  | Interrupted => {| phase_of := phase_of s; in_flight_of := in_flight_of s; streams_of := streams_of s; peak_of := peak_of s; interrupted_of := z |}
  end.
Definition set_phase (p : DrainPhase) (s : shared) : shared :=
  {| phase_of := p; in_flight_of := in_flight_of s; streams_of := streams_of s; peak_of := peak_of s; interrupted_of := interrupted_of s |}.

(** ** Atomic operations *)

(** [CheckedSub c] is [fetch_update] with [checked_sub(1)], answering whether it was
    [Ok].  [Notified] answers whether the wait was woken; [false] is the timeout around it.
    [Serve] is the work done under a guard. *)
Inductive atom : Set → Type :=
| ReadPhase : atom DrainPhase
| WritePhase (p : DrainPhase) : atom unit
| Load (c : cell) : atom Z
| Store (c : cell) (n : Z) : atom unit
| FetchAdd (c : cell) (n : Z) : atom Z
| FetchSub (c : cell) (n : Z) : atom Z
| FetchMax (c : cell) (n : Z) : atom Z
| CheckedSub (c : cell) : atom bool
| NotifyWaiters : atom unit
| Notified : atom bool
| Elapsed : atom Z
| Serve : atom unit.

Record choice : Type := { woken : bool; elapsed : Duration }.

(** Counters are [usize], of 64 bits, and wrap. *)
Definition perform (X : Set) (op : atom X) (ch : choice) (s : shared) : X * shared :=
  match op in atom X return X * shared with
  | ReadPhase => (phase_of s, s)
  | WritePhase p => (tt, set_phase p s)
  | Load c => (value c s, s)
  | Store c n => (tt, set_value c n s)
  | FetchAdd c n => (value c s, set_value c (as_u64 (value c s + n)) s)
  | FetchSub c n => (value c s, set_value c (as_u64 (value c s - n)) s)
  | FetchMax c n => (value c s, set_value c (Z.max (value c s) n) s)
  | CheckedSub c => if (0 <? value c s)%Z then (true, set_value c (value c s - 1) s) else (false, s)
  | NotifyWaiters => (tt, s)
  | Notified => (woken ch, s)
  | Elapsed => (elapsed ch, s)
  | Serve => (tt, s)
  end.

(** A task gives up its thread at an [await]: in a wait, and in the work it does. *)
Definition yields (X : Set) (op : atom X) : bool := match op with Notified | Serve => true | _ => false end.

(** ** Methods *)

Abbreviation prog := (@tree atom Empty_set).
Definition atomic {X : Set} (op : atom X) : prog X := Vis op mret.

Inductive ConnectionGuard : Type := AConnection.
Inductive StreamGuard : Type := AStream.

Definition phase : prog DrainPhase := atomic ReadPhase.
Definition is_ready : prog bool := p ← phase; mret (bool_decide (p = Active)).
Definition in_flight : prog Z := atomic (Load InFlight).
Definition stop_intake : prog unit := atomic (WritePhase StopIntake).

Definition acquire : prog (option ConnectionGuard) :=
  p ← phase;
  if negb (bool_decide (p = Active)) then mret None else
  old ← atomic (FetchAdd InFlight 1);
  atomic (FetchMax Peak (as_u64 (old + 1)));;
  mret (Some AConnection).

Definition open_stream : prog (option StreamGuard) :=
  p ← phase;
  if negb (bool_decide (p = Active)) then mret None else
  atomic (FetchAdd Streams 1);;
  old ← atomic (FetchAdd InFlight 1);
  atomic (FetchMax Peak (as_u64 (old + 1)));;
  mret (Some AStream).

Definition drop_connection (_ : ConnectionGuard) : prog unit :=
  atomic (FetchSub InFlight 1);;
  atomic NotifyWaiters.

Definition drop_stream (_ : StreamGuard) : prog unit :=
  ok ← atomic (CheckedSub Streams);
  if ok : bool then
    atomic (FetchSub InFlight 1);;
    atomic NotifyWaiters
  else mret tt.

(** [wait_for_quiet] under a timeout that lets it be woken at most [fuel] times. *)
Fixpoint wait_for_quiet (fuel : nat) : prog unit :=
  match fuel with
  | O => mret tt
  | S fuel =>
      n ← atomic (Load InFlight);
      if (n =? 0)%Z then mret tt else
      w ← atomic Notified;
      if w : bool then wait_for_quiet fuel else mret tt
  end.

Definition interrupt_streams : prog unit :=
  stragglers ← atomic (Load Streams);
  if (0 <? stragglers)%Z then
    atomic (FetchAdd Interrupted stragglers);;
    atomic (FetchSub InFlight stragglers);;
    atomic (Store Streams 0);;
    atomic NotifyWaiters
  else mret tt.

Definition drain (grace timeout : nat) : prog metrics :=
  atomic (WritePhase Draining);;
  streams ← atomic (Load Streams);
  (if (0 <? streams)%Z then wait_for_quiet grace;; interrupt_streams else mret tt);;
  wait_for_quiet timeout;;
  remaining ← atomic (Load InFlight);
  atomic (WritePhase Terminated);;
  duration ← atomic Elapsed;
  peak ← atomic (Load Peak);
  interrupted ← atomic (Load Interrupted);
  mret {| DrainMetrics.drain_duration := duration; DrainMetrics.peak_in_flight := peak;
          DrainMetrics.forced_terminations := remaining; DrainMetrics.streams_interrupted := interrupted |}.

(** ** Tasks of a service *)

(** A guard is owned by one task, which drops it once it has done its work. *)
Inductive job : Type := Connection | Stream | Stop | Drain_ (grace timeout : nat).
#[global] Instance job_eq_dec : EqDecision job.
Proof. solve_decision. Defined.

Abbreviation task := (prog (option metrics)).
Definition connection : task :=
  g ← acquire;
  match g with Some g => atomic Serve;; drop_connection g;; mret None | None => mret None end.
Definition stream : task :=
  g ← open_stream;
  match g with Some g => atomic Serve;; drop_stream g;; mret None | None => mret None end.
Definition task_of (j : job) : task :=
  match j with
  | Connection => connection
  | Stream => stream
  | Stop => stop_intake;; mret None
  | Drain_ grace timeout => m ← drain grace timeout; mret (Some m)
  end.

Abbreviation config := (shared * list task)%type.
Definition service (js : list job) : config := (fresh, task_of <$> js).

Definition at_work (p : task) : bool := match p with Vis op _ => match op with Serve => true | _ => false end | _ => false end.
Definition result_at (c : config) (i : nat) : option metrics := match c.2 !! i with Some (Ret (Some m)) => Some m | _ => None end.

(** Every interleaving, and those that switch at awaits only. *)
Abbreviation interleave := (run perform).
Abbreviation one_thread := (run_tasks perform yields).
