(* ===== verification/DrainFacts.v ===== *)
(** * Draining in every interleaving

    What holds however the tasks of a service are interleaved, one atomic operation at a time:
    the phase never goes back to Active, and without streams the counter of the work in flight
    is never below the number of connections at work.  The second is an instance of the credit
    logic of [Threads]. *)

From stdpp Require Import prelude list strings.
From S2P Require Import Prelude Contract Prog Threads Drain.

Local Open Scope Z_scope.

(** The tasks of kind [k] that are at work. *)
Definition working (k : job) (js : list job) (c : config) : Z :=
  count (λ '(j, p), bool_decide (j = k) && at_work p) (zip js c.2).

(** ** The phase *)

Definition intake_stays (X : Set) (op : atom X) : bool := match op with WritePhase Active => false | _ => true end.

Lemma wait_stays fuel : all_ops intake_stays (wait_for_quiet fuel).
Proof. induction fuel as [|fuel IH]; simpl; [done|]. split; [done|]. intros n. case_match; [done|]. split; [done|]. by intros []. Qed.

Lemma drain_stays g t : all_ops intake_stays (drain g t).
Proof.
  unfold drain. apply all_ops_bind; [by split|]. intros _. apply all_ops_bind; [by split|]. intros n.
  apply all_ops_bind; [|intros; apply all_ops_bind; [apply wait_stays|intros; by repeat split]].
  case_match; [|done]. apply all_ops_bind; [apply wait_stays|]. intros _. split; [done|]. intros z. simpl. case_match; by repeat split.
Qed.

Lemma task_stays j : all_ops intake_stays (task_of j).
Proof.
  destruct j as [| | |g t].
  - split; [done|]. intros p. simpl. case_bool_decide; by repeat split.
  - split; [done|]. intros p. simpl. case_bool_decide; [|done]. repeat split. by intros [].
  - by repeat split.
  - apply all_ops_bind; [apply drain_stays|done].
Qed.

(** Every task makes operations of a kind only. *)
Definition closed (f : op_pred atom) (ts : list task) : Prop := Forall (λ p : task, all_ops f p) ts.

Lemma step_closed (f : op_pred atom) c m :
  closed f c.2 → closed f (step perform c m).2.
Proof.
  intros Hall. unfold step. destruct (c.2 !! m.1) as [p|] eqn:Hp; [|done]. pose proof (Forall_lookup_1 _ _ _ _ Hall Hp) as Hf.
  destruct p as [a|e|X op k]; simpl; [by rewrite list_insert_id..|]. destruct (perform X op m.2 c.1) as [x s']. simpl.
  apply Forall_insert; [done|]. by apply Hf.
Qed.

Lemma run_closed (f : op_pred atom) c l : closed f c.2 → closed f (interleave c l).2.
Proof. revert c. induction l as [|m l IH]; intros c Hc; [done|]. by apply IH, step_closed. Qed.

Lemma service_closed (f : op_pred atom) js : (∀ j, j ∈ js → all_ops f (task_of j)) → closed f (service js).2.
Proof. intros Hf. simpl. by apply Forall_fmap, Forall_forall. Qed.

Lemma perform_stays (X : Set) (op : atom X) ch s :
  intake_stays X op = true → phase_of s ≠ Active → phase_of (perform X op ch s).2 ≠ Active.
Proof. intros Hf Hs. destruct op as [|[]|[]|[]|[]|[]|[]|[]| | | |]; simpl in *; try done; by case_match. Qed.

(** Intake that has stopped stays so. *)
Lemma stopped_intake_stays c l :
  closed intake_stays c.2 → phase_of c.1 ≠ Active → phase_of (interleave c l).1 ≠ Active.
Proof.
  revert c. induction l as [|m l IH]; intros c Hc Hp; [done|]. apply IH; [by apply step_closed|].
  unfold step. destruct (c.2 !! m.1) as [p|] eqn:Hi; [|done]. pose proof (Forall_lookup_1 _ _ _ _ Hc Hi) as Hf.
  destruct p as [a|e|X op k]; simpl; [done..|]. pose proof (perform_stays X op m.2 c.1) as Hs. destruct Hf as [Hf _].
  destruct (perform X op m.2 c.1). by apply Hs.
Qed.

(** ** What a drain reports *)

Definition load_of (e : event atom) : option Z :=
  match e with Ev op x => match op in atom X return X → option Z with Load InFlight => Some | _ => λ _, None end x end.
Definition stops_intake (e : event atom) : bool :=
  match e with Ev op _ => match op with WritePhase Draining => true | _ => false end end.

(** The forced terminations of a report are a reading of the counter that the drain made after
    it stopped the intake. *)
Definition reported (tr : list (event atom)) (r : result (option metrics) Empty_set) : Prop :=
  ∀ m, r = Ok (Some m) → ∃ tr1 e tr2, tr = tr1 ++ e :: tr2 ∧ load_of e = Some (DrainMetrics.forced_terminations m)
    ∧ ∃ e0, e0 ∈ tr1 ∧ stops_intake e0 = true.

Definition anything : list (event atom) → event atom → Prop := λ _ _, True.

Lemma wp_anything {A} (p : prog A) (Q : list (event atom) → result A Empty_set → Prop) h :
  (∀ tr r, Q (h ++ tr) r) → wp anything p Q h.
Proof.
  revert h. induction p as [a|e|X op k IH]; intros h HQ; simpl.
  - rewrite <- (app_nil_r h). apply HQ.
  - rewrite <- (app_nil_r h). apply HQ.
  - intros x. split; [done|]. apply IH. intros tr r. rewrite <- app_assoc. apply HQ.
Qed.

Lemma drain_reports g t tr r : exec (task_of (Drain_ g t)) tr r → reported tr r.
Proof.
  intros Hex. assert (wp anything (task_of (Drain_ g t)) reported []) as Hwp; [|by apply (wp_sound _ _ _ _ _ _ Hwp) in Hex as [_ ?]].
  change (wp anything (drain g t ≫= λ m, mret (Some m)) reported []). apply wp_bind. unfold drain. apply wp_bind. intros []. split; [done|]. apply wp_bind. intros n. split; [done|].
  set (h := ([] ++ _) ++ _). apply wp_bind, wp_anything. intros tr1 [[]|[]]. apply wp_bind, wp_anything. intros tr2 [[]|[]].
  apply wp_bind. intros rest. split; [done|]. repeat (apply wp_bind; intros ?; split; [done|]).
  intros m Hm. simplify_eq/=. rewrite <- !app_assoc. exists (h ++ tr1 ++ tr2), (Ev (Load InFlight) rest). eexists. split; [by rewrite <- !app_assoc|].
  split; [done|]. exists (Ev (WritePhase Draining) tt). split; [|done]. unfold h. set_solver.
Qed.

Lemma others_report_nothing j tr r : (∀ g t, j ≠ Drain_ g t) → exec (task_of j) tr r → r = Ok None.
Proof.
  intros Hj. apply (post_exec (task_of j) (λ r, r = Ok None)). destruct j as [| | |g t]; [..|by destruct (Hj g t)].
  - intros p. simpl. by case_bool_decide.
  - intros p. simpl. case_bool_decide; [|done]. by intros ? ? ? ? [].
  - done.
Qed.

Lemma tasks_report j tr r : exec (task_of j) tr r → reported tr r.
Proof.
  intros Hex. assert ((∃ g t, j = Drain_ g t) ∨ ∀ g t, j ≠ Drain_ g t) as [(g & t & ->)|Hn] by (destruct j; naive_solver).
  - by eapply drain_reports.
  - intros m Hm. by rewrite (others_report_nothing _ _ _ Hn Hex) in Hm.
Qed.

Lemma started_drain_stopped c l i s e :
  closed intake_stays c.2 → (s, e) ∈ history perform c l i → stops_intake e = true → phase_of (interleave c l).1 ≠ Active.
Proof.
  intros Hc Hin Hs. apply list_elem_of_split in Hin as (h1 & h2 & Hh).
  apply history_split in Hh as (l1 & m & l2 & -> & -> & _ & Hm & X & op & k & Hi & ->). rewrite (cons_middle m), app_assoc, interleave_app.
  apply stopped_intake_stays; [by apply run_closed|]. rewrite interleave_snoc. subst i. rewrite (step_same _ _ _ _ Hi). simpl.
  destruct op as [|[]|[]|[]|[]|[]|[]|[]| | | |]; simpl in *; try done; by case_match.
Qed.

Lemma load_of_reading (X : Set) (op : atom X) ch s z : load_of (Ev op (perform X op ch s).1) = Some z → z = in_flight_of s.
Proof. destruct op as [| |[]| | | | | | | | |]; simpl; congruence. Qed.

(** What a drain reports as forced is what was in flight at a moment at which the intake had
    stopped. *)
Lemma report_is_a_reading js sched i m :
  result_at (interleave (service js) sched) i = Some m →
  ∃ l1 l2, sched = l1 ++ l2 ∧ phase_of (interleave (service js) l1).1 ≠ Active
    ∧ in_flight_of (interleave (service js) l1).1 = DrainMetrics.forced_terminations m.
Proof.
  unfold result_at. intros Hr. destruct (_ !! i) as [[[m'|]|[]|X op k]|] eqn:Hi; [|done..]. injection Hr as ->.
  assert (∃ j, (service js).2 !! i = Some (task_of j)) as [j Hj].
  { apply lookup_lt_Some in Hi. rewrite interleave_length in Hi. apply lookup_lt_is_Some in Hi as [p Hp]. rewrite Hp. simpl in Hp.
    apply list_lookup_fmap_Some in Hp as (j & -> & _). eauto. }
  pose proof (history_exec _ _ _ _ _ _ Hj Hi) as Hex. apply tasks_report in Hex.
  destruct (Hex m eq_refl) as (tr1 & e & tr2 & Htr & He & e0 & He0 & Hs). apply fmap_app_inv in Htr as (h1 & hr & -> & Hh & Htr).
  symmetry in Hh. apply fmap_cons_inv in Hh as ([s e'] & h2 & -> & _ & ->).
  apply history_split in Htr as (l1 & m1 & l2 & -> & -> & -> & _ & X & op & k & Hk & ->). exists l1, (m1 :: l2). split; [done|]. split.
  - apply list_elem_of_fmap in He0 as ([s0 e0'] & -> & He0). eapply started_drain_stopped; [|exact He0|exact Hs].
    apply service_closed. intros j' _. apply task_stays.
  - symmetry. by eapply load_of_reading.
Qed.

(** ** Connections *)

(** Without streams: the counter is changed by additions and subtractions only, and the number
    of streams stays 0. *)
Definition no_streams (X : Set) (op : atom X) : bool :=
  match op with
  | FetchAdd Streams _ | FetchSub Streams _ | FetchMax Streams _ => false
  | Store Streams n => (n =? 0)%Z
  | Store InFlight _ | FetchMax InFlight _ | CheckedSub InFlight => false
  | _ => true
  end.

Definition possible (X : Set) (op : atom X) : X → Prop :=
  match op in atom X return X → Prop with Load Streams => λ n, n = 0%Z | _ => λ _, True end.
Definition credit (X : Set) (op : atom X) (_ : X) : Z :=
  match op with FetchAdd InFlight n => n | FetchSub InFlight n => - n | _ => 0%Z end.
Definition needs (X : Set) (op : atom X) (n : Z) : Prop := match op with Serve => n = 1%Z | _ => True end.
Definition holds : task → Z → Prop := balanced possible credit needs.

Lemma wait_neutral fuel : neutral possible credit needs (wait_for_quiet fuel).
Proof.
  induction fuel as [|fuel IH]; simpl; [done|]. split; [done|]. intros n _. split; [done|]. simpl. case_match; [done|].
  split; [done|]. intros [] _; by split.
Qed.

Lemma drain_neutral g t : neutral possible credit needs (drain g t).
Proof.
  unfold drain. apply neutral_bind; [by repeat split|]. intros _. split; [done|]. intros n ->. split; [done|]. simpl.
  apply neutral_bind; [apply wait_neutral|]. intros _. by repeat split.
Qed.

Lemma task_holds_nothing j : j ≠ Stream → holds (task_of j) 0.
Proof.
  intros Hj. destruct j as [| | |g t]; [|done|by repeat split|apply neutral_balanced, neutral_bind; [apply drain_neutral|done]].
  split; [lia|]. split; [done|]. intros p _. simpl. case_bool_decide; simpl; [|done]. repeat split; simpl; lia.
Qed.

Lemma wait_no_streams fuel : all_ops no_streams (wait_for_quiet fuel).
Proof. induction fuel as [|fuel IH]; simpl; [done|]. split; [done|]. intros n. case_match; [done|]. split; [done|]. by intros []. Qed.

Lemma task_no_streams j : j ≠ Stream → all_ops no_streams (task_of j).
Proof.
  intros Hj. destruct j as [| | |g t]; [|done|by repeat split|].
  { split; [done|]. intros p. simpl. case_bool_decide; by repeat split. }
  apply all_ops_bind; [|done]. unfold drain. apply all_ops_bind; [by split|]. intros _. apply all_ops_bind; [by split|]. intros n.
  apply all_ops_bind; [|intros; apply all_ops_bind; [apply wait_no_streams|intros; by repeat split]].
  case_match; [|done]. apply all_ops_bind; [apply wait_no_streams|]. intros _. split; [done|]. intros z. simpl. case_match; by repeat split.
Qed.

(** The invariant: nobody counts a stream, and the counter is the sum of what the tasks hold. *)
Record counted (c : config) : Prop := {
  counted_closed : closed no_streams c.2;
  counted_streams : streams_of c.1 = 0;
  counted_held : ∃ held, Forall2 holds c.2 held ∧ in_flight_of c.1 = sumZ held;
}.

Lemma possible_now (X : Set) (op : atom X) ch s : streams_of s = 0 → possible X op (perform X op ch s).1.
Proof. by destruct op as [| |[]| | | | | | | | |]. Qed.

Lemma perform_counted (X : Set) (op : atom X) ch s :
  no_streams X op = true → streams_of s = 0 →
  streams_of (perform X op ch s).2 = 0
  ∧ (in_flight_of (perform X op ch s).2 = as_u64 (in_flight_of s + credit X op (perform X op ch s).1)
     ∨ in_flight_of (perform X op ch s).2 = in_flight_of s + credit X op (perform X op ch s).1).
Proof.
  intros Hf Hs. destruct op as [|[]|[]|[] n|[]|[]|[]|[]| | | |]; simpl in *; try done;
    repeat case_match; simpl in *; (split; [lia|]); first [right; lia|left; f_equal; lia].
Qed.

Lemma held_range ts held : Forall2 holds ts held → (0 <= sumZ held <= Z.of_nat (length ts))%Z.
Proof.
  intros Hall. rewrite (Forall2_length _ _ _ Hall). apply sumZ_bounds. apply Forall_forall. intros n Hn.
  apply list_elem_of_lookup in Hn as [i Hi]. destruct (Forall2_lookup_r _ _ _ _ _ Hall Hi) as (p & _ & Hp). by eapply balanced_range.
Qed.

Lemma counted_step c m : Z.of_nat (length c.2) < 2 ^ 64 → counted c → counted (step perform c m).
Proof.
  intros Hlen [Hc Hs (held & Hall & Hin)]. destruct (c.2 !! m.1) as [p|] eqn:Hp.
  2: { unfold step. rewrite Hp. split; eauto. }
  pose proof (step_closed _ c m Hc) as Hc'. rewrite (step_same _ _ _ _ Hp) in *.
  destruct (balanced_step perform possible credit needs held c.2 m.1 p m.2 c.1 Hall Hp) as (d & Hall' & Hst & Hd).
  { intros X op. by apply possible_now. }
  assert (m.1 < length held)%nat as Hlt by (rewrite <- (Forall2_length _ _ _ Hall); by eapply lookup_lt_Some).
  pose proof (held_range _ _ Hall') as Hr. rewrite length_insert in Hr. pose proof (sumZ_alter d m.1 held Hlt) as Hsum.
  pose proof (Forall_lookup_1 _ _ _ _ Hc Hp) as Hf.
  assert (streams_of (step_task perform m.2 p c.1).1 = 0 ∧ in_flight_of (step_task perform m.2 p c.1).1 = sumZ held + d) as [Hs' Hi'].
  { rewrite Hst. destruct p as [a|e|X op k]; subst d; [by rewrite Z.add_0_r..|].
    destruct (perform_counted X op m.2 c.1) as [? [Hw|Hw]]; [apply Hf|done|..]; (split; [done|]); rewrite Hw, Hin; [|done].
    unfold as_u64. apply Z.mod_small. lia. }
  split; [done|done|]. exists (alter (Z.add d) m.1 held). split; [done|]. simpl. lia.
Qed.

Lemma counted_run js l :
  Stream ∉ js → Z.of_nat (length js) < 2 ^ 64 → counted (interleave (service js) l).
Proof.
  intros Hj Hlen. induction l as [|m l IH] using rev_ind.
  - split; [apply service_closed; intros j Hin; apply task_no_streams; by intros ->|done|].
    exists (replicate (length js) 0). split; [|simpl; induction (length js); simpl; [done|]; unfold sumZ in *; simpl; lia].
    simpl. clear Hlen. induction js as [|j js IH]; simpl; [constructor|]. constructor; [|apply IH; set_solver].
    apply task_holds_nothing. set_solver.
  - rewrite interleave_snoc. apply counted_step; [|done]. rewrite interleave_length. simpl. by rewrite length_fmap.
Qed.
