(* ===== verification/DrainMachine.v ===== *)
(** * Draining on one thread

    When tasks give up their thread at awaits only, every method runs without interference
    between two of them: the programs implement a machine whose steps are whole calls, on which
    the counters are exact. *)

From stdpp Require Import prelude list strings.
From S2P Require Import Prelude Contract Prog Threads Drain DrainFacts.

Local Open Scope Z_scope.

(** ** The machine *)

(** Where a task can stop.  A wait has the number of wake-ups its timeout still allows. *)
Inductive point : Type :=
| Fresh (j : job)
| WorkConnection
| WorkStream
| WaitGrace (grace timeout : nat)
| WaitRest (timeout : nat)
| Done (r : option metrics).

Definition add_work (s : shared) : shared :=
  let n := as_u64 (in_flight_of s + 1) in set_value Peak (Z.max (peak_of s) n) (set_value InFlight n s).
Definition release (n : Z) (s : shared) : shared := set_value InFlight (as_u64 (in_flight_of s - n)) s.

Definition interrupted (s : shared) : shared :=
  if 0 <? streams_of s then
    set_value Streams 0 (release (streams_of s) (set_value Interrupted (as_u64 (interrupted_of s + streams_of s)) s))
  else s.

Definition finish (ch : choice) (s : shared) : shared * point :=
  (set_phase Terminated s,
   Done (Some {| DrainMetrics.drain_duration := elapsed ch; DrainMetrics.peak_in_flight := peak_of s;
                 DrainMetrics.forced_terminations := in_flight_of s; DrainMetrics.streams_interrupted := interrupted_of s |})).
Definition rest (timeout : nat) (ch : choice) (s : shared) : shared * point :=
  match timeout with
  | O => finish ch s
  | S t => if in_flight_of s =? 0 then finish ch s else (s, WaitRest t)
  end.
Definition grace_then (grace timeout : nat) (ch : choice) (s : shared) : shared * point :=
  match grace with
  | O => rest timeout ch (interrupted s)
  | S g => if in_flight_of s =? 0 then rest timeout ch (interrupted s) else (s, WaitGrace g timeout)
  end.

Definition next (pt : point) (ch : choice) (s : shared) : shared * point :=
  match pt with
  | Fresh Connection => if bool_decide (phase_of s = Active) then (add_work s, WorkConnection) else (s, Done None)
  | Fresh Stream =>
      if bool_decide (phase_of s = Active) then (add_work (set_value Streams (as_u64 (streams_of s + 1)) s), WorkStream) else (s, Done None)
  | Fresh Stop => (set_phase StopIntake s, Done None)
  | Fresh (Drain_ g t) =>
      let s := set_phase Draining s in if 0 <? streams_of s then grace_then g t ch s else rest t ch s
  | WorkConnection => (release 1 s, Done None)
  | WorkStream => if 0 <? streams_of s then (release 1 (set_value Streams (streams_of s - 1) s), Done None) else (s, Done None)
  | WaitGrace g t => if woken ch then grace_then g t ch s else rest t ch (interrupted s)
  | WaitRest t => if woken ch then rest t ch s else finish ch s
  | Done r => (s, Done r)
  end.

Definition machine : Type := shared * list point.
Definition advance (c : machine) (m : nat * choice) : machine :=
  match c.2 !! m.1 with
  | Some pt => let '(s, pt') := next pt m.2 c.1 in (s, <[m.1 := pt']> c.2)
  | None => c
  end.
Definition operate (js : list job) (sched : list (nat * choice)) : machine := foldl advance (fresh, Fresh <$> js) sched.

(** ** The programs implement it *)

Definition tail : prog metrics :=
  remaining ← atomic (Load InFlight);
  atomic (WritePhase Terminated);;
  duration ← atomic Elapsed;
  peak ← atomic (Load Peak);
  interrupted ← atomic (Load Interrupted);
  mret {| DrainMetrics.drain_duration := duration; DrainMetrics.peak_in_flight := peak;
          DrainMetrics.forced_terminations := remaining; DrainMetrics.streams_interrupted := interrupted |}.
Definition report (m : metrics) : task := mret (Some m).

Definition task_at (pt : point) : task :=
  match pt with
  | Fresh j => task_of j
  | WorkConnection => atomic Serve;; drop_connection AConnection;; mret None
  | WorkStream => atomic Serve;; drop_stream AStream;; mret None
  | WaitGrace g t =>
      (((w ← atomic Notified; if w : bool then wait_for_quiet g else mret tt);; interrupt_streams);; wait_for_quiet t;; tail) ≫= report
  | WaitRest t => ((w ← atomic Notified; if w : bool then wait_for_quiet t else mret tt);; tail) ≫= report
  | Done r => mret r
  end.

Abbreviation seg := (segment perform yields).
Definition placed (c : shared * point) : shared * task := (c.1, task_at c.2).

Lemma seg_tail ch s : seg ch (tail ≫= report) s = placed (finish ch s).
Proof. done. Qed.

Lemma seg_rest t ch s : seg ch ((wait_for_quiet t;; tail) ≫= report) s = placed (rest t ch s).
Proof. destruct t as [|t]; simpl; [done|]. by destruct (in_flight_of s =? 0). Qed.

Lemma seg_interrupted t ch s :
  seg ch ((interrupt_streams;; wait_for_quiet t;; tail) ≫= report) s = placed (rest t ch (interrupted s)).
Proof. rewrite <- seg_rest. simpl. unfold interrupted. by destruct (0 <? streams_of s). Qed.

Lemma seg_grace g t ch s :
  seg ch (((wait_for_quiet g;; interrupt_streams);; wait_for_quiet t;; tail) ≫= report) s = placed (grace_then g t ch s).
Proof.
  destruct g as [|g]; [apply seg_interrupted|]. simpl. destruct (in_flight_of s =? 0); [|done]. rewrite <- seg_interrupted. done.
Qed.

Lemma resume_point pt ch s : resume perform yields ch (task_at pt) s = placed (next pt ch s).
Proof.
  destruct pt as [[| | |g t]| | |g t|t|r]; simpl.
  - unfold resume. simpl. by case_bool_decide.
  - unfold resume. simpl. by case_bool_decide.
  - done.
  - unfold resume. simpl. destruct (0 <? streams_of s).
    + by rewrite <- seg_grace.
    + by rewrite <- seg_rest.
  - done.
  - unfold resume. simpl. by destruct (0 <? streams_of s).
  - unfold resume. simpl. destruct (woken ch).
    + by rewrite <- seg_grace.
    + by rewrite <- seg_interrupted.
  - unfold resume. simpl. destruct (woken ch).
    + by rewrite <- seg_rest.
    + by rewrite <- seg_tail.
  - done.
Qed.

Definition image (c : machine) : config := (c.1, task_at <$> c.2).

Lemma turn_image c m : turn perform yields (image c) m = image (advance c m).
Proof.
  unfold turn, advance, image. simpl. rewrite list_lookup_fmap. destruct (c.2 !! m.1) as [pt|]; simpl; [|done].
  rewrite resume_point. unfold placed. destruct (next pt m.2 c.1) as [s' pt']. simpl. by rewrite list_fmap_insert.
Qed.

(** Runs on one thread are the runs of the machine. *)
Lemma one_thread_operates js sched : one_thread (service js) sched = image (operate js sched).
Proof.
  unfold operate. assert (service js = image (fresh, Fresh <$> js)) as -> by (unfold service, image; simpl; by rewrite <- list_fmap_compose).
  generalize (fresh, Fresh <$> js). induction sched as [|m l IH]; intros c; simpl; [done|]. by rewrite turn_image, IH.
Qed.

(** ** Its invariant *)

Definition is_connection (pt : point) : bool := match pt with WorkConnection => true | _ => false end.
Definition is_stream (pt : point) : bool := match pt with WorkStream => true | _ => false end.
Definition b2z (b : bool) : Z := if b then 1 else 0.

(** With [n] connections and [k] streams at work: the work in flight is the connections and the
    counted streams, and streams are counted unless they were interrupted. *)
Record exact (s : shared) (n k : Z) : Prop := {
  exact_in_flight : in_flight_of s = n + streams_of s;
  exact_streams : streams_of s = k ∨ (streams_of s = 0 ∧ phase_of s ≠ Active);
}.
Definition wait_ok (s : shared) (pt : point) : Prop :=
  match pt with
  | WaitGrace _ _ => phase_of s ≠ Active
  | WaitRest _ => phase_of s ≠ Active ∧ streams_of s = 0
  | _ => True
  end.
Definition kind_ok (j : job) (pt : point) : Prop :=
  match pt with Fresh j' => j' = j | WorkConnection => j = Connection | WorkStream => j = Stream | WaitGrace _ _ | WaitRest _ => ∃ g t, j = Drain_ g t | Done _ => True end.

Lemma as_u64_small z : 0 <= z < 2 ^ 64 → as_u64 z = z.
Proof. apply Z.mod_small. Qed.

Lemma interrupted_exact s n k : 0 <= n → 0 <= k → n + k < 2 ^ 64 → phase_of s ≠ Active → exact s n k →
  exact (interrupted s) n k ∧ streams_of (interrupted s) = 0 ∧ phase_of (interrupted s) = phase_of s.
Proof.
  intros Hn Hk Hlt Hp [Hi Hs]. unfold interrupted. destruct (Z.ltb_spec 0 (streams_of s)).
  - split; [|done]. split; [|by right]. simpl. rewrite as_u64_small; lia.
  - split; [done|]. split; [lia|done].
Qed.

(** What a step leaves beside [n] connections and [k] streams of others; when intake has stopped
    nothing is admitted and no stream is counted again. *)
Record steps (s : shared) (n k : Z) (c : shared * point) : Prop := {
  steps_exact : exact c.1 (n + b2z (is_connection c.2)) (k + b2z (is_stream c.2));
  steps_wait : wait_ok c.1 c.2;
  steps_stopped : phase_of s ≠ Active →
    phase_of c.1 ≠ Active ∧ (streams_of s = 0 → streams_of c.1 = 0) ∧ is_connection c.2 = false ∧ is_stream c.2 = false;
}.

(** A step of a drain. *)
Lemma idle_steps s n k c :
  exact c.1 n k → wait_ok c.1 c.2 → phase_of c.1 ≠ Active → (streams_of s = 0 → streams_of c.1 = 0) →
  is_connection c.2 = false → is_stream c.2 = false → steps s n k c.
Proof. intros He Hw Hp Hz Hc Hs. split; [|done|done]. rewrite Hc, Hs. simpl. by rewrite !Z.add_0_r. Qed.

Lemma rest_steps t ch s0 s n k : exact s n k → phase_of s ≠ Active → streams_of s = 0 → steps s0 n k (rest t ch s).
Proof.
  intros [Hi Hs] Hp Hz. assert (exact (set_phase Terminated s) n k) as He by (split; [done|right; by split]).
  destruct t as [|t]; simpl; [|destruct (in_flight_of s =? 0)]; by apply idle_steps.
Qed.

Lemma interrupted_steps t ch s0 s n k :
  0 <= n → 0 <= k → n + k < 2 ^ 64 → exact s n k → phase_of s ≠ Active → steps s0 n k (rest t ch (interrupted s)).
Proof.
  intros Hn Hk Hlt He Hp. destruct (interrupted_exact s n k) as (Hi & Hz & Hph); [done..|]. apply rest_steps; [done| |done]. by rewrite Hph.
Qed.

Lemma grace_steps g t ch s0 s n k :
  0 <= n → 0 <= k → n + k < 2 ^ 64 → exact s n k → phase_of s ≠ Active → (streams_of s0 = 0 → streams_of s = 0) →
  steps s0 n k (grace_then g t ch s).
Proof.
  intros Hn Hk Hlt He Hp Hz.
  destruct g as [|g]; simpl; [|destruct (in_flight_of s =? 0)]; [by apply interrupted_steps..|by apply idle_steps].
Qed.

Lemma set_phase_exact p s n k : p ≠ Active → exact s n k → exact (set_phase p s) n k.
Proof. intros Hp [? [?|[? ?]]]; split; simpl; auto. Qed.

Lemma admit_steps s n k pt :
  phase_of s = Active → 0 <= n → 0 <= k → n + k + 1 < 2 ^ 64 → exact s n k →
  (pt = WorkConnection → steps s n k (add_work s, pt))
  ∧ (pt = WorkStream → steps s n k (add_work (set_value Streams (as_u64 (streams_of s + 1)) s), pt)).
Proof.
  intros Hp Hn Hk Hlt [Hi [Hs|[? ?]]]; [|done]. split; intros ->; (split; [|done|done]); simpl.
  - split; simpl; [|left; lia]. rewrite as_u64_small; lia.
  - split; simpl; [|left]; rewrite !as_u64_small; lia.
Qed.

Lemma release_steps s n k :
  0 <= n → 0 <= k → n + k + 1 < 2 ^ 64 → exact s (n + 1) k → steps s n k (release 1 s, Done None).
Proof.
  intros Hn Hk Hlt [Hi Hs]. split; [|done|naive_solver]. simpl. rewrite !Z.add_0_r. split; simpl; [|naive_solver].
  rewrite as_u64_small; destruct Hs as [?|[? ?]]; lia.
Qed.

Lemma release_stream_steps s n k :
  0 <= n → 0 <= k → n + k + 1 < 2 ^ 64 → exact s n (k + 1) → steps s n k (next WorkStream {| woken := false; elapsed := 0 |} s).
Proof.
  intros Hn Hk Hlt [Hi Hs]. simpl. destruct (Z.ltb_spec 0 (streams_of s)).
  - split; [|done|simpl; intros; split; [done|split; [lia|done]]]. simpl. rewrite !Z.add_0_r.
    split; simpl; [rewrite as_u64_small|left]; destruct Hs as [?|[? ?]]; lia.
  - split; [|done|naive_solver]. simpl. rewrite !Z.add_0_r. split; [done|]. destruct Hs as [?|[? ?]]; [left; lia|auto].
Qed.

Lemma next_steps pt ch s n k : 0 <= n → 0 <= k → n + k + 1 < 2 ^ 64 →
  exact s (n + b2z (is_connection pt)) (k + b2z (is_stream pt)) → wait_ok s pt → steps s n k (next pt ch s).
Proof.
  intros Hn Hk Hlt He Hw. destruct pt as [[| | |g t]| | |g t|t|r]; simpl in He; rewrite ?Z.add_0_r in He; simpl.
  - case_bool_decide; [by apply admit_steps|split; simpl; by rewrite ?Z.add_0_r].
  - case_bool_decide; [by apply admit_steps|split; simpl; by rewrite ?Z.add_0_r].
  - apply idle_steps; try done. by apply set_phase_exact.
  - pose proof (set_phase_exact Draining s n k ltac:(done) He) as Hd. destruct (Z.ltb_spec 0 (streams_of s)).
    + apply grace_steps; [done|done|lia|done..].
    + apply rest_steps; [done..|]. destruct (exact_streams _ _ _ He) as [?|[? ?]]; simpl; lia.
  - by apply release_steps.
  - by apply release_stream_steps.
  - destruct (woken ch); [apply grace_steps|apply interrupted_steps]; (done || lia).
  - destruct Hw as [Hp Hz]. destruct (woken ch); [by apply rest_steps|]. apply idle_steps; try done. by apply set_phase_exact.
  - split; simpl; by rewrite ?Z.add_0_r.
Qed.

(** ** Runs of the machine *)

Record sound (js : list job) (c : machine) : Prop := {
  sound_exact : exact c.1 (count is_connection c.2) (count is_stream c.2);
  sound_waits : Forall (wait_ok c.1) c.2;
  sound_kinds : Forall2 kind_ok js c.2;
}.

Lemma next_kind j pt ch s : kind_ok j pt → kind_ok j (next pt ch s).2.
Proof.
  assert (∀ t s, kind_ok j (WaitRest t) → kind_ok j (rest t ch s).2) as Hrest
    by (intros [|t] s' Hk; simpl; [done|]; by case_match).
  assert (∀ g t s, kind_ok j (WaitGrace g t) → kind_ok j (grace_then g t ch s).2) as Hgrace
    by (intros [|g] t s' Hk; simpl; [by apply Hrest|]; case_match; [by apply Hrest|done]).
  destruct pt as [[| | |g t]| | |g t|t|r]; simpl; try done.
  - intros <-. by case_bool_decide.
  - intros <-. by case_bool_decide.
  - intros <-. case_match; [apply Hgrace|apply Hrest]; simpl; eauto.
  - intros _. by case_match.
  - intros Hk. case_match; [by apply Hgrace|by apply Hrest].
  - intros Hk. case_match; [by apply Hrest|done].
Qed.

Lemma wait_ok_stable s n k c pt : steps s n k c → wait_ok s pt → wait_ok c.1 pt.
Proof. intros [_ _ Hs] Hw. destruct pt; simpl in *; try done; naive_solver. Qed.

Lemma counts_fit l : 0 <= count is_connection l ∧ 0 <= count is_stream l ∧ count is_connection l + count is_stream l <= Z.of_nat (length l).
Proof.
  induction l as [|pt l IH]; [done|]. rewrite (count_cons is_connection), (count_cons is_stream). destruct pt; unfold count in *; simpl in *; lia.
Qed.

Lemma others_fit l i pt : l !! i = Some pt →
  let n := count is_connection l - b2z (is_connection pt) in let k := count is_stream l - b2z (is_stream pt) in
  0 <= n ∧ 0 <= k ∧ n + k + 1 <= Z.of_nat (length l).
Proof.
  revert i. induction l as [|x l IH]; intros [|i] Hi; [done|done| |]; simpl in Hi; rewrite (count_cons is_connection), (count_cons is_stream).
  - injection Hi as ->. pose proof (counts_fit l). destruct pt; unfold count in *; simpl in *; lia.
  - specialize (IH _ Hi). simpl in IH. assert (0 <= count is_connection [x] ∧ 0 <= count is_stream [x] ∧ count is_connection [x] + count is_stream [x] <= 1).
    { destruct x; unfold count; simpl; lia. } simpl length. lia.
Qed.

Lemma sound_steps js c i pt ch : Z.of_nat (length js) < 2 ^ 64 → sound js c → c.2 !! i = Some pt →
  steps c.1 (count is_connection c.2 - b2z (is_connection pt)) (count is_stream c.2 - b2z (is_stream pt)) (next pt ch c.1).
Proof.
  intros Hlen [He Hw Hk] Hi. pose proof (others_fit _ _ _ Hi) as (? & ? & ?). rewrite <- (Forall2_length _ _ _ Hk) in *.
  apply next_steps; [done|done|lia| |by eapply Forall_lookup_1]. by rewrite !Z.sub_add.
Qed.

Lemma advance_sound js c m : Z.of_nat (length js) < 2 ^ 64 → sound js c → sound js (advance c m).
Proof.
  intros Hlen Hs. unfold advance. destruct (c.2 !! m.1) as [pt|] eqn:Hi; [|done]. pose proof (sound_steps _ _ _ _ m.2 Hlen Hs Hi) as Hn.
  destruct Hs as [He Hw Hk]. destruct (Forall2_lookup_r _ _ _ _ _ Hk Hi) as (j & Hj & Hjk). pose proof (next_kind j pt m.2 c.1 Hjk) as Hk'.
  destruct (next pt m.2 c.1) as [s' pt']. split; simpl in *.
  - rewrite !(count_insert _ _ _ _ _ Hi). by apply (steps_exact _ _ _ _ Hn).
  - apply Forall_insert; [|by apply (steps_wait _ _ _ _ Hn)]. eapply Forall_impl; [exact Hw|]. intros q. by eapply (wait_ok_stable _ _ _ (s', pt')).
  - rewrite <- (list_insert_id js m.1 j Hj). by apply Forall2_insert.
Qed.

Lemma operate_sound js sched : Z.of_nat (length js) < 2 ^ 64 → sound js (operate js sched).
Proof.
  intros Hlen. unfold operate. induction sched as [|m l IH] using rev_ind; [|rewrite foldl_app; by apply advance_sound].
  clear Hlen. simpl. split; simpl.
  - assert (count is_connection (Fresh <$> js) = 0 ∧ count is_stream (Fresh <$> js) = 0) as [-> ->]; [|split; [done|by left]].
    induction js as [|j js IH]; [done|]. rewrite fmap_cons, (count_cons is_connection), (count_cons is_stream). by destruct IH as [-> ->].
  - by apply Forall_fmap, Forall_true.
  - induction js; simpl; constructor; done.
Qed.

(** Once intake has stopped nothing is admitted. *)
Lemma advance_admits_nothing js c m i pt :
  Z.of_nat (length js) < 2 ^ 64 → sound js c → phase_of c.1 ≠ Active →
  phase_of (advance c m).1 ≠ Active
  ∧ ((advance c m).2 !! i = Some pt → is_connection pt || is_stream pt = true → c.2 !! i = Some pt).
Proof.
  intros Hlen Hs Hp. unfold advance. destruct (c.2 !! m.1) as [q|] eqn:Hi; [|done]. pose proof (sound_steps _ _ _ _ m.2 Hlen Hs Hi) as Hn.
  destruct (next q m.2 c.1) as [s' q']. destruct (steps_stopped _ _ _ _ Hn Hp) as (Hp' & _ & Hc & Hst). simpl in *. split; [done|].
  intros Hpt Hk. destruct (decide (i = m.1)) as [->|Hne]; [|by rewrite list_lookup_insert_ne in Hpt].
  rewrite list_lookup_insert_eq in Hpt by (by eapply lookup_lt_Some). simplify_eq. by rewrite Hc, Hst in Hk.
Qed.

(** A drain ends with what is in flight, and no stream counted. *)
Lemma next_reports pt ch s m :
  (next pt ch s).2 = Done (Some m) → pt ≠ Done (Some m) → wait_ok s pt → 0 <= streams_of s →
  DrainMetrics.forced_terminations m = in_flight_of (next pt ch s).1 ∧ streams_of (next pt ch s).1 = 0 ∧ phase_of (next pt ch s).1 = Terminated.
Proof.
  assert (∀ t s, streams_of s = 0 → (rest t ch s).2 = Done (Some m) →
    DrainMetrics.forced_terminations m = in_flight_of (rest t ch s).1 ∧ streams_of (rest t ch s).1 = 0 ∧ phase_of (rest t ch s).1 = Terminated) as Hrest.
  { intros [|t] s' Hz; simpl; [intros; by simplify_eq/=|]. case_match; [intros; by simplify_eq/=|done]. }
  assert (∀ s, 0 <= streams_of s → streams_of (interrupted s) = 0) as Hint.
  { intros s' Hz. unfold interrupted. destruct (Z.ltb_spec 0 (streams_of s')); [done|lia]. }
  assert (∀ g t s, 0 <= streams_of s → (grace_then g t ch s).2 = Done (Some m) →
    DrainMetrics.forced_terminations m = in_flight_of (grace_then g t ch s).1 ∧ streams_of (grace_then g t ch s).1 = 0
    ∧ phase_of (grace_then g t ch s).1 = Terminated) as Hgrace.
  { intros [|g] t s' Hz; simpl; [apply Hrest, Hint, Hz|]. case_match; [apply Hrest, Hint, Hz|done]. }
  intros Hd Hne Hw Hz. destruct pt as [[| | |g t]| | |g t|t|r]; simpl in *; try done.
  - by case_bool_decide.
  - by case_bool_decide.
  - destruct (Z.ltb_spec 0 (streams_of s)); [by apply Hgrace|]. apply Hrest; [simpl; lia|done].
  - by destruct (0 <? streams_of s).
  - destruct (woken ch); [by apply Hgrace|]. apply Hrest; [by apply Hint|done].
  - destruct Hw as [_ Hw]. destruct (woken ch); [by apply Hrest|]. by simplify_eq/=.
Qed.
