(* ===== verification/DrainProps.v ===== *)
(** * What a drain reports

    In every interleaving of a service without streams the report of a drain counts at least
    the connections that were at work; on one thread the counters are exact, with streams, and
    nothing is admitted once intake has stopped. *)

From stdpp Require Import prelude list strings.
From Stdlib Require Import Ascii.
From S2P Require Import Prelude RustStr Prog Contract Threads Drain DrainFacts DrainMachine.

Local Open Scope Z_scope.

(** ** Every interleaving *)

Lemma at_work_holds p n : holds p n → at_work p = true → n = 1.
Proof. destruct p as [|[]|X op k]; try done. intros (_ & Hn & _) Hw. by destruct op. Qed.

Lemma working_held js ts held : Forall2 holds ts held → count (λ '(j, p), bool_decide (j = Connection) && at_work p) (zip js ts) <= sumZ held.
Proof.
  intros Hall. revert js. induction Hall as [|p n ts held Hp Hall IH]; intros [|j js]; [done|done| |].
  - change (0 <= sumZ (n :: held)). assert (Forall2 holds (p :: ts) (n :: held)) as Hr by (by constructor). apply held_range in Hr. lia.
  - change (sumZ (n :: held)) with (n + sumZ held). simpl zip. rewrite count_cons. specialize (IH js).
    pose proof (balanced_range _ _ _ _ _ Hp). unfold count at 1. simpl.
    destruct (bool_decide (j = Connection) && at_work p) eqn:E; simpl; [|lia]. apply andb_true_iff in E as [_ E].
    pose proof (at_work_holds _ _ Hp E). lia.
Qed.

(** C16: However the tasks of a service without streams are interleaved, the counter is never
    below the number of connections at work and never above the number of tasks, and what a
    drain reports as forced terminations is what was counted at a moment at which the intake
    had stopped: a drain that reports none saw no connection at work. *)
Theorem drains_never_undercount js sched :
  Stream ∉ js → Z.of_nat (length js) < 2 ^ 64 →
  let c l := interleave (service js) l in
  working Connection js (c sched) <= in_flight_of (c sched).1 <= Z.of_nat (length js)
  ∧ ∀ i m, result_at (c sched) i = Some m →
      ∃ l1 l2, sched = l1 ++ l2 ∧ phase_of (c l1).1 ≠ Active
        ∧ in_flight_of (c l1).1 = DrainMetrics.forced_terminations m
        ∧ working Connection js (c l1) <= DrainMetrics.forced_terminations m.
Proof.
  intros Hj Hlen c. assert (∀ l, working Connection js (c l) <= in_flight_of (c l).1 <= Z.of_nat (length js)) as Hall.
  { intros l. destruct (counted_run js l Hj Hlen) as [_ _ (held & Hh & Hi)]. unfold c. rewrite Hi. split; [by apply working_held|].
    apply held_range in Hh. rewrite interleave_length in Hh. simpl in Hh. rewrite length_fmap in Hh. lia. }
  split; [apply Hall|]. intros i m Hm. destruct (report_is_a_reading _ _ _ _ Hm) as (l1 & l2 & -> & Hp & Hi).
  exists l1, l2. split; [done|]. split; [done|]. split; [done|]. rewrite <- Hi. apply Hall.
Qed.

(** ** One thread *)

Lemma working_points js pts k f :
  (∀ j pt, kind_ok j pt → bool_decide (j = k) && at_work (task_at pt) = f pt) → Forall2 kind_ok js pts →
  count (λ '(j, p), bool_decide (j = k) && at_work p) (zip js (task_at <$> pts)) = count f pts.
Proof.
  intros Hf Hall. induction Hall as [|j pt js pts Hk Hall IH]; [done|]. rewrite fmap_cons. simpl zip. rewrite count_cons, (count_cons f), IH.
  f_equal. unfold count. simpl. rewrite (Hf j pt Hk). by destruct (f pt).
Qed.

Lemma at_work_point pt : at_work (task_at pt) = is_connection pt || is_stream pt.
Proof. by destruct pt as [[]| | | | |]. Qed.

Lemma working_connections js c : sound js c → working Connection js (image c) = count is_connection c.2.
Proof.
  intros [_ _ Hk]. apply working_points; [|done]. clear. intros j pt Hk. rewrite at_work_point.
  destruct pt as [| | | | |]; simpl in *; subst; try apply andb_false_r; done.
Qed.
Lemma working_streams js c : sound js c → working Stream js (image c) = count is_stream c.2.
Proof.
  intros [_ _ Hk]. apply working_points; [|done]. clear. intros j pt Hk. rewrite at_work_point.
  destruct pt as [| | | | |]; simpl in *; subst; try apply andb_false_r; done.
Qed.

Lemma operate_snoc js l m : operate js (l ++ [m]) = advance (operate js l) m.
Proof. unfold operate. by rewrite foldl_app. Qed.

Lemma operate_reports js sched i m : Z.of_nat (length js) < 2 ^ 64 →
  (operate js sched).2 !! i = Some (Done (Some m)) →
  ∃ l1 l2, sched = l1 ++ l2 ∧ DrainMetrics.forced_terminations m = in_flight_of (operate js l1).1
    ∧ streams_of (operate js l1).1 = 0 ∧ phase_of (operate js l1).1 = Terminated.
Proof.
  intros Hlen. induction sched as [|x l IH] using rev_ind; intros Hi.
  { unfold operate in Hi. simpl in Hi. by apply list_lookup_fmap_Some in Hi as (j & ? & _). }
  assert ((operate js l).2 !! i = Some (Done (Some m)) → ∃ l1 l2, l ++ [x] = l1 ++ l2
    ∧ DrainMetrics.forced_terminations m = in_flight_of (operate js l1).1 ∧ streams_of (operate js l1).1 = 0
    ∧ phase_of (operate js l1).1 = Terminated) as Hold.
  { intros Hi'. destruct (IH Hi') as (l1 & l2 & -> & ?). exists l1, (l2 ++ [x]). by rewrite <- app_assoc. }
  rewrite operate_snoc in Hi. unfold advance in Hi. destruct ((operate js l).2 !! x.1) as [pt|] eqn:Hx; [|by apply Hold].
  destruct (decide (i = x.1)) as [->|Hne].
  2: { destruct (next pt x.2 _). simpl in Hi. rewrite list_lookup_insert_ne in Hi by done. by apply Hold. }
  assert ((next pt x.2 (operate js l).1).2 = Done (Some m)) as Hd.
  { destruct (next pt x.2 (operate js l).1). simpl in *. rewrite list_lookup_insert_eq in Hi by (by eapply lookup_lt_Some). by simplify_eq. }
  assert (pt = Done (Some m) ∨ pt ≠ Done (Some m)) as [->|Hne]
    by (destruct pt; [by right..|by left]); [by apply Hold|].
  destruct (operate_sound js l Hlen) as [He Hw _]. destruct (next_reports pt x.2 (operate js l).1 m Hd Hne) as (? & ? & ?).
  { by eapply Forall_lookup_1. }
  { destruct (exact_streams _ _ _ He) as [->|[-> _]]; [|done]. apply counts_fit. }
  exists (l ++ [x]), []. rewrite app_nil_r, operate_snoc. unfold advance. rewrite Hx. by destruct (next pt x.2 _).
Qed.

Lemma operate_admits js l1 l2 i pt : Z.of_nat (length js) < 2 ^ 64 → phase_of (operate js l1).1 ≠ Active →
  phase_of (operate js (l1 ++ l2)).1 ≠ Active
  ∧ ((operate js (l1 ++ l2)).2 !! i = Some pt → is_connection pt || is_stream pt = true → (operate js l1).2 !! i = Some pt).
Proof.
  intros Hlen Hp. induction l2 as [|m l IH] using rev_ind; [by rewrite app_nil_r|]. rewrite app_assoc, operate_snoc.
  destruct IH as [Hp' IH]. destruct (advance_admits_nothing js (operate js (l1 ++ l)) m i pt) as [? Ha]; [done|by apply operate_sound|done|].
  split; [done|]. intros Hi Hk. apply IH; [|done]. by apply Ha.
Qed.

(** C17: On one thread, with any number of connections, streams, stops and drains: the counter
    is exactly the connections at work and the counted streams, streams are counted unless
    intake has stopped and a drain interrupted them; what a drain reports as forced is exactly
    the connections that were at work when it ended, with no stream counted; and from the
    moment intake has stopped no task is admitted. *)
Theorem one_thread_drains_are_exact js sched :
  Z.of_nat (length js) < 2 ^ 64 →
  let c l := one_thread (service js) l in
  in_flight_of (c sched).1 = working Connection js (c sched) + streams_of (c sched).1
  ∧ (streams_of (c sched).1 = working Stream js (c sched) ∨ streams_of (c sched).1 = 0 ∧ phase_of (c sched).1 ≠ Active)
  ∧ (∀ i m, result_at (c sched) i = Some m →
      ∃ l1 l2, sched = l1 ++ l2 ∧ phase_of (c l1).1 = Terminated ∧ streams_of (c l1).1 = 0
        ∧ DrainMetrics.forced_terminations m = working Connection js (c l1))
  ∧ ∀ l1 l2 i p, sched = l1 ++ l2 → phase_of (c l1).1 ≠ Active →
      (c sched).2 !! i = Some p → at_work p = true → ∃ q, (c l1).2 !! i = Some q ∧ at_work q = true.
Proof.
  intros Hlen c. assert (∀ l, c l = image (operate js l)) as Hc by (intros l; apply one_thread_operates).
  pose proof (λ l, operate_sound js l Hlen) as Hs. destruct (sound_exact _ _ (Hs sched)) as [Hi Hk]. rewrite !Hc.
  rewrite (working_connections js) by done. rewrite (working_streams js) by done. split; [done|]. split; [done|]. split.
  - intros i m Hm. unfold result_at in Hm. simpl in Hm. rewrite list_lookup_fmap in Hm.
    destruct ((operate js sched).2 !! i) as [pt|] eqn:Hpt; [|done].
    assert (pt = Done (Some m)) as -> by (destruct pt as [[]| | | | |[]]; simpl in Hm; congruence).
    destruct (operate_reports _ _ _ _ Hlen Hpt) as (l1 & l2 & -> & Hf & Hz & Hp). exists l1, l2. rewrite Hc, (working_connections js) by done.
    split; [done|]. split; [done|]. split; [done|]. destruct (sound_exact _ _ (Hs l1)) as [Hi1 _]. lia.
  - intros l1 l2 i p -> Hp Hpt Hw. rewrite Hc in Hp |- *. simpl in Hpt. apply list_lookup_fmap_Some in Hpt as (pt & -> & Hpt).
    rewrite at_work_point in Hw. destruct (operate_admits js l1 l2 i pt Hlen Hp) as [_ Ha]. exists (task_at pt). simpl.
    rewrite list_lookup_fmap, (Ha Hpt Hw). by rewrite at_work_point.
Qed.

(** ** Concrete drains

    Schedules of a connection, a stream and a drain: what they report on one thread, and what
    goes wrong between two atomic operations on several. *)

Local Open Scope Z_scope.

(** Turns of a task: woken from its wait, or with its timeout gone. *)
Definition go (i : nat) : nat * choice := (i, {| woken := true; elapsed := 0 |}).
Definition late (i : nat) : nat * choice := (i, {| woken := false; elapsed := seconds 30 |}).
Definition report_of (c : config) (i : nat) : option (Z * Z) :=
  (λ m, (DrainMetrics.forced_terminations m, DrainMetrics.streams_interrupted m)) <$> result_at c i.

(** On one thread: a connection that ends in time, one that does not, a stream that is
    interrupted beside a connection, and a connection that comes too late. *)
Example drains_on_one_thread :
  report_of (one_thread (service [Connection; Drain_ 3 3]) [go 0; go 1; go 0; go 1]) 1 = Some (0, 0)
  ∧ report_of (one_thread (service [Connection; Drain_ 3 3]) [go 0; go 1; late 1]) 1 = Some (1, 0)
  ∧ report_of (one_thread (service [Stream; Connection; Drain_ 3 3]) [go 0; go 1; go 2; late 2; go 0; go 1; go 2]) 2 = Some (0, 1)
  ∧ at_work <$> ((one_thread (service [Connection; Stop]) [go 1; go 0]).2 !! 0%nat) = Some false.
Proof. vm_compute. split_and!; reflexivity. Qed.

(** The stream is dropped after the drain has read the number of stragglers and before it takes
    them off: both do, and the counter wraps below 0. *)
Definition dropped_in_between : list (nat * choice) :=
  replicate 4 (go 0) ++ [go 1; go 1; go 1; late 1; go 1] ++ replicate 4 (go 0) ++ replicate 5 (go 1) ++ [late 1] ++ replicate 6 (go 1).

Example interrupted_stream_is_released_twice :
  let c := interleave (service [Stream; Drain_ 1 1]) dropped_in_between in
  report_of c 1 = Some (2 ^ 64 - 1, 1) ∧ in_flight_of c.1 = 2 ^ 64 - 1 ∧ working Stream [Stream; Drain_ 1 1] c = 0.
Proof. vm_compute. split_and!; reflexivity. Qed.

(** A connection that has read the phase goes to work after the drain has reported a clean end. *)
Definition past_the_drain : list (nat * choice) := [go 0] ++ replicate 9 (go 1) ++ replicate 2 (go 0).

Example connection_slips_past_the_drain :
  let c := interleave (service [Connection; Drain_ 1 1]) past_the_drain in
  report_of c 1 = Some (0, 0) ∧ phase_of c.1 = Terminated ∧ working Connection [Connection; Drain_ 1 1] c = 1.
Proof. vm_compute. split_and!; reflexivity. Qed.

(** The grace period in the hook is the sleep and the drain timeout; the grace of the streams
    comes on top of it. *)
Example hook_leaves_out_the_streams :
  prestop_hook_yaml DrainConfig.default
  = ("lifecycle:" +:+ LF +:+ "  preStop:" +:+ LF +:+ "    exec:" +:+ LF +:+ "      command: [" +:+ DQ +:+ "/bin/sh" +:+ DQ +:+ ", " +:+ DQ +:+ "-c" +:+ DQ
     +:+ ", " +:+ DQ +:+ "sleep 5" +:+ DQ +:+ "]" +:+ LF +:+ "terminationGracePeriodSeconds: 35" +:+ LF)
  ∧ as_secs (DrainConfig.prestop_sleep DrainConfig.default) + as_secs (DrainConfig.stream_grace_period DrainConfig.default)
    + as_secs (DrainConfig.drain_timeout DrainConfig.default) = 45.
Proof. vm_compute. split; reflexivity. Qed.

Definition busy : list job := [Connection; Connection; Drain_ 2 2].
Definition busy_schedule : list (nat * choice) := replicate 3 (go 0) ++ replicate 3 (go 2) ++ replicate 3 (go 1) ++ [late 2] ++ replicate 5 (go 2).

Lemma never_undercount_witness :
  report_of (interleave (service busy) busy_schedule) 2 = Some (1, 0)
  ∧ let c l := interleave (service busy) l in
    working Connection busy (c busy_schedule) <= in_flight_of (c busy_schedule).1 <= 3
    ∧ ∀ i m, result_at (c busy_schedule) i = Some m →
        ∃ l1 l2, busy_schedule = l1 ++ l2 ∧ phase_of (c l1).1 ≠ Active
          ∧ in_flight_of (c l1).1 = DrainMetrics.forced_terminations m
          ∧ working Connection busy (c l1) <= DrainMetrics.forced_terminations m.
Proof.
  split; [vm_compute; reflexivity|]. apply (drains_never_undercount busy busy_schedule).
  - refine (bool_decide_eq_true_1 _ _). vm_compute. reflexivity.
  - vm_compute. reflexivity.
Defined.

Definition mixed : list job := [Stream; Connection; Drain_ 1 1].
Definition mixed_schedule : list (nat * choice) := [go 0; go 1; go 2; late 2; late 2].

Lemma exact_drains_witness :
  report_of (one_thread (service mixed) mixed_schedule) 2 = Some (1, 1)
  ∧ let c l := one_thread (service mixed) l in
    in_flight_of (c mixed_schedule).1 = working Connection mixed (c mixed_schedule) + streams_of (c mixed_schedule).1
    ∧ (streams_of (c mixed_schedule).1 = working Stream mixed (c mixed_schedule)
       ∨ streams_of (c mixed_schedule).1 = 0 ∧ phase_of (c mixed_schedule).1 ≠ Active)
    ∧ (∀ i m, result_at (c mixed_schedule) i = Some m →
        ∃ l1 l2, mixed_schedule = l1 ++ l2 ∧ phase_of (c l1).1 = Terminated ∧ streams_of (c l1).1 = 0
          ∧ DrainMetrics.forced_terminations m = working Connection mixed (c l1))
    ∧ ∀ l1 l2 i p, mixed_schedule = l1 ++ l2 → phase_of (c l1).1 ≠ Active →
        (c mixed_schedule).2 !! i = Some p → at_work p = true → ∃ q, (c l1).2 !! i = Some q ∧ at_work q = true.
Proof.
  split; [vm_compute; reflexivity|]. apply (one_thread_drains_are_exact mixed mixed_schedule). vm_compute. reflexivity.
Defined.
