(* ===== verification/Leader.v ===== *)
(** * Leader election on a lease

    [src/src/controller/leader.rs]: an attempt to acquire or renew a Kubernetes Lease, the
    election loop that keeps the leadership flag, and the guard of one-off jobs.  Programs
    ([Prog]) over the requests they make; the environment of the process and the API server
    answer them. *)

From stdpp Require Import prelude list strings.
From S2P Require Import Prelude RustStr Prog.

(** ** Leases *)

Module LeaseSpec.
Record t : Set := {
  holder_identity : option string; acquire_time : option DateTime; renew_time : option DateTime; lease_duration_seconds : option Z;
}.
Definition default : t := {| holder_identity := None; acquire_time := None; renew_time := None; lease_duration_seconds := None |}.
End LeaseSpec.
Abbreviation spec := LeaseSpec.t.

(** Of an object, what the code reads: its spec, if it has one. *)
Definition lease : Set := option spec.

(** A merge patch of the spec: the fields it sets. *)
Module LeasePatch.
Record t : Set := { holder : string; acquired : option DateTime; renewed : DateTime; duration : Z }.
End LeasePatch.

Inductive kube_error : Set := ApiError (code : Z) | KubeOther (msg : string).
Inductive error : Set := KubeError (e : kube_error) | ConfigError (msg : string) | IoError (msg : string).

Inductive leader_op : Set → Type :=
| UtcNow : leader_op DateTime
| GetLease (ns name : string) : leader_op (result lease kube_error)
| PatchLease (ns name : string) (p : LeasePatch.t) : leader_op (result unit kube_error)
| CreateLease (ns name : string) (s : spec) : leader_op (result unit kube_error)
| EnvVar (name : string) : leader_op (option string)
| Hostname : leader_op (option string)
| ProcessId : leader_op Z
| TryDefault : leader_op (result unit kube_error)
| LoadLeader : leader_op bool
| StoreLeader (b : bool) : leader_op unit
| Announce (b : bool) : leader_op unit
| SleepFor (d : Duration) : leader_op unit.

Abbreviation program := (tree leader_op error).
Definition ask {X : Set} (op : leader_op X) : program X := Vis op mret.
(** A request to the API server followed by [?]. *)
Definition kube {X : Set} (op : leader_op (result X kube_error)) : program X :=
  Vis op (λ r, match r with Ok x => mret x | Err e => Throw (KubeError e) end).

(** ** An attempt *)

Definition DEFAULT_LEASE_NAME : string := "stellar-operator-leader".
Definition LEASE_DURATION_SECS : Z := 15.
Definition RENEW_INTERVAL : Duration := seconds 10.
Definition RETRY_INTERVAL : Duration := seconds 5.

Definition lease_expired (s : option spec) (now : DateTime) : bool :=
  match s ≫= LeaseSpec.renew_time with
  | Some renew =>
      let duration := default LEASE_DURATION_SECS (s ≫= LeaseSpec.lease_duration_seconds) in
      (renew + seconds duration <? now)%Z
  | None => true
  end.

Definition renew_lease (ns name identity : string) (now : DateTime) : program unit :=
  kube (PatchLease ns name
    {| LeasePatch.holder := identity; LeasePatch.acquired := None; LeasePatch.renewed := now; LeasePatch.duration := LEASE_DURATION_SECS |}).
Definition claim_lease (ns name identity : string) (now : DateTime) : program unit :=
  kube (PatchLease ns name
    {| LeasePatch.holder := identity; LeasePatch.acquired := Some now; LeasePatch.renewed := now; LeasePatch.duration := LEASE_DURATION_SECS |}).
Definition create_lease (ns name identity : string) (now : DateTime) : program unit :=
  kube (CreateLease ns name
    {| LeaseSpec.holder_identity := Some identity; LeaseSpec.acquire_time := Some now; LeaseSpec.renew_time := Some now;
       LeaseSpec.lease_duration_seconds := Some LEASE_DURATION_SECS |}).

Definition try_acquire_or_renew (ns name identity : string) : program bool :=
  now ← ask UtcNow;
  r ← ask (GetLease ns name);
  match r with
  | Ok existing =>
      let current_holder := existing ≫= LeaseSpec.holder_identity in
      if bool_decide (current_holder = Some identity) then renew_lease ns name identity now;; mret true
      else if lease_expired existing now then claim_lease ns name identity now;; mret true
      else mret false
  | Err (ApiError 404) => create_lease ns name identity now;; mret true
  | Err e => Throw (KubeError e)
  end.

(** ** The guard *)

Record LeaseGuard : Set := { lease_name : string }.

Definition or_ask (o : option string) (p : program (option string)) : program (option string) :=
  match o with Some x => mret (Some x) | None => p end.

Definition acquire (scope : string) : program LeaseGuard :=
  let name := "stellar-k8s-" +:+ scope in
  ns ← ask (EnvVar "POD_NAMESPACE");
  let ns := default "default" ns in
  pod ← ask (EnvVar "POD_NAME");
  who ← or_ask pod (ask Hostname);
  identity ← match who with Some i => mret i | None => pid ← ask ProcessId; mret ("unknown-" +:+ show_Z pid) end;
  kube TryDefault;;
  ok ← try_acquire_or_renew ns name identity;
  if ok : bool then mret {| lease_name := name |}
  else Throw (ConfigError ("lease " +:+ name +:+ " is held by another operator")).

(** ** The election *)

(** The first rounds of the loop, which never ends. *)
Definition election_round (ns name identity : string) : program unit :=
  r ← catch (try_acquire_or_renew ns name identity);
  match r with
  | Ok true =>
      ask LoadLeader;;
      ask (StoreLeader true);;
      ask (Announce true);;
      ask (SleepFor RENEW_INTERVAL)
  | Ok false =>
      ask LoadLeader;;
      ask (StoreLeader false);;
      ask (Announce false);;
      ask (SleepFor RETRY_INTERVAL)
  | Err _ =>
      ask (StoreLeader false);;
      ask (Announce false);;
      ask (SleepFor RETRY_INTERVAL)
  end.
Fixpoint run_leader_election (rounds : nat) (ns name identity : string) : program unit :=
  match rounds with
  | O => mret tt
  | S n => election_round ns name identity;; run_leader_election n ns name identity
  end.

Definition start (rounds : nat) (lease_name lease_namespace identity : option string) : program unit :=
  name ← or_ask lease_name (ask (EnvVar "OPERATOR_LEASE_NAME"));
  ns ← or_ask lease_namespace (ask (EnvVar "POD_NAMESPACE"));
  pod ← or_ask identity (ask (EnvVar "POD_NAME"));
  who ← or_ask pod (ask Hostname);
  ask (StoreLeader false);;
  run_leader_election rounds (default "default" ns) (default DEFAULT_LEASE_NAME name) (default "unknown" who).
Definition is_leader : program bool := ask LoadLeader.
