(* ===== verification/LeaderFacts.v ===== *)
(** * Leases exclude each other

    Attempts against any server that keeps the lease as documented ([LeaseServer]), and may fail.
    Attempts that are not interleaved exclude: after one succeeds nobody else's does until the
    lease has run out.  The leadership flag follows the last attempt.  Interleaved attempts do
    not exclude: the patches carry no precondition. *)

From stdpp Require Import prelude list strings.
From Stdlib Require Import Sorted.
From S2P Require Import Prelude RustStr Prog Threads Leader.

Local Open Scope Z_scope.

(** ** The API server

    What is documented of it: a time is kept to the microsecond; a read returns the object or says
    that there is none; a merge patch that succeeds sets the fields it names and leaves the others;
    a creation succeeds only where there is no object; and a request that fails was carried out or
    was not.  All operators read one clock, which does not go back. *)

Section objects.
Context (keep : DateTime → DateTime).

Definition merge (p : LeasePatch.t) (l : lease) : lease :=
  let s := default LeaseSpec.default l in
  Some {| LeaseSpec.holder_identity := Some (LeasePatch.holder p);
          LeaseSpec.acquire_time := match LeasePatch.acquired p with Some t => Some (keep t) | None => LeaseSpec.acquire_time s end;
          LeaseSpec.renew_time := Some (keep (LeasePatch.renewed p));
          LeaseSpec.lease_duration_seconds := Some (LeasePatch.duration p) |}.
Definition keep_spec (s : spec) : spec :=
  {| LeaseSpec.holder_identity := LeaseSpec.holder_identity s; LeaseSpec.acquire_time := keep <$> LeaseSpec.acquire_time s;
     LeaseSpec.renew_time := keep <$> LeaseSpec.renew_time s; LeaseSpec.lease_duration_seconds := LeaseSpec.lease_duration_seconds s |}.
End objects.

Definition MICROSECOND : Z := 1000.

Class LeaseServer (T : Type) : Type := {
  respond : handler leader_op T;
  lease_in : string → string → T → option lease;
  clock : T → DateTime;
  keep : DateTime → DateTime;
}.

Section laws.
Context {T : Type} `{!LeaseServer T}.

Definition patched (ns name : string) (p : LeasePatch.t) (c c' : T) : Prop :=
  ∃ l, lease_in ns name c = Some l ∧ lease_in ns name c' = Some (merge keep p l).
Definition created (ns name : string) (s : spec) (c c' : T) : Prop :=
  lease_in ns name c = None ∧ lease_in ns name c' = Some (Some (keep_spec keep s)).
(** A request with this effect was answered. *)
Definition carried_out (ns name : string) (effect : Prop) (r : result unit kube_error) (c c' : T) : Prop :=
  match r with Ok _ => effect | Err _ => effect ∨ lease_in ns name c' = lease_in ns name c end.

Class LeaseServerLaws : Prop := {
  keep_mono : ∀ t t', t ≤ t' → keep t ≤ keep t';
  keep_close : ∀ t, t - MICROSECOND < keep t;
  clock_forward : ∀ X (op : leader_op X) c x c', respond X op c = (x, c') → clock c ≤ clock c';
  clock_read : ∀ ns name c t c', respond _ UtcNow c = (t, c') → clock c ≤ t ≤ clock c' ∧ lease_in ns name c' = lease_in ns name c;
  lease_read : ∀ ns name c r c', respond _ (GetLease ns name) c = (r, c') →
    lease_in ns name c' = lease_in ns name c
    ∧ (∀ l, r = Ok l → lease_in ns name c = Some l) ∧ (r = Err (ApiError 404) → lease_in ns name c = None);
  lease_patched : ∀ ns name p c r c', respond _ (PatchLease ns name p) c = (r, c') → carried_out ns name (patched ns name p c c') r c c';
  lease_created : ∀ ns name s c r c', respond _ (CreateLease ns name s) c = (r, c') → carried_out ns name (created ns name s c c') r c c';
}.
End laws.
Arguments LeaseServerLaws T {_}.

(** ** Exclusion *)

Section exclusion.
Context {T : Type} `{!LeaseServer T} `{!LeaseServerLaws T} (ns name : string).
Implicit Types (c : T).

(** The lease is [who]'s, renewed at [t]. *)
Definition holds (who : string) (t : DateTime) c : Prop :=
  ∃ s, lease_in ns name c = Some (Some s) ∧ LeaseSpec.holder_identity s = Some who ∧ LeaseSpec.renew_time s = Some (keep t)
    ∧ LeaseSpec.lease_duration_seconds s = Some LEASE_DURATION_SECS.

Definition attempt (who : string) c : result bool error * T := interp respond (try_acquire_or_renew ns name who) c.
(** The reading of the clock an attempt acts on. *)
Definition reading c : DateTime := (respond _ UtcNow c).1.

(** May [who] take the lease at this time? *)
Definition free_for (who : string) (now : DateTime) (l : option lease) : Prop :=
  match l with
  | None => True
  | Some l => l ≫= LeaseSpec.holder_identity = Some who ∨ lease_expired l now = true
  end.

(** An attempt leaves the lease as it is and has not got it, or takes a lease that is free for it. *)
Definition outcome (who : string) c (r : result bool error) c' : Prop :=
  clock c ≤ reading c ≤ clock c'
  ∧ ((lease_in ns name c' = lease_in ns name c ∧ r ≠ Ok true) ∨ (free_for who (reading c) (lease_in ns name c) ∧ holds who (reading c) c')).

Lemma patch_outcome who c c1 now acquired r c' :
  respond _ (PatchLease ns name {| LeasePatch.holder := who; LeasePatch.acquired := acquired; LeasePatch.renewed := now;
                                   LeasePatch.duration := LEASE_DURATION_SECS |}) c1 = (r, c') →
  lease_in ns name c1 = lease_in ns name c → free_for who now (lease_in ns name c) →
  (lease_in ns name c' = lease_in ns name c ∧ ∃ e, r = Err e) ∨ (free_for who now (lease_in ns name c) ∧ holds who now c').
Proof.
  intros Hr Hl Hf. apply lease_patched in Hr. unfold carried_out, patched in Hr. rewrite Hl in Hr.
  assert (∀ l, lease_in ns name c' = Some (merge keep {| LeasePatch.holder := who; LeasePatch.acquired := acquired;
    LeasePatch.renewed := now; LeasePatch.duration := LEASE_DURATION_SECS |} l) → holds who now c') as Hh by (intros l E; by eexists).
  destruct r as [[]|e]; [right|destruct Hr as [Hr|Hr]; [right|left]]; try (destruct Hr as (l & _ & E); eauto); eauto.
Qed.

Lemma attempt_outcome who c r c' : attempt who c = (r, c') → outcome who c r c'.
Proof.
  unfold attempt, outcome, reading, try_acquire_or_renew, ask, kube, renew_lease, claim_lease, create_lease. cbn.
  destruct (respond _ UtcNow c) as [now c1] eqn:E1. destruct (clock_read ns name _ _ _ E1) as [[H1 H2] L1].
  destruct (respond _ (GetLease ns name) c1) as [g c2] eqn:E2. destruct (lease_read _ _ _ _ _ E2) as (L2 & Hok & H404).
  pose proof (clock_forward _ _ _ _ _ E2) as H3. rewrite L1 in L2, Hok, H404. cbn [fst].
  assert (∀ c3 : T, clock c2 ≤ clock c3 → clock c ≤ now ≤ clock c3) as Hclock by lia.
  assert (∀ r1 : result bool error, r1 ≠ Ok true → (r1, c2) = (r, c') → clock c ≤ now ≤ clock c'
    ∧ ((lease_in ns name c' = lease_in ns name c ∧ r ≠ Ok true) ∨ (free_for who now (lease_in ns name c) ∧ holds who now c'))) as Hidle.
  { intros r1 Hr1 [= <- <-]. split; [lia|]. by left. }
  destruct g as [l|e]; cbn.
  - specialize (Hok l eq_refl). assert (∀ acquired,
      free_for who now (lease_in ns name c) →
      interp respond (Vis (PatchLease ns name {| LeasePatch.holder := who; LeasePatch.acquired := acquired; LeasePatch.renewed := now;
        LeasePatch.duration := LEASE_DURATION_SECS |}) (λ r, match r with Ok x => Ret x | Err e => Throw (KubeError e) end) ≫= λ _, mret true) c2 = (r, c') →
      clock c ≤ now ≤ clock c'
      ∧ ((lease_in ns name c' = lease_in ns name c ∧ r ≠ Ok true) ∨ (free_for who now (lease_in ns name c) ∧ holds who now c'))) as Hpatch.
    { intros acquired Hf. cbn. destruct (respond _ (PatchLease _ _ _) c2) as [x c3] eqn:E3. pose proof (clock_forward _ _ _ _ _ E3).
      destruct (patch_outcome who c c2 now acquired x c3 E3 L2 Hf) as [[Hs [e ->]]|[Hf' Hh]].
      - cbn. intros [= <- <-]. split; [lia|]. by left.
      - destruct x as [[]|e]; cbn; intros [= <- <-]; (split; [lia|by right]). }
    rewrite Hok in Hpatch |- *. case_bool_decide as Hb; [intros Hi; apply (Hpatch None); [by left|exact Hi]|].
    destruct (lease_expired l now) eqn:Hx; [intros Hi; apply (Hpatch (Some now)); [by right|exact Hi]|]. cbn. rewrite Hok in Hidle. by apply Hidle.
  - assert (e = ApiError 404 ∨ e ≠ ApiError 404) as [->|Hne] by (destruct e as [z|m]; [destruct (decide (z = 404)); [left|right]|right]; congruence).
    + cbn. specialize (H404 eq_refl). destruct (respond _ (CreateLease _ _ _) c2) as [x c3] eqn:E3. pose proof (clock_forward _ _ _ _ _ E3).
      pose proof (lease_created _ _ _ _ _ _ E3) as Hc. unfold carried_out, created in Hc. rewrite L2, H404 in Hc. rewrite H404.
      assert (lease_in ns name c3 = Some (Some (keep_spec keep {| LeaseSpec.holder_identity := Some who; LeaseSpec.acquire_time := Some now;
        LeaseSpec.renew_time := Some now; LeaseSpec.lease_duration_seconds := Some LEASE_DURATION_SECS |})) → holds who now c3) as Hh
        by (intros E; by eexists).
      destruct x as [[]|e]; cbn; intros [= <- <-]; (split; [lia|]).
      * right. split; [done|]. apply Hh, Hc.
      * destruct Hc as [[_ Hc]|Hc]; [right; split; [done|by apply Hh]|by left].
    + intros Hi. apply (Hidle (Err (KubeError e))); [done|]. rewrite <- Hi. clear -Hne.
      destruct e as [z|m]; [|done]. by repeat (case_match; try done).
Qed.

Definition got (r : result bool error) : bool := match r with Ok b => b | Err _ => false end.
Lemma got_true r : got r = true → r = Ok true.
Proof. by destruct r as [[]|]. Qed.

(** Attempts one after the other: who, at which reading of the clock, and with which success;
    between them time may pass. *)
Inductive story : T → list (string * DateTime * bool) → T → Prop :=
| story_end c : story c [] c
| story_pause c c1 l c' : lease_in ns name c1 = lease_in ns name c → clock c ≤ clock c1 → story c1 l c' → story c l c'
| story_attempt who c r c1 l c' :
    attempt who c = (r, c1) → story c1 l c' → story c ((who, reading c, got r) :: l) c'.

Lemma story_step who t ok c r c1 l c' :
  attempt who c = (r, c1) → t = reading c → ok = got r → story c1 l c' → story c ((who, t, ok) :: l) c'.
Proof. intros Ha -> ->. by apply story_attempt. Qed.

(** Since [t] the lease is [who]'s or has run out. *)
Definition guarded (who : string) (t : DateTime) c : Prop :=
  t ≤ clock c ∧ ((∃ u, t ≤ u ∧ holds who u c) ∨ keep t + seconds LEASE_DURATION_SECS < clock c).

Lemma guarded_pause who t c c1 :
  lease_in ns name c1 = lease_in ns name c → clock c ≤ clock c1 → guarded who t c → guarded who t c1.
Proof.
  intros Hl Hc [Ht Hg]. split; [lia|]. destruct Hg as [(u & Hu & s & Hs)|]; [left|right; lia].
  exists u. split; [done|]. exists s. by rewrite Hl.
Qed.

(** What a lease that is held means for an attempt on it. *)
Lemma free_when_held who t u b now c :
  holds who u c → t ≤ u → free_for b now (lease_in ns name c) → b = who ∨ keep t + seconds LEASE_DURATION_SECS < now.
Proof.
  intros (s & Hs & Hh & Hr & Hd) Hu. unfold free_for. rewrite Hs. cbn. rewrite Hh. intros [[= ->]|Hx]; [by left|right].
  unfold lease_expired in Hx. cbn in Hx. rewrite Hr, Hd in Hx. cbn in Hx. apply Z.ltb_lt in Hx. pose proof (keep_mono t u Hu). lia.
Qed.

Lemma guarded_attempt who t b c r c1 :
  guarded who t c → attempt b c = (r, c1) →
  guarded who t c1 ∧ (b ≠ who → r = Ok true → keep t + seconds LEASE_DURATION_SECS < reading c).
Proof.
  intros [Ht Hg] [[Hc Hc'] [[Hl Hr]|[Hf Hh]]]%attempt_outcome.
  - split; [|by intros _ ?]. apply (guarded_pause who t c); [done|lia|by split].
  - unfold guarded. destruct Hg as [(u & Hu & Hold)|Hg]; [|split; [split; [lia|right; lia]|lia]].
    destruct (free_when_held who t u b (reading c) c Hold Hu Hf) as [->|Hx].
    + split; [|done]. split; [lia|]. left. exists (reading c). split; [lia|done].
    + split; [|done]. split; [lia|right; lia].
Qed.

Lemma guarded_story who t c l c' b t' :
  story c l c' → guarded who t c → (b, t', true) ∈ l → b ≠ who → keep t + seconds LEASE_DURATION_SECS < t'.
Proof.
  induction 1 as [c|c c1 l c' Hl Hc Hs IH|x c r c1 l c' Ha Hs IH]; intros Hg Hin Hb.
  - by apply not_elem_of_nil in Hin.
  - apply IH; [by eapply guarded_pause|done..].
  - destruct (guarded_attempt who t x c r c1 Hg Ha) as [Hg' Hx]. apply elem_of_cons in Hin as [[= -> -> Hr]|Hin]; [|auto].
    apply Hx; [done|]. by apply got_true.
Qed.

Lemma story_from c l1 a t l2 c' : story c (l1 ++ (a, t, true) :: l2) c' → ∃ c1, guarded a t c1 ∧ story c1 l2 c'.
Proof.
  intros Hs. remember (l1 ++ (a, t, true) :: l2) as l eqn:El. revert l1 El.
  induction Hs as [c|c c1 l c' Hl Hc Hs IH|x c r c1 l c' Ha Hs IH]; intros l1 El.
  - by destruct l1.
  - by eapply IH.
  - destruct l1 as [|e l1]; [|injection El as _ El; by eapply IH]. injection El as -> <- Hr ->. exists c1. split; [|done].
    apply attempt_outcome in Ha as [Hclk [[_ Hn]|[_ Hh]]]; [by apply got_true in Hr|].
    split; [lia|]. left. exists (reading c). split; [lia|done].
Qed.
End exclusion.

Local Open Scope Z_scope.

(** C15: Against any API server that keeps the lease as documented and may fail any request, with
    one clock for all operators that does not go back: when attempts are not interleaved, an
    operator that acquired or renewed the lease at [t] has it to itself until it has run out.
    Another operator's attempt that succeeds later acts on a reading of the clock more than
    fifteen seconds after [t], up to the microsecond to which the server keeps times, whoever
    else tried in between and whatever became of it. *)
Theorem leases_exclude {T} `{!LeaseServer T} `{!LeaseServerLaws T} ns name (c c' : T) l1 l2 a t b t' :
  story ns name c (l1 ++ (a, t, true) :: l2) c' → (b, t', true) ∈ l2 → a ≠ b →
  t + seconds LEASE_DURATION_SECS - MICROSECOND < t'.
Proof.
  intros Hs Hin Hab. destruct (story_from ns name c l1 a t l2 c' Hs) as (c1 & Hg & Hs').
  pose proof (guarded_story ns name a t c1 l2 c' b t' Hs' Hg Hin (not_eq_sym Hab)). pose proof (keep_close t). lia.
Qed.

(** ** A server

    One lease, which never fails. *)

Section server.
Context (keep : DateTime → DateTime).

Record world : Type := { stored : option lease; flag : bool }.
Definition put (l : lease) (w : world) : world := {| stored := Some l; flag := flag w |}.

Definition serve (X : Set) (op : leader_op X) (now : DateTime) (w : world) : X * world :=
  match op in leader_op X return X * world with
  | UtcNow => (now, w)
  | GetLease _ _ => (match stored w with Some l => Ok l | None => Err (ApiError 404) end, w)
  | PatchLease _ _ p => match stored w with Some l => (Ok tt, put (merge keep p l) w) | None => (Err (ApiError 404), w) end
  | CreateLease _ _ s => match stored w with Some _ => (Err (ApiError 409), w) | None => (Ok tt, put (Some (keep_spec keep s)) w) end
  | EnvVar _ => (None, w)
  | Hostname => (None, w)
  | ProcessId => (1, w)
  | TryDefault => (Ok tt, w)
  | LoadLeader => (flag w, w)
  | StoreLeader b => (tt, {| stored := stored w; flag := b |})
  | Announce _ => (tt, w)
  | SleepFor _ => (tt, w)
  end.

Definition server_at (now : DateTime) : handler leader_op world := λ X op w, serve X op now w.

(** An attempt that nothing comes between. *)
Definition attempt_at (who : string) (now : DateTime) (w : world) : result bool error * world :=
  interp (server_at now) (try_acquire_or_renew "ns" "lease" who) w.

Definition succeeds (a : string * DateTime) (w : world) : bool :=
  match (attempt_at a.1 a.2 w).1 with Ok b => b | Err _ => false end.

(** [who] holds the lease that it renewed at [t]. *)
Definition held_by (who : string) (t : DateTime) (w : world) : Prop :=
  ∃ s, stored w = Some (Some s) ∧ LeaseSpec.holder_identity s = Some who ∧ LeaseSpec.renew_time s = Some (keep t)
    ∧ LeaseSpec.lease_duration_seconds s = Some LEASE_DURATION_SECS.

Lemma attempt_holds a w : succeeds a w = true → held_by a.1 a.2 (attempt_at a.1 a.2 w).2.
Proof.
  unfold succeeds, attempt_at, held_by. destruct a as [who now]. simpl. destruct (stored w) as [l|] eqn:El; simpl.
  - case_bool_decide; simpl; rewrite ?El; simpl; [by eexists|]. destruct (lease_expired l now); simpl; rewrite ?El; simpl; [by eexists|done].
  - rewrite El. simpl. by eexists.
Qed.

End server.

(** The server with a clock that advances a second with every request. *)
Definition to_micros (t : DateTime) : DateTime := t / MICROSECOND * MICROSECOND.
#[local] Instance one_lease : LeaseServer (world * DateTime) := {|
  respond := λ X op c, let '(x, w) := serve to_micros X op c.2 c.1 in (x, (w, c.2 + seconds 1));
  lease_in := λ _ _ c, stored c.1;
  clock := snd;
  keep := to_micros;
|}.
#[local] Instance one_lease_laws : LeaseServerLaws (world * DateTime).
Proof.
  split; cbn.
  - intros t t' Ht. unfold to_micros, MICROSECOND. apply Z.mul_le_mono_nonneg_r; [lia|]. apply Z.div_le_mono; lia.
  - intros t. unfold to_micros, MICROSECOND. pose proof (Z.div_mod t 1000 ltac:(lia)). pose proof (Z.mod_pos_bound t 1000 ltac:(lia)). lia.
  - intros X op [w now] x c'. destruct (serve to_micros X op _ _) as [y w']. intros [= _ <-]. unfold seconds, NANOS. cbn. lia.
  - intros ns name [w now] t c' [= <- <-]. unfold seconds, NANOS. cbn. split; [lia|done].
  - intros ns name [w now] r c'. cbn. intros [= <- <-]. cbn. split; [done|]. destruct (stored w); split; congruence.
  - intros ns name p [w now] r c'. unfold carried_out, patched. cbn. destruct (stored w) as [l|] eqn:E; intros [= <- <-]; cbn; rewrite ?E; eauto.
  - intros ns name s [w now] r c'. unfold carried_out, created. cbn. destruct (stored w) as [l|] eqn:E; intros [= <- <-]; cbn; rewrite ?E; eauto.
Qed.

(** ** Leadership

    The flag of the election loop, and the schedules in which two operators hold the lease. *)

(** One round of the election, with nothing in between: the flag is set exactly when the
    attempt succeeded, and then the lease is this operator's. *)
Definition round_at (keep : DateTime → DateTime) (who : string) (now : DateTime) (w : world) : world :=
  (interp (server_at keep now) (election_round "ns" "lease" who) w).2.

Lemma flag_follows_the_attempt keep who now w :
  flag (round_at keep who now w) = succeeds keep (who, now) w
  ∧ (flag (round_at keep who now w) = true → held_by keep who now (round_at keep who now w)).
Proof.
  pose proof (attempt_holds keep (who, now) w) as Hh. unfold round_at, election_round. rewrite interp_bind, interp_catch.
  unfold succeeds in *. cbn [fst snd] in *. fold (attempt_at keep who now w).
  destruct (attempt_at keep who now w) as [[[]|e] w']; simpl in *; by split.
Qed.

(** ** Interleaved attempts *)

Definition never_renewed : world := {| stored := Some (Some LeaseSpec.default); flag := false |}.
Definition operators (names : list string) : list (program bool) := try_acquire_or_renew "ns" "lease" <$> names.
Definition holders (c : world * list (program bool)) : list (option bool) := (λ p, match p with Ret b => Some b | _ => None end) <$> c.2.

(** Both read the lease that has run out before either claims it: both are told they have it. *)
Example two_operators_hold_the_lease :
  let c := run (serve id) (never_renewed, operators ["pod-a"; "pod-b"]) [(0%nat, 100); (0%nat, 100); (1%nat, 101); (1%nat, 101); (0%nat, 102); (1%nat, 103)] in
  holders c = [Some true; Some true].
Proof. vm_compute. reflexivity. Qed.

(** A holder that read its own lease renews it although another has claimed it since. *)
Definition held_at (who : string) (t : DateTime) : world :=
  {| stored := Some (Some {| LeaseSpec.holder_identity := Some who; LeaseSpec.acquire_time := Some t; LeaseSpec.renew_time := Some t;
                             LeaseSpec.lease_duration_seconds := Some 15 |}); flag := false |}.
Example slow_holder_takes_the_lease_back :
  let c := run (serve id) (held_at "pod-a" 0, operators ["pod-a"; "pod-b"])
             [(0%nat, seconds 10); (0%nat, seconds 10); (1%nat, seconds 16); (1%nat, seconds 16); (1%nat, seconds 16); (0%nat, seconds 17)] in
  holders c = [Some true; Some true] ∧ held_by id "pod-a" (seconds 10) c.1.
Proof. vm_compute. split; [reflexivity|]. eexists. split_and!; reflexivity. Qed.

(** Four attempts, with time passing in between. *)
Lemma leases_exclude_witness :
  ∃ c', story "ns" "lease" (never_renewed, seconds 0)
          ([("pod-b", seconds 0, true)] ++ ("pod-a", seconds 20, true) :: [("pod-b", seconds 25, false); ("pod-b", seconds 44, true)]) c'
    ∧ seconds 20 + seconds LEASE_DURATION_SECS - MICROSECOND < seconds 44.
Proof.
  assert (∃ c', story "ns" "lease" (never_renewed, seconds 0)
    ([("pod-b", seconds 0, true)] ++ ("pod-a", seconds 20, true) :: [("pod-b", seconds 25, false); ("pod-b", seconds 44, true)]) c') as [c' Hs].
  { eexists. cbn [app].
    eapply (story_step "ns" "lease" "pod-b" _ _ _ (Ok true) (held_at "pod-b" 0, seconds 3)); [vm_compute; reflexivity..|].
    apply (story_pause "ns" "lease" (held_at "pod-b" 0, seconds 3) (held_at "pod-b" 0, seconds 20)); [reflexivity|by vm_compute|].
    eapply (story_step "ns" "lease" "pod-a" _ _ _ (Ok true) (held_at "pod-a" (seconds 20), seconds 23)); [vm_compute; reflexivity..|].
    apply (story_pause "ns" "lease" (held_at "pod-a" (seconds 20), seconds 23) (held_at "pod-a" (seconds 20), seconds 25)); [reflexivity|by vm_compute|].
    eapply (story_step "ns" "lease" "pod-b" _ _ _ (Ok false) (held_at "pod-a" (seconds 20), seconds 27)); [vm_compute; reflexivity..|].
    apply (story_pause "ns" "lease" (held_at "pod-a" (seconds 20), seconds 27) (held_at "pod-a" (seconds 20), seconds 44)); [reflexivity|by vm_compute|].
    eapply (story_step "ns" "lease" "pod-b" _ _ _ (Ok true) (held_at "pod-b" (seconds 44), seconds 47)); [vm_compute; reflexivity..|].
    apply story_end. }
  exists c'. split; [exact Hs|].
  apply (leases_exclude "ns" "lease" _ c' _ _ "pod-a" (seconds 20) "pod-b" (seconds 44) Hs); [|discriminate].
  right. left.
Defined.
