(* ===== verification/Prune.v ===== *)
(** * Pruning of history archives

    [src/src/controller/archive_prune.rs], [pruning_worker.rs], [pruning_reconciler.rs] and the
    pruning policy of [src/src/crd/types.rs]: the scan of an archive, the choice of what may be
    deleted, the deletions under a lease ([Leader]), from the command line and from the
    reconciler.  Programs over requests; what a walk over the file system sees is one answer.
    Deletions run concurrently: they are made in the order in which they complete, the class
    [Completion].  Cron expressions and the parsing and rendering of times are [PruneDeps]. *)

From stdpp Require Import prelude list strings.
From Stdlib Require Import Ascii SpecFloat.
From S2P Require Import Prelude RustStr RustText Float64 Contract Prog Leader.

(** ** Text *)

Definition strip_prefix (p s : string) : option string :=
  if starts_with p s then Some (String.substring (String.length p) (String.length s - String.length p) s) else None.
Definition strip_suffix (p s : string) : option string :=
  let n := (String.length s - String.length p)%nat in
  if (String.length p <=? String.length s)%nat && String.eqb (String.substring n (String.length p) s) p
  then Some (String.substring 0 n s) else None.
Definition ends_with (p s : string) : bool := bool_decide (is_Some (strip_suffix p s)).

Definition KB : Z := 1024.
Definition MB : Z := KB * 1024.
Definition GB : Z := MB * 1024.
Definition TB : Z := GB * 1024.
Definition format_bytes (b : Z) : string :=
  let in_unit u name := fmt2 (f64_div (f64_of_Z b) (f64_of_Z u)) +:+ name in
  if (TB <=? b)%Z then in_unit TB " TB"
  else if (GB <=? b)%Z then in_unit GB " GB"
  else if (MB <=? b)%Z then in_unit MB " MB"
  else if (KB <=? b)%Z then in_unit KB " KB"
  else show_Z b +:+ " B".

Definition show_error (e : error) : string :=
  match e with
  | KubeError (ApiError c) => "[SK8S-001] Kubernetes API error: " +:+ show_Z c
  | KubeError (KubeOther m) => "[SK8S-001] Kubernetes API error: " +:+ m
  | ConfigError m => "[SK8S-004] Configuration error: " +:+ m
  | IoError m => "[SK8S-016] I/O error: " +:+ m
  end.

(** ** Locations *)

Inductive ArchiveBackend : Set := S3 | GCS | Local_.
#[global] Instance ArchiveBackend_eq_dec : EqDecision ArchiveBackend.
Proof. solve_decision. Defined.

Module ArchiveLocation.
Record t : Set := { backend : ArchiveBackend; bucket : string; prefix : string }.
Definition of_path (b : ArchiveBackend) (path : string) : t :=
  match split_once "/"%char path with
  | Some (bucket, rest) => {| backend := b; bucket := bucket; prefix := rest |}
  | None => {| backend := b; bucket := path; prefix := "" |}
  end.
Definition from_url (url : string) : result t error :=
  match strip_prefix "s3://" url with
  | Some path => Ok (of_path S3 path)
  | None =>
      match strip_prefix "gs://" url with
      | Some path => Ok (of_path GCS path)
      | None =>
          match strip_prefix "file://" url with
          | Some path => Ok {| backend := Local_; bucket := ""; prefix := path |}
          | None => Err (ConfigError ("Unsupported archive URL scheme: " +:+ url +:+ ". Must be s3://, gs://, or file://"))
          end
      end
  end.
End ArchiveLocation.
Abbreviation location := ArchiveLocation.t.

Module Checkpoint.
Record t : Set := { ledger_seq : Z; checkpoint_hash : string; timestamp : DateTime; size_bytes : Z; path : string; is_valid : bool }.
End Checkpoint.
Abbreviation checkpoint := Checkpoint.t.
#[global] Instance checkpoint_eq_dec : EqDecision checkpoint.
Proof. solve_decision. Defined.

(** ** Scanning *)

(** What a walk sees: entries in the order they are read, each an error, a directory (which may
    fail to open) or a file with its path, its name when that is text, and its metadata. *)
Inductive entry : Set :=
| EntryError (msg : string)
| SubDir (failed : option string) (entries : list entry)
| FileEntry (path : string) (name : option string) (meta : result (Z * result DateTime string) string).

Definition extract_ledger_from_hash (_hash : string) : option Z := None.

Definition parse_checkpoint_from_path (path filename : string) (meta : result (Z * result DateTime string) string)
    : result (option checkpoint) error :=
  let hash := default "" (strip_prefix "history-" filename ≫= strip_suffix ".xdr.gz") in
  match meta with
  | Err m => Err (IoError m)
  | Ok (_, Err m) => Err (IoError m)
  | Ok (size, Ok modified) =>
      Ok (Some {| Checkpoint.ledger_seq := default 0%Z (extract_ledger_from_hash hash); Checkpoint.checkpoint_hash := hash;
                  Checkpoint.timestamp := modified; Checkpoint.size_bytes := size; Checkpoint.path := path; Checkpoint.is_valid := true |})
  end.

Fixpoint scan_entry (e : entry) : result (list checkpoint) error :=
  match e with
  | EntryError m => Err (IoError m)
  | SubDir (Some m) _ => Err (IoError m)
  | SubDir None es =>
      (fix scan_hex_directory (es : list entry) : result (list checkpoint) error :=
         match es with
         | [] => Ok []
         | e :: es' =>
             match scan_entry e with
             | Err x => Err x
             | Ok l => match scan_hex_directory es' with Err x => Err x | Ok l' => Ok (l ++ l') end
             end
         end) es
  | FileEntry path (Some filename) meta =>
      if starts_with "history-" filename && ends_with ".xdr.gz" filename then
        match parse_checkpoint_from_path path filename meta with
        | Err x => Err x
        | Ok (Some c) => Ok [c]
        | Ok None => Ok []
        end
      else Ok []
  | FileEntry _ None _ => Ok []
  end.

(** The top level: only directories are looked into. *)
Fixpoint scan_local (es : list entry) : result (list checkpoint) error :=
  match es with
  | [] => Ok []
  | EntryError m :: _ => Err (IoError m)
  | (SubDir _ _ as d) :: es' =>
      match scan_entry d with
      | Err x => Err x
      | Ok l => match scan_local es' with Err x => Err x | Ok l' => Ok (l ++ l') end
      end
  | FileEntry _ _ _ :: es' => scan_local es'
  end.

(** ** Choosing *)

Definition MIN_CHECKPOINTS_TO_RETAIN : Z := 10.
Definition days (d : Z) : Duration := seconds (d * 86400).

Definition newest_first (a b : checkpoint) : bool := (Checkpoint.ledger_seq b <=? Checkpoint.ledger_seq a)%Z.

(** The test a checkpoint behind the safety buffer has to pass. *)
Definition may_delete (cutoff_ledger : option Z) (cutoff_time : option DateTime) (max_age_cutoff : DateTime) (c : checkpoint) : bool :=
  negb (max_age_cutoff <? Checkpoint.timestamp c)%Z
  && match cutoff_ledger, cutoff_time with
     | Some l, _ => (Checkpoint.ledger_seq c <? l)%Z
     | None, Some t => (Checkpoint.timestamp c <? t)%Z
     | None, None => false
     end.

(** The loop, from position [i]; deletable and retained in order. *)
Fixpoint classify (min_retain : Z) (f : checkpoint → bool) (i : Z) (l : list checkpoint) : list checkpoint * list checkpoint :=
  match l with
  | [] => ([], [])
  | c :: l' =>
      let '(d, r) := classify min_retain f (i + 1) l' in
      if (i <? min_retain)%Z then (d, c :: r)
      else if f c then (c :: d, r) else (d, c :: r)
  end.

Definition saturating_sub (a b : Z) : Z := Z.max 0 (a - b).

Definition identify_deletable_checkpoints (checkpoints : list checkpoint) (retention_days retention_ledgers : option Z)
    (min_checkpoints max_age_days : Z) (now : DateTime) : list checkpoint * list checkpoint :=
  match checkpoints with
  | [] => ([], [])
  | _ =>
      let sorted := sort_by newest_first checkpoints in
      let min_retain := Z.max min_checkpoints MIN_CHECKPOINTS_TO_RETAIN in
      let cutoff_ledger := (λ ledgers, default 0%Z ((λ latest, saturating_sub (Checkpoint.ledger_seq latest) ledgers) <$> head sorted)) <$> retention_ledgers in
      let cutoff_time := (λ d, (now - days d)%Z) <$> retention_days in
      let max_age_cutoff := (now - days max_age_days)%Z in
      classify min_retain (may_delete cutoff_ledger cutoff_time max_age_cutoff) 0 sorted
  end.

(** ** Requests *)

Module PruningStatus.
Record t : Set := {
  last_run_time : option string; last_run_status : option string; total_checkpoints : option Z; deleted_count : option Z;
  retained_count : option Z; bytes_freed : option Z; message : option string; dry_run : option bool;
}.
End PruningStatus.

Inductive prune_op : Set → Type :=
| LeaderOp {X : Set} (o : leader_op X) : prune_op X
| PruneNow : prune_op DateTime
| ReadTree (base : string) : prune_op (result (list entry) string)
| LeaseDeadline : prune_op bool
| RemoveFile (path : string) : prune_op (result unit string)
| PatchPruning (s : PruningStatus.t) : prune_op (result unit kube_error).

Abbreviation pruner := (tree prune_op error).
Definition call {X : Set} (op : prune_op X) : pruner X := Vis op mret.
Fixpoint lift {A} (p : tree leader_op error A) : pruner A :=
  match p with
  | Ret a => Ret a
  | Throw e => Throw e
  | Vis op k => Vis (LeaderOp op) (λ x, lift (k x))
  end.
Definition try_ {A} (r : result A error) : pruner A := match r with Ok a => mret a | Err e => Throw e end.

Definition scan_checkpoints (l : location) : pruner (list checkpoint) :=
  match ArchiveLocation.backend l with
  | S3 => mret []
  | GCS => mret []
  | Local_ =>
      r ← call (ReadTree (ArchiveLocation.prefix l));
      match r with
      | Err e => Throw (ConfigError ("Failed to read directory " +:+ ArchiveLocation.prefix l +:+ ": " +:+ e))
      | Ok es => try_ (scan_local es)
      end
  end.

(** ** Deleting *)

Module PruneResult.
Record t : Type := {
  total_checkpoints : Z; eligible_for_deletion : Z; deleted_count : Z; retained_count : Z; bytes_freed : Z;
  deleted_ledgers : list Z; retained_ledgers : list Z; errors : list string; dry_run : bool;
}.
Definition set_totals (total retained : Z) (ledgers : list Z) (r : t) : t :=
  {| total_checkpoints := total; eligible_for_deletion := eligible_for_deletion r; deleted_count := deleted_count r; retained_count := retained;
     bytes_freed := bytes_freed r; deleted_ledgers := deleted_ledgers r; retained_ledgers := ledgers; errors := errors r; dry_run := dry_run r |}.
End PruneResult.
Abbreviation report := PruneResult.t.

Definition delete_checkpoint (c : checkpoint) (l : location) : pruner unit :=
  match ArchiveLocation.backend l with
  | S3 => mret tt
  | GCS => mret tt
  | Local_ =>
      r ← call (RemoveFile (Checkpoint.path c));
      match r with
      | Ok _ => mret tt
      | Err e => Throw (ConfigError ("Failed to delete " +:+ Checkpoint.path c +:+ ": " +:+ e))
      end
  end.

(** One deletion of the stream: its error is kept. *)
Definition delete_one (l : location) (errors : list string) (c : checkpoint) : pruner (list string) :=
  r ← catch (delete_checkpoint c l);
  match r with
  | Ok _ => mret errors
  | Err e => mret (errors ++ ["Failed to delete ledger " +:+ show_Z (Checkpoint.ledger_seq c) +:+ ": " +:+ show_error e])
  end.

(** The order in which concurrent deletions complete. *)
Class Completion : Type := {
  completes : list checkpoint → list checkpoint;
  completes_perm : ∀ l, completes l ≡ₚ l;
}.

Section prune.
Context `{Completion}.

Definition execute_prune (_lease : LeaseGuard) (deletable : list checkpoint) (l : location) (force : bool) : pruner report :=
  let total_bytes := as_u64 (sumZ (Checkpoint.size_bytes <$> deletable)) in
  let deleted_ledgers := Checkpoint.ledger_seq <$> deletable in
  let n := Z.of_nat (length deletable) in
  if negb force then
    mret {| PruneResult.total_checkpoints := 0; PruneResult.eligible_for_deletion := n; PruneResult.deleted_count := 0;
            PruneResult.retained_count := 0; PruneResult.bytes_freed := total_bytes; PruneResult.deleted_ledgers := deleted_ledgers;
            PruneResult.retained_ledgers := []; PruneResult.errors := []; PruneResult.dry_run := true |}
  else
    errors ← for_each (delete_one l) (completes deletable) [];
    mret {| PruneResult.total_checkpoints := 0; PruneResult.eligible_for_deletion := n;
            PruneResult.deleted_count := as_u64 (n - Z.of_nat (length errors));
            PruneResult.retained_count := 0; PruneResult.bytes_freed := total_bytes; PruneResult.deleted_ledgers := deleted_ledgers;
            PruneResult.retained_ledgers := []; PruneResult.errors := errors; PruneResult.dry_run := false |}.
End prune.

(** ** The command *)

Module PruneArgs.
Record t : Type := {
  archive_url : string; retention_days : option Z; retention_ledgers : option Z; min_checkpoints : Z; force : bool; max_age_days : Z;
  concurrency : Z; yes : bool;
}.
End PruneArgs.

(** [timeout(30s, LeaseGuard::acquire(..))]: the deadline is asked for first, so the requests of
    an acquisition that is cut short are left out. *)
Definition acquire_in_time : pruner LeaseGuard :=
  late ← call LeaseDeadline;
  if late : bool then Throw (ConfigError "timed out acquiring leader lease") else
  r ← catch (lift (acquire "history-archive-prune"));
  match r with
  | Ok g => mret g
  | Err e => Throw (ConfigError ("failed to acquire leader lease: " +:+ show_error e))
  end.

Section command.
Context `{Completion}.

Definition check_retention (args : PruneArgs.t) : result unit error :=
  match PruneArgs.retention_days args, PruneArgs.retention_ledgers args with
  | None, None => Err (ConfigError "Must specify either --retention-days or --retention-ledgers")
  | Some _, Some _ => Err (ConfigError "Cannot specify both --retention-days and --retention-ledgers")
  | _, _ => Ok tt
  end.

(** [None] when there is nothing to prune, otherwise the result that is printed. *)
Definition prune_archive (args : PruneArgs.t) : pruner (option report) :=
  try_ (check_retention args);;
  l ← try_ (ArchiveLocation.from_url (PruneArgs.archive_url args));
  checkpoints ← scan_checkpoints l;
  match checkpoints with
  | [] => mret None
  | _ =>
      now ← call PruneNow;
      let '(deletable, retained) := identify_deletable_checkpoints checkpoints (PruneArgs.retention_days args) (PruneArgs.retention_ledgers args)
        (Z.max (PruneArgs.min_checkpoints args) MIN_CHECKPOINTS_TO_RETAIN) (PruneArgs.max_age_days args) now in
      lease ← acquire_in_time;
      result ← execute_prune lease deletable l (PruneArgs.force args);
      mret (Some (PruneResult.set_totals (Z.of_nat (length checkpoints)) (Z.of_nat (length retained)) (Checkpoint.ledger_seq <$> retained) result))
  end.
End command.

(** ** The policy and the worker *)

Module PruningPolicy.
Record t : Type := {
  enabled : bool; retention_days : option Z; retention_ledgers : option Z; min_checkpoints : Z; max_age_days : Z; concurrency : Z;
  schedule : option string; auto_delete : bool; skip_confirmation : bool;
}.
Definition default : t :=
  {| enabled := false; retention_days := None; retention_ledgers := None; min_checkpoints := 50; max_age_days := 7; concurrency := 10;
     schedule := None; auto_delete := false; skip_confirmation := false |}.
Definition validate (p : t) : result unit string :=
  if negb (enabled p) then Ok tt else
  match retention_days p, retention_ledgers p with
  | None, None => Err "Must specify either retention_days or retention_ledgers"
  | Some _, Some _ => Err "Cannot specify both retention_days and retention_ledgers"
  | _, _ =>
      if (min_checkpoints p <? 10)%Z then Err ("min_checkpoints must be at least 10, got " +:+ show_Z (min_checkpoints p))
      else if (max_age_days p =? 0)%Z then Err "max_age_days must be greater than 0"
      else if (concurrency p =? 0)%Z then Err "concurrency must be greater than 0"
      else Ok tt
  end.
End PruningPolicy.
Abbreviation policy := PruningPolicy.t.

(** [Schedule::from_str] with [after(t).next()], and times as text. *)
Class PruneDeps : Type := {
  cron_parse : string → option (DateTime → option DateTime);
  prune_parse_time : string → option DateTime;
  prune_show_time : DateTime → string;
}.

Module PruningWorker.
Definition new (p : policy) : result policy error :=
  match PruningPolicy.validate p with Ok _ => Ok p | Err m => Err (ConfigError m) end.
Definition should_run_scheduled `{PruneDeps} (p : policy) (last_run : option DateTime) (now : DateTime) : bool :=
  if negb (PruningPolicy.enabled p) then false else
  match PruningPolicy.schedule p with
  | None => false
  | Some s =>
      match cron_parse s with
      | None => false
      | Some next_after =>
          match last_run with
          | None => true
          | Some last => match next_after last with Some next => (next <=? now)%Z | None => false end
          end
      end
  end.
Definition is_checkpoint_safe_to_delete (p : policy) (age_days count_from_latest : Z) : bool :=
  if (count_from_latest <? PruningPolicy.min_checkpoints p)%Z then false
  else if (age_days <? PruningPolicy.max_age_days p)%Z then false
  else true.
Definition meets_retention_criteria (p : policy) (age_days ledger latest : Z) : bool :=
  match PruningPolicy.retention_days p, PruningPolicy.retention_ledgers p with
  | Some d, _ => (d <? age_days)%Z
  | None, Some n => (n <? saturating_sub latest ledger)%Z
  | None, None => false
  end.
End PruningWorker.

Module PruningAnalysis.
Record t : Type := { total_checkpoints : Z; eligible_for_deletion : Z; will_be_retained : Z; bytes_to_free : Z; dry_run : bool }.
Definition to_status `{PruneDeps} (a : t) (deleted : Z) (message : string) (now : DateTime) : PruningStatus.t :=
  {| PruningStatus.last_run_time := Some (prune_show_time now); PruningStatus.last_run_status := Some "Success";
     PruningStatus.total_checkpoints := Some (total_checkpoints a); PruningStatus.deleted_count := Some deleted;
     PruningStatus.retained_count := Some (will_be_retained a); PruningStatus.bytes_freed := Some (bytes_to_free a);
     PruningStatus.message := Some message; PruningStatus.dry_run := Some (dry_run a) |}.
End PruningAnalysis.

(** ** The reconciler *)

(** Of a node, what the reconciler reads. *)
Module PruneNode.
Record t : Type := { pruning_policy : option policy; last_run_time : option string; history_archive_urls : option (list string) }.
End PruneNode.

Section reconciler.
Context `{Completion} `{PruneDeps}.

Definition process_archive (p : policy) (url : string) : pruner report :=
  l ← try_ (ArchiveLocation.from_url url);
  checkpoints ← scan_checkpoints l;
  match checkpoints with
  | [] =>
      mret {| PruneResult.total_checkpoints := 0; PruneResult.eligible_for_deletion := 0; PruneResult.deleted_count := 0;
              PruneResult.retained_count := 0; PruneResult.bytes_freed := 0; PruneResult.deleted_ledgers := []; PruneResult.retained_ledgers := [];
              PruneResult.errors := []; PruneResult.dry_run := negb (PruningPolicy.auto_delete p) |}
  | _ =>
      now ← call PruneNow;
      let '(deletable, retained) := identify_deletable_checkpoints checkpoints (PruningPolicy.retention_days p) (PruningPolicy.retention_ledgers p)
        (PruningPolicy.min_checkpoints p) (PruningPolicy.max_age_days p) now in
      lease ← lift (acquire "history-archive-prune");
      if PruningPolicy.auto_delete p then execute_prune lease deletable l true else execute_prune lease deletable l false
  end.

(** One archive of the loop: an error is logged. *)
Definition one_archive (p : policy) (overall : option report) (url : string) : pruner (option report) :=
  r ← catch (process_archive p url);
  match r with Ok r => mret (Some r) | Err _ => mret overall end.

Definition reconcile_pruning (node : PruneNode.t) : pruner (option report) :=
  match PruneNode.pruning_policy node with
  | None => mret None
  | Some p =>
      worker ← try_ (PruningWorker.new p);
      let last_run := PruneNode.last_run_time node ≫= prune_parse_time in
      now ← call PruneNow;
      if negb (PruningWorker.should_run_scheduled worker last_run now) then mret None else
      match PruneNode.history_archive_urls node with
      | Some ((_ :: _) as urls) => for_each (one_archive worker) urls None
      | _ => mret None
      end
  end.

Definition update_pruning_status (r : report) : pruner unit :=
  now ← call PruneNow;
  a ← call (PatchPruning
    {| PruningStatus.last_run_time := Some (prune_show_time now);
       PruningStatus.last_run_status := Some (match PruneResult.errors r with [] => "Success" | _ => "PartialSuccess" end);
       PruningStatus.total_checkpoints := Some (as_u32 (PruneResult.total_checkpoints r));
       PruningStatus.deleted_count := Some (as_u32 (PruneResult.deleted_count r));
       PruningStatus.retained_count := Some (as_u32 (PruneResult.retained_count r)); PruningStatus.bytes_freed := Some (PruneResult.bytes_freed r);
       PruningStatus.message := Some ("Pruned " +:+ show_Z (PruneResult.deleted_count r) +:+ " checkpoints, freed " +:+ format_bytes (PruneResult.bytes_freed r));
       PruningStatus.dry_run := Some (PruneResult.dry_run r) |});
  match a with Ok _ => mret tt | Err e => Throw (KubeError e) end.
End reconciler.
