(* ===== verification/PruneFacts.v ===== *)
(** * What pruning chooses and requests

    The choice of the deletable checkpoints as a cut and a filter of the sorted list, what the
    scan of a local archive can know, and what the programs request before a deletion. *)

From stdpp Require Import prelude list strings.
From Stdlib Require Import Sorted.
From S2P Require Import Prelude RustStr RustText Contract Prog Leader Prune.

Local Open Scope Z_scope.

(** ** The choice *)

Lemma classify_cut m f i l : 0 <= i →
  classify m f i l
  = (List.filter f (drop (Z.to_nat (m - i)) l), take (Z.to_nat (m - i)) l ++ List.filter (λ c, negb (f c)) (drop (Z.to_nat (m - i)) l)).
Proof.
  revert i. induction l as [|c l IH]; intros i Hi; simpl; [by rewrite drop_nil, take_nil|]. rewrite IH by lia.
  destruct (Z.ltb_spec i m) as [Hlt|Hge].
  - assert (Z.to_nat (m - i) = S (Z.to_nat (m - (i + 1)))) as -> by lia. done.
  - assert (Z.to_nat (m - i) = 0%nat) as -> by lia. assert (Z.to_nat (m - (i + 1)) = 0%nat) as -> by lia.
    rewrite !drop_0. simpl. by destruct (f c).
Qed.

Lemma newest_first_total a b : newest_first a b = true ∨ newest_first b a = true.
Proof. unfold newest_first. rewrite !Z.leb_le. lia. Qed.
Lemma newest_first_trans a b c : newest_first a b = true → newest_first b c = true → newest_first a c = true.
Proof. unfold newest_first. rewrite !Z.leb_le. lia. Qed.

Lemma filter_split_perm {A} (f : A → bool) l : List.filter f l ++ List.filter (λ c, negb (f c)) l ≡ₚ l.
Proof.
  induction l as [|x l IH]; simpl; [done|]. destruct (f x); simpl; [by rewrite IH|]. rewrite <- IH at 3. by rewrite Permutation_middle.
Qed.

Lemma sorted_app_le {A} (R : A → A → Prop) l1 l2 x y : StronglySorted R (l1 ++ l2) → x ∈ l1 → y ∈ l2 → R x y.
Proof.
  induction l1 as [|z l1 IH]; intros Hs Hx Hy; [by apply elem_of_nil in Hx|]. apply StronglySorted_inv in Hs as [Hs Hz].
  apply elem_of_cons in Hx as [->|Hx]; [|by apply IH]. eapply Forall_forall in Hz; [exact Hz|]. set_solver.
Qed.

(** The number of checkpoints that are kept in any case. *)
Definition buffer (min_checkpoints : Z) : nat := Z.to_nat (Z.max min_checkpoints MIN_CHECKPOINTS_TO_RETAIN).

(** The retention test against the newest ledger. *)
Definition out_of_retention (retention_days retention_ledgers : option Z) (latest : Z) (now : DateTime) (c : checkpoint) : Prop :=
  match retention_ledgers, retention_days with
  | Some n, _ => Checkpoint.ledger_seq c < Z.max 0 (latest - n)
  | None, Some d => Checkpoint.timestamp c < now - days d
  | None, None => False
  end.

Definition tested (rd rl : option Z) (max_age : Z) (now : DateTime) (sorted : list checkpoint) : checkpoint → bool :=
  may_delete ((λ n, default 0 ((λ c, saturating_sub (Checkpoint.ledger_seq c) n) <$> head sorted)) <$> rl)
    ((λ d, now - days d) <$> rd) (now - days max_age).

Lemma identify_cut cs rd rl m max_age now :
  let sorted := sort_by newest_first cs in let f := tested rd rl max_age now sorted in
  identify_deletable_checkpoints cs rd rl m max_age now
  = (List.filter f (drop (buffer m) sorted), take (buffer m) sorted ++ List.filter (λ c, negb (f c)) (drop (buffer m) sorted)).
Proof.
  intros sorted f. destruct cs as [|c cs]; [subst sorted; simpl; by rewrite drop_nil, take_nil|]. unfold identify_deletable_checkpoints. rewrite classify_cut by done. by rewrite Z.sub_0_r.
Qed.

Lemma head_latest cs c latest : head (sort_by newest_first cs) = Some latest → c ∈ cs → Checkpoint.ledger_seq c <= Checkpoint.ledger_seq latest.
Proof.
  intros Hh Hc. pose proof (sort_by_sorted newest_first newest_first_total newest_first_trans cs) as Hs.
  rewrite <- (elem_of_sort_by newest_first) in Hc. destruct (sort_by newest_first cs) as [|x l]; [done|]. simplify_eq/=.
  apply StronglySorted_inv in Hs as [_ Hs]. apply elem_of_cons in Hc as [->|Hc]; [done|].
  eapply Forall_forall in Hs; [|exact Hc]. by apply Z.leb_le in Hs.
Qed.

Lemma tested_spec rd rl max_age now sorted latest c :
  head sorted = Some latest →
  tested rd rl max_age now sorted c = true ↔
  Checkpoint.timestamp c <= now - days max_age ∧ out_of_retention rd rl (Checkpoint.ledger_seq latest) now c.
Proof.
  intros Hh. unfold tested, may_delete, out_of_retention, saturating_sub. rewrite Hh. simpl. rewrite andb_true_iff, negb_true_iff, Z.ltb_ge.
  destruct rl as [n|], rd as [d|]; simpl; rewrite ?Z.ltb_lt; naive_solver.
Qed.

(** ** Local archives *)

Section entry_ind.
Context (P : entry → Prop).
Hypothesis Herr : ∀ m, P (EntryError m).
Hypothesis Hdir : ∀ failed es, Forall P es → P (SubDir failed es).
Hypothesis Hfile : ∀ p name meta, P (FileEntry p name meta).

Fixpoint entry_nested_ind (e : entry) : P e :=
  match e with
  | EntryError m => Herr m
  | SubDir failed es =>
      Hdir failed es ((fix go (es : list entry) : Forall P es :=
        match es with [] => Forall_nil_2 P | e :: es' => Forall_cons_2 P e es' (entry_nested_ind e) (go es') end) es)
  | FileEntry p name meta => Hfile p name meta
  end.
End entry_ind.

(** Every checkpoint of a local archive has the ledger 0. *)
Definition unknown_ledger (c : checkpoint) : Prop := Checkpoint.ledger_seq c = 0.

Lemma scan_entry_ledgers e cs : scan_entry e = Ok cs → Forall unknown_ledger cs.
Proof.
  revert cs. induction e as [m|failed es IH|p name meta] using entry_nested_ind; intros cs Hs; [done| |].
  - destruct failed; [done|]. simpl in Hs. revert cs Hs. induction IH as [|e es He _ IHes]; intros cs Hs; [injection Hs as <-; constructor|].
    destruct (scan_entry e) as [l|]; [|done]. destruct ((fix scan_hex_directory (es : list entry) := _) es) as [l'|]; [|done].
    simplify_eq. apply Forall_app. split; [by apply He|by apply IHes].
  - simpl in Hs. destruct name as [f|]; [|injection Hs as <-; constructor]. destruct (_ && _); [|injection Hs as <-; constructor].
    unfold parse_checkpoint_from_path in Hs. destruct meta as [[size [t|]]|]; simplify_eq. by repeat constructor.
Qed.

Lemma scan_local_ledgers es cs : scan_local es = Ok cs → Forall unknown_ledger cs.
Proof.
  revert cs. induction es as [|[m|failed ds|p name meta] es IH]; intros cs Hs; [injection Hs as <-; constructor|done| |by apply IH].
  change (match scan_entry (SubDir failed ds) with
          | Err x => Err x
          | Ok l => match scan_local es with Err x => Err x | Ok l' => Ok (l ++ l') end
          end = Ok cs) in Hs.
  destruct (scan_entry (SubDir failed ds)) as [l|] eqn:El; [|done]. destruct (scan_local es) as [l'|]; [|done].
  simplify_eq. apply Forall_app. split; [by eapply scan_entry_ledgers|by apply IH].
Qed.

(** So a retention in ledgers never deletes anything of it. *)
Lemma ledger_retention_deletes_nothing es cs rd n m max_age now :
  scan_local es = Ok cs → 0 <= n → (identify_deletable_checkpoints cs rd (Some n) m max_age now).1 = [].
Proof.
  intros Hs Hn. pose proof (scan_local_ledgers _ _ Hs) as Hall. rewrite identify_cut. simpl.
  apply elem_of_nil_inv. intros c Hc. apply elem_of_lfilter in Hc as [Hc Ht].
  assert (c ∈ cs) as Hcs by (rewrite <- (elem_of_sort_by newest_first); by apply (subseteq_drop (buffer m))).
  destruct (head (sort_by newest_first cs)) as [latest|] eqn:Hh.
  2: { destruct (sort_by newest_first cs) as [|? ?] eqn:E; [|done]. rewrite <- (elem_of_sort_by newest_first), E in Hcs. by apply elem_of_nil in Hcs. }
  apply (tested_spec _ _ _ _ _ latest) in Ht as [_ Ht]; [|done]. simpl in Ht.
  assert (latest ∈ cs) as Hl by (rewrite <- (elem_of_sort_by newest_first); destruct (sort_by _ cs); simplify_eq/=; left).
  pose proof (proj1 (Forall_forall _ _) Hall _ Hcs). pose proof (proj1 (Forall_forall _ _) Hall _ Hl). unfold unknown_ledger in *. lia.
Qed.

(** ** Before a deletion *)

(** The lease was written to the server: renewed, claimed or created. *)
Definition granted (e : event prune_op) : bool :=
  match e with
  | Ev op x =>
      match op in prune_op X return X → bool with
      | LeaderOp o =>
          match o in leader_op X return X → bool with
          | PatchLease _ _ _ => λ r, match r with Ok _ => true | Err _ => false end
          | CreateLease _ _ _ => λ r, match r with Ok _ => true | Err _ => false end
          | _ => λ _, false
          end
      | _ => λ _, false
      end x
  end.

(** What a deletion is justified by, given how the choice was made. *)
Record justified (choose : list checkpoint → DateTime → list checkpoint) (h : list (event prune_op)) (path : string) : Prop := {
  by_choice : ∃ base es cs now c, Ev (ReadTree base) (Ok es) ∈ h ∧ scan_local es = Ok cs ∧ Ev PruneNow now ∈ h
    ∧ c ∈ choose cs now ∧ Checkpoint.path c = path;
  by_lease : ∃ e, e ∈ h ∧ granted e = true;
}.

Definition deletion_ok (forced : Prop) (choose : list checkpoint → DateTime → list checkpoint) (h : list (event prune_op)) (e : event prune_op) : Prop :=
  match e with Ev op _ => match op with RemoveFile p => forced ∧ justified choose h p | _ => True end end.

Section requests.
Context (forced : Prop) (choose : list checkpoint → DateTime → list checkpoint).
Abbreviation ok := (deletion_ok forced choose).

(** The lease is held afterwards. *)
Definition leased {A} (h h' : list (event prune_op)) (r : result A error) : Prop :=
  (∃ tr, h' = h ++ tr) ∧ match r with Ok _ => ∃ e, e ∈ h' ∧ granted e = true | Err _ => True end.

Lemma try_acquire_leased ns name who h h0 :
  (∃ tr, h = h0 ++ tr) →
  wp ok (lift (try_acquire_or_renew ns name who))
    (λ h' r, (∃ tr, h' = h0 ++ tr) ∧ (r = Ok true → ∃ e, e ∈ h' ∧ granted e = true)) h.
Proof.
  intros [tr ->].
  assert (∀ h' (X : Set) (op : prune_op X) x, (∃ tr, h' = h0 ++ tr) → ∃ tr, h' ++ [Ev op x] = h0 ++ tr) as Hext.
  { intros h' X op x [tr' ->]. rewrite <- app_assoc. eauto. }
  assert (∀ h' (op : leader_op (result () kube_error)), (∃ tr, h' = h0 ++ tr) → granted (Ev (LeaderOp op) (Ok tt)) = true →
    wp ok (lift (kube op ≫= λ _, mret true))
      (λ h' r, (∃ tr, h' = h0 ++ tr) ∧ (r = Ok true → ∃ e, e ∈ h' ∧ granted e = true)) h') as Hkube.
  { intros h' op Hh Hg [[]|e]; (split; [done|]); simpl; (split; [by apply Hext|]); [|done]. intros _.
    eexists. split; [|exact Hg]. apply elem_of_app. right. left. }
  simpl. intros now. split; [done|]. intros r. split; [done|]. set (h' := (_ ++ _) ++ _).
  assert (∃ tr, h' = h0 ++ tr) as Hh' by (apply Hext, Hext; eauto). clearbody h'.
  destruct r as [existing|[code|m]]; [|destruct (decide (code = 404)) as [->|Hc]|].
  - case_bool_decide; [by apply (Hkube h' (PatchLease ns name _))|]. destruct (lease_expired existing now); [by apply (Hkube h' (PatchLease ns name _))|done].
  - by apply (Hkube h' (CreateLease ns name _)).
  - assert (∀ (p : tree leader_op error bool) q, match code with 404 => p | _ => q end = q) as ->; [|done]. intros p q. repeat case_match; by subst.
  - done.
Qed.

Lemma wp_lift_bind {A B} (p : tree leader_op error A) (f : A → tree leader_op error B) (Q : list (event prune_op) → result B error → Prop) h :
  wp ok (lift p) (λ h' r, match r with Ok a => wp ok (lift (f a)) Q h' | Err e => Q h' (Err e) end) h → wp ok (lift (p ≫= f)) Q h.
Proof.
  unfold mbind, tree_bind. revert h. induction p as [a|e|X op k IH]; intros h Hp; simpl in *; [done|done|].
  intros x. destruct (Hp x). auto.
Qed.

Lemma acquire_leased scope h : wp ok (lift (acquire scope)) (leased h) h.
Proof.
  unfold acquire. apply wp_lift_bind. intros ns. split; [done|]. apply wp_lift_bind. intros pod. split; [done|]. apply wp_lift_bind.
  assert (∀ (p : tree leader_op error (option string)) h1, (∃ tr, h1 = h ++ tr) → (p = mret pod ∨ p = ask Hostname) →
    wp ok (lift p) (λ h' r, (∃ tr, h' = h ++ tr) ∧ ∃ o, r = Ok o) h1) as Hwho.
  { intros p h1 [tr ->] [->| ->]; simpl; [eauto|]. intros o. split; [done|]. rewrite <- app_assoc. eauto. }
  eapply wp_mono; [apply (Hwho (or_ask pod (ask Hostname))); [rewrite <- app_assoc; by eexists|destruct pod; simpl; [by left|by right]]|].
  intros tr r ([tr' Htr] & who & ->). rewrite Htr. clear Htr Hwho. apply wp_lift_bind.
  assert (∀ h1, (∃ tr, h1 = h ++ tr) → wp ok (lift (match who with Some i => mret i | None => pid ← ask ProcessId; mret ("unknown-" +:+ show_Z pid) end))
    (λ h' r, (∃ tr, h' = h ++ tr) ∧ ∃ i, r = Ok i) h1) as Hid.
  { intros h1 [tr1 ->]. destruct who; simpl; [eauto|]. intros x. split; [done|]. rewrite <- app_assoc. eauto. }
  eapply wp_mono; [by apply Hid; eauto|]. intros tr1 r ([tr2 Htr] & identity & ->). rewrite Htr. apply wp_lift_bind. intros [[]|e]; (split; [done|]).
  2: { split; [|done]. rewrite <- app_assoc. eauto. }
  apply wp_lift_bind. eapply wp_mono; [apply (try_acquire_leased _ _ _ _ h); rewrite <- app_assoc; eauto|].
  intros tr3 [[]|e] [Hh Hg]; [by split; auto|by split|by split].
Qed.

(** ** The programs *)

Lemma wp_scan l (Q : list (event prune_op) → result (list checkpoint) error → Prop) h :
  (∀ h' cs, (∃ tr, h' = h ++ tr) → (cs ≠ [] → ArchiveLocation.backend l = Local_ ∧ ∃ base es, Ev (ReadTree base) (Ok es) ∈ h' ∧ scan_local es = Ok cs) →
     Q h' (Ok cs)) →
  (∀ h' e, (∃ tr, h' = h ++ tr) → Q h' (Err e)) → wp ok (scan_checkpoints l) Q h.
Proof.
  intros HQ Herr. assert (∃ tr, h = h ++ tr) as Hh by (exists []; by rewrite app_nil_r).
  unfold scan_checkpoints. destruct (ArchiveLocation.backend l) eqn:Eb; [by apply HQ|by apply HQ|]. intros [es|m]; (split; [done|]); [|apply Herr; eauto].
  simpl. destruct (scan_local es) as [cs|e] eqn:Es; simpl; [|apply Herr; eauto]. apply HQ; [eauto|]. intros _. split; [done|].
  eexists _, es. split; [apply elem_of_app; right; left|done].
Qed.

Lemma wp_delete_one l errs c h (Q : list (event prune_op) → result (list string) error → Prop) :
  (ArchiveLocation.backend l = Local_ → forced ∧ justified choose h (Checkpoint.path c)) →
  (∀ tr es, Q (h ++ tr) (Ok es)) → wp ok (delete_one l errs c) Q h.
Proof.
  intros Hj HQ. unfold delete_one, delete_checkpoint. pose proof (HQ [] errs) as HQ0. rewrite app_nil_r in HQ0.
  destruct (ArchiveLocation.backend l); [done|done|]. destruct (Hj eq_refl). intros [[]|m]; (split; [done|]); apply HQ.
Qed.

(** Deletions of checkpoints that are justified already. *)
Lemma wp_deletions l (ds : list checkpoint) errs h (Q : list (event prune_op) → result (list string) error → Prop) :
  (ArchiveLocation.backend l = Local_ → forced ∧ ∀ c, c ∈ ds → ∀ tr, justified choose (h ++ tr) (Checkpoint.path c)) →
  (∀ tr es, Q (h ++ tr) (Ok es)) → wp ok (for_each (delete_one l) ds errs) Q h.
Proof.
  revert errs h. induction ds as [|c ds IH]; intros errs h Hj HQ; simpl.
  { specialize (HQ [] errs). by rewrite app_nil_r in HQ. }
  apply wp_bind, wp_delete_one.
  - intros Hl. destruct (Hj Hl) as [Hf Hc]. split; [done|]. specialize (Hc c ltac:(by left) []). by rewrite app_nil_r in Hc.
  - intros tr es. apply IH.
    + intros Hl. destruct (Hj Hl) as [Hf Hc]. split; [done|]. intros c' Hc' tr'. rewrite <- app_assoc. apply Hc. by right.
    + intros tr' es'. rewrite <- app_assoc. apply HQ.
Qed.

Context `{Completion}.

Lemma wp_execute g ds l force h (Q : list (event prune_op) → result report error → Prop) :
  (force = true → ArchiveLocation.backend l = Local_ → forced ∧ ∀ c, c ∈ ds → ∀ tr, justified choose (h ++ tr) (Checkpoint.path c)) →
  (∀ tr r, Q (h ++ tr) (Ok r)) → wp ok (execute_prune g ds l force) Q h.
Proof.
  intros Hj HQ. unfold execute_prune. destruct force; simpl; [|specialize (HQ [] ); by rewrite app_nil_r in HQ].
  apply wp_bind. apply wp_deletions; [|intros tr es; apply HQ]. intros Hl. destruct (Hj eq_refl Hl) as [Hf Hc]. split; [done|].
  intros c Hin. apply Hc. by rewrite <- (completes_perm ds).
Qed.
End requests.
