(* ===== verification/PruneProps.v ===== *)
(** * Pruning is safe

    The choice of what to delete, and what every deletion of the command and of the reconciler
    is justified by, against any file system, clock and API server. *)

From stdpp Require Import prelude list strings.
From Stdlib Require Import Sorted Ascii.
From S2P Require Import Prelude RustStr RustText Prog Contract Leader Prune PruneFacts.

Local Open Scope Z_scope.

(** ** The choice *)

(** Why a checkpoint may go: it is older than the maximal age and out of retention, measured
    from the newest ledger of the scan, and a whole buffer of checkpoints with no older ledger
    is kept. *)
Record expendable (cs kept : list checkpoint) (rd rl : option Z) (m max_age : Z) (now : DateTime) (c : checkpoint) : Prop := {
  exp_scanned : c ∈ cs;
  exp_old : Checkpoint.timestamp c <= now - days max_age;
  exp_retention : ∃ latest, latest ∈ cs ∧ (∀ c', c' ∈ cs → Checkpoint.ledger_seq c' <= Checkpoint.ledger_seq latest)
    ∧ out_of_retention rd rl (Checkpoint.ledger_seq latest) now c;
  exp_buffer : ∃ newer, newer ⊆+ kept ∧ length newer = buffer m
    ∧ Forall (λ k, Checkpoint.ledger_seq c <= Checkpoint.ledger_seq k) newer;
}.

(** The checkpoints come newest first, by ledger and by time. *)
Definition newest_come_first (cs : list checkpoint) : Prop :=
  StronglySorted (λ a b, Checkpoint.ledger_seq b <= Checkpoint.ledger_seq a ∧ Checkpoint.timestamp b <= Checkpoint.timestamp a) cs.
(** A whole buffer of more recent checkpoints is kept. *)
Definition recent_kept (kept : list checkpoint) (m : Z) (c : checkpoint) : Prop :=
  ∃ recent, recent ⊆+ kept ∧ length recent = buffer m ∧ Forall (λ k, Checkpoint.timestamp c <= Checkpoint.timestamp k) recent.

Lemma sort_by_same {A} (le : A → A → bool) l : StronglySorted (λ a b, le a b = true) l → sort_by le l = l.
Proof.
  induction 1 as [|x l _ IH Hx]; [done|]. change (insert_by le x (sort_by le l) = x :: l). rewrite IH.
  destruct l as [|y l]; [done|]. apply Forall_cons in Hx as [Hx _]. simpl. by rewrite Hx.
Qed.

Lemma head_is_in cs latest : head (sort_by newest_first cs) = Some latest → latest ∈ cs.
Proof. intros Hh. rewrite <- (elem_of_sort_by newest_first). destruct (sort_by newest_first cs); simplify_eq/=. left. Qed.

Lemma chosen_expendable cs rd rl m max_age now c :
  let '(deletable, retained) := identify_deletable_checkpoints cs rd rl m max_age now in
  c ∈ deletable → expendable cs retained rd rl m max_age now c.
Proof.
  rewrite identify_cut. intros Hc. apply elem_of_lfilter in Hc as [Hd Ht].
  set (sorted := sort_by newest_first cs) in *. assert (c ∈ cs) as Hcs by (rewrite <- (elem_of_sort_by newest_first); by apply (subseteq_drop (buffer m))).
  destruct (head sorted) as [latest|] eqn:Hh; [|destruct sorted; [by rewrite drop_nil, elem_of_nil in Hd|done]].
  apply (tested_spec _ _ _ _ _ latest) in Ht as [Hold Hret]; [|done]. split; [done|done| |].
  - exists latest. split; [by apply head_is_in|]. split; [|done]. intros c' Hc'. by eapply head_latest.
  - exists (take (buffer m) sorted). split; [by apply submseteq_inserts_r|]. split.
    + apply length_take_le. destruct (Nat.le_gt_cases (buffer m) (length sorted)); [done|]. rewrite drop_ge in Hd by lia. by apply elem_of_nil in Hd.
    + apply Forall_forall. intros k Hk. pose proof (sort_by_sorted newest_first newest_first_total newest_first_trans cs) as Hs. fold sorted in Hs.
      rewrite <- (take_drop (buffer m) sorted) in Hs. pose proof (sorted_app_le _ _ _ _ _ Hs Hk Hd) as Hle. by apply Z.leb_le in Hle.
Qed.

Lemma chosen_recent cs rd rl m max_age now c :
  let '(deletable, retained) := identify_deletable_checkpoints cs rd rl m max_age now in
  newest_come_first cs → c ∈ deletable → recent_kept retained m c.
Proof.
  rewrite identify_cut. intros Hn Hc. apply elem_of_lfilter in Hc as [Hd _].
  assert (sort_by newest_first cs = cs) as E.
  { apply sort_by_same. clear Hd. unfold newest_come_first in Hn. induction Hn as [|x l _ IH Hx]; [constructor|]. constructor; [done|].
    eapply Forall_impl; [exact Hx|]. intros y [Hl _]. by apply Z.leb_le. }
  rewrite E in Hd |- *.
  exists (take (buffer m) cs). split; [by apply submseteq_inserts_r|]. split.
  - apply length_take_le. destruct (Nat.le_gt_cases (buffer m) (length cs)); [done|]. rewrite drop_ge in Hd by lia. by apply elem_of_nil in Hd.
  - apply Forall_forall. intros k Hk. unfold newest_come_first in Hn. rewrite <- (take_drop (buffer m) cs) in Hn.
    apply (sorted_app_le _ _ _ _ _ Hn Hk Hd).
Qed.

(** The choice splits the scanned checkpoints.  What it gives up is older than the maximal
    age and out of retention, with a whole buffer of checkpoints of no older ledger kept; what
    it keeps behind the buffer is young enough or within retention. *)
Theorem pruning_choice_is_safe cs rd rl m max_age now :
  let '(deletable, retained) := identify_deletable_checkpoints cs rd rl m max_age now in
  deletable ++ retained ≡ₚ cs
  ∧ (∀ c, c ∈ deletable → expendable cs retained rd rl m max_age now c)
  ∧ (∀ c, c ∈ drop (buffer m) retained →
       now - days max_age < Checkpoint.timestamp c ∨ ∀ latest, latest ∈ cs →
         (∀ c', c' ∈ cs → Checkpoint.ledger_seq c' <= Checkpoint.ledger_seq latest) →
         ¬ out_of_retention rd rl (Checkpoint.ledger_seq latest) now c).
Proof.
  pose proof (chosen_expendable cs rd rl m max_age now) as Hexp. pose proof (identify_cut cs rd rl m max_age now) as Hcut.
  destruct (identify_deletable_checkpoints cs rd rl m max_age now) as [deletable retained]. simpl in Hcut. injection Hcut as Hd Hr.
  set (sorted := sort_by newest_first cs) in *. split; [|split; [exact Hexp|]].
  - rewrite Hd, Hr. rewrite (Permutation_app_comm (take _ _)), app_assoc, filter_split_perm, Permutation_app_comm, take_drop. apply sort_by_Permutation.
  - intros c Hc. rewrite Hr in Hc. assert (c ∈ List.filter (λ c, negb (tested rd rl max_age now sorted c)) (drop (buffer m) sorted)) as Hc'.
    { destruct (Nat.le_gt_cases (buffer m) (length sorted)) as [Hle|Hgt].
      - by rewrite drop_app_length' in Hc by (by rewrite length_take_le).
      - rewrite (drop_ge sorted), app_nil_r in Hc by lia. rewrite drop_ge in Hc by (rewrite length_take; lia). by apply elem_of_nil in Hc. }
    apply elem_of_lfilter in Hc' as [Hin Ht]. apply negb_true_iff in Ht.
    destruct (head sorted) as [top|] eqn:Hh; [|destruct sorted; [by rewrite drop_nil, elem_of_nil in Hin|done]].
    destruct (Z.lt_ge_cases (now - days max_age) (Checkpoint.timestamp c)) as [?|Hge]; [by left|right]. intros latest Hl Hmax Hout.
    assert (Checkpoint.ledger_seq latest = Checkpoint.ledger_seq top) as Heq.
    { apply Z.le_antisymm; [by eapply head_latest|]. apply Hmax. by apply head_is_in. }
    rewrite Heq in Hout. assert (tested rd rl max_age now sorted c = true) as Ht'; [|by rewrite Ht' in Ht].
    by apply (tested_spec _ _ _ _ _ top).
Qed.

(** ** The programs *)

Section programs.
Context `{Completion}.

Definition command_choice (args : PruneArgs.t) (cs : list checkpoint) (now : DateTime) : list checkpoint * list checkpoint :=
  identify_deletable_checkpoints cs (PruneArgs.retention_days args) (PruneArgs.retention_ledgers args)
    (Z.max (PruneArgs.min_checkpoints args) MIN_CHECKPOINTS_TO_RETAIN) (PruneArgs.max_age_days args) now.
Definition policy_choice (p : policy) (cs : list checkpoint) (now : DateTime) : list checkpoint * list checkpoint :=
  identify_deletable_checkpoints cs (PruningPolicy.retention_days p) (PruningPolicy.retention_ledgers p)
    (PruningPolicy.min_checkpoints p) (PruningPolicy.max_age_days p) now.

Lemma justified_ext choose h tr p : justified choose h p → justified choose (h ++ tr) p.
Proof.
  intros [(base & es & cs & now & c & H1 & H2 & H3 & H4) (e & He & Hg)]. split.
  - exists base, es, cs, now, c. rewrite !elem_of_app. auto 6.
  - exists e. rewrite elem_of_app. auto.
Qed.

Lemma wp_call {B} P (X : Set) (op : prune_op X) (f : X → pruner B) (Q : list (event prune_op) → result B error → Prop) h :
  (∀ x, P h (Ev op x) ∧ wp P (f x) Q (h ++ [Ev op x])) → wp P (call op ≫= f) Q h.
Proof. intros Hf x. apply Hf. Qed.

(** Scan, choose, acquire, delete: the part the command and the reconciler share. *)
Lemma wp_chosen {B} (forced : Prop) choose (acq : pruner LeaseGuard) cs ds now (body : LeaseGuard → pruner B) (h : list (event prune_op))
    (Q : list (event prune_op) → result B error → Prop) :
  ds = choose cs now → (∀ h, wp (deletion_ok forced choose) acq (leased h) h) →
  (∃ base es, Ev (ReadTree base) (Ok es) ∈ h ∧ scan_local es = Ok cs) →
  (∀ g h', (∀ c, c ∈ ds → ∀ tr, justified choose (h' ++ tr) (Checkpoint.path c)) → wp (deletion_ok forced choose) (body g) Q h') →
  (∀ h e, Q h (Err e)) →
  wp (deletion_ok forced choose) (lease ← acq; body lease) Q (h ++ [Ev PruneNow now]).
Proof.
  intros -> Hacq (base & es & Hread & Hscan) Hbody Herr. apply wp_bind. eapply wp_mono; [apply Hacq|].
  intros tr [g|e] [_ Hg]; simpl; [|apply Herr]. apply Hbody. intros c Hc tr'. apply justified_ext. split; [|done].
  exists base, es, cs, now, c. rewrite !elem_of_app. split; [auto|]. split; [done|]. split; [|done]. left; right; left.
Qed.

Lemma wp_acquire_in_time forced choose h : wp (deletion_ok forced choose) acquire_in_time (leased h) h.
Proof.
  unfold acquire_in_time. apply wp_bind. intros late. split; [done|]. destruct late; [split; [by eexists|done]|].
  apply wp_bind, wp_caught. eapply wp_mono; [apply acquire_leased|]. intros tr [g|e] [[tr' Htr] Hg]; simpl; (split; [rewrite <- !app_assoc; eauto|done]).
Qed.

Lemma wp_try {A} P (r : result A error) (Q : list (event prune_op) → result A error → Prop) h : Q h r → wp P (try_ r) Q h.
Proof. by destruct r. Qed.

Lemma wp_command args :
  wp (deletion_ok (PruneArgs.force args = true) (λ cs now, (command_choice args cs now).1)) (prune_archive args) (λ _ _, True) [].
Proof.
  unfold prune_archive. apply wp_bind, wp_try. destruct (check_retention args) as [[]|]; [|done].
  apply wp_bind, wp_try. destruct (ArchiveLocation.from_url _) as [l|]; [|done]. apply wp_bind, wp_scan; [|done].
  intros h' cs _ Hcs. destruct cs as [|c cs]; [done|]. apply wp_call. intros now. split; [done|].
  fold (command_choice args (c :: cs) now). destruct (command_choice args (c :: cs) now) as [deletable retained] eqn:Ech.
  destruct (Hcs ltac:(done)) as (_ & base & es & Hin & Hs). apply (wp_chosen _ _ _ (c :: cs) deletable); [by rewrite Ech| |by eauto| |done].
  - intros h. apply wp_acquire_in_time.
  - intros g h Hj. apply wp_bind, wp_execute; [by split|done].
Qed.

Context `{PruneDeps}.

Lemma wp_process p url h :
  wp (deletion_ok (PruningPolicy.auto_delete p = true) (λ cs now, (policy_choice p cs now).1)) (process_archive p url) (λ _ _, True) h.
Proof.
  unfold process_archive. apply wp_bind, wp_try. destruct (ArchiveLocation.from_url url) as [l|]; [|done]. apply wp_bind, wp_scan; [|done].
  intros h' cs _ Hcs. destruct cs as [|c cs]; [done|]. apply wp_call. intros now. split; [done|].
  fold (policy_choice p (c :: cs) now). destruct (policy_choice p (c :: cs) now) as [deletable retained] eqn:Ech.
  destruct (Hcs ltac:(done)) as (_ & base & es & Hin & Hs).
  apply (wp_chosen _ _ _ (c :: cs) deletable); [by rewrite Ech|intros; apply acquire_leased|by eauto| |done].
  intros g h2 Hj. destruct (PruningPolicy.auto_delete p) eqn:Ea; by apply wp_execute.
Qed.

Lemma wp_archives p urls overall h :
  wp (deletion_ok (PruningPolicy.auto_delete p = true) (λ cs now, (policy_choice p cs now).1)) (for_each (one_archive p) urls overall) (λ _ _, True) h.
Proof.
  revert overall h. induction urls as [|url urls IH]; intros overall h; simpl; [done|]. apply wp_bind. unfold one_archive at 1.
  apply wp_bind, wp_caught. eapply wp_mono; [apply wp_process|]. intros tr [r|e] _; apply IH.
Qed.

(** The reconciler deletes under a policy that is valid, enabled and automatic. *)
Definition automatic (p : policy) : Prop :=
  PruningPolicy.validate p = Ok tt ∧ PruningPolicy.enabled p = true ∧ PruningPolicy.auto_delete p = true.

Lemma wp_pruning node p :
  PruneNode.pruning_policy node = Some p →
  wp (deletion_ok (automatic p) (λ cs now, (policy_choice p cs now).1)) (reconcile_pruning node) (λ _ _, True) [].
Proof.
  intros Hp. unfold reconcile_pruning. rewrite Hp. apply wp_bind, wp_try. unfold PruningWorker.new.
  destruct (PruningPolicy.validate p) as [[]|] eqn:Ev; [|done]. apply wp_call. intros now. split; [done|].
  destruct (PruningWorker.should_run_scheduled p _ now) eqn:Er; simpl; [|done].
  assert (PruningPolicy.enabled p = true) as He by (unfold PruningWorker.should_run_scheduled in Er; by destruct (PruningPolicy.enabled p)).
  destruct (PruneNode.history_archive_urls node) as [[|u urls]|]; [done| |done].
  eapply wp_impl; [apply (wp_archives p (u :: urls))|]. intros h [X op x]. simpl. destruct op; try done. intros [? ?]. by split.
Qed.

(** C14: Whatever the file system, the clock and the API server answer, a file is removed by the
    command only under [--force], after the walk that found its checkpoint, after a reading of the clock at which the checkpoint is expendable (too
    old, out of retention, with a buffer of checkpoints of no older recorded ledger kept), and
    after this operator wrote itself into the lease.  When the walk finds the checkpoints newest
    first, the buffer kept is of more recent ones. *)
Theorem command_deletions_are_justified args tr r tr1 path x tr2 :
  exec (prune_archive args) tr r → tr = tr1 ++ Ev (RemoveFile path) x :: tr2 →
  PruneArgs.force args = true
  ∧ (∃ base es cs now c, Ev (ReadTree base) (Ok es) ∈ tr1 ∧ scan_local es = Ok cs ∧ Ev PruneNow now ∈ tr1 ∧ Checkpoint.path c = path
       ∧ expendable cs (command_choice args cs now).2 (PruneArgs.retention_days args) (PruneArgs.retention_ledgers args)
           (Z.max (PruneArgs.min_checkpoints args) MIN_CHECKPOINTS_TO_RETAIN) (PruneArgs.max_age_days args) now c
       ∧ (newest_come_first cs →
            recent_kept (command_choice args cs now).2 (Z.max (PruneArgs.min_checkpoints args) MIN_CHECKPOINTS_TO_RETAIN) c))
  ∧ ∃ e, e ∈ tr1 ∧ granted e = true.
Proof.
  intros Hex Htr. destruct (wp_sound _ _ _ _ _ _ (wp_command args) Hex) as [Hall _]. specialize (Hall _ _ _ Htr). simpl in Hall.
  destruct Hall as [Hf [(base & es & cs & now & c & H1 & H2 & H3 & H4 & H5) Hl]]. split; [done|]. split; [|done].
  exists base, es, cs, now, c. do 4 (split; [done|]).
  pose proof (chosen_expendable cs (PruneArgs.retention_days args) (PruneArgs.retention_ledgers args)
    (Z.max (PruneArgs.min_checkpoints args) MIN_CHECKPOINTS_TO_RETAIN) (PruneArgs.max_age_days args) now c) as He.
  pose proof (chosen_recent cs (PruneArgs.retention_days args) (PruneArgs.retention_ledgers args)
    (Z.max (PruneArgs.min_checkpoints args) MIN_CHECKPOINTS_TO_RETAIN) (PruneArgs.max_age_days args) now c) as Hn.
  fold (command_choice args cs now) in He, Hn. destruct (command_choice args cs now). split; [by apply He|]. intros. by apply Hn.
Qed.

(** C40: For the reconciler, over all archives of a node: a file is removed only under a
    policy that is valid, enabled and automatic, and its checkpoint is expendable under it. *)
Theorem reconciler_deletions_are_justified node tr r tr1 path x tr2 :
  exec (reconcile_pruning node) tr r → tr = tr1 ++ Ev (RemoveFile path) x :: tr2 →
  ∃ p, PruneNode.pruning_policy node = Some p ∧ automatic p
  ∧ (∃ base es cs now c, Ev (ReadTree base) (Ok es) ∈ tr1 ∧ scan_local es = Ok cs ∧ Ev PruneNow now ∈ tr1 ∧ Checkpoint.path c = path
       ∧ expendable cs (policy_choice p cs now).2 (PruningPolicy.retention_days p) (PruningPolicy.retention_ledgers p)
           (PruningPolicy.min_checkpoints p) (PruningPolicy.max_age_days p) now c)
  ∧ ∃ e, e ∈ tr1 ∧ granted e = true.
Proof.
  intros Hex Htr. destruct (PruneNode.pruning_policy node) as [p|] eqn:Hp.
  2: { unfold reconcile_pruning in Hex. rewrite Hp in Hex. inversion Hex; subst. by destruct tr1. }
  destruct (wp_sound _ _ _ _ _ _ (wp_pruning node p Hp) Hex) as [Hall _]. specialize (Hall _ _ _ Htr). simpl in Hall.
  destruct Hall as [Hf [(base & es & cs & now & c & H1 & H2 & H3 & H4 & H5) Hl]]. exists p. split; [done|]. split; [done|]. split; [|done].
  exists base, es, cs, now, c. do 4 (split; [done|]).
  pose proof (chosen_expendable cs (PruningPolicy.retention_days p) (PruningPolicy.retention_ledgers p)
    (PruningPolicy.min_checkpoints p) (PruningPolicy.max_age_days p) now c) as He.
  fold (policy_choice p cs now) in He. destruct (policy_choice p cs now). by apply He.
Qed.
End programs.

(** ** Reports *)

Definition removed (e : event prune_op) : bool :=
  match e with Ev op x =>
    match op in prune_op X return X → bool with RemoveFile _ => λ r, match r with Ok _ => true | Err _ => false end | _ => λ _, false end x end.

Definition any_event : list (event prune_op) → event prune_op → Prop := λ _ _, True.

Lemma deletion_counted l errs c h : ArchiveLocation.backend l = Local_ →
  wp any_event (delete_one l errs c)
    (λ h' r, ∃ es, r = Ok es ∧ count removed h' + Z.of_nat (length es) = count removed h + Z.of_nat (length errs) + 1) h.
Proof.
  intros Hl. unfold delete_one, delete_checkpoint. rewrite Hl.
  intros [[]|m]; (split; [done|]); eexists; (split; [done|]); rewrite count_app, ?length_app; unfold count at 2; simpl; lia.
Qed.

Lemma deletions_counted l ds errs h : ArchiveLocation.backend l = Local_ →
  wp any_event (for_each (delete_one l) ds errs)
    (λ h' r, ∃ es, r = Ok es ∧ count removed h' + Z.of_nat (length es) = count removed h + Z.of_nat (length errs) + Z.of_nat (length ds)) h.
Proof.
  intros Hl. revert errs h. induction ds as [|c ds IH]; intros errs h; [exists errs; split; [done|simpl; lia]|].
  cbn [for_each]. apply wp_bind. eapply wp_mono; [by apply deletion_counted|]. intros tr r (es & -> & He).
  eapply wp_mono; [apply IH|]. intros tr' r' (es' & -> & He'). exists es'. split; [done|]. simpl length. lia.
Qed.

(** The report of a forced pruning of a local archive counts the files that were removed:
    the deleted are the removals the file system confirmed, every other is an error. *)
Theorem reports_count_the_removals `{Completion} g ds l tr r :
  ArchiveLocation.backend l = Local_ → Z.of_nat (length ds) < 2 ^ 64 → exec (execute_prune g ds l true) tr (Ok r) →
  PruneResult.deleted_count r = count removed tr
  ∧ PruneResult.deleted_count r + Z.of_nat (length (PruneResult.errors r)) = PruneResult.eligible_for_deletion r
  ∧ PruneResult.eligible_for_deletion r = Z.of_nat (length ds).
Proof.
  intros Hl Hlen Hex. set (Q := λ (h' : list (event prune_op)) (r : result report error), ∀ r', r = Ok r' →
    PruneResult.deleted_count r' = count removed h'
    ∧ PruneResult.deleted_count r' + Z.of_nat (length (PruneResult.errors r')) = PruneResult.eligible_for_deletion r'
    ∧ PruneResult.eligible_for_deletion r' = Z.of_nat (length ds)).
  assert (wp any_event (execute_prune g ds l true) Q []) as Hwp; [|destruct (wp_sound _ _ _ _ _ _ Hwp Hex) as [_ Hq]; by apply Hq].
  unfold execute_prune. cbn [negb]. apply wp_bind. eapply wp_mono; [by apply (deletions_counted l (completes ds) [] [])|].
  intros tr' r' (es & -> & He) r'' Hr. injection Hr as <-. simpl in *. rewrite (Permutation_length (completes_perm ds)) in He.
  change (count removed []) with 0 in He. assert (0 <= count removed tr') by (unfold count; lia).
  unfold as_u64. rewrite Z.mod_small; lia.
Qed.

(** ** Concrete archives

    A local archive of a dozen checkpoints, a lease that nobody has, and what the command and
    the reconciler remove from it. *)

Local Open Scope Z_scope.

#[local] Instance in_order : Completion := {| completes l := l; completes_perm l := Permutation_refl l |}.
#[local] Instance every_day : PruneDeps :=
  {| cron_parse s := if String.eqb s "0 2 * * *" then Some (λ t, Some (t + days 1)) else None;
     prune_parse_time s := if String.eqb s "T0" then Some 0 else None; prune_show_time t := show_Z t |}.

(** Checkpoint files by their age in days, in the order the walk reads them. *)
Definition today : DateTime := days 1000.
Definition history_file (age : Z) : entry :=
  FileEntry ("/archive/00/history-" +:+ show_Z age +:+ ".xdr.gz") (Some ("history-" +:+ show_Z age +:+ ".xdr.gz")) (Ok (1000, Ok (today - days age))).
Definition archive (ages : list Z) : list entry :=
  [FileEntry "/archive/history-top.xdr.gz" (Some "history-top.xdr.gz") (Ok (1, Ok 0)); SubDir None (history_file <$> ages)].

(** The lease does not exist yet. *)
Definition answer_leader (X : Set) (op : leader_op X) : X :=
  match op in leader_op X return X with
  | UtcNow => today
  | GetLease _ _ => Err (ApiError 404)
  | PatchLease _ _ _ => Ok tt
  | CreateLease _ _ _ => Ok tt
  | EnvVar _ => None
  | Hostname => Some "operator-0"
  | ProcessId => 1
  | TryDefault => Ok tt
  | LoadLeader => false
  | StoreLeader _ => tt
  | Announce _ => tt
  | SleepFor _ => tt
  end.
Definition answers (ages : list Z) (_ : list (event prune_op)) (X : Set) (op : prune_op X) : X :=
  match op in prune_op X return X with
  | LeaderOp o => answer_leader _ o
  | PruneNow => today
  | ReadTree _ => Ok (archive ages)
  | LeaseDeadline => false
  | RemoveFile _ => Ok tt
  | PatchPruning _ => Ok tt
  end.

Definition ten_old : list Z := [60; 59; 58; 57; 56; 55; 54; 53; 52; 51].
Definition args (rd rl : option Z) (force : bool) : PruneArgs.t :=
  {| PruneArgs.archive_url := "file:///archive"; PruneArgs.retention_days := rd; PruneArgs.retention_ledgers := rl; PruneArgs.min_checkpoints := 5;
     PruneArgs.force := force; PruneArgs.max_age_days := 7; PruneArgs.concurrency := 10; PruneArgs.yes := false |}.
Definition removals {A} (p : pruner A) (ages : list Z) : list string :=
  omap (λ e : event prune_op, match e with Ev op _ => match op with RemoveFile path => Some path | _ => None end end) (fst (run (answers ages) p [])).

(** The checkpoints behind the first ten of the walk go, whatever their age beyond the
    retention: the youngest out of retention is removed and older ones are kept.  Nothing goes
    in a dry run, and nothing under a retention in ledgers. *)
Example removed_files :
  removals (prune_archive (args (Some 30) None true)) (ten_old ++ [40; 70; 3]) = ["/archive/00/history-40.xdr.gz"; "/archive/00/history-70.xdr.gz"]
  ∧ removals (prune_archive (args (Some 30) None false)) (ten_old ++ [40; 70; 3]) = []
  ∧ removals (prune_archive (args None (Some 100) true)) (ten_old ++ [40; 70; 3]) = [].
Proof. vm_compute. split_and!; reflexivity. Qed.

Example texts_of_pruning :
  format_bytes 500 = "500 B" ∧ format_bytes 1048576 = "1.00 MB" ∧ format_bytes 1536 = "1.50 KB"
  ∧ ArchiveLocation.from_url "s3://my-bucket/stellar/archive" = Ok {| ArchiveLocation.backend := S3; ArchiveLocation.bucket := "my-bucket"; ArchiveLocation.prefix := "stellar/archive" |}
  ∧ ArchiveLocation.from_url "http://example.com" = Err (ConfigError "Unsupported archive URL scheme: http://example.com. Must be s3://, gs://, or file://").
Proof. vm_compute. split_and!; reflexivity. Qed.

Definition command : pruner (option report) := prune_archive (args (Some 30) None true).
Definition ten_new : list Z := [1; 2; 3; 4; 5; 6; 10; 20; 31; 32].
Definition command_trace : list (event prune_op) := fst (run (answers (ten_new ++ [40])) command []).

Lemma command_deletions_witness :
  PruneArgs.force (args (Some 30) None true) = true
  ∧ (∃ base es cs now c, Ev (ReadTree base) (Ok es) ∈ take 10 command_trace ∧ scan_local es = Ok cs ∧ Ev PruneNow now ∈ take 10 command_trace
       ∧ Checkpoint.path c = "/archive/00/history-40.xdr.gz"
       ∧ expendable cs (command_choice (args (Some 30) None true) cs now).2 (Some 30) None (Z.max 5 MIN_CHECKPOINTS_TO_RETAIN) 7 now c
       ∧ (newest_come_first cs → recent_kept (command_choice (args (Some 30) None true) cs now).2 (Z.max 5 MIN_CHECKPOINTS_TO_RETAIN) c))
  ∧ ∃ e, e ∈ take 10 command_trace ∧ granted e = true.
Proof.
  apply (command_deletions_are_justified (args (Some 30) None true) command_trace (snd (run (answers (ten_new ++ [40])) command []))
    (take 10 command_trace) "/archive/00/history-40.xdr.gz" (Ok tt) (drop 11 command_trace)).
  - apply run_exec.
  - vm_compute. reflexivity.
Defined.

Definition nightly : policy :=
  {| PruningPolicy.enabled := true; PruningPolicy.retention_days := Some 30; PruningPolicy.retention_ledgers := None; PruningPolicy.min_checkpoints := 10;
     PruningPolicy.max_age_days := 7; PruningPolicy.concurrency := 10; PruningPolicy.schedule := Some "0 2 * * *"; PruningPolicy.auto_delete := true;
     PruningPolicy.skip_confirmation := false |}.
Definition node : PruneNode.t :=
  {| PruneNode.pruning_policy := Some nightly; PruneNode.last_run_time := Some "T0"; PruneNode.history_archive_urls := Some ["s3://bucket/a"; "file:///archive"] |}.
Definition node_trace : list (event prune_op) := fst (run (answers (ten_old ++ [40])) (reconcile_pruning node) []).

Lemma reconciler_deletions_witness :
  ∃ p, PruneNode.pruning_policy node = Some p ∧ automatic p
  ∧ (∃ base es cs now c, Ev (ReadTree base) (Ok es) ∈ take 10 node_trace ∧ scan_local es = Ok cs ∧ Ev PruneNow now ∈ take 10 node_trace
       ∧ Checkpoint.path c = "/archive/00/history-40.xdr.gz"
       ∧ expendable cs (policy_choice p cs now).2 (PruningPolicy.retention_days p) (PruningPolicy.retention_ledgers p)
           (PruningPolicy.min_checkpoints p) (PruningPolicy.max_age_days p) now c)
  ∧ ∃ e, e ∈ take 10 node_trace ∧ granted e = true.
Proof.
  apply (reconciler_deletions_are_justified node node_trace (snd (run (answers (ten_old ++ [40])) (reconcile_pruning node) []))
    (take 10 node_trace) "/archive/00/history-40.xdr.gz" (Ok tt) (drop 11 node_trace)).
  - apply run_exec.
  - vm_compute. reflexivity.
Defined.

(** A report of the reconciler: the totals are left at 0. *)
Example reconciler_totals :
  match snd (run (answers (ten_old ++ [40])) (reconcile_pruning node) []) with
  | Ok (Some r) => (PruneResult.total_checkpoints r, PruneResult.deleted_count r, PruneResult.retained_count r) = (0, 1, 0)
  | _ => False
  end.
Proof. vm_compute. reflexivity. Qed.

Definition two : list checkpoint :=
  (λ age, {| Checkpoint.ledger_seq := 0; Checkpoint.checkpoint_hash := ""; Checkpoint.timestamp := today - days age; Checkpoint.size_bytes := 1000;
             Checkpoint.path := show_Z age; Checkpoint.is_valid := true |}) <$> [40; 50].
Definition local_archive : location := {| ArchiveLocation.backend := Local_; ArchiveLocation.bucket := ""; ArchiveLocation.prefix := "/archive" |}.
Definition one_fails (h : list (event prune_op)) (X : Set) (op : prune_op X) : X :=
  match op in prune_op X return X with
  | RemoveFile path => if String.eqb path "50" then Err "No such file or directory (os error 2)" else Ok tt
  | op => answers [] h _ op
  end.
Definition forced_run := run one_fails (execute_prune {| lease_name := "l" |} two local_archive true) [].
Definition forced_report : report :=
  match snd forced_run with Ok r => r | Err _ => PruneResult.Build_t 0 0 0 0 0 [] [] [] true end.

Lemma reports_count_witness :
  PruneResult.deleted_count forced_report = count removed (fst forced_run)
  ∧ PruneResult.deleted_count forced_report + Z.of_nat (length (PruneResult.errors forced_report)) = PruneResult.eligible_for_deletion forced_report
  ∧ PruneResult.eligible_for_deletion forced_report = Z.of_nat (length two).
Proof.
  apply (reports_count_the_removals {| lease_name := "l" |} two local_archive (fst forced_run) forced_report).
  - reflexivity.
  - vm_compute. reflexivity.
  - assert (snd forced_run = Ok forced_report) as <- by (vm_compute; reflexivity).
    apply (run_exec one_fails (execute_prune {| lease_name := "l" |} two local_archive true)).
Defined.
