(* ===== verification/Ownership.v ===== *)
(** * The ownership registry

    [src/src/crd/service_ownership.rs] and [src/src/controller/ownership_registry.rs]: which team
    owns a running workload, by its label, its deploy metadata or a CODEOWNERS file; the status
    derived from the live workloads; the routing of alerts by it; and the reconciler as a program
    ([Prog]) over its requests.  Labels and annotations are ordered maps ([BTreeMap]); the hash
    maps are only looked up in, so they are [gmap]s. *)

From stdpp Require Import prelude gmap strings list.
From Stdlib Require Import Ascii.
From S2P Require Import Prelude RustStr RustText Json Prog BTreeMap Conditions.

(** ** The custom resource *)

Module TeamRotation.
Record t : Type := { team : string; handles : list string; rotation : string; receiver : string; live : bool }.
End TeamRotation.

Module Spec.
Record t : Type := {
  owner_label : string; deploy_annotation : string; source_path_annotation : string; codeowners : option string;
  teams : list TeamRotation.t; excluded_namespaces : list string; alertmanager_url : option string; history_limit : nat;
}.
Definition default_owner_label : string := "stellar.org/owner".
Definition default_deploy_annotation : string := "stellar.org/deployed-by-team".
Definition default_source_path_annotation : string := "stellar.org/source-path".
Definition default_history_limit : nat := 100.
End Spec.

Module WorkloadRef.
Record t : Set := { kind : string; namespace : string; name : string }.
#[global] Instance eq_dec : EqDecision t.
Proof. solve_decision. Defined.
#[global] Instance countable : Countable t.
Proof.
  refine (inj_countable' (λ w, (kind w, namespace w, name w)) (λ '(k, ns, n), {| kind := k; namespace := ns; name := n |}) _).
  by intros [].
Defined.
(** The derived order: kind, then namespace, then name. *)
Definition cmp (a b : t) : comparison :=
  then_cmp (String.compare (kind a) (kind b)) (then_cmp (String.compare (namespace a) (namespace b)) (String.compare (name a) (name b))).
End WorkloadRef.
Abbreviation workload := WorkloadRef.t.

Inductive OwnershipSource : Set := Label | DeployMetadata | Codeowners.

Module OwnershipEntry.
Record t : Set := { workload : WorkloadRef.t; team : string; rotation : string; receiver : string; source : OwnershipSource }.
End OwnershipEntry.

Module StaleOwnership.
Record t : Set := { workload : WorkloadRef.t; team : string; reason : string }.
End StaleOwnership.

Module OwnershipChange.
Record t : Set := {
  workload : WorkloadRef.t; previous_team : option string; team : option string; source : option OwnershipSource; changed_at : DateTime;
}.
End OwnershipChange.

Module Status.
Record t : Set := {
  entries : list OwnershipEntry.t; unowned : list workload; stale : list StaleOwnership.t; history : list OwnershipChange.t;
  owned_count : Z; unowned_count : Z; last_reconciled : option DateTime; conditions : list Condition.t;
}.
Definition default : t :=
  {| entries := []; unowned := []; stale := []; history := []; owned_count := 0; unowned_count := 0; last_reconciled := None; conditions := [] |}.
End Status.

(** [BTreeMap<String, String>]. *)
Definition attributes : Set := list (string * string).

(** What attribution reads of a running workload. *)
Module WorkloadMeta.
Record t : Set := { workload : WorkloadRef.t; labels : attributes; annotations : attributes }.
End WorkloadMeta.
Abbreviation meta := WorkloadMeta.t.

(** ** CODEOWNERS *)

Definition SLASH : ascii := "/"%char.
Definition STAR : ascii := "*"%char.

(** [(0..=len).take_while(f)], one index at a time. *)
Fixpoint take_while {A} (f : A → bool) (l : list A) : list A :=
  match l with [] => [] | x :: l' => if f x then x :: take_while f l' else [] end.
Definition upto (t : list ascii) : list nat := seq 0 (S (length t)).
(** [i == 0 || t[i - 1] != b'/']; the index is in range wherever it is asked. *)
Definition same_segment (t : list ascii) (i : nat) : bool :=
  match i with O => true | S j => match t !! j with Some c => negb (Ascii.eqb c SLASH) | None => true end end.
(** [rest.strip_prefix(b"/").unwrap_or(rest)]. *)
Definition strip_slash (l : list ascii) : list ascii :=
  match l with c :: l' => if Ascii.eqb c SLASH then l' else l | [] => l end.

Fixpoint glob_go (p t : list ascii) : bool :=
  match p with
  | [] => match t with [] => true | _ => false end
  | c :: rest =>
      if Ascii.eqb c STAR then
        match rest with
        | d :: rest2 =>
            if Ascii.eqb d STAR then
              existsb (λ i, glob_go (strip_slash rest2) (drop i t)) (upto t)
            else existsb (λ i, glob_go rest (drop i t)) (take_while (same_segment t) (upto t))
        | [] => existsb (λ i, glob_go rest (drop i t)) (take_while (same_segment t) (upto t))
        end
      else match t with a :: t' => Ascii.eqb a c && glob_go rest t' | [] => false end
  end.
Definition glob (pattern text : string) : bool := glob_go (bytes pattern) (bytes text).

(** [s.trim_start_matches('/')] and [s.trim_end_matches('/')]. *)
Fixpoint drop_slashes (l : list ascii) : list ascii :=
  match l with c :: l' => if Ascii.eqb c SLASH then drop_slashes l' else l | [] => [] end.
Definition trim_start (s : string) : string := String.string_of_list_ascii (drop_slashes (bytes s)).
Definition trim_end (s : string) : string := String.string_of_list_ascii (reverse (drop_slashes (reverse (bytes s)))).

Definition is_anchored (pattern : string) : bool := starts_with "/" pattern || contains "/" (trim_end pattern).
Definition pattern_body (pattern : string) : string :=
  let pat := trim_start pattern in if ends_with_char SLASH pat then pat +:+ "**" else pat.
Definition codeowners_match (pattern path : string) : bool :=
  let path := trim_start path in
  let pat := pattern_body pattern in
  if is_anchored pattern then glob pat path || glob (pat +:+ "/**") path
  else
    let segments := split_char SLASH path in
    existsb (λ i, let sub := join "/" (drop i segments) in glob pat sub || glob (pat +:+ "/**") sub) (seq 0 (length segments)).

(** A line without its comment and blanks; [None] if nothing is left. *)
Definition rule_of (line : string) : option (string * list string) :=
  match split_whitespace (trim (default "" (head (split_char "#" line)))) with
  | pattern :: owners => Some (pattern, owners)
  | [] => None
  end.
Definition codeowners_for (codeowners path : string) : list string :=
  foldl (λ owners line,
    match rule_of line with
    | None => owners
    | Some (pattern, parts) => if codeowners_match pattern path then parts else owners
    end) [] (lines codeowners).

(** ** Resolution *)

Definition nonempty (o : option string) : option string := o ≫= λ t, if is_empty t then None else Some t.
(** [find_map]. *)
Fixpoint find_map {A B} (f : A → option B) (l : list A) : option B :=
  match l with [] => None | x :: l' => match f x with Some y => Some y | None => find_map f l' end end.
Definition str_in (x : string) (l : list string) : bool := existsb (String.eqb x) l.

Definition team_of_handle (teams : list TeamRotation.t) (h : string) : option string :=
  TeamRotation.team <$> find_first (λ t, str_in h (TeamRotation.handles t)) teams.

Definition resolve (spec : Spec.t) (w : meta) : option (string * OwnershipSource) :=
  match nonempty (BTreeMap.get (Spec.owner_label spec) (WorkloadMeta.labels w)) with
  | Some t => Some (t, Label)
  | None =>
      match nonempty (BTreeMap.get (Spec.deploy_annotation spec) (WorkloadMeta.annotations w)) with
      | Some t => Some (t, DeployMetadata)
      | None =>
          path ← BTreeMap.get (Spec.source_path_annotation spec) (WorkloadMeta.annotations w);
          text ← Spec.codeowners spec;
          let owners := codeowners_for text path in
          let team := match find_map (team_of_handle (Spec.teams spec)) owners with
                      | Some t => Some t
                      | None => head owners
                      end in
          (λ t, (t, Codeowners)) <$> team
      end
  end.

(** ** The status *)

(** Collecting pairs into a hash map: a later pair replaces an earlier one. *)
Definition collect {K V} `{Countable K} (l : list (K * V)) : gmap K V := foldl (λ m kv, <[kv.1 := kv.2]> m) ∅ l.
Definition teams_by_name (spec : Spec.t) : gmap string TeamRotation.t :=
  collect ((λ t, (TeamRotation.team t, t)) <$> Spec.teams spec).
Definition previous_teams (previous : Status.t) : gmap workload string :=
  collect (((λ e, (OwnershipEntry.workload e, OwnershipEntry.team e)) <$> Status.entries previous)
           ++ ((λ s, (StaleOwnership.workload s, StaleOwnership.team s)) <$> Status.stale previous)).

Definition meta_le (a b : meta) : bool := le_of WorkloadRef.cmp (WorkloadMeta.workload a) (WorkloadMeta.workload b).
Definition sorted_workloads (spec : Spec.t) (ws : list meta) : list meta :=
  sort_by meta_le
    (List.filter (λ w, negb (str_in (WorkloadRef.namespace (WorkloadMeta.workload w)) (Spec.excluded_namespaces spec))) ws).

Definition with_history (h : list OwnershipChange.t) (s : Status.t) : Status.t :=
  {| Status.entries := Status.entries s; Status.unowned := Status.unowned s; Status.stale := Status.stale s; Status.history := h;
     Status.owned_count := Status.owned_count s; Status.unowned_count := Status.unowned_count s;
     Status.last_reconciled := Status.last_reconciled s; Status.conditions := Status.conditions s |}.
Definition with_lists (es : list OwnershipEntry.t) (us : list workload) (st : list StaleOwnership.t) (s : Status.t) : Status.t :=
  {| Status.entries := es; Status.unowned := us; Status.stale := st; Status.history := Status.history s;
     Status.owned_count := Status.owned_count s; Status.unowned_count := Status.unowned_count s;
     Status.last_reconciled := Status.last_reconciled s; Status.conditions := Status.conditions s |}.
Definition push_entry (e : OwnershipEntry.t) (s : Status.t) := with_lists (Status.entries s ++ [e]) (Status.unowned s) (Status.stale s) s.
Definition push_unowned (w : workload) (s : Status.t) := with_lists (Status.entries s) (Status.unowned s ++ [w]) (Status.stale s) s.
Definition push_stale (x : StaleOwnership.t) (s : Status.t) := with_lists (Status.entries s) (Status.unowned s) (Status.stale s ++ [x]) s.

(** The record of a change of team, if there was one. *)
Definition record_change (prev : gmap workload string) (now : DateTime) (w : workload) (resolved : option (string * OwnershipSource))
    (s : Status.t) : Status.t :=
  let team := fst <$> resolved in
  let previous_team := prev !! w in
  if decide (team = previous_team) then s
  else with_history (Status.history s ++
    [{| OwnershipChange.workload := w; OwnershipChange.previous_team := previous_team; OwnershipChange.team := team;
        OwnershipChange.source := snd <$> resolved; OwnershipChange.changed_at := now |}]) s.

Definition attribute_workload (spec : Spec.t) (prev : gmap workload string) (now : DateTime) (s : Status.t) (w : meta) : Status.t :=
  let ref := WorkloadMeta.workload w in
  let resolved := resolve spec w in
  let s := record_change prev now ref resolved s in
  match resolved with
  | None => push_unowned ref s
  | Some (team, source) =>
      match teams_by_name spec !! team with
      | None =>
          push_stale {| StaleOwnership.workload := ref; StaleOwnership.team := team; StaleOwnership.reason := "owner is not a registered team" |} s
      | Some t =>
          if negb (TeamRotation.live t) then
            push_stale {| StaleOwnership.workload := ref; StaleOwnership.team := team;
                          StaleOwnership.reason := "rotation '" +:+ TeamRotation.rotation t +:+ "' has no one on call" |} s
          else
            push_entry {| OwnershipEntry.workload := ref; OwnershipEntry.team := team; OwnershipEntry.rotation := TeamRotation.rotation t;
                          OwnershipEntry.receiver := TeamRotation.receiver t; OwnershipEntry.source := source |} s
      end
  end.

Definition show_len {A} (l : list A) : string := show_Z (Z.of_nat (length l)).
(** The history is cut to its limit, then counts and condition are set. *)
Definition finish (limit : nat) (stamp : string) (s : Status.t) : Status.t :=
  let owned := as_u32 (Z.of_nat (length (Status.entries s))) in
  let gaps := as_u32 (Z.of_nat (length (Status.unowned s) + length (Status.stale s))) in
  let complete := (gaps =? 0)%Z in
  let h := Status.history s in
  {| Status.entries := Status.entries s; Status.unowned := Status.unowned s; Status.stale := Status.stale s;
     Status.history := if limit <? length h then drop (length h - limit) h else h;
     Status.owned_count := owned; Status.unowned_count := gaps; Status.last_reconciled := Status.last_reconciled s;
     Status.conditions :=
       [Condition.ready stamp complete (if complete then "AllOwned" else "OwnershipGaps")
          (show_len (Status.entries s) +:+ " owned, " +:+ show_len (Status.unowned s) +:+ " unowned, "
           +:+ show_len (Status.stale s) +:+ " stale")] |}.

(** [now] is the argument of the source; the condition reads the clock again, [stamp]. *)
Definition derive_status (spec : Spec.t) (ws : list meta) (previous : Status.t) (now : DateTime) (stamp : string) : Status.t :=
  let prev := previous_teams previous in
  let start := {| Status.entries := []; Status.unowned := []; Status.stale := []; Status.history := Status.history previous;
                  Status.owned_count := 0; Status.unowned_count := 0; Status.last_reconciled := Some now; Status.conditions := [] |} in
  finish (Spec.history_limit spec) stamp
    (foldl (attribute_workload spec prev now) start (sorted_workloads spec ws)).

Definition history_for (s : Status.t) (w : workload) : list OwnershipChange.t :=
  List.filter (λ c, bool_decide (OwnershipChange.workload c = w)) (Status.history s).

(** ** Alerts *)

Definition ALERT_WORKLOAD_LABELS : list (string * string) :=
  [("deployment", "Deployment"); ("statefulset", "StatefulSet"); ("daemonset", "DaemonSet")].

Definition is_workload (kind ns name : string) (e : OwnershipEntry.t) : bool :=
  let w := OwnershipEntry.workload e in
  String.eqb (WorkloadRef.namespace w) ns && String.eqb (WorkloadRef.name w) name && String.eqb (WorkloadRef.kind w) kind.

Definition attribute_alert (s : Status.t) (labels : attributes) : option OwnershipEntry.t :=
  ns ← BTreeMap.get "namespace" labels;
  find_map (λ '(label, kind),
    name ← BTreeMap.get label labels; find_first (is_workload kind ns name) (Status.entries s)) ALERT_WORKLOAD_LABELS.

Definition QUOTE : string := String (byte 34) "".
Definition alertmanager_routes (spec : Spec.t) : json :=
  JArr ((λ t, JObj [("receiver", JStr (TeamRotation.receiver t));
                    ("matchers", JArr [JStr ("team=" +:+ QUOTE +:+ TeamRotation.team t +:+ QUOTE)]);
                    ("continue", JBool false)]) <$> Spec.teams spec).

Definition alert (name : string) (w : workload) (summary : string) : json :=
  JObj [("labels", JObj [("alertname", JStr name); ("severity", JStr "warning"); ("namespace", JStr (WorkloadRef.namespace w));
                         ("kind", JStr (WorkloadRef.kind w)); ("workload", JStr (WorkloadRef.name w))]);
        ("annotations", JObj [("summary", JStr summary)])].
Definition unowned_alert (w : workload) : json :=
  alert "WorkloadUnowned" w
    (WorkloadRef.namespace w +:+ "/" +:+ WorkloadRef.name w +:+ " " +:+ WorkloadRef.kind w +:+ " has no resolvable owner").
Definition stale_alert (x : StaleOwnership.t) : json :=
  alert "WorkloadOwnershipStale" (StaleOwnership.workload x)
    ("owner '" +:+ StaleOwnership.team x +:+ "': " +:+ StaleOwnership.reason x).
Definition ownership_alerts (s : Status.t) : list json :=
  (unowned_alert <$> Status.unowned s) ++ (stale_alert <$> Status.stale s).

(** ** The reconciler *)

(** Of an API object, the metadata the code reads. *)
Module ObjectMeta.
Record t : Set := {
  namespace : option string; name : option string; labels : option attributes; annotations : option attributes;
}.
End ObjectMeta.

Definition meta_of (kind : string) (m : ObjectMeta.t) : meta :=
  {| WorkloadMeta.workload := {| WorkloadRef.kind := kind; WorkloadRef.namespace := default "" (ObjectMeta.namespace m);
                                 WorkloadRef.name := default "" (ObjectMeta.name m) |};
     WorkloadMeta.labels := default [] (ObjectMeta.labels m); WorkloadMeta.annotations := default [] (ObjectMeta.annotations m) |}.

Definition metas_of (kind : string) (l : list ObjectMeta.t) : list meta := meta_of kind <$> l.

Inductive registry_error : Set := KubeError (msg : string) | HttpError (msg : string).

Inductive registry_op : Set → Type :=
| ListDeployments : registry_op (result (list ObjectMeta.t) registry_error)
| ListStatefulSets : registry_op (result (list ObjectMeta.t) registry_error)
| ListDaemonSets : registry_op (result (list ObjectMeta.t) registry_error)
| UtcNow : registry_op DateTime
| UtcText : registry_op string        (** [Utc::now().to_rfc3339()] in [Condition::ready] *)
| PatchStatus (name : string) (s : Status.t) : registry_op (result unit registry_error)
| PostAlerts (url : string) (alerts : list json) : registry_op (result unit registry_error).

Abbreviation program := (tree registry_op registry_error).

Definition list_workloads : program (list meta) :=
  ds ← request ListDeployments;
  ss ← request ListStatefulSets;
  xs ← request ListDaemonSets;
  mret (metas_of "Deployment" ds ++ metas_of "StatefulSet" ss ++ metas_of "DaemonSet" xs).

(** The registry object: its name, spec and status. *)
Module Registry.
Record t : Type := { name_any : string; spec : Spec.t; status : option Status.t }.
End Registry.

Definition send_alerts (url : option string) (alerts : list json) : program unit :=
  match url, alerts with
  | Some u, _ :: _ => request (PostAlerts (trim_end u +:+ "/api/v2/alerts") alerts)
  | _, _ => mret tt
  end.

Definition reconcile_ownership_registry (r : Registry.t) : program Status.t :=
  ws ← list_workloads;
  let previous := default Status.default (Registry.status r) in
  now ← Vis UtcNow mret;
  stamp ← Vis UtcText mret;
  let status := derive_status (Registry.spec r) ws previous now stamp in
  request (PatchStatus (Registry.name_any r) status);;
  send_alerts (Spec.alertmanager_url (Registry.spec r)) (ownership_alerts status);;
  mret status.
