(* ===== verification/OwnershipFacts.v ===== *)
(** * Who owns what

    The reading of a CODEOWNERS file, as the language of its patterns; the registry over any
    sequence of cycles; and what a cycle does for every listed workload: its alerts reach its
    owner, or it is alerted on. *)

From stdpp Require Import prelude gmap strings list.
From Stdlib Require Import Ascii Sorted.
From S2P Require Import Prelude RustStr RustText Json Prog BTreeMap Conditions Ownership.

(** ** The language of a pattern *)

Inductive token : Set := Lit (c : ascii) | Any | Deep.

Fixpoint tokens (p : list ascii) : list token :=
  match p with
  | [] => []
  | c :: rest =>
      if Ascii.eqb c STAR then
        match rest with
        | d :: rest2 => if Ascii.eqb d STAR then Deep :: tokens (strip_slash rest2) else Any :: tokens rest
        | [] => [Any]
        end
      else Lit c :: tokens rest
  end.

(** A letter stands for itself, a star for a text within a segment, two stars for any text. *)
Definition fits_token (k : token) (s : list ascii) : Prop :=
  match k with Lit c => s = [c] | Any => SLASH ∉ s | Deep => True end.

(** The text is cut into one piece for each token. *)
Inductive fits : list token → list ascii → Prop :=
| fits_nil : fits [] []
| fits_cons k ts s t : fits_token k s → fits ts t → fits (k :: ts) (s ++ t).

Lemma fits_nil_inv t : fits [] t ↔ t = [].
Proof. split; [by inversion 1|intros ->; constructor]. Qed.

Lemma fits_cons_inv k ts t : fits (k :: ts) t ↔ ∃ s u, t = s ++ u ∧ fits_token k s ∧ fits ts u.
Proof. split; [inversion 1; naive_solver|intros (s & u & -> & ? & ?); by constructor]. Qed.

Lemma fits_app ts ts' t : fits (ts ++ ts') t ↔ ∃ s u, t = s ++ u ∧ fits ts s ∧ fits ts' u.
Proof.
  revert t. induction ts as [|k ts IH]; intros t; simpl.
  - split; [intros H; exists [], t; repeat constructor; done|]. by intros (s & u & -> & ->%fits_nil_inv & Hu).
  - rewrite fits_cons_inv. setoid_rewrite IH. setoid_rewrite fits_cons_inv. split.
    + intros (s & _ & -> & Hk & s' & u & -> & Hs & Hu). exists (s ++ s'), u. rewrite app_assoc. naive_solver.
    + intros (_ & u & -> & (s & s' & -> & Hk & Hs) & Hu). exists s, (s' ++ u). rewrite app_assoc. naive_solver.
Qed.

(** *** The search over the cuts *)

Lemma elem_of_take_while (f : nat → bool) a n i :
  i ∈ take_while f (seq a n) ↔ a ≤ i < a + n ∧ ∀ j, a ≤ j ≤ i → f j = true.
Proof.
  revert a. induction n as [|n IH]; intros a; simpl.
  - rewrite elem_of_nil. split; [done|lia].
  - destruct (f a) eqn:Hf; [rewrite elem_of_cons, IH|rewrite elem_of_nil]; split.
    + intros [->|[Hi Hj]]; (split; [lia|]); intros j ?; destruct (decide (j = a)) as [->|]; try done; [lia|apply Hj; lia].
    + intros [Hi Hj]. destruct (decide (i = a)) as [->|]; [by left|right]. split; [lia|]. intros j ?. apply Hj. lia.
    + done.
    + intros [Hi Hj]. rewrite Hj in Hf by lia. done.
Qed.

Lemma same_segment_spec t i : i ≤ length t → (∀ j, 0 ≤ j ≤ i → same_segment t j = true) ↔ SLASH ∉ take i t.
Proof.
  intros Hi. rewrite list_elem_of_lookup. split.
  - intros Hall [j Hj]. apply lookup_take_Some in Hj as [Hj Hlt]. specialize (Hall (S j) ltac:(lia)). simpl in Hall.
    rewrite Hj, Ascii.eqb_refl in Hall. done.
  - intros Hno [|j] Hj; [done|]. simpl. destruct (t !! j) as [c|] eqn:Hc; [|done].
    destruct (Ascii.eqb_spec c SLASH) as [->|]; [|done]. destruct Hno. exists j. apply lookup_take_Some. split; [done|lia].
Qed.

Lemma search_deep (g : list ascii → bool) t : existsb (λ i, g (drop i t)) (upto t) = true ↔ ∃ s u, t = s ++ u ∧ g u = true.
Proof.
  rewrite existsb_exists. setoid_rewrite <- list_elem_of_In. unfold upto. setoid_rewrite elem_of_seq. split.
  - intros (i & Hi & Hg). exists (take i t), (drop i t). by rewrite take_drop.
  - intros (s & u & -> & Hg). exists (length s). rewrite drop_app_length, length_app. split; [lia|done].
Qed.

Lemma search_any (g : list ascii → bool) t :
  existsb (λ i, g (drop i t)) (take_while (same_segment t) (upto t)) = true ↔ ∃ s u, t = s ++ u ∧ SLASH ∉ s ∧ g u = true.
Proof.
  rewrite existsb_exists. setoid_rewrite <- list_elem_of_In. unfold upto. setoid_rewrite elem_of_take_while. split.
  - intros (i & (Hi & Hs) & Hg). exists (take i t), (drop i t). rewrite take_drop. split_and!; [done| |done].
    apply same_segment_spec; [lia|done].
  - intros (s & u & -> & Hs & Hg). exists (length s). rewrite drop_app_length. split; [|done]. rewrite length_app. split; [lia|].
    apply same_segment_spec; [rewrite length_app; lia|]. by rewrite take_app_length.
Qed.

Lemma strip_slash_length l : length (strip_slash l) ≤ length l.
Proof. destruct l as [|c l]; simpl; [lia|]. destruct (Ascii.eqb c SLASH); simpl; lia. Qed.

(** Patterns from short to long: two stars swallow a slash. *)
Lemma pattern_ind (P : list ascii → Prop) :
  P [] → (∀ c p, Ascii.eqb c STAR = false → P p → P (c :: p)) →
  (∀ p, match p with d :: _ => Ascii.eqb d STAR = false | [] => True end → P p → P (STAR :: p)) →
  (∀ p, P (strip_slash p) → P (STAR :: STAR :: p)) → ∀ p, P p.
Proof.
  intros H0 Hc H1 H2 p. remember (length p) as n eqn:Hn. revert p Hn.
  induction (lt_wf n) as [n _ IH]; intros [|c p] Hn; [done|]. simpl in Hn.
  destruct (Ascii.eqb_spec c STAR) as [->|Hne]; [|apply Hc; [by apply Ascii.eqb_neq|eapply IH; [|done]; lia]].
  destruct p as [|d p]; [by apply H1|]. destruct (Ascii.eqb_spec d STAR) as [->|Hd].
  - apply H2. pose proof (strip_slash_length p). simpl in *. eapply IH; [|done]. lia.
  - apply H1; [by apply Ascii.eqb_neq|]. eapply IH; [|done]. lia.
Qed.

Lemma tokens_any p : match p with d :: _ => Ascii.eqb d STAR = false | [] => True end → tokens (STAR :: p) = Any :: tokens p.
Proof. destruct p as [|d p]; [done|]. cbn [tokens]. by intros ->. Qed.

Lemma glob_any p t :
  match p with d :: _ => Ascii.eqb d STAR = false | [] => True end →
  glob_go (STAR :: p) t = existsb (λ i, glob_go p (drop i t)) (take_while (same_segment t) (upto t)).
Proof. destruct p as [|d p]; [done|]. intros Hd. cbn [glob_go Ascii.eqb STAR]. rewrite Hd. done. Qed.

Lemma glob_go_spec p t : glob_go p t = true ↔ fits (tokens p) t.
Proof.
  revert t. induction p as [|c p Hc IH|p Hp IH|p IH] using pattern_ind; intros t.
  - rewrite fits_nil_inv. by destruct t.
  - cbn [glob_go tokens]. rewrite Hc, fits_cons_inv. cbn [fits_token]. destruct t as [|a t].
    + split; [done|]. by intros (s & u & Hsu & -> & _).
    + rewrite andb_true_iff, Ascii.eqb_eq, IH. split; [intros [-> ?]; by exists [c], t|].
      intros (s & u & Hsu & -> & Hu). by simplify_eq/=.
  - rewrite glob_any, tokens_any, search_any, fits_cons_inv by done. by setoid_rewrite IH.
  - change (glob_go (STAR :: STAR :: p) t) with (existsb (λ i, glob_go (strip_slash p) (drop i t)) (upto t)).
    change (tokens (STAR :: STAR :: p)) with (Deep :: tokens (strip_slash p)).
    rewrite search_deep, fits_cons_inv. setoid_rewrite IH. cbn [fits_token]. naive_solver.
Qed.

(** *** A pattern and what lies under it *)

Definition under : list ascii := [SLASH; STAR; STAR].

Lemma tokens_under p :
  tokens (p ++ under) = tokens p ++ [Lit SLASH; Deep]
  ∨ ∃ ts, tokens p = ts ++ [Deep] ∧ tokens (p ++ under) = ts ++ [Deep; Deep].
Proof.
  induction p as [|c p Hc IH|p Hp IH|p IH] using pattern_ind.
  - by left.
  - cbn [app tokens]. rewrite Hc. destruct IH as [->|(ts & -> & ->)]; [by left|right]. by exists (Lit c :: ts).
  - cbn [app]. rewrite (tokens_any p) by done. rewrite tokens_any by (by destruct p).
    destruct IH as [->|(ts & -> & ->)]; [by left|right]. by exists (Any :: ts).
  - change (tokens (STAR :: STAR :: p)) with (Deep :: tokens (strip_slash p)).
    change (tokens ((STAR :: STAR :: p) ++ under)) with (Deep :: tokens (strip_slash (p ++ under))).
    destruct p as [|d p]; [right; by exists []|].
    replace (strip_slash ((d :: p) ++ under)) with (strip_slash (d :: p) ++ under) by (simpl; by destruct (Ascii.eqb d SLASH)).
    destruct IH as [->|(ts & -> & ->)]; [by left|right]. by exists (Deep :: ts).
Qed.

Lemma fits_deep ts t : fits (ts ++ [Deep]) t ↔ ∃ s u, t = s ++ u ∧ fits ts s.
Proof.
  rewrite fits_app. setoid_rewrite fits_cons_inv. setoid_rewrite fits_nil_inv. split; [naive_solver|].
  intros (s & u & -> & Hs). exists s, u. split_and!; [done|done|]. exists u, []. by rewrite app_nil_r.
Qed.

Lemma fits_under ts t : fits (ts ++ [Lit SLASH; Deep]) t ↔ ∃ d u, t = d ++ SLASH :: u ∧ fits ts d.
Proof.
  change [Lit SLASH; Deep] with ([Lit SLASH] ++ [Deep]). rewrite app_assoc, fits_deep. setoid_rewrite fits_app. setoid_rewrite fits_cons_inv.
  setoid_rewrite fits_nil_inv. split.
  - intros (_ & u & -> & s & _ & -> & Hs & _ & _ & -> & -> & ->). exists s, u. by rewrite <- app_assoc.
  - intros (d & u & -> & Hd). exists (d ++ [SLASH]), u. rewrite <- app_assoc. split; [done|].
    exists d, [SLASH]. split_and!; [done|done|]. by exists [SLASH], [].
Qed.

(** The text fits, or it lies below a text that fits. *)
Definition covers (pat sub : string) : Prop :=
  let ts := tokens (bytes pat) in
  fits ts (bytes sub) ∨ ∃ dir below, sub = dir +:+ "/" +:+ below ∧ fits ts (bytes dir).

Lemma bytes_below s d u : bytes s = d ++ SLASH :: u ↔ ∃ dir below, s = dir +:+ "/" +:+ below ∧ bytes dir = d ∧ bytes below = u.
Proof.
  split.
  - intros Hs. exists (String.string_of_list_ascii d), (String.string_of_list_ascii u). unfold bytes in *.
    rewrite !String.list_ascii_of_string_of_list_ascii. split; [|done].
    rewrite <- (String.string_of_list_ascii_of_string s), Hs. clear. induction d as [|c d IH]; [done|].
    change (String c (String.string_of_list_ascii (d ++ SLASH :: u)) = String c (String.string_of_list_ascii d +:+ "/" +:+ String.string_of_list_ascii u)).
    by rewrite IH.
  - intros (dir & below & -> & <- & <-). by rewrite !bytes_append.
Qed.

Lemma glob_covers pat sub : glob pat sub || glob (pat +:+ "/**") sub = true ↔ covers pat sub.
Proof.
  unfold glob, covers. rewrite orb_true_iff, !glob_go_spec, bytes_append. change (bytes "/**") with under.
  destruct (tokens_under (bytes pat)) as [->|(ts & Hts & ->)].
  - rewrite fits_under. setoid_rewrite bytes_below. naive_solver.
  - rewrite Hts. change [Deep; Deep] with ([Deep] ++ [Deep]). rewrite (app_assoc ts [Deep] [Deep]), fits_deep, !fits_deep. split.
    + intros [?|(s & u & Hsu & (s' & u' & -> & Hs)%fits_deep)]; [by left|left]. exists s', (u' ++ u). by rewrite app_assoc.
    + intros [?|(dir & below & -> & (s & u & Hd & Hs)%fits_deep)]; [by left|left]. exists s, (u ++ SLASH :: bytes below).
      split; [|done]. rewrite !bytes_append, Hd, <- app_assoc. done.
Qed.

(** *** The path from one of its segments *)

Definition from_segment (path sub : string) : Prop := sub = path ∨ ∃ pre, path = pre +:+ "/" +:+ sub.

Lemma join_segments s : join "/" (split_char SLASH s) = s.
Proof. exact (join_split SLASH s). Qed.

Lemma proper_segments path sub :
  (∃ i, i < length (split_char SLASH path) - 1 ∧ sub = join "/" (drop (S i) (split_char SLASH path))) ↔ ∃ pre, path = pre +:+ "/" +:+ sub.
Proof.
  induction path as [|a s IH]; simpl.
  { split; [intros (i & ? & _); lia|]. by intros [[|] ?]. }
  pose proof (split_char_nonempty SLASH s) as Hne. destruct (Ascii.eqb_spec a SLASH) as [->|Ha].
  - assert ((∃ pre, String SLASH s = pre +:+ "/" +:+ sub) ↔ s = sub ∨ ∃ pre, s = pre +:+ "/" +:+ sub) as ->.
    { split; [|intros [->|[pre ->]]; [by exists ""|by exists (String SLASH pre)]].
      intros [[|c pre] Hp]; [by injection Hp as ->; left|]. injection Hp as <- Hp. right. by exists pre. }
    rewrite <- IH. cbn [length]. replace (S (length (split_char SLASH s)) - 1) with (length (split_char SLASH s)) by lia. split.
    + intros ([|i] & Hi & ->); [left; by rewrite ?skipn_cons, ?drop_0, join_segments|right]. exists i. split; [lia|done].
    + intros [->|(i & Hi & ->)]; [exists 0|exists (S i)]; (split; [destruct (split_char SLASH _); simpl in *; [done|lia]|]); [|done].
      by rewrite ?skipn_cons, ?drop_0, join_segments.
  - assert ((∃ pre, String a s = pre +:+ "/" +:+ sub) ↔ ∃ pre, s = pre +:+ "/" +:+ sub) as ->.
    { split; [|intros [pre ->]; by exists (String a pre)]. intros [[|c pre] Hp]; [by injection Hp|]. injection Hp as <- Hp. by exists pre. }
    rewrite <- IH. destruct (split_char SLASH s) as [|w ws]; [done|]. done.
Qed.

Lemma segments_spec path sub :
  (∃ i, i < length (split_char SLASH path) ∧ sub = join "/" (drop i (split_char SLASH path))) ↔ from_segment path sub.
Proof.
  unfold from_segment. rewrite <- proper_segments. split.
  - intros ([|i] & Hi & ->); [left; by rewrite ?skipn_cons, ?drop_0, join_segments|right]. exists i. split; [lia|done].
  - intros [->|(i & Hi & ->)]; [exists 0; rewrite drop_0, join_segments|exists (S i)]; (split; [|done]); [|lia].
    pose proof (split_char_nonempty SLASH path). destruct (split_char SLASH path); simpl; [done|lia].
Qed.

(** A pattern with a slash before its end speaks of the path, another of the path from any of
    its segments on. *)
Definition rule_covers (pattern path : string) : Prop :=
  ∃ sub, (if is_anchored pattern then sub = trim_start path else from_segment (trim_start path) sub)
         ∧ covers (pattern_body pattern) sub.

Lemma codeowners_match_spec pattern path : codeowners_match pattern path = true ↔ rule_covers pattern path.
Proof.
  unfold codeowners_match, rule_covers. destruct (is_anchored pattern).
  - rewrite glob_covers. naive_solver.
  - rewrite existsb_exists. setoid_rewrite <- list_elem_of_In. setoid_rewrite elem_of_seq. setoid_rewrite glob_covers.
    setoid_rewrite <- segments_spec. split.
    + intros (i & Hi & Hc). eexists. split; [|exact Hc]. exists i. split; [lia|done].
    + intros (_ & (i & Hi & ->) & Hc). exists i. split; [lia|done].
Qed.

(** *** The file *)

Definition rules (codeowners : string) : list (string * list string) := omap rule_of (lines codeowners).

(** The owners are those of the last rule that covers the path. *)
Definition owned_by (codeowners path : string) (owners : list string) : Prop :=
  (owners = [] ∧ ∀ r, r ∈ rules codeowners → ¬ rule_covers r.1 path)
  ∨ ∃ before r after, rules codeowners = before ++ r :: after ∧ rule_covers r.1 path
      ∧ (∀ r', r' ∈ after → ¬ rule_covers r'.1 path) ∧ owners = r.2.

Definition last_match (path : string) (owners : list string) (r : string * list string) : list string :=
  if codeowners_match r.1 path then r.2 else owners.

Lemma codeowners_for_rules codeowners path : codeowners_for codeowners path = foldl (last_match path) [] (rules codeowners).
Proof.
  unfold codeowners_for, rules. generalize (@nil string). induction (lines codeowners) as [|line ls IH]; intros acc; [done|].
  cbn [foldl omap list_omap]. destruct (rule_of line) as [[pat parts]|]; apply IH.
Qed.

Lemma last_match_none path (rs : list (string * list string)) acc : (∀ r, r ∈ rs → ¬ rule_covers r.1 path) → foldl (last_match path) acc rs = acc.
Proof.
  revert acc. induction rs as [|r rs IH]; intros acc Hno; [done|]. cbn [foldl]. unfold last_match at 2.
  destruct (codeowners_match r.1 path) eqn:E; [apply codeowners_match_spec in E; destruct (Hno r); [by left|done]|].
  apply IH. intros r' Hr. apply Hno. by right.
Qed.

Lemma last_match_split path (rs : list (string * list string)) :
  (∀ r, r ∈ rs → ¬ rule_covers r.1 path)
  ∨ ∃ before r after, rs = before ++ r :: after ∧ rule_covers r.1 path ∧ ∀ r', r' ∈ after → ¬ rule_covers r'.1 path.
Proof.
  induction rs as [|r rs [Hno|(before & r' & after & -> & Hr & Hno)]].
  - left. intros r Hr. by apply not_elem_of_nil in Hr.
  - destruct (codeowners_match r.1 path) eqn:E.
    + right. exists [], r, rs. by rewrite <- codeowners_match_spec.
    + left. intros r' [->|Hr]%elem_of_cons; [|by apply Hno]. rewrite <- codeowners_match_spec. congruence.
  - right. by exists (r :: before), r', after.
Qed.

(** C18: reading a CODEOWNERS file.  Of any text and path, the code returns exactly the owners named
    by the last rule of the file that covers the path (none if there is no such rule), where a rule
    covers a path when the path, or for a pattern without an inner slash the path from one of its
    segments on, or a directory above it, can be cut into pieces that fit the tokens of the pattern
    one by one: a letter itself, a star any text within a segment, two stars any text. *)
Theorem last_covering_rule_owns codeowners path owners :
  codeowners_for codeowners path = owners ↔ owned_by codeowners path owners.
Proof.
  rewrite codeowners_for_rules. unfold owned_by. split.
  - intros <-. destruct (last_match_split path (rules codeowners)) as [Hno|(before & r & after & Hrs & Hr & Hno)]; [left|right].
    + by rewrite last_match_none.
    + exists before, r, after. split_and!; [done..|]. rewrite Hrs, foldl_app. cbn [foldl]. rewrite last_match_none by done.
      unfold last_match. by rewrite (proj2 (codeowners_match_spec _ _) Hr).
  - intros [[-> Hno]|(before & r & after & -> & Hr & Hno & ->)]; [by apply last_match_none|].
    rewrite foldl_app. cbn [foldl]. rewrite last_match_none by done. unfold last_match.
    by rewrite (proj2 (codeowners_match_spec _ _) Hr).
Qed.

(** ** What a cycle derives *)

Abbreviation ref := WorkloadMeta.workload.

Section outcome.
Context (spec : Spec.t).

(** The owner of a workload: the registered team it resolves to, if someone is on call. *)
Definition owner_entry (w : meta) : option OwnershipEntry.t :=
  '(team, source) ← resolve spec w;
  t ← teams_by_name spec !! team;
  if TeamRotation.live t then
    Some {| OwnershipEntry.workload := ref w; OwnershipEntry.team := team; OwnershipEntry.rotation := TeamRotation.rotation t;
            OwnershipEntry.receiver := TeamRotation.receiver t; OwnershipEntry.source := source |}
  else None.
Definition unowned_of (w : meta) : option workload := match resolve spec w with None => Some (ref w) | Some _ => None end.
Definition stale_reason (team : string) : option string :=
  match teams_by_name spec !! team with
  | None => Some "owner is not a registered team"
  | Some t => if TeamRotation.live t then None else Some ("rotation '" +:+ TeamRotation.rotation t +:+ "' has no one on call")
  end.
Definition stale_of (w : meta) : option StaleOwnership.t :=
  '(team, _) ← resolve spec w;
  reason ← stale_reason team;
  Some {| StaleOwnership.workload := ref w; StaleOwnership.team := team; StaleOwnership.reason := reason |}.
Definition change_of (prev : gmap workload string) (now : DateTime) (w : meta) : option OwnershipChange.t :=
  if decide (fst <$> resolve spec w = prev !! ref w) then None
  else Some {| OwnershipChange.workload := ref w; OwnershipChange.previous_team := prev !! ref w;
               OwnershipChange.team := fst <$> resolve spec w; OwnershipChange.source := snd <$> resolve spec w;
               OwnershipChange.changed_at := now |}.

Lemma omap_cons_list {A B} (f : A → option B) x l : omap f (x :: l) = option_list (f x) ++ omap f l.
Proof. cbn. by destruct (f x). Qed.

Lemma attribute_step prev now s w :
  let s' := attribute_workload spec prev now s w in
  Status.entries s' = Status.entries s ++ option_list (owner_entry w) ∧ Status.unowned s' = Status.unowned s ++ option_list (unowned_of w)
  ∧ Status.stale s' = Status.stale s ++ option_list (stale_of w) ∧ Status.history s' = Status.history s ++ option_list (change_of prev now w).
Proof.
  unfold attribute_workload, record_change, owner_entry, unowned_of, stale_of, stale_reason, change_of.
  destruct (resolve spec w) as [[team source]|]; cbn -[decide]; [destruct (teams_by_name spec !! team) as [t|]; cbn -[decide]|];
    [destruct (TeamRotation.live t)|..]; case_decide; cbn; rewrite ?app_nil_r; done.
Qed.

Lemma attribute_fold prev now l s :
  let s' := foldl (attribute_workload spec prev now) s l in
  Status.entries s' = Status.entries s ++ omap owner_entry l ∧ Status.unowned s' = Status.unowned s ++ omap unowned_of l
  ∧ Status.stale s' = Status.stale s ++ omap stale_of l ∧ Status.history s' = Status.history s ++ omap (change_of prev now) l.
Proof.
  revert s. induction l as [|w l IH]; intros s; cbn [foldl]; [by rewrite !app_nil_r|].
  destruct (IH (attribute_workload spec prev now s w)) as (-> & -> & -> & ->).
  destruct (attribute_step prev now s w) as (-> & -> & -> & ->). by rewrite !omap_cons_list, !app_assoc.
Qed.

(** [status.history.drain(..len - limit)] where it is too long. *)
Definition cut {A} (limit : nat) (h : list A) : list A := if limit <? length h then drop (length h - limit) h else h.

Lemma derived ws previous now stamp :
  let st := derive_status spec ws previous now stamp in
  let l := sorted_workloads spec ws in
  Status.entries st = omap owner_entry l ∧ Status.unowned st = omap unowned_of l ∧ Status.stale st = omap stale_of l
  ∧ Status.history st = cut (Spec.history_limit spec) (Status.history previous ++ omap (change_of (previous_teams previous) now) l).
Proof.
  cbn zeta. unfold derive_status.
  match goal with |- context [foldl ?f ?s ?l] => destruct (attribute_fold (previous_teams previous) now l s) as (He & Hu & Hs & Hh) end.
  unfold finish. cbn [Status.entries Status.unowned Status.stale Status.history] in *. by rewrite He, Hu, Hs, Hh.
Qed.

Definition excluded (w : meta) : bool := str_in (WorkloadRef.namespace (ref w)) (Spec.excluded_namespaces spec).

Lemma elem_of_sorted ws w : w ∈ sorted_workloads spec ws ↔ w ∈ ws ∧ excluded w = false.
Proof.
  unfold sorted_workloads. rewrite elem_of_sort_by, !list_elem_of_In, filter_In, negb_true_iff. done.
Qed.

Lemma sorted_refs_NoDup ws : NoDup (ref <$> ws) → NoDup (ref <$> sorted_workloads spec ws).
Proof.
  intros Hnd. unfold sorted_workloads. rewrite sort_by_Permutation.
  eapply sublist_NoDup; [exact Hnd|]. apply fmap_sublist.
  induction ws as [|w ws IH]; simpl; [constructor|]. rewrite fmap_cons, NoDup_cons in Hnd. destruct Hnd as [_ Hnd].
  destruct (negb _); [apply sublist_skip|apply sublist_cons]; auto.
Qed.
End outcome.

Lemma same_ref (l : list meta) x y : NoDup (ref <$> l) → x ∈ l → y ∈ l → ref x = ref y → x = y.
Proof.
  intros Hnd [i Hi]%list_elem_of_lookup [j Hj]%list_elem_of_lookup Hxy.
  assert (i = j) as ->; [|congruence]. eapply NoDup_lookup; [exact Hnd|by rewrite list_lookup_fmap, Hi|by rewrite list_lookup_fmap, Hj, Hxy].
Qed.

(** ** Alerts *)

(** An alert's labels name a workload: its namespace, its name under the label of its kind, and
    no name under the label of another kind. *)
Definition alert_names (labels : attributes) (w : workload) : Prop :=
  BTreeMap.get "namespace" labels = Some (WorkloadRef.namespace w)
  ∧ ∃ label, (label, WorkloadRef.kind w) ∈ ALERT_WORKLOAD_LABELS
    ∧ ∀ l k, (l, k) ∈ ALERT_WORKLOAD_LABELS → BTreeMap.get l labels = if String.eqb l label then Some (WorkloadRef.name w) else None.

Lemma is_workload_spec w e :
  is_workload (WorkloadRef.kind w) (WorkloadRef.namespace w) (WorkloadRef.name w) e = bool_decide (OwnershipEntry.workload e = w).
Proof.
  unfold is_workload. destruct e as [[k ns n] ? ? ? ?], w as [k' ns' n']; cbn.
  apply eq_true_iff_eq. rewrite !andb_true_iff, !String.eqb_eq, bool_decide_eq_true. naive_solver.
Qed.

Lemma find_first_ext {A} (f g : A → bool) l : (∀ x, f x = g x) → find_first f l = find_first g l.
Proof. intros Hfg. induction l as [|x l IH]; simpl; [done|]. by rewrite Hfg, IH. Qed.

Lemma attribute_named s labels w :
  alert_names labels w → attribute_alert s labels = find_first (λ e, bool_decide (OwnershipEntry.workload e = w)) (Status.entries s).
Proof.
  intros (Hns & label & Hin & Hget). rewrite <- (find_first_ext _ _ _ (is_workload_spec w)). unfold attribute_alert. rewrite Hns. cbn.
  rewrite (Hget "deployment" "Deployment"), (Hget "statefulset" "StatefulSet"), (Hget "daemonset" "DaemonSet") by set_solver.
  unfold ALERT_WORKLOAD_LABELS in Hin. rewrite !elem_of_cons, elem_of_nil in Hin.
  destruct Hin as [[= -> ->]|[[= -> ->]|[[= -> ->]|[]]]]; cbn; by destruct (find_first _ _).
Qed.

Lemma owner_entry_ref spec w e : owner_entry spec w = Some e → OwnershipEntry.workload e = ref w.
Proof.
  unfold owner_entry. destruct (resolve spec w) as [[team source]|]; [|done]; cbn. destruct (teams_by_name spec !! team) as [t|]; [|done]; cbn.
  destruct (TeamRotation.live t); [|done]. by intros [= <-].
Qed.

Lemma entry_of_workload spec l w :
  NoDup (ref <$> l) → w ∈ l →
  find_first (λ e, bool_decide (OwnershipEntry.workload e = ref w)) (omap (owner_entry spec) l) = owner_entry spec w.
Proof.
  intros Hnd Hw. destruct (owner_entry spec w) as [e|] eqn:He.
  - apply find_first_unique; [apply list_elem_of_omap; eauto|by apply bool_decide_eq_true, (owner_entry_ref spec)|].
    intros e' (w' & Hw' & He')%list_elem_of_omap Hr. apply bool_decide_eq_true in Hr. rewrite (owner_entry_ref _ _ _ He') in Hr.
    rewrite (same_ref l w' w) in He' by done. congruence.
  - apply find_first_None. intros e' (w' & Hw' & He')%list_elem_of_omap. apply bool_decide_eq_false. rewrite (owner_entry_ref _ _ _ He').
    intros Hr. rewrite (same_ref l w' w) in He' by done. congruence.
Qed.

(** An alert of the registry on a workload. *)
Definition concerns (a : json) (w : workload) : Prop := ∃ name summary, a = alert name w summary.

Lemma concerns_alert name w summary w' : concerns (alert name w summary) w' ↔ w = w'.
Proof.
  split; [|intros ->; by do 2 eexists]. intros (n & t & Ha). destruct w as [k ns x], w' as [k' ns' x']. unfold alert in Ha. cbn in Ha. congruence.
Qed.

Lemma gap_alerts spec l w :
  NoDup (ref <$> l) → w ∈ l →
  owner_entry spec w = None ↔
  ∃ a, a ∈ (unowned_alert <$> omap (unowned_of spec) l) ++ (stale_alert <$> omap (stale_of spec) l) ∧ concerns a (ref w).
Proof.
  intros Hnd Hw. setoid_rewrite elem_of_app. setoid_rewrite list_elem_of_fmap. setoid_rewrite list_elem_of_omap.
  assert (owner_entry spec w = None ↔ is_Some (unowned_of spec w) ∨ is_Some (stale_of spec w)) as ->.
  { unfold owner_entry, unowned_of, stale_of, stale_reason. rewrite !is_Some_alt.
    destruct (resolve spec w) as [[team source]|]; cbn; [|naive_solver]. destruct (teams_by_name spec !! team) as [t|]; cbn; [|naive_solver].
    destruct (TeamRotation.live t); cbn; naive_solver. }
  assert (∀ w' u, unowned_of spec w' = Some u → u = ref w') as Hu.
  { intros w' u. unfold unowned_of. destruct (resolve spec w'); naive_solver. }
  assert (∀ w' x, stale_of spec w' = Some x → StaleOwnership.workload x = ref w') as Hs.
  { intros w' x. unfold stale_of. destruct (resolve spec w') as [[team source]|]; cbn; [|done]. destruct (stale_reason spec team); cbn; [|done].
    by intros [= <-]. }
  split.
  - intros [[u E]|[x E]]; [exists (unowned_alert u)|exists (stale_alert x)]; (split; [|apply concerns_alert; eauto]).
    + left. exists u. eauto.
    + right. exists x. eauto.
  - intros (a & [(u & -> & w' & Hw' & E)|(x & -> & w' & Hw' & E)] & Hc%concerns_alert); [left|right];
      rewrite (same_ref l w' w) in E by (done || (rewrite <- Hc; symmetry; eauto)); eauto.
Qed.

(** ** The reconciler *)

Abbreviation registry_event := (event registry_op).
Abbreviation event_log := (list registry_event).

Definition listing (e : registry_event) : list meta :=
  match e with
  | Ev ListDeployments (Ok l) => metas_of "Deployment" l
  | Ev ListStatefulSets (Ok l) => metas_of "StatefulSet" l
  | Ev ListDaemonSets (Ok l) => metas_of "DaemonSet" l
  | _ => []
  end.
Definition listed (tr : list registry_event) : list meta := mjoin (listing <$> tr).

Definition alerts_endpoint (url : string) : string := trim_end url +:+ "/api/v2/alerts".

(** What a cycle that succeeds has done. *)
Definition cycle_done (r : Registry.t) (tr : list registry_event) (res : result Status.t registry_error) : Prop :=
  match res with
  | Ok st =>
      (∃ now stamp, st = derive_status (Registry.spec r) (listed tr) (default Status.default (Registry.status r)) now stamp)
      ∧ Ev (PatchStatus (Registry.name_any r) st) (Ok tt) ∈ tr
      ∧ ∀ url, Spec.alertmanager_url (Registry.spec r) = Some url → ownership_alerts st ≠ [] →
          Ev (PostAlerts (alerts_endpoint url) (ownership_alerts st)) (Ok tt) ∈ tr
  | Err _ => True
  end.

Lemma wp_send url alerts (Q : list registry_event → result unit registry_error → Prop) h :
  (∀ tr, (∀ u, url = Some u → alerts ≠ [] → Ev (PostAlerts (alerts_endpoint u) alerts) (Ok tt) ∈ tr) → mjoin (listing <$> tr) = [] →
     Q (h ++ tr) (Ok tt)) →
  (∀ tr e, Q (h ++ tr) (Err e)) → wp (λ _ _, True) (send_alerts url alerts) Q h.
Proof.
  intros Hok Herr. unfold send_alerts. destruct url as [u|]; [destruct alerts as [|a al]|]; cbn; try (rewrite <- (app_nil_r h); by apply Hok).
  intros [[]|e]; (split; [done|]); [|apply Herr]. apply Hok; [|done]. intros u' [= <-] _. by left.
Qed.

Lemma reconcile_cycle r : wp (λ _ _, True) (reconcile_ownership_registry r) (cycle_done r) [].
Proof.
  unfold reconcile_ownership_registry, list_workloads, request.
  intros [ds|]; (split; [done|]); [|done]. intros [ss|]; (split; [done|]); [|done]. intros [xs|]; (split; [done|]); [|done].
  intros now. split; [done|]. intros stamp. split; [done|]. intros [[]|]; (split; [done|]); [|done].
  set (ws := metas_of "Deployment" ds ++ metas_of "StatefulSet" ss ++ metas_of "DaemonSet" xs).
  set (st := derive_status (Registry.spec r) ws (default Status.default (Registry.status r)) now stamp).
  match goal with |- wp _ _ _ ?h =>
    change (wp (λ _ _, True) (send_alerts (Spec.alertmanager_url (Registry.spec r)) (ownership_alerts st) ≫= λ _, mret st) (cycle_done r) h) end.
  apply wp_bind, wp_send; [|done]. intros tr Hpost Hl. cbn [then_ wp mret tree_ret]. unfold cycle_done. split_and!.
  - exists now, stamp. unfold st. f_equal. unfold listed, ws. rewrite fmap_app, join_app, Hl, app_nil_r. cbn. by rewrite ?app_nil_r.
  - cbn. set_solver.
  - intros url Hurl Hal. apply elem_of_app. right. by apply Hpost.
Qed.

(** C19: a cycle of the ownership registry that succeeds, against any API server that lists a workload
    at most once.  The status it returns is the one it wrote.  Of every listed workload outside the
    excluded namespaces: an alert whose labels name it is attributed to its owner (the registered
    team its label, deploy metadata or CODEOWNERS resolve to, with the rotation and receiver of that
    team) if someone is on call there, and to nobody otherwise; and exactly when it has no such owner
    the alerts of the cycle concern it, and they were delivered if the registry names an Alertmanager. *)
Theorem alerts_reach_the_owner r tr st w :
  exec (reconcile_ownership_registry r) tr (Ok st) → NoDup (ref <$> listed tr) → w ∈ listed tr → excluded (Registry.spec r) w = false →
  Ev (PatchStatus (Registry.name_any r) st) (Ok tt) ∈ tr
  ∧ (∀ labels, alert_names labels (ref w) → attribute_alert st labels = owner_entry (Registry.spec r) w)
  ∧ (owner_entry (Registry.spec r) w = None ↔ ∃ a, a ∈ ownership_alerts st ∧ concerns a (ref w))
  ∧ (∀ url, Spec.alertmanager_url (Registry.spec r) = Some url → owner_entry (Registry.spec r) w = None →
       Ev (PostAlerts (alerts_endpoint url) (ownership_alerts st)) (Ok tt) ∈ tr).
Proof.
  intros Hex Hnd Hw Hx. destruct (wp_sound _ _ _ _ _ _ (reconcile_cycle r) Hex) as [_ ((now & stamp & Hst) & Hpatch & Hpost)].
  rewrite app_nil_l in *.
  destruct (derived (Registry.spec r) (listed tr) (default Status.default (Registry.status r)) now stamp) as (He & Hu & Hs & _).
  rewrite <- Hst in He, Hu, Hs.
  assert (w ∈ sorted_workloads (Registry.spec r) (listed tr)) as Hin by (by apply elem_of_sorted).
  pose proof (sorted_refs_NoDup (Registry.spec r) _ Hnd) as Hnd'.
  assert (owner_entry (Registry.spec r) w = None ↔ ∃ a, a ∈ ownership_alerts st ∧ concerns a (ref w)) as Hgap.
  { unfold ownership_alerts. rewrite Hu, Hs. by apply gap_alerts. }
  split_and!; [done| |done|].
  - intros labels Hl. rewrite (attribute_named _ _ _ Hl), He. by apply entry_of_workload.
  - intros url Hurl Hno. apply Hpost; [done|]. apply Hgap in Hno as (a & Ha & _). by intros Hnil; rewrite Hnil in Ha; apply not_elem_of_nil in Ha.
Qed.

(** ** The history over cycles *)

(** The registry after any number of cycles; specs, listings and times may change, the limit of
    the history does not. *)
Inductive reached (limit : nat) : Status.t → Prop :=
| reached_start : reached limit Status.default
| reached_cycle spec ws st now stamp :
    reached limit st → Spec.history_limit spec = limit → NoDup (ref <$> ws) → reached limit (derive_status spec ws st now stamp).

(** The status attributes a workload to a team, live or not. *)
Definition attributed (st : Status.t) (w : workload) (team : string) : Prop :=
  (∃ e, e ∈ Status.entries st ∧ OwnershipEntry.workload e = w ∧ OwnershipEntry.team e = team)
  ∨ ∃ x, x ∈ Status.stale st ∧ StaleOwnership.workload x = w ∧ StaleOwnership.team x = team.

Lemma attributed_derived spec ws st now stamp w team :
  attributed (derive_status spec ws st now stamp) w team ↔
  ∃ m, m ∈ sorted_workloads spec ws ∧ ref m = w ∧ fst <$> resolve spec m = Some team.
Proof.
  unfold attributed. destruct (derived spec ws st now stamp) as (-> & _ & -> & _).
  setoid_rewrite list_elem_of_omap. unfold owner_entry, stale_of, stale_reason. split.
  - intros [(e & (m & Hm & He) & <- & <-)|(x & (m & Hm & He) & <- & <-)]; exists m; destruct (resolve spec m) as [[t src]|]; try done;
      cbn in He; destruct (teams_by_name spec !! t) as [rot|]; try done; cbn in He; try destruct (TeamRotation.live rot); by simplify_eq/=.
  - intros (m & Hm & <- & Hr). destruct (resolve spec m) as [[t src]|] eqn:E; [|done]. injection Hr as ->.
    destruct (teams_by_name spec !! team) as [rot|] eqn:Et; [destruct (TeamRotation.live rot) eqn:El; [left|right]|right];
      (eexists; split; [exists m; split; [done|]; rewrite E; cbn; rewrite Et; cbn; rewrite ?El; done|done]).
Qed.

Lemma collect_spec {K V} `{Countable K} (l : list (K * V)) (m : gmap K V) k v :
  foldl (λ m kv, <[kv.1 := kv.2]> m) m l !! k = Some v → (k, v) ∈ l ∨ m !! k = Some v.
Proof.
  revert m. induction l as [|[k' v'] l IH]; intros m; cbn [foldl]; [by right|]. intros [Hin|Hm]%IH; [left; by right|].
  cbn in Hm. apply lookup_insert_Some in Hm as [[-> ->]|[_ Hm]]; [left; by left|by right].
Qed.

Lemma previous_attributed st w team : previous_teams st !! w = Some team → attributed st w team.
Proof.
  unfold previous_teams, collect, attributed. intros [Hin|Hm]%collect_spec; [|by rewrite lookup_empty in Hm].
  apply elem_of_app in Hin as [(e & He & Hin)%list_elem_of_fmap|(x & Hx & Hin)%list_elem_of_fmap]; simplify_eq; [left|right]; eauto.
Qed.

(** *** Cutting a history *)

Abbreviation about w := (List.filter (λ c, bool_decide (OwnershipChange.workload c = w))).

(** Of [w]: the last record names the team, or the records were cut. *)
Definition accounts (limit : nat) (h : list OwnershipChange.t) (w : workload) (team : string) : Prop :=
  match last (about w h) with Some c => OwnershipChange.team c = Some team | None => limit ≤ length h end.

Lemma cut_length {A} limit (h : list A) : length (cut limit h) = limit `min` length h.
Proof. unfold cut. destruct (Nat.ltb_spec limit (length h)); [rewrite length_drop|]; lia. Qed.

Lemma cut_suffix {A} limit (h : list A) : ∃ dropped, h = dropped ++ cut limit h.
Proof.
  unfold cut. destruct (limit <? length h); [|by exists []]. exists (take (length h - limit) h). by rewrite take_drop.
Qed.

Lemma Forall_cut {A} (P : A → Prop) limit h : Forall P h → Forall P (cut limit h).
Proof. destruct (cut_suffix limit h) as [d Hd]. rewrite Hd at 1. by intros [_ ?]%Forall_app. Qed.

Lemma accounts_cut limit h w team : accounts limit h w team → accounts limit (cut limit h) w team.
Proof.
  unfold accounts. destruct (cut_suffix limit h) as [d Hd]. pose proof (cut_length limit h) as Hl. rewrite Hd at 1.
  rewrite List.filter_app, last_app. destruct (last (about w (cut limit h))) as [c|] eqn:Ec; [done|].
  destruct (last (about w d)) as [c|] eqn:E; intros Ht.
  - unfold cut in *. destruct (Nat.ltb_spec limit (length h)) as [|Hle]; [rewrite length_drop; lia|].
    assert (d = []) as ->; [|done]. apply (f_equal length) in Hd. rewrite length_app in Hd. destruct d; [done|]. simpl in Hd. lia.
  - lia.
Qed.

(** *** The records of a cycle *)

Lemma changes_elsewhere spec prev now l w : w ∉ ref <$> l → about w (omap (change_of spec prev now) l) = [].
Proof.
  induction l as [|m l IH]; [done|]. rewrite fmap_cons, not_elem_of_cons. intros [Hne Hl].
  rewrite omap_cons_list, List.filter_app, (IH Hl), app_nil_r. unfold change_of. case_decide; [done|]. cbn. by rewrite bool_decide_eq_false_2.
Qed.

Lemma changes_of_workload spec prev now l m :
  NoDup (ref <$> l) → m ∈ l → about (ref m) (omap (change_of spec prev now) l) = option_list (change_of spec prev now m).
Proof.
  intros Hnd Hm. apply list_elem_of_split in Hm as (l1 & l2 & ->). rewrite fmap_app, fmap_cons in Hnd.
  apply NoDup_app in Hnd as (_ & Hl1 & [Hl2 _]%NoDup_cons).
  rewrite omap_app, omap_cons_list, !List.filter_app, (changes_elsewhere spec prev now l2) by done.
  rewrite changes_elsewhere by (intros H; apply (Hl1 _ H); by left). rewrite app_nil_l, app_nil_r.
  unfold change_of. case_decide; [done|]. cbn. by rewrite bool_decide_eq_true_2.
Qed.

Lemma changes_differ spec prev now l : Forall (λ c, OwnershipChange.team c ≠ OwnershipChange.previous_team c) (omap (change_of spec prev now) l).
Proof.
  apply Forall_forall. intros c (m & _ & Hc)%list_elem_of_omap. revert Hc. unfold change_of. case_decide; [done|]. by intros [= <-].
Qed.

Lemma cycle_accounts spec ws st now stamp w team :
  NoDup (ref <$> ws) → (∀ team, attributed st w team → accounts (Spec.history_limit spec) (Status.history st) w team) →
  attributed (derive_status spec ws st now stamp) w team →
  accounts (Spec.history_limit spec) (Status.history (derive_status spec ws st now stamp)) w team.
Proof.
  intros Hnd IH (m & Hm & <- & Hr)%attributed_derived. destruct (derived spec ws st now stamp) as (_ & _ & _ & ->). apply accounts_cut.
  unfold accounts. rewrite List.filter_app, (changes_of_workload _ _ _ _ m) by (done || by apply sorted_refs_NoDup).
  destruct (change_of spec (previous_teams st) now m) as [c|] eqn:Ec; cbn [option_list option_rect].
  - rewrite last_app. cbn. revert Ec. unfold change_of. case_decide; [done|]. by intros [= <-].
  - rewrite app_nil_r. assert (previous_teams st !! ref m = Some team) as Hp.
    { revert Ec. unfold change_of. case_decide; [congruence|done]. }
    specialize (IH team (previous_attributed _ _ _ Hp)). unfold accounts in IH. destruct (last _); [done|]. rewrite length_app. lia.
Qed.

(** C20: the ownership history over any sequence of cycles, whatever the specs, workloads and times,
    as long as a workload is listed once and the limit stays.  The history never exceeds its limit
    and every record in it is a change; and of every workload the status attributes to a team the
    last record names that team, unless all its records were cut away, and then the history is full. *)
Theorem history_names_the_owner limit st :
  reached limit st →
  length (Status.history st) ≤ limit
  ∧ Forall (λ c, OwnershipChange.team c ≠ OwnershipChange.previous_team c) (Status.history st)
  ∧ ∀ w team, attributed st w team →
      match last (history_for st w) with
      | Some c => OwnershipChange.team c = Some team
      | None => length (Status.history st) = limit
      end.
Proof.
  intros Hr. assert (length (Status.history st) ≤ limit ∧ Forall (λ c, OwnershipChange.team c ≠ OwnershipChange.previous_team c) (Status.history st)
    ∧ ∀ w team, attributed st w team → accounts limit (Status.history st) w team) as (Hl & Hf & Ha).
  { induction Hr as [|spec ws st now stamp Hr (Hl & Hf & Ha) <- Hnd].
    - split_and!; [cbn; lia|constructor|]. intros w team [(e & He & _)|(x & Hx & _)]; [by apply not_elem_of_nil in He|by apply not_elem_of_nil in Hx].
    - destruct (derived spec ws st now stamp) as (_ & _ & _ & Hh). split_and!.
      + rewrite Hh, cut_length. lia.
      + rewrite Hh. apply Forall_cut, Forall_app. split; [done|apply changes_differ].
      + intros w team. apply cycle_accounts; auto. }
  split_and!; [done|done|]. intros w team Hw. specialize (Ha w team Hw). unfold accounts in Ha. unfold history_for.
  destruct (last _); [done|]. lia.
Qed.

(** ** A concrete registry *)

Definition codeowners_text : string :=
  join newline ["*                   @maintainers"; "/charts/            @devops-team"; "/src/controller/    @kubernetes-experts";
                "*.sql               @db-team # trailing comment"].

Example codeowners_ex :
  codeowners_match "*" "src/main.rs" = true ∧ codeowners_match "/charts/" "charts/stellar-operator/values.yaml" = true
  ∧ codeowners_match "/charts/" "docs/charts/x.md" = false ∧ codeowners_match "*.sql" "db/migrations/001.sql" = true
  ∧ codeowners_match "/src/controller/mtls.rs" "src/controller/mtls.rs" = true
  ∧ codeowners_for codeowners_text "src/controller/foo.rs" = ["@kubernetes-experts"]
  ∧ codeowners_for codeowners_text "README.md" = ["@maintainers"] ∧ codeowners_for codeowners_text "db/a.sql" = ["@db-team"].
Proof. vm_compute. split_and!; reflexivity. Qed.

(** Two stars swallow the slash after them, so they need not end at a segment; and a star at the
    end of a pattern reaches into directories, through what lies under it. *)
Example stars_ex :
  codeowners_match "/src/**/main.rs" "src/domain.rs" = true ∧ codeowners_match "/src/**/main.rs" "src/a/main.rs" = true
  ∧ codeowners_match "docs/*" "docs/a/b.md" = true ∧ codeowners_match "docs/*.md" "docs/a/b.md" = false.
Proof. vm_compute. split_and!; reflexivity. Qed.

Definition team (name handle : string) (live : bool) : TeamRotation.t :=
  {| TeamRotation.team := name; TeamRotation.handles := [handle]; TeamRotation.rotation := name +:+ "-primary";
     TeamRotation.receiver := name +:+ "-pager"; TeamRotation.live := live |}.
Definition a_spec (limit : nat) : Spec.t :=
  {| Spec.owner_label := Spec.default_owner_label; Spec.deploy_annotation := Spec.default_deploy_annotation;
     Spec.source_path_annotation := Spec.default_source_path_annotation; Spec.codeowners := Some codeowners_text;
     Spec.teams := [team "platform" "@maintainers" true; team "devops" "@devops-team" true; team "k8s" "@kubernetes-experts" true;
                    team "db" "@db-team" false];
     Spec.excluded_namespaces := ["kube-system"]; Spec.alertmanager_url := Some "http://alertmanager/"; Spec.history_limit := limit |}.
Definition object (ns name : string) (labels annotations : attributes) : ObjectMeta.t :=
  {| ObjectMeta.namespace := Some ns; ObjectMeta.name := Some name; ObjectMeta.labels := Some labels; ObjectMeta.annotations := Some annotations |}.

Definition api : event_log → ∀ X : Set, registry_op X → X := λ _ X op,
  match op in registry_op X return X with
  | ListDeployments => Ok [object "stellar" "a" [("stellar.org/owner", "devops")] [("stellar.org/deployed-by-team", "k8s")];
                           object "stellar" "c" [] [("stellar.org/source-path", "charts/foo")]]
  | ListStatefulSets => Ok [object "stellar" "db" [] [("stellar.org/source-path", "db/schema.sql")]]
  | ListDaemonSets => Ok [object "kube-system" "kube-proxy" [] []; object "stellar" "orphan" [] []]
  | UtcNow => 5%Z
  | UtcText => "t"
  | PatchStatus _ _ => Ok tt
  | PostAlerts _ _ => Ok tt
  end.

Definition a_registry : Registry.t := {| Registry.name_any := "owners"; Registry.spec := a_spec 100; Registry.status := None |}.
Definition a_cycle : event_log * result Status.t registry_error := run api (reconcile_ownership_registry a_registry) [].
Definition a_status : Status.t := match a_cycle.2 with Ok st => st | Err _ => Status.default end.

Example a_cycle_ex :
  (λ e, (WorkloadRef.name (OwnershipEntry.workload e), OwnershipEntry.team e, OwnershipEntry.source e)) <$> Status.entries a_status
    = [("a", "devops", Label); ("c", "devops", Codeowners)]
  ∧ WorkloadRef.name <$> Status.unowned a_status = ["orphan"]
  ∧ (λ x, (WorkloadRef.name (StaleOwnership.workload x), StaleOwnership.reason x)) <$> Status.stale a_status
    = [("db", "rotation 'db-primary' has no one on call")]
  ∧ Status.unowned_count a_status = 2%Z ∧ length (Status.history a_status) = 3
  ∧ Condition.message <$> Status.conditions a_status = ["2 owned, 1 unowned, 1 stale"].
Proof. vm_compute. split_and!; reflexivity. Qed.

Definition workload_a : meta :=
  meta_of "Deployment" (object "stellar" "a" [("stellar.org/owner", "devops")] [("stellar.org/deployed-by-team", "k8s")]).
Definition alert_labels : attributes := [("deployment", "a"); ("namespace", "stellar"); ("severity", "page")].

Lemma alerts_reach_the_owner_witness :
  exec (reconcile_ownership_registry a_registry) a_cycle.1 (Ok a_status)
  ∧ OwnershipEntry.receiver <$> attribute_alert a_status alert_labels = Some "devops-pager".
Proof.
  assert (exec (reconcile_ownership_registry a_registry) a_cycle.1 (Ok a_status)) as Hex.
  { pose proof (run_exec api (reconcile_ownership_registry a_registry)) as Hrun. fold a_cycle in Hrun.
    assert (a_cycle.2 = Ok a_status) as E by (vm_compute; reflexivity). by rewrite E in Hrun. }
  split; [exact Hex|].
  destruct (alerts_reach_the_owner a_registry a_cycle.1 a_status workload_a Hex) as (_ & Ha & _).
  - assert (bool_decide (NoDup (ref <$> listed a_cycle.1)) = true) as H by (vm_compute; reflexivity). by apply bool_decide_eq_true in H.
  - assert (listed a_cycle.1 !! 0 = Some workload_a) as H by (vm_compute; reflexivity). by apply list_elem_of_lookup_2 in H.
  - reflexivity.
  - rewrite Ha; [vm_compute; reflexivity|]. split; [reflexivity|]. exists "deployment". split; [by left|].
    intros l k Hin. unfold ALERT_WORKLOAD_LABELS in Hin. rewrite !elem_of_cons, elem_of_nil in Hin.
    destruct Hin as [[= -> ->]|[[= -> ->]|[[= -> ->]|[]]]]; reflexivity.
Defined.

(** *** Cycles *)

Definition labelled (owner : string) : meta := meta_of "Deployment" (object "stellar" "a" [("stellar.org/owner", owner)] []).
Definition then_cycle (limit : nat) (ws : list meta) (st : Status.t) : Status.t := derive_status (a_spec limit) ws st 7 "t".

Lemma then_reached limit ws st : reached limit st → bool_decide (NoDup (ref <$> ws)) = true → reached limit (then_cycle limit ws st).
Proof. intros Hr Hnd. apply bool_decide_eq_true in Hnd. by constructor. Qed.

Definition two_cycles : Status.t := then_cycle 1 [labelled "k8s"] (then_cycle 1 [labelled "devops"] Status.default).

Lemma history_names_the_owner_witness :
  reached 1 two_cycles ∧ attributed two_cycles (ref (labelled "k8s")) "k8s"
  ∧ (OwnershipChange.team <$> last (history_for two_cycles (ref (labelled "k8s")))) = Some (Some "k8s").
Proof.
  assert (reached 1 two_cycles) as Hr by (do 2 (apply then_reached; [|reflexivity]); constructor).
  assert (attributed two_cycles (ref (labelled "k8s")) "k8s") as Ha.
  { left. eexists. split; [apply list_elem_of_here|]. split; reflexivity. }
  split_and!; [exact Hr|exact Ha|].
  destruct (history_names_the_owner 1 two_cycles Hr) as (_ & _ & Hl). specialize (Hl _ _ Ha).
  assert (is_Some (last (history_for two_cycles (ref (labelled "k8s"))))) as [c Hc] by (vm_compute; eauto).
  rewrite Hc in Hl |- *. simpl. by rewrite Hl.
Defined.

(** A workload that goes away and comes back without an owner: no record is made, so the history
    still names the team it once had. *)
Definition bare : meta := meta_of "Deployment" (object "stellar" "a" [] []).
Definition came_back : Status.t :=
  then_cycle 100 [bare] (then_cycle 100 [] (then_cycle 100 [labelled "devops"] Status.default)).
Example came_back_ex :
  Status.unowned came_back = [ref bare] ∧ OwnershipChange.team <$> history_for came_back (ref bare) = [Some "devops"].
Proof. vm_compute. split; reflexivity. Qed.
